(* ===== verification/_CoqProject ===== *)
-Q . S2P
Prelude.v
Numerals.v
Text.v
FormAliases.v
SgmlBundle.v
Sql.v
Serialization.v
PyJson.v
Durable.v
Hashing.v
ParquetWriter.v
Binary64.v
Rounding.v
RateLimiter.v
Closures.v
AntiChain.v
Subsumption.v
PartitionSearch.v
Scoping.v
Atoms.v
Rollforward.v
Url.v
Partitions.v
Identity.v
Regex.v
SecUrls.v
Calendar.v
HttpCache.v
Transport.v
HttpClient.v
Pacing.v
HttpStream.v
Frames.v
Broker.v
RunStateModels.v
RunLock.v
InventoryLock.v
RunStateSchema.v
RunStateOperations.v
RunStateStore.v
RunStateConsistency.v
RunStateProperties.v
WorkOrder.v
RunManifest.v
Outcomes.v
Checkpoint.v
Progress.v
Scheduler.v
Coordinator.v
Automaton.v
Matcher.v
Evidence.v
SnapshotCatalog.v
SnapshotLineage.v
SnapshotProperties.v
Retention.v
Doctor.v
Relations.v
PointQuery.v
Compaction.v
CellAllocation.v
