(* ===== verification/Prelude.v ===== *)
(** * Verification of edgar-sec: durable pipelines and their foundations

    edgar-sec acquires, inventories and analyses SEC filings.  This library models the
    parts of it that decide what is kept, retried, resumed and divided among workers, as
    executable definitions translated from [src/edgar_sec], and proves what makes them
    correct.

    ** Layers and files

    Foundations.
    - [Prelude]: Python exceptions ([exn]), the error monad [result], dynamically typed
      values ([pyval]), and lemmas on lists and maps every component uses.
    - [Numerals]: [int(s)], [str(n)], zero padding.  [Text]: upper case, stripping,
      suffixes.  [Sql]: three-valued conditions.
    - [Serialization]: [canonical_json] of [foundation/serialization.py].  [PyJson]: what
      the code does with values returned by [json.loads].
    - [Hashing]: [sha256_text] of [foundation/hashing.py] over UTF-8.
    - [Durable]: a computation that changes files is the list of the states it goes
      through and its result.  A crash leaves one of those states: [always P m s] says
      that all of them satisfy [P], [runs m s Q] that the computation returns in [Q].
    - [ParquetWriter]: [StagedParquetWriter] of [infra/storage/parquet.py].

    Identities and division of work.
    - [Identity]: [Cik] and [AccessionNumber] of [domain/identity.py].
    - [Partitions]: [foundation/runtime/partitions.py], [infra/distribution/partition.py].
    - [CellAllocation]: [engine/selection/cell_allocation.py].

    The run state of document acquisition ([pipelines/document_acquisition/run_state]).
    - [RunLock]: [locks.py], any number of lock objects interleaved at their system calls.
    - [RunStateModels], [RunStateSchema]: records, tables, CHECK constraints, statements.
    - [Url]: the URL check of [store.py].  [RunStateOperations]: [operations.py].
      [RunStateStore]: the writers and readers of [store.py] as transactions.
    - [RunStateConsistency]: the invariant of every database the writers reach.
      [RunStateProperties]: what it means for their callers.

    The document inventory ([pipelines/document_inventory]), in the order it runs.
    - [InventoryLock]: [run_state/run_lock.py].
    - [WorkOrder], [RunManifest]: [run_state/run_manifest.py]: the work order, its digest
      and chunks, and the manifest that decides whether a run may be resumed.
    - [Outcomes]: worker results and the rows they become ([checkpoint.py]).
    - [Progress]: [progress.py], the journal of a chunk, a transaction per accession.
    - [Scheduler]: [_bounded_results] of [coordinator.py] as a step relation.
    - [Checkpoint]: [checkpoint.py], attempt files, manifest and pointer.
    - [Coordinator]: [coordinator.py], which composes all of these: a chunk is reused,
      retried or recomputed; a complete journal is exported and finalized.

    Submissions.
    - [FormAliases]: [domain/forms/common/aliases.py], forms and their families.
    - [SgmlBundle]: [engine/document/unpacking/streaming.py], the streaming extraction of one
      document from an SGML submission.

    Lexical classification ([foundation/text]).
    - [Automaton]: the token automaton of [automaton.py], its trie, failure links and scan.
      [Matcher]: [LexicalMatcher] of the same file.
    - [Evidence]: the packs of [evidence.py], compiled tier by tier, and their scores.

    Snapshots ([infra/storage/dag]).
    - [SnapshotCatalog]: [manifest.py], and of [catalog.py], [publication.py] and [tags.py]
      the tables, writers and readers of nodes, branches and tags.
    - [SnapshotLineage]: the recursive queries of [catalog.py] and [traversal.py].
    - [SnapshotProperties]: reachable catalogs, and what both promise together.
    - [Retention], [Doctor]: [retention.py] and [doctor.py] on a catalog and a disk.
    - [Relations]: [spec.py], the views of [resolution.py], the pruned views and the point
      query of [query.py].  [PointQuery]: that pruning is sound.
    - [Compaction]: [compaction.py], which uses all of these.

    Requests to the SEC ([infra/sec_http], [infra/broker]).
    - [RateLimiter]: [rate_limit.py] in floats ([Rounding]: what rounding may do).
    - [SecUrls]: [domain/sec_urls.py], builders, classification and validation of URLs
      ([Regex]: a matcher for the patterns of paths).
    - [HttpCache]: [cache.py] and the surface policies of [settings/sec.py]; times are
      seconds, shown as text by [Calendar].
    - [Transport]: a method of the client as a program of calls on limiter, cache, metrics,
      network, clock and files; threads interleave at these calls.  [metrics.py].
    - [HttpClient]: [get_bytes] of [client.py], and [retry.py].  [HttpStream]: its
      [stream_to_file].  [Pacing]: threads that send only after their slot has come.
    - [Frames], [Broker]: [sec_broker.py], its framing and the handlers of its requests.

    XBRL facts and totals ([engine/xbrl]).
    - [Binary64]: Python floats as the Standard Library's IEEE 754 binary64, the builtin
      [sum], and when they are exact.  [Closures]: depth-first search over arcs.
    - [AntiChain]: [solve/antichain.py], selections of concepts that count nothing twice.
    - [Subsumption]: [evidence/subsumption.py], which members of an axis contain which.
    - [PartitionSearch]: [evidence/partitions.py], which sets of members make up a total.
    - [Scoping]: [solve/scoping.py] and the facts of [schema/models.py], amendments.
    - [Atoms]: [schema/atoms.py] and [schema/relations.py], coordinates of concepts.
    - [Rollforward]: [solve/rollforward_graphs.py], the signs of [taxonomy/domain.py] and the
      identities of [solve/identities.py].

    ** What the theorems show

    Safety of the locks under every interleaving and crash ([RunLock], [InventoryLock]);
    an invariant of the run-state database under every sequence of calls, with the audit
    (which passes unless operations were seeded for a target already acquired), the work
    list and the status report it implies; that a failing call changes nothing;
    round trips of identities, manifests and attempts; injectivity of what is hashed
    ([canonical_json], work-order rows), so that a hash identifies the data unless the
    hash function collides; exact sets of accepted inputs (URLs, work orders); division
    of work as partitions; termination and bounds of the scheduler; and for the inventory
    run end to end: a run that is not stopped commits every chunk that is ready (whose
    inputs are consistent and of which no kill has left a torn stage), a crash at any point
    of a retry leaves the chunk committed, a retry keeps the final outcomes and fetches
    exactly the others again.
    For submissions, where chunks cut the bytes does not matter, and from a well-formed one
    exactly the selected body is written.  For the classifier, the automaton finds what a naive search finds, and
    for packs like those of the repository stopping early does not change the decision.  For snapshots, publications of a branch form a line, accepted
    lineages are complete, queries over catalogs built parents first end, a purge keeps what
    roots need, views hold the last writers' rows, a pruned point query gives the answer of
    the whole view or raises, exactly when told, and compaction keeps the views; and where the code falls short (a purge that races a publication, a
    cycle through a second parent, a missing part file) a theorem exhibits it.
    For requests, however threads interleave, the slots of the limiter are spaced and what the
    clients send by a time is no more than they allow, in the floats the code computes (the
    redirects that the session follows by itself come on top); a throttle is honoured; a
    response is served exactly until it expires and an archive document is fetched once, unless
    a refresh is forced; a URL that failed for good is left alone; accepted URLs and redirects
    are exactly the documents of the accession's directory; a stream leaves the joined chunks of
    a complete response or nothing; the broker answers every request, and frames arrive whole.
    For XBRL, closures of arcs are exact on cyclic input, valid selections are the antichains
    that add up, frontiers keep the members no other contains, the branch-and-bound search
    loses no set of members, restated facts answer from the last filing, atoms are a
    semilattice, and rollforwards of whole amounts are checked without rounding.

    ** Conventions

    Python's [int] is [Z]; strings are lists of code points up to U+00FF unless a file
    says otherwise.  Raising is [Err]; in functions that change state, what was changed
    before raising is part of the model.  Rows of SQL tables are records in finite maps
    by primary key; column widths are checked where DuckDB checks them.  Recursion that
    is not structural runs on fuel, and each use has enough, which the theorem about the
    function shows by its result: in binary search the width of the interval
    ([CellAllocation.level]), in printing, parsing and batching the length of the input, in
    the automaton the number of states ([Automaton.follow], [Automaton.link_loop]), in a
    purge the number of candidates ([Retention.settle]), in ordering specs their number
    ([Relations.ordered_from]), in the extraction from a submission
    the pending bytes ([SgmlBundle.drain]), in a depth-first search the nodes it starts from and the
    arcs ([Closures.search], [Subsumption.grow]).  A lineage query of [catalog.py] need not end;
    [SnapshotLineage.lineage_groups] runs one level more than there are snapshots and is
    [None] exactly for the queries that do not end ([lineage_query_ends_iff]).

    Parameters, all of code outside the repository: [sha256_hexdigest] (hashlib),
    [file_sha256] (the digest of a Parquet file), the batches a Parquet or Arrow reader
    yields (their concatenation is the table: [ParquetReader], [batches_join]), the value of a
    column's type that a query engine takes a text parameter for ([Casts]), the clock
    and the identifiers the callers pass, [pid_is_alive], the results of the broker and
    worker processes, the rows of a part file ([read_parquet]), the order in which a query
    engine meets tied rows ([arrange], a permutation) and in which a set iterates
    ([order_of]); for requests, what the network, the clock and the random numbers answer
    ([input]), [urljoin], [unquote] (which keeps texts without a percent sign), [float] of a
    header ([py_float]), zstd ([compress_payload], [decompress_payload]), the texts of
    exceptions that requests raises, and the resolved settings.  A sleep ends no
    earlier than its seconds after it began, and may be too long.

    ** Not modelled

    Floats in [canonical_json]; text beyond U+00FF; fsync and directory durability (a
    rename is one step); the process pool, except for the results it delivers; the server loop,
    threads and client side of the broker, the text and JSON wrappers of the HTTP client,
    errors of the file system in a stream, statistics and VACUUM of the cache, the resolution of links
    found in pages; extraction of facts from documents by regular expressions and
    lxml ([engine/forms], [engine/tables], [engine/reflow], [engine/xbrl/parsing]); the
    decomposition of concept names, statement building, query composition and the counter
    solver of [engine/xbrl]; amounts that are NaN where they are sorted; SQL that is
    assembled for DuckDB over Parquet files outside [infra/storage/dag] (cohorts, reviews); the
    interactive menus and viewers ([apps]); settings registries and source scanners. *)
From stdpp Require Export base tactics option list strings gmap pretty sorting.
From Stdlib Require Export ZArith Lia.

#[global] Set Default Goal Selector "!".

(** * Python exceptions and the error monad

    A Python call either returns or raises.  [exn] lists the exception classes
    the modelled code raises (with the message when it is a literal). *)

Inductive exn : Type :=
  | ValueError (msg : string)
  | TypeError (msg : string)
  | KeyError (key : string)
  | RuntimeError (msg : string)
  | RunStateError (msg : string)
  | RunLockError (msg : string)
  | ManifestMismatchError (msg : string)
  | AttemptValidationError (msg : string)
  | AttributeError (msg : string)
  | OverflowError
  | FileNotFoundError
  | ArrowInvalid              (* pyarrow: not a Parquet file *)
  | ConversionException       (* duckdb: a value does not fit its column *)
  | ConstraintException       (* duckdb: duplicate primary key *)
  | CatalogException          (* duckdb: a table exists already *)
  | BinderException           (* duckdb: a column does not exist *)
  | CompactionParityError
  | FileExistsError
  | StaleParentError          (* snapshot DAG: publication and lineage *)
  | CycleDetectedError
  | BrokenLineageError (msg : string)
  | DigestMismatchError
  | IntegrityError            (* sqlite3.IntegrityError *)
  | OperationalError          (* sqlite3.OperationalError *)
  | InterfaceError.           (* sqlite3: unsupported parameter type *)

Inductive result (A : Type) : Type :=
  | Ok (a : A)
  | Err (e : exn).
Arguments Ok {A} a.
Arguments Err {A} e.

#[export] Set Warnings "-clear-no-such-hyp,-register-all".
#[global] Instance exn_eq_dec : EqDecision exn.
Proof. solve_decision. Defined.

#[global] Instance result_eq_dec {A} `{EqDecision A} : EqDecision (result A).
Proof. solve_decision. Defined.

#[global] Instance result_ret : MRet result := @Ok.
#[global] Instance result_bind : MBind result := λ A B f m,
  match m with Ok a => f a | Err e => Err e end.
#[global] Instance result_fmap : FMap result := λ A B f m,
  match m with Ok a => Ok (f a) | Err e => Err e end.

(** [raise_if b e] is the statement [if b: raise e]. *)
Definition raise_if (b : bool) (e : exn) : result unit :=
  if b then Err e else Ok tt.

(** [require o e] unwraps an optional value or raises. *)
Definition require {A} (o : option A) (e : exn) : result A :=
  match o with Some a => Ok a | None => Err e end.

Definition is_ok {A} (r : result A) : bool :=
  match r with Ok _ => true | Err _ => false end.

(** A generator or tuple comprehension whose body may raise. *)
Fixpoint mapr {A B} (f : A → result B) (l : list A) : result (list B) :=
  match l with
  | [] => Ok []
  | x :: l => y ← f x; ys ← mapr f l; Ok (y :: ys)
  end.

(** A [for] loop over [l] that updates an accumulator and may raise. *)
Fixpoint foldr_m {A S} (f : S → A → result S) (s : S) (l : list A) : result S :=
  match l with
  | [] => Ok s
  | x :: l => s' ← f s x; foldr_m f s' l
  end.

Section result_lemmas.
Context {A B : Type}.
Implicit Types (m : result A) (f : A → result B).

Lemma bind_Ok m f b : (m ≫= f) = Ok b ↔ ∃ a, m = Ok a ∧ f a = Ok b.
Proof. destruct m; simpl; naive_solver. Qed.

Lemma bind_Err m f e :
  (m ≫= f) = Err e ↔ m = Err e ∨ ∃ a, m = Ok a ∧ f a = Err e.
Proof. destruct m; simpl; naive_solver. Qed.

Lemma raise_if_Ok (c : bool) e u : raise_if c e = Ok u ↔ c = false.
Proof. destruct u, c; simpl; naive_solver. Qed.

Lemma require_Ok (o : option A) e a : require o e = Ok a ↔ o = Some a.
Proof. destruct o; simpl; naive_solver. Qed.

Lemma mapr_Ok (f : A → result B) l k :
  mapr f l = Ok k ↔ Forall2 (λ x y, f x = Ok y) l k.
Proof.
  revert k; induction l as [|x l IH]; intros k; simpl.
  { split; [intros [= <-]; constructor | by inversion 1]. }
  split.
  - destruct (f x) as [y|] eqn:Hy; simpl; [|done].
    destruct (mapr f l) as [ys|] eqn:Hys; simpl; [|done].
    intros [= <-]. constructor; [done|]. by apply IH.
  - inversion_clear 1 as [|? y ? ys Hy Hys]. rewrite Hy; simpl.
    apply IH in Hys. by rewrite Hys.
Qed.

Lemma foldr_m_app (g : A → B → result A) s l k :
  foldr_m g s (l ++ k) = (s' ← foldr_m g s l; foldr_m g s' k).
Proof.
  revert s; induction l as [|x l IH]; intros s; simpl; [done|].
  destruct (g s x); simpl; [apply IH | done].
Qed.

(** A loop invariant: what every iteration preserves, the loop preserves. *)
Lemma foldr_m_inv (P : A → Prop) (g : A → B → result A) s l s' :
  (∀ s x s', P s → x ∈ l → g s x = Ok s' → P s') →
  P s → foldr_m g s l = Ok s' → P s'.
Proof.
  revert s; induction l as [|x l IH]; intros s Hg Hs; simpl.
  { by intros [= <-]. }
  destruct (g s x) as [s1|] eqn:Hs1; simpl; [|done].
  intros Hl. eapply IH; [| |exact Hl].
  - intros ? ? ? ? ?. apply Hg; [done | by right].
  - eapply Hg; [done | by left | done].
Qed.
End result_lemmas.

(** [inv_ok] takes a successful run of a monadic program apart: every bind, guard
    and [require] in a hypothesis [_ = Ok _] becomes an equation. *)
Ltac inv_ok_step :=
  match goal with
  | H : Err _ = Ok _ |- _ => discriminate H
  | H : Ok _ = Ok _ |- _ => injection H as H; try subst
  | H : mbind _ _ = Ok _ |- _ =>
      apply bind_Ok in H; destruct H as (? & ? & ?)
  | H : raise_if _ _ = Ok _ |- _ => apply raise_if_Ok in H
  | H : require _ _ = Ok _ |- _ => apply require_Ok in H
  | H : context [let '(_, _) := ?p in _] |- _ => is_var p; destruct p
  | H : (match ?x with Some _ => _ | None => _ end) = Ok _ |- _ =>
      let E := fresh "E" in destruct x eqn:E; try discriminate H
  end.
Ltac inv_ok := repeat inv_ok_step.

(** Boolean guards in hypotheses and goals, as propositions. *)
Create Rewrite HintDb boolprop.
#[export] Hint Rewrite orb_false_iff andb_true_iff orb_true_iff andb_false_iff
  negb_false_iff negb_true_iff bool_decide_eq_true bool_decide_eq_false
  Z.eqb_eq Z.eqb_neq Z.leb_le Z.leb_gt Z.ltb_lt Z.ltb_ge : boolprop.
Ltac boolprop := autorewrite with boolprop in *.

(** * Dynamic Python values

    The run-state seeds are untyped mappings whose fields the code checks with
    [isinstance]; [VObj] stands for any other (hashable) object. *)

Inductive pyval : Type :=
  | VNone
  | VBool (b : bool)
  | VInt (z : Z)
  | VStr (s : string)
  | VObj (tag : string).

#[global] Instance pyval_eq_dec : EqDecision pyval.
Proof. solve_decision. Defined.

Definition pyobj : Type := gmap string pyval.

(** [isinstance(v, str) and v]: a non-empty string. *)
Definition is_nonempty_str (v : pyval) : bool :=
  match v with VStr s => bool_decide (s ≠ "") | _ => false end.

Definition is_none (v : pyval) : bool :=
  match v with VNone => true | _ => false end.

Definition is_bool (v : pyval) : bool :=
  match v with VBool _ => true | _ => false end.

(** Truth value of a field already known to be a [bool]. *)
Definition truthy (v : pyval) : bool :=
  match v with
  | VNone => false | VBool b => b | VInt z => negb (z =? 0)%Z
  | VStr s => bool_decide (s ≠ "") | VObj _ => true
  end.

(** Python [==]: [True] and [False] equal the integers 1 and 0. *)
Definition py_num (v : pyval) : option Z :=
  match v with VBool b => Some (Z.b2z b) | VInt z => Some z | _ => None end.

Definition py_eqb (v w : pyval) : bool :=
  match py_num v, py_num w with
  | Some x, Some y => (x =? y)%Z
  | _, _ => bool_decide (v = w)
  end.

Definition py_in (v : pyval) (l : list pyval) : bool := existsb (py_eqb v) l.

Lemma is_nonempty_str_true v :
  is_nonempty_str v = true ↔ ∃ s, v = VStr s ∧ s ≠ "".
Proof. destruct v; simpl; rewrite ?bool_decide_eq_true; naive_solver. Qed.

Lemma py_eqb_str v s : py_eqb v (VStr s) = true ↔ v = VStr s.
Proof.
  destruct v; unfold py_eqb; simpl; rewrite ?bool_decide_eq_true; naive_solver.
Qed.

(** Comparisons of string literals compute. *)
Lemma bool_decide_VStr_eq s t : bool_decide (VStr s = VStr t) = String.eqb s t.
Proof.
  destruct (String.eqb_spec s t); [by rewrite bool_decide_true by congruence|].
  rewrite bool_decide_false; congruence.
Qed.
Lemma bool_decide_VStr_ne s t : bool_decide (VStr s ≠ VStr t) = negb (String.eqb s t).
Proof. by rewrite bool_decide_not, bool_decide_VStr_eq. Qed.
Lemma bool_decide_str_eq (s t : string) : bool_decide (s = t) = String.eqb s t.
Proof.
  destruct (String.eqb_spec s t); [by rewrite bool_decide_true|].
  by rewrite bool_decide_false.
Qed.
Lemma bool_decide_str_ne (s t : string) : bool_decide (s ≠ t) = negb (String.eqb s t).
Proof. by rewrite bool_decide_not, bool_decide_str_eq. Qed.
Create Rewrite HintDb literals.
#[export] Hint Rewrite bool_decide_VStr_eq bool_decide_VStr_ne bool_decide_str_eq
  bool_decide_str_ne : literals.

Lemma py_in_strs v l :
  py_in v (VStr <$> l) = true ↔ ∃ s, v = VStr s ∧ s ∈ l.
Proof.
  unfold py_in. rewrite existsb_exists. split.
  - intros (w & Hw & Hv). rewrite <- list_elem_of_In, list_elem_of_fmap in Hw.
    destruct Hw as (s & -> & Hs). apply py_eqb_str in Hv. eauto.
  - intros (s & -> & Hs). exists (VStr s). split.
    + rewrite <- list_elem_of_In, list_elem_of_fmap. eauto.
    + by apply py_eqb_str.
Qed.

(** * Strings (code points up to U+00FF) *)

(** [str.isspace] on a code point up to U+00FF. *)
Definition is_py_space (c : Ascii.ascii) : bool :=
  let n := Ascii.nat_of_ascii c in
  ((9 <=? n) && (n <=? 13) || (28 <=? n) && (n <=? 32) || (n =? 133) || (n =? 160))%nat.

Fixpoint lstrip (s : string) : string :=
  match s with
  | EmptyString => EmptyString
  | String c s' => if is_py_space c then lstrip s' else s
  end.

Definition rstrip (s : string) : string := String.rev (lstrip (String.rev s)).
Definition strip (s : string) : string := rstrip (lstrip s).

(** [c in s] for a one-character string. *)
Fixpoint has_char (c : Ascii.ascii) (s : string) : bool :=
  match s with
  | EmptyString => false
  | String d s' => bool_decide (c = d) || has_char c s'
  end.

(** [str.partition(c)] : the text before the first [c], whether it occurs, the rest. *)
Fixpoint partition_char (c : Ascii.ascii) (s : string) : string * bool * string :=
  match s with
  | EmptyString => (EmptyString, false, EmptyString)
  | String d s' =>
      if bool_decide (c = d) then (EmptyString, true, s')
      else let '(a, found, b) := partition_char c s' in (String d a, found, b)
  end.

Definition lower_ascii (c : Ascii.ascii) : Ascii.ascii :=
  let n := Ascii.nat_of_ascii c in
  if ((65 <=? n) && (n <=? 90))%nat then Ascii.ascii_of_nat (n + 32) else c.

Fixpoint string_map (f : Ascii.ascii → Ascii.ascii) (s : string) : string :=
  match s with
  | EmptyString => EmptyString
  | String c s' => String (f c) (string_map f s')
  end.

Fixpoint string_forallb (p : Ascii.ascii → bool) (s : string) : bool :=
  match s with
  | EmptyString => true
  | String c s' => p c && string_forallb p s'
  end.

Lemma append_cons c (s t : string) : String c s +:+ t = String c (s +:+ t).
Proof. done. Qed.
Lemma append_nil (t : string) : "" +:+ t = t.
Proof. done. Qed.
Lemma append_assoc (s1 s2 s3 : string) : (s1 +:+ s2) +:+ s3 = s1 +:+ (s2 +:+ s3).
Proof.
  induction s1 as [|c s1 IH]; rewrite ?append_nil, ?append_cons; [done|]. by rewrite IH.
Qed.
Lemma append_nil_r (s : string) : s +:+ "" = s.
Proof. induction s as [|c s IH]; rewrite ?append_cons; [done|]. by rewrite IH. Qed.
Lemma length_append (s1 s2 : string) :
  String.length (s1 +:+ s2) = String.length s1 + String.length s2.
Proof.
  induction s1 as [|c s1 IH]; rewrite ?append_nil, ?append_cons; simpl; [done|].
  by rewrite IH.
Qed.
Create Rewrite HintDb strings.
#[export] Hint Rewrite append_nil append_cons append_assoc append_nil_r : strings.

Lemma string_forallb_app p s t :
  string_forallb p (s +:+ t) = string_forallb p s && string_forallb p t.
Proof.
  induction s as [|c s IH]; rewrite ?append_nil, ?append_cons; simpl; [done|].
  by rewrite IH, andb_assoc.
Qed.

Definition char_in (l : string) (c : Ascii.ascii) : bool := has_char c l.

(** Slices [s[:n]] and [s[n:]]. *)
Fixpoint str_take (n : nat) (s : string) : string :=
  match n, s with
  | S n, String c s' => String c (str_take n s')
  | _, _ => EmptyString
  end.
Fixpoint str_drop (n : nat) (s : string) : string :=
  match n, s with
  | S n, String _ s' => str_drop n s'
  | O, _ => s
  | _, EmptyString => EmptyString
  end.

Lemma str_take_app n s t : String.length s = n → str_take n (s +:+ t) = s.
Proof. intros <-. induction s as [|c s IH]; [by destruct t|]. rewrite append_cons. simpl. by rewrite IH. Qed.
Lemma str_drop_app n s t : String.length s = n → str_drop n (s +:+ t) = t.
Proof. intros <-. induction s as [|c s IH]; [by destruct t|]. rewrite append_cons. exact IH. Qed.

Lemma str_take_drop n s : str_take n s +:+ str_drop n s = s.
Proof.
  revert s; induction n as [|n IH]; intros [|c s]; try reflexivity.
  simpl. rewrite append_cons. by rewrite IH.
Qed.
Lemma str_drop_drop n m s : str_drop n (str_drop m s) = str_drop (m + n) s.
Proof. revert s; induction m as [|m IH]; intros [|c s]; simpl; auto; by destruct n. Qed.
Lemma str_drop_all n s : (String.length s ≤ n)%nat → str_drop n s = "".
Proof. revert s; induction n as [|n IH]; intros [|c s] H; simpl in *; auto; [lia|]. apply IH. lia. Qed.

(** * Comparison of tuples of strings *)

Fixpoint strings_le (p q : list string) : Prop :=
  match p, q with
  | [], _ => True
  | x :: p, y :: q => if decide (x = y) then strings_le p q else String.le x y
  | _ :: _, [] => False
  end.
#[global] Instance strings_le_dec : RelDecision strings_le.
Proof.
  intros p. induction p as [|x p IH]; intros [|y q]; simpl; try apply _.
  destruct (decide (x = y)); [apply IH|apply _].
Defined.
#[global] Instance strings_le_total : Total strings_le.
Proof.
  intros p. induction p as [|x p IH]; intros [|y q]; simpl; auto.
  destruct (decide (x = y)) as [->|Hxy]; [rewrite decide_True by done; apply IH|].
  rewrite decide_False by done. apply (total String.le).
Qed.
#[global] Instance strings_le_trans : Transitive strings_le.
Proof.
  intros p1 p2 p3. revert p1 p3. induction p2 as [|y p2 IH]; intros [|x p1] [|z p3]; simpl; try done.
  destruct (decide (x = y)) as [->|Hxy], (decide (y = z)) as [->|Hyz].
  - rewrite ?decide_True by done. apply IH.
  - rewrite ?decide_False by done. done.
  - rewrite ?decide_False by done. done.
  - intros H1 H2. destruct (decide (x = z)) as [->|Hxz]; [|by etrans].
    exfalso. apply Hxy. by apply (anti_symm String.le).
Qed.
#[global] Instance strings_le_antisymm : AntiSymm (=) strings_le.
Proof.
  intros p. induction p as [|x p IH]; intros [|y q]; simpl; try done.
  destruct (decide (x = y)) as [->|Hxy].
  - rewrite decide_True by done. intros H1 H2. f_equal. by apply IH.
  - rewrite decide_False by done. intros H1 H2. destruct Hxy. by apply (anti_symm String.le).
Qed.

(** * Filters *)

Lemma filter_fmap {A B} (f : A → B) (P : B → Prop) `{∀ x, Decision (P x)} (l : list A) :
  filter P (f <$> l) = f <$> filter (λ x, P (f x)) l.
Proof. induction l as [|x l IH]; [done|]. rewrite fmap_cons, !filter_cons, IH. by case_decide. Qed.
Lemma filter_ext_in {A} (P Q : A → Prop) `{∀ x, Decision (P x)} `{∀ x, Decision (Q x)} (l : list A) :
  (∀ x, x ∈ l → P x ↔ Q x) → filter P l = filter Q l.
Proof.
  induction l as [|x l IH]; intros Hl; [done|]. rewrite !filter_cons, IH by (intros y Hy; apply Hl; by right).
  destruct (Hl x ltac:(left)). repeat case_decide; tauto.
Qed.
Lemma filter_split {A} (P Q : A → Prop) `{∀ x, Decision (P x)} `{∀ x, Decision (Q x)} (l : list A) :
  (∀ x, x ∈ l → P x → ¬ Q x) → filter (λ x, P x ∨ Q x) l ≡ₚ filter P l ++ filter Q l.
Proof.
  induction l as [|x l IH]; intros Hd; [done|]. rewrite !filter_cons.
  assert (filter (λ x, P x ∨ Q x) l ≡ₚ filter P l ++ filter Q l) as IH' by (apply IH; intros y Hy; apply Hd; by right).
  destruct (decide (P x)) as [Hp|Hp], (decide (Q x)) as [Hq|Hq].
  - by destruct (Hd x ltac:(left) Hp).
  - rewrite decide_True by auto. by rewrite IH'.
  - rewrite decide_True by auto. by rewrite IH', Permutation_middle.
  - rewrite decide_False by tauto. done.
Qed.
Lemma filter_all {A} (P : A → Prop) `{∀ x, Decision (P x)} (l : list A) :
  (∀ x, x ∈ l → P x) → filter P l = l.
Proof.
  induction l as [|x l IH]; intros Hl; [done|].
  rewrite filter_cons_True by (apply Hl; by left). f_equal. apply IH.
  intros y Hy. apply Hl. by right.
Qed.

Lemma list_filter_none {A} (P : A → Prop) `{∀ x, Decision (P x)} (l : list A) :
  (∀ x, x ∈ l → ¬ P x) → filter P l = [].
Proof.
  induction l as [|x l IH]; intros Hl; [done|].
  rewrite filter_cons_False by (apply Hl; by left). apply IH.
  intros y Hy. apply Hl. by right.
Qed.

Lemma NoDup_key_inj {A B} (f : A → B) l x y : NoDup (f <$> l) → x ∈ l → y ∈ l → f x = f y → x = y.
Proof.
  induction l as [|z l IH]; simpl; [set_solver|].
  intros [Hz Hnd]%NoDup_cons [->|Hx]%elem_of_cons [->|Hy]%elem_of_cons Hf; [done|..|by apply IH];
    destruct Hz; [rewrite Hf|rewrite <- Hf]; by apply list_elem_of_fmap_2.
Qed.

(** * Ordering by a string key

    [ORDER BY key], [sorted(d.items())]: rows sorted by a text column (SQLite's BINARY
    collation and Python's [str] order agree on these code points). *)
Section sort_key.
Context {A : Type} (key : A → string).

Definition key_le (x y : A) : Prop := String.le (key x) (key y).
#[global] Instance key_le_dec : RelDecision key_le.
Proof. unfold key_le. intros x y. apply _. Defined.
#[global] Instance key_le_trans : Transitive key_le.
Proof. intros x y z. unfold key_le. apply transitivity. Qed.
#[global] Instance key_le_total : Total key_le.
Proof. intros x y. apply (total String.le). Qed.

Definition order_by (l : list A) : list A := merge_sort key_le l.

Lemma order_by_Permutation l : order_by l ≡ₚ l.
Proof. apply merge_sort_Permutation. Qed.

Lemma order_by_sorted l : StronglySorted key_le (order_by l).
Proof. apply StronglySorted_merge_sort; apply _. Qed.

Lemma order_by_keys_sorted l : StronglySorted String.le (key <$> order_by l).
Proof.
  induction (order_by_sorted l) as [|x k _ IH Hx]; simpl; constructor; [done|].
  by rewrite Forall_fmap.
Qed.

Lemma elem_of_order_by x l : x ∈ order_by l ↔ x ∈ l.
Proof. by rewrite order_by_Permutation. Qed.

(** With distinct keys the sorted order depends only on the set of elements. *)
Lemma sorted_by_key_unique l k :
  StronglySorted key_le l → StronglySorted key_le k → NoDup (key <$> l) → l ≡ₚ k → l = k.
Proof.
  intros Hl Hk Hnd Hlk. eapply StronglySorted_unique_strong; [|exact Hl|exact Hk|done].
  intros x y Hx Hy Hxy Hyx. rewrite <- Hlk in Hy.
  assert (He : key x = key y) by (apply (anti_symm String.le); done).
  apply list_elem_of_lookup in Hx as [i Hi], Hy as [j Hj].
  assert (i = j) as ->; [|congruence].
  eapply NoDup_lookup; [exact Hnd| |];
    rewrite list_lookup_fmap, ?Hi, ?Hj; simpl; by rewrite ?He.
Qed.
Lemma order_by_unique l k :
  NoDup (key <$> l) → l ≡ₚ k → order_by l = order_by k.
Proof.
  intros Hnd Hlk. apply sorted_by_key_unique; [apply order_by_sorted..| |];
    by rewrite !order_by_Permutation.
Qed.
Lemma order_by_id l : StronglySorted key_le l → NoDup (key <$> l) → order_by l = l.
Proof.
  intros Hs Hnd. symmetry. apply sorted_by_key_unique; auto using order_by_sorted.
  by rewrite order_by_Permutation.
Qed.

Lemma NoDup_order_by l : NoDup (key <$> l) → NoDup (key <$> order_by l).
Proof. by rewrite order_by_Permutation. Qed.
End sort_key.
