(* ===== verification/Numerals.v ===== *)
(** * Python integers as text

    [int(s)], [str(n)] and the zero-padded format [f"{n:0wd}"], on code points up to
    U+00FF (where only '0'..'9' are decimal digits). *)
From S2P Require Import Prelude.
From Stdlib Require Import Ascii.

Definition code (c : ascii) : nat := nat_of_ascii c.
Definition is_digit (c : ascii) : bool := ((48 <=? code c) && (code c <=? 57))%nat.
Definition digit_value (c : ascii) : Z := Z.of_nat (code c - 48).

Fixpoint int_of_digits (acc : Z) (s : string) : Z :=
  match s with
  | EmptyString => acc
  | String c s' => int_of_digits (acc * 10 + digit_value c) s'
  end.

(** The digits of an integer literal, without the single underscores between them. *)
Fixpoint literal_digits (after_digit : bool) (s : string) : option string :=
  match s with
  | EmptyString => if after_digit then Some EmptyString else None
  | String c s' =>
      if is_digit c then String c <$> literal_digits true s'
      else if bool_decide (c = "_"%char) && after_digit then literal_digits false s'
      else None
  end.

(** [int(s)]: white space, a sign, digits. *)
Definition unsigned_int (s : string) : result Z :=
  digits ← require (literal_digits false s) (ValueError "invalid literal for int()");
  Ok (int_of_digits 0 digits).
Definition int_of_string (s : string) : result Z :=
  match strip s with
  | String "-"%char s' => Z.opp <$> unsigned_int s'
  | String "+"%char s' => unsigned_int s'
  | s' => unsigned_int s'
  end.

(** [str(n)] of an int. *)
Definition str_of_int (n : Z) : string := if (n <? 0)%Z then "-" +:+ pretty (Z.abs_N n) else pretty (Z.abs_N n).

Fixpoint zeros (n : nat) : string :=
  match n with O => EmptyString | S n => String "0"%char (zeros n) end.
(** [f"{n:0{width}d}"]: zeros after the sign. *)
Definition zero_padded (width : nat) (n : Z) : string :=
  let digits := pretty (Z.abs_N n) in
  if (n <? 0)%Z then "-" +:+ zeros (width - 1 - String.length digits) +:+ digits
  else zeros (width - String.length digits) +:+ digits.

Example int_literal : int_of_string " +1_000 " = Ok 1000%Z.
Proof. reflexivity. Qed.
Example int_bad : is_ok (int_of_string "1__0") = false.
Proof. reflexivity. Qed.

(** ** Reading back what was printed *)

Lemma int_of_digits_app acc s t :
  int_of_digits acc (s +:+ t) = int_of_digits (int_of_digits acc s) t.
Proof.
  revert acc; induction s as [|c s IH]; intros acc; rewrite ?append_nil, ?append_cons; [done|].
  apply IH.
Qed.

Lemma pretty_N_char_digit x :
  (x < 10)%N → is_digit (pretty_N_char x) = true ∧ digit_value (pretty_N_char x) = Z.of_N x.
Proof.
  intros Hx. assert (x = 0 ∨ x = 1 ∨ x = 2 ∨ x = 3 ∨ x = 4 ∨ x = 5 ∨ x = 6 ∨ x = 7 ∨ x = 8 ∨ x = 9)%N
    as Hc by lia.
  by repeat destruct Hc as [-> | Hc]; [..|subst].
Qed.

Lemma pretty_N_go_digits x s :
  string_forallb is_digit s = true → string_forallb is_digit (pretty_N_go x s) = true.
Proof.
  revert s; induction (N.lt_wf_0 x) as [x _ IH]; intros s Hs.
  destruct (decide (0 < x)%N) as [Hx|Hx].
  - rewrite pretty_N_go_step by done. apply IH; [by apply N.div_lt|]. simpl. rewrite Hs.
    by destruct (pretty_N_char_digit (x mod 10)) as [-> _]; [apply N.mod_lt|].
  - assert (x = 0%N) as -> by lia. by rewrite pretty_N_go_0.
Qed.

Lemma pretty_N_go_value x s :
  int_of_digits 0 (pretty_N_go x s) = int_of_digits (Z.of_N x) s.
Proof.
  revert s; induction (N.lt_wf_0 x) as [x _ IH]; intros s.
  destruct (decide (0 < x)%N) as [Hx|Hx].
  - rewrite pretty_N_go_step by done. rewrite IH by (by apply N.div_lt). simpl.
    destruct (pretty_N_char_digit (x mod 10)) as [_ ->]; [by apply N.mod_lt|].
    f_equal. rewrite N2Z.inj_div, N2Z.inj_mod. simpl.
    rewrite Z.mul_comm. symmetry. apply Z.div_mod. done.
  - assert (x = 0%N) as -> by lia. by rewrite pretty_N_go_0.
Qed.

Lemma pretty_N_digits (n : N) : string_forallb is_digit (pretty n) = true.
Proof. unfold pretty, pretty_N. case_decide; [done|]. by apply pretty_N_go_digits. Qed.
Lemma pretty_N_value (n : N) : int_of_digits 0 (pretty n) = Z.of_N n.
Proof. unfold pretty, pretty_N. case_decide as H; [by rewrite H|]. apply pretty_N_go_value. Qed.

Lemma pretty_N_go_nonempty x s : (0 < x)%N ∨ s ≠ "" → pretty_N_go x s ≠ "".
Proof.
  revert s; induction (N.lt_wf_0 x) as [x _ IH]; intros s Hs.
  destruct (decide (0 < x)%N) as [Hx|Hx].
  - rewrite pretty_N_go_step by done. apply IH; [by apply N.div_lt|]. by right.
  - assert (x = 0%N) as -> by lia. rewrite pretty_N_go_0. destruct Hs; [lia|done].
Qed.
Lemma pretty_N_nonempty (n : N) : pretty n ≠ "".
Proof.
  unfold pretty, pretty_N. case_decide; [done|]. apply pretty_N_go_nonempty. left. lia.
Qed.

Lemma literal_digits_all after s :
  string_forallb is_digit s = true → after = true ∨ s ≠ "" → literal_digits after s = Some s.
Proof.
  revert after; induction s as [|c s IH]; intros after; simpl.
  - intros _ [-> | []]; done.
  - intros [Hc Hs]%andb_true_iff _. rewrite Hc, IH by auto. done.
Qed.

Lemma zeros_value acc n : int_of_digits 0 (zeros n +:+ acc) = int_of_digits 0 acc.
Proof. induction n as [|n IH]; [done|]. cbn [zeros]. rewrite append_cons. exact IH. Qed.
Lemma zeros_digits n : string_forallb is_digit (zeros n) = true.
Proof. by induction n. Qed.
Lemma zeros_length n : String.length (zeros n) = n.
Proof. induction n; simpl; auto. Qed.

Lemma unsigned_int_digits s :
  string_forallb is_digit s = true → s ≠ "" → unsigned_int s = Ok (int_of_digits 0 s).
Proof. intros Hs Hne. unfold unsigned_int. rewrite literal_digits_all; auto. Qed.

(** Text without white space is not stripped. *)
Lemma rev_app_app s t u : String.rev_app (String.rev_app s t) u = String.rev_app t (s +:+ u).
Proof.
  revert t; induction s as [|c s IH]; intros t; simpl; rewrite ?append_nil, ?append_cons; [done|].
  rewrite IH. done.
Qed.
Lemma rev_involutive s : String.rev (String.rev s) = s.
Proof. unfold String.rev. rewrite rev_app_app. simpl. apply append_nil_r. Qed.
Lemma rev_forallb p s : string_forallb p (String.rev s) = string_forallb p s.
Proof.
  assert (H : ∀ s t, string_forallb p (String.rev_app s t) = string_forallb p s && string_forallb p t).
  { clear. induction s as [|c s IH]; intros t; simpl; [done|]. rewrite IH. simpl.
    rewrite andb_assoc. f_equal. apply andb_comm. }
  unfold String.rev. rewrite H. apply andb_true_r.
Qed.

Definition no_space (c : ascii) : bool := negb (is_py_space c).
Lemma lstrip_no_space s : string_forallb no_space s = true → lstrip s = s.
Proof.
  destruct s as [|c s]; [done|]. simpl. intros [Hc _]%andb_true_iff.
  unfold no_space in Hc. by destruct (is_py_space c).
Qed.
Lemma strip_no_space s : string_forallb no_space s = true → strip s = s.
Proof.
  intros H. unfold strip, rstrip. rewrite (lstrip_no_space s H), lstrip_no_space.
  - apply rev_involutive.
  - by rewrite rev_forallb.
Qed.

Lemma digit_no_space c : is_digit c = true → no_space c = true.
Proof. by destruct c as [[] [] [] [] [] [] [] []]. Qed.
Lemma digits_no_space s : string_forallb is_digit s = true → string_forallb no_space s = true.
Proof.
  induction s as [|c s IH]; simpl; [done|]. rewrite !andb_true_iff. intros [Hc Hs].
  auto using digit_no_space.
Qed.

Lemma int_of_digit_string s :
  string_forallb is_digit s = true → s ≠ "" → int_of_string s = Ok (int_of_digits 0 s).
Proof.
  intros Hs Hne. unfold int_of_string. rewrite strip_no_space by (by apply digits_no_space).
  rewrite <- unsigned_int_digits by done.
  destruct s as [|c s]; [done|]. simpl in Hs. apply andb_true_iff in Hs as [Hc _].
  by destruct c as [[] [] [] [] [] [] [] []].
Qed.

Lemma int_of_pretty (n : Z) : (0 ≤ n)%Z → int_of_string (pretty (Z.abs_N n)) = Ok n.
Proof.
  intros Hn. rewrite int_of_digit_string.
  - rewrite pretty_N_value. f_equal. lia.
  - apply pretty_N_digits.
  - apply pretty_N_nonempty.
Qed.

Lemma int_of_str_of_int n : int_of_string (str_of_int n) = Ok n.
Proof.
  unfold str_of_int. destruct (Z.ltb_spec n 0); [|by apply int_of_pretty].
  pose proof (pretty_N_digits (Z.abs_N n)) as Hd. unfold int_of_string.
  rewrite strip_no_space by (simpl; by apply digits_no_space). change ("-" +:+ ?s) with (String "-" s). cbv iota.
  rewrite unsigned_int_digits by (done || apply pretty_N_nonempty). rewrite pretty_N_value. simpl. f_equal. lia.
Qed.

Lemma zero_padded_digits w n :
  (0 ≤ n)%Z → string_forallb is_digit (zero_padded w n) = true ∧ zero_padded w n ≠ "" ∧
  int_of_digits 0 (zero_padded w n) = n.
Proof.
  intros Hn. unfold zero_padded. rewrite (proj2 (Z.ltb_ge n 0)) by done. split_and!.
  - rewrite string_forallb_app, zeros_digits. apply pretty_N_digits.
  - intros H. apply (f_equal String.length) in H. rewrite length_append in H. simpl in H.
    pose proof (pretty_N_nonempty (Z.abs_N n)). destruct (pretty (Z.abs_N n)); simpl in H; [done|lia].
  - rewrite zeros_value, pretty_N_value. lia.
Qed.

(** A padded number is read back, and distinct numbers have distinct paddings. *)
Lemma int_of_zero_padded w n : (0 ≤ n)%Z → int_of_string (zero_padded w n) = Ok n.
Proof.
  intros Hn. destruct (zero_padded_digits w n Hn) as (Hd & Hne & Hv).
  by rewrite int_of_digit_string, Hv.
Qed.
Lemma zero_padded_inj w m n :
  (0 ≤ m)%Z → (0 ≤ n)%Z → zero_padded w m = zero_padded w n → m = n.
Proof.
  intros Hm Hn H. apply (f_equal int_of_string) in H.
  rewrite !int_of_zero_padded in H by done. by injection H.
Qed.
Lemma zero_padded_length w n :
  (0 ≤ n)%Z → (String.length (pretty (Z.abs_N n)) ≤ w)%nat →
  String.length (zero_padded w n) = w.
Proof.
  intros Hn Hl. unfold zero_padded. rewrite (proj2 (Z.ltb_ge n 0)) by done.
  rewrite length_append, zeros_length. lia.
Qed.

(** [str(n)] has at most [w] digits when [n < 10 ^ w]. *)
Lemma pretty_N_go_length_bound w x s :
  (x < 10 ^ N.of_nat w)%N → (String.length (pretty_N_go x s) ≤ w + String.length s)%nat.
Proof.
  revert x s; induction w as [|w IH]; intros x s Hx.
  - simpl in Hx. assert (x = 0%N) as -> by lia. by rewrite pretty_N_go_0.
  - destruct (decide (0 < x)%N) as [Hp|Hp].
    + rewrite pretty_N_go_step by done. etrans; [apply IH|simpl; lia].
      apply N.Div0.div_lt_upper_bound. rewrite Nat2N.inj_succ, N.pow_succ_r' in Hx. lia.
    + assert (x = 0%N) as -> by lia. rewrite pretty_N_go_0. lia.
Qed.
Lemma pretty_N_length_bound w (n : N) :
  (0 < w)%nat → (n < 10 ^ N.of_nat w)%N → (String.length (pretty n) ≤ w)%nat.
Proof.
  intros Hw Hn. unfold pretty, pretty_N. case_decide; [simpl; lia|].
  pose proof (pretty_N_go_length_bound w n "" Hn). simpl in *. lia.
Qed.
