(* ===== verification/Text.v ===== *)
(** * Text operations components share

    Upper case, and how it commutes with stripping blanks; suffixes.  Upper-casing is on code
    points up to U+00FF whose capital is among them. *)
From Stdlib Require Import Ascii.
From S2P Require Import Prelude.

(** [str.upper] *)
Definition upper_char (c : ascii) : string :=
  let n := nat_of_ascii c in
  if ((97 <=? n) && (n <=? 122) || (224 <=? n) && (n <=? 254) && negb (n =? 247))%nat then String (ascii_of_nat (n - 32)) ""
  else if (n =? 223)%nat then "SS" else String c "".
Fixpoint upper (s : string) : string :=
  match s with EmptyString => "" | String c s => upper_char c +:+ upper s end.

(** [s.removesuffix(suffix)] *)
Definition removesuffix (suffix s : string) : string :=
  let n := String.length s - String.length suffix in
  if (String.length suffix <=? String.length s)%nat && String.eqb (str_drop n s) suffix then str_take n s else s.
(** [s.strip(chars)] *)
Fixpoint lstrip_chars (chars s : string) : string :=
  match s with
  | EmptyString => EmptyString
  | String c s' => if char_in chars c then lstrip_chars chars s' else s
  end.
Definition strip_chars (chars s : string) : string := String.rev (lstrip_chars chars (String.rev (lstrip_chars chars s))).

(** ** Stripping and upper-casing *)

Lemma rev_app_spec s t : String.rev_app s t = String.rev s +:+ t.
Proof.
  unfold String.rev. revert t. induction s as [|c s IH]; intros t; [done|]. simpl.
  rewrite IH, (IH (String c "")), append_assoc. done.
Qed.
Lemma rev_cons c s : String.rev (String c s) = String.rev s +:+ String c "".
Proof. unfold String.rev at 1. simpl. by rewrite rev_app_spec. Qed.
Lemma rev_append s t : String.rev (s +:+ t) = String.rev t +:+ String.rev s.
Proof.
  induction s as [|c s IH]; [by rewrite append_nil, append_nil_r|]. rewrite append_cons, !rev_cons, IH. apply append_assoc.
Qed.
Lemma rev_rev s : String.rev (String.rev s) = s.
Proof. induction s as [|c s IH]; [done|]. rewrite rev_cons, rev_append, IH. done. Qed.

Lemma lstrip_lstrip s : lstrip (lstrip s) = lstrip s.
Proof. induction s as [|c s IH]; [done|]. simpl. destruct (is_py_space c) eqn:E; [done|]. simpl. by rewrite E. Qed.
Lemma lstrip_snoc c s : is_py_space c = false → lstrip (s +:+ String c "") = lstrip s +:+ String c "".
Proof. intros Hc. induction s as [|d s IH]; simpl; [by rewrite Hc|]. by destruct (is_py_space d). Qed.
Lemma rstrip_rstrip s : rstrip (rstrip s) = rstrip s.
Proof. unfold rstrip. by rewrite rev_rev, lstrip_lstrip. Qed.
Lemma rstrip_cons c s : is_py_space c = false → rstrip (String c s) = String c (rstrip s).
Proof. intros Hc. unfold rstrip. rewrite rev_cons, lstrip_snoc, rev_append by done. done. Qed.
Lemma strip_strip s : strip (strip s) = strip s.
Proof.
  unfold strip. assert (lstrip (rstrip (lstrip s)) = rstrip (lstrip s)) as ->; [|apply rstrip_rstrip].
  pose proof (lstrip_lstrip s) as H. destruct (lstrip s) as [|c r]; [done|]. simpl in H.
  destruct (is_py_space c) eqn:E; [|rewrite rstrip_cons by done; simpl; by rewrite E].
  exfalso. assert (String.length (lstrip r) ≤ String.length r) as Hl.
  { clear. induction r as [|d r IH]; simpl; [done|]. destruct (is_py_space d); simpl; lia. }
  rewrite H in Hl. simpl in Hl. lia.
Qed.

(** What is checked for each of the 256 characters. *)
Definition upper_char_ok (c : ascii) : bool :=
  String.eqb (upper (upper_char c)) (upper_char c) && String.eqb (String.rev (upper_char c)) (upper_char c)
  && (if is_py_space c then String.eqb (upper_char c) (String c "")
      else match upper_char c with String d _ => negb (is_py_space d) | EmptyString => false end).
Lemma upper_char_checked c : upper_char_ok c = true.
Proof. destruct c as [[] [] [] [] [] [] [] []]; vm_compute; reflexivity. Qed.

Lemma upper_append s t : upper (s +:+ t) = upper s +:+ upper t.
Proof. induction s as [|c s IH]; [done|]. rewrite append_cons. simpl. by rewrite IH, append_assoc. Qed.
Lemma upper_upper s : upper (upper s) = upper s.
Proof.
  induction s as [|c s IH]; [done|]. simpl. rewrite upper_append, IH. f_equal.
  pose proof (upper_char_checked c) as H. unfold upper_char_ok in H. rewrite !andb_true_iff, !String.eqb_eq in H. tauto.
Qed.
Lemma upper_rev s : upper (String.rev s) = String.rev (upper s).
Proof.
  induction s as [|c s IH]; [done|]. rewrite rev_cons, upper_append, IH. simpl. rewrite append_nil_r, rev_append. f_equal.
  pose proof (upper_char_checked c) as H. unfold upper_char_ok in H. rewrite !andb_true_iff, !String.eqb_eq in H. symmetry. tauto.
Qed.
Lemma lstrip_upper s : lstrip (upper s) = upper (lstrip s).
Proof.
  induction s as [|c s IH]; [done|]. cbn [upper lstrip].
  pose proof (upper_char_checked c) as H. unfold upper_char_ok in H. apply andb_true_iff in H as [_ H].
  destruct (is_py_space c) eqn:E.
  - apply String.eqb_eq in H. rewrite H. simpl. by rewrite E.
  - cbn [upper]. destruct (upper_char c) as [|d r]; [done|]. apply negb_true_iff in H. rewrite append_cons. simpl. by rewrite H.
Qed.
Lemma strip_upper s : strip (upper s) = upper (strip s).
Proof. unfold strip, rstrip. by rewrite lstrip_upper, <- upper_rev, lstrip_upper, upper_rev. Qed.
Lemma normalized_twice s : upper (strip (upper (strip s))) = upper (strip s).
Proof. by rewrite strip_upper, upper_upper, strip_strip. Qed.
