(* ===== verification/FormAliases.v ===== *)
(** * Form families: [domain/forms/common/aliases.py]

    The registry of form aliases and the collapse of a raw form to its canonical family.  Forms are
    ASCII. *)
From Stdlib Require Import Ascii.
From S2P Require Import Prelude Text.

(** ** The registry *)

Definition FORM_FAMILY_ALIASES : list (string * list string) := [
  ("10-K", ["10-K"; "10-K/A"; "10-K405"; "10-K405/A"; "10-KSB"; "10-KSB/A"; "10KSB"; "10KSB/A"; "10KSB40"; "10KSB40/A";
    "10-KT"; "10-KT/A"; "10KT405"; "10KT405/A"]);
  ("10-Q", ["10-Q"; "10-Q/A"; "10-QSB"; "10-QSB/A"; "10QSB"; "10QSB/A"; "10-QT"; "10-QT/A"]);
  ("8-K", ["8-K"; "8-K/A"; "8-K12B"; "8-K12B/A"; "8-K12G3"; "8-K12G3/A"; "8-K15D5"; "8-K15D5/A"]);
  ("20-F", ["20-F"; "20-F/A"; "20FR12B"; "20FR12B/A"; "20FR12G"; "20FR12G/A"; "20FR12G3"]);
  ("6-K", ["6-K"; "6-K/A"]);
  ("3", ["3"; "3/A"]);
  ("4", ["4"; "4/A"]);
  ("5", ["5"; "5/A"]);
  ("144", ["144"; "144/A"]);
  ("MA-I", ["MA-I"; "MA-I/A"]);
  ("D", ["D"; "D/A"; "REGDEX"; "REGDEX/A"]);
  ("13F", ["13F"; "13F/A"; "13F-HR"; "13F-HR/A"; "13F-NT"; "13F-NT/A"; "13F-CTR"; "13F-CTR/A"; "13F-E"; "13F-E/A";
    "13FCONP"; "13FCONP/A"]);
  ("13D", ["13D"; "13D/A"; "SC 13D"; "SC 13D/A"; "SCHEDULE 13D"; "SCHEDULE 13D/A"]);
  ("13G", ["13G"; "13G/A"; "SC 13G"; "SC 13G/A"; "SCHEDULE 13G"; "SCHEDULE 13G/A"]);
  ("S-1", ["S-1"; "S-1/A"; "S-1MEF"; "S-1MEF/A"; "S-1POS"; "S-1/A-POS"]);
  ("S-3", ["S-3"; "S-3/A"; "S-3ASR"; "S-3D"; "S-3D/A"; "S-3DPOS"; "S-3MEF"]);
  ("S-4", ["S-4"; "S-4 POS"; "S-4/A"; "S-4EF"; "S-4EF/A"; "S-4MEF"]);
  ("S-8", ["S-8"; "S-8 POS"; "S-8/A"]);
  ("14A", ["14A"; "14A/A"; "DEF 14A"; "DEF 14C"; "DEFA14A"; "DEFA14C"; "DEFC14A"; "DEFC14C"; "DEFM14A"; "DEFM14C";
    "DEFN14A"; "DEFR14A"; "DEFR14C"; "DEFS14A"; "DEFS14C"; "PRE 14A"; "PRE 14C"; "PREA14A"; "PREA14C"; "PREC14A";
    "PREC14C"; "PREM14A"; "PREM14C"; "PREN14A"; "PRER14A"; "PRER14C"; "PRES14A"; "PRES14C"; "PRRN14A"; "DFAN14A";
    "DFRN14A"; "PX14A6G"; "PX14A6N"]);
  ("12B-25", ["12B-25"; "12B-25/A"; "NT 10-K"; "NT 10-K/A"; "NT 10-Q"; "NT 10-Q/A"; "NT 20-F"; "NT 20-F/A"; "NT 11-K";
    "NT 11-K/A"; "NT 10-D"; "NT 10-D/A"; "NT 15D2"; "NT 15D2/A"; "SP 15D2"; "SP 15D2/A"; "NT N-CEN"; "NT NPORT-EX";
    "NT NPORT-P"; "NT-NCEN"; "NT-NCSR"; "NT-NCSR/A"; "NT-NSAR"; "NT-NSAR/A"; "NTFNCEN"; "NTFNCSR"; "NTFNSAR"; "NTN 10K";
    "NTN 10Q"; "NTN 11K"; "NTN 20F"; "NTN 10D"; "NTN15D2"]);
  ("15", ["15"; "15/A"; "15-12B"; "15-12B/A"; "15-12G"; "15-12G/A"; "15-15D"; "15-15D/A"; "15F-12B"; "15F-12G";
    "15F-12G/A"; "15F-15D"; "15F-15D/A"]);
  ("11-K", ["11-K"; "11-K/A"; "11-KT"; "11-KT/A"]);
  ("424B", ["424B"; "424B1"; "424B2"; "424B3"; "424B4"; "424B5"; "424B7"; "424B8"; "424A"; "424H"; "424H/A"]);
  ("FWP", ["FWP"]);
  ("425", ["425"]);
  ("N-PORT", ["N-PORT"; "NPORT-P"; "NPORT-P/A"; "NPORT-EX"; "NPORT-EX/A"]);
  ("N-CEN", ["N-CEN"; "N-CEN/A"]);
  ("N-PX", ["N-PX"; "N-PX/A"; "N-PX CTR"]);
  ("N-MFP", ["N-MFP"; "N-MFP/A"; "N-MFP2"; "N-MFP2/A"; "N-MFP3"; "N-MFP3/A"]);
  ("N-CR", ["N-CR"; "N-CR/A"]);
  ("N-CSR", ["N-CSR"; "N-CSR/A"; "N-CSRS"; "N-CSRS/A"]);
  ("N-Q", ["N-Q"; "N-Q/A"]);
  ("NSAR", ["NSAR"; "NSAR-A"; "NSAR-A/A"; "NSAR-AT"; "NSAR-B"; "NSAR-B/A"; "NSAR-BT"; "NSAR-BT/A"; "NSAR-U";
    "NSAR-U/A"]);
  ("497", ["497"; "497AD"; "497H2"; "497J"; "497K"; "497K3A"; "497VPU"; "497VPI"; "497VPSUB"]);
  ("485", ["485APOS"; "485A24F"; "485BPOS"; "485B24F"; "485BXT"; "485BXTF"; "486APOS"; "486A24E"; "486BPOS"; "486B24E";
    "486BXT"]);
  ("N-14", ["N-14"; "N-14/A"; "N-14 8C"; "N-14 8C/A"; "N-14MEF"]);
  ("N-2", ["N-2"; "N-2/A"; "N-2ASR"; "N-2MEF"; "N-2 POSASR"]);
  ("F-1", ["F-1"; "F-1/A"; "F-1MEF"]);
  ("F-2", ["F-2"; "F-2/A"]);
  ("F-3", ["F-3"; "F-3/A"; "F-3ASR"; "F-3D"; "F-3DPOS"; "F-3MEF"]);
  ("F-4", ["F-4"; "F-4/A"; "F-4EF"; "F-4MEF"; "F-4 POS"]);
  ("F-6", ["F-6"; "F-6/A"; "F-6EF"; "F-6 POS"]);
  ("F-7", ["F-7"]);
  ("F-8", ["F-8"; "F-8/A"; "F-8 POS"]);
  ("F-9", ["F-9"; "F-9/A"; "F-9 POS"; "F-9EF"]);
  ("F-10", ["F-10"; "F-10/A"; "F-10EF"; "F-10POS"]);
  ("F-80", ["F-80"; "F-80/A"; "F-80POS"]);
  ("F-N", ["F-N"; "F-N/A"]);
  ("40-F", ["40-F"; "40-F/A"]);
  ("SUPPL", ["SUPPL"]);
  ("SC TO", ["SC TO"; "SC TO-T"; "SC TO-T/A"; "SC TO-I"; "SC TO-I/A"; "SC TO-C"; "SC 14D9"; "SC 14D9/A"; "SC14D9C";
    "SC14D9F"; "SC14D9F/A"; "SC 14D1"; "SC 14D1/A"; "SC14D1F"; "SC14D1F/A"; "SC 13E1"; "SC 13E1/A"; "SC 13E3";
    "SC 13E3/A"; "SC 13E4"; "SC 13E4/A"]);
  ("DRS", ["DRS"; "DRS/A"; "DRSLTR"]);
  ("25", ["25"; "25/A"]);
  ("25-NSE", ["25-NSE"; "25-NSE/A"]);
  ("8-A", ["8-A"; "8-A12B"; "8-A12B/A"; "8-A12G"; "8-A12G/A"; "8A12BEF"; "8A12BT"; "8A12BT/A"]);
  ("8-B", ["8-B"; "8-B12B"; "8-B12B/A"; "8-B12G"]);
  ("1-A", ["1-A"; "1-A/A"; "1-A POS"; "1-A-W"; "1-A-W/A"; "253G1"; "253G2"; "253G3"; "253G4"]);
  ("1-K", ["1-K"; "1-K/A"]);
  ("1-Z", ["1-Z"; "1-Z/A"]);
  ("1-SA", ["1-SA"; "1-SA/A"]);
  ("1-U", ["1-U"; "1-U/A"]);
  ("SD", ["SD"; "SD/A"]);
  ("ARS", ["ARS"; "ARS/A"]);
  ("ABS-EE", ["ABS-EE"; "ABS-EE/A"]);
  ("ABS", ["ABS-15G"; "ABS-15G/A"; "10-D"; "10-D/A"]);
  ("ATS-N", ["ATS-N"; "ATS-N/CA"; "ATS-N/MA"; "ATS-N/OFA"; "ATS-N/UA"; "ATS-N-W"]);
  ("18-K", ["18-K"; "18-K/A"]);
  ("C", ["C"; "C/A"; "C-U"; "C-AR"; "C-AR/A"; "C-TR"; "C-W"; "C-AR-W"; "C-TR-W"])
].
Definition FORM_FAMILY_SUFFIXES : list string := ["_A"; "_W"; "_POS"; "-POS"; " POS"; "MEF"; "-W"; "/A"].

(** A dict: the last entry of a key counts. *)
Definition _build_alias_lookup : gmap string string :=
  foldl (λ lookup '(family, aliases), foldl (λ lookup alias, <[upper alias := family]> lookup) lookup aliases) ∅ FORM_FAMILY_ALIASES.
Definition _ALIAS_LOOKUP : gmap string string := _build_alias_lookup.
Definition is_family (family : string) : bool := existsb (λ e, String.eqb e.1 family) FORM_FAMILY_ALIASES.

(** ** Resolution *)

Definition form_family (form : string) : string :=
  let base := foldl (λ base suffix, removesuffix suffix base) (strip (upper form)) FORM_FAMILY_SUFFIXES in
  let family := strip_chars "_-" base in
  if String.eqb family "" then form else family.
Definition resolve_alias (form : option string) : option string :=
  match form with
  | None | Some "" => None
  | Some form =>
      let form_str := upper (strip form) in
      match _ALIAS_LOOKUP !! form_str with
      | Some family => Some family
      | None =>
          let family := form_family form_str in
          match _ALIAS_LOOKUP !! family with
          | Some family => Some family
          | None => if is_family family then Some family else None
          end
      end
  end.
Definition aliases_for_family (family : string) : list string :=
  match list_find (λ e, e.1 = upper family) FORM_FAMILY_ALIASES with Some (_, (_, aliases)) => aliases | None => [] end.

(** [str.isalnum] of an ASCII character. *)
Definition is_alnum (c : Ascii.ascii) : bool :=
  let n := Ascii.nat_of_ascii c in
  ((48 <=? n) && (n <=? 57) || (65 <=? n) && (n <=? 90) || (97 <=? n) && (n <=? 122))%nat.
Fixpoint squash (text : string) : string :=
  match text with
  | EmptyString => EmptyString
  | String c text => if is_alnum c then String c (squash text) else squash text
  end.
Definition is_transition_form (form : option string) : bool :=
  match form with
  | None | Some "" => false
  | Some raw =>
      match resolve_alias (Some raw) with
      | None => false
      | Some family =>
          let stem := squash (removesuffix "/A" raw) in
          let base := squash family in
          String.prefix base stem && bool_decide (String.get (String.length base) stem = Some "T"%char)
      end
  end.

(** ** What a form resolves to *)

(** The resolution of a form without blanks around it, in upper case. *)
Lemma resolve_normal form : upper (strip form) ≠ "" → resolve_alias (Some form) = resolve_alias (Some (upper (strip form))).
Proof.
  intros Hne. unfold resolve_alias. rewrite normalized_twice.
  destruct form as [|c form]; [done|]. by destruct (upper (strip (String c form))) eqn:E.
Qed.

(** Each alias, and its amendment, is found under its family, and so is each family. *)
Lemma aliases_checked :
  forallb (λ e, forallb (λ alias,
    bool_decide (alias ≠ "") && bool_decide (resolve_alias (Some alias) = Some e.1) && bool_decide (resolve_alias (Some (alias +:+ "/A")) = Some e.1)) e.2)
    FORM_FAMILY_ALIASES = true.
Proof. vm_compute. reflexivity. Qed.
Lemma families_checked : forallb (λ e, bool_decide (resolve_alias (Some e.1) = Some e.1)) FORM_FAMILY_ALIASES = true.
Proof. vm_compute. reflexivity. Qed.
Lemma lookup_families : map_Forall (λ _ family, is_family family = true) _ALIAS_LOOKUP.
Proof. apply (bool_decide_unpack _). vm_compute. exact I. Qed.
(** From here on only the checks above look into the registry. *)
#[local] Opaque _ALIAS_LOOKUP FORM_FAMILY_ALIASES.
Lemma resolved_family form family : resolve_alias (Some form) = Some family → is_family family = true.
Proof.
  unfold resolve_alias. destruct form as [|c form]; [discriminate|]. pose proof lookup_families as Hl. revert Hl.
  generalize _ALIAS_LOOKUP as L. intros L Hl. generalize (upper (strip (String c form))) as k. intros k.
  destruct (L !! k) eqn:E1; [intros [= <-]; exact (map_Forall_lookup_1 _ _ _ _ Hl E1)|].
  generalize (form_family k) as f. intros f. destruct (L !! f) eqn:E2; [intros [= <-]; exact (map_Forall_lookup_1 _ _ _ _ Hl E2)|].
  destruct (is_family f) eqn:E3; [|done]. by intros [= <-].
Qed.

(** A form, whatever its letter case and the blanks around it, that is an alias of the registry
    or the amendment of one resolves to the family that lists the alias; and whatever a form
    resolves to is a family of the registry, which resolves to itself. *)
Theorem aliases_resolve form :
  (∀ family aliases alias, (family, aliases) ∈ FORM_FAMILY_ALIASES → alias ∈ aliases →
     upper (strip form) = alias ∨ upper (strip form) = alias +:+ "/A" → resolve_alias (Some form) = Some family) ∧
  (∀ family, resolve_alias (Some form) = Some family →
     family ∈ FORM_FAMILY_ALIASES.*1 ∧ resolve_alias (Some family) = Some family).
Proof.
  split.
  - intros family aliases alias He Ha Hf. pose proof aliases_checked as H. rewrite forallb_forall in H.
    specialize (H _ (proj1 (list_elem_of_In _ _) He)). cbn [fst snd] in H. rewrite forallb_forall in H. specialize (H _ (proj1 (list_elem_of_In _ _) Ha)).
    apply andb_true_iff in H as [[Hne%bool_decide_eq_true H1%bool_decide_eq_true]%andb_true_iff H2%bool_decide_eq_true].
    rewrite resolve_normal; [by destruct Hf as [->| ->]|]. destruct Hf as [->| ->]; [done|]. by destruct alias.
  - intros family Hr. apply resolved_family in Hr. unfold is_family in Hr. apply existsb_exists in Hr as (e & He & Heq%String.eqb_eq). subst family.
    split; [apply list_elem_of_fmap; exists e; split; [done|]; by apply list_elem_of_In|].
    pose proof families_checked as H. rewrite forallb_forall in H. exact (proj1 (bool_decide_eq_true _) (H _ He)).
Qed.
