(* ===== verification/SgmlBundle.v ===== *)
(** * Extraction from SGML submissions: [engine/document/unpacking/streaming.py]

    A submission is read in chunks; the bodies of its documents lie between tokens that a chunk may
    cut.  Bytes are characters up to U+00FF; file names and types that are compared without case
    are ASCII; errors of the file system are left out.  The digest of what was hashed piece by piece is the
    digest of the whole. *)
From Stdlib Require Import Ascii.
From S2P Require Import Prelude Numerals Text FormAliases.
#[local] Open Scope Z_scope.

(** ** Headers *)

Definition _MAX_HEADER_SIZE : nat := Z.to_nat (64 * 1024).
Definition lower : string → string := string_map lower_ascii.
Record BundleDocumentHeader := mkHeader {
  ordinal : Z; sequence : Z; filename : option string; document_type : option string;
  description : option string; declared_length : option Z;
}.

(** [\s] of a pattern of bytes. *)
Definition byte_space (c : ascii) : bool := ((9 <=? code c) && (code c <=? 13) || (code c =? 32))%nat.
Fixpoint skip_spaces (s : string) : string :=
  match s with String c s' => if byte_space c then skip_spaces s' else s | EmptyString => "" end.
(** The value after a field's tag: [\s*([^\r\n<]+)], stripped. *)
Fixpoint until_break (s : string) : string :=
  match s with
  | String c s' => if bool_decide (c = "013"%char) || bool_decide (c = "010"%char) || bool_decide (c = "<"%char) then "" else String c (until_break s')
  | EmptyString => ""
  end.
Fixpoint read_field (tag s : string) : list string :=
  match s with
  | EmptyString => []
  | String _ s' =>
      let value := strip (until_break (skip_spaces (str_drop (String.length tag) s))) in
      (if String.prefix tag (lower s) && negb (String.eqb value "") then [value] else []) ++ read_field tag s'
  end.
Definition isdecimal (s : string) : bool := negb (String.eqb s "") && string_forallb is_digit s.
Definition only (l : list string) : option string := match l with [v] => Some v | _ => None end.

(** ** The scan *)

Inductive sstate := Outside | InHeader | InBody | AfterText.
#[global] Instance sstate_eq_dec : EqDecision sstate.
Proof. solve_decision. Defined.
(** The variables of [_extract_bundle_selection]; [body] is what was hashed, [written] the
    destination, once it was opened. *)
Record scan := mkScan {
  state : sstate; header : string; current : option BundleDocumentHeader; current_is_selected : bool;
  matching_sequences : Z; selected : option BundleDocumentHeader; failure : option string;
  body : string; written : option string; current_body_size : Z; document_count : Z;
}.
Definition started : scan := mkScan Outside "" None false 0 None None "" None 0 0.

Definition fail (code : string) (s : scan) : scan :=
  mkScan (state s) (header s) (current s) (current_is_selected s) (matching_sequences s) (selected s)
    (match failure s with None => Some code | Some f => Some f end) (body s) (written s) (current_body_size s) (document_count s).
Definition in_state (st : sstate) (s : scan) : scan :=
  mkScan st (header s) (current s) (current_is_selected s) (matching_sequences s) (selected s) (failure s) (body s) (written s)
    (current_body_size s) (document_count s).
Definition with_header (h : string) (s : scan) : scan :=
  mkScan (state s) h (current s) (current_is_selected s) (matching_sequences s) (selected s) (failure s) (body s) (written s)
    (current_body_size s) (document_count s).
Definition no_current (s : scan) : scan :=
  mkScan (state s) (header s) None false (matching_sequences s) (selected s) (failure s) (body s) (written s)
    (current_body_size s) (document_count s).
Definition new_document (s : scan) : scan :=
  mkScan InHeader "" None false (matching_sequences s) (selected s) (failure s) (body s) (written s)
    (current_body_size s) (document_count s + 1).
Definition add_body (data : string) (s : scan) : scan :=
  let here := current_is_selected s && (matching_sequences s =? 1) in
  mkScan (state s) (header s) (current s) (current_is_selected s) (matching_sequences s) (selected s) (failure s)
    (if here then body s +:+ data else body s)
    (if here then (λ w, w +:+ data) <$> written s else written s)
    (current_body_size s + Z.of_nat (String.length data)) (document_count s).

Definition consume (data : string) (s : scan) : scan :=
  match state s with
  | InHeader =>
      let remaining := (_MAX_HEADER_SIZE - String.length (header s))%nat in
      with_header (header s +:+ str_take remaining data)
        (if (remaining <? String.length data)%nat then fail "malformed_delimiters" s else s)
  | InBody => add_body data s
  | _ => s
  end.

(** The failure, if any, and the value of a field that is a number. *)
Definition parse_sequence (values : list string) : option string * Z :=
  match values with
  | [] => (Some "missing_sequence", 0)
  | [v] => if isdecimal v then (if int_of_digits 0 v <=? 0 then Some "invalid_sequence" else None, int_of_digits 0 v)
           else (Some "invalid_sequence", 0)
  | _ => (Some "invalid_sequence", 0)
  end.
Definition parse_length (values : list string) : option string * option Z :=
  match values with
  | [] => (None, None)
  | [v] => if isdecimal v then (None, Some (int_of_digits 0 v)) else (Some "invalid_length", None)
  | _ => (Some "invalid_length", None)
  end.
Definition several (l : list string) : bool := (1 <? length l)%nat.
(** The failures of a header, in order, and what it says. *)
Definition parse_header (count : Z) (h : string) : list string * BundleDocumentHeader :=
  let '(e1, number) := parse_sequence (read_field "<sequence>" h) in
  let '(e2, size) := parse_length (read_field "<length>" h) in
  let filenames := read_field "<filename>" h in
  let types := read_field "<type>" h in
  let descriptions := read_field "<description>" h in
  (option_list e1 ++ option_list e2 ++ (if several filenames || several types || several descriptions then ["malformed_delimiters"] else []),
   mkHeader count number (only filenames) (upper <$> only types) (only descriptions) size).

Definition _validate_length (declared : option Z) (body_size : Z) (s : scan) : scan :=
  match declared with
  | None => s
  | Some n => if body_size <? n then fail "length_out_of_bounds" s else if negb (n =? body_size) then fail "length_mismatch" s else s
  end.

Definition _TOKENS : list string := ["<DOCUMENT>"; "</DOCUMENT>"; "<TEXT>"; "</TEXT>"].
Definition _MAX_TOKEN_SIZE : nat := foldr Nat.max 0%nat (String.length <$> _TOKENS).

Section extraction.
Context (sha256_hexdigest : string → string) (is_selected : BundleDocumentHeader → bool) (duplicate_code not_found_code : string).
Context (expected_filename expected_document_type expected_source_sha256 : option string).

Definition begin_text (s : scan) : scan :=
  let '(failures, head) := parse_header (document_count s) (header s) in
  let s := foldl (λ s code, fail code s) s failures in
  let sel := is_selected head in
  let n := matching_sequences s + (if sel then 1 else 0) in
  let first := sel && (n =? 1) in
  let s := mkScan (state s) "" (Some head) sel n (if first then Some head else selected s) (failure s)
             (if first then "" else body s) (if first then Some "" else written s) 0 (document_count s) in
  if sel && negb (n =? 1) then fail duplicate_code s else s.

Definition handle (token : string) (s : scan) : scan :=
  if String.eqb token "<DOCUMENT>" then
    match state s with Outside => new_document s | _ => fail "malformed_delimiters" s end
  else if String.eqb token "</DOCUMENT>" then
    let s := match state s with
             | InHeader | InBody => in_state Outside (fail "missing_text" s)
             | AfterText => in_state Outside s
             | Outside => fail "malformed_delimiters" s
             end in
    let s := match current s with Some c => _validate_length (declared_length c) (current_body_size s) s | None => s end in
    no_current s
  else if String.eqb token "<TEXT>" then
    match state s with InHeader => in_state InBody (begin_text s) | _ => fail "malformed_delimiters" s end
  else match state s with InBody => in_state AfterText s | _ => fail "malformed_delimiters" s end.

(** [lower.find(token.lower())], and the earliest token. *)
Fixpoint find_sub (pat s : string) : option nat :=
  if String.prefix pat s then Some 0%nat
  else match s with EmptyString => None | String _ s => S <$> find_sub pat s end.
Definition earlier (pending : string) (found : option (nat * string)) (token : string) : option (nat * string) :=
  match find_sub (lower token) (lower pending) with
  | None => found
  | Some i => match found with
              | Some (j, _) => if (i <? j)%nat then Some (i, token) else found
              | None => Some (i, token)
              end
  end.
Definition earliest (pending : string) : option (nat * string) := foldl (earlier pending) None _TOKENS.

(** The loop over the pending bytes; each round takes some of them. *)
Fixpoint drain (fuel : nat) (pending : string) (s : scan) : string * scan :=
  match fuel with
  | O => (pending, s)
  | S fuel =>
      if String.eqb pending "" then ("", s) else
      match earliest pending with
      | None =>
          let safe_size := (String.length pending + 1 - _MAX_TOKEN_SIZE)%nat in
          if (safe_size =? 0)%nat then (pending, s)
          else drain fuel (str_drop safe_size pending) (consume (str_take safe_size pending) s)
      | Some (index, token) =>
          drain fuel (str_drop (index + String.length token) pending)
            (handle token (if (index =? 0)%nat then s else consume (str_take index pending) s))
      end
  end.
Definition feed (ps : string * scan) (chunk : string) : string * scan :=
  let pending := ps.1 +:+ chunk in drain (String.length pending) pending ps.2.
Definition at_end (pending : string) (s : scan) : scan :=
  let s := consume pending s in
  match state s with
  | InHeader => fail "missing_text" s
  | InBody | AfterText => fail "malformed_delimiters" s
  | Outside => s
  end.

(** ** The result, and the destination *)

Record BundleExtraction := mkExtraction {
  ex_selected : BundleDocumentHeader; ex_document_count : Z; ex_source_size : Z; ex_source_sha256 : string;
  ex_body_size : Z; ex_body_sha256 : string;
}.
Record BundleExtractionFailure := mkExtractionFailure { xf_code : string; xf_matching_sequences : Z; xf_source_sha256 : string }.

Definition unexpected (expected : option string) (found : option string) : bool :=
  match expected with
  | None => false
  | Some e => match found with None => true | Some f => negb (String.eqb (lower f) (lower e)) end
  end.
(** The checks after the last chunk. *)
Definition checked (source_sha256 : string) (s : scan) : scan :=
  let s := if document_count s =? 0 then fail "not_sgml" s else s in
  let s := if (matching_sequences s =? 0) && bool_decide (failure s = None) then fail not_found_code s else s in
  let s := if 1 <? matching_sequences s
           then mkScan (state s) (header s) (current s) (current_is_selected s) (matching_sequences s) (selected s) (Some duplicate_code)
                  (body s) (written s) (current_body_size s) (document_count s)
           else s in
  let s := match selected s with
           | Some head =>
               if bool_decide (failure s = None)
               then let s := if unexpected expected_filename (filename head) then fail "source_mismatch" s else s in
                    if unexpected expected_document_type (document_type head) then fail "source_mismatch" s else s
               else s
           | None => s
           end in
  if unexpected expected_source_sha256 (Some source_sha256) then fail "source_mismatch" s else s.
Definition conclude (source : string) (s : scan) : (BundleExtractionFailure + BundleExtraction) * option string :=
  let source_sha256 := sha256_hexdigest source in
  let s := checked source_sha256 s in
  match failure s, selected s with
  | None, Some head =>
      (inr (mkExtraction head (document_count s) (Z.of_nat (String.length source)) source_sha256
              (Z.of_nat (String.length (body s))) (sha256_hexdigest (body s))), written s)
  | f, _ => (inl (mkExtractionFailure (default not_found_code f) (matching_sequences s) source_sha256), None)
  end.
Definition joined (chunks : list string) : string := foldr String.append "" chunks.
Definition _extract_bundle_selection (chunks : list string) : (BundleExtractionFailure + BundleExtraction) * option string :=
  let '(pending, s) := foldl feed ("", started) chunks in
  conclude (joined chunks) (at_end pending s).
End extraction.

(** ** Selections *)

Definition invalid_extraction (code : string) : (BundleExtractionFailure + BundleExtraction) * option string :=
  (inl (mkExtractionFailure code 0 ""), None).
(** A destination that is not opened is left as it is: the callers name a new one. *)
Definition extract_bundle_sequence (sha256_hexdigest : string → string) (chunks : list string) (number : option Z)
    (expected_source_sha256 : option string) : (BundleExtractionFailure + BundleExtraction) * option string :=
  match number with
  | Some number =>
      if number <=? 0 then invalid_extraction "invalid_sequence"
      else _extract_bundle_selection sha256_hexdigest (λ h, sequence h =? number) "duplicate_sequence" "sequence_not_found"
             None None expected_source_sha256 chunks
  | None => invalid_extraction "invalid_sequence"
  end.

Definition _NON_TEXT_TYPES : list string := ["GRAPHIC"; "COVER"; "XML"; "ZIP"].
Definition _NON_TEXT_EXTENSIONS : list string := [".jpg"; ".jpeg"; ".gif"; ".png"; ".pdf"; ".zip"; ".xlsx"; ".xls"; ".fil"].
Definition has_suffix (s suffix : string) : bool :=
  (String.length suffix <=? String.length s)%nat && String.eqb (str_drop (String.length s - String.length suffix) s) suffix.
(** [" ".join(value.split())] *)
Fixpoint join_words (pending : bool) (s : string) : string :=
  match s with
  | EmptyString => ""
  | String c s => if is_py_space c then join_words true s else (if pending then " " else "") +:+ String c (join_words false s)
  end.
Definition _normalize_bundle_type (value : string) : string :=
  let normalized := upper (join_words false (strip value)) in
  default normalized (resolve_alias (Some normalized)).
Definition _type_is_selected (header : BundleDocumentHeader) (wanted : string) : bool :=
  match document_type header with
  | None => false
  | Some t =>
      let observed := _normalize_bundle_type t in
      String.eqb observed wanted && negb (existsb (String.eqb observed) _NON_TEXT_TYPES)
      && negb (existsb (has_suffix (lower (default "" (filename header)))) _NON_TEXT_EXTENSIONS)
  end.
Definition extract_bundle_document_by_type (sha256_hexdigest : string → string) (chunks : list string) (expected_type : string)
    (expected_source_sha256 : option string) : (BundleExtractionFailure + BundleExtraction) * option string :=
  if String.eqb (strip expected_type) "" then invalid_extraction "document_type_not_found"
  else let wanted := _normalize_bundle_type expected_type in
       _extract_bundle_selection sha256_hexdigest (λ h, _type_is_selected h wanted) "duplicate_document_type" "document_type_not_found"
         None None expected_source_sha256 chunks.

(** ** The naive scan of a whole submission *)

(** A token at the start of a text, in either case. *)
Definition token_at (s : string) : option string := find (λ t, String.prefix (lower t) (lower s)) _TOKENS.

Section naive.
Context (is_selected : BundleDocumentHeader → bool) (duplicate_code : string).
Abbreviation handle := (handle is_selected duplicate_code).
(** Byte by byte; [skip] bytes of a token are left. *)
Fixpoint naive (skip : nat) (s : string) (st : scan) : scan :=
  match s with
  | EmptyString => st
  | String c s' =>
      match skip with
      | S skip => naive skip s' st
      | O => match token_at s with
             | Some t => naive (String.length t - 1) s' (handle t st)
             | None => naive 0 s' (consume (String c "") st)
             end
      end
  end.
End naive.

(** ** Prefixes and positions *)

Lemma prefix_spec p s : String.prefix p s = true ↔ ∃ r, s = p +:+ r.
Proof.
  revert s. induction p as [|c p IH]; intros s.
  - split; [intros _; exists s; by rewrite append_nil|by destruct s].
  - destruct s as [|d s]; [split; [done|by intros [r [=]]]|]. cbn [String.prefix]. destruct (ascii_dec c d) as [->|Hn].
    + rewrite IH. split; intros [r Hr]; exists r; rewrite append_cons in *; [by rewrite Hr|by injection Hr].
    + split; [done|]. intros [r Hr]. rewrite append_cons in Hr. injection Hr. by intros _ ->.
Qed.
Lemma lower_app s t : lower (s +:+ t) = lower s +:+ lower t.
Proof. induction s as [|c s IH]; [done|]. unfold lower in *. rewrite append_cons. cbn [string_map]. by rewrite IH. Qed.
Lemma length_lower s : String.length (lower s) = String.length s.
Proof. induction s as [|c s IH]; [done|]. unfold lower in *. cbn [string_map String.length]. by rewrite IH. Qed.
Lemma lower_drop n s : lower (str_drop n s) = str_drop n (lower s).
Proof. revert s. induction n as [|n IH]; intros [|c s]; try done. exact (IH s). Qed.
Lemma length_drop n s : String.length (str_drop n s) = (String.length s - n)%nat.
Proof. revert s. induction n as [|n IH]; intros [|c s]; cbn [str_drop String.length]; try done. Qed.
Lemma length_take n s : (n <= String.length s)%nat → String.length (str_take n s) = n.
Proof. revert s. induction n as [|n IH]; intros [|c s] H; cbn in *; try done; [lia|]. rewrite IH; lia. Qed.
Lemma drop_append n s t : (n <= String.length s)%nat → str_drop n (s +:+ t) = str_drop n s +:+ t.
Proof. revert s. induction n as [|n IH]; intros [|c s] H; cbn in *; try done; [lia|]. apply IH. lia. Qed.
Lemma prefix_app p s t : (String.length p <= String.length s)%nat → String.prefix p (s +:+ t) = String.prefix p s.
Proof.
  revert s. induction p as [|c p IH]; intros s H; [by destruct s, t|]. destruct s as [|d s]; cbn in H; [lia|].
  rewrite append_cons. cbn [String.prefix]. destruct (ascii_dec c d); [|done]. apply IH. lia.
Qed.

(** *** Tokens *)

Lemma tokens_Forall (P : string → Prop) : P "<DOCUMENT>" → P "</DOCUMENT>" → P "<TEXT>" → P "</TEXT>" → Forall P _TOKENS.
Proof. intros. by repeat constructor. Qed.
Lemma token_sizes : Forall (λ t, (6 <= String.length t <= _MAX_TOKEN_SIZE)%nat) _TOKENS.
Proof. apply tokens_Forall; vm_compute; lia. Qed.
Lemma token_size t : t ∈ _TOKENS → (6 <= String.length t <= _MAX_TOKEN_SIZE)%nat.
Proof. exact (proj1 (Forall_forall _ _) token_sizes t). Qed.
(** A token begins with "<" and has no other. *)
Lemma tokens_open : Forall (λ t, ∃ t', lower t = String "<" t' ∧ has_char "<"%char t' = false) _TOKENS.
Proof. apply tokens_Forall; eexists; split; vm_compute; reflexivity. Qed.
Lemma tokens_apart : Forall (λ t, Forall (λ t', String.prefix (lower t) (lower t') = true → t = t') _TOKENS) _TOKENS.
Proof. apply tokens_Forall; apply tokens_Forall; vm_compute; congruence. Qed.

Lemma prefix_chain p q s : String.prefix p s = true → String.prefix q s = true → (String.length p <= String.length q)%nat → String.prefix p q = true.
Proof. intros Hp [r ->]%prefix_spec Hl. by rewrite prefix_app in Hp. Qed.
Lemma token_unique t t' s : t ∈ _TOKENS → t' ∈ _TOKENS → String.prefix (lower t) (lower s) = true → String.prefix (lower t') (lower s) = true → t = t'.
Proof.
  intros Ht Ht' H H'. pose proof tokens_apart as Ha. rewrite Forall_forall in Ha.
  destruct (Nat.le_ge_cases (String.length t) (String.length t')) as [Hl|Hl].
  - pose proof (Ha _ Ht) as H1. rewrite Forall_forall in H1. apply (H1 _ Ht'). eapply prefix_chain; [done..|by rewrite !length_lower].
  - pose proof (Ha _ Ht') as H1. rewrite Forall_forall in H1. symmetry. apply (H1 _ Ht). eapply prefix_chain; [done..|by rewrite !length_lower].
Qed.
Lemma token_at_spec s t : token_at s = Some t ↔ t ∈ _TOKENS ∧ String.prefix (lower t) (lower s) = true.
Proof.
  unfold token_at. split.
  - intros [H1 H2]%find_some. split; [by apply list_elem_of_In|done].
  - intros [Ht Hp]. destruct (find _ _) as [t'|] eqn:E.
    + apply find_some in E as [H1 H2]. f_equal. eapply (token_unique t' t s); [by apply list_elem_of_In|done..].
    + eapply find_none in E; [|by apply list_elem_of_In]. by rewrite Hp in E.
Qed.
Lemma token_at_none s : token_at s = None ↔ ∀ t, t ∈ _TOKENS → String.prefix (lower t) (lower s) = false.
Proof.
  destruct (token_at s) as [t|] eqn:E.
  - split; [done|]. apply token_at_spec in E as [Ht Hp]. intros H. by rewrite (H t Ht) in Hp.
  - split; [|done]. intros _ t Ht. apply not_true_is_false. intros Hp. by rewrite (proj2 (token_at_spec s t) (conj Ht Hp)) in E.
Qed.
Lemma token_at_app s r : (_MAX_TOKEN_SIZE <= String.length s)%nat → token_at (s +:+ r) = token_at s.
Proof.
  intros Hl. destruct (token_at s) as [t|] eqn:E.
  - apply token_at_spec in E as [Ht Hp]. apply token_at_spec. split; [done|]. rewrite lower_app, prefix_app; [done|]. rewrite !length_lower. pose proof (token_size t Ht). lia.
  - rewrite token_at_none in E |- *. intros t Ht. rewrite lower_app, prefix_app; [by apply E|]. rewrite !length_lower. pose proof (token_size t Ht). lia.
Qed.

(** *** The earliest token *)

Lemma find_sub_Some pat s i : find_sub pat s = Some i →
  String.prefix pat (str_drop i s) = true ∧ (i <= String.length s)%nat ∧ ∀ j, (j < i)%nat → String.prefix pat (str_drop j s) = false.
Proof.
  revert i. induction s as [|c s IH]; intros i; cbn [find_sub].
  - destruct (String.prefix pat "") eqn:E; [|done]. intros [= <-]. split; [done|]. split; [done|lia].
  - destruct (String.prefix pat (String c s)) eqn:E.
    + intros [= <-]. split; [done|]. split; [cbn; lia|lia].
    + destruct (find_sub pat s) as [k|]; [|done]. intros [= <-]. destruct (IH k eq_refl) as (H1 & H2 & H3).
      split; [done|]. split; [cbn; lia|]. intros [|j] Hj; [done|]. apply H3. lia.
Qed.
Lemma find_sub_None pat s : find_sub pat s = None → ∀ j, String.prefix pat (str_drop j s) = false.
Proof.
  induction s as [|c s IH]; cbn [find_sub].
  - destruct (String.prefix pat "") eqn:E; [done|]. intros _ [|j]; done.
  - destruct (String.prefix pat (String c s)) eqn:E; [done|]. destruct (find_sub pat s); [done|]. intros _ [|j]; [done|]. by apply IH.
Qed.
Lemma earliest_of p ts :
  match foldl (earlier p) None ts with
  | None => ∀ t, t ∈ ts → find_sub (lower t) (lower p) = None
  | Some (i, t) => t ∈ ts ∧ find_sub (lower t) (lower p) = Some i ∧ ∀ t' k, t' ∈ ts → find_sub (lower t') (lower p) = Some k → (i <= k)%nat
  end.
Proof.
  induction ts as [|t ts IH] using rev_ind; [by intros t Ht%elem_of_nil|]. rewrite foldl_app. cbn [foldl]. unfold earlier at 1.
  destruct (find_sub (lower t) (lower p)) as [k|] eqn:Ek; destruct (foldl (earlier p) None ts) as [[i t0]|].
  - destruct IH as (H1 & H2 & H3). destruct (Nat.ltb_spec k i) as [Hki|Hki].
    + split; [set_solver|]. split; [done|]. intros t' k' [Ht'|Ht'%list_elem_of_singleton]%elem_of_app Hk'; [specialize (H3 _ _ Ht' Hk'); lia|]. subst. rewrite Ek in Hk'. injection Hk'. lia.
    + split; [set_solver|]. split; [done|]. intros t' k' [Ht'|Ht'%list_elem_of_singleton]%elem_of_app Hk'; [by eapply H3|]. subst. rewrite Ek in Hk'. injection Hk'. lia.
  - split; [set_solver|]. split; [done|]. intros t' k' [Ht'|Ht'%list_elem_of_singleton]%elem_of_app Hk'; [by rewrite IH in Hk'|]. subst. rewrite Ek in Hk'. injection Hk'. lia.
  - destruct IH as (H1 & H2 & H3). split; [set_solver|]. split; [done|]. intros t' k' [Ht'|Ht'%list_elem_of_singleton]%elem_of_app Hk'; [by eapply H3|]. subst. by rewrite Ek in Hk'.
  - intros t' [Ht'|Ht'%list_elem_of_singleton]%elem_of_app; [by apply IH|by subst].
Qed.
Definition tokenless (p : string) : Prop := ∀ j, token_at (str_drop j p) = None.
Lemma earliest_spec p :
  match earliest p with
  | None => tokenless p
  | Some (i, t) => token_at (str_drop i p) = Some t ∧ (i <= String.length p)%nat ∧ ∀ j, (j < i)%nat → token_at (str_drop j p) = None
  end.
Proof.
  pose proof (earliest_of p _TOKENS) as H. unfold earliest. destruct (foldl _ _ _) as [[i t]|].
  - destruct H as (Ht & Hf & Hmin). apply find_sub_Some in Hf as (H1 & H2 & _). rewrite length_lower in H2.
    split; [apply token_at_spec; by rewrite lower_drop|]. split; [done|]. intros j Hj. apply token_at_none. intros t' Ht'. rewrite lower_drop.
    destruct (find_sub (lower t') (lower p)) as [k|] eqn:Ek; [|by apply find_sub_None].
    apply find_sub_Some in Ek as Hk. destruct Hk as (_ & _ & Hk). apply Hk. specialize (Hmin _ _ Ht' Ek). lia.
  - intros j. apply token_at_none. intros t Ht. rewrite lower_drop. by apply find_sub_None, H.
Qed.

(** A token that starts before another ends before it starts. *)
Lemma drop_no_char c n s s' : has_char c s = false → str_drop n s = String c s' → False.
Proof.
  revert s. induction n as [|n IH]; intros [|d s] Hc; cbn [str_drop]; try discriminate.
  - intros [= -> _]. cbn in Hc. by rewrite bool_decide_true in Hc.
  - apply IH. cbn in Hc. by apply orb_false_iff in Hc as [_ Hc].
Qed.
Lemma no_crossing w i j t t' :
  token_at (str_drop i w) = Some t → t' ∈ _TOKENS → String.prefix (lower t') (lower (str_drop j w)) = true → (j < i)%nat →
  (j + String.length t' <= i)%nat.
Proof.
  intros [Ht [r Hr]%prefix_spec]%token_at_spec Ht' [r' Hr']%prefix_spec Hji. destruct (Nat.le_gt_cases (j + String.length t') i) as [|Hlt]; [done|]. exfalso.
  pose proof tokens_open as Ho. rewrite Forall_forall in Ho. destruct (Ho _ Ht) as (u & Hu & _). destruct (Ho _ Ht') as (u' & Hu' & Hno).
  rewrite lower_drop in Hr, Hr'. replace i with (j + (i - j))%nat in Hr by lia. rewrite <- str_drop_drop, Hr', drop_append in Hr by (rewrite length_lower; lia).
  rewrite Hu, Hu' in Hr. destruct (i - j)%nat as [|k] eqn:Ek; [lia|]. cbn [str_drop] in Hr. rewrite append_cons in Hr.
  assert (String.length u' = String.length t' - 1)%nat as Hl by (pose proof (length_lower t') as Hl; rewrite Hu' in Hl; cbn in Hl; lia).
  destruct (str_drop k u') as [|c u''] eqn:Ed; [pose proof (length_drop k u') as Hd; rewrite Ed in Hd; cbn in Hd; lia|].
  rewrite append_cons in Hr. injection Hr as -> _. by eapply drop_no_char.
Qed.

(** *** Consuming bytes in pieces *)

Lemma fail_fail code s : fail code (fail code s) = fail code s.
Proof. unfold fail. destruct s as [? ? ? ? ? ? [f|] ? ? ? ?]; done. Qed.
Lemma str_take_all n s : (String.length s <= n)%nat → str_take n s = s.
Proof. revert n. induction s as [|c s IH]; intros [|n] H; cbn in *; try done; [lia|]. rewrite IH; [done|lia]. Qed.
Lemma take_append n s t : str_take n (s +:+ t) = str_take n s +:+ str_take (n - String.length s) t.
Proof.
  revert n. induction s as [|c s IH]; intros n; [by rewrite append_nil, Nat.sub_0_r; destruct n|]. rewrite append_cons.
  destruct n as [|n]; [done|]. cbn [str_take String.length Nat.sub]. by rewrite IH, append_cons.
Qed.
(** In a header only the text and the failure change. *)
Definition too_long (r : nat) (data : string) (f : option string) : option string :=
  if (r <? String.length data)%nat then match f with None => Some "malformed_delimiters" | Some f => Some f end else f.
Lemma consume_header data h c sel n sl f b w z dc :
  consume data (mkScan InHeader h c sel n sl f b w z dc) =
  mkScan InHeader (h +:+ str_take (_MAX_HEADER_SIZE - String.length h) data) c sel n sl (too_long (_MAX_HEADER_SIZE - String.length h) data f) b w z dc.
Proof. unfold consume, too_long. cbn [state header]. by destruct (_ <? _)%nat. Qed.
Lemma consume_nil s : consume "" s = s.
Proof.
  destruct s as [[] h c sel n sl f b w z dc]; try done.
  - rewrite consume_header. unfold too_long. assert (∀ n, str_take n "" = "") as -> by (by intros [|]). rewrite append_nil_r.
    by destruct (Nat.ltb_spec (_MAX_HEADER_SIZE - String.length h) (String.length "")) as [H|]; [cbn in H; lia|].
  - unfold consume, add_body. cbn. rewrite append_nil_r, Z.add_0_r. destruct (sel && _), w; cbn; by rewrite ?append_nil_r.
Qed.
Lemma too_long_app r a b f : too_long r (a +:+ b) f = too_long (r - String.length a) b (too_long r a f).
Proof.
  unfold too_long. rewrite length_append.
  destruct (Nat.ltb_spec r (String.length a)), (Nat.ltb_spec (r - String.length a) (String.length b)), (Nat.ltb_spec r (String.length a + String.length b));
    try lia; try done; by destruct f.
Qed.
Lemma consume_app a b s : consume (a +:+ b) s = consume b (consume a s).
Proof.
  destruct s as [[] h c sel n sl f bd w z dc]; try done.
  - rewrite !consume_header, too_long_app, take_append, length_append, <- append_assoc. set (r := (_MAX_HEADER_SIZE - String.length h)%nat).
    replace (_MAX_HEADER_SIZE - (String.length h + String.length (str_take r a)))%nat with (r - String.length a)%nat; [done|].
    destruct (Nat.le_ge_cases r (String.length a)); [rewrite length_take by done; lia|rewrite str_take_all by done; lia].
  - unfold consume, add_body. cbn. rewrite length_append, Nat2Z.inj_add, Z.add_assoc. destruct (sel && _); [|done]. rewrite append_assoc. f_equal.
    destruct w; cbn; [by rewrite append_assoc|done].
Qed.

(** ** Chunks do not matter *)

Section chunks.
Context (is_selected : BundleDocumentHeader → bool) (duplicate_code : string).
Abbreviation naive := (naive is_selected duplicate_code).
Abbreviation handle := (handle is_selected duplicate_code).
Abbreviation drain := (drain is_selected duplicate_code).

Lemma naive_skip k x s : naive k x s = naive 0 (str_drop k x) s.
Proof. revert k. induction x as [|c x IH]; intros [|k]; try done. cbn [SgmlBundle.naive str_drop]. apply IH. Qed.
Lemma naive_token x s t : token_at x = Some t → naive 0 x s = naive 0 (str_drop (String.length t) x) (handle t s).
Proof.
  intros Hx. destruct x as [|c x]; [done|]. cbn [SgmlBundle.naive]. rewrite Hx, naive_skip.
  apply token_at_spec in Hx as [Ht _]. pose proof (token_size t Ht). destruct (String.length t) as [|k]; [lia|]. cbn [str_drop]. by rewrite Nat.sub_succ, Nat.sub_0_r.
Qed.
Lemma naive_clear i w s : (i <= String.length w)%nat → (∀ j, (j < i)%nat → token_at (str_drop j w) = None) →
  naive 0 w s = naive 0 (str_drop i w) (consume (str_take i w) s).
Proof.
  revert w s. induction i as [|i IH]; intros w s Hi Hj; [cbn; by rewrite consume_nil|]. destruct w as [|c w]; cbn in Hi; [lia|].
  pose proof (Hj 0%nat ltac:(lia)) as H0. cbn [str_drop] in H0. cbn [SgmlBundle.naive]. rewrite H0. cbn [str_drop str_take]. rewrite IH; [|lia|intros j Hlt; apply (Hj (S j)); lia].
  change (String c (str_take i w)) with (String c "" +:+ str_take i w). by rewrite consume_app.
Qed.
Lemma naive_tokenless p s : tokenless p → naive 0 p s = consume p s.
Proof. intros Hp. rewrite (naive_clear (String.length p)) by (done || intros j _; apply Hp). rewrite str_drop_all, str_take_all by done. done. Qed.

Lemma drain_naive fuel p s r : (String.length p <= fuel)%nat →
  naive 0 (p +:+ r) s = naive 0 ((drain fuel p s).1 +:+ r) (drain fuel p s).2 ∧ tokenless (drain fuel p s).1.
Proof.
  revert p s. induction fuel as [|fuel IH]; intros p s Hl; cbn [SgmlBundle.drain].
  { destruct p; cbn in Hl; [|lia]. split; [done|]. by intros [|j]. }
  destruct (String.eqb_spec p "") as [->|Hne]; [split; [done|by intros [|j]]|]. pose proof (earliest_spec p) as He.
  destruct (earliest p) as [[i t]|].
  - destruct He as (Hat & Hi & Hbefore). pose proof (proj1 (token_at_spec _ _) Hat) as [Ht Hp]. pose proof (token_size t Ht) as Hsize.
    assert (token_at (str_drop i (p +:+ r)) = Some t) as Hat'.
    { rewrite drop_append by done. apply token_at_spec. split; [done|]. apply prefix_spec in Hp as [u Hu]. rewrite lower_app, Hu, append_assoc. apply prefix_spec. by eexists. }
    assert (i + String.length t <= String.length p)%nat as Hfit.
    { apply prefix_spec in Hp as [u Hu]. pose proof (length_lower (str_drop i p)) as H1. rewrite Hu, length_append, length_lower, length_drop in H1. lia. }
    rewrite (naive_clear i); [|rewrite length_append; lia|].
    + rewrite (naive_token _ _ t Hat'), str_drop_drop, drop_append, take_append, (proj2 (Nat.sub_0_le i _)) by lia. rewrite str_drop_drop || idtac.
      replace (str_take 0 r) with "" by (by destruct r). rewrite append_nil_r.
      replace (if (i =? 0)%nat then s else consume (str_take i p) s) with (consume (str_take i p) s).
      * apply IH. rewrite length_drop. lia.
      * destruct (Nat.eqb_spec i 0) as [->|]; [by rewrite consume_nil|done].
    + intros j Hj. apply token_at_none. intros t' Ht'. apply not_true_is_false. intros Hp'.
      pose proof (no_crossing _ _ _ _ _ Hat' Ht' Hp' Hj) as Hend. rewrite drop_append, lower_app, prefix_app in Hp' by (rewrite ?length_lower, ?length_drop; lia).
      specialize (Hbefore j Hj). rewrite token_at_none in Hbefore. by rewrite (Hbefore t' Ht') in Hp'.
  - destruct (Nat.eqb_spec (String.length p + 1 - _MAX_TOKEN_SIZE) 0) as [|Hsafe]; [done|].
    assert (1 <= _MAX_TOKEN_SIZE)%nat by (vm_compute; lia).
    rewrite (naive_clear (String.length p + 1 - _MAX_TOKEN_SIZE)); [|rewrite length_append; lia|].
    + rewrite drop_append, take_append, (proj2 (Nat.sub_0_le _ (String.length p))) by lia. replace (str_take 0 r) with "" by (by destruct r). rewrite append_nil_r.
      apply IH. rewrite length_drop. lia.
    + intros j Hj. rewrite drop_append, token_at_app by (rewrite ?length_drop; lia). apply He.
Qed.
Lemma feed_naive chunks p s : tokenless p →
  let '(p', s') := foldl (feed is_selected duplicate_code) (p, s) chunks in
  naive 0 (p +:+ joined chunks) s = naive 0 p' s' ∧ tokenless p'.
Proof.
  revert p s. induction chunks as [|c chunks IH]; intros p s Hp; cbn [foldl joined foldr]; [by rewrite append_nil_r|].
  unfold feed at 2. cbn [fst snd]. destruct (drain_naive (String.length (p +:+ c)) (p +:+ c) s (joined chunks)) as [H1 H2]; [done|].
  destruct (drain _ _ _) as [p1 s1]. cbn [fst snd] in H1, H2. specialize (IH p1 s1 H2). destruct (foldl _ _ _) as [p' s'].
  destruct IH as [H3 H4]. split; [|done]. change (foldr String.append "" chunks) with (joined chunks). by rewrite <- append_assoc, H1.
Qed.
End chunks.

Lemma extraction_agrees sha is_selected duplicate not_found filename type source_sha chunks :
  _extract_bundle_selection sha is_selected duplicate not_found filename type source_sha chunks =
  conclude sha duplicate not_found filename type source_sha (joined chunks)
    (at_end "" (naive is_selected duplicate 0 (joined chunks) started)).
Proof.
  unfold _extract_bundle_selection. pose proof (feed_naive is_selected duplicate chunks "" started) as H.
  destruct (foldl _ _ _) as [p s]. destruct H as [H Hp]; [by intros [|j]|]. rewrite append_nil in H. rewrite H, naive_tokenless by done.
  unfold at_end. by rewrite consume_nil.
Qed.

(** C20: Wherever the chunks cut a submission, also inside tokens, the extraction is that of a scan of the
    whole submission byte by byte: the same result, and the same bytes at the destination. *)
Theorem extraction_is_naive sha is_selected duplicate not_found filename type source_sha chunks :
  _extract_bundle_selection sha is_selected duplicate not_found filename type source_sha chunks =
  conclude sha duplicate not_found filename type source_sha (joined chunks)
    (at_end "" (naive is_selected duplicate 0 (joined chunks) started)).
Proof. apply extraction_agrees. Qed.

(** ** Well-formed submissions *)

(** A document, with the text before it and between its body and its end. *)
Record sgml_document := mkDocument { d_before : string; d_header : string; d_body : string; d_after : string }.
Definition print_document (d : sgml_document) : string :=
  d_before d +:+ "<DOCUMENT>" +:+ d_header d +:+ "<TEXT>" +:+ d_body d +:+ "</TEXT>" +:+ d_after d +:+ "</DOCUMENT>".
Definition print (docs : list sgml_document) (tail : string) : string := foldr (λ d rest, print_document d +:+ rest) tail docs.
(** No token within its texts, and a header of bounded size that can be read and does not declare
    another length. *)
Record well_formed (d : sgml_document) : Prop := {
  wf_before : tokenless (d_before d); wf_header : tokenless (d_header d); wf_body : tokenless (d_body d); wf_after : tokenless (d_after d);
  wf_size : (String.length (d_header d) <= _MAX_HEADER_SIZE)%nat;
  wf_fields : ∀ k, (parse_header k (d_header d)).1 = [];
  wf_length : ∀ k n, declared_length (parse_header k (d_header d)).2 = Some n → n = Z.of_nat (String.length (d_body d));
}.
(** The documents that are selected, with their headers, from the [k]-th on. *)
Fixpoint chosen (is_selected : BundleDocumentHeader → bool) (k : Z) (docs : list sgml_document) : list (BundleDocumentHeader * string) :=
  match docs with
  | [] => []
  | d :: docs =>
      let head := (parse_header (k + 1) (d_header d)).2 in
      (if is_selected head then [(head, d_body d)] else []) ++ chosen is_selected (k + 1) docs
  end.

Section well_formed.
Context (is_selected : BundleDocumentHeader → bool) (duplicate_code : string).
Abbreviation naive := (naive is_selected duplicate_code).
Abbreviation handle := (handle is_selected duplicate_code).

Lemma naive_segment seg t r s : tokenless seg → t ∈ _TOKENS → naive 0 (seg +:+ t +:+ r) s = naive 0 r (handle t (consume seg s)).
Proof using Type.
  intros Hseg Ht. assert (str_drop (String.length seg) (seg +:+ t +:+ r) = t +:+ r) as Hd by (by apply str_drop_app).
  assert (token_at (t +:+ r) = Some t) as Hat by (apply token_at_spec; split; [done|]; rewrite lower_app; apply prefix_spec; by eexists).
  rewrite (naive_clear is_selected duplicate_code (String.length seg)); [|rewrite length_append; lia|].
  - rewrite Hd, str_take_app by done. rewrite (naive_token _ _ _ _ t Hat). by rewrite str_drop_app.
  - intros j Hj. apply token_at_none. intros t' Ht'. apply not_true_is_false. intros Hp.
    assert (token_at (str_drop (String.length seg) (seg +:+ t +:+ r)) = Some t) as Hat' by (by rewrite Hd).
    pose proof (no_crossing _ _ _ _ _ Hat' Ht' Hp Hj) as Hend. rewrite drop_append, lower_app, prefix_app in Hp by (rewrite ?length_lower, ?length_drop; lia).
    pose proof (Hseg j) as Hn. rewrite token_at_none in Hn. by rewrite (Hn t' Ht') in Hp.
Qed.

Definition failed_with (code : string) (f : option string) : option string := match f with None => Some code | Some f => Some f end.
#[local] Opaque _MAX_HEADER_SIZE.

(** *** What each token does in the states of a well-formed submission *)

Lemma handle_open h c sel n sl f b w z dc :
  handle "<DOCUMENT>" (mkScan Outside h c sel n sl f b w z dc) = mkScan InHeader "" None false n sl f b w z (dc + 1).
Proof using Type. reflexivity. Qed.
Lemma handle_text h c sel n sl f b w z dc :
  handle "<TEXT>" (mkScan InHeader h c sel n sl f b w z dc) = in_state InBody (begin_text is_selected duplicate_code (mkScan InHeader h c sel n sl f b w z dc)).
Proof using Type. reflexivity. Qed.
Lemma handle_end_text h c sel n sl f b w z dc :
  handle "</TEXT>" (mkScan InBody h c sel n sl f b w z dc) = mkScan AfterText h c sel n sl f b w z dc.
Proof using Type. reflexivity. Qed.
Lemma handle_close h head sel n sl f b w z dc : (∀ m, declared_length head = Some m → m = z) →
  handle "</DOCUMENT>" (mkScan AfterText h (Some head) sel n sl f b w z dc) = mkScan Outside h None false n sl f b w z dc.
Proof using Type.
  intros Hl. change (no_current (_validate_length (declared_length head) z (mkScan Outside h (Some head) sel n sl f b w z dc)) = mkScan Outside h None false n sl f b w z dc).
  unfold _validate_length. destruct (declared_length head) as [m|]; [|done]. by rewrite (Hl m eq_refl), Z.ltb_irrefl, Z.eqb_refl.
Qed.
Lemma begin_text_step h n sl f b w z dc head :
  parse_header dc h = ([], head) →
  let n' := n + (if is_selected head then 1 else 0) in
  let first := is_selected head && (n' =? 1) in
  begin_text is_selected duplicate_code (mkScan InHeader h None false n sl f b w z dc) =
  mkScan InHeader "" (Some head) (is_selected head) n' (if first then Some head else sl)
    (if is_selected head && negb (n' =? 1) then failed_with duplicate_code f else f) (if first then "" else b) (if first then Some "" else w) 0 dc.
Proof using Type.
  intros Hp n' first. unfold begin_text. cbn [header document_count]. rewrite Hp. cbn [foldl matching_sequences state selected failure body written document_count].
  fold n'. fold first. by destruct (is_selected head && negb (n' =? 1)).
Qed.
Lemma consume_body data h c sel n sl f b w z dc :
  consume data (mkScan InBody h c sel n sl f b w z dc) =
  mkScan InBody h c sel n sl f (if sel && (n =? 1) then b +:+ data else b) (if sel && (n =? 1) then (λ w, w +:+ data) <$> w else w)
    (z + Z.of_nat (String.length data)) dc.
Proof using Type. reflexivity. Qed.

(** The state after a document. *)
Lemma document_step d r h n sl f b w z dc :
  well_formed d →
  let head := (parse_header (dc + 1) (d_header d)).2 in
  let n' := n + (if is_selected head then 1 else 0) in
  let first := is_selected head && (n' =? 1) in
  naive 0 (print_document d +:+ r) (mkScan Outside h None false n sl f b w z dc) =
  naive 0 r (mkScan Outside "" None false n' (if first then Some head else sl)
    (if is_selected head && negb (n' =? 1) then failed_with duplicate_code f else f)
    (if first then d_body d else b) (if first then Some (d_body d) else w) (Z.of_nat (String.length (d_body d))) (dc + 1)).
Proof using Type.
  intros Hd head n' first. unfold print_document. rewrite !append_assoc.
  assert (Forall (λ t, t ∈ _TOKENS) _TOKENS) as Hin by (by apply Forall_forall). unfold _TOKENS in Hin at 2. rewrite !Forall_cons in Hin. destruct Hin as (I1 & I2 & I3 & I4 & _).
  rewrite !naive_segment by (exact I1 || exact I2 || exact I3 || exact I4 || apply Hd). f_equal.
  change (consume (d_before d) ?s) with s. rewrite handle_open, consume_header, append_nil.
  change (String.length "") with 0%nat. rewrite Nat.sub_0_r, str_take_all by apply Hd.
  assert (too_long _MAX_HEADER_SIZE (d_header d) f = f) as ->.
  { unfold too_long. pose proof (wf_size d Hd). destruct (Nat.ltb_spec _MAX_HEADER_SIZE (String.length (d_header d))); [lia|done]. }
  pose proof (wf_fields d Hd (dc + 1)) as Hf. pose proof (wf_length d Hd (dc + 1)) as Hl.
  assert (parse_header (dc + 1) (d_header d) = ([], head)) as Hp by (rewrite <- Hf; apply surjective_pairing). fold head in Hl.
  rewrite handle_text, (begin_text_step _ _ _ _ _ _ _ _ _ Hp). fold n'. fold first.
  unfold in_state. cbn [header current current_is_selected matching_sequences selected failure body written current_body_size document_count].
  rewrite consume_body, handle_end_text, Z.add_0_l. change (consume (d_after d) ?s) with s. rewrite handle_close by done.
  unfold first. by destruct (is_selected head), (n' =? 1); cbn [andb fmap option_fmap option_map]; rewrite ?append_nil.
Qed.

(** What the scan has found after some documents. *)
Definition settled (found : list (BundleDocumentHeader * string)) (s : scan) : Prop :=
  state s = Outside ∧ current s = None ∧ current_is_selected s = false ∧ matching_sequences s = Z.of_nat (length found) ∧
  match found with
  | [] => selected s = None ∧ failure s = None
  | [(h, b)] => selected s = Some h ∧ failure s = None ∧ body s = b ∧ written s = Some b
  | (h, _) :: _ => selected s = Some h ∧ failure s = Some duplicate_code
  end.
Lemma document_settled d r found s : well_formed d → settled found s →
  let head := (parse_header (document_count s + 1) (d_header d)).2 in
  ∃ s', naive 0 (print_document d +:+ r) s = naive 0 r s' ∧ document_count s' = document_count s + 1 ∧
    settled (found ++ if is_selected head then [(head, d_body d)] else []) s'.
Proof using Type.
  intros Hd (E1 & E2 & E3 & E4 & Hfound) head. destruct s as [st h c sel n sl f b w z dc]. cbn [state current current_is_selected matching_sequences document_count selected failure body written] in *.
  subst st c sel n. eexists. split; [by apply document_step|]. cbn [document_count]. split; [done|]. fold head.
  unfold settled. cbn [state current current_is_selected matching_sequences selected failure body written]. split; [done|]. split; [done|]. split; [done|].
  destruct (is_selected head); cbn [andb negb]; [|by rewrite app_nil_r, Z.add_0_r]. split; [rewrite length_app; cbn; lia|].
  destruct found as [|[h1 b1] [|[h2 b2] more]]; cbn [length app].
  - by destruct Hfound.
  - destruct Hfound as (-> & -> & _ & _). destruct (Z.eqb_spec (Z.of_nat 1 + 1) 1); [lia|]. done.
  - destruct Hfound as (-> & ->). destruct (Z.eqb_spec (Z.of_nat (S (S (length more))) + 1) 1); [lia|]. done.
Qed.
Lemma print_settled docs tail found s : Forall well_formed docs → tokenless tail → settled found s →
  settled (found ++ chosen is_selected (document_count s) docs) (naive 0 (print docs tail) s) ∧
  document_count (naive 0 (print docs tail) s) = document_count s + Z.of_nat (length docs).
Proof using Type.
  intros Hdocs Htail. revert found s. induction Hdocs as [|d docs Hd _ IH]; intros found s Hs; cbn [print foldr chosen length].
  - rewrite app_nil_r, naive_tokenless by done. unfold consume. rewrite (proj1 Hs). split; [exact Hs|lia].
  - destruct (document_settled d (print docs tail) found s Hd Hs) as (s' & E & Hc & Hs'). fold (print docs tail). rewrite E.
    destruct (IH _ _ Hs') as [H1 H2]. rewrite Hc in H1, H2. rewrite <- app_assoc in H1. split; [done|lia].
Qed.
End well_formed.

(** C21: From a well-formed submission, in whatever chunks it arrives, exactly the body of the one
    selected document is written, with its header, its size and its digest; none or several selected documents are
    failures that leave no file. *)
Theorem well_formed_submissions_are_extracted sha is_selected duplicate not_found source_sha chunks docs tail :
  joined chunks = print docs tail → docs ≠ [] → Forall well_formed docs → tokenless tail →
  unexpected source_sha (Some (sha (joined chunks))) = false →
  _extract_bundle_selection sha is_selected duplicate not_found None None source_sha chunks =
  let source := joined chunks in
  match chosen is_selected 0 docs with
  | [] => (inl (mkExtractionFailure not_found 0 (sha source)), None)
  | [(head, content)] =>
      (inr (mkExtraction head (Z.of_nat (length docs)) (Z.of_nat (String.length source)) (sha source)
              (Z.of_nat (String.length content)) (sha content)), Some content)
  | several => (inl (mkExtractionFailure duplicate (Z.of_nat (length several)) (sha source)), None)
  end.
Proof.
  intros Hsource Hne Hdocs Htail Hsha. rewrite (extraction_agrees sha). cbv zeta.
  replace (naive is_selected duplicate 0 (joined chunks) started) with (naive is_selected duplicate 0 (print docs tail) started) by (by rewrite Hsource).
  set (source := joined chunks) in *.
  destruct (print_settled is_selected duplicate docs tail [] started Hdocs Htail) as [Hs Hcount]; [done|]. cbn [app document_count started] in Hs, Hcount. rewrite Z.add_0_l in Hcount.
  set (s := naive _ _ _ _ _) in *. destruct s as [st h c sel n sl f b w z dc]. destruct Hs as (Est & _ & _ & En & Hs). cbn [state document_count matching_sequences selected failure body written] in *.
  subst st n dc. unfold at_end. rewrite consume_nil. cbn [state]. unfold conclude, checked. rewrite Hsha. cbn [document_count].
  rewrite (proj2 (Z.eqb_neq (Z.of_nat (length docs)) 0)) by (destruct docs; [done|cbn; lia]). cbn [matching_sequences].
  destruct (chosen is_selected 0 docs) as [|[h1 b1] [|[h2 b2] more]]; cbn [length].
  - by destruct Hs as [-> ->].
  - by destruct Hs as (-> & -> & -> & ->).
  - destruct Hs as (-> & ->). destruct (Z.eqb_spec (Z.of_nat (S (S (length more)))) 0); [lia|]. cbn [andb matching_sequences].
    destruct (Z.ltb_spec 1 (Z.of_nat (S (S (length more))))); [|lia]. reflexivity.
Qed.

(** ** What is reported is what is there *)

Section reports.
Context (is_selected : BundleDocumentHeader → bool) (duplicate_code : string).
(** The destination holds what was hashed since the selected document began. *)
Definition recorded (s : scan) : Prop :=
  match selected s with
  | None => written s = None
  | Some h => is_selected h = true ∧ written s = Some (body s)
  end.
Lemma recorded_fail code s : recorded s → recorded (fail code s).
Proof using Type. done. Qed.
Lemma recorded_consume data s : recorded s → recorded (consume data s).
Proof using Type.
  unfold recorded, consume. destruct (state s); try done.
  - by destruct (_ <? _)%nat.
  - unfold add_body. cbn. destruct (selected s) as [h|]; [|by intros ->; destruct (_ && _)]. intros [? ->]. split; [done|]. by destruct (_ && _).
Qed.
Lemma recorded_fails codes s : recorded s → recorded (foldl (λ s code, fail code s) s codes).
Proof using Type. revert s. induction codes as [|c codes IH]; intros s Hs; [done|]. cbn [foldl]. apply IH, recorded_fail, Hs. Qed.
Lemma recorded_begin s : recorded s → recorded (begin_text is_selected duplicate_code s).
Proof using Type.
  intros Hs. unfold begin_text. destruct (parse_header _ _) as [errors head]. apply (recorded_fails errors) in Hs.
  set (s1 := foldl _ _ _) in *. set (n := _ + _). assert (recorded (mkScan (state s1) "" (Some head) (is_selected head) n
    (if is_selected head && (n =? 1) then Some head else selected s1) (failure s1) (if is_selected head && (n =? 1) then "" else body s1)
    (if is_selected head && (n =? 1) then Some "" else written s1) 0 (document_count s1))) as H.
  { unfold recorded in *. cbn. destruct (is_selected head) eqn:E; cbn [andb]; [|done]. by destruct (n =? 1). }
  by destruct (_ && negb _).
Qed.
Lemma recorded_handle t s : recorded s → recorded (handle is_selected duplicate_code t s).
Proof using Type.
  intros Hs. unfold handle. destruct (String.eqb t "<DOCUMENT>"); [by destruct (state s)|]. destruct (String.eqb t "</DOCUMENT>").
  - set (s1 := match state s with InHeader | InBody => _ | _ => _ end). assert (recorded s1) as H1 by (unfold s1; by destruct (state s)).
    change (recorded (match current s1 with Some c => _validate_length (declared_length c) (current_body_size s1) s1 | None => s1 end)).
    destruct (current s1) as [c|]; [|done]. unfold _validate_length. destruct (declared_length c) as [m|]; [|done]. destruct (_ <? _); [done|]. by destruct (negb _).
  - destruct (String.eqb t "<TEXT>"); [|by destruct (state s)]. destruct (state s); try done. exact (recorded_begin s Hs).
Qed.
Lemma recorded_drain fuel p s : recorded s → recorded (drain is_selected duplicate_code fuel p s).2.
Proof using Type.
  revert p s. induction fuel as [|fuel IH]; intros p s Hs; [done|]. cbn [drain]. destruct (String.eqb p ""); [done|].
  destruct (earliest p) as [[i t]|].
  - apply IH, recorded_handle. destruct (i =? 0)%nat; [done|by apply recorded_consume].
  - destruct (_ =? 0)%nat; [done|]. by apply IH, recorded_consume.
Qed.
Lemma recorded_feeds chunks ps : recorded ps.2 → recorded (foldl (feed is_selected duplicate_code) ps chunks).2.
Proof using Type. revert ps. induction chunks as [|c chunks IH]; intros ps Hs; [done|]. cbn [foldl]. by apply IH, recorded_drain. Qed.
End reports.

(** An extraction: its selected header is one that was asked for, the destination holds exactly
    the bytes whose size and digest are reported, and the submission is the one expected; after a failure there is no
    destination. *)
Definition reported (sha : string → string) (is_selected : BundleDocumentHeader → bool) (source_sha : option string) (source : string)
    (r : (BundleExtractionFailure + BundleExtraction) * option string) : Prop :=
  match r with
  | (inr ex, file) =>
      ∃ content, file = Some content ∧ is_selected (ex_selected ex) = true ∧
        ex_body_sha256 ex = sha content ∧ ex_body_size ex = Z.of_nat (String.length content) ∧
        ex_source_sha256 ex = sha source ∧ ex_source_size ex = Z.of_nat (String.length source) ∧
        unexpected source_sha (Some (sha source)) = false
  | (inl _, file) => file = None
  end.
Lemma checked_scan sha is_selected duplicate not_found filename type source_sha source s :
  recorded is_selected s → reported sha is_selected source_sha source (conclude sha duplicate not_found filename type source_sha source s).
Proof.
  intros Hs. unfold conclude, checked. set (s1 := if document_count s =? 0 then _ else _).
  set (s2 := if (matching_sequences s1 =? 0) && _ then _ else _). set (s3 := if 1 <? matching_sequences s2 then _ else _).
  set (s4 := match selected s3 with Some _ => _ | None => _ end).
  assert (recorded is_selected s4) as H4.
  { assert (recorded is_selected s1) by (unfold s1; by destruct (_ =? _)). assert (recorded is_selected s2) by (unfold s2; by destruct (_ && _)).
    assert (recorded is_selected s3) as H3 by (unfold s3; by destruct (_ <? _)). unfold s4. destruct (selected s3) as [h|]; [|done]. destruct (bool_decide (failure s3 = None)); [|exact H3].
    destruct (unexpected filename _); by destruct (unexpected type _). }
  destruct (unexpected source_sha (Some (sha source))) eqn:Hx.
  - unfold fail. cbn. by destruct (failure s4).
  - unfold recorded in H4. destruct (failure s4); [done|]. destruct (selected s4) as [h|]; [|done]. destruct H4 as [Hsel ->]. by exists (body s4).
Qed.
Lemma extraction_reported sha is_selected duplicate not_found filename type source_sha chunks :
  reported sha is_selected source_sha (joined chunks)
    (_extract_bundle_selection sha is_selected duplicate not_found filename type source_sha chunks).
Proof.
  unfold _extract_bundle_selection. pose proof (recorded_feeds is_selected duplicate chunks ("", started) eq_refl) as H.
  destruct (foldl _ _ _) as [p s]. cbn [snd] in H. apply checked_scan. unfold at_end. apply (recorded_consume _ p) in H.
  by destruct (state (consume p s)).
Qed.

(** ** Examples *)

Lemma no_token p : bool_decide (earliest p = None) = true → tokenless p.
Proof. intros E%bool_decide_eq_true. pose proof (earliest_spec p) as H. by rewrite E in H. Qed.
Definition demo_cover : sgml_document :=
  mkDocument "<SEC-HEADER>" "<TYPE>10-K<SEQUENCE>1<FILENAME>a.htm " "<p>An annual report</p>" " ".
Definition demo_exhibit : sgml_document := mkDocument " " "<TYPE>EX-21<SEQUENCE> 2 " "Subsidiaries" "".
Definition demo_chunks : list string :=
  let whole := print [demo_cover; demo_exhibit] "</SEC-DOCUMENT>" in [str_take 15 whole; str_take 60 (str_drop 15 whole); str_drop 75 whole].
Lemma demo_cover_ok : well_formed demo_cover.
Proof.
  split; try (apply no_token; vm_compute; reflexivity); try (intros k; vm_compute; reflexivity).
  - apply Nat.leb_le. vm_compute. reflexivity.
  - intros k n. vm_compute. discriminate.
Qed.
Lemma demo_exhibit_ok : well_formed demo_exhibit.
Proof.
  split; try (apply no_token; vm_compute; reflexivity); try (intros k; vm_compute; reflexivity).
  - apply Nat.leb_le. vm_compute. reflexivity.
  - intros k n. vm_compute. discriminate.
Qed.
Lemma well_formed_submissions_are_extracted_witness :
  (_extract_bundle_selection id (λ h, sequence h =? 2) "duplicate_sequence" "sequence_not_found" None None None demo_chunks).2 = Some "Subsidiaries".
Proof.
  rewrite (well_formed_submissions_are_extracted id (λ h, sequence h =? 2) "duplicate_sequence" "sequence_not_found" None demo_chunks
    [demo_cover; demo_exhibit] "</SEC-DOCUMENT>").
  - vm_compute. reflexivity.
  - vm_compute. reflexivity.
  - discriminate.
  - exact (Forall_cons_2 _ _ _ demo_cover_ok (Forall_cons_2 _ _ _ demo_exhibit_ok (Forall_nil_2 _))).
  - apply no_token. vm_compute. reflexivity.
  - reflexivity.
Defined.
