(* ===== verification/Sql.v ===== *)
(** * SQL conditions: three-valued logic over nullable columns

    The run-state store keeps its invariants in SQLite [CHECK] constraints and reads
    its tables with [WHERE] clauses.  Both are three-valued: a comparison with NULL is
    NULL, a [CHECK] is violated only by FALSE, a [WHERE] keeps only TRUE.  A nullable
    column is an [option]; a truth value is [option bool] with [None] for NULL. *)
From S2P Require Import Prelude.

Declare Scope sql_scope.
Delimit Scope sql_scope with sql.

Abbreviation tri := (option bool).

Definition tri_and (a b : tri) : tri :=
  match a, b with
  | Some false, _ | _, Some false => Some false
  | Some true, Some true => Some true
  | _, _ => None
  end.

Definition tri_or (a b : tri) : tri :=
  match a, b with
  | Some true, _ | _, Some true => Some true
  | Some false, Some false => Some false
  | _, _ => None
  end.

Definition tri_not (a : tri) : tri := negb <$> a.

Section columns.
Context {A : Type} `{EqDecision A}.

(** [x = y], [x <> y] on nullable operands. *)
Definition sql_eq (x y : option A) : tri :=
  match x, y with Some a, Some b => Some (bool_decide (a = b)) | _, _ => None end.
Definition sql_ne (x y : option A) : tri := tri_not (sql_eq x y).

(** [x IS NULL], [x IS NOT NULL], [x IS NOT y]. *)
Definition is_null (x : option A) : tri :=
  Some (match x with None => true | Some _ => false end).
Definition not_null (x : option A) : tri :=
  Some (match x with None => false | Some _ => true end).
Definition is_not (x y : option A) : tri := Some (bool_decide (x ≠ y)).

(** [x IN (...)] over non-null literals. *)
Definition sql_in (x : option A) (l : list A) : tri :=
  match x with
  | None => None
  | Some a => Some (existsb (λ b, bool_decide (a = b)) l)
  end.
End columns.

Definition sql_ge (x : option Z) (n : Z) : tri := (λ z, (n <=? z)%Z) <$> x.
Definition sql_gt (x : option Z) (n : Z) : tri := (λ z, (n <? z)%Z) <$> x.

Infix "AND" := tri_and (at level 40, left associativity) : sql_scope.
Infix "OR" := tri_or (at level 50, left associativity) : sql_scope.

(** A [CHECK] constraint fails only on FALSE; a [WHERE] condition selects only TRUE. *)
Definition check_passes (t : tri) : bool :=
  match t with Some false => false | _ => true end.
Definition where_holds (t : tri) : bool :=
  match t with Some true => true | _ => false end.

(** All the [CHECK]s of a table. *)
Definition checks_pass (l : list tri) : bool := forallb check_passes l.

Lemma check_passes_or_true a b :
  a = Some true ∨ b = Some true → check_passes (tri_or a b) = true.
Proof. destruct a as [[]|], b as [[]|]; naive_solver. Qed.

Lemma check_passes_and a b :
  check_passes (tri_and a b) = check_passes a && check_passes b.
Proof. by destruct a as [[]|], b as [[]|]. Qed.

Lemma checks_pass_Forall l :
  checks_pass l = true ↔ Forall (λ t, t ≠ Some false) l.
Proof.
  unfold checks_pass. rewrite forallb_forall, Forall_forall.
  setoid_rewrite list_elem_of_In.
  split; intros H t Ht; specialize (H t Ht); destruct t as [[]|]; simpl in *; congruence.
Qed.

Lemma sql_in_Some_true {A} `{EqDecision A} (a : A) l :
  sql_in (Some a) l = Some true ↔ a ∈ l.
Proof.
  unfold sql_in. split.
  - intros [= H]. apply existsb_exists in H as (b & Hb & Hab).
    apply bool_decide_eq_true in Hab as ->. by apply list_elem_of_In.
  - intros H. f_equal. apply existsb_exists. exists a.
    split; [by apply list_elem_of_In | by apply bool_decide_eq_true].
Qed.

Lemma sql_eq_refl {A} `{EqDecision A} (a : A) : sql_eq (Some a) (Some a) = Some true.
Proof. simpl. by rewrite bool_decide_true. Qed.

(** Without NULL, conditions are boolean. *)
Lemma tri_and_Some a b : tri_and (Some a) (Some b) = Some (a && b).
Proof. by destruct a, b. Qed.
Lemma tri_or_Some a b : tri_or (Some a) (Some b) = Some (a || b).
Proof. by destruct a, b. Qed.
Lemma tri_not_Some a : tri_not (Some a) = Some (negb a).
Proof. done. Qed.
Lemma sql_eq_Some {A} `{EqDecision A} (a b : A) :
  sql_eq (Some a) (Some b) = Some (bool_decide (a = b)).
Proof. done. Qed.
Lemma sql_in_Some {A} `{EqDecision A} (a : A) l :
  sql_in (Some a) l = Some (existsb (λ b, bool_decide (a = b)) l).
Proof. done. Qed.
Lemma check_passes_Some b : check_passes (Some b) = b.
Proof. by destruct b. Qed.
Lemma where_holds_Some b : where_holds (Some b) = b.
Proof. by destruct b. Qed.
Create Rewrite HintDb tri.
#[export] Hint Rewrite tri_and_Some tri_or_Some tri_not_Some @sql_eq_Some @sql_in_Some
  check_passes_Some where_holds_Some : tri.
