(* ===== verification/Serialization.v ===== *)
(** * Deterministic serialisation: [foundation/serialization.py]

    JSON values without floats, [json.dumps] as [canonical_json] calls it, and
    [canonical_hash] over a parameter for [hashlib.sha256]. *)
From S2P Require Import Prelude.
From Stdlib Require Import Ascii.

Inductive json : Type :=
  | JNull
  | JBool (b : bool)
  | JInt (z : Z)
  | JStr (s : string)
  | JArr (l : list json)
  | JObj (l : list (string * json)).

Section json_ind.
Context (P : json → Prop).
Hypotheses (Hnull : P JNull) (Hbool : ∀ b, P (JBool b)) (Hint : ∀ z, P (JInt z))
  (Hstr : ∀ s, P (JStr s)) (Harr : ∀ l, Forall P l → P (JArr l))
  (Hobj : ∀ l, Forall (λ kv, P kv.2) l → P (JObj l)).

Fixpoint json_nested_ind (v : json) : P v :=
  match v with
  | JNull => Hnull
  | JBool b => Hbool b
  | JInt z => Hint z
  | JStr s => Hstr s
  | JArr l => Harr l ((fix go l := match l return Forall P l with
      | [] => Forall_nil_2 _
      | x :: l => Forall_cons_2 _ _ _ (json_nested_ind x) (go l) end) l)
  | JObj l => Hobj l ((fix go l := match l return Forall (λ kv, P kv.2) l with
      | [] => Forall_nil_2 _
      | kv :: l => Forall_cons_2 (λ kv, P kv.2) kv l (json_nested_ind kv.2) (go l) end) l)
  end.
End json_ind.

(** ** [json.dumps] *)

Definition dquote : ascii := ascii_of_nat 34.
Definition backslash : ascii := "\"%char.

Definition hex_digit (n : nat) : ascii :=
  default "0"%char (String.get n "0123456789abcdef").

(** Two-character escapes, by code point. *)
Definition short_escape (c : ascii) : option ascii :=
  match nat_of_ascii c with
  | 34 => Some dquote | 92 => Some backslash | 8 => Some "b"%char | 9 => Some "t"%char
  | 10 => Some "n"%char | 12 => Some "f"%char | 13 => Some "r"%char | _ => None
  end.

(** [ensure_ascii=True]: everything outside [' ' .. '~'] is [\u00XX]. *)
Definition escape_char (c : ascii) : string :=
  match short_escape c with
  | Some e => String backslash (String e "")
  | None =>
      let n := nat_of_ascii c in
      if ((32 <=? n) && (n <=? 126))%nat then String c ""
      else String backslash ("u00" +:+ String (hex_digit (n / 16))
             (String (hex_digit (n mod 16)) ""))
  end.

(** [ensure_ascii=False]: only the control characters below U+0020 are escaped. *)
Definition escape_char_unicode (c : ascii) : string :=
  match short_escape c with
  | Some e => String backslash (String e "")
  | None =>
      let n := nat_of_ascii c in
      if (32 <=? n)%nat then String c ""
      else String backslash ("u00" +:+ String (hex_digit (n / 16))
             (String (hex_digit (n mod 16)) ""))
  end.

Fixpoint string_body (esc : ascii → string) (s : string) : string :=
  match s with
  | EmptyString => EmptyString
  | String c s' => esc c +:+ string_body esc s'
  end.

Definition json_string (esc : ascii → string) (s : string) : string :=
  String dquote (string_body esc s +:+ String dquote "").

(** [sep.join(l)] *)
Fixpoint join (sep : string) (l : list string) : string :=
  match l with
  | [] => ""
  | [x] => x
  | x :: l => x +:+ sep +:+ join sep l
  end.

(** [json.dumps(v, separators=(",", ":"))], object keys in the given order. *)
Fixpoint dumps (esc : ascii → string) (v : json) : string :=
  match v with
  | JNull => "null"
  | JBool true => "true"
  | JBool false => "false"
  | JInt z => pretty z
  | JStr s => json_string esc s
  | JArr l => "[" +:+ join "," (dumps esc <$> l) +:+ "]"
  | JObj l => "{" +:+ join "," ((λ kv, json_string esc kv.1 +:+ ":" +:+ dumps esc kv.2) <$> l)
                +:+ "}"
  end.

(** [sort_keys=True]: every object's items in key order. *)
Fixpoint sort_keys (v : json) : json :=
  match v with
  | JArr l => JArr (sort_keys <$> l)
  | JObj l => JObj (order_by fst ((λ kv, (kv.1, sort_keys kv.2)) <$> l))
  | v => v
  end.

Definition canonical_json (data : json) : string := dumps escape_char (sort_keys data).

Section hashing.
(** [hashlib.sha256(bytes).hexdigest()] *)
Context (sha256_hexdigest : string → string).

Definition canonical_hash (data : json) : string :=
  sha256_hexdigest (canonical_json data).
End hashing.

(** ** Reading a dumped string back *)

Definition hex_value (c : ascii) : nat :=
  let n := nat_of_ascii c in
  if (n <=? 57)%nat then n - 48 else n - 87.

(** One JSON string character: the code point and the rest; [None] at the quote. *)
Definition unescape_char (s : string) : option (ascii * string) :=
  match s with
  | String c s1 =>
      if bool_decide (c = dquote) then None
      else if bool_decide (c = backslash) then
        match s1 with
        | String e s2 =>
            match nat_of_ascii e with
            | 34 => Some (dquote, s2) | 92 => Some (backslash, s2)
            | 98 => Some (ascii_of_nat 8, s2) | 116 => Some (ascii_of_nat 9, s2)
            | 110 => Some (ascii_of_nat 10, s2) | 102 => Some (ascii_of_nat 12, s2)
            | 114 => Some (ascii_of_nat 13, s2)
            | _ => match s2 with
                   | String _ (String _ (String h (String l s3))) =>
                       Some (ascii_of_nat (16 * hex_value h + hex_value l), s3)
                   | _ => None
                   end
            end
        | EmptyString => None
        end
      else Some (c, s1)
  | EmptyString => None
  end.

Fixpoint parse_body (fuel : nat) (s : string) : option (string * string) :=
  match fuel with
  | O => None
  | S fuel =>
      match s with
      | String c s' =>
          if bool_decide (c = dquote) then Some (EmptyString, s')
          else '(d, rest) ← unescape_char s;
               '(body, rest') ← parse_body fuel rest;
               Some (String d body, rest')
      | EmptyString => None
      end
  end.

Definition parse_json_string (s : string) : option (string * string) :=
  match s with
  | String c s' => if bool_decide (c = dquote) then parse_body (S (String.length s')) s'
                   else None
  | EmptyString => None
  end.

(** An escape function whose escapes can be read back unambiguously. *)
Class Unescapable (esc : ascii → string) : Prop := {
  unescape_escape c s : unescape_char (esc c +:+ s) = Some (c, s);
  escape_not_quote c : ∃ d r, esc c = String d r ∧ d ≠ dquote;
}.

#[export] Instance escape_char_unescapable : Unescapable escape_char.
Proof.
  split; intros [[] [] [] [] [] [] [] []]; intros; try reflexivity;
    (eexists _, _; split; [reflexivity | discriminate]).
Qed.

#[export] Instance escape_char_unicode_unescapable : Unescapable escape_char_unicode.
Proof.
  split; intros [[] [] [] [] [] [] [] []]; intros; try reflexivity;
    (eexists _, _; split; [reflexivity | discriminate]).
Qed.

Section json_strings.
Context (esc : ascii → string) `{!Unescapable esc}.

Lemma parse_body_dump s rest fuel :
  String.length s < fuel →
  parse_body fuel (string_body esc s +:+ String dquote rest) = Some (s, rest).
Proof.
  revert fuel; induction s as [|c s IH]; intros [|fuel] Hf; simpl in Hf; try lia.
  - cbn [string_body parse_body]. autorewrite with strings.
    by rewrite bool_decide_true.
  - cbn [string_body]. rewrite append_assoc.
    pose proof (unescape_escape c (string_body esc s +:+ String dquote rest)) as Hu.
    destruct (escape_not_quote c) as (d & r & Hd & Hne).
    rewrite Hd in *. autorewrite with strings in *. cbn [parse_body].
    rewrite bool_decide_false by congruence.
    rewrite Hu. simpl. rewrite IH by lia. done.
Qed.

(** What [json.dumps] writes for a string reads back as the string. *)
Lemma parse_json_string_dump s rest :
  parse_json_string (json_string esc s +:+ rest) = Some (s, rest).
Proof.
  unfold json_string. rewrite append_cons, append_assoc. unfold parse_json_string.
  rewrite bool_decide_true by done. rewrite append_cons, append_nil.
  apply parse_body_dump. rewrite length_append.
  assert (String.length s ≤ String.length (string_body esc s)); [|lia].
  induction s as [|c s IH]; [done|]. cbn [string_body]. rewrite length_append.
  destruct (escape_not_quote c) as (d & r & -> & _). simpl. lia.
Qed.

Lemma json_string_inj s1 s2 r1 r2 :
  json_string esc s1 +:+ r1 = json_string esc s2 +:+ r2 → s1 = s2 ∧ r1 = r2.
Proof.
  intros H. assert (Some (s1, r1) = Some (s2, r2)) by
    (rewrite <- !parse_json_string_dump, H; done).
  naive_solver.
Qed.
End json_strings.

(** ** [dumps] is injective

    The dumped text determines the value, even with more text behind it that starts
    with a delimiter. *)

Definition is_delim (c : ascii) : bool := char_in ",]}" c.
Definition at_delim (k : string) : Prop :=
  match k with EmptyString => True | String c _ => is_delim c = true end.

Definition is_numeric (c : ascii) : bool := char_in "-0123456789" c.

Lemma pretty_N_go_numeric x s :
  string_forallb is_numeric s = true → string_forallb is_numeric (pretty_N_go x s) = true.
Proof.
  revert s; induction (N.lt_wf_0 x) as [x _ IH]; intros s Hs.
  destruct (decide (0 < x)%N) as [Hx|Hx].
  - rewrite pretty_N_go_step by done. apply IH; [by apply N.div_lt|]. cbn. rewrite Hs.
    unfold pretty_N_char. by repeat case_match.
  - assert (x = 0%N) as -> by lia. by rewrite pretty_N_go_0.
Qed.

Lemma pretty_Z_numeric (z : Z) : string_forallb is_numeric (pretty z) = true.
Proof.
  assert (∀ n : N, string_forallb is_numeric (pretty n) = true) as Hn.
  { intros n. unfold pretty, pretty_N. case_decide; [done|]. by apply pretty_N_go_numeric. }
  destruct z as [|p|p]; [done|apply (Hn (N.pos p))|].
  change (pretty (Z.neg p)) with ("-" +:+ pretty (N.pos p)).
  rewrite string_forallb_app. by rewrite Hn.
Qed.

Lemma pretty_N_go_length x s : String.length s ≤ String.length (pretty_N_go x s).
Proof.
  revert s; induction (N.lt_wf_0 x) as [x _ IH]; intros s.
  destruct (decide (0 < x)%N) as [Hx|Hx].
  - rewrite pretty_N_go_step by done. etrans; [|apply IH, N.div_lt; done]. simpl. lia.
  - assert (x = 0%N) as -> by lia. done.
Qed.

Lemma pretty_Z_head (z : Z) : ∃ c s, pretty z = String c s ∧ is_numeric c = true.
Proof.
  pose proof (pretty_Z_numeric z) as H.
  destruct (pretty z) as [|c s] eqn:E; [|simpl in H; apply andb_prop in H as [Hc _]; eauto].
  exfalso. destruct z as [|p|p]; [done| |done].
  change (pretty (N.pos p) = "") in E. unfold pretty, pretty_N in E.
  rewrite decide_False, pretty_N_go_step in E by done.
  pose proof (pretty_N_go_length (N.pos p `div` 10)
    (String (pretty_N_char (N.pos p `mod` 10)) "")) as Hl.
  rewrite E in Hl. simpl in Hl. lia.
Qed.

(** A run of characters of one class, followed by one outside it, is read off whole. *)
Lemma span_unique p s1 s2 k1 k2 :
  string_forallb p s1 = true → string_forallb p s2 = true →
  match k1 with EmptyString => True | String c _ => p c = false end →
  match k2 with EmptyString => True | String c _ => p c = false end →
  s1 +:+ k1 = s2 +:+ k2 → s1 = s2 ∧ k1 = k2.
Proof.
  revert s2; induction s1 as [|c s1 IH]; intros [|d s2] H1 H2 Hk1 Hk2 He;
    rewrite ?append_nil, ?append_cons in He; simpl in H1, H2;
    try apply andb_prop in H1 as [??]; try apply andb_prop in H2 as [??].
  - done.
  - subst. congruence.
  - subst. congruence.
  - injection He as -> He. edestruct (IH s2) as [-> ->]; done.
Qed.

Lemma delim_not_numeric k :
  at_delim k → match k with EmptyString => True | String c _ => is_numeric c = false end.
Proof. destruct k as [|[[] [] [] [] [] [] [] []] k]; done. Qed.

Fixpoint join_tail (l : list string) (r : string) : string :=
  match l with [] => r | x :: l => "," +:+ x +:+ join_tail l r end.

Lemma join_cons x l r : join "," (x :: l) +:+ r = x +:+ join_tail l r.
Proof.
  revert x; induction l as [|y l IH]; intros x; [done|].
  change (join "," (x :: y :: l)) with (x +:+ "," +:+ join "," (y :: l)).
  rewrite !append_assoc, IH. done.
Qed.

Definition prefix_free {X} (f : X → string) (x : X) : Prop :=
  ∀ y k k', at_delim k → at_delim k' → f x +:+ k = f y +:+ k' → x = y ∧ k = k'.

(** A bracketed list of self-delimiting items is self-delimiting. *)
Section join_prefix.
Context {X : Type} (f : X → string) (close : ascii).
Context (Hdelim : is_delim close = true) (Hcomma : close ≠ ","%char).
Context (Hhead : ∀ x, ∃ c s, f x = String c s ∧ is_delim c = false).

Lemma at_delim_join_tail l k : at_delim (join_tail (f <$> l) (String close k)).
Proof. by destruct l. Qed.

Lemma join_tail_prefix l : Forall (prefix_free f) l → ∀ l' k k',
  join_tail (f <$> l) (String close k) = join_tail (f <$> l') (String close k') →
  l = l' ∧ k = k'.
Proof.
  induction 1 as [|x l Hx Hl IH]; intros [|y l'] k k' He; simpl in He;
    rewrite ?append_cons in He; try (injection He as He); try congruence.
  - by subst.
  - rewrite !append_nil in *. apply Hx in He as [-> He]; try apply at_delim_join_tail.
    by apply IH in He as [-> ->].
Qed.

Lemma join_prefix l : Forall (prefix_free f) l → ∀ l' k k',
  join "," (f <$> l) +:+ String close k = join "," (f <$> l') +:+ String close k' →
  l = l' ∧ k = k'.
Proof.
  intros Hl l' k k' He. destruct Hl as [|x l Hx Hl], l' as [|y l'];
    rewrite ?fmap_nil, ?fmap_cons, ?join_cons in He.
  - by injection He.
  - destruct (Hhead y) as (c & s & Hy & Hc). rewrite Hy in He. injection He as -> _.
    congruence.
  - destruct (Hhead x) as (c & s & Hy & Hc). rewrite Hy in He. injection He as -> _.
    congruence.
  - apply Hx in He as [-> He]; try apply at_delim_join_tail.
    by apply join_tail_prefix in He as [-> ->].
Qed.
End join_prefix.

Section dumps_injective.
Context (esc : ascii → string) `{!Unescapable esc}.

(** The first character tells the constructors apart. *)
Inductive shape := SNull | STrue | SFalse | SNum | SQuote | SBracket | SBrace | SOther.
Definition shape_of (s : string) : shape :=
  match s with
  | EmptyString => SOther
  | String c _ =>
      if is_numeric c then SNum
      else match nat_of_ascii c with
           | 110 => SNull | 116 => STrue | 102 => SFalse | 34 => SQuote
           | 91 => SBracket | 123 => SBrace | _ => SOther end
  end.

Lemma shape_of_dumps v k :
  shape_of (dumps esc v +:+ k) =
    match v with
    | JNull => SNull | JBool true => STrue | JBool false => SFalse | JInt _ => SNum
    | JStr _ => SQuote | JArr _ => SBracket | JObj _ => SBrace
    end.
Proof.
  destruct v as [|[]|z|s|l|l]; try reflexivity.
  cbn [dumps]. destruct (pretty_Z_head z) as (c & s & -> & Hc).
  rewrite append_cons. simpl. by rewrite Hc.
Qed.

Lemma dumps_head v : ∃ c s, dumps esc v = String c s ∧ is_delim c = false.
Proof.
  pose proof (shape_of_dumps v "") as H. rewrite append_nil_r in H.
  destruct (dumps esc v) as [|c s]; [by destruct v as [|[]| | | | ]|].
  exists c, s; split; [done|]. destruct c as [[] [] [] [] [] [] [] []]; try reflexivity;
    simpl in H; by destruct v as [|[]| | | | ].
Qed.

Lemma dumps_prefix_free v : prefix_free (dumps esc) v.
Proof.
  induction v as [| b | z | s | l IH | l IH] using json_nested_ind;
    intros w k k' Hk Hk' He; pose proof (f_equal shape_of He) as Hs;
    rewrite (shape_of_dumps _ k), (shape_of_dumps _ k') in Hs;
    try (destruct b); destruct w as [|[]|z'|s'|l'|l']; try discriminate Hs;
    cbn [dumps] in He; rewrite ?append_cons, ?append_nil in He.
  1-3: by injection He.
  - apply (span_unique is_numeric) in He as [Hz ->];
      [| apply pretty_Z_numeric | apply pretty_Z_numeric | by apply delim_not_numeric..].
    by apply (inj pretty) in Hz as ->.
  - by apply (json_string_inj esc) in He as [-> ->].
  - injection He as He. rewrite !append_assoc in He.
    apply (join_prefix _ "]"%char) in He as [-> ->]; auto using dumps_head.
  - injection He as He. rewrite !append_assoc in He.
    apply (join_prefix _ "}"%char) in He as [-> ->]; auto.
    + intros [key x]. eexists _, _. split; [reflexivity|done].
    + eapply Forall_impl; [exact IH|]. intros [key x] Hx [key' x'] j j' Hj Hj' Hjj.
      simpl in Hjj. rewrite !append_assoc in Hjj.
      apply (json_string_inj esc) in Hjj as [-> Hjj]. injection Hjj as Hjj.
      rewrite !append_nil in Hjj. apply Hx in Hjj as [Hxx ->]; [|done..].
      simpl in Hxx. by subst.
Qed.

Lemma dumps_inj v w : dumps esc v = dumps esc w → v = w.
Proof.
  intros H. destruct (dumps_prefix_free v w "" ""); [done|done| |done].
  by rewrite !append_nil_r.
Qed.
End dumps_injective.

(** ** What a canonical text identifies *)

(** Python dictionaries: no object has a key twice. *)
Inductive distinct_keys : json → Prop :=
  | distinct_null : distinct_keys JNull
  | distinct_bool b : distinct_keys (JBool b)
  | distinct_int z : distinct_keys (JInt z)
  | distinct_str s : distinct_keys (JStr s)
  | distinct_arr l : Forall distinct_keys l → distinct_keys (JArr l)
  | distinct_obj l : NoDup l.*1 → Forall (λ kv, distinct_keys kv.2) l → distinct_keys (JObj l).

(** Equality of data: objects are equal whatever the order of their items, at any depth. *)
Inductive same_data : json → json → Prop :=
  | same_atom v : same_data v v
  | same_arr l k : Forall2 same_data l k → same_data (JArr l) (JArr k)
  | same_obj l l' k :
      l ≡ₚ l' → Forall2 (λ a b, a.1 = b.1 ∧ same_data a.2 b.2) l' k →
      same_data (JObj l) (JObj k).

Lemma sort_keys_same v w : sort_keys v = sort_keys w → same_data v w.
Proof.
  revert w; induction v as [| | | |l IH|l IH] using json_nested_ind; intros w H;
    destruct w as [| | | |k|k]; simpl in H; try discriminate H; try apply same_atom; try (rewrite H; apply same_atom); injection H as H; [constructor|].
  - revert k H; induction IH as [|x l Hx _ IHl]; intros [|y k] H;
      try discriminate H; constructor; injection H as H1 H2; eauto.
  - set (f := λ kv : string * json, (kv.1, sort_keys kv.2)) in H.
    assert (Hp : f <$> k ≡ₚ f <$> l)
      by (by rewrite <- (order_by_Permutation fst (f <$> k)), <- H, order_by_Permutation).
    apply Permutation_map_inv in Hp as (l' & Hk & Hl). apply same_obj with l'; [done|].
    rewrite Hl in IH. clear -Hk IH. revert k Hk; induction IH as [|x l' Hx _ IHl];
      intros [|y k] Hk; try discriminate Hk; constructor; injection Hk as H1 H2 H3; eauto.
Qed.
Lemma same_sort_keys v w : distinct_keys v → same_data v w → sort_keys v = sort_keys w.
Proof.
  revert w; induction v as [| | | |l IH|l IH] using json_nested_ind; intros w Hv Hs;
    inversion Hs as [|? k Hk|? l' k Hp Hk]; subst; try done; simpl; f_equal.
  - inversion Hv as [| | | |? Hl|]; subst. clear -IH Hl Hk.
    revert IH Hl; induction Hk as [|x y l k Hxy _ IHk]; intros IH Hl; [done|]; simpl.
    apply Forall_cons in IH as [Hx IH], Hl as [Hl1 Hl]. f_equal; [by apply Hx|by apply IHk].
  - inversion Hv as [| | | | |? Hnd Hl]; subst.
    transitivity (order_by fst ((λ kv, (kv.1, sort_keys kv.2)) <$> l')).
    + apply order_by_unique; [by rewrite <- list_fmap_compose|by rewrite Hp].
    + f_equal. rewrite Hp in IH, Hl. clear -IH Hl Hk.
      revert IH Hl; induction Hk as [|x y l k [Hk Hxy] _ IHk]; intros IH Hl; [done|].
      apply Forall_cons in IH as [Hx IH], Hl as [Hl1 Hl]. rewrite !fmap_cons, Hk. f_equal.
      * f_equal. by apply Hx.
      * by apply IHk.
Qed.

Lemma canonical_json_inj v w : canonical_json v = canonical_json w → sort_keys v = sort_keys w.
Proof. apply (dumps_inj _). Qed.

(** Two Python values have the same canonical text exactly when they are equal data,
    so that the digest of the text identifies the data and does not depend on the
    insertion order of any dictionary. *)
Theorem canonical_json_identifies v w :
  distinct_keys v → (canonical_json v = canonical_json w ↔ same_data v w).
Proof.
  intros Hv. split.
  - intros H%canonical_json_inj. by apply sort_keys_same.
  - intros H. unfold canonical_json. by rewrite (same_sort_keys v w).
Qed.
Definition demo_data (a b : string * json) : json := JObj [("items", JArr [JObj [a; b]])].
Lemma canonical_json_identifies_witness :
  canonical_json (demo_data ("b", JInt 1) ("a", JNull)) =
  canonical_json (demo_data ("a", JNull) ("b", JInt 1)).
Proof.
  apply canonical_json_identifies.
  - repeat (constructor || (intros ?%elem_of_list_singleton; done) || set_solver).
  - eapply same_obj; [done|]. constructor; [|done]. split; [done|]. simpl.
    constructor. constructor; [|done].
    eapply same_obj; [apply Permutation_swap|]. repeat constructor.
Defined.
