(* ===== verification/PyJson.v ===== *)
(** * JSON values read back by Python code

    What the code does with a value returned by [json.loads]: [data[k]], [data.get(k)],
    [int(v)], [str(v)], truth value and [==].  A file written by [atomic_write_json] with
    [canonical=True] holds the text of [canonical_json]; its content is modelled as the
    value [json.loads] returns for that text, the written value with sorted keys. *)
From S2P Require Import Prelude Numerals Serialization.
From Stdlib Require Import Ascii.

Fixpoint assoc {A} (k : string) (l : list (string * A)) : option A :=
  match l with
  | [] => None
  | (k', v) :: l => if String.eqb k' k then Some v else assoc k l
  end.

(** [data[k]]; only an object can be indexed by a string. *)
Definition getitem (data : json) (k : string) : result json :=
  match data with
  | JObj l => require (assoc k l) (KeyError k)
  | _ => Err (TypeError "indices must be integers or not subscriptable")
  end.

(** [data.get(k)]: only an object has the method. *)
Definition get_or_none (data : json) (k : string) : result json :=
  match data with
  | JObj l => Ok (default JNull (assoc k l))
  | _ => Err (AttributeError "get")
  end.

(** [int(v)] *)
Definition int_of_json (v : json) : result Z :=
  match v with
  | JInt z => Ok z
  | JBool b => Ok (Z.b2z b)
  | JStr s => int_of_string s
  | _ => Err (TypeError "int() argument must be a string or a number")
  end.

(** ** [repr] and [str] *)

Definition squote : ascii := "'"%char.

(** [repr] of a string: single quotes unless only they occur in it; the quote, the
    backslash and what is not printable are escaped. *)
Definition repr_char (quote c : ascii) : string :=
  let n := nat_of_ascii c in
  if bool_decide (c = quote) || bool_decide (c = backslash) then String backslash (String c "")
  else if (n =? 10)%nat then String backslash "n"
  else if (n =? 13)%nat then String backslash "r"
  else if (n =? 9)%nat then String backslash "t"
  else if (n <? 32)%nat || ((127 <=? n) && (n <=? 160))%nat || (n =? 173)%nat
  then String backslash ("x" +:+ String (hex_digit (n / 16)) (String (hex_digit (n mod 16)) ""))
  else String c "".
Fixpoint occurs (c : ascii) (s : string) : bool :=
  match s with
  | EmptyString => false
  | String d s => bool_decide (d = c) || occurs c s
  end.
Definition repr_str (s : string) : string :=
  let quote := if occurs squote s && negb (occurs dquote s) then dquote else squote in
  String quote (string_body (repr_char quote) s +:+ String quote "").

Fixpoint repr (v : json) : string :=
  match v with
  | JNull => "None"
  | JBool b => if b then "True" else "False"
  | JInt z => pretty z
  | JStr s => repr_str s
  | JArr l => "[" +:+ join ", " (repr <$> l) +:+ "]"
  | JObj l => "{" +:+ join ", " ((λ kv, repr_str kv.1 +:+ ": " +:+ repr kv.2) <$> l) +:+ "}"
  end.
Definition str_of_json (v : json) : string :=
  match v with JStr s => s | v => repr v end.

Example str_of_list : str_of_json (JArr [JStr "it's"; JInt (-3); JNull; JObj [("k", JBool true)]])
  = "[" +:+ String dquote ("it's" +:+ String dquote ", -3, None, {'k': True}]").
Proof. vm_compute. reflexivity. Qed.

(** ** Truth value and equality *)

Definition json_truthy (v : json) : bool :=
  match v with
  | JNull => false
  | JBool b => b
  | JInt z => negb (z =? 0)%Z
  | JStr s => bool_decide (s ≠ "")
  | JArr l => match l with [] => false | _ => true end
  | JObj l => match l with [] => false | _ => true end
  end.

(** [True] and [False] equal 1 and 0; objects are compared whatever their key order, so
    that equality is that of the canonical texts. *)
Fixpoint numeric (v : json) : json :=
  match v with
  | JBool b => JInt (Z.b2z b)
  | JArr l => JArr (numeric <$> l)
  | JObj l => JObj ((λ kv, (kv.1, numeric kv.2)) <$> l)
  | v => v
  end.
Definition json_equal (v w : json) : bool :=
  String.eqb (canonical_json (numeric v)) (canonical_json (numeric w)).

Lemma json_equal_refl v : json_equal v v = true.
Proof. apply String.eqb_refl. Qed.

(** ** Files *)

(** A text file that should hold JSON: missing, not JSON, or the parsed value. *)
Inductive json_file :=
  | NoFile
  | NotJsonText
  | JsonText (v : json).

Definition write_json (v : json) : json_file := JsonText (sort_keys v).
