(* ===== verification/Durable.v ===== *)
(** * Durable steps

    A computation that changes files, as the list of the states it goes through, one per
    atomic effect, and its result.  A crash can leave any of these states behind, so a
    crash-safety property is one of all of them ([always]); what follows a completed
    computation is about the last one ([final_state]). *)
From S2P Require Import Prelude.

Definition io (S A : Type) : Type := S → list S * result A.

Definition final_state {S A} (m : io S A) (s : S) : S := default s (last (m s).1).
Definition outcome_of {S A} (m : io S A) (s : S) : result A := (m s).2.

Definition ret_io {S A} (a : A) : io S A := λ _, ([], Ok a).
Definition raise_io {S A} (e : exn) : io S A := λ _, ([], Err e).
Definition read {S A} (f : S → result A) : io S A := λ s, ([], f s).
Definition write {S} (f : S → S) : io S unit := λ s, ([f s], Ok ()).
Definition bind_io {S A B} (m : io S A) (f : A → io S B) : io S B := λ s,
  match m s with
  | (trace, Ok a) =>
      let '(trace', r) := f a (default s (last trace)) in (trace ++ trace', r)
  | (trace, Err e) => (trace, Err e)
  end.

Declare Scope io_scope.
Delimit Scope io_scope with io.
Notation "x <- m ; k" := (bind_io m (λ x, k))
  (at level 20, m at level 100, k at level 200, only parsing) : io_scope.
Notation "m ;; k" := (bind_io m (λ _, k)) (at level 100, k at level 200, only parsing) : io_scope.

(** [try: m finally: c] *)
Definition finally {S A} (m : io S A) (c : io S unit) : io S A := λ s,
  let '(trace, r) := m s in
  let '(trace', r') := c (default s (last trace)) in
  (trace ++ trace', match r' with Ok _ => r | Err e => Err e end).

(** A loop of effects. *)
Fixpoint each {S A} (f : A → io S unit) (l : list A) : io S unit :=
  match l with
  | [] => ret_io ()
  | x :: l => bind_io (f x) (λ _, each f l)
  end.

(** [P] holds wherever a crash may stop [m]. *)
Definition always {S A} (P : S → Prop) (m : io S A) (s : S) : Prop := Forall P (m s).1.

Section io_lemmas.
Context {S A B : Type}.
Implicit Types (m : io S A) (f : A → io S B) (P : S → Prop).

Lemma final_state_always P m s : P s → always P m s → P (final_state m s).
Proof.
  unfold always, final_state. intros Hs Ha. destruct (last (m s).1) eqn:E; [|done].
  rewrite Forall_forall in Ha. by apply Ha, last_Some_elem_of.
Qed.

Lemma bind_io_Ok m f s b :
  outcome_of (bind_io m f) s = Ok b →
  ∃ a, outcome_of m s = Ok a ∧ outcome_of (f a) (final_state m s) = Ok b ∧
       final_state (bind_io m f) s = final_state (f a) (final_state m s).
Proof.
  unfold outcome_of, final_state, bind_io. destruct (m s) as [t [a|e]]; simpl; [|done].
  destruct (f a _) as [t' r] eqn:E. simpl. intros ->. exists a. rewrite E. simpl.
  split_and!; [done..|]. rewrite last_app. by destruct (last t').
Qed.

Lemma always_bind P m f s :
  always P m s →
  (∀ a, outcome_of m s = Ok a → always P (f a) (final_state m s)) →
  always P (bind_io m f) s.
Proof.
  unfold always, outcome_of, final_state, bind_io. destruct (m s) as [t [a|e]]; simpl; [|done].
  intros Ht Hf. specialize (Hf a eq_refl). destruct (f a _) as [t' r]. simpl in *.
  by apply Forall_app.
Qed.

Lemma always_read P (g : S → result A) s : always P (read g) s.
Proof. constructor. Qed.
Lemma always_write P (g : S → S) s : P (g s) → always P (write g) s.
Proof. intros H. by repeat constructor. Qed.
Lemma always_finally P m (c : io S unit) s :
  always P m s → always P c (final_state m s) → always P (finally m c) s.
Proof.
  unfold always, final_state, finally. destruct (m s) as [t r]. simpl.
  destruct (c _) as [t' r']. simpl. intros Ht Hc. by apply Forall_app.
Qed.
End io_lemmas.

(** ** A part of the state *)

(** [m] works on the part of the state that [get] reads and [set] replaces. *)
Definition zoom {S T A} (get : T → S) (set : S → T → T) (m : io S A) : io T A := λ t,
  let '(trace, r) := m (get t) in ((λ s, set s t) <$> trace, r).

Section zoom.
Context {S T A : Type} (get : T → S) (set : S → T → T).
Implicit Types (m : io S A) (t : T) (P : T → Prop).

Lemma outcome_of_zoom m t : outcome_of (zoom get set m) t = outcome_of m (get t).
Proof. unfold outcome_of, zoom. by destruct (m (get t)). Qed.

Lemma final_state_zoom m t :
  set (get t) t = t → final_state (zoom get set m) t = set (final_state m (get t)) t.
Proof.
  unfold final_state, zoom. destruct (m (get t)) as [trace r]. simpl. rewrite fmap_last.
  intros Ht. by destruct (last trace).
Qed.

Lemma always_zoom P m t :
  always (λ s, P (set s t)) m (get t) → always P (zoom get set m) t.
Proof.
  unfold always, zoom. destruct (m (get t)) as [trace r]. simpl. by rewrite Forall_fmap.
Qed.
End zoom.

(** ** Total correctness *)

(** [m] returns, with a result and a last state that satisfy [Q]. *)
Definition runs {S A} (m : io S A) (s : S) (Q : A → S → Prop) : Prop :=
  ∃ a, outcome_of m s = Ok a ∧ Q a (final_state m s).

Lemma final_state_bind {S A B} (m : io S A) (f : A → io S B) s a :
  outcome_of m s = Ok a → final_state (bind_io m f) s = final_state (f a) (final_state m s).
Proof.
  unfold outcome_of, final_state, bind_io. destruct (m s) as [t [a'|e]]; simpl; [|done].
  intros [= ->]. destruct (f a _) as [t' r]. simpl. rewrite last_app. by destruct (last t').
Qed.
Lemma outcome_of_bind {S A B} (m : io S A) (f : A → io S B) s a :
  outcome_of m s = Ok a → outcome_of (bind_io m f) s = outcome_of (f a) (final_state m s).
Proof.
  unfold outcome_of, final_state, bind_io. destruct (m s) as [t [a'|e]]; simpl; [|done].
  intros [= ->]. by destruct (f a _).
Qed.

Lemma runs_ret {S A} (a : A) (s : S) (Q : A → S → Prop) : Q a s → runs (ret_io a) s Q.
Proof. by exists a. Qed.
Lemma runs_read {S A} (f : S → result A) s a (Q : A → S → Prop) :
  f s = Ok a → Q a s → runs (read f) s Q.
Proof. exists a. by split. Qed.
Lemma runs_write {S} (f : S → S) s (Q : unit → S → Prop) : Q () (f s) → runs (write f) s Q.
Proof. by exists (). Qed.
Lemma runs_bind {S A B} (m : io S A) (f : A → io S B) s Q R :
  runs m s Q → (∀ a s', Q a s' → runs (f a) s' R) → runs (bind_io m f) s R.
Proof.
  intros (a & Hm & HQ) Hf. destruct (Hf a _ HQ) as (b & Hb & HR). exists b.
  by rewrite (outcome_of_bind _ _ _ a), (final_state_bind _ _ _ a).
Qed.
Lemma runs_mono {S A} (m : io S A) s (Q R : A → S → Prop) :
  runs m s Q → (∀ a s', Q a s' → R a s') → runs m s R.
Proof. intros (a & Hm & HQ) H. exists a. auto. Qed.
Lemma runs_zoom {S T A} (get : T → S) (set : S → T → T) (m : io S A) t (Q : A → T → Prop) :
  set (get t) t = t → runs m (get t) (λ a s, Q a (set s t)) → runs (zoom get set m) t Q.
Proof.
  intros Ht (a & Hm & HQ). exists a. by rewrite outcome_of_zoom, final_state_zoom.
Qed.
(** A loop keeps an invariant of the elements done. *)
Lemma runs_each {S A} (I : list A → S → Prop) (f : A → io S unit) l :
  (∀ done x s, I done s → x ∈ l → runs (f x) s (λ _, I (done ++ [x]))) →
  ∀ done s, I done s → runs (each f l) s (λ _, I (done ++ l)).
Proof.
  induction l as [|x l IH]; intros Hf done s Hs; simpl.
  { apply runs_ret. by rewrite app_nil_r. }
  eapply runs_bind; [apply Hf; [done|by left]|]. simpl. intros _ s' Hs'.
  replace (done ++ x :: l) with ((done ++ [x]) ++ l) by (by rewrite <- app_assoc).
  apply IH; [|done]. intros. apply Hf; [done|by right].
Qed.

Lemma runs_finally {S A} (m : io S A) (c : io S unit) s Q R :
  runs m s Q → (∀ a s', Q a s' → runs c s' (λ _, R a)) → runs (finally m c) s R.
Proof.
  intros (a & Hm & HQ) Hc. destruct (Hc a _ HQ) as ([] & Hout & HR). exists a.
  unfold outcome_of, final_state, finally in *. destruct (m s) as [t r]. simpl in *. subst r.
  destruct (c _) as [t' r']. simpl in *. subst r'. split; [done|].
  rewrite last_app. by destruct (last t').
Qed.

(** A part that may have to be created: if nothing was written the state is unchanged. *)
Lemma runs_zoom_lazy {S T A} (get : T → S) (set : S → T → T) (m : io S A) t (Q : A → T → Prop) :
  runs m (get t) (λ a s, Q a (set s t) ∧ (s = get t → Q a t)) → runs (zoom get set m) t Q.
Proof.
  intros (a & Hm & HQ & Hnil). exists a. rewrite outcome_of_zoom. split; [done|].
  unfold final_state, zoom in *. destruct (m (get t)) as [trace r]. simpl in *. rewrite fmap_last.
  destruct (last trace); simpl in *; auto.
Qed.

(** What every iteration preserves at each of its states, the loop preserves. *)
Lemma always_each {S A} (P : S → Prop) (f : A → io S unit) l s :
  P s → (∀ x s, x ∈ l → P s → always P (f x) s) → always P (each f l) s.
Proof.
  revert s; induction l as [|x l IH]; intros s Hs Hf; simpl; [constructor|].
  apply always_bind; [apply Hf; [by left|done]|]. intros _ _. apply IH.
  - apply final_state_always; [done|]. apply Hf; [by left|done].
  - intros y s' Hy. apply Hf. by right.
Qed.
Lemma always_ret {S A} (P : S → Prop) (a : A) s : always P (ret_io a) s.
Proof. constructor. Qed.
Lemma always_mono {S A} (P Q : S → Prop) (m : io S A) s :
  (∀ s', P s' → Q s') → always P m s → always Q m s.
Proof. intros H Ha. by eapply Forall_impl. Qed.

(** ** Failing computations *)

(** [m] raises [e] and leaves a state that satisfies [Q]. *)
Definition raises {S A} (m : io S A) (s : S) (e : exn) (Q : S → Prop) : Prop :=
  outcome_of m s = Err e ∧ Q (final_state m s).

Lemma raises_bind {S A B} (m : io S A) (f : A → io S B) s e Q :
  raises m s e Q → raises (bind_io m f) s e Q.
Proof.
  unfold raises, outcome_of, final_state, bind_io. destruct (m s) as [t [a|e']]; simpl; [by intros [[=] _]|]. by intros [[= ->] HQ].
Qed.
Lemma raises_after {S A B} (m : io S A) (f : A → io S B) s e Q R :
  runs m s Q → (∀ a s', Q a s' → raises (f a) s' e R) → raises (bind_io m f) s e R.
Proof.
  intros (a & Hm & HQ) Hf. destruct (Hf a _ HQ) as [He HR]. unfold raises.
  by rewrite (outcome_of_bind _ _ _ a), (final_state_bind _ _ _ a).
Qed.
Lemma raises_finally {S A} (m : io S A) (c : io S unit) s e Q R :
  runs m s Q → (∀ a s', Q a s' → raises c s' e R) → raises (finally m c) s e R.
Proof.
  intros (a & Hm & HQ) Hc. destruct (Hc a _ HQ) as [Hout HR].
  unfold raises, outcome_of, final_state, finally in *. destruct (m s) as [t r]. simpl in *. subst r.
  destruct (c _) as [t' r']. simpl in *. subst r'. split; [done|]. rewrite last_app. by destruct (last t').
Qed.
Lemma raises_zoom {S T A} (get : T → S) (set : S → T → T) (m : io S A) t e (Q : T → Prop) :
  raises m (get t) e (λ s, Q (set s t) ∧ (s = get t → Q t)) → raises (zoom get set m) t e Q.
Proof.
  intros (Hm & HQ & Hnil). unfold raises. rewrite outcome_of_zoom. split; [done|].
  unfold final_state, zoom in *. destruct (m (get t)) as [trace r]. simpl in *. rewrite fmap_last.
  destruct (last trace); simpl in *; auto.
Qed.
