(* ===== verification/Hashing.v ===== *)
(** * Hashing text: [foundation/hashing.py]

    [str.encode("utf-8")] on code points up to U+00FF and [sha256_text], which feeds the
    hash in slices; the hash function itself is a parameter. *)
From S2P Require Import Prelude.
From Stdlib Require Import Ascii.

(** ** UTF-8 *)

Definition utf8_char (c : ascii) : string :=
  let n := nat_of_ascii c in
  if (n <? 128)%nat then String c ""
  else String (ascii_of_nat (192 + n / 64)) (String (ascii_of_nat (128 + n mod 64)) "").
Fixpoint utf8 (s : string) : string :=
  match s with
  | EmptyString => EmptyString
  | String c s => utf8_char c +:+ utf8 s
  end.

Lemma utf8_app s t : utf8 (s +:+ t) = utf8 s +:+ utf8 t.
Proof.
  induction s as [|c s IH]; rewrite ?append_nil, ?append_cons; [done|]. cbn [utf8].
  by rewrite IH, append_assoc.
Qed.

(** The code of a character is recognised at the front of any text. *)
Definition utf8_decode (s : string) : option (ascii * string) :=
  match s with
  | String c s' =>
      if (nat_of_ascii c <? 128)%nat then Some (c, s')
      else match s' with
           | String d s' =>
               Some (ascii_of_nat ((nat_of_ascii c - 192) * 64 + (nat_of_ascii d - 128)), s')
           | EmptyString => None
           end
  | EmptyString => None
  end.
Lemma utf8_decode_char c s : utf8_decode (utf8_char c +:+ s) = Some (c, s).
Proof. by destruct c as [[] [] [] [] [] [] [] []]. Qed.

#[global] Instance utf8_inj : Inj eq eq utf8.
Proof.
  intros s; induction s as [|c s IH]; intros [|d t] H; cbn [utf8] in H.
  - done.
  - by destruct d as [[] [] [] [] [] [] [] []].
  - by destruct c as [[] [] [] [] [] [] [] []].
  - assert (Some (c, utf8 s) = Some (d, utf8 t)) as [= -> He]
      by (rewrite <- !utf8_decode_char, H; done).
    by rewrite (IH _ He).
Qed.

(** ** [sha256_text] *)

Section hashing.
Context (sha256_hexdigest : string → string).

Definition _TEXT_CHUNK_CHARS : N := 1048576.

(** [range(0, stop, step)] for a positive step. *)
Definition range_step (stop step : N) : list N :=
  (λ i, (N.of_nat i * step)%N) <$> seq 0 (N.to_nat ((stop + step - 1) / step)).
(** [text[offset : offset + n]] *)
Definition slice (text : string) (offset n : N) : string :=
  str_take (N.to_nat n) (str_drop (N.to_nat offset) text).

(** The bytes fed to the hash by the loop over the slices. *)
Definition sliced_bytes (chunk : N) (text : string) : string :=
  foldl (λ digest offset, digest +:+ utf8 (slice text offset chunk)) ""
    (range_step (N.of_nat (String.length text)) chunk).

Definition sha256_text (text : string) : string :=
  if (N.of_nat (String.length text) <=? _TEXT_CHUNK_CHARS)%N then sha256_hexdigest (utf8 text)
  else sha256_hexdigest (sliced_bytes _TEXT_CHUNK_CHARS text).

Lemma sliced_bytes_prefix chunk text k acc :
  foldl (λ digest offset, digest +:+ utf8 (slice text offset chunk)) acc
    ((λ i, (N.of_nat i * chunk)%N) <$> seq 0 k) =
  acc +:+ utf8 (str_take (k * N.to_nat chunk) text).
Proof.
  induction k as [|k IH]; [by rewrite append_nil_r|].
  rewrite seq_S, fmap_app, foldl_app, IH. cbn [foldl fmap list_fmap Nat.add].
  rewrite append_assoc, <- utf8_app. do 2 f_equal. unfold slice.
  rewrite N2Nat.inj_mul, Nat2N.id.
  replace (S k * N.to_nat chunk)%nat with (k * N.to_nat chunk + N.to_nat chunk)%nat by lia.
  generalize (k * N.to_nat chunk)%nat as n; clear. intros n; revert text.
  induction n as [|n IH]; intros text; [by rewrite append_nil|].
  destruct text as [|c text]; [by destruct (N.to_nat chunk)|].
  simpl. by rewrite append_cons, IH.
Qed.

Lemma sliced_bytes_all chunk text : (0 < chunk)%N → sliced_bytes chunk text = utf8 text.
Proof.
  intros Hc. unfold sliced_bytes, range_step.
  set (k := N.to_nat _). rewrite sliced_bytes_prefix, append_nil. f_equal.
  rewrite <- (str_take_drop (k * N.to_nat chunk) text) at 2.
  rewrite str_drop_all; [by rewrite append_nil_r|]. subst k.
  pose proof (N.mul_succ_div_gt (N.of_nat (String.length text) + chunk - 1) chunk). lia.
Qed.

(** Hashing a text slice by slice is hashing its encoding as a whole. *)
Theorem sha256_text_whole text : sha256_text text = sha256_hexdigest (utf8 text).
Proof.
  unfold sha256_text. case_match; [done|]. by rewrite sliced_bytes_all.
Qed.
End hashing.
