(* ===== verification/ParquetWriter.v ===== *)
(** * Staged Parquet files: [StagedParquetWriter] of [infra/storage/parquet.py]

    Batches go to a sibling [.tmp] file that [commit] renames onto the final path.  A
    Parquet file is its schema and its rows; a file whose writer has not been closed has
    no footer and cannot be read.  The writer's methods change the files, the writer, or
    both, also when they raise. *)
From S2P Require Import Prelude.

Definition schema_of_file : Type := list (string * string).

Record parquet (A : Type) := mkParquet { schema : schema_of_file; prows : list A }.
Arguments mkParquet {A} schema prows.
Arguments schema {A} p.
Arguments prows {A} p.

Inductive stage (A : Type) :=
  | Torn                        (* being written, or left by a crash *)
  | Complete (f : parquet A).
Arguments Torn {A}.
Arguments Complete {A} f.

(** The final path and its [.tmp] sibling. *)
Record staging (A : Type) := mkStaging {
  final : option (parquet A);
  tmp : option (stage A);
}.
Arguments mkStaging {A} final tmp.
Arguments final {A} s.
Arguments tmp {A} s.

Record writer (A : Type) := mkWriter {
  w_schema : schema_of_file;
  id_column : option string;
  open_writer : option (list A);       (* _writer: the rows written so far *)
  row_count : Z;
  closed : bool;
  preloaded : option (list A);         (* _preloaded_table *)
}.
Arguments mkWriter {A} w_schema id_column open_writer row_count closed preloaded.
Arguments w_schema {A} w.
Arguments id_column {A} w.
Arguments open_writer {A} w.
Arguments row_count {A} w.
Arguments closed {A} w.
Arguments preloaded {A} w.

Section staged_writer.
Context {A : Type}.
Implicit Types (fs : staging A) (w : writer A) (batch : list A).

Definition StagedParquetWriter (schema : schema_of_file) (id_column : option string) : writer A :=
  mkWriter schema id_column None 0 false None.

(** Closing the [ParquetWriter] completes the stage. *)
Definition close_writer fs w : staging A :=
  match open_writer w with
  | Some rows => mkStaging (final fs) (Some (Complete (mkParquet (w_schema w) rows)))
  | None => fs
  end.

Definition reset fs w : staging A * writer A :=
  (mkStaging (final fs) None, mkWriter (w_schema w) (id_column w) None 0 false None).

(** Opening a [ParquetWriter] truncates the stage; the preloaded rows go first. *)
Definition _ensure_writer fs w : staging A * writer A :=
  match open_writer w with
  | Some _ => (fs, w)
  | None =>
      let fs := mkStaging (final fs) (Some Torn) in
      match preloaded w with
      | Some (x :: rows) =>
          (fs, mkWriter (w_schema w) (id_column w) (Some (x :: rows))
                 (row_count w + Z.of_nat (length (x :: rows))) (closed w) None)
      | p => (fs, mkWriter (w_schema w) (id_column w) (Some []) (row_count w) (closed w) p)
      end
  end.

Definition write_batch fs w batch : staging A * writer A * result Z :=
  if closed w then (fs, w, Err (RuntimeError "cannot write to a closed StagedParquetWriter"))
  else
    let '(fs, w) := _ensure_writer fs w in
    let rows := default [] (open_writer w) ++ batch in
    (fs, mkWriter (w_schema w) (id_column w) (Some rows)
           (row_count w + Z.of_nat (length batch)) (closed w) (preloaded w),
     Ok (Z.of_nat (length batch))).

(** [count_parquet_rows(self.tmp_path)] *)
Definition count_staged (t : option (stage A)) : result (parquet A) :=
  match t with
  | None => Err FileNotFoundError
  | Some Torn => Err ArrowInvalid
  | Some (Complete f) => Ok f
  end.

(** A writer that wrote nothing creates the empty stage, or the one of its preloaded rows. *)
Definition prepare_commit fs w : staging A * writer A :=
  let '(fs, w) :=
    match open_writer w, tmp fs with
    | None, None => _ensure_writer fs w
    | _, _ => (fs, w)
    end in
  match open_writer w, preloaded w with
  | None, Some _ => _ensure_writer fs w
  | _, _ => (fs, w)
  end.

Definition commit fs w (expected_count : option Z) : staging A * writer A * result Z :=
  if closed w then (fs, w, Ok (row_count w))
  else
    let '(fs, w) := prepare_commit fs w in
    let fs := close_writer fs w in
    let w := mkWriter (w_schema w) (id_column w) None (row_count w) true (preloaded w) in
    match count_staged (tmp fs) with
    | Err e => (fs, w, Err e)
    | Ok f =>
        let actual := Z.of_nat (length (prows f)) in
        if match expected_count with Some n => negb (actual =? n)%Z | None => false end
        then (fs, w, Err (ValueError "staged chunk row count mismatch"))
        else (mkStaging (Some f) None, w, Ok actual)
    end.

(** [get_existing_ids]: the key IDs of a stage that can be resumed, whose rows are
    preloaded.  [column name row] is the row's value in a string column. *)
Definition get_existing_ids (column : string → A → option string) fs w :
    staging A * writer A * list string :=
  match tmp fs, id_column w with
  | None, _ | _, None => (fs, w, [])
  | Some Torn, Some _ => (reset fs w, [])
  | Some (Complete f), Some name =>
      if bool_decide (name ∈ (schema f).*1) && bool_decide (schema f = w_schema w) then
        (fs, mkWriter (w_schema w) (id_column w) (open_writer w) (row_count w) (closed w)
               (Some (prows f)),
         remove_dups (omap (column name) (prows f)))
      else (reset fs w, [])
  end.

(** ** What a sequence of calls does *)

Definition write_batches fs w (batches : list (list A)) : staging A * writer A :=
  foldl (λ fsw batch, (write_batch fsw.1 fsw.2 batch).1) (fs, w) batches.

(** The rows a writer has staged or will stage first. *)
Definition staged w : list A :=
  match open_writer w with
  | Some rows => rows
  | None => default [] (preloaded w)
  end.

(** A writer that is open and counts what it has staged. *)
Definition writing w (rows : list A) : Prop :=
  closed w = false ∧ staged w = rows ∧
  match open_writer w with
  | Some _ => row_count w = Z.of_nat (length rows)
  | None => row_count w = 0%Z
  end.

Lemma write_batch_writing fs w rows batch :
  writing w rows →
  ∃ w', write_batch fs w batch =
          (mkStaging (final fs) (match open_writer w with Some _ => tmp fs | None => Some Torn end),
           w', Ok (Z.of_nat (length batch))) ∧
        writing w' (rows ++ batch) ∧ is_Some (open_writer w') ∧ w_schema w' = w_schema w.
Proof.
  unfold writing, staged, write_batch, _ensure_writer. intros (Hc & <- & Hn). rewrite Hc. destruct fs as [f t].
  destruct (open_writer w) as [l|] eqn:E; [|destruct (preloaded w) as [[|x l]|]]; simpl;
    rewrite ?E; simpl; eexists; (split; [reflexivity|]); simpl; rewrite ?length_app;
    split_and!; eauto; simpl in *; lia.
Qed.

Lemma write_batches_cons fs w batch batches :
  write_batches fs w (batch :: batches) =
  write_batches (write_batch fs w batch).1.1 (write_batch fs w batch).1.2 batches.
Proof. unfold write_batches. simpl. by destruct (write_batch fs w batch) as [[? ?] ?]. Qed.

Lemma write_batches_writing fs w rows batches :
  writing w rows → is_Some (open_writer w) →
  ∃ w', write_batches fs w batches = (fs, w') ∧ writing w' (rows ++ mjoin batches) ∧
        is_Some (open_writer w') ∧ w_schema w' = w_schema w.
Proof.
  revert w rows; induction batches as [|batch batches IH];
    intros w rows Hw Ho; [exists w; rewrite app_nil_r; eauto|]. rewrite write_batches_cons.
  destruct (write_batch_writing fs w rows batch Hw) as (w1 & -> & Hw1 & Ho1 & Hs1). simpl.
  destruct Ho as [l Hl]. rewrite Hl. destruct fs as [f t]. simpl.
  destruct (IH w1 _ Hw1 Ho1) as (w' & -> & Hw' & Ho' & Hs'). exists w'.
  rewrite app_assoc. split_and!; try done. congruence.
Qed.

Lemma commit_writing fs w rows expected :
  writing w rows → is_Some (open_writer w) →
  match expected with Some n => n = Z.of_nat (length rows) | None => True end →
  ∃ w', commit fs w expected =
          (mkStaging (Some (mkParquet (w_schema w) rows)) None, w',
           Ok (Z.of_nat (length rows))) ∧ closed w' = true.
Proof.
  destruct fs as [f t], w as [s i o n c p]. unfold writing, staged, commit, close_writer.
  simpl. intros (-> & Hr & _) [l ->] He. subst l. simpl.
  destruct expected as [m|]; [subst m; rewrite Z.eqb_refl|]; simpl; eexists; by split.
Qed.

(** A new writer publishes atomically: whatever batches it stages, the final file is
    untouched, and a commit replaces it by exactly the staged rows, in order, and leaves
    no stage behind. *)
Theorem staged_write_publishes fs schema ids batch batches :
  let '(fs1, w1) := write_batches fs (StagedParquetWriter schema ids) (batch :: batches) in
  final fs1 = final fs ∧
  (commit fs1 w1 None).1.1 = mkStaging (Some (mkParquet schema (batch ++ mjoin batches))) None ∧
  (commit fs1 w1 None).2 = Ok (Z.of_nat (length (batch ++ mjoin batches))) ∧
  final (reset fs1 w1).1 = final fs ∧ tmp (reset fs1 w1).1 = None.
Proof.
  set (w := StagedParquetWriter schema ids).
  assert (Hw : writing w []) by done.
  rewrite write_batches_cons.
  destruct (write_batch_writing fs w [] batch Hw) as (w1 & -> & Hw1 & Ho1 & Hs1).
  cbn [fst snd]. change (open_writer w) with (@None (list A)). cbv iota.
  destruct (write_batches_writing (mkStaging (final fs) (Some Torn)) w1 _ batches Hw1 Ho1)
    as (w2 & -> & Hw2 & Ho2 & Hs2).
  destruct (commit_writing (mkStaging (final fs) (Some Torn)) w2 _ None Hw2 Ho2 I)
    as (w3 & Hc & _). rewrite Hc, Hs2, Hs1. done.
Qed.

(** A resumed writer keeps the rows of a stage it could read: the IDs it reports are
    those of the preloaded rows, and the commit publishes them before the new batches. *)
Theorem resumed_write_keeps_rows column f fs schema_ name batch :
  tmp fs = Some (Complete f) → schema f = schema_ → name ∈ schema_.*1 →
  let '(fs1, w1, ids) :=
    get_existing_ids column fs (StagedParquetWriter schema_ (Some name)) in
  (∀ i, i ∈ ids ↔ ∃ row, row ∈ prows f ∧ column name row = Some i) ∧
  let '(fs2, w2) := write_batches fs1 w1 [batch] in
  final fs2 = final fs ∧
  final (commit fs2 w2 None).1.1 = Some (mkParquet schema_ (prows f ++ batch)).
Proof.
  intros Ht Hs Hn. unfold get_existing_ids. simpl. rewrite Ht, Hs, !bool_decide_true by done.
  simpl. split; [intros i; rewrite elem_of_remove_dups, list_elem_of_omap; naive_solver|].
  set (w := mkWriter _ _ _ _ _ _). assert (Hw : writing w (prows f)) by done.
  destruct (write_batch_writing fs w _ batch Hw) as (w1 & Hb & Hw1 & Ho1 & Hs1).
  rewrite write_batches_cons, Hb. split; [done|].
  destruct (commit_writing (mkStaging (final fs) (Some Torn)) w1 _ None Hw1 Ho1 I)
    as (w3 & Hc & _). simpl in Hc |- *. rewrite Hc. by rewrite Hs1.
Qed.

(** A writer that stages nothing publishes whatever stage an earlier crash left
    behind, although none of its rows were written through it. *)
Theorem empty_commit_publishes_leftover f final_ schema ids :
  (commit (mkStaging final_ (Some (Complete f))) (StagedParquetWriter schema ids) None).1.1 =
  mkStaging (Some f) None.
Proof. done. Qed.
End staged_writer.

Lemma resumed_write_keeps_rows_witness :
  let f := mkParquet [("id", "string")] ["a"; "b"] in
  let '(fs1, w1, ids) :=
    get_existing_ids (λ _ row, Some row) (mkStaging None (Some (Complete f)))
      (StagedParquetWriter [("id", "string")] (Some "id")) in
  "a" ∈ ids.
Proof.
  destruct (resumed_write_keeps_rows (λ _ row, Some row) (mkParquet [("id", "string")] ["a"; "b"])
    (mkStaging None (Some (Complete (mkParquet [("id", "string")] ["a"; "b"]))))
    [("id", "string")] "id" ["c"]) as [H _]; [reflexivity|reflexivity|by left|].
  apply H. exists "a". split; [by left|reflexivity].
Defined.
