(* ===== verification/Binary64.v ===== *)
(** * Python floats

    A Python float is an IEEE 754 binary64 number; its operations are those of the Standard
    Library's specification of floating point.  The numbers [z * 2 ^ e] with [|z| < 2 ^ 53] and a
    fixed [e], [grid e z], are computed with exactly as long as results stay among them. *)
From S2P Require Import Prelude.
From Stdlib Require Export SpecFloat.
#[local] Open Scope Z_scope.

Definition float : Type := spec_float.
#[global] Instance float_eq_dec : EqDecision float.
Proof. solve_decision. Defined.

Definition fadd : float → float → float := SFadd 53 1024.
Definition fsub : float → float → float := SFsub 53 1024.
Definition fmul : float → float → float := SFmul 53 1024.
Definition fneg : float → float := SFopp.
Definition fabs : float → float := SFabs.
Definition fle : float → float → bool := SFleb.
Definition flt : float → float → bool := SFltb.
Definition feq : float → float → bool := SFeqb.

(** The float nearest to [z * 2 ^ e]; [float_of_Z] is a literal such as [1.0]. *)
Definition grid (e z : Z) : float := binary_normalize 53 1024 z e false.
Definition float_of_Z (z : Z) : float := grid 0 z.

(** The builtin [sum] of a list of floats: compensated summation (since Python 3.12), which
    starts from the integer 0. *)
Definition is_finite (x : float) : bool :=
  match x with S754_infinity _ | S754_nan => false | _ => true end.
Definition is_zero (x : float) : bool := match x with S754_zero _ => true | _ => false end.
Fixpoint sum_loop (f_result c : float) (l : list float) : float :=
  match l with
  | [] => if negb (is_zero c) && is_finite c then fadd f_result c else f_result
  | x :: l =>
      let t := fadd f_result x in
      sum_loop t (fadd c (if fle (fabs x) (fabs f_result) then fadd (fsub f_result t) x
                          else fadd (fsub x t) f_result)) l
  end.
Definition py_sum (l : list float) : float :=
  match l with
  | [] => S754_zero false
  | x :: l => sum_loop (fadd (S754_zero false) x) (S754_zero false) l
  end.

Example sum_3 : py_sum [float_of_Z 1; float_of_Z 2; float_of_Z 3] = float_of_Z 6.
Proof. reflexivity. Qed.
(** 0.1 + 0.2 is not 0.3. *)
Example tenths : feq (fadd (S754_finite false 7205759403792794 (-56)) (S754_finite false 7205759403792794 (-55)))
  (S754_finite false 5404319552844595 (-54)) = false.
Proof. reflexivity. Qed.

(** ** Shifts *)

Lemma digits_log2 p : Z.pos (digits2_pos p) = Z.log2 (Z.pos p) + 1.
Proof.
  induction p as [p IH|p IH|]; simpl digits2_pos; [| |done]; rewrite Pos2Z.inj_succ, IH.
  - rewrite Pos2Z.inj_xI, Z.log2_succ_double by lia. lia.
  - rewrite Pos2Z.inj_xO, Z.log2_double by lia. lia.
Qed.

Lemma iter_xO p d : Z.pos (Pos.iter xO p d) = Z.pos p * 2 ^ Z.pos d.
Proof.
  induction d as [|d IH] using Pos.peano_ind; [by rewrite Z.mul_comm|].
  rewrite Pos.iter_succ, Pos2Z.inj_xO, IH, Pos2Z.inj_succ, Z.pow_succ_r by lia. lia.
Qed.

Lemma shr_1_exact z : shr_1 (Build_shr_record (2 * z) false false) = Build_shr_record z false false.
Proof. by destruct z. Qed.
Lemma iter_shr_exact n : ∀ z, iter_pos shr_1 n (Build_shr_record (z * 2 ^ Z.pos n) false false) = Build_shr_record z false false.
Proof.
  induction n as [n IH|n IH|]; intros z; cbn [iter_pos].
  - replace (z * 2 ^ Z.pos n~1) with (2 * (z * 2 ^ Z.pos n * 2 ^ Z.pos n)).
    + rewrite shr_1_exact. by rewrite !IH.
    + rewrite (Pos2Z.inj_xI n), <- (Z.add_diag (Z.pos n)), !Z.pow_add_r, Z.pow_1_r by lia. ring.
  - replace (z * 2 ^ Z.pos n~0) with (z * 2 ^ Z.pos n * 2 ^ Z.pos n).
    + by rewrite !IH.
    + rewrite (Pos2Z.inj_xO n), <- (Z.add_diag (Z.pos n)), Z.pow_add_r by lia. lia.
  - change (2 ^ 1) with 2. rewrite Z.mul_comm. apply shr_1_exact.
Qed.

(** ** Numbers on the grid *)

Definition small (z : Z) : Prop := Z.abs z < 2 ^ 53.
(** Exponents for which the grid has neither subnormal numbers nor infinities. *)
Definition grid_exponent (e : Z) : Prop := -1000 <= e <= 900.

(** The mantissa scaled to 53 bits. *)
Definition digits (z : Z) : Z := Z.log2 (Z.abs z) + 1.
Definition mantissa (z : Z) : positive := Z.to_pos (Z.abs z * 2 ^ (53 - digits z)).

Lemma small_digits z : small z → z ≠ 0 → 1 <= digits z <= 53.
Proof.
  unfold small, digits. intros Hs Hz. pose proof (Z.log2_nonneg (Z.abs z)).
  assert (Z.log2 (Z.abs z) < 53) by (apply Z.log2_lt_pow2; lia). lia.
Qed.
Lemma digits_scale z k : z ≠ 0 → 0 <= k → digits (z * 2 ^ k) = digits z + k.
Proof.
  intros Hz Hk. unfold digits. rewrite Z.abs_mul, (Z.abs_eq (2 ^ k)) by lia.
  rewrite Z.log2_mul_pow2 by lia. lia.
Qed.
Lemma mantissa_spec z : small z → z ≠ 0 → Z.pos (mantissa z) = Z.abs z * 2 ^ (53 - digits z).
Proof.
  intros Hs Hz. pose proof (small_digits z Hs Hz). unfold mantissa. rewrite Z2Pos.id; [done|].
  apply Z.mul_pos_pos; [lia|]. apply Z.pow_pos_nonneg; lia.
Qed.
Lemma mantissa_digits z : small z → z ≠ 0 → digits (Z.pos (mantissa z)) = 53.
Proof.
  intros Hs Hz. pose proof (small_digits z Hs Hz). rewrite mantissa_spec by done.
  rewrite digits_scale by lia. unfold digits. rewrite Z.abs_idemp. lia.
Qed.

(** ** Rounding is exact on the grid *)

Lemma fexp_normal e : -1074 <= e - 53 → fexp 53 1024 e = e - 53.
Proof. unfold fexp, emin. lia. Qed.
Lemma digits_pos p : Z.pos (digits2_pos p) = digits (Z.pos p).
Proof. by rewrite digits_log2. Qed.

Lemma round_aux_exact s m q e k :
  Z.pos m = Z.pos q * 2 ^ k → 0 <= k → small (Z.pos q) → 53 <= digits (Z.pos q) + k →
  -1074 <= e + digits (Z.pos q) - 53 <= 971 →
  binary_round_aux 53 1024 s (Z.pos m) (e - k) loc_Exact =
    S754_finite s (mantissa (Z.pos q)) (e + digits (Z.pos q) - 53).
Proof.
  intros Hm Hk Hq Hd He. pose proof (small_digits (Z.pos q) Hq ltac:(done)) as Hdq.
  assert (digits (Z.pos m) = digits (Z.pos q) + k) as Hdm by (rewrite Hm; by apply digits_scale).
  pose proof (mantissa_spec (Z.pos q) Hq ltac:(done)) as Hman.
  unfold binary_round_aux.
  assert (shr_fexp 53 1024 (Z.pos m) (e - k) loc_Exact =
    (Build_shr_record (Z.pos (mantissa (Z.pos q))) false false, e + digits (Z.pos q) - 53)) as ->.
  { unfold shr_fexp, shr_record_of_loc, Zdigits2. rewrite digits_pos, Hdm.
    rewrite fexp_normal by lia. replace (digits (Z.pos q) + k + (e - k) - 53 - (e - k)) with (digits (Z.pos q) - 53 + k) by lia.
    destruct (digits (Z.pos q) - 53 + k) as [|n|n] eqn:En; [| |lia].
    - simpl. f_equal; [|lia]. f_equal. rewrite Hman, Hm. f_equal. f_equal. lia.
    - unfold shr. replace (Z.pos m) with (Z.pos (mantissa (Z.pos q)) * 2 ^ Z.pos n).
      + rewrite iter_shr_exact. f_equal. lia.
      + rewrite Hman, Hm, <- Z.mul_assoc, <- Z.pow_add_r by lia. f_equal. f_equal. lia. }
  simpl round_nearest_even. unfold shr_fexp, shr_record_of_loc. simpl shr_m.
  unfold Zdigits2. rewrite digits_pos, mantissa_digits by done.
  rewrite fexp_normal by lia. replace (_ - _ - _)%Z with 0 by lia. simpl.
  rewrite (proj2 (Z.leb_le _ _)) by lia. done.
Qed.

Lemma round_exact s m q e k :
  Z.pos m = Z.pos q * 2 ^ k → 0 <= k → small (Z.pos q) → -1074 <= e + digits (Z.pos q) - 53 <= 971 →
  binary_round 53 1024 s m (e - k) = S754_finite s (mantissa (Z.pos q)) (e + digits (Z.pos q) - 53).
Proof.
  intros Hm Hk Hq He. pose proof (small_digits (Z.pos q) Hq ltac:(done)) as Hdq.
  assert (digits (Z.pos m) = digits (Z.pos q) + k) as Hdm by (rewrite Hm; by apply digits_scale).
  unfold binary_round, shl_align. rewrite digits_pos, Hdm, fexp_normal by lia.
  replace (digits (Z.pos q) + k + (e - k) - 53 - (e - k)) with (digits (Z.pos q) - 53 + k) by lia.
  destruct (digits (Z.pos q) - 53 + k) as [|n|n] eqn:En.
  - by apply round_aux_exact; [| | |lia|].
  - by apply round_aux_exact; [| | |lia|].
  - replace (digits (Z.pos q) + k + (e - k) - 53) with (e - (53 - digits (Z.pos q))) by lia.
    apply round_aux_exact; [|lia|done|lia|done].
    rewrite iter_xO, Hm, <- Z.mul_assoc, <- Z.pow_add_r by lia. f_equal. f_equal. lia.
Qed.

Lemma normalize_exact z e k :
  0 <= k → small z → grid_exponent e → binary_normalize 53 1024 (z * 2 ^ k) (e - k) false = grid e z.
Proof.
  intros Hk Hz He. destruct (decide (z = 0)) as [->|Hz0]; [done|].
  unfold grid_exponent in He. pose proof (small_digits z Hz Hz0) as Hd.
  assert (0 < 2 ^ k) as Hpow by (apply Z.pow_pos_nonneg; lia).
  unfold grid. destruct z as [|q|q]; [done| |].
  - pose proof (Z.mul_pos_pos (Z.pos q) (2 ^ k) ltac:(lia) Hpow) as Hm.
    destruct (Z.pos q * 2 ^ k) as [|m|m] eqn:Em; [done| |done]. simpl binary_normalize.
    rewrite (round_exact false m q) by (done || lia). replace e with (e - 0) at 2 by lia.
    rewrite (round_exact false q q) by (done || lia). done.
  - pose proof (Z.mul_pos_pos (Z.pos q) (2 ^ k) ltac:(lia) Hpow) as Hm.
    assert (Z.neg q * 2 ^ k = - (Z.pos q * 2 ^ k)) as Hneg by (change (Z.neg q) with (- Z.pos q); apply Z.mul_opp_l).
    rewrite <- (Z.opp_involutive (Z.pos q * 2 ^ k)), <- Hneg in Hm.
    destruct (Z.neg q * 2 ^ k) as [|m|m] eqn:Em; [done|done|]. simpl binary_normalize.
    assert (Z.pos m = Z.pos q * 2 ^ k) as Em' by lia. change (small (Z.pos q)) in Hz. change (digits (Z.neg q)) with (digits (Z.pos q)) in Hd.
    rewrite (round_exact true m q) by (done || lia). replace e with (e - 0) at 2 by lia.
    rewrite (round_exact true q q) by (done || lia). done.
Qed.

(** The float of a number of the grid. *)
Lemma grid_form e z :
  small z → z ≠ 0 → grid_exponent e → grid e z = S754_finite (z <? 0) (mantissa z) (e + digits z - 53).
Proof.
  intros Hz Hz0 He. unfold grid_exponent in He. pose proof (small_digits z Hz Hz0) as Hd.
  assert (∀ s q, small (Z.pos q) → -1074 <= e + digits (Z.pos q) - 53 <= 971 →
    binary_round 53 1024 s q e = S754_finite s (mantissa (Z.pos q)) (e + digits (Z.pos q) - 53)) as Hround.
  { intros s q Hq Hd'. replace e with (e - 0) at 1 by lia. rewrite (round_exact _ q q) by (done || lia). done. }
  unfold grid. destruct z as [|q|q]; [done| |]; simpl binary_normalize.
  - apply Hround; [done|lia].
  - apply (Hround true); [done|]. change (digits (Z.pos q)) with (digits (Z.neg q)). lia.
Qed.

(** ** Operations on the grid *)

Lemma small_opp z : small (- z) ↔ small z.
Proof. unfold small. by rewrite Z.abs_opp. Qed.
Lemma mantissa_opp z : mantissa (- z) = mantissa z.
Proof. unfold mantissa, digits. by rewrite Z.abs_opp. Qed.
Lemma digits_opp z : digits (- z) = digits z.
Proof. unfold digits. by rewrite Z.abs_opp. Qed.

Section grid.
Context (e : Z) (He : grid_exponent e).

Lemma grid_opp z : small z → z ≠ 0 → fneg (grid e z) = grid e (- z).
Proof using He.
  intros Hz Hz0. rewrite !grid_form by (done || lia || by apply small_opp). simpl. f_equal.
  - destruct (Z.ltb_spec z 0), (Z.ltb_spec (- z) 0); simpl; (done || lia).
  - symmetry. apply mantissa_opp.
  - by rewrite digits_opp.
Qed.
Lemma grid_abs z : small z → fabs (grid e z) = grid e (Z.abs z).
Proof using He.
  intros Hz. destruct (decide (z = 0)) as [->|Hz0]; [done|].
  rewrite !grid_form; [|unfold small in *; lia|lia|done..]. simpl. f_equal.
  - destruct (Z.ltb_spec (Z.abs z) 0); (done || lia).
  - unfold mantissa, digits. by rewrite Z.abs_idemp.
  - unfold digits. by rewrite Z.abs_idemp.
Qed.

(** Aligned to an exponent below its own, a number keeps its value. *)
Lemma align_value z k :
  small z → z ≠ 0 → 53 - digits z <= k →
  cond_Zopp (z <? 0) (Z.pos (fst (shl_align (mantissa z) (e + digits z - 53) (e - k)))) = z * 2 ^ k.
Proof using He.
  intros Hz Hz0 Hk. pose proof (small_digits z Hz Hz0) as Hd.
  assert (Z.pos (fst (shl_align (mantissa z) (e + digits z - 53) (e - k))) = Z.abs z * 2 ^ k) as Hm.
  { unfold shl_align. replace (e - k - (e + digits z - 53)) with (- (k - (53 - digits z))) by lia.
    assert (Z.abs z * 2 ^ k = Z.pos (mantissa z) * 2 ^ (k - (53 - digits z))) as ->
      by (rewrite mantissa_spec, <- Z.mul_assoc, <- Z.pow_add_r by (done || lia); do 2 f_equal; lia).
    destruct (k - (53 - digits z)) as [|n|n] eqn:En; simpl fst; [| |lia].
    - by rewrite Z.mul_1_r.
    - by rewrite iter_xO. }
  rewrite Hm. unfold cond_Zopp. destruct (Z.ltb_spec z 0); [rewrite Z.abs_neq by lia|rewrite Z.abs_eq by lia]; ring.
Qed.

Lemma grid_add x y : small x → small y → small (x + y) → fadd (grid e x) (grid e y) = grid e (x + y).
Proof using He.
  intros Hx Hy Hxy. destruct (decide (x = 0)) as [->|Hx0].
  { destruct (decide (y = 0)) as [->|Hy0]; [done|]. rewrite (grid_form e y) by done. simpl. by rewrite grid_form. }
  destruct (decide (y = 0)) as [->|Hy0].
  { rewrite Z.add_0_r, (grid_form e x) by done. done. }
  pose proof (small_digits x Hx Hx0). pose proof (small_digits y Hy Hy0).
  rewrite (grid_form e x), (grid_form e y) by done. unfold fadd, SFadd.
  set (k := Z.max (53 - digits x) (53 - digits y)).
  replace (Z.min (e + digits x - 53) (e + digits y - 53)) with (e - k) by lia.
  rewrite !align_value by (done || lia). rewrite <- Z.mul_add_distr_r. apply normalize_exact; [lia|done..].
Qed.
Lemma grid_sub x y : small x → small y → small (x - y) → fsub (grid e x) (grid e y) = grid e (x - y).
Proof using He.
  intros Hx Hy Hxy. destruct (decide (y = 0)) as [->|Hy0].
  { rewrite Z.sub_0_r. destruct (decide (x = 0)) as [->|Hx0]; [done|]. rewrite (grid_form e x) by done. done. }
  destruct (decide (x = 0)) as [->|Hx0].
  { replace (0 - y) with (- y) by lia. rewrite <- grid_opp by done. rewrite (grid_form e y) by done. done. }
  pose proof (small_digits x Hx Hx0). pose proof (small_digits y Hy Hy0).
  rewrite (grid_form e x), (grid_form e y) by done. unfold fsub, SFsub.
  set (k := Z.max (53 - digits x) (53 - digits y)).
  replace (Z.min (e + digits x - 53) (e + digits y - 53)) with (e - k) by lia.
  rewrite !align_value by (done || lia). rewrite <- Z.mul_sub_distr_r. apply normalize_exact; [lia|done..].
Qed.

Lemma grid_add_zero x s : small x → fadd (grid e x) (S754_zero s) = grid e x.
Proof using He.
  intros Hx. destruct (decide (x = 0)) as [->|Hx0]; [by destruct s|]. by rewrite (grid_form e x).
Qed.

Lemma magnitude x y :
  small x → small y → x ≠ 0 → y ≠ 0 →
  match (e + digits x - 53 ?= e + digits y - 53) with
  | Lt => Lt | Gt => Gt | Eq => Pos.compare_cont Eq (mantissa x) (mantissa y)
  end = (Z.abs x ?= Z.abs y).
Proof.
  intros Hx Hy Hx0 Hy0. destruct (Z.compare_spec (e + digits x - 53) (e + digits y - 53)) as [H|H|H].
  - change (Pos.compare_cont Eq (mantissa x) (mantissa y)) with (Z.pos (mantissa x) ?= Z.pos (mantissa y)).
    rewrite !mantissa_spec by done. replace (digits y) with (digits x) by lia.
    pose proof (small_digits x Hx Hx0). assert (0 < 2 ^ (53 - digits x)) by (apply Z.pow_pos_nonneg; lia).
    by rewrite <- Zmult_compare_compat_r by lia.
  - symmetry. apply Z.compare_lt_iff. apply Z.log2_lt_cancel. unfold digits in H. lia.
  - symmetry. apply Z.compare_gt_iff. apply Z.log2_lt_cancel. unfold digits in H. lia.
Qed.
Lemma grid_compare x y : small x → small y → SFcompare (grid e x) (grid e y) = Some (x ?= y).
Proof using He.
  intros Hx Hy. destruct (decide (x = 0)) as [->|Hx0], (decide (y = 0)) as [->|Hy0]; [done|..].
  - rewrite (grid_form e y) by done. by destruct y.
  - rewrite (grid_form e x) by done. by destruct x.
  - pose proof (magnitude x y Hx Hy Hx0 Hy0) as Hmag. rewrite (grid_form e x), (grid_form e y) by done. unfold SFcompare.
    destruct (Z.ltb_spec x 0), (Z.ltb_spec y 0); f_equal.
    + transitivity (CompOpp (Z.abs x ?= Z.abs y)); [|rewrite !Z.abs_neq by lia; rewrite Z.compare_opp; symmetry; apply Z.compare_antisym].
      rewrite <- Hmag. by destruct (_ ?= _).
    + symmetry. apply Z.compare_lt_iff. lia.
    + symmetry. apply Z.compare_gt_iff. lia.
    + rewrite Hmag, !Z.abs_eq by lia. done.
Qed.
Lemma grid_le x y : small x → small y → fle (grid e x) (grid e y) = (x <=? y).
Proof using He. intros. unfold fle, SFleb. rewrite grid_compare by done. unfold Z.leb. by destruct (x ?= y). Qed.
Lemma grid_lt x y : small x → small y → flt (grid e x) (grid e y) = (x <? y).
Proof using He. intros. unfold flt, SFltb. rewrite grid_compare by done. unfold Z.ltb. by destruct (x ?= y). Qed.
Lemma grid_eq x y : small x → small y → feq (grid e x) (grid e y) = (x =? y).
Proof using He. intros. unfold feq, SFeqb. rewrite grid_compare, Z.eqb_compare by done. by destruct (x ?= y). Qed.
Lemma grid_zero z : small z → is_zero (grid e z) = (z =? 0).
Proof using He.
  intros Hz. destruct (decide (z = 0)) as [->|Hz0]; [done|]. rewrite grid_form by done. simpl. symmetry. by apply Z.eqb_neq.
Qed.

(** *** Sums *)

Definition total (l : list Z) : Z := foldr Z.add 0 l.
Definition total_abs (l : list Z) : Z := foldr (λ z s, Z.abs z + s) 0 l.
Lemma total_cons z l : total (z :: l) = z + total l.
Proof. done. Qed.
Lemma total_abs_cons z l : total_abs (z :: l) = Z.abs z + total_abs l.
Proof. done. Qed.
Lemma total_bound l : Z.abs (total l) <= total_abs l.
Proof. induction l as [|z l IH]; [done|]. rewrite total_cons, total_abs_cons. lia. Qed.

(** The compensation of exact additions is 0. *)
Lemma grid_sum_loop l f : Z.abs f + total_abs l < 2 ^ 53 → sum_loop (grid e f) (S754_zero false) (grid e <$> l) = grid e (f + total l).
Proof using He.
  revert f. induction l as [|x l IH]; intros f Hb; [cbn; f_equal; lia|].
  rewrite total_abs_cons in Hb. pose proof (total_bound l). rewrite fmap_cons. cbn [sum_loop].
  assert (small f ∧ small x ∧ small (f + x)) as (Hf & Hx & Hfx) by (unfold small; lia).
  rewrite grid_add by done.
  assert ((if fle (fabs (grid e x)) (fabs (grid e f)) then fadd (fsub (grid e f) (grid e (f + x))) (grid e x)
           else fadd (fsub (grid e x) (grid e (f + x))) (grid e f)) = grid e 0) as ->.
  { assert (small (f - (f + x)) ∧ small (x - (f + x))) as [? ?] by (unfold small; lia).
    rewrite !grid_sub by done. replace (f - (f + x)) with (- x) by lia. replace (x - (f + x)) with (- f) by lia.
    rewrite !grid_add by (unfold small; lia).
    replace (- x + x) with 0 by lia. replace (- f + f) with 0 by lia. by destruct (fle _ _). }
  change (fadd (S754_zero false) (grid e 0)) with (S754_zero false). rewrite IH by lia.
  f_equal. rewrite total_cons. lia.
Qed.
Lemma grid_sum l : total_abs l < 2 ^ 53 → py_sum (grid e <$> l) = grid e (total l).
Proof using He.
  destruct l as [|x l]; intros Hb; [done|]. rewrite total_abs_cons in Hb. pose proof (total_bound l).
  rewrite fmap_cons. cbn [py_sum].
  change (S754_zero false) with (grid e 0) at 1. rewrite grid_add by (unfold small; lia).
  apply grid_sum_loop. lia.
Qed.
End grid.

Lemma grid_mul e f x y :
  grid_exponent e → grid_exponent f → grid_exponent (e + f) → x ≠ 0 → y ≠ 0 → small (x * y) →
  fmul (grid e x) (grid f y) = grid (e + f) (x * y).
Proof.
  intros He Hf Hef Hx0 Hy0 Hxy. assert (small x ∧ small y) as [Hx Hy] by (unfold small in *; nia).
  rewrite (grid_form e x), (grid_form f y), (grid_form (e + f)) by (done || lia).
  pose proof (small_digits x Hx Hx0). pose proof (small_digits y Hy Hy0).
  assert (Z.pos (Z.to_pos (Z.abs (x * y))) = Z.abs (x * y)) as Hq by (apply Z2Pos.id; lia).
  pose proof (Z.log2_mul_below (Z.abs x) (Z.abs y) ltac:(lia) ltac:(lia)) as Hlog. rewrite <- Z.abs_mul in Hlog.
  assert (digits (Z.pos (Z.to_pos (Z.abs (x * y)))) = digits (x * y)) as Hdq by (rewrite Hq; unfold digits; by rewrite Z.abs_idemp).
  assert (small (Z.pos (Z.to_pos (Z.abs (x * y))))) as Hsq by (rewrite Hq; unfold small in *; lia).
  pose proof (small_digits _ Hxy ltac:(lia)) as Hd. unfold digits in *.
  unfold fmul, SFmul. unfold grid_exponent in *.
  replace (e + (Z.log2 (Z.abs x) + 1) - 53 + (f + (Z.log2 (Z.abs y) + 1) - 53))
    with (e + f - (106 - (Z.log2 (Z.abs x) + 1) - (Z.log2 (Z.abs y) + 1))) by lia.
  erewrite (round_aux_exact _ _ (Z.to_pos (Z.abs (x * y)))); unfold digits; rewrite ?Hdq; try done; try lia.
  - f_equal; [destruct (Z.ltb_spec x 0), (Z.ltb_spec y 0), (Z.ltb_spec (x * y) 0); simpl; (done || nia)|].
    unfold mantissa, digits. by rewrite Hq, Z.abs_idemp.
  - rewrite Pos2Z.inj_mul, !mantissa_spec, Hq by done. rewrite Z.abs_mul. unfold digits.
    replace (106 - (Z.log2 (Z.abs x) + 1) - (Z.log2 (Z.abs y) + 1))
      with (53 - (Z.log2 (Z.abs x) + 1) + (53 - (Z.log2 (Z.abs y) + 1))) by lia.
    rewrite Z.pow_add_r by lia. ring.
Qed.
