(* ===== verification/Rounding.v ===== *)
(** * Order and rounding of Python floats

    Every finite float is a multiple of 2 ^ -1074: [val] is that multiple, and the infinities are
    the first power of two that is out of range.  Comparison of floats is comparison of their
    values, and a sum of floats is the value of the exact sum rounded by [rounded], which is
    monotone: so inequalities between times carry over to sums of times.  Nothing here models
    code of the repository. *)
From S2P Require Import Prelude Binary64.
#[local] Open Scope Z_scope.

Definition top : Z := 2 ^ 2098.
Definition val (x : float) : Z :=
  match x with
  | S754_zero _ | S754_nan => 0
  | S754_infinity s => cond_Zopp s top
  | S754_finite s m e => cond_Zopp s (Z.pos m * 2 ^ (e + 1074))
  end.
(** A float that is a number, in the form the operations give. *)
Definition number (x : float) : Prop := valid_binary 53 1024 x = true ∧ x ≠ S754_nan.
Definition nonneg (x : float) : Prop := number x ∧ 0 <= val x.

(** ** Halves to even *)

Definition half_even (n d : Z) : Z :=
  let q := n / 2 ^ d in let r := n mod 2 ^ d in
  if 2 ^ d <? 2 * r then q + 1 else if (2 ^ d =? 2 * r) && negb (Z.even q) then q + 1 else q.

Lemma pow2_pos d : 0 <= d → 0 < 2 ^ d.
Proof. intros. by apply Z.pow_pos_nonneg. Qed.
#[local] Hint Resolve pow2_pos : core.

Lemma half_even_bounds n d : 0 <= d → n / 2 ^ d <= half_even n d <= n / 2 ^ d + 1.
Proof. intros Hd. unfold half_even. cbv zeta. repeat case_match; lia. Qed.
Lemma half_even_0 n : half_even n 0 = n.
Proof. unfold half_even. cbv zeta. rewrite Z.pow_0_r, Z.div_1_r, Z.mod_1_r. done. Qed.
Lemma half_even_mono n n' d : 0 <= d → n <= n' → half_even n d <= half_even n' d.
Proof.
  intros Hd Hn. pose proof (half_even_bounds n d Hd). pose proof (half_even_bounds n' d Hd).
  assert (n / 2 ^ d <= n' / 2 ^ d) as Hq by (apply Z.div_le_mono; auto).
  destruct (decide (n / 2 ^ d < n' / 2 ^ d)); [lia|].
  assert (n / 2 ^ d = n' / 2 ^ d) as E by lia.
  assert (n mod 2 ^ d <= n' mod 2 ^ d) as Hr.
  { pose proof (Z.div_mod n (2 ^ d)) as H1. pose proof (Z.div_mod n' (2 ^ d)) as H2. pose proof (pow2_pos d Hd). rewrite E in H1. lia. }
  unfold half_even. cbv zeta. rewrite E. clear -Hr.
  destruct (Z.ltb_spec (2 ^ d) (2 * (n mod 2 ^ d))), (Z.ltb_spec (2 ^ d) (2 * (n' mod 2 ^ d))); try lia;
    destruct (Z.eqb_spec (2 ^ d) (2 * (n mod 2 ^ d))), (Z.eqb_spec (2 ^ d) (2 * (n' mod 2 ^ d))); try lia;
    simpl; repeat case_match; lia.
Qed.
Lemma half_even_scale n d j : 0 <= d → 0 <= j → half_even (n * 2 ^ j) (d + j) = half_even n d.
Proof.
  intros Hd Hj. pose proof (pow2_pos d Hd). pose proof (pow2_pos j Hj). unfold half_even. cbv zeta.
  rewrite Z.pow_add_r, Z.div_mul_cancel_r, Z.mul_mod_distr_r by lia.
  replace (2 * (n mod 2 ^ d * 2 ^ j)) with (2 * (n mod 2 ^ d) * 2 ^ j) by ring.
  assert ((2 ^ d * 2 ^ j <? 2 * (n mod 2 ^ d) * 2 ^ j) = (2 ^ d <? 2 * (n mod 2 ^ d))) as ->.
  { destruct (Z.ltb_spec (2 ^ d) (2 * (n mod 2 ^ d))); [apply Z.ltb_lt|apply Z.ltb_ge]; nia. }
  assert ((2 ^ d * 2 ^ j =? 2 * (n mod 2 ^ d) * 2 ^ j) = (2 ^ d =? 2 * (n mod 2 ^ d))) as ->; [|done].
  destruct (Z.eqb_spec (2 ^ d) (2 * (n mod 2 ^ d))); [apply Z.eqb_eq|apply Z.eqb_neq]; nia.
Qed.
Lemma half_even_exact n d : 0 <= d → half_even (n * 2 ^ d) d = n.
Proof. intros Hd. rewrite <- (half_even_0 n) at 2. by rewrite <- (half_even_scale n 0 d). Qed.

(** ** Shifts with sticky bits *)

Lemma iter_pos_nat {A} (f : A → A) p x : iter_pos f p x = Nat.iter (Pos.to_nat p) f x.
Proof.
  revert x. induction p as [p IH|p IH|]; intros x; cbn [iter_pos]; rewrite ?IH, <- ?Nat.iter_add; [| |done].
  - rewrite <- Nat.iter_succ_r. f_equal. lia.
  - f_equal. lia.
Qed.

Lemma shr_1_spec m r s : 0 <= m → shr_1 (Build_shr_record m r s) = Build_shr_record (m / 2) (Z.odd m) (r || s).
Proof.
  intros Hm. rewrite <- Z.div2_div. destruct m as [|[p|p|]|]; [done..|lia].
Qed.

(** What is left after [k + 1] shifts. *)
Lemma shr_iter m k : 0 <= m →
  Nat.iter (S k) shr_1 (Build_shr_record m false false) =
    Build_shr_record (m / 2 ^ Z.of_nat (S k)) (Z.odd (m / 2 ^ Z.of_nat k)) (negb (m mod 2 ^ Z.of_nat k =? 0)).
Proof.
  intros Hm. induction k as [|k IH].
  - cbn [Nat.iter]. rewrite shr_1_spec by done. rewrite Z.pow_0_r, Z.div_1_r, Z.mod_1_r. done.
  - change (Nat.iter (S (S k)) shr_1 ?x) with (shr_1 (Nat.iter (S k) shr_1 x)). rewrite IH.
    assert (0 < 2 ^ Z.of_nat k) by (apply pow2_pos; lia).
    rewrite shr_1_spec by (apply Z.div_pos; [done|apply pow2_pos; lia]). f_equal.
    + rewrite Z.div_div by (lia || apply pow2_pos; lia). f_equal. rewrite !Nat2Z.inj_succ, !Z.pow_succ_r by lia. lia.
    + rewrite Nat2Z.inj_succ, Z.pow_succ_r by lia. rewrite (Z.mul_comm 2), Z.rem_mul_r by lia. rewrite Zmod_odd.
      destruct (Z.odd (m / 2 ^ Z.of_nat k)); simpl; pose proof (Z.mod_pos_bound m (2 ^ Z.of_nat k) ltac:(lia)).
      * symmetry. apply negb_true_iff, Z.eqb_neq. lia.
      * f_equal. f_equal. lia.
Qed.

Lemma shr_round m e d : 0 <= m → 0 <= d →
  let '(mrs, e') := shr (Build_shr_record m false false) e d in
  round_nearest_even (shr_m mrs) (loc_of_shr_record mrs) = half_even m d ∧ e' = e + d.
Proof.
  intros Hm Hd. destruct d as [|p|]; [|..|lia]; cbn [shr].
  { rewrite half_even_0. split; [done|lia]. }
  rewrite iter_pos_nat. destruct (Pos2Nat.is_succ p) as [k Hk]. rewrite Hk, shr_iter by done. cbn [shr_m loc_of_shr_record].
  split; [|lia]. assert (Z.pos p = Z.of_nat (S k)) as -> by lia.
  assert (0 < 2 ^ Z.of_nat k) by (apply pow2_pos; lia).
  unfold half_even. cbv zeta. generalize (m / 2 ^ Z.of_nat (S k)) as q. intros q.
  assert (m mod 2 ^ Z.of_nat (S k) = m mod 2 ^ Z.of_nat k + 2 ^ Z.of_nat k * ((m / 2 ^ Z.of_nat k) mod 2)) as ->.
  { rewrite Nat2Z.inj_succ, Z.pow_succ_r, (Z.mul_comm 2), Z.rem_mul_r by lia. done. }
  rewrite Nat2Z.inj_succ, Z.pow_succ_r by lia. rewrite Zmod_odd.
  pose proof (Z.mod_pos_bound m (2 ^ Z.of_nat k) ltac:(lia)).
  destruct (Z.odd (m / 2 ^ Z.of_nat k)), (Z.eqb_spec (m mod 2 ^ Z.of_nat k) 0) as [E|E]; cbn [negb round_nearest_even].
  - rewrite E. rewrite (proj2 (Z.ltb_ge _ _)) by lia. rewrite (proj2 (Z.eqb_eq _ _)) by lia. by destruct (Z.even q).
  - by rewrite (proj2 (Z.ltb_lt _ _)) by lia.
  - rewrite E. rewrite (proj2 (Z.ltb_ge _ _)) by lia. by rewrite (proj2 (Z.eqb_neq _ _)) by lia.
  - rewrite (proj2 (Z.ltb_ge _ _)) by lia. by rewrite (proj2 (Z.eqb_neq _ _)) by lia.
Qed.

(** ** Rounding a positive number *)

(** Rounded to 53 bits, on the grid; overflow gives [top]. *)
Definition round_pos (n : Z) : Z := let d := Z.max (digits n - 53) 0 in Z.min (half_even n d * 2 ^ d) top.
Definition rounded (z : Z) : Z := Z.sgn z * round_pos (Z.abs z).

Lemma digits_bounds n : 0 < n → 1 <= digits n ∧ 2 ^ (digits n - 1) <= n < 2 ^ digits n.
Proof.
  intros Hn. unfold digits. rewrite Z.abs_eq by lia. pose proof (Z.log2_nonneg n). split; [lia|].
  replace (Z.log2 n + 1 - 1) with (Z.log2 n) by lia. pose proof (Z.log2_spec n Hn). by rewrite Z.add_1_r.
Qed.

(** The quotient keeps 53 bits, one more after a carry. *)
Lemma quotient_bounds n d :
  0 < n → d = Z.max (digits n - 53) 0 → 0 <= half_even n d <= 2 ^ 53 ∧ (0 < d → 2 ^ 52 <= half_even n d).
Proof.
  intros Hn Ed. destruct (digits_bounds n Hn) as (Hd1 & Hlo & Hhi). assert (0 <= d) as Hd by lia. pose proof (pow2_pos d Hd) as Hp.
  pose proof (half_even_bounds n d Hd) as [Hq1 Hq2].
  assert (n / 2 ^ d < 2 ^ 53).
  { apply Z.div_lt_upper_bound; [done|]. rewrite <- Z.pow_add_r by lia. eapply Z.lt_le_trans; [exact Hhi|]. apply Z.pow_le_mono_r; lia. }
  assert (0 <= n / 2 ^ d) by (apply Z.div_pos; lia). split; [lia|]. intros Hd0.
  assert (2 ^ 52 <= n / 2 ^ d); [|lia]. apply Z.div_le_lower_bound; [done|]. rewrite <- Z.pow_add_r by lia.
  eapply Z.le_trans; [|exact Hlo]. apply Z.pow_le_mono_r; lia.
Qed.

Lemma round_pos_mono n n' : 0 <= n → n <= n' → round_pos n <= round_pos n'.
Proof.
  intros Hn Hnn. unfold round_pos. cbv zeta. apply Z.min_le_compat_r.
  destruct (decide (n = 0)) as [->|Hn0].
  { change (Z.max (digits 0 - 53) 0) with 0. rewrite half_even_0. simpl.
    apply Z.mul_nonneg_nonneg; [|apply Z.pow_nonneg; lia]. etrans; [|apply half_even_bounds; lia].
    apply Z.div_pos; [lia|]. apply pow2_pos. lia. }
  assert (digits n <= digits n') as Hdig.
  { unfold digits. rewrite !Z.abs_eq by lia. apply Z.add_le_mono_r, Z.log2_le_mono. lia. }
  set (d := Z.max (digits n - 53) 0). set (d' := Z.max (digits n' - 53) 0).
  destruct (quotient_bounds n d ltac:(lia) eq_refl) as [[_ Hq] _]. destruct (quotient_bounds n' d' ltac:(lia) eq_refl) as [_ Hq'].
  destruct (decide (d = d')) as [->|Hne].
  { apply Z.mul_le_mono_nonneg_r; [apply Z.pow_nonneg; lia|]. apply half_even_mono; lia. }
  specialize (Hq' ltac:(lia)). transitivity (2 ^ 53 * 2 ^ d); [apply Z.mul_le_mono_nonneg_r; [apply Z.pow_nonneg; lia|done]|].
  transitivity (2 ^ 52 * 2 ^ d'); [|apply Z.mul_le_mono_nonneg_r; [apply Z.pow_nonneg; lia|done]].
  rewrite <- !Z.pow_add_r by lia. apply Z.pow_le_mono_r; lia.
Qed.
Lemma round_pos_nonneg n : 0 <= n → 0 <= round_pos n.
Proof. intros Hn. etrans; [|apply (round_pos_mono 0 n); lia]. vm_compute. discriminate. Qed.
Lemma rounded_opp z : rounded (- z) = - rounded z.
Proof. unfold rounded. rewrite Z.abs_opp, Z.sgn_opp. lia. Qed.
Lemma rounded_nonneg z : 0 <= z → rounded z = round_pos z.
Proof. intros Hz. unfold rounded. rewrite Z.abs_eq by done. destruct z; [vm_compute; done|simpl Z.sgn; lia|done]. Qed.
Lemma rounded_mono z z' : z <= z' → rounded z <= rounded z'.
Proof.
  intros Hz. destruct (Z.le_gt_cases 0 z) as [H0|H0]; [rewrite !rounded_nonneg by lia; by apply round_pos_mono|].
  destruct (Z.le_gt_cases 0 z') as [H0'|H0'].
  - transitivity 0; [|rewrite rounded_nonneg by lia; by apply round_pos_nonneg].
    rewrite <- (Z.opp_involutive z), rounded_opp, rounded_nonneg by lia. pose proof (round_pos_nonneg (- z)). lia.
  - rewrite <- (Z.opp_involutive z), <- (Z.opp_involutive z'), (rounded_opp (- z)), (rounded_opp (- z')), !rounded_nonneg by lia.
    apply Z.opp_le_mono. rewrite !Z.opp_involutive. apply round_pos_mono; lia.
Qed.
Lemma rounded_top z : top <= z → rounded z = top.
Proof.
  intros Hz. rewrite rounded_nonneg by (unfold top in *; lia). apply Z.le_antisymm; [unfold round_pos; cbv zeta; lia|].
  etrans; [|apply (round_pos_mono top z); [vm_compute; discriminate|done]]. vm_compute. discriminate.
Qed.

(** *** The code's rounding *)

(** What is made of a quotient of at most 53 bits, or 2 ^ 53. *)
Definition finish (s : bool) (q e : Z) : float :=
  let '(mrs, e) := shr_fexp 53 1024 q e loc_Exact in
  match shr_m mrs with
  | Z0 => S754_zero s
  | Zpos m => if e <=? 971 then S754_finite s m e else S754_infinity s
  | _ => S754_nan
  end.

Lemma digits_small q : 0 < q < 2 ^ 53 → 1 <= digits q <= 53.
Proof. intros Hq. apply small_digits; unfold small; lia. Qed.
Lemma digits_le q k : 0 < q → 2 ^ k <= q → 0 <= k → k + 1 <= digits q.
Proof. intros Hq Hk Hk0. unfold digits. rewrite Z.abs_eq by lia. apply Z.log2_le_mono in Hk. rewrite Z.log2_pow2 in Hk by done. lia. Qed.

Lemma fexp_def z : fexp 53 1024 z = Z.max (z - 53) (-1074).
Proof. done. Qed.
Lemma zdigits q : 0 < q → Zdigits2 q = digits q.
Proof. intros Hq. destruct q as [|q|q]; [done|apply digits_pos|done]. Qed.

Lemma finish_spec s q e :
  0 <= q <= 2 ^ 53 → -1074 <= e → (q < 2 ^ 52 → e = -1074) →
  number (finish s q e) ∧ val (finish s q e) = cond_Zopp s (Z.min (q * 2 ^ (e + 1074)) top).
Proof.
  intros Hq He Hsub. assert (0 < top) as Htop by done. destruct (decide (q = 0)) as [->|Hq0].
  { specialize (Hsub ltac:(lia)) as ->. destruct s; (split; [split; [done|discriminate]|reflexivity]). }
  destruct (decide (q = 2 ^ 53)) as [->|Hq53].
  - unfold finish, shr_fexp. change (Zdigits2 (2 ^ 53)) with 54. rewrite fexp_def.
    replace (Z.max (54 + e - 53) (-1074) - e) with 1 by lia. cbn [shr_record_of_loc shr iter_pos].
    change (shr_m (shr_1 (Build_shr_record (2 ^ 53) false false))) with 4503599627370496.
    destruct (Z.leb_spec (e + 1) 971) as [Hle|Hgt]; (split; [split; [|discriminate]|]).
    + cbn [valid_binary]. unfold bounded, canonical_mantissa. change (Z.pos (digits2_pos 4503599627370496)) with 53. rewrite fexp_def.
      apply andb_true_iff. split; [apply Z.eqb_eq|apply Z.leb_le]; lia.
    + cbn [val]. f_equal. change 4503599627370496 with (2 ^ 52). rewrite <- !Z.pow_add_r by lia. rewrite Z.min_l; [f_equal; lia|].
      apply Z.pow_le_mono_r; lia.
    + done.
    + cbn [val]. f_equal. rewrite <- Z.pow_add_r by lia. symmetry. apply Z.min_r, Z.pow_le_mono_r; lia.
  - pose proof (digits_small q ltac:(lia)) as Hdig. assert (Z.max (digits q + e - 53) (-1074) = e) as Hfexp.
    { destruct (decide (q < 2 ^ 52)) as [Hlt|Hge]; [specialize (Hsub Hlt); lia|]. pose proof (digits_le q 52 ltac:(lia) ltac:(lia) ltac:(lia)). lia. }
    unfold finish, shr_fexp. rewrite zdigits, fexp_def, Hfexp, Z.sub_diag by lia. cbn [shr_record_of_loc shr shr_m].
    destruct q as [|p|p]; [done| |lia]. rewrite <- digits_pos in Hfexp.
    destruct (Z.leb_spec e 971) as [Hle|Hgt]; (split; [split; [|discriminate]|]).
    + cbn [valid_binary]. unfold bounded, canonical_mantissa. rewrite fexp_def. apply andb_true_iff. split; [by apply Z.eqb_eq|by apply Z.leb_le].
    + cbn [val]. f_equal. rewrite Z.min_l; [done|]. transitivity (2 ^ 53 * 2 ^ (e + 1074)).
      { apply Z.mul_le_mono_nonneg_r; [apply Z.pow_nonneg; lia|lia]. }
      rewrite <- Z.pow_add_r by lia. apply Z.pow_le_mono_r; lia.
    + done.
    + cbn [val]. f_equal. symmetry. apply Z.min_r. transitivity (2 ^ 52 * 2 ^ (e + 1074)).
      { rewrite <- Z.pow_add_r by lia. apply Z.pow_le_mono_r; lia. }
      apply Z.mul_le_mono_nonneg_r; [apply Z.pow_nonneg; lia|]. destruct (decide (Z.pos p < 2 ^ 52)) as [Hlt|Hge]; [specialize (Hsub Hlt); lia|lia].
Qed.

(** Rounding any positive mantissa whose exponent is not above the one it is rounded to. *)
Lemma round_aux_number s m e :
  let k := Z.max (digits (Z.pos m) + e - 53) (-1074) - e in
  0 <= k →
  number (binary_round_aux 53 1024 s (Z.pos m) e loc_Exact) ∧
  val (binary_round_aux 53 1024 s (Z.pos m) e loc_Exact) =
    cond_Zopp s (Z.min (half_even (Z.pos m) k * 2 ^ (e + k + 1074)) top).
Proof.
  intros k Hk. unfold binary_round_aux. unfold shr_fexp at 1 3. rewrite zdigits, fexp_def by lia. fold k. cbn [shr_record_of_loc].
  pose proof (shr_round (Z.pos m) e k ltac:(lia) Hk) as Hs. destruct (shr _ e k) as [mrs e']. destruct Hs as [-> ->].
  apply finish_spec; [|lia|]; pose proof (half_even_bounds (Z.pos m) k Hk) as [Hq1 Hq2]; pose proof (pow2_pos k Hk);
    destruct (digits_bounds (Z.pos m) ltac:(lia)) as (Hd & Hlo & Hhi).
  - split; [etrans; [|exact Hq1]; apply Z.div_pos; lia|].
    enough (Z.pos m / 2 ^ k < 2 ^ 53) by lia. apply Z.div_lt_upper_bound; [done|]. rewrite <- Z.pow_add_r by lia.
    eapply Z.lt_le_trans; [exact Hhi|]. apply Z.pow_le_mono_r; lia.
  - intros Hq. destruct (decide (k = -1074 - e)) as [|Hne]; [lia|]. exfalso. enough (2 ^ 52 <= Z.pos m / 2 ^ k) by lia.
    apply Z.div_le_lower_bound; [done|]. rewrite <- Z.pow_add_r by lia. etrans; [|exact Hlo]. apply Z.pow_le_mono_r; lia.
Qed.

Lemma round_number s m e :
  -1074 <= e →
  number (binary_round 53 1024 s m e) ∧ val (binary_round 53 1024 s m e) = cond_Zopp s (round_pos (Z.pos m * 2 ^ (e + 1074))).
Proof.
  intros He. unfold binary_round. rewrite digits_pos, fexp_def.
  assert (∃ mz ez, shl_align m e (Z.max (digits (Z.pos m) + e - 53) (-1074)) = (mz, ez) ∧ -1074 <= ez ∧
    Z.pos mz * 2 ^ (ez + 1074) = Z.pos m * 2 ^ (e + 1074) ∧ ez <= Z.max (digits (Z.pos m) + e - 53) (-1074)) as (mz & ez & -> & Hez & Hv & Hle).
  { unfold shl_align. destruct (Z.max (digits (Z.pos m) + e - 53) (-1074) - e) as [|p|p] eqn:Ep.
    - exists m, e. split_and!; [done..|lia].
    - exists m, e. split_and!; [done..|lia].
    - eexists _, _. split; [reflexivity|]. split_and!; [lia| |lia]. rewrite iter_xO, <- Z.mul_assoc, <- Z.pow_add_r by lia. do 2 f_equal. lia. }
  assert (digits (Z.pos m) + e = digits (Z.pos mz) + ez) as Hd.
  { assert (digits (Z.pos m * 2 ^ (e + 1074)) = digits (Z.pos mz * 2 ^ (ez + 1074))) as H by (by rewrite Hv).
    rewrite !digits_scale in H by lia. lia. }
  pose proof (round_aux_number s mz ez) as H. cbv zeta in H. rewrite <- Hd in H. destruct (H ltac:(lia)) as [Hn Hval]. split; [done|]. rewrite Hval. f_equal.
  unfold round_pos. cbv zeta. rewrite <- Hv, digits_scale by lia.
  set (k := Z.max (digits (Z.pos m) + e - 53) (-1074) - ez).
  replace (Z.max (digits (Z.pos mz) + (ez + 1074) - 53) 0) with (k + (ez + 1074)) by lia.
  rewrite half_even_scale by lia. do 3 f_equal. lia.
Qed.

Lemma normalize_number z e s :
  -1074 <= e →
  number (binary_normalize 53 1024 z e s) ∧ val (binary_normalize 53 1024 z e s) = rounded (z * 2 ^ (e + 1074)).
Proof.
  intros He. pose proof (pow2_pos (e + 1074) ltac:(lia)). destruct z as [|p|p]; cbn [binary_normalize].
  - split; [split; [done|discriminate]|]. done.
  - destruct (round_number false p e He) as [Hn Hv]. split; [done|]. rewrite Hv, rounded_nonneg by lia. done.
  - destruct (round_number true p e He) as [Hn Hv]. split; [done|]. rewrite Hv. change (Z.neg p) with (- Z.pos p).
    rewrite Z.mul_opp_l, rounded_opp, rounded_nonneg by lia. done.
Qed.

(** ** Comparison *)

Lemma valid_finite s m e : valid_binary 53 1024 (S754_finite s m e) = true →
  Z.max (digits (Z.pos m) + e - 53) (-1074) = e ∧ e <= 971.
Proof.
  cbn [valid_binary]. unfold bounded, canonical_mantissa. rewrite fexp_def, digits_pos.
  intros [?%Z.eqb_eq ?%Z.leb_le]%andb_true_iff. lia.
Qed.

(** A finite float is what its value rounds to, and is below [top]. *)
Lemma finite_value m e s : valid_binary 53 1024 (S754_finite s m e) = true →
  let n := Z.pos m * 2 ^ (e + 1074) in round_pos n = n ∧ 0 < n < top.
Proof.
  intros [Hc He]%valid_finite n. assert (-1074 <= e) as Hlow by lia. pose proof (pow2_pos (e + 1074) ltac:(lia)).
  assert (0 < n < top) as Hn.
  { split; [unfold n; lia|]. unfold n. destruct (digits_bounds (Z.pos m) ltac:(lia)) as (_ & _ & Hhi).
    assert (Z.pos m < 2 ^ 53) as Hm by (eapply Z.lt_le_trans; [exact Hhi|apply Z.pow_le_mono_r; lia]).
    apply Z.lt_le_trans with (2 ^ 53 * 2 ^ (e + 1074)); [by apply Z.mul_lt_mono_pos_r|].
    rewrite <- Z.pow_add_r by lia. apply Z.pow_le_mono_r; lia. }
  split; [|done]. unfold round_pos. cbv zeta. unfold n. rewrite digits_scale by lia.
  replace (Z.max (digits (Z.pos m) + (e + 1074) - 53) 0) with (e + 1074) by lia. rewrite half_even_exact by lia. lia.
Qed.
Lemma value_rounds x : number x → rounded (val x) = val x.
Proof.
  intros [Hv Hn]. destruct x as [s|s| |s m e]; [done| |done|].
  - destruct s; cbn [val cond_Zopp]; [rewrite rounded_opp|]; by rewrite rounded_top.
  - destruct (finite_value _ _ _ Hv) as [Hr Hb]. destruct s; cbn [val cond_Zopp]; rewrite ?rounded_opp, rounded_nonneg by lia; by rewrite Hr.
Qed.
Lemma value_bound x : number x → - top <= val x <= top.
Proof.
  intros [Hv Hn]. assert (0 < top) by done. destruct x as [s|s| |s m e]; [cbn [val]; lia|destruct s; cbn [val cond_Zopp]; lia|done|].
  destruct (finite_value _ _ _ Hv) as [_ Hb]. destruct s; cbn [val cond_Zopp]; lia.
Qed.

Lemma compare_magnitude m m' e e' s s' :
  valid_binary 53 1024 (S754_finite s m e) = true → valid_binary 53 1024 (S754_finite s' m' e') = true →
  match e ?= e' with Lt => Lt | Gt => Gt | Eq => Pos.compare_cont Eq m m' end = (Z.pos m * 2 ^ (e + 1074) ?= Z.pos m' * 2 ^ (e' + 1074)).
Proof.
  assert (∀ m m' e e', Z.max (digits (Z.pos m) + e - 53) (-1074) = e → Z.max (digits (Z.pos m') + e' - 53) (-1074) = e' →
    e < e' → Z.pos m * 2 ^ (e + 1074) < Z.pos m' * 2 ^ (e' + 1074)) as Hlt.
  { clear. intros m m' e e' Hc Hc' Hlt. destruct (digits_bounds (Z.pos m) ltac:(lia)) as (_ & _ & Hhi).
    destruct (digits_bounds (Z.pos m') ltac:(lia)) as (_ & Hlo & _).
    apply Z.lt_le_trans with (2 ^ 53 * 2 ^ (e + 1074)).
    - apply Z.mul_lt_mono_pos_r; [apply pow2_pos; lia|]. eapply Z.lt_le_trans; [exact Hhi|]. apply Z.pow_le_mono_r; lia.
    - transitivity (2 ^ 52 * 2 ^ (e' + 1074)); [rewrite <- !Z.pow_add_r by lia; apply Z.pow_le_mono_r; lia|].
      apply Z.mul_le_mono_nonneg_r; [apply Z.pow_nonneg; lia|]. etrans; [|exact Hlo]. apply Z.pow_le_mono_r; lia. }
  intros [Hc _]%valid_finite [Hc' _]%valid_finite. destruct (Z.compare_spec e e') as [<-|H|H].
  - change (Pos.compare_cont Eq m m') with (Z.pos m ?= Z.pos m'). apply Zmult_compare_compat_r, Z.lt_gt, pow2_pos. lia.
  - symmetry. apply Z.compare_lt_iff. by apply Hlt.
  - symmetry. apply Z.compare_gt_iff. by apply Hlt.
Qed.

Lemma compare_value x y : number x → number y → SFcompare x y = Some (val x ?= val y).
Proof.
  intros [Hx Hxn] [Hy Hyn]. assert (0 < top) as Htop by done.
  destruct x as [s|s| |s m e]; [| |done|]; destruct y as [s'|s'| |s' m' e']; try done; cbn [SFcompare val]; f_equal.
  - by destruct s'.
  - pose proof (finite_value _ _ _ Hy) as [_ H]. destruct s'; cbn [cond_Zopp]; symmetry; [apply Z.compare_gt_iff|apply Z.compare_lt_iff]; lia.
  - by destruct s.
  - by destruct s, s'.
  - pose proof (finite_value _ _ _ Hy) as [_ H]. destruct s, s'; cbn [cond_Zopp]; symmetry; (apply (proj2 (Z.compare_gt_iff _ _)) || apply (proj2 (Z.compare_lt_iff _ _))); lia.
  - pose proof (finite_value _ _ _ Hx) as [_ H]. destruct s; cbn [cond_Zopp]; symmetry; [apply Z.compare_lt_iff|apply Z.compare_gt_iff]; lia.
  - pose proof (finite_value _ _ _ Hx) as [_ H]. destruct s, s'; cbn [cond_Zopp]; symmetry; (apply (proj2 (Z.compare_gt_iff _ _)) || apply (proj2 (Z.compare_lt_iff _ _))); lia.
  - pose proof (finite_value _ _ _ Hx) as [_ Hm]. pose proof (finite_value _ _ _ Hy) as [_ Hm'].
    pose proof (compare_magnitude _ _ _ _ _ _ Hx Hy) as Hc. destruct s, s'; cbn [cond_Zopp].
    + rewrite Z.compare_opp, (Z.compare_antisym (Z.pos m * 2 ^ (e + 1074))), <- Hc. by destruct (e ?= e').
    + symmetry. apply Z.compare_lt_iff. lia.
    + symmetry. apply Z.compare_gt_iff. lia.
    + done.
Qed.
Lemma fle_value x y : number x → number y → fle x y = (val x <=? val y).
Proof. intros Hx Hy. unfold fle, SFleb. rewrite compare_value by done. unfold Z.leb. by destruct (_ ?= _). Qed.
Lemma flt_value x y : number x → number y → flt x y = (val x <? val y).
Proof. intros Hx Hy. unfold flt, SFltb. rewrite compare_value by done. unfold Z.ltb. by destruct (_ ?= _). Qed.

(** ** Sums, differences, products *)

Lemma align_number m e e' :
  e' <= e → Z.pos (fst (shl_align m e e')) * 2 ^ (e' + 1074) = Z.pos m * 2 ^ (e' + 1074) * 2 ^ (e - e').
Proof.
  intros He. unfold shl_align. destruct (e' - e) as [|p|p] eqn:Ep; cbn [fst]; [|lia|].
  - replace (e - e') with 0 by lia. lia.
  - rewrite iter_xO. replace (e - e') with (Z.pos p) by lia. ring.
Qed.
Lemma aligned_value s m e e' :
  -1074 <= e' → e' <= e → cond_Zopp s (Z.pos (fst (shl_align m e e'))) * 2 ^ (e' + 1074) = val (S754_finite s m e).
Proof.
  intros Hlow He. pose proof (align_number m e e' He) as H.
  replace (Z.pos m * 2 ^ (e' + 1074) * 2 ^ (e - e')) with (Z.pos m * 2 ^ (e + 1074)) in H
    by (rewrite <- Z.mul_assoc, <- Z.pow_add_r by lia; do 2 f_equal; lia).
  cbn [val]. destruct s; cbn [cond_Zopp]; rewrite <- ?Z.mul_opp_l in *; lia.
Qed.

Lemma finite_low s m e : valid_binary 53 1024 (S754_finite s m e) = true → -1074 <= e.
Proof. intros [? ?]%valid_finite. lia. Qed.

Definition infinite (x : float) : bool := match x with S754_infinity _ => true | _ => false end.

(** A sum of finite numbers is the exact sum, rounded. *)
Lemma fadd_finite x y :
  number x → number y → infinite x = false → infinite y = false →
  number (fadd x y) ∧ val (fadd x y) = rounded (val x + val y).
Proof.
  intros [Hx Hxn] [Hy Hyn] Hix Hiy. destruct x as [s|s| |s m e]; try done; destruct y as [s'|s'| |s' m' e']; try done.
  - split; [by destruct s, s'|]. by destruct s, s'.
  - split; [done|]. cbn [val]. rewrite Z.add_0_l. symmetry. by apply (value_rounds (S754_finite s' m' e')).
  - split; [done|]. cbn [val]. rewrite Z.add_0_r. symmetry. by apply (value_rounds (S754_finite s m e)).
  - pose proof (finite_low _ _ _ Hx). pose proof (finite_low _ _ _ Hy). unfold fadd, SFadd. cbv zeta.
    destruct (normalize_number (cond_Zopp s (Z.pos (fst (shl_align m e (Z.min e e')))) + cond_Zopp s' (Z.pos (fst (shl_align m' e' (Z.min e e')))))
      (Z.min e e') false ltac:(lia)) as [Hn Hv]. split; [done|]. rewrite Hv, Z.mul_add_distr_r, !aligned_value by lia. done.
Qed.

Lemma fsub_fadd x y : fsub x y = fadd x (fneg y).
Proof.
  destruct x as [s|s| |s m e], y as [s'|s'| |s' m' e']; try done; try (by destruct s, s').
Qed.
Lemma fneg_number y : number y → number (fneg y) ∧ val (fneg y) = - val y ∧ infinite (fneg y) = infinite y.
Proof.
  intros [Hv Hn]. destruct y as [s|s| |s m e]; [| |done|]; (split; [by split|]); (split; [|done]);
    destruct s; unfold fneg; cbn [val SFopp negb cond_Zopp]; lia.
Qed.

(** On numbers that are not negative, addition is total and monotone. *)
Lemma fadd_nonneg x y : nonneg x → nonneg y → nonneg (fadd x y) ∧ val (fadd x y) = rounded (val x + val y).
Proof.
  intros [Hx Hx0] [Hy Hy0]. pose proof Hx as [Hvx Hnx]. pose proof Hy as [Hvy Hny].
  assert (0 < top) as Htop by done.
  destruct (infinite x) eqn:Hix; [|destruct (infinite y) eqn:Hiy].
  - destruct x as [s|[]| |s m e]; try done; try (cbn [val cond_Zopp] in Hx0; lia).
    assert (fadd (S754_infinity false) y = S754_infinity false) as ->
      by (destruct y as [?|[]| |]; try done; cbn [val cond_Zopp] in Hy0; lia).
    split; [done|]. cbn [val cond_Zopp]. rewrite rounded_top; lia.
  - destruct y as [s|[]| |s m e]; try done; try (cbn [val cond_Zopp] in Hy0; lia).
    assert (fadd x (S754_infinity false) = S754_infinity false) as -> by (destruct x as [?|[]| |]; done).
    split; [done|]. cbn [val cond_Zopp]. rewrite rounded_top; lia.
  - destruct (fadd_finite x y Hx Hy Hix Hiy) as [Hn Hv]. split; [|done]. split; [done|]. rewrite Hv.
    rewrite rounded_nonneg by lia. apply round_pos_nonneg. lia.
Qed.
Lemma fadd_mono x x' y y' :
  nonneg x → nonneg x' → nonneg y → nonneg y' → val x <= val x' → val y <= val y' → val (fadd x y) <= val (fadd x' y').
Proof.
  intros Hx Hx' Hy Hy' Hxx Hyy. destruct (fadd_nonneg x y) as [_ ->]; [done..|]. destruct (fadd_nonneg x' y') as [_ ->]; [done..|].
  apply rounded_mono. lia.
Qed.
Lemma fadd_above x y : nonneg x → nonneg y → val x <= val (fadd x y).
Proof.
  intros Hx Hy. destruct (fadd_nonneg x y) as [_ ->]; [done..|]. destruct Hx as [Hx Hx0], Hy as [Hy Hy0].
  rewrite <- (value_rounds x) at 1 by done. apply rounded_mono. lia.
Qed.
(** Subtracting what is not negative gives no more. *)
Lemma fsub_below x y :
  number x → infinite x = false → nonneg y → number (fsub x y) ∧ val (fsub x y) <= val x.
Proof.
  intros Hx Hix [Hy Hy0]. rewrite fsub_fadd. destruct (fneg_number y Hy) as (Hn & Hv & Hi).
  destruct (infinite y) eqn:Hiy.
  - destruct y as [s|[]| |s m e]; try done; try (cbn [val cond_Zopp] in Hy0; assert (0 < top) by done; lia).
    assert (fadd x (fneg (S754_infinity false)) = S754_infinity true) as -> by (by destruct Hx, x).
    split; [by split|]. pose proof (value_bound x Hx). cbn [val cond_Zopp]. lia.
  - destruct (fadd_finite x (fneg y) Hx Hn Hix Hi) as [Hna ->]. split; [done|]. rewrite Hv.
    rewrite <- (value_rounds x) at 2 by done. apply rounded_mono. lia.
Qed.
Lemma fsub_nonneg x y :
  nonneg x → nonneg y → infinite x = false → val y <= val x → nonneg (fsub x y).
Proof.
  intros [Hx Hx0] [Hy Hy0] Hix Hle. rewrite fsub_fadd. destruct (fneg_number y Hy) as (Hn & Hv & Hi).
  assert (infinite y = false) as Hiy.
  { assert (0 < top) as Htop by done. destruct y as [s|s| |s m e]; [done| |done..].
    destruct s; cbn [val cond_Zopp] in Hy0, Hle; [lia|]. destruct x as [s|s| |s m e]; [cbn [val] in Hle; lia|done|by destruct Hx|].
    destruct Hx as [Hvx _]. destruct (finite_value _ _ _ Hvx) as [_ H]. destruct s; cbn [val cond_Zopp] in *; lia. }
  rewrite Hiy in Hi. destruct (fadd_finite x (fneg y) Hx Hn Hix Hi) as [Hna Hva]. split; [done|]. rewrite Hva, Hv, rounded_nonneg by lia.
  apply round_pos_nonneg. lia.
Qed.

(** A number of 53 bits on a grid is not rounded. *)
Lemma round_pos_multiple n k : 0 <= k → 0 <= n < 2 ^ (53 + k) → (2 ^ k | n) → n < top → round_pos n = n.
Proof.
  intros Hk Hn [q ->] Htop. pose proof (pow2_pos k Hk). unfold round_pos. cbv zeta.
  destruct (decide (q = 0)) as [-> |Hq]; [done|]. assert (0 < q) as Hq0 by nia. clear Hq.
  destruct (digits_bounds (q * 2 ^ k) ltac:(nia)) as (Hd1 & Hlo & _).
  assert (digits (q * 2 ^ k) <= 53 + k) as Hd by (apply Z.lt_pred_le, (Z.pow_lt_mono_r_iff 2); lia).
  set (d := Z.max (digits (q * 2 ^ k) - 53) 0). replace (q * 2 ^ k) with (q * 2 ^ (k - d) * 2 ^ d)
    by (rewrite <- Z.mul_assoc, <- Z.pow_add_r by lia; do 2 f_equal; lia).
  rewrite half_even_exact by lia. replace (q * 2 ^ (k - d) * 2 ^ d) with (q * 2 ^ k)
    by (rewrite <- Z.mul_assoc, <- Z.pow_add_r by lia; do 2 f_equal; lia). lia.
Qed.
(** The difference of two numbers is exact when the greater is at most twice the other. *)
Lemma fsub_exact x y :
  nonneg x → nonneg y → infinite x = false → val y <= val x <= 2 * val y → number (fsub x y) ∧ val (fsub x y) = val x - val y.
Proof.
  intros [Hx Hx0] [Hy Hy0] Hix [Hle Htwo]. rewrite fsub_fadd. destruct (fneg_number y Hy) as (Hn & Hv & Hi).
  pose proof Hx as [Hvx Hnx]. pose proof Hy as [Hvy Hny]. assert (0 < top) as Htop by done.
  assert (infinite y = false) as Hiy.
  { destruct y as [s|s| |s m e]; [done| |done..]. destruct s; cbn [val cond_Zopp] in Hy0, Hle; [lia|].
    destruct x as [s|s| |s m e]; [cbn [val] in Hle; lia|done|done|]. destruct (finite_value _ _ _ Hvx) as [_ H]. destruct s; cbn [val cond_Zopp] in *; lia. }
  rewrite Hiy in Hi. destruct (fadd_finite x (fneg y) Hx Hn Hix Hi) as [Hna Hva]. split; [done|]. rewrite Hva, Hv, Z.add_opp_r, rounded_nonneg by lia.
  destruct y as [s|s| |s m e]; [|done|done|].
  - cbn [val] in *. by replace (val x - 0) with 0 by lia.
  - destruct (finite_value _ _ _ Hvy) as [_ Hby]. destruct s; [cbn [val cond_Zopp] in Hy0; lia|].
    destruct x as [s|s| |s m' e']; [cbn [val cond_Zopp] in *; lia|done|done|]. destruct (finite_value _ _ _ Hvx) as [_ Hbx].
    destruct s; [cbn [val cond_Zopp] in *; lia|]. cbn [val cond_Zopp] in *.
    pose proof (finite_low _ _ _ Hvx) as Hl'. pose proof (finite_low _ _ _ Hvy) as Hl.
    assert (e <= e') as He.
    { destruct (Z.le_gt_cases e e') as [|Hgt]; [done|]. pose proof (compare_magnitude m' m e' e false false Hvx Hvy) as Hc.
      rewrite (proj2 (Z.compare_lt_iff _ _) Hgt) in Hc. symmetry in Hc. apply (proj1 (Z.compare_lt_iff _ _)) in Hc. lia. }
    apply valid_finite in Hvy as [Hc _]. destruct (digits_bounds (Z.pos m) ltac:(lia)) as (_ & _ & Hhi).
    assert (Z.pos m < 2 ^ 53) as Hm by (eapply Z.lt_le_trans; [exact Hhi|apply Z.pow_le_mono_r; lia]).
    pose proof (pow2_pos (e + 1074) ltac:(lia)) as Hp.
    apply (round_pos_multiple _ (e + 1074)); [lia| |apply Z.divide_sub_r; apply Z.divide_mul_r|lia].
    + rewrite (Z.pow_add_r 2 53 (e + 1074)) by lia. split; [lia|]. apply Z.le_lt_trans with (Z.pos m * 2 ^ (e + 1074)); [lia|by apply Z.mul_lt_mono_pos_r].
    + exists (2 ^ (e' - e)). rewrite <- Z.pow_add_r by lia. f_equal. lia.
    + apply Z.divide_refl.
Qed.

(** Products of numbers that are positive and finite, or 0, are not negative. *)
Lemma fmul_nonneg x y : nonneg x → nonneg y → infinite x = false → infinite y = false → nonneg (fmul x y).
Proof.
  intros [[Hx Hxn] Hx0] [[Hy Hyn] Hy0] Hix Hiy.
  destruct x as [s|s| |s m e]; try done; destruct y as [s'|s'| |s' m' e']; try done.
  pose proof (finite_value _ _ _ Hx) as [_ Hbx]. pose proof (finite_value _ _ _ Hy) as [_ Hby].
  destruct s; [cbn [val cond_Zopp] in Hx0; lia|]. destruct s'; [cbn [val cond_Zopp] in Hy0; lia|].
  unfold fmul, SFmul. cbn [xorb]. apply valid_finite in Hx as [Hx _]. apply valid_finite in Hy as [Hy _].
  destruct (digits_bounds (Z.pos m) ltac:(lia)) as (Hd & Hlo & _). destruct (digits_bounds (Z.pos m') ltac:(lia)) as (Hd' & Hlo' & _).
  assert (digits (Z.pos m) + digits (Z.pos m') - 1 <= digits (Z.pos (m * m'))) as Hdm.
  { transitivity (digits (Z.pos m) - 1 + (digits (Z.pos m') - 1) + 1); [lia|]. apply digits_le; [lia| |lia].
    rewrite Z.pow_add_r, Pos2Z.inj_mul by lia. apply Z.mul_le_mono_nonneg; try (apply Z.pow_nonneg; lia); done. }
  pose proof (round_aux_number false (m * m') (e + e')) as H. cbv zeta in H. destruct (H ltac:(lia)) as [Hn Hv].
  split; [done|]. rewrite Hv. cbn [cond_Zopp]. apply Z.min_glb; [|done]. apply Z.mul_nonneg_nonneg; [|apply Z.pow_nonneg; lia].
  etrans; [|apply half_even_bounds; lia]. apply Z.div_pos; [lia|]. apply pow2_pos. lia.
Qed.

(** ** [max] and [min] *)

(** Python's [max] of two keeps the first unless the second is greater. *)
Definition fmax (a b : float) : float := if flt a b then b else a.
Definition fmin (a b : float) : float := if flt b a then b else a.
Lemma fmax_number a b : number a → number b → number (fmax a b) ∧ val (fmax a b) = Z.max (val a) (val b).
Proof. intros Ha Hb. unfold fmax. rewrite flt_value by done. destruct (Z.ltb_spec (val a) (val b)); (split; [done|lia]). Qed.
Lemma fmin_number a b : number a → number b → number (fmin a b) ∧ val (fmin a b) = Z.min (val a) (val b).
Proof. intros Ha Hb. unfold fmin. rewrite flt_value by done. destruct (Z.ltb_spec (val b) (val a)); (split; [done|lia]). Qed.
