(* ===== verification/RateLimiter.v ===== *)
(** * Pacing of requests: [infra/sec_http/rate_limit.py]

    Every thread that sends a request to the SEC reserves a slot from one limiter.  Its methods
    run under a lock, so an execution is a sequence of method calls, whatever threads make them;
    each reads the monotonic clock under the lock.  Times are Python floats, and the theorems are
    about the very floats the code computes. *)
From S2P Require Import Prelude Binary64 Rounding.
#[local] Open Scope Z_scope.

(** ** The limiter *)

Definition DEFAULT_MIN_INTERVAL_S : float := SFdiv 53 1024 (float_of_Z 1) (float_of_Z 8).
Definition MAX_INTERVAL_S : float := float_of_Z 60.
Definition THROTTLE_MULTIPLIER : float := grid (-1) 3.
Definition RECOVERY_QUIET_S : float := float_of_Z 30.
(** 0.10 *)
Definition RECOVERY_DECAY : float := S754_finite false 7205759403792794 (-56).
Definition RETRY_AFTER_CAP_S : float := float_of_Z 120.

Record RateLimiter := mkLimiter {
  _min_interval : float;
  _max_interval : float;
  _interval : float;
  _next_slot : float;
  _cool_until : float;
  _last_throttle : float;
}.

Definition new_limiter (now min_interval_s max_interval_s : float) : result RateLimiter :=
  _ ← raise_if (fle min_interval_s (float_of_Z 0)) (ValueError "min_interval_s must be positive");
  Ok (mkLimiter min_interval_s max_interval_s min_interval_s now (float_of_Z 0) (float_of_Z 0)).

(** The interval after the recovery step of [acquire]. *)
Definition recovered (now : float) (l : RateLimiter) : float :=
  if flt (_min_interval l) (_interval l) && flt RECOVERY_QUIET_S (fsub now (_last_throttle l))
  then fmax (_min_interval l) (fsub (_interval l) (fmul (fsub (_interval l) (_min_interval l)) RECOVERY_DECAY))
  else _interval l.
(** [wake], the slot that is reserved. *)
Definition slot (now : float) (l : RateLimiter) : float := fmax (fmax (_next_slot l) now) (_cool_until l).
Definition acquire (now : float) (l : RateLimiter) : RateLimiter * float :=
  let interval := recovered now l in
  let wake := slot now l in
  (mkLimiter (_min_interval l) (_max_interval l) interval (fadd wake interval) (_cool_until l) (_last_throttle l),
   fmax (float_of_Z 0) (fsub wake now)).

Definition throttle_delay (retry_after_s : option float) (l : RateLimiter) : float :=
  match retry_after_s with
  | Some r => fmin (fmin (fmax r (_interval l)) (_max_interval l)) RETRY_AFTER_CAP_S
  | None => fmin (fmul (_interval l) THROTTLE_MULTIPLIER) (_max_interval l)
  end.
Definition signal_throttle (now : float) (retry_after_s : option float) (l : RateLimiter) : RateLimiter * float :=
  let delay := throttle_delay retry_after_s l in
  (mkLimiter (_min_interval l) (_max_interval l) (fmax (_interval l) delay) (_next_slot l) (fadd now delay) now, delay).
Definition signal_network_error (l : RateLimiter) : RateLimiter := l.

(** ** Executions *)

Inductive call := Acquire | Throttle (retry_after_s : option float) | NetworkError.
(** A call at a time, the limiter after it and the slot it reserves. *)
Definition call_at (l : RateLimiter) (c : float * call) : RateLimiter * list float :=
  match c.2 with
  | Acquire => ((acquire c.1 l).1, [slot c.1 l])
  | Throttle r => ((signal_throttle c.1 r l).1, [])
  | NetworkError => (signal_network_error l, [])
  end.
(** The limiter and the slots reserved after a sequence of calls. *)
Fixpoint run (l : RateLimiter) (calls : list (float * call)) : RateLimiter * list float :=
  match calls with
  | [] => (l, [])
  | c :: calls => let '(l, slots) := call_at l c in let '(l, later) := run l calls in (l, slots ++ later)
  end.

(** The clock gives numbers that do not decrease; a Retry-After is a number. *)
Definition good_call (c : float * call) : Prop :=
  nonneg c.1 ∧ match c.2 with Throttle (Some r) => number r | _ => True end.
Fixpoint clock_from (t : float) (calls : list (float * call)) : Prop :=
  match calls with [] => True | c :: calls => val t <= val c.1 ∧ good_call c ∧ clock_from c.1 calls end.

(** ** The invariant *)

Record limiter_ok (l : RateLimiter) : Prop := {
  ok_min : nonneg (_min_interval l);
  ok_max : nonneg (_max_interval l);
  ok_interval : nonneg (_interval l);
  ok_next : nonneg (_next_slot l);
  ok_cool : nonneg (_cool_until l);
  ok_positive : 0 < val (_min_interval l);
  ok_finite : infinite (_min_interval l) = false ∧ infinite (_max_interval l) = false;
  ok_low : val (_min_interval l) <= val (_interval l);
  ok_high : val (_interval l) <= Z.max (val (_min_interval l)) (val (_max_interval l));
}.

Lemma finite_below x : number x → infinite x = false → val x < top.
Proof.
  intros [Hv Hn] Hi. assert (0 < top) by done. destruct x as [s|s| |s m e]; [cbn [val]; lia|done|done|].
  destruct (finite_value _ _ _ Hv) as [_ H']. destruct s; cbn [val cond_Zopp]; lia.
Qed.
Lemma below_finite x : nonneg x → val x < top → infinite x = false.
Proof. intros [[Hv Hn] H0] Hlt. destruct x as [s|[]| |s m e]; try done; cbn [val cond_Zopp] in *; lia. Qed.

Lemma literal_nonneg : nonneg RECOVERY_DECAY ∧ nonneg (float_of_Z 0) ∧ nonneg RETRY_AFTER_CAP_S ∧ nonneg THROTTLE_MULTIPLIER.
Proof. repeat split; done. Qed.
Lemma value_0 : val (float_of_Z 0) = 0.
Proof. done. Qed.

Lemma fmax_nonneg a b : nonneg a → number b → nonneg (fmax a b) ∧ val (fmax a b) = Z.max (val a) (val b).
Proof. intros [Ha H0] Hb. destruct (fmax_number a b Ha Hb) as [Hn Hv]. split; [|done]. split; [done|lia]. Qed.
Lemma fmin_nonneg a b : nonneg a → nonneg b → nonneg (fmin a b) ∧ val (fmin a b) = Z.min (val a) (val b).
Proof. intros [Ha H0] [Hb H0']. destruct (fmin_number a b Ha Hb) as [Hn Hv]. split; [|done]. split; [done|lia]. Qed.

Section ok.
Context (l : RateLimiter) (Hok : limiter_ok l).

Lemma interval_finite : infinite (_interval l) = false.
Proof using Hok.
  destruct Hok. destruct ok_finite0. apply below_finite; [done|].
  pose proof (finite_below _ (proj1 ok_min0) ltac:(done)). pose proof (finite_below _ (proj1 ok_max0) ltac:(done)). lia.
Qed.

Lemma recovered_ok now :
  nonneg (recovered now l) ∧ val (_min_interval l) <= val (recovered now l) <= val (_interval l).
Proof using Hok.
  pose proof interval_finite as Hfin. destruct Hok. unfold recovered. destruct (_ && _); [|split; [done|lia]].
  pose proof (fsub_nonneg _ _ ok_interval0 ok_min0 Hfin ok_low0) as Hgap.
  assert (infinite (fsub (_interval l) (_min_interval l)) = false) as Hgf.
  { apply below_finite; [done|]. eapply Z.le_lt_trans; [apply (fsub_below _ _ (proj1 ok_interval0) Hfin ok_min0)|].
    by apply finite_below; [apply ok_interval0|]. }
  pose proof (fmul_nonneg _ _ Hgap (proj1 literal_nonneg) Hgf eq_refl) as Hstep.
  destruct (fsub_below (_interval l) _ (proj1 ok_interval0) Hfin Hstep) as [Hn Hle].
  destruct (fmax_nonneg (_min_interval l) _ ok_min0 Hn) as [Hm Hv]. split; [done|]. lia.
Qed.

Lemma slot_ok now : nonneg now →
  nonneg (slot now l) ∧ val (slot now l) = Z.max (Z.max (val (_next_slot l)) (val now)) (val (_cool_until l)).
Proof using Hok.
  intros Hnow. destruct Hok. destruct (fmax_nonneg _ _ ok_next0 (proj1 Hnow)) as [H1 Hv1].
  destruct (fmax_nonneg _ _ H1 (proj1 ok_cool0)) as [H2 Hv2]. unfold slot. split; [done|lia].
Qed.
End ok.

(** Half as much again is not less. *)
Lemma multiplier_above x : nonneg x → infinite x = false → val x <= val (fmul x THROTTLE_MULTIPLIER).
Proof.
  intros [[Hv Hn] H0] Hi. destruct x as [s|s| |s m e]; try done.
  pose proof (finite_value _ _ _ Hv) as [_ Hb]. destruct s; [cbn [val cond_Zopp] in H0; lia|].
  change THROTTLE_MULTIPLIER with (S754_finite false 6755399441055744 (-52)). unfold fmul, SFmul. cbn [xorb].
  pose proof (valid_finite _ _ _ Hv) as [Hc He]. destruct (digits_bounds (Z.pos m) ltac:(lia)) as (Hd & Hlo & Hhi).
  set (M := (m * 6755399441055744)%positive). assert (Z.pos M = Z.pos m * (3 * 2 ^ 51)) as HM by (unfold M; lia).
  assert (2 ^ (digits (Z.pos m) + 51) <= Z.pos M < 2 ^ (digits (Z.pos m) + 53)) as [HM1 HM2].
  { rewrite HM. replace (digits (Z.pos m) + 51) with (digits (Z.pos m) - 1 + 52) by lia. rewrite !Z.pow_add_r by lia. lia. }
  assert (digits (Z.pos m) + 52 <= digits (Z.pos M) <= digits (Z.pos m) + 53) as [Hd1 Hd2].
  { split; [apply digits_le in HM1; lia|]. unfold digits at 1. rewrite Z.abs_eq by lia.
    enough (Z.log2 (Z.pos M) < digits (Z.pos m) + 53) by lia. apply Z.log2_lt_pow2; lia. }
  pose proof (round_aux_number false M (e + -52)) as H. cbv zeta in H. destruct (H ltac:(lia)) as [_ ->]. clear H.
  set (k := Z.max (digits (Z.pos M) + (e + -52) - 53) (-1074) - (e + -52)). cbn [val cond_Zopp].
  apply Z.min_glb; [|lia]. assert (0 <= k) as Hk by lia.
  destruct (decide (k <= 52)) as [Hk52|Hk52].
  - transitivity (half_even (Z.pos m * 2 ^ (52 - k) * 2 ^ k) k * 2 ^ (e + -52 + k + 1074)).
    + rewrite half_even_exact by done. rewrite <- Z.mul_assoc, <- Z.pow_add_r by lia.
      apply Z.eq_le_incl. do 2 f_equal. lia.
    + apply Z.mul_le_mono_nonneg_r; [apply Z.pow_nonneg; lia|]. apply half_even_mono; [done|].
      rewrite <- Z.mul_assoc, <- Z.pow_add_r by lia. replace (52 - k + k) with 52 by lia. lia.
  - assert (53 <= digits (Z.pos m)) by lia. assert (k = 53) as -> by lia. replace (e + -52 + 53 + 1074) with (e + 1074 + 1) by lia.
    rewrite (Z.pow_add_r 2 (e + 1074) 1) by lia. pose proof (half_even_bounds (Z.pos M) 53 ltac:(lia)) as [Hq _].
    assert (Z.pos M / 2 ^ 53 = (Z.pos m * 3) / 4) as Hdiv.
    { rewrite HM. replace (Z.pos m * (3 * 2 ^ 51)) with (Z.pos m * 3 * 2 ^ 51) by ring. change (2 ^ 53) with (4 * 2 ^ 51).
      rewrite Z.div_mul_cancel_r; lia. }
    assert (4 <= Z.pos m) by (etrans; [|exact Hlo]; etrans; [|apply (Z.pow_le_mono_r 2 2); lia]; done).
    assert (Z.pos m <= 2 * half_even (Z.pos M) 53) as Hm.
    { pose proof (Z.div_mod (Z.pos m * 3) 4 ltac:(lia)). pose proof (Z.mod_pos_bound (Z.pos m * 3) 4 ltac:(lia)). lia. }
    change (2 ^ 1) with 2. pose proof (Z.pow_nonneg 2 (e + 1074) ltac:(lia)). nia.
Qed.

Section throttle.
Context (l : RateLimiter) (Hok : limiter_ok l) (ra : option float) (Hra : match ra with Some r => number r | None => True end).

(** Delays are between the interval, as far as the maximum lets, and the maximum. *)
Lemma throttle_delay_ok :
  nonneg (throttle_delay ra l) ∧ val (throttle_delay ra l) <= val (_max_interval l) ∧
  (val (_max_interval l) <= val RETRY_AFTER_CAP_S → Z.min (val (_interval l)) (val (_max_interval l)) <= val (throttle_delay ra l)).
Proof using Hok Hra.
  pose proof (interval_finite l Hok) as Hfin. destruct Hok. destruct literal_nonneg as (_ & _ & Hcap & Hmul).
  destruct ra as [r|]; cbn [throttle_delay].
  - destruct (fmax_number r _ Hra (proj1 ok_interval0)) as [H1 Hv1].
    assert (nonneg (fmax r (_interval l))) as H1' by (split; [done|destruct ok_interval0; lia]).
    destruct (fmin_nonneg _ _ H1' ok_max0) as [H2 Hv2]. destruct (fmin_nonneg _ _ H2 Hcap) as [H3 Hv3].
    split; [done|]. destruct Hcap. destruct ok_max0. lia.
  - pose proof (fmul_nonneg _ _ ok_interval0 Hmul Hfin eq_refl) as H1. pose proof (multiplier_above _ ok_interval0 Hfin).
    destruct (fmin_nonneg _ _ H1 ok_max0) as [H2 Hv2]. split; [done|]. lia.
Qed.
End throttle.

Lemma call_at_ok l c : limiter_ok l → good_call c → limiter_ok (call_at l c).1.
Proof.
  intros Hok [Ht Hra]. pose proof Hok as []. destruct c as [now [|ra|]]; cbn [call_at fst snd] in *; [| |done].
  - destruct (recovered_ok l Hok now) as [Hr Hb]. destruct (slot_ok l Hok now Ht) as [Hs _].
    constructor; cbn; try done; [|lia..]. by apply fadd_nonneg.
  - destruct (throttle_delay_ok l Hok ra Hra) as (Hd & Hmax & _). destruct (fmax_nonneg _ _ ok_interval0 (proj1 Hd)) as [Hm Hv].
    constructor; cbn; try done; [|lia..]. by apply fadd_nonneg.
Qed.

Lemma new_limiter_ok now lo hi l :
  nonneg now → number lo → number hi → infinite lo = false → infinite hi = false → 0 <= val hi →
  new_limiter now lo hi = Ok l → limiter_ok l.
Proof.
  intros Hnow Hlo Hhi Hf1 Hf2 Hh. unfold new_limiter, raise_if. rewrite fle_value by done. rewrite value_0.
  destruct (Z.leb_spec (val lo) 0); [done|]. intros [= <-]. constructor; cbn; try done; [..|lia]; split; done || lia.
Qed.

(** However the calls of threads interleave, the interval between requests is never below the
    minimum the limiter was made with, and never above the greater of the minimum and the
    maximum: throttling and recovery stay within these bounds. *)
Theorem interval_bounded l calls t :
  limiter_ok l → clock_from t calls →
  let l' := (run l calls).1 in
  fle (_min_interval l) (_interval l') = true ∧
  fle (_interval l') (fmax (_min_interval l) (_max_interval l)) = true.
Proof.
  intros Hok Hc. cbv zeta.
  assert (limiter_ok (run l calls).1 ∧ _min_interval (run l calls).1 = _min_interval l ∧ _max_interval (run l calls).1 = _max_interval l)
    as (Hok' & Emin & Emax).
  { revert l t Hok Hc. induction calls as [|c calls IH]; intros l t Hok Hc; [done|]. destruct Hc as (_ & Hg & Hc).
    cbn [run]. pose proof (call_at_ok l c Hok Hg) as Hok1. assert (_min_interval (call_at l c).1 = _min_interval l ∧ _max_interval (call_at l c).1 = _max_interval l)
      as [E1 E2] by (by destruct c as [? []]).
    destruct (call_at l c) as [l1 slots]. specialize (IH l1 c.1 Hok1 Hc). destruct (run l1 calls) as [l2 later]. cbn [fst] in *. by rewrite <- E1, <- E2. }
  destruct Hok'. rewrite Emin, Emax in *. destruct (fmax_number _ _ (proj1 ok_min0) (proj1 ok_max0)) as [Hm Hv].
  rewrite !fle_value by (apply ok_min0 || apply ok_interval0 || done). rewrite Hv. split; apply Z.leb_le; lia.
Qed.

(** ** Spacing of slots *)

(** [n] minimal intervals after a time. *)
Definition after_intervals (lo : float) (n : nat) (t : float) : float := Nat.iter n (λ t, fadd t lo) t.

Lemma after_intervals_nonneg lo n t : nonneg lo → nonneg t → nonneg (after_intervals lo n t).
Proof. intros Hlo Ht. induction n as [|n IH]; [done|]. by apply fadd_nonneg. Qed.
Lemma after_intervals_mono lo n t t' :
  nonneg lo → nonneg t → nonneg t' → val t <= val t' → val (after_intervals lo n t) <= val (after_intervals lo n t').
Proof.
  intros Hlo Ht Ht' Hle. induction n as [|n IH]; [done|]. apply fadd_mono; (done || by apply after_intervals_nonneg || lia).
Qed.
Lemma after_intervals_S lo n t : after_intervals lo (S n) t = after_intervals lo n (fadd t lo).
Proof. unfold after_intervals. by rewrite Nat.iter_succ_r. Qed.

Lemma call_at_min l c : _min_interval (call_at l c).1 = _min_interval l.
Proof. by destruct c as [now []]. Qed.

Lemma acquire_next l now : limiter_ok l → nonneg now →
  nonneg (_next_slot (acquire now l).1) ∧ val (fadd (slot now l) (_min_interval l)) <= val (_next_slot (acquire now l).1).
Proof.
  intros Hok Hnow. destruct (recovered_ok l Hok now) as [Hr Hb]. destruct (slot_ok l Hok now Hnow) as [Hs _]. destruct Hok. cbn.
  split; [by apply fadd_nonneg|]. apply fadd_mono; done || lia.
Qed.

Lemma slots_after_next l calls t n b :
  limiter_ok l → clock_from t calls → (run l calls).2 !! n = Some b →
  nonneg b ∧ val (after_intervals (_min_interval l) n (_next_slot l)) <= val b.
Proof.
  revert l t n. induction calls as [|[now c] calls IH]; intros l t n Hok Hc Hn; [done|]. destruct Hc as (_ & [Hnow Hra] & Hc). cbn [fst] in *.
  pose proof (call_at_ok l (now, c) Hok (conj Hnow Hra)) as Hok1. pose proof (call_at_min l (now, c)) as Emin.
  cbn [run] in Hn. destruct c as [|ra|].
  - destruct (acquire_next l now Hok Hnow) as [Hnn Hnext]. destruct (slot_ok l Hok now Hnow) as [Hs Hsv]. cbn [call_at fst snd] in *.
    specialize (IH (acquire now l).1 now). destruct (run _ calls) as [l2 later]. cbn [snd app] in *. destruct Hok.
    destruct n as [|n]; [injection Hn as <-; split; [done|cbn; lia]|].
    destruct (IH n Hok1 Hc Hn) as [Hb Hv]. split; [done|]. rewrite Emin in Hv. etrans; [|exact Hv]. rewrite after_intervals_S.
    apply after_intervals_mono; [done|by apply fadd_nonneg|done|]. etrans; [|exact Hnext].
    apply fadd_mono; done || lia.
  - specialize (IH (signal_throttle now ra l).1 now). cbn [call_at fst snd] in *. destruct (run _ calls) as [l2 later].
    apply (IH n Hok1 Hc Hn).
  - specialize (IH l now). cbn [call_at fst snd] in *. destruct (run _ calls) as [l2 later]. apply (IH n Hok1 Hc Hn).
Qed.

Lemma run_slots_split l calls t n a :
  limiter_ok l → clock_from t calls → (run l calls).2 !! n = Some a →
  ∃ l1 now rest, limiter_ok l1 ∧ _min_interval l1 = _min_interval l ∧ nonneg now ∧ clock_from now rest ∧ a = slot now l1 ∧
    drop (S n) (run l calls).2 = (run (acquire now l1).1 rest).2.
Proof.
  revert l t n. induction calls as [|[now c] calls IH]; intros l t n Hok Hc Hn; [done|]. destruct Hc as (_ & [Hnow Hra] & Hc). cbn [fst] in *.
  pose proof (call_at_ok l (now, c) Hok (conj Hnow Hra)) as Hok1. pose proof (call_at_min l (now, c)) as Emin.
  cbn [run] in *. destruct c as [|ra|]; cbn [call_at fst snd] in *.
  - specialize (IH (acquire now l).1 now). destruct (run (acquire now l).1 calls) as [l2 later] eqn:Erun. cbn [snd app] in *.
    destruct n as [|n]; [injection Hn as <-; exists l, now, calls; by rewrite Erun|].
    destruct (IH n Hok1 Hc Hn) as (l' & now' & rest & ? & ? & ?). exists l', now', rest. cbn [drop]. by rewrite <- Emin.
  - specialize (IH (signal_throttle now ra l).1 now). destruct (run (signal_throttle now ra l).1 calls) as [l2 later]. cbn [snd app] in *.
    destruct (IH n Hok1 Hc Hn) as (l' & now' & rest & ? & ? & ?). exists l', now', rest. by rewrite <- Emin.
  - specialize (IH l now). cbn [signal_network_error] in *. destruct (run (signal_network_error l) calls) as [l2 later] eqn:Erun.
    change (signal_network_error l) with l in Erun. rewrite Erun in IH. cbn [snd app] in *. apply (IH n Hok1 Hc Hn).
Qed.

(** C26: However the calls of threads interleave, the slots they reserve are spaced: the slot reserved
    [n] reservations after another is at least [n] minimal intervals later, in the floats the code
    computes. *)
Theorem slots_are_spaced l calls t i n a b :
  limiter_ok l → clock_from t calls →
  (run l calls).2 !! i = Some a → (run l calls).2 !! (i + n)%nat = Some b →
  fle (after_intervals (_min_interval l) n a) b = true.
Proof.
  intros Hok Hc Ha Hb. destruct (run_slots_split l calls t i a Hok Hc Ha) as (l1 & now & rest & Hok1 & Emin & Hnow & Hrest & -> & Hdrop).
  destruct (slot_ok l1 Hok1 now Hnow) as [Hs _]. pose proof Hok as []. destruct n as [|n].
  { rewrite Nat.add_0_r, Ha in Hb. injection Hb as <-. cbn. rewrite fle_value by apply Hs. apply Z.leb_refl. }
  rewrite <- Nat.add_succ_comm, <- lookup_drop, Hdrop in Hb.
  pose proof (call_at_ok l1 (now, Acquire) Hok1 (conj Hnow I)) as Hok2. cbn [call_at fst snd] in Hok2.
  destruct (slots_after_next _ _ _ _ _ Hok2 Hrest Hb) as [Hbn Hv]. destruct (acquire_next l1 now Hok1 Hnow) as [Hnn Hnext].
  change (_min_interval (acquire now l1).1) with (_min_interval l1) in Hv. rewrite Emin in *.
  rewrite fle_value; [|by apply after_intervals_nonneg|apply Hbn]. apply Z.leb_le. etrans; [|exact Hv]. rewrite after_intervals_S.
  apply after_intervals_mono; [done|by apply fadd_nonneg|done|done].
Qed.

(** ** Cooling down *)

(** No slot before [T] will be reserved: it is too early for the next slot, or for the time to
    cool until, which no later throttle of a delay [d] can bring forward. *)
Definition cooling (T d : float) (t : float) (l : RateLimiter) : Prop :=
  val T <= val (_next_slot l) ∨ val T <= val (_cool_until l) ∧ val d <= val (_interval l) ∧ val T <= val (fadd t d).

Lemma cooling_step T d t l c :
  limiter_ok l → good_call c → nonneg t → nonneg d → val t <= val c.1 →
  val d <= val (_max_interval l) → val (_max_interval l) <= val RETRY_AFTER_CAP_S →
  cooling T d t l → cooling T d t (call_at l c).1 ∧ ∀ s, s ∈ (call_at l c).2 → val T <= val s.
Proof.
  intros Hok [Hnow Hra] Ht Hd Htc Hdm Hcap Hcool. destruct c as [now [|ra|]]; cbn [call_at fst snd] in *.
  - destruct (slot_ok l Hok now Hnow) as [Hs Hv]. destruct (acquire_next l now Hok Hnow) as [Hnn Hnext].
    assert (val T <= val (slot now l)) as HT by (destruct Hcool as [?|[? _]]; lia).
    split; [|by intros s ->%list_elem_of_singleton]. left. etrans; [exact HT|]. etrans; [|exact Hnext].
    apply fadd_above; [done|apply Hok].
  - split; [|intros s Hs; inversion Hs]. destruct (throttle_delay_ok l Hok ra Hra) as (Hdl & Hmax & Hmin). specialize (Hmin Hcap).
    destruct (fmax_nonneg (_interval l) _ (ok_interval _ Hok) (proj1 Hdl)) as [_ Hmv].
    destruct Hcool as [Hn|(Hc & Hi & HT)]; [left; done|right]. cbn.
    split; [|split; [lia|done]]. etrans; [exact HT|]. apply fadd_mono; [done..|]. lia.
  - split; [done|intros s Hs; inversion Hs].
Qed.

(** C27: After a throttle response at [now] is signalled, with the delay [d] it gives (its
    Retry-After, at least the current interval and at most the maximal one, or else the
    backed-off interval), no slot before [now + d] is reserved any more, whatever acquires,
    throttles and recoveries follow in clock order, as long as no Retry-After among them is a
    nan (see [nan_ends_cooling]): later signals do not cut the cooling down short.  The
    limiter's maximal interval is at most the cap on Retry-After, as the default of 60 s is. *)
Theorem throttle_is_honoured l calls t now ra b :
  limiter_ok l → val (_max_interval l) <= val RETRY_AFTER_CAP_S →
  clock_from t ((now, Throttle ra) :: calls) →
  let '(l', d) := signal_throttle now ra l in
  b ∈ (run l' calls).2 → fle (fadd now d) b = true.
Proof.
  intros Hok Hcap (_ & [Hnow Hra] & Hc). cbn [fst snd] in *. unfold signal_throttle. cbv zeta. set (d := throttle_delay ra l).
  destruct (throttle_delay_ok l Hok ra Hra) as (Hd & Hmax & _). fold d in Hd, Hmax.
  pose proof (call_at_ok l (now, Throttle ra) Hok (conj Hnow Hra)) as Hok1. cbn [call_at fst snd signal_throttle] in Hok1. fold d in Hok1.
  set (l' := mkLimiter _ _ _ _ _ _) in *. destruct (fmax_nonneg (_interval l) _ (ok_interval _ Hok) (proj1 Hd)) as [_ Hmv].
  assert (cooling (fadd now d) d now l') as Hcool by (right; cbn; split; [lia|split; [lia|done]]).
  assert (val (_max_interval l') <= val RETRY_AFTER_CAP_S ∧ val d <= val (_max_interval l')) as [Hcap' Hmax'] by done.
  assert (nonneg (fadd now d)) as HT by by apply fadd_nonneg.
  assert (val now <= val now) as Hle by lia. clearbody l' d. clear l Hok Hcap Hmax Hmv Hra. revert Hc Hok1 Hcool Hcap' Hmax' Hle.
  generalize now at 1 5. revert l'. induction calls as [|c calls IH]; intros l' t' Hc Hok' Hcool Hcap Hmax Hle Hb; [inversion Hb|].
  destruct Hc as (Htc & Hg & Hc). destruct (cooling_step _ d now l' c Hok' Hg Hnow Hd ltac:(lia) Hmax Hcap Hcool) as [Hcool' Hs].
  pose proof (call_at_ok l' c Hok' Hg) as Hok2. cbn [run] in Hb.
  assert (_max_interval (call_at l' c).1 = _max_interval l') as Emax by (by destruct c as [? []]).
  assert (∀ s, s ∈ (call_at l' c).2 → nonneg s) as Hsn.
  { destruct c as [u []]; cbn; intros s Hin; [|inversion Hin..]. apply list_elem_of_singleton in Hin as ->. apply (slot_ok l' Hok' u), Hg. }
  destruct (call_at l' c) as [l1 slots]. cbn [fst snd] in *. specialize (IH l1 c.1 Hc Hok2 Hcool'). rewrite Emax in IH. specialize (IH Hcap Hmax ltac:(lia)).
  destruct (run l1 calls) as [l2 later]. cbn [snd] in *. apply elem_of_app in Hb as [Hb|Hb]; [|by apply IH].
  rewrite fle_value; [apply Z.leb_le; by apply Hs|apply HT|by apply Hsn].
Qed.

(** ** Examples *)

Definition demo_limiter : RateLimiter := mkLimiter (grid (-3) 1) MAX_INTERVAL_S (grid (-3) 1) (float_of_Z 5) (float_of_Z 0) (float_of_Z 0).
Definition seconds (z : Z) : float := float_of_Z z.
Definition demo_calls : list (float * call) :=
  [(seconds 5, Acquire); (seconds 5, Acquire); (seconds 6, Throttle (Some (seconds 2))); (seconds 6, Acquire); (seconds 40, Acquire)].

Lemma number_dec x : valid_binary 53 1024 x && negb (bool_decide (x = S754_nan)) = true → number x.
Proof. intros [? ?%negb_true_iff%bool_decide_eq_false]%andb_true_iff. done. Qed.
Lemma nonneg_dec x : valid_binary 53 1024 x && negb (bool_decide (x = S754_nan)) && (0 <=? val x) = true → nonneg x.
Proof. intros [?%number_dec ?%Z.leb_le]%andb_true_iff. done. Qed.
Ltac float_facts := lazymatch goal with
  | |- nonneg _ => apply nonneg_dec; vm_compute; reflexivity
  | |- number _ => apply number_dec; vm_compute; reflexivity
  | |- (_ <= _)%Z => apply Z.leb_le; vm_compute; reflexivity
  | |- (_ < _)%Z => apply Z.ltb_lt; vm_compute; reflexivity
  | |- _ = _ => vm_compute; reflexivity
  | |- True => exact I
  end.

Example demo_made : new_limiter (seconds 5) DEFAULT_MIN_INTERVAL_S MAX_INTERVAL_S = Ok demo_limiter.
Proof. vm_compute. reflexivity. Qed.
Lemma demo_limiter_ok : limiter_ok demo_limiter.
Proof. constructor; try float_facts. split; reflexivity. Qed.
Lemma demo_clock : clock_from (seconds 5) demo_calls.
Proof. repeat match goal with |- _ ∧ _ => split | |- clock_from _ _ => cbn [clock_from demo_calls] | |- good_call _ => unfold good_call; cbn [fst snd] end; float_facts. Qed.
Lemma demo_slots : (run demo_limiter demo_calls).2 = [seconds 5; grid (-3) 41; seconds 8; seconds 40].
Proof. vm_compute. reflexivity. Qed.

Lemma interval_bounded_witness :
  fle (grid (-3) 1) (_interval (run demo_limiter demo_calls).1) = true ∧
  fle (_interval (run demo_limiter demo_calls).1) (seconds 60) = true.
Proof. exact (interval_bounded demo_limiter demo_calls (seconds 5) demo_limiter_ok demo_clock). Defined.
Lemma slots_are_spaced_witness : fle (after_intervals (grid (-3) 1) 2 (seconds 5)) (seconds 8) = true.
Proof.
  apply (slots_are_spaced demo_limiter demo_calls (seconds 5) 0 2 (seconds 5) (seconds 8) demo_limiter_ok demo_clock);
    rewrite demo_slots; reflexivity.
Defined.
Definition throttled : list (float * call) := [(seconds 7, Throttle None); (seconds 7, Acquire)].
Lemma throttled_clock : clock_from (seconds 5) ((seconds 6, Throttle (Some (seconds 2))) :: throttled).
Proof. repeat match goal with |- _ ∧ _ => split | |- clock_from _ _ => cbn [clock_from throttled] | |- good_call _ => unfold good_call; cbn [fst snd] end; float_facts. Qed.
Lemma throttled_slots : (run (signal_throttle (seconds 6) (Some (seconds 2)) demo_limiter).1 throttled).2 = [seconds 10].
Proof. vm_compute. reflexivity. Qed.
Lemma throttle_is_honoured_witness : fle (fadd (seconds 6) (seconds 2)) (seconds 10) = true.
Proof.
  apply (throttle_is_honoured demo_limiter throttled (seconds 5) (seconds 6) (Some (seconds 2)) (seconds 10) demo_limiter_ok
    ltac:(float_facts) throttled_clock).
  change (mkLimiter _ _ _ _ _ _) with (signal_throttle (seconds 6) (Some (seconds 2)) demo_limiter).1.
  rewrite throttled_slots. left.
Defined.

(** A limiter made with the default maximum never waits for more than 60 seconds, half of the cap
    the module declares for a Retry-After. *)
Lemma cap_out_of_reach : throttle_delay (Some (seconds 100)) demo_limiter = seconds 60.
Proof. vm_compute. reflexivity. Qed.
(** A Retry-After that is not a number, which [float] reads from the header of a streamed response,
    makes the limiter forget that it is cooling down. *)
Lemma nan_ends_cooling :
  let calls ra := [(seconds 10, Throttle (Some (seconds 60))); (seconds 11, Throttle ra); (seconds 12, Acquire)] in
  (run demo_limiter (calls None)).2 = [seconds 71] ∧ (run demo_limiter (calls (Some S754_nan))).2 = [seconds 12].
Proof. vm_compute. split; reflexivity. Qed.
