(* ===== verification/Closures.v ===== *)
(** * Searching a graph of names

    The loop with a stack of nodes to visit and a set of visited nodes, as the XBRL engine
    writes it over dictionaries of sets.  Sets are iterated in an order the code does not
    choose, [order_of].  The stack is kept with its top, the end of the code's list, first. *)
From stdpp Require Import relations.
From S2P Require Import Prelude.

(** What [.get(node, set())] gives. *)
Definition successors (g : gmap string (gset string)) (node : string) : gset string := default ∅ (g !! node).
(** [.setdefault(parent, set()).add(child)] *)
Definition add_arc (g : gmap string (gset string)) (arc : string * string) : gmap string (gset string) :=
  <[arc.1 := {[arc.2]} ∪ successors g arc.1]> g.
Definition arcs_from (arcs : list (string * string)) (node : string) : list string :=
  snd <$> filter (λ arc, arc.1 = node) arcs.

Lemma arcs_from_cons arc arcs node :
  arcs_from (arc :: arcs) node = if decide (arc.1 = node) then arc.2 :: arcs_from arcs node else arcs_from arcs node.
Proof. unfold arcs_from. rewrite filter_cons. by case_decide. Qed.
Lemma elem_of_arcs_from arcs x y : y ∈ arcs_from arcs x ↔ (x, y) ∈ arcs.
Proof.
  unfold arcs_from. rewrite list_elem_of_fmap. split.
  - intros ([a b] & -> & [Ha Hin]%list_elem_of_filter). simpl in *. by subst.
  - intros Hin. exists (x, y). split; [done|]. by apply list_elem_of_filter.
Qed.

Lemma successors_add g arc node :
  successors (add_arc g arc) node = if decide (arc.1 = node) then {[arc.2]} ∪ successors g node else successors g node.
Proof.
  unfold add_arc. unfold successors at 1. case_decide as E.
  - subst. by rewrite lookup_insert_eq.
  - by rewrite lookup_insert_ne.
Qed.
Lemma successors_arcs arcs g node :
  successors (foldl add_arc g arcs) node = list_to_set (arcs_from arcs node) ∪ successors g node.
Proof.
  revert g. induction arcs as [|arc arcs IH]; intros g; [set_solver|]. simpl. rewrite IH, successors_add, arcs_from_cons.
  case_decide; set_solver.
Qed.
Lemma successors_foldl arcs node : successors (foldl add_arc ∅ arcs) node = list_to_set (arcs_from arcs node).
Proof. rewrite successors_arcs. unfold successors. rewrite lookup_empty. set_solver. Qed.

(** The pairs of a dict of sets. *)
Definition pairs_in (g : gmap string (gset string)) : list (string * string) :=
  map_to_list g ≫= λ entry, (entry.1,.) <$> elements entry.2.
Lemma elem_of_pairs_in g x y : (x, y) ∈ pairs_in g ↔ y ∈ successors g x.
Proof.
  unfold pairs_in, successors. rewrite list_elem_of_bind. split.
  - intros ([k X] & (z & [= -> ->] & Hz)%list_elem_of_fmap & Hk%elem_of_map_to_list). simpl in *.
    rewrite Hk. by apply elem_of_elements.
  - destruct (g !! x) as [X|] eqn:E; [|set_solver]. intros Hy. exists (x, X).
    split; [|by apply elem_of_map_to_list]. apply list_elem_of_fmap. exists y. split; [done|]. by apply elem_of_elements.
Qed.
Lemma successors_pairs g node : successors g node = list_to_set (arcs_from (pairs_in g) node).
Proof. apply set_eq. intros y. rewrite elem_of_list_to_set, elem_of_arcs_from. symmetry. apply elem_of_pairs_in. Qed.

Lemma tc_first {A} (R : relation A) x y : tc R x y ↔ ∃ z, R x z ∧ rtc R z y.
Proof.
  split.
  - intros H. inversion H as [|? z ? Hxz Hzy]; subst; [eauto using rtc_refl|]. exists z. split; [done|]. by apply tc_rtc.
  - intros (z & Hxz & Hzy). by eapply tc_rtc_r; [apply tc_once|].
Qed.

Lemma tc_last {A} (R : relation A) x y : tc R x y ↔ ∃ z, rtc R x z ∧ R z y.
Proof.
  split.
  - induction 1 as [x y|x y z Hxy _ (w & Hyw & Hwz)]; [eauto using rtc_refl|]. exists w. split; [by eapply rtc_l|done].
  - intros (z & Hxz & Hzy). by eapply tc_rtc_l; [|apply tc_once].
Qed.

Section search.
Context (order_of : gset string → list string).
Context (succ : string → gset string).

(** Nodes are expanded once; expanding one for which [stop] holds ends the search.  [None]:
    out of fuel; [Some None]: stopped. *)
Fixpoint search (stop : string → bool) (fuel : nat) (visited : gset string) (stack : list string) :
    option (option (gset string)) :=
  match stack with
  | [] => Some (Some visited)
  | node :: stack =>
      match fuel with
      | O => None
      | S fuel =>
          if decide (node ∈ visited) then search stop fuel visited stack
          else if stop node then Some None
          else search stop fuel ({[node]} ∪ visited) (reverse (order_of (succ node)) ++ stack)
      end
  end.

Context (order_of_elements : ∀ X, order_of X ≡ₚ elements X).
Context (arcs : list (string * string)) (Hsucc : ∀ node, succ node = list_to_set (arcs_from arcs node)).

Definition edge (x y : string) : Prop := (x, y) ∈ arcs.

Lemma elem_of_succ x y : y ∈ succ x ↔ edge x y.
Proof using Hsucc. rewrite Hsucc, elem_of_list_to_set. apply elem_of_arcs_from. Qed.
Lemma elem_of_drawn X x : x ∈ order_of X ↔ x ∈ X.
Proof using order_of_elements. by rewrite order_of_elements, elem_of_elements. Qed.

(** Each expansion pushes no more nodes than it takes arcs out of account. *)
Definition pending (visited : gset string) : nat := length (filter (λ arc, arc.1 ∉ visited) arcs).
Lemma pending_expand visited node :
  node ∉ visited → length (order_of (succ node)) + pending ({[node]} ∪ visited) ≤ pending visited.
Proof using order_of_elements Hsucc.
  intros Hnode. unfold pending.
  assert (length (order_of (succ node)) ≤ length (filter (λ arc : string * string, arc.1 = node) arcs)) as Hlen.
  { rewrite order_of_elements, Hsucc. replace (length (filter _ arcs)) with (length (arcs_from arcs node)) by apply length_fmap.
    apply submseteq_length, NoDup_submseteq; [apply NoDup_elements|]. set_solver. }
  assert (length (filter (λ arc : string * string, arc.1 = node) arcs)
          + length (filter (λ arc : string * string, arc.1 ∉ {[node]} ∪ visited) arcs)
          = length (filter (λ arc : string * string, arc.1 ∉ visited) arcs)) as <-; [|lia].
  rewrite <- length_app, <- filter_split by set_solver. f_equal. apply filter_ext_in. intros [x y] _. simpl.
  destruct (decide (x = node)); set_solver.
Qed.

Lemma order_of_succ_length node : length (order_of (succ node)) ≤ length arcs.
Proof using order_of_elements Hsucc.
  pose proof (pending_expand ∅ node ltac:(set_solver)). assert (pending ∅ ≤ length arcs) by apply length_filter. lia.
Qed.

Definition reached (s0 : list string) (y : string) : Prop := ∃ x, x ∈ s0 ∧ rtc edge x y.

Lemma search_done (stop : string → bool) s0 (visited : gset string) :
  (∀ y, y ∈ visited ∨ y ∈ ([] : list string) → reached s0 y) → (∀ x, x ∈ s0 → x ∈ visited ∨ x ∈ ([] : list string)) →
  (∀ x, x ∈ visited → stop x = false ∧ ∀ y, edge x y → y ∈ visited ∨ y ∈ ([] : list string)) →
  ∀ y, (y ∈ visited → stop y = false) ∧ (y ∈ visited ↔ reached s0 y).
Proof.
  intros Hin Hstart Hclosed y. split; [by intros [? _]%Hclosed|]. split; [intros Hy; apply Hin; by left|].
  intros (x & Hx & Hxy). assert (x ∈ visited) as Hv by (destruct (Hstart x Hx) as [|H]; [done|inversion H]).
  clear Hx. induction Hxy as [|x y z Hxy _ IH]; [done|]. apply IH. destruct (Hclosed x Hv) as [_ Hy].
  destruct (Hy y Hxy) as [|H]; [done|inversion H].
Qed.

Lemma search_inv (stop : string → bool) s0 fuel (visited : gset string) (stack : list string) :
  length stack + pending visited ≤ fuel →
  (∀ y, y ∈ visited ∨ y ∈ stack → reached s0 y) →
  (∀ x, x ∈ s0 → x ∈ visited ∨ x ∈ stack) →
  (∀ x, x ∈ visited → stop x = false ∧ ∀ y, edge x y → y ∈ visited ∨ y ∈ stack) →
  match search stop fuel visited stack with
  | None => False
  | Some None => ∃ y, reached s0 y ∧ stop y = true
  | Some (Some all) => ∀ y, (y ∈ all → stop y = false) ∧ (y ∈ all ↔ reached s0 y)
  end.
Proof using order_of_elements Hsucc.
  revert visited stack. induction fuel as [|fuel IH]; intros visited [|node stack] Hfuel Hin Hstart Hclosed;
    try (simpl in Hfuel; lia); simpl.
  1,2: by eapply search_done.
  case_decide as Hnode.
  - apply IH; [simpl in Hfuel; lia| | |]; [naive_solver set_solver|set_solver|].
    intros x Hx. destruct (Hclosed x Hx) as [? Hy]. split; [done|]. set_solver.
  - destruct (stop node) eqn:Hstop; [exists node; split; [apply Hin; right; left|done]|].
    assert (∀ y, y ∈ reverse (order_of (succ node)) ↔ edge node y) as Hnew
      by (intros y; by rewrite elem_of_reverse, elem_of_drawn, elem_of_succ).
    apply IH.
    + pose proof (pending_expand visited node Hnode). rewrite length_app, length_reverse. simpl in Hfuel. lia.
    + intros y. rewrite elem_of_app, Hnew, elem_of_union, elem_of_singleton.
      intros [[->|Hy]|[Hy|Hy]]; [apply Hin; right; left|apply Hin; by left| |apply Hin; right; by right].
      destruct (Hin node) as (x & Hx & Hxn); [right; left|]. exists x. split; [done|]. by eapply rtc_r.
    + intros x Hx. rewrite elem_of_app. destruct (Hstart x Hx) as [|[->|]%elem_of_cons]; set_solver.
    + intros x. setoid_rewrite elem_of_app. setoid_rewrite Hnew.
      intros [->%elem_of_singleton|Hx]%elem_of_union; [split; [done|]; auto|].
      destruct (Hclosed x Hx) as [? Hy]. split; [done|]. intros y Hxy. specialize (Hy y Hxy). set_solver.
Qed.

(** From an empty set of visited nodes, with fuel for the stack and the arcs. *)
Lemma search_spec stop fuel stack :
  length stack + length arcs ≤ fuel →
  match search stop fuel ∅ stack with
  | None => False
  | Some None => ∃ y, reached stack y ∧ stop y = true
  | Some (Some all) => ∀ y, (y ∈ all → stop y = false) ∧ (y ∈ all ↔ reached stack y)
  end.
Proof using order_of_elements Hsucc.
  intros Hfuel. apply search_inv; [|intros y [Hy|Hy]; [set_solver|by exists y]|auto|set_solver].
  assert (pending ∅ ≤ length arcs) by apply length_filter. lia.
Qed.
End search.
