(* ===== verification/AntiChain.v ===== *)
(** * Double counting in calculation graphs: [engine/xbrl/solve/antichain.py]

    A calculation arc says that a concept is summed into its parent.  Concepts none of which
    is summed, over any number of arcs, into another may be added up without counting an
    amount twice.  Explanations of pairs are left out; the rendering of trees is not modelled. *)
From stdpp Require Import relations.
From S2P Require Import Prelude Binary64 Closures.

Inductive CandidateRelation := ANCESTOR_DESCENDANT_OVERLAP | DISJOINT_SIBLING | VALUATION_NETTING | EQUAL.
#[global] Instance relation_eq_dec : EqDecision CandidateRelation.
Proof. solve_decision. Defined.

Record AntiChainOutcome := mkOutcome {
  is_valid : bool;
  computed_sum : float;
  target_value : float;
  discrepancy : float;
  violations : list string;
  selected_concepts : list string;
}.
Record candidate := mkCandidate { cand_qname : string; numeric_value : float }.
Record CandidateFrontierPair := mkPair { concept_a : string; concept_b : string; relation : CandidateRelation }.
Record CandidateFrontier := mkFrontier {
  root_query : string;
  candidates : list candidate;
  pairwise_relations : list CandidateFrontierPair;
}.

Definition arc : Type := string * string * float.
Definition ends (a : arc) : string * string := a.1.

(** [x in s] for strings, and [s.lower()] on code points up to U+00FF. *)
Fixpoint starts_with (p s : string) : bool :=
  match p, s with
  | EmptyString, _ => true
  | String c p, String d s => bool_decide (c = d) && starts_with p s
  | String _ _, EmptyString => false
  end.
Fixpoint occurs_in (p s : string) : bool :=
  starts_with p s || match s with EmptyString => false | String _ s => occurs_in p s end.
Definition lower_char (c : Ascii.ascii) : Ascii.ascii :=
  let n := Ascii.nat_of_ascii c in
  if ((65 <=? n) && (n <=? 90) || (192 <=? n) && (n <=? 222) && negb (n =? 215))%nat
  then Ascii.ascii_of_nat (n + 32) else c.
Definition lower : string → string := string_map lower_char.

(** The pairs of a list, each element with the later ones. *)
Fixpoint pairs_of {A} (l : list A) : list (A * A) :=
  match l with [] => [] | a :: l => ((a,.) <$> l) ++ pairs_of l end.

Section validator.
Context (order_of : gset string → list string).

(** [children_map] and the nodes of the arcs. *)
Definition children_map (arcs : list arc) : gmap string (gset string) := foldl add_arc ∅ (ends <$> arcs).
Definition all_nodes (arcs : list arc) : gset string := list_to_set (arcs ≫= λ a, [a.1.1; a.1.2]).
Definition descendants_of (arcs : list arc) (node : string) : gset string :=
  let succ := successors (children_map arcs) in
  match search order_of succ (λ _, false) (length arcs + length arcs) ∅ (reverse (order_of (succ node))) with
  | Some (Some descendants) => descendants
  | _ => ∅
  end.
Definition build_reachability_map (arcs : list arc) : gmap string (gset string) :=
  list_to_map ((λ node, (node, descendants_of arcs node)) <$> order_of (all_nodes arcs)).

Definition is_ancestor (reachability : gmap string (gset string)) (a b : string) : bool :=
  bool_decide (b ∈ default ∅ (reachability !! a)).
Definition violation (a b : string) : string :=
  "Double-counting: '" +:+ a +:+ "' is an ancestor of '" +:+ b +:+ "' in calculation DAG".
Definition violations_of (reachability : gmap string (gset string)) (selected : list string) : list string :=
  pairs_of selected ≫= λ '(a, b),
    if is_ancestor reachability a b then [violation a b]
    else if is_ancestor reachability b a then [violation b a] else [].

Definition target_amount (target_concept : option string) (values : gmap string float) : float :=
  match target_concept with
  | Some t => if String.eqb t "" then float_of_Z 0 else default (float_of_Z 0) (values !! t)
  | None => float_of_Z 0
  end.
Definition weighted_sum (selected : list string) (values weights : gmap string float) : float :=
  foldl (λ computed c, fadd computed (fmul (default (float_of_Z 1) (weights !! c)) (default (float_of_Z 0) (values !! c))))
    (float_of_Z 0) selected.
(** [None] and an empty dict of values are treated alike: no amounts. *)
Definition verify_non_double_counting (selected : list string) (arcs : list arc) (target_concept : option string)
    (concept_values concept_weights : gmap string float) : AntiChainOutcome :=
  let reachability := build_reachability_map arcs in
  let violations := violations_of reachability selected in
  let target_val := target_amount target_concept concept_values in
  let computed := if decide (concept_values = ∅) then float_of_Z 0 else weighted_sum selected concept_values concept_weights in
  let discrepancy := match target_concept with Some _ => fabs (fsub computed target_val) | None => float_of_Z 0 end in
  mkOutcome (bool_decide (violations = []) && flt discrepancy (float_of_Z 1)) computed target_val discrepancy violations selected.

Definition classify_pair_relation (a b : string) (reachability : gmap string (gset string)) (contras : gset string) :
    CandidateRelation :=
  if String.eqb a b then EQUAL
  else if is_ancestor reachability a b then ANCESTOR_DESCENDANT_OVERLAP
  else if is_ancestor reachability b a then ANCESTOR_DESCENDANT_OVERLAP
  else if bool_decide (a ∈ contras ∨ b ∈ contras) then VALUATION_NETTING
  else DISJOINT_SIBLING.

Definition resolve_query_frontier (query_concept : string) (facts : list candidate) (arcs : list arc)
    (contra_concepts : gset string) : CandidateFrontier :=
  let reachability := build_reachability_map arcs in
  let matching := filter (λ f, occurs_in (lower query_concept) (lower (cand_qname f)) = true) facts in
  mkFrontier query_concept matching
    ((λ p, mkPair (cand_qname p.1) (cand_qname p.2)
       (classify_pair_relation (cand_qname p.1) (cand_qname p.2) reachability contra_concepts)) <$> pairs_of matching).

(** ** Reachability *)

Context (order_of_elements : ∀ X, order_of X ≡ₚ elements X).

(** [b] is summed into [a] over one or more arcs. *)
Definition summed_into (arcs : list arc) (a b : string) : Prop := tc (edge (ends <$> arcs)) a b.

Lemma elem_of_descendants arcs node b : b ∈ descendants_of arcs node ↔ summed_into arcs node b.
Proof using order_of_elements.
  unfold descendants_of. set (succ := successors (children_map arcs)).
  assert (∀ n, succ n = list_to_set (arcs_from (ends <$> arcs) n)) as Hsucc by (intros n; apply successors_foldl).
  pose proof (order_of_succ_length order_of succ order_of_elements _ Hsucc node) as Hlen. rewrite length_fmap in Hlen.
  pose proof (search_spec order_of succ order_of_elements _ Hsucc (λ _, false) (length arcs + length arcs)
    (reverse (order_of (succ node)))) as Hspec. rewrite length_reverse, length_fmap in Hspec. specialize (Hspec ltac:(lia)).
  destruct (search _ _ _ _ _ _) as [[all|]|]; [|by destruct Hspec as (? & _ & ?)|done].
  destruct (Hspec b) as [_ ->]. unfold summed_into. rewrite tc_first. unfold reached.
  setoid_rewrite elem_of_reverse. setoid_rewrite (elem_of_drawn order_of order_of_elements).
  setoid_rewrite (elem_of_succ succ _ Hsucc). done.
Qed.
Lemma summed_into_nodes arcs a b : summed_into arcs a b → a ∈ all_nodes arcs.
Proof.
  intros (z & Haz & _)%tc_first. unfold all_nodes, edge in *. apply list_elem_of_fmap in Haz as ([[x y] w] & E & Hin).
  simpl in E. injection E as -> ->. apply elem_of_list_to_set, list_elem_of_bind. exists (x, y, w). split; [left|done].
Qed.
Lemma reachability_lookup arcs a :
  build_reachability_map arcs !! a = if decide (a ∈ all_nodes arcs) then Some (descendants_of arcs a) else None.
Proof using order_of_elements.
  unfold build_reachability_map. case_decide as Ha.
  - apply elem_of_list_to_map.
    + rewrite <- list_fmap_compose. unfold compose. simpl. rewrite list_fmap_id, order_of_elements. apply NoDup_elements.
    + apply list_elem_of_fmap. exists a. split; [done|]. by apply elem_of_drawn.
  - apply not_elem_of_list_to_map. rewrite <- list_fmap_compose. unfold compose. simpl.
    by rewrite list_fmap_id, (elem_of_drawn order_of order_of_elements).
Qed.

Lemma is_ancestor_spec arcs a b : is_ancestor (build_reachability_map arcs) a b = true ↔ summed_into arcs a b.
Proof using order_of_elements.
  unfold is_ancestor. rewrite bool_decide_eq_true, reachability_lookup. case_decide as Ha; simpl.
  - apply elem_of_descendants.
  - split; [set_solver|]. by intros H%summed_into_nodes.
Qed.

(** The reachability map of the arcs has an entry for every node and no other, and the
    entry holds exactly what is summed into the node, whether or not the arcs have cycles. *)
Theorem reachability_is_closure arcs a :
  (is_Some (build_reachability_map arcs !! a) ↔ a ∈ all_nodes arcs) ∧
  ∀ below, build_reachability_map arcs !! a = Some below → ∀ b, b ∈ below ↔ summed_into arcs a b.
Proof using order_of_elements.
  rewrite reachability_lookup. case_decide as Ha.
  - split; [split; [done|by eexists]|]. intros below [= <-] b. apply elem_of_descendants.
  - split; [split; [by intros []|done]|]. done.
Qed.

(** ** Selections that count nothing twice *)

Definition antichain (arcs : list arc) (selected : list string) : Prop :=
  ∀ i j a b, i < j → selected !! i = Some a → selected !! j = Some b → ¬ summed_into arcs a b ∧ ¬ summed_into arcs b a.

Lemma elem_of_pairs {A} (l : list A) a b : (a, b) ∈ pairs_of l ↔ ∃ i j, i < j ∧ l !! i = Some a ∧ l !! j = Some b.
Proof.
  induction l as [|x l IH]; simpl.
  - split; [intros H; inversion H|]. intros (i & j & _ & Hi & _). by rewrite lookup_nil in Hi.
  - rewrite elem_of_app, IH, list_elem_of_fmap. split.
    + intros [(y & [= -> ->] & Hy)|(i & j & Hij & Hi & Hj)].
      * apply list_elem_of_lookup in Hy as [j Hj]. exists 0, (S j). split_and!; [lia|done..].
      * exists (S i), (S j). split_and!; [lia|done..].
    + intros ([|i] & [|j] & Hij & Hi & Hj); try lia; simpl in *.
      * injection Hi as ->. left. exists b. split; [done|]. by eapply list_elem_of_lookup_2.
      * right. exists i, j. split_and!; [lia|done..].
Qed.
Lemma violations_nil arcs selected : violations_of (build_reachability_map arcs) selected = [] ↔ antichain arcs selected.
Proof using order_of_elements.
  assert (∀ p : string * string, (let '(a, b) := p in
    if is_ancestor (build_reachability_map arcs) a b then [violation a b]
    else if is_ancestor (build_reachability_map arcs) b a then [violation b a] else []) = []
    ↔ ¬ summed_into arcs p.1 p.2 ∧ ¬ summed_into arcs p.2 p.1) as Hpair.
  { intros [a b]. simpl. rewrite <- !is_ancestor_spec.
    destruct (is_ancestor _ a b), (is_ancestor _ b a); naive_solver. }
  unfold violations_of, antichain. split.
  - intros H i j a b Hij Hi Hj. apply (Hpair (a, b)). assert ((a, b) ∈ pairs_of selected) as Hin by (apply elem_of_pairs; eauto).
    apply list_elem_of_split in Hin as (l1 & l2 & E). rewrite E, bind_app, bind_cons in H.
    apply app_eq_nil in H as [_ H]. by apply app_eq_nil in H as [H _].
  - intros H. assert (∀ p, p ∈ pairs_of selected → ¬ summed_into arcs p.1 p.2 ∧ ¬ summed_into arcs p.2 p.1) as Hall.
    { intros [a b] (i & j & Hij & Hi & Hj)%elem_of_pairs. by eapply H. }
    clear H. induction (pairs_of selected) as [|p l IH]; [done|]. rewrite bind_cons.
    rewrite (proj2 (Hpair p)) by (apply Hall; left). apply IH. intros q Hq. apply Hall. by right.
Qed.

(** Amounts and weights that are whole numbers. *)
Definition amount (m : gmap string Z) (default_value : Z) (c : string) : Z := default default_value (m !! c).
Definition floats (m : gmap string Z) : gmap string float := float_of_Z <$> m.
Lemma default_float m z c : default (float_of_Z z) (floats m !! c) = float_of_Z (amount m z c).
Proof. unfold floats, amount. rewrite lookup_fmap. by destruct (m !! c). Qed.

Lemma add_product a x y :
  small a → small x → small y → small (x * y) → small (a + x * y) →
  fadd (float_of_Z a) (fmul (float_of_Z x) (float_of_Z y)) = float_of_Z (a + x * y).
Proof.
  intros Ha Hx Hy Hxy Hs. assert (grid_exponent 0) as H0 by done.
  destruct (decide (x * y = 0)%Z) as [E|E].
  - assert (∃ s, fmul (float_of_Z x) (float_of_Z y) = S754_zero s) as [s ->].
    { assert (x = 0 ∨ y = 0)%Z as [-> | ->] by lia; unfold float_of_Z.
      - destruct (decide (y = 0)%Z) as [->|Hy0]; [by eexists|]. rewrite (grid_form 0 y) by done. by eexists.
      - destruct (decide (x = 0)%Z) as [->|Hx0]; [by eexists|]. rewrite (grid_form 0 x) by done. by eexists. }
    rewrite E, Z.add_0_r. by apply grid_add_zero.
  - unfold float_of_Z. rewrite (grid_mul 0 0) by (done || lia). by apply grid_add.
Qed.
Lemma weighted_sum_exact selected values weights :
  (∀ c, c ∈ selected → small (amount values 0 c) ∧ small (amount weights 1 c)) →
  (total_abs ((λ c, amount weights 1 c * amount values 0 c)%Z <$> selected) < 2 ^ 53)%Z →
  weighted_sum selected (floats values) (floats weights) =
    float_of_Z (total ((λ c, amount weights 1 c * amount values 0 c)%Z <$> selected)).
Proof.
  intros Hsmall Hb. unfold weighted_sum.
  assert (∀ a, Z.abs a + total_abs ((λ c, amount weights 1 c * amount values 0 c)%Z <$> selected) < 2 ^ 53 →
    foldl (λ computed c, fadd computed (fmul (default (float_of_Z 1) (floats weights !! c))
      (default (float_of_Z 0) (floats values !! c)))) (float_of_Z a) selected =
    float_of_Z (a + total ((λ c, amount weights 1 c * amount values 0 c) <$> selected)))%Z as Hloop; [|apply Hloop; simpl; lia].
  clear Hb. induction selected as [|c l IH]; intros a Hb; [simpl; f_equal; lia|].
  rewrite fmap_cons, total_abs_cons in Hb. rewrite fmap_cons, total_cons. cbn [foldl]. rewrite !default_float.
  assert (0 <= total_abs ((λ c, amount weights 1 c * amount values 0 c) <$> l))%Z.
  { etrans; [|apply total_bound]. lia. }
  destruct (Hsmall c ltac:(left)) as [Hv Hw].
  rewrite add_product by (done || (unfold small; lia)). rewrite IH; [f_equal; lia| |lia].
  intros c' Hc'. apply Hsmall. by right.
Qed.

(** C32: for a target that is filed and amounts and weights that are whole numbers, with the
    absolute products and target adding up to less than 2^53, a selection is declared valid
    exactly when no selected concept is summed into another and the weighted amounts add up
    to the target: the tolerance of one then admits no discrepancy.  (Fractional amounts may
    be off by less than one, [demo_tolerated].) *)
Theorem valid_selection_iff selected arcs target t values weights :
  target ≠ "" → values !! target = Some t →
  (∀ c, c ∈ selected → small (amount values 0 c) ∧ small (amount weights 1 c)) →
  (Z.abs t + total_abs ((λ c, amount weights 1 c * amount values 0 c) <$> selected) < 2 ^ 53)%Z →
  is_valid (verify_non_double_counting selected arcs (Some target) (floats values) (floats weights)) = true ↔
    antichain arcs selected ∧ total ((λ c, amount weights 1 c * amount values 0 c)%Z <$> selected) = t.
Proof using order_of_elements.
  intros Hne Ht Hsmall Hb. unfold verify_non_double_counting. cbv zeta. cbn [is_valid].
  rewrite decide_False by (intros E; apply (f_equal (.!! target)) in E; unfold floats in E;
    by rewrite lookup_fmap, Ht, lookup_empty in E).
  assert (target_amount (Some target) (floats values) = float_of_Z t) as ->.
  { unfold target_amount. rewrite (proj2 (String.eqb_neq _ _) Hne), default_float. unfold amount. by rewrite Ht. }
  pose proof (total_bound ((λ c, amount weights 1 c * amount values 0 c)%Z <$> selected)) as Htot.
  rewrite weighted_sum_exact by (done || lia). revert Htot Hb. generalize (total ((λ c, amount weights 1 c * amount values 0 c)%Z <$> selected)).
  generalize (total_abs ((λ c, amount weights 1 c * amount values 0 c)%Z <$> selected)). intros sa sum Htot Hb.
  assert (grid_exponent 0) as H0 by done. unfold float_of_Z.
  rewrite grid_sub, grid_abs, grid_lt by (done || (unfold small; lia)).
  rewrite andb_true_iff, bool_decide_eq_true, violations_nil, Z.ltb_lt. intuition lia.
Qed.
End validator.

Section frontier.
Context (order_of : gset string → list string) (order_of_elements : ∀ X, order_of X ≡ₚ elements X).

(** The relation of two candidates says which of four cases holds, and does not depend on
    the order of the two. *)
Theorem pair_relation_cases arcs contras a b :
  let r := classify_pair_relation a b (build_reachability_map order_of arcs) contras in
  let nested := summed_into arcs a b ∨ summed_into arcs b a in
  (r = EQUAL ↔ a = b) ∧
  (r = ANCESTOR_DESCENDANT_OVERLAP ↔ a ≠ b ∧ nested) ∧
  (r = VALUATION_NETTING ↔ a ≠ b ∧ ¬ nested ∧ (a ∈ contras ∨ b ∈ contras)) ∧
  classify_pair_relation b a (build_reachability_map order_of arcs) contras = r.
Proof using order_of_elements.
  intros r nested. unfold r, nested, classify_pair_relation. rewrite (String.eqb_sym b a).
  rewrite <- !(is_ancestor_spec order_of order_of_elements).
  destruct (String.eqb_spec a b) as [->|Hab]; [naive_solver|].
  destruct (is_ancestor _ a b), (is_ancestor _ b a); try naive_solver.
  rewrite (bool_decide_ext (b ∈ contras ∨ a ∈ contras) (a ∈ contras ∨ b ∈ contras)) by tauto.
  case_bool_decide; naive_solver.
Qed.
End frontier.

(** ** Examples *)

Definition demo_arcs : list arc :=
  [("Assets", "Current", float_of_Z 1); ("Current", "Cash", float_of_Z 1); ("Assets", "Plant", float_of_Z 1)].
Definition demo_amounts : gmap string Z := {["Assets" := 900; "Current" := 400; "Cash" := 150; "Plant" := 500]}%Z.
Definition demo_check (selected : list string) : AntiChainOutcome :=
  verify_non_double_counting elements selected demo_arcs (Some "Assets") (floats demo_amounts) ∅.
Example demo_valid : is_valid (demo_check ["Current"; "Plant"]) = true.
Proof. vm_compute. reflexivity. Qed.
Example demo_double : violations (demo_check ["Cash"; "Current"]) =
  ["Double-counting: 'Current' is an ancestor of 'Cash' in calculation DAG"].
Proof. vm_compute. reflexivity. Qed.

(** Half a unit too little is within the tolerance. *)
Example demo_tolerated :
  is_valid (verify_non_double_counting elements ["Current"; "Plant"] demo_arcs (Some "Assets")
    (<["Plant" := grid (-1) 999]> (floats demo_amounts)) ∅) = true.
Proof. vm_compute. reflexivity. Qed.

Lemma elements_Permutation : ∀ X : gset string, elements X ≡ₚ elements X.
Proof. reflexivity. Qed.
Lemma reachability_is_closure_witness : summed_into demo_arcs "Assets" "Cash".
Proof.
  destruct (reachability_is_closure elements elements_Permutation demo_arcs "Assets") as [_ H].
  apply (H {["Current"; "Cash"; "Plant"]}); [|set_solver]. apply (bool_decide_unpack _). vm_compute. exact I.
Defined.
Lemma valid_selection_iff_witness : antichain demo_arcs ["Current"; "Plant"] ∧ (400 + (500 + 0) = 900)%Z.
Proof.
  apply (proj1 (valid_selection_iff elements elements_Permutation ["Current"; "Plant"] demo_arcs "Assets" 900 demo_amounts ∅
    ltac:(done) ltac:(vm_compute; reflexivity)
    ltac:(intros c Hc; apply elem_of_cons in Hc as [->|Hc]; [split; vm_compute; reflexivity|];
          apply list_elem_of_singleton in Hc as ->; split; vm_compute; reflexivity)
    ltac:(vm_compute; reflexivity)) ltac:(vm_compute; reflexivity)).
Defined.
