(* ===== verification/Subsumption.v ===== *)
(** * Axis members that contain each other: [engine/xbrl/evidence/subsumption.py]

    The definition arcs of a filing put the members of an axis into trees below the domains of
    the axis; the default member contains them all.  Answers are [None] where the code
    abstains. *)
From Stdlib Require Import Ascii.
From stdpp Require Import relations.
From S2P Require Import Prelude Binary64 Closures.

Record DefinitionArc := mkArc {
  parent_qname : string;
  child_qname : string;
  arcrole : string;
  arc_order : option float;
  role_uri : option string;
  usable : option bool;
  closed : option bool;
  context_element : option string;
  target_role : option string;
}.

(** [arcrole.rsplit("/", 1)[-1]] *)
Fixpoint _arcrole_kind (arcrole : string) : string :=
  match arcrole with
  | EmptyString => ""
  | String c rest => if has_char "/"%char rest then _arcrole_kind rest else if bool_decide (c = "/"%char) then rest else arcrole
  end.

Record MemberSubsumption := mkSubsumption {
  _domains : gmap string (gset string);
  _defaults : gmap string (gset string);
  _parents : gmap string (gset string);
  _children : gmap string (gset string);
}.

(** One arc of the loop in [__init__]. *)
Definition add_definition (s : MemberSubsumption) (a : DefinitionArc) : MemberSubsumption :=
  let kind := _arcrole_kind (arcrole a) in
  if String.eqb kind "dimension-domain"
  then mkSubsumption (add_arc (_domains s) (parent_qname a, child_qname a)) (_defaults s) (_parents s) (_children s)
  else if String.eqb kind "dimension-default"
  then mkSubsumption (_domains s) (add_arc (_defaults s) (parent_qname a, child_qname a)) (_parents s) (_children s)
  else if String.eqb kind "domain-member" && negb (bool_decide (usable a = Some false))
  then mkSubsumption (_domains s) (_defaults s) (add_arc (_parents s) (child_qname a, parent_qname a))
         (add_arc (_children s) (parent_qname a, child_qname a))
  else s.
Definition subsumption_of (arcs : list DefinitionArc) : MemberSubsumption :=
  foldl add_definition (mkSubsumption ∅ ∅ ∅ ∅) arcs.

(** The pairs the arcs put into each of the dicts. *)
Definition domain_arcs (arcs : list DefinitionArc) : list (string * string) :=
  (λ a, (parent_qname a, child_qname a)) <$> filter (λ a, _arcrole_kind (arcrole a) = "dimension-domain") arcs.
Definition default_arcs (arcs : list DefinitionArc) : list (string * string) :=
  (λ a, (parent_qname a, child_qname a)) <$> filter (λ a, _arcrole_kind (arcrole a) = "dimension-default") arcs.
Definition member_arcs (arcs : list DefinitionArc) : list (string * string) :=
  (λ a, (parent_qname a, child_qname a))
    <$> filter (λ a, _arcrole_kind (arcrole a) = "domain-member" ∧ usable a ≠ Some false) arcs.
Definition swap (p : string * string) : string * string := (p.2, p.1).

Lemma subsumption_of_spec arcs :
  _domains (subsumption_of arcs) = foldl add_arc ∅ (domain_arcs arcs) ∧
  _defaults (subsumption_of arcs) = foldl add_arc ∅ (default_arcs arcs) ∧
  _parents (subsumption_of arcs) = foldl add_arc ∅ (swap <$> member_arcs arcs) ∧
  _children (subsumption_of arcs) = foldl add_arc ∅ (member_arcs arcs).
Proof.
  unfold subsumption_of.
  assert (∀ s, let s' := foldl add_definition s arcs in
    _domains s' = foldl add_arc (_domains s) (domain_arcs arcs) ∧ _defaults s' = foldl add_arc (_defaults s) (default_arcs arcs) ∧
    _parents s' = foldl add_arc (_parents s) (swap <$> member_arcs arcs) ∧
    _children s' = foldl add_arc (_children s) (member_arcs arcs)) as H; [|apply H].
  unfold domain_arcs, default_arcs, member_arcs. induction arcs as [|a arcs IH]; intros s; [done|].
  cbn [foldl]. rewrite !filter_cons. destruct (IH (add_definition s a)) as (H1 & H2 & H3 & H4). cbv zeta.
  rewrite H1, H2, H3, H4. unfold add_definition.
  destruct (String.eqb_spec (_arcrole_kind (arcrole a)) "dimension-domain") as [E1|E1].
  { rewrite E1. repeat case_decide; destruct_and?; done. }
  destruct (String.eqb_spec (_arcrole_kind (arcrole a)) "dimension-default") as [E2|E2].
  { rewrite E2. repeat case_decide; destruct_and?; done. }
  destruct (String.eqb_spec (_arcrole_kind (arcrole a)) "domain-member") as [E3|E3]; simpl.
  - case_bool_decide as Hu; simpl; repeat case_decide; destruct_and?; tauto.
  - repeat case_decide; destruct_and?; done.
Qed.

Section subsumption.
Context (order_of : gset string → list string).

(** [axis_tree]: a node goes on the stack when it is first seen. *)
Definition visit_child (seen_stack : gset string * list string) (child : string) : gset string * list string :=
  let '(seen, stack) := seen_stack in
  if decide (child ∈ seen) then (seen, stack) else ({[child]} ∪ seen, child :: stack).
Fixpoint grow (children : string → gset string) (fuel : nat) (seen : gset string) (stack : list string) : option (gset string) :=
  match stack with
  | [] => Some seen
  | node :: stack =>
      match fuel with
      | O => None
      | S fuel =>
          let '(seen, stack) := foldl visit_child (seen, stack) (order_of (children node)) in
          grow children fuel seen stack
      end
  end.
Definition axis_tree (s : MemberSubsumption) (axis : string) : gset string :=
  let seen := successors (_domains s) axis in
  default ∅ (grow (successors (_children s)) (size seen + length (pairs_in (_children s))) seen (reverse (order_of seen))).

Definition default_member (s : MemberSubsumption) (axis : string) : option string :=
  match elements (successors (_defaults s) axis) with [d] => Some d | _ => None end.
Definition _known (s : MemberSubsumption) (axis node : string) : bool :=
  bool_decide (node ∈ axis_tree s axis) || bool_decide (default_member s axis = Some node).

Definition is_subsumed (s : MemberSubsumption) (axis child ancestor : string) : option bool :=
  if bool_decide (_domains s !! axis = None) && bool_decide (_defaults s !! axis = None) then None
  else if bool_decide (child = ancestor) then (if _known s axis child then Some true else None)
  else if bool_decide (default_member s axis = Some ancestor) then (if _known s axis child then Some true else None)
  else if bool_decide (default_member s axis = Some child) then Some false
  else if negb (_known s axis child) || negb (_known s axis ancestor) then None
  else
    let parents := successors (_parents s) in
    match search order_of parents (λ node, bool_decide (ancestor ∈ parents node)) (S (length (pairs_in (_parents s)))) ∅ [child] with
    | Some None => Some true
    | _ => Some false
    end.

(** The inner loop of [frontier]; [None] is the early return of [None]. *)
Fixpoint subsumed_by_other (s : MemberSubsumption) (axis member : string) (others : list string) : option bool :=
  match others with
  | [] => Some false
  | other :: others =>
      if decide (other = member) then subsumed_by_other s axis member others
      else match is_subsumed s axis member other with
           | None => None
           | Some true => Some true
           | Some false => subsumed_by_other s axis member others
           end
  end.
Fixpoint frontier_from (s : MemberSubsumption) (axis : string) (all members : list string) : option (list string) :=
  match members with
  | [] => Some []
  | member :: members =>
      subsumed ← subsumed_by_other s axis member all;
      kept ← frontier_from s axis all members;
      Some (if (subsumed : bool) then kept else member :: kept)
  end.
Definition frontier (s : MemberSubsumption) (axis : string) (members : list string) : option (list string) :=
  frontier_from s axis members members.

(** ** The tree of an axis *)

Context (order_of_elements : ∀ X, order_of X ≡ₚ elements X).

Definition child_of (s : MemberSubsumption) (x y : string) : Prop := y ∈ successors (_children s) x.

Section grow.
Context (children : string → gset string) (arcs : list (string * string)).
Context (Hchildren : ∀ node, children node = list_to_set (arcs_from arcs node)).

Definition unseen (seen : gset string) : nat := length (filter (λ arc, arc.2 ∉ seen) arcs).
Lemma unseen_child seen child x : child ∉ seen → (x, child) ∈ arcs → S (unseen ({[child]} ∪ seen)) ≤ unseen seen.
Proof.
  intros Hc Hin. unfold unseen.
  assert (length (filter (λ arc : string * string, arc.2 = child) arcs)
          + length (filter (λ arc : string * string, arc.2 ∉ {[child]} ∪ seen) arcs)
          = length (filter (λ arc : string * string, arc.2 ∉ seen) arcs)) as <-.
  { rewrite <- length_app, <- filter_split by set_solver. f_equal. apply filter_ext_in. intros [a b] _. simpl.
    destruct (decide (b = child)); set_solver. }
  assert ((x, child) ∈ filter (λ arc : string * string, arc.2 = child) arcs) as H by by apply list_elem_of_filter.
  destruct (filter (λ arc : string * string, arc.2 = child) arcs); [inversion H|]. simpl. lia.
Qed.

Lemma visit_children seen stack node cs :
  (∀ c, c ∈ cs → (node, c) ∈ arcs) →
  let '(seen', stack') := foldl visit_child (seen, stack) cs in
  length stack' + unseen seen' ≤ length stack + unseen seen ∧
  (∀ x, x ∈ seen' ↔ x ∈ seen ∨ x ∈ cs) ∧ (∀ x, x ∈ stack' ↔ x ∈ stack ∨ x ∈ cs ∧ x ∉ seen).
Proof.
  revert seen stack. induction cs as [|c cs IH]; intros seen stack Hcs; [simpl; set_solver by lia|].
  cbn [foldl]. unfold visit_child at 2. case_decide as Hc.
  - specialize (IH seen stack ltac:(set_solver)). destruct (foldl _ _ _) as [seen' stack'].
    destruct IH as (H1 & H2 & H3). split; [done|]. split; intros x; rewrite ?H2, ?H3; set_solver.
  - specialize (IH ({[c]} ∪ seen) (c :: stack) ltac:(set_solver)). destruct (foldl _ _ _) as [seen' stack'].
    destruct IH as (H1 & H2 & H3). pose proof (unseen_child seen c node Hc ltac:(apply Hcs; left)).
    simpl in H1. split; [lia|]. split; intros x; rewrite ?H2, ?H3; [set_solver|].
    rewrite !elem_of_cons, elem_of_union, elem_of_singleton. destruct (decide (x = c)) as [->|]; naive_solver.
Qed.

Lemma grow_spec roots fuel seen stack :
  length stack + unseen seen ≤ fuel →
  (∀ x, x ∈ roots → x ∈ seen) → (∀ x, x ∈ stack → x ∈ seen) →
  (∀ x, x ∈ seen → ∃ r, r ∈ roots ∧ rtc (edge arcs) r x) →
  (∀ x, x ∈ seen → x ∈ stack ∨ ∀ y, edge arcs x y → y ∈ seen) →
  ∃ tree, grow children fuel seen stack = Some tree ∧ ∀ x, x ∈ tree ↔ ∃ r, r ∈ (roots : gset string) ∧ rtc (edge arcs) r x.
Proof using order_of_elements Hchildren.
  revert seen stack. induction fuel as [|fuel IH]; intros seen [|node stack] Hfuel Hroots Hstack Hin Hclosed;
    try (simpl in Hfuel; lia); cbn [grow].
  1,2: exists seen; split; [done|]; intros x; split; [apply Hin|]; intros (r & Hr%Hroots & Hrx);
    induction Hrx as [|r y z Hry _ IHr]; [done|]; apply IHr; destruct (Hclosed r Hr) as [H|H]; [inversion H|by apply H].
  assert (∀ c, c ∈ order_of (children node) ↔ edge arcs node c) as Hcs.
  { intros c. rewrite (elem_of_drawn order_of order_of_elements), Hchildren, elem_of_list_to_set. apply elem_of_arcs_from. }
  pose proof (visit_children seen stack node (order_of (children node)) ltac:(intros c; apply Hcs)) as Hvisit.
  destruct (foldl _ _ _) as [seen' stack']. destruct Hvisit as (Hmeasure & Hseen & Hst). setoid_rewrite Hcs in Hseen.
  setoid_rewrite Hcs in Hst. apply IH.
  - simpl in Hfuel. lia.
  - intros x Hx. apply Hseen. left. by apply Hroots.
  - intros x [Hx|[Hx _]]%Hst; apply Hseen; [left; apply Hstack; by right|by right].
  - intros x [Hx|Hx]%Hseen; [by apply Hin|]. destruct (Hin node) as (r & Hr & Hrn); [apply Hstack; left|].
    exists r. split; [done|]. by eapply rtc_r.
  - intros x [Hx|Hx]%Hseen.
    + destruct (Hclosed x Hx) as [[->|Hx']%elem_of_cons|Hx']; [right|left|right].
      * intros y Hy. apply Hseen. by right.
      * apply Hst. by left.
      * intros y Hy. apply Hseen. left. by apply Hx'.
    + destruct (decide (x ∈ seen)) as [Hxs|Hxs]; [|left; apply Hst; by right].
      destruct (Hclosed x Hxs) as [[->|Hx']%elem_of_cons|Hx']; [right|left|right].
      * intros y Hy. apply Hseen. by right.
      * apply Hst. by left.
      * intros y Hy. apply Hseen. left. by apply Hx'.
Qed.
End grow.

(** Members below each other, as the arcs say. *)
Definition above (s : MemberSubsumption) (x y : string) : Prop := y ∈ successors (_parents s) x.
Definition below (s : MemberSubsumption) (x y : string) : Prop := y ∈ successors (_children s) x.

Lemma axis_tree_spec s axis x :
  x ∈ axis_tree s axis ↔ ∃ d, d ∈ successors (_domains s) axis ∧ rtc (below s) d x.
Proof using order_of_elements.
  unfold axis_tree.
  destruct (grow_spec (successors (_children s)) (pairs_in (_children s)) (successors_pairs _) (successors (_domains s) axis)
    (size (successors (_domains s) axis) + length (pairs_in (_children s))) (successors (_domains s) axis)
    (reverse (order_of (successors (_domains s) axis)))) as (tree & -> & Htree).
  - rewrite length_reverse, order_of_elements. change (length (elements ?X)) with (size X).
    unfold unseen. pose proof (length_filter (λ arc : string * string, arc.2 ∉ successors (_domains s) axis) (pairs_in (_children s))). lia.
  - done.
  - intros y. by rewrite elem_of_reverse, (elem_of_drawn order_of order_of_elements).
  - intros y Hy. by exists y.
  - intros y Hy. left. by rewrite elem_of_reverse, (elem_of_drawn order_of order_of_elements).
  - simpl. rewrite Htree. assert (∀ a b, edge (pairs_in (_children s)) a b ↔ below s a b) as Hedge by (intros a b; apply elem_of_pairs_in).
    split; intros (d & Hd & Hdx); exists d; (split; [done|]); (eapply rtc_subrel; [|exact Hdx]); intros a b; apply Hedge.
Qed.

Definition declared (s : MemberSubsumption) (axis : string) : Prop := is_Some (_domains s !! axis) ∨ is_Some (_defaults s !! axis).
#[global] Instance declared_dec s axis : Decision (declared s axis).
Proof. unfold declared. apply _. Defined.
Definition known (s : MemberSubsumption) (axis node : string) : Prop :=
  (∃ d, d ∈ successors (_domains s) axis ∧ rtc (below s) d node) ∨ default_member s axis = Some node.
Lemma known_spec s axis node : _known s axis node = true ↔ known s axis node.
Proof using order_of_elements. unfold _known, known. by rewrite orb_true_iff, !bool_decide_eq_true, axis_tree_spec. Qed.

(** [child] is [ancestor] or below it on the axis. *)
Definition contained (s : MemberSubsumption) (axis child ancestor : string) : Prop :=
  child = ancestor ∨ default_member s axis = Some ancestor ∨
  default_member s axis ≠ Some child ∧ tc (above s) child ancestor.

Lemma climb_spec s child ancestor :
  let parents := successors (_parents s) in
  search order_of parents (λ node, bool_decide (ancestor ∈ parents node)) (S (length (pairs_in (_parents s)))) ∅ [child] = Some None
  ↔ tc (above s) child ancestor.
Proof using order_of_elements.
  intros parents.
  pose proof (search_spec order_of parents order_of_elements (pairs_in (_parents s)) (successors_pairs _)
    (λ node, bool_decide (ancestor ∈ parents node)) (S (length (pairs_in (_parents s)))) [child] ltac:(simpl; lia)) as Hspec.
  assert (∀ y, reached (pairs_in (_parents s)) [child] y ↔ rtc (above s) child y) as Hreach.
  { assert (∀ a b, edge (pairs_in (_parents s)) a b ↔ above s a b) as Hedge by (intros a b; apply elem_of_pairs_in).
    intros y. unfold reached. setoid_rewrite list_elem_of_singleton. split.
    - intros (x & -> & H). eapply rtc_subrel; [|exact H]. intros a b. apply Hedge.
    - intros H. exists child. split; [done|]. eapply rtc_subrel; [|exact H]. intros a b. apply Hedge. }
  rewrite tc_last. destruct (search _ _ _ _ _ _) as [[all|]|]; [| |done].
  - split; [done|]. intros (y & Hy & Hya). apply Hreach in Hy. destruct (Hspec y) as [Hstop Hall].
    apply Hall, Hstop, bool_decide_eq_false in Hy. done.
  - split; [|done]. intros _. destruct Hspec as (y & Hy & Hya%bool_decide_eq_true). exists y. by rewrite <- Hreach.
Qed.

Lemma is_subsumed_cases s axis child ancestor :
  (is_subsumed s axis child ancestor = None ↔
     ¬ declared s axis ∨ default_member s axis ≠ Some child ∧ (¬ known s axis child ∨ ¬ known s axis ancestor)) ∧
  (is_subsumed s axis child ancestor = Some true ↔
     declared s axis ∧ known s axis child ∧ known s axis ancestor ∧ contained s axis child ancestor).
Proof using order_of_elements.
  assert (∀ node, default_member s axis = Some node → _known s axis node = true) as Hdef
    by (intros node Hn; apply known_spec; by right).
  assert (bool_decide (_domains s !! axis = None) && bool_decide (_defaults s !! axis = None) = true ↔ ¬ declared s axis) as Hdec.
  { unfold declared. rewrite andb_true_iff, !bool_decide_eq_true, !eq_None_not_Some. tauto. }
  unfold is_subsumed, contained. rewrite <- !known_spec. destruct (_ && _).
  { assert (¬ declared s axis) by (by apply Hdec). split; split; [auto|done|done|tauto]. }
  assert (declared s axis) as Hd.
  { destruct (decide (declared s axis)) as [|Hn]; [done|]. by apply Hdec in Hn. }
  pose proof (climb_spec s child ancestor) as Hclimb. cbv zeta in Hclimb. cbv zeta. clear Hdec.
  case_bool_decide as E1; [subst|case_bool_decide as E2; [|case_bool_decide as E3]].
  - destruct (_known s axis ancestor) eqn:Hk; [intuition congruence|].
    assert (default_member s axis ≠ Some ancestor) by (intros E; by rewrite (Hdef _ E) in Hk). clear Hdef Hclimb. intuition congruence.
  - rewrite (Hdef _ E2). destruct (_known s axis child) eqn:Hk; [clear Hdef Hclimb; intuition congruence|].
    assert (default_member s axis ≠ Some child) by (intros E; by rewrite (Hdef _ E) in Hk). clear Hdef Hclimb. intuition congruence.
  - clear Hdef Hclimb. intuition congruence.
  - clear Hdef. destruct (_known s axis child), (_known s axis ancestor); cbn [negb orb]; [|clear Hclimb; intuition congruence..].
    destruct (decide (search order_of (successors (_parents s)) (λ node, bool_decide (ancestor ∈ successors (_parents s) node))
      (S (length (pairs_in (_parents s)))) ∅ [child] = Some None)) as [Hs|Hs].
    + rewrite Hs. apply Hclimb in Hs. clear Hclimb. intuition congruence.
    + assert (¬ tc (above s) child ancestor) by (by rewrite <- Hclimb). clear Hclimb.
      destruct (search _ _ _ _ _ _) as [[?|]|]; [|done|]; intuition congruence.
Qed.
Lemma is_subsumed_abstains s axis child ancestor :
  is_subsumed s axis child ancestor = None ↔
    ¬ declared s axis ∨ default_member s axis ≠ Some child ∧ (¬ known s axis child ∨ ¬ known s axis ancestor).
Proof using order_of_elements. apply is_subsumed_cases. Qed.
Lemma is_subsumed_true s axis child ancestor :
  is_subsumed s axis child ancestor = Some true ↔
    declared s axis ∧ known s axis child ∧ known s axis ancestor ∧ contained s axis child ancestor.
Proof using order_of_elements. apply is_subsumed_cases. Qed.

Lemma subsumed_by_other_spec s axis member others b :
  subsumed_by_other s axis member others = Some b →
  if b then ∃ other, other ∈ others ∧ other ≠ member ∧ is_subsumed s axis member other = Some true
  else ∀ other, other ∈ others → other ≠ member → is_subsumed s axis member other = Some false.
Proof.
  induction others as [|other others IH]; simpl.
  - intros [= <-] ? H. inversion H.
  - case_decide as E.
    + intros H. specialize (IH H). destruct b.
      * destruct IH as (o & ? & ? & ?). exists o. split_and!; [by right|done..].
      * intros o [->|Ho]%elem_of_cons Hne; [done|by apply IH].
    + destruct (is_subsumed s axis member other) as [[|]|] eqn:Hs; [| |done].
      * intros [= <-]. exists other. split_and!; [left|done..].
      * intros H. specialize (IH H). destruct b.
        -- destruct IH as (o & ? & ? & ?). exists o. split_and!; [by right|done..].
        -- intros o [->|Ho]%elem_of_cons Hne; [done|by apply IH].
Qed.
Lemma frontier_from_spec s axis all members kept :
  frontier_from s axis all members = Some kept →
  kept `sublist_of` members ∧
  ∀ m, m ∈ members →
    if decide (m ∈ kept) then ∀ other, other ∈ all → other ≠ m → is_subsumed s axis m other = Some false
    else ∃ other, other ∈ all ∧ other ≠ m ∧ is_subsumed s axis m other = Some true.
Proof.
  revert kept. induction members as [|m members IH]; intros kept; simpl.
  { intros [= <-]. split; [constructor|]. intros m Hm. inversion Hm. }
  intros (b & Hb & H)%bind_Some. apply bind_Some in H as (rest & Hrest & [= <-]).
  destruct (IH rest Hrest) as [Hsub Hin]. pose proof (subsumed_by_other_spec _ _ _ _ _ Hb) as Hspec.
  split; [destruct b; by constructor|]. intros x Hx.
  destruct (decide (x = m)) as [->|Hxm].
  - destruct b; [|by rewrite decide_True by left]. rewrite decide_False; [done|]. intros Hmr.
    specialize (Hin m (elem_of_sublist _ _ _ Hmr Hsub)). rewrite decide_True in Hin by done.
    destruct Hspec as (o & Ho & Hne & Hs). by rewrite (Hin o Ho Hne) in Hs.
  - apply elem_of_cons in Hx as [?|Hx]; [done|]. specialize (Hin x Hx). destruct b; [done|].
    destruct (decide (x ∈ rest)) as [Hr|Hr]; [rewrite decide_True by (by right); done|].
    rewrite decide_False by (intros [?|?]%elem_of_cons; done). done.
Qed.

Lemma not_subsumed s axis child ancestor :
  child ≠ ancestor → is_subsumed s axis child ancestor = Some false → ¬ contained s axis child ancestor.
Proof using order_of_elements.
  intros Hne Hs Hc. pose proof (is_subsumed_true s axis child ancestor) as Htrue. pose proof (is_subsumed_abstains s axis child ancestor) as Hnone.
  rewrite Hs in Htrue, Hnone.
  destruct (decide (default_member s axis = Some child)) as [E|E].
  - unfold contained in Hc. rewrite E in Hc. intuition congruence.
  - assert (known s axis child) by (rewrite <- known_spec; destruct (_known s axis child) eqn:Hk; [done|];
      rewrite <- !known_spec in Hnone; intuition congruence).
    assert (known s axis ancestor) by (rewrite <- known_spec; destruct (_known s axis ancestor) eqn:Hk; [done|];
      rewrite <- !known_spec in Hnone; intuition congruence).
    assert (declared s axis) by (destruct (decide (declared s axis)); [done|]; intuition congruence).
    intuition congruence.
Qed.

Lemma frontier_sublist s axis members kept : frontier s axis members = Some kept → kept `sublist_of` members.
Proof. by intros [? _]%frontier_from_spec. Qed.

(** When the code does not abstain, the frontier of listed members keeps exactly those that
    no other listed member contains. *)
Theorem frontier_is_antichain s axis members kept :
  frontier s axis members = Some kept →
  kept `sublist_of` members ∧
  ∀ m, m ∈ kept ↔ m ∈ members ∧ ¬ ∃ other, other ∈ members ∧ other ≠ m ∧ contained s axis m other.
Proof using order_of_elements.
  intros [Hsub Hin]%frontier_from_spec. split; [done|]. intros m. split.
  - intros Hm. assert (m ∈ members) as Hmm by (by eapply elem_of_sublist). split; [done|].
    intros (o & Ho & Hne & Hc). specialize (Hin m Hmm). rewrite decide_True in Hin by done.
    by apply (not_subsumed s axis m o (not_eq_sym Hne) (Hin o Ho Hne)).
  - intros [Hmm Hno]. specialize (Hin m Hmm). destruct (decide (m ∈ kept)) as [|Hk]; [done|].
    destruct Hin as (o & Ho & Hne & Hs%is_subsumed_true). destruct Hno. exists o. tauto.
Qed.
End subsumption.

(** ** Example: an axis whose member All holds Alpha and Beta *)

Definition demo_arc (parent child role : string) : DefinitionArc :=
  mkArc parent child ("http://xbrl.org/int/dim/arcrole/" +:+ role) None None None None None None.
Definition demo_subsumption : MemberSubsumption := subsumption_of
  [demo_arc "Axis" "Domain" "dimension-domain"; demo_arc "Axis" "Domain" "dimension-default";
   demo_arc "Domain" "All" "domain-member"; demo_arc "All" "Alpha" "domain-member"; demo_arc "All" "Beta" "domain-member"].
Example demo_frontier : frontier elements demo_subsumption "Axis" ["All"; "Alpha"; "Beta"] = Some ["All"].
Proof. vm_compute. reflexivity. Qed.
Lemma elements_self : ∀ X : gset string, elements X ≡ₚ elements X.
Proof. reflexivity. Qed.
Lemma frontier_is_antichain_witness :
  ["All"] `sublist_of` ["All"; "Alpha"; "Beta"] ∧ ¬ contained demo_subsumption "Axis" "All" "Alpha".
Proof.
  destruct (frontier_is_antichain elements elements_self _ _ _ _ demo_frontier) as [Hsub Hin].
  split; [exact Hsub|]. intros Hc. apply (proj1 (Hin "All")); [left|]. exists "Alpha".
  split; [right; left|]. split; [discriminate|exact Hc].
Defined.
