(* ===== verification/PartitionSearch.v ===== *)
(** * Members that make up a total: [engine/xbrl/evidence/partitions.py]

    The members filed for an axis are classified by which sets of them reproduce the total: the
    frontier of the arcs first, then a branch-and-bound search over subsets.  Amounts are
    floats; every member looked up is a key of the amounts, as in the code.  The search's
    counter and cap are threaded through its calls. *)
From S2P Require Import Prelude Binary64 Closures Subsumption.

(** ** Identities: the first functions of [engine/xbrl/solve/identities.py] *)

Definition identity_discrepancy (reported computed : option float) : option float :=
  match reported, computed with Some r, Some c => Some (fsub r c) | _, _ => None end.
Definition identity_verified (reported computed : option float) (tolerance : float) : option bool :=
  gap ← identity_discrepancy reported computed; Some (fle (fabs gap) tolerance).
Definition signed_rollforward_total (opening : option float) (components : list (option float * float)) : option float :=
  total ← opening;
  Some (foldl (λ total c, match c.1 with Some value => fadd total (fmul c.2 value) | None => total end) total components).

(** The default tolerance, 1.0. *)
Definition one : float := float_of_Z 1.
Definition verified (total computed : float) : bool := fle (fabs (fsub total computed)) one.
Lemma verified_spec total computed : identity_verified (Some total) (Some computed) one = Some (verified total computed).
Proof. done. Qed.

(** ** Classification *)

Inductive partition_kind := CLEAN_PARTITION | OVERLAPPING_PARTITIONS | NESTED_MEMBERS | INCOMPLETE | OVER_UNEXPLAINED.
Inductive partition_basis := BASIS_ARCS | BASIS_ARCLESS.
#[global] Instance kind_eq_dec : EqDecision partition_kind.
Proof. solve_decision. Defined.
#[global] Instance basis_eq_dec : EqDecision partition_basis.
Proof. solve_decision. Defined.

Definition MAX_ENUM_MEMBERS : nat := 32.
Definition MAX_ENUM_NODES : Z := 10000000.
Definition _MAX_PARTITIONS : nat := 16.
Definition _MAX_CANDIDATES : nat := 64.

Record PartitionClassification := mkClassification {
  kind : partition_kind;
  partitions : list (list string);
  subsumed : list string;
  basis : partition_basis;
  enumeration_capped : bool;
}.

Definition amounts : Type := gmap string float.
Definition value_of (values : amounts) (m : string) : float := default S754_nan (values !! m).
Definition sorted_strings (l : list string) : list string := merge_sort String.le l.

(** [tuple(dict.fromkeys(l))]: without repetitions, in the order of first occurrences. *)
Definition fromkeys (l : list (list string)) : list (list string) := reverse (remove_dups (reverse l)).

(** The key [(-len(part), part)]. *)
Definition finer (p q : list string) : Prop := length q < length p ∨ length p = length q ∧ strings_le p q.
#[global] Instance finer_dec : RelDecision finer.
Proof. intros p q. unfold finer. apply _. Defined.
Definition _sorted_partitions (found : list (list string)) : list (list string) := merge_sort finer (fromkeys found).
Definition _ordered (found : list (list string)) : list (list string) := take _MAX_PARTITIONS (_sorted_partitions found).

Definition share_member (p : list string) (used : list string) : bool := existsb (λ m, bool_decide (m ∈ used)) p.
Fixpoint greedy (used : list string) (parts : list (list string)) : list (list string) :=
  match parts with
  | [] => []
  | part :: parts => if share_member part used then greedy used parts else part :: greedy (part ++ used) parts
  end.
Definition _disjoint_family (parts : list (list string)) : list (list string) := greedy [] (_sorted_partitions parts).
Definition _has_disjoint_pair (parts : list (list string)) : bool := (2 <=? length (_disjoint_family parts))%nat.

(** ** The search *)

Record search_state := mkSearch { nodes : Z; capped : bool; found : list (list string) }.

(** [suffix[index]] for the members from [index] on. *)
Fixpoint suffix (rest : list (string * float)) : float :=
  match rest with [] => float_of_Z 0 | (_, v) :: rest => fadd (suffix rest) (fabs v) end.

(** The check of the current choice; the boolean tells to return. *)
Definition record_choice (total : float) (want : nat) (chosen : list string) (current : float) (st : search_state) :
    search_state * bool :=
  if negb (bool_decide (chosen = [])) && verified total current then
    let part := sorted_strings chosen in
    if decide (part ∈ found st) then (st, false)
    else let found' := found st ++ [part] in (mkSearch (nodes st) (capped st) found', (want <=? length found')%nat)
  else (st, false).
Fixpoint visit (total : float) (want : nat) (rest : list (string * float)) (chosen : list string) (current : float)
    (st : search_state) : search_state :=
  if capped st || (want <=? length (found st))%nat then st
  else if (MAX_ENUM_NODES <? nodes st + 1)%Z then mkSearch (nodes st + 1) true (found st)
  else
    let '(st, full) := record_choice total want chosen current (mkSearch (nodes st + 1) (capped st) (found st)) in
    if full : bool then st else
    match rest with
    | [] => st
    | (m, v) :: rest' =>
        if flt one (fsub (fabs (fsub total current)) (suffix rest)) then st
        else
          let st := visit total want rest' (chosen ++ [m]) (fadd current v) st in
          visit total want rest' chosen current st
    end.

Definition _collect_partitions (values : amounts) (members : list string) (total : float) (nodes : Z) (capped : bool)
    (want : nat) : search_state :=
  visit total want ((λ m, (m, value_of values m)) <$> members) [] (float_of_Z 0) (mkSearch nodes capped []).

(** The key [(-abs(value), member)]. *)
Definition larger (values : amounts) (a b : string) : Prop :=
  let x := fneg (fabs (value_of values a)) in let y := fneg (fabs (value_of values b)) in
  if feq x y then String.le a b else flt x y = true.
#[global] Instance larger_dec values : RelDecision (larger values).
Proof. intros a b. unfold larger. cbv zeta. destruct (feq _ _); apply _. Defined.

Definition _enumerate_partitions (values : amounts) (work : list string) (total : float) : list (list string) * bool :=
  let members := merge_sort (larger values) work in
  if (MAX_ENUM_MEMBERS <? length members)%nat then ([], true)
  else
    let first := _collect_partitions values members total 0 false 1 in
    match found first with
    | [] => ([], capped first)
    | pivot :: _ =>
        let complement := filter (λ m, m ∉ pivot) members in
        let second := _collect_partitions values complement total (nodes first) (capped first) 1 in
        let rest := _collect_partitions values members total (nodes second) (capped second) _MAX_CANDIDATES in
        let capped := capped rest || (_MAX_CANDIDATES <=? length (found rest))%nat in
        match found second with
        | [] => (fromkeys (found rest), capped)
        | other :: _ => (fromkeys (pivot :: other :: found rest), capped)
        end
    end.

Section classify.
Context (order_of : gset string → list string).

(** [if subsumption.is_subsumed(...)]: an abstention counts as no. *)
Definition level_rank (s : MemberSubsumption) (axis : string) (work : list string) (member : string) : nat :=
  length (filter (λ other, other ≠ member ∧ is_subsumed order_of s axis member other = Some true) work).
Definition level_of (s : MemberSubsumption) (axis : string) (work : list string) (rank : nat) : list string :=
  filter (λ m, level_rank s axis work m = rank) work.
Definition sum_of (values : amounts) (members : list string) : float := py_sum (value_of values <$> members).
Definition _level_partitions (values : amounts) (work : list string) (total : float) (axis : option string)
    (subsumption : option MemberSubsumption) : list (list string) :=
  match subsumption, axis with
  | Some s, Some axis =>
      let ranks := merge_sort Nat.le (remove_dups (level_rank s axis work <$> work)) in
      filter (λ group, verified total (sum_of values group) = true) ((λ rank, sorted_strings (level_of s axis work rank)) <$> ranks)
  | _, _ => []
  end.

Definition is_nonzero (values : amounts) (m : string) : bool := negb (feq (value_of values m) (float_of_Z 0)).
(** The signs of the members that are not 0 are one. *)
Definition one_sign (values : amounts) (work : list string) : bool :=
  let signs := (λ m, flt (float_of_Z 0) (value_of values m)) <$> filter (λ m, is_nonzero values m = true) work in
  match remove_dups signs with [_] => true | _ => false end.
Definition _unique_clean (values : amounts) (work : list string) (total work_sum : float) : bool :=
  verified total work_sum && one_sign values work && forallb (is_nonzero values) work.

(** The members in order, what the arcs make of them, and what is left to work with. *)
Definition filed_members (values : amounts) : list string := sorted_strings (elements (dom values)).
Definition arc_frontier (values : amounts) (axis : option string) (subsumption : option MemberSubsumption) : option (list string) :=
  match subsumption, axis with Some s, Some axis => frontier order_of s axis (filed_members values) | _, _ => None end.
Definition work_members (values : amounts) (axis : option string) (subsumption : option MemberSubsumption) : list string :=
  default (filed_members values) (arc_frontier values axis subsumption).
Definition nonzero_members (values : amounts) (work : list string) : list string :=
  filter (λ m, is_nonzero values m = true) work.
(** The verdict on the partitions that were recorded. *)
Definition verdict (nonzero : list string) (total work_sum : float) (capped : bool) (partitions : list (list string)) : partition_kind :=
  if _has_disjoint_pair partitions then OVERLAPPING_PARTITIONS
  else match partitions with
       | [p] => if bool_decide (list_to_set p =@{gset string} list_to_set nonzero) && negb capped
                then CLEAN_PARTITION else OVER_UNEXPLAINED
       | _ :: _ => OVER_UNEXPLAINED
       | [] => if flt work_sum (fsub total one) then INCOMPLETE else OVER_UNEXPLAINED
       end.
Definition recorded (found : list (list string)) : list (list string) :=
  take _MAX_PARTITIONS (fromkeys (_disjoint_family found ++ _ordered found)).

Definition classify_partitions (values : amounts) (total : float) (axis : option string)
    (subsumption : option MemberSubsumption) : PartitionClassification :=
  let filed := filed_members values in
  let basis := match subsumption, axis with Some _, Some _ => BASIS_ARCS | _, _ => BASIS_ARCLESS end in
  let frontier := arc_frontier values axis subsumption in
  let subsumed := match frontier with Some keep => filter (λ m, m ∉ keep) filed | None => [] end in
  if bool_decide (filed = []) then mkClassification INCOMPLETE [] [] basis false
  else
    let work := work_members values axis subsumption in
    if negb (bool_decide (frontier = None)) && negb (bool_decide (subsumed = [])) && verified total (sum_of values work)
    then mkClassification NESTED_MEMBERS [sorted_strings work] subsumed basis false
    else
      let work_sum := sum_of values work in
      let nonzero := nonzero_members values work in
      if _unique_clean values work total work_sum then mkClassification CLEAN_PARTITION [sorted_strings work] subsumed basis false
      else
        let '(enumerated, capped) := _enumerate_partitions values nonzero total in
        let found := if capped && negb (_has_disjoint_pair enumerated)
                     then enumerated ++ _level_partitions values work total axis subsumption else enumerated in
        let partitions := recorded found in
        mkClassification (verdict nonzero total work_sum capped partitions) partitions subsumed basis capped.
End classify.

(** ** The search on exact amounts *)

Lemma total_app l k : total (l ++ k) = (total l + total k)%Z.
Proof. induction l as [|x l IH]; [done|]. cbn [app]. rewrite !total_cons, IH. lia. Qed.
Lemma total_abs_app l k : total_abs (l ++ k) = (total_abs l + total_abs k)%Z.
Proof. induction l as [|x l IH]; [done|]. cbn [app]. rewrite !total_abs_cons, IH. lia. Qed.
Lemma total_abs_nonneg l : (0 <= total_abs l)%Z.
Proof. pose proof (total_bound l). lia. Qed.
Lemma total_abs_sublist (v : string → Z) l k : l `sublist_of` k → (total_abs (v <$> l) <= total_abs (v <$> k))%Z.
Proof. induction 1; rewrite ?fmap_cons, ?total_abs_cons; lia. Qed.
#[global] Instance total_Permutation : Proper (Permutation ==> eq) total.
Proof. intros l k. induction 1; rewrite ?total_cons; try lia. Qed.
#[global] Instance total_abs_Permutation : Proper (Permutation ==> eq) total_abs.
Proof. intros l k. induction 1; rewrite ?total_abs_cons; try lia. Qed.

Section exact.
Context (e : Z) (He : (-52 <= e <= 0)%Z).
(** The amounts and the total, in units of [2 ^ e]. *)
Context (v : string → Z) (t : Z).

#[local] Abbreviation tolerance := (2 ^ (- e))%Z.
Lemma exact_exponent : grid_exponent e.
Proof using He. unfold grid_exponent. lia. Qed.
Lemma tolerance_small : small tolerance.
Proof using He. unfold small. rewrite Z.abs_eq by (apply Z.pow_nonneg; lia). apply Z.pow_lt_mono_r; lia. Qed.
Lemma one_exact : one = grid e tolerance.
Proof using He.
  unfold one, float_of_Z. rewrite <- (normalize_exact 1 0 (- e)); [|lia|done|done].
  by rewrite Z.mul_1_l, Z.sub_opp_r, Z.add_0_l.
Qed.
Lemma verified_exact s : small s → small (t - s) → small t → verified (grid e t) (grid e s) = (Z.abs (t - s) <=? tolerance)%Z.
Proof using He.
  intros Hs Hd Ht. pose proof exact_exponent. pose proof tolerance_small. unfold verified.
  rewrite one_exact, grid_sub, grid_abs, grid_le by (done || (unfold small in *; lia)). done.
Qed.

(** A choice of members reproduces the total. *)
Definition hits (chosen : list string) : Prop := chosen ≠ [] ∧ (Z.abs (t - total (v <$> chosen)) <= tolerance)%Z.
Definition with_values (members : list string) : list (string * float) := (λ m, (m, grid e (v m))) <$> members.

Lemma suffix_exact rest : (total_abs (v <$> rest) < 2 ^ 53)%Z → suffix (with_values rest) = grid e (total_abs (v <$> rest)).
Proof using He.
  pose proof exact_exponent as Hexp. induction rest as [|m rest IH]; intros Hb; [done|].
  unfold with_values in *. rewrite !fmap_cons, total_abs_cons in *. pose proof (total_abs_nonneg (v <$> rest)).
  cbn [suffix]. rewrite IH, grid_abs, grid_add by (done || (unfold small; lia) || lia). f_equal. lia.
Qed.

Lemma record_choice_spec want chosen st st' full :
  (Z.abs t + total_abs (v <$> chosen) < 2 ^ 53)%Z → length (found st) < want →
  record_choice (grid e t) want chosen (grid e (total (v <$> chosen))) st = (st', full) →
  capped st' = capped st ∧ length (found st') ≤ want ∧
  (∃ new, found st' = found st ++ new ∧ ∀ p, p ∈ new → p = sorted_strings chosen ∧ hits chosen) ∧
  (hits chosen → sorted_strings chosen ∈ found st') ∧
  (if full then want ≤ length (found st') else length (found st') < want).
Proof using He.
  intros Hb Hlen. pose proof (total_bound (v <$> chosen)) as Htot. unfold record_choice.
  rewrite verified_exact by (unfold small; lia).
  destruct (negb _ && _) eqn:Hhit.
  - apply andb_true_iff in Hhit as [Hne%negb_true_iff%bool_decide_eq_false Htol%Z.leb_le].
    case_decide as Hin; intros [= <- <-]; simpl.
    + split_and!; [done|lia| |done|done]. exists []. rewrite app_nil_r. split; [done|]. intros p Hp. inversion Hp.
    + rewrite length_app. simpl. split_and!; [done|lia| | |].
      * exists [sorted_strings chosen]. split; [done|]. intros p Hp%list_elem_of_singleton. by split.
      * intros _. apply elem_of_app. right. by apply list_elem_of_singleton.
      * destruct (Nat.leb_spec want (length (found st) + 1)); lia.
  - intros [= <- <-]. split_and!; [done|lia| | |done].
    + exists []. rewrite app_nil_r. split; [done|]. intros p Hp. inversion Hp.
    + intros [Hne Htol]. rewrite bool_decide_eq_false_2 in Hhit by done. simpl in Hhit. apply Z.leb_gt in Hhit. lia.
Qed.

(** What [visit] keeps and finds. *)
Definition visit_result (want : nat) (rest chosen : list string) (st st' : search_state) : Prop :=
  (capped st = true → capped st' = true) ∧
  (∃ new, found st' = found st ++ new ∧
     ∀ p, p ∈ new → ∃ sub, sub `sublist_of` rest ∧ p = sorted_strings (chosen ++ sub) ∧ hits (chosen ++ sub)) ∧
  (length (found st) ≤ want → length (found st') ≤ want) ∧
  (capped st' = false → length (found st') < want →
     ∀ sub, sub `sublist_of` rest → hits (chosen ++ sub) → sorted_strings (chosen ++ sub) ∈ found st').

Lemma visit_result_same want rest chosen st : (capped st = true ∨ want ≤ length (found st)) → visit_result want rest chosen st st.
Proof.
  intros H. split_and!; [done| |done|].
  - exists []. rewrite app_nil_r. split; [done|]. intros p Hp. inversion Hp.
  - intros Hc Hl. destruct H; [congruence|lia].
Qed.
(** Nothing is found below a pruned choice. *)
Lemma pruned_hits rest chosen sub :
  (Z.abs (t - total (v <$> chosen)) - total_abs (v <$> rest) > tolerance)%Z → sub `sublist_of` rest → ¬ hits (chosen ++ sub).
Proof.
  intros Hp Hsub [_ Htol]. rewrite fmap_app, total_app in Htol. pose proof (total_abs_sublist v _ _ Hsub).
  pose proof (total_bound (v <$> sub)). lia.
Qed.

(** What a call of [visit] does before it looks at the next member. *)
Definition guarded (want : nat) (chosen : list string) (st : search_state) (body : search_state → search_state) : search_state :=
  if capped st || (want <=? length (found st))%nat then st
  else if (MAX_ENUM_NODES <? nodes st + 1)%Z then mkSearch (nodes st + 1) true (found st)
  else
    let '(st, full) := record_choice (grid e t) want chosen (grid e (total (v <$> chosen)))
                         (mkSearch (nodes st + 1) (capped st) (found st)) in
    if full : bool then st else body st.
Lemma guarded_result want rest chosen st body :
  (Z.abs t + total_abs (v <$> chosen) < 2 ^ 53)%Z →
  (∀ st1, length (found st1) < want → (hits chosen → sorted_strings chosen ∈ found st1) →
     visit_result want rest chosen st1 (body st1)) →
  visit_result want rest chosen st (guarded want chosen st body).
Proof using He.
  intros Hb Hbody. unfold guarded. destruct (_ || _) eqn:Hstop.
  { apply visit_result_same. apply orb_true_iff in Hstop as [?|?%Nat.leb_le]; auto. }
  apply orb_false_iff in Hstop as [Hcap Hlen%Nat.leb_gt]. destruct (_ <? _)%Z.
  { split_and!; [done| |done|done]. exists []. rewrite app_nil_r. split; [done|]. intros p Hp. inversion Hp. }
  destruct (record_choice _ _ _ _ _) as [st1 full] eqn:Hrec.
  apply record_choice_spec in Hrec as (Hcap1 & Hlen1 & (new & Hnew & Hnewin) & Hin1 & Hfull); [|done|done].
  simpl in Hcap1, Hnew.
  assert (∀ p, p ∈ new → ∃ sub, sub `sublist_of` rest ∧ p = sorted_strings (chosen ++ sub) ∧ hits (chosen ++ sub)) as Hnew'.
  { intros p Hp. destruct (Hnewin p Hp) as [-> Hh]. exists []. rewrite app_nil_r. split; [apply sublist_nil_l|done]. }
  destruct full.
  - split_and!; [congruence|by exists new|done|lia].
  - destruct (Hbody st1 Hfull Hin1) as (H1 & (new' & H2 & H2') & H3 & H4). split_and!; [congruence| |lia|done].
    exists (new ++ new'). rewrite H2, Hnew, app_assoc. split; [done|]. intros p [Hp|Hp]%elem_of_app; auto.
Qed.

Lemma visit_spec want rest chosen st :
  (Z.abs t + total_abs (v <$> chosen) + total_abs (v <$> rest) < 2 ^ 53)%Z →
  visit_result want rest chosen st (visit (grid e t) want (with_values rest) chosen (grid e (total (v <$> chosen))) st).
Proof using He.
  pose proof exact_exponent as Hexp. pose proof tolerance_small as Htol.
  revert chosen st. induction rest as [|m rest IH]; intros chosen st Hb;
    pose proof (total_bound (v <$> chosen)) as Htot; pose proof (total_abs_nonneg (v <$> chosen)) as Hpos.
  { apply (guarded_result want [] chosen st (λ st, st)); [cbn in Hb; lia|]. intros st1 Hlen1 Hin1. split_and!; [done| |done|].
    - exists []. rewrite app_nil_r. split; [done|]. intros p Hp. inversion Hp.
    - intros _ _ sub ->%sublist_nil_r. by rewrite app_nil_r. }
  apply (guarded_result want (m :: rest) chosen st (λ st,
    if flt one (fsub (fabs (fsub (grid e t) (grid e (total (v <$> chosen))))) (suffix (with_values (m :: rest)))) then st
    else visit (grid e t) want (with_values rest) chosen (grid e (total (v <$> chosen)))
      (visit (grid e t) want (with_values rest) (chosen ++ [m]) (fadd (grid e (total (v <$> chosen))) (grid e (v m))) st)));
    [pose proof (total_abs_nonneg (v <$> m :: rest)); lia|].
  intros st1 Hlen1 Hin1. pose proof (total_abs_nonneg (v <$> rest)) as Hrest.
  rewrite fmap_cons, total_abs_cons in Hb.
  rewrite suffix_exact by (rewrite fmap_cons, total_abs_cons; lia). rewrite fmap_cons, total_abs_cons.
  rewrite one_exact. rewrite !grid_sub, grid_abs, grid_sub, grid_lt by (done || (unfold small in *; lia)).
  destruct (Z.ltb_spec tolerance (Z.abs (t - total (v <$> chosen)) - (Z.abs (v m) + total_abs (v <$> rest)))) as [Hprune|_].
  { split_and!; [done| |done|].
    - exists []. rewrite app_nil_r. split; [done|]. intros p Hp. inversion Hp.
    - intros _ _ sub Hsub Hh. exfalso. eapply (pruned_hits (m :: rest)); [|exact Hsub|exact Hh].
      rewrite fmap_cons, total_abs_cons. lia. }
  rewrite grid_add by (done || (unfold small in *; lia)).
  assert (total (v <$> chosen) + v m = total (v <$> (chosen ++ [m])))%Z as Ht by (rewrite fmap_app, total_app; simpl; lia).
  rewrite Ht. assert (total_abs (v <$> (chosen ++ [m])) = total_abs (v <$> chosen) + Z.abs (v m))%Z as Ha
    by (rewrite fmap_app, total_abs_app; simpl; lia).
  set (st2 := visit _ _ _ (chosen ++ [m]) _ _).
  destruct (IH (chosen ++ [m]) st1 ltac:(lia)) as (A1 & (newA & A2 & A2') & A3 & A4). fold st2 in A1, A2, A3, A4.
  destruct (IH chosen st2 ltac:(lia)) as (B1 & (newB & B2 & B2') & B3 & B4).
  set (st3 := visit _ _ _ chosen _ st2) in *. clearbody st2 st3. split_and!; [auto| |auto|].
  - exists (newA ++ newB). rewrite B2, A2, app_assoc. split; [done|]. intros p [Hp|Hp]%elem_of_app.
    + destruct (A2' p Hp) as (sub & Hsub & -> & Hh). exists (m :: sub). rewrite <- app_assoc in *.
      split; [by constructor|done].
    + destruct (B2' p Hp) as (sub & Hsub & -> & Hh). exists sub. split; [by constructor|done].
  - intros Hcap Hlen sub Hsub Hh. assert (length (found st2) ≤ length (found st3)) by (rewrite B2, length_app; lia).
    assert (capped st2 = false) as Hcap2 by (destruct (capped st2); [by rewrite B1 in Hcap|done]).
    inversion Hsub as [|? sub' ? Hsub'|? ? ? Hsub']; subst.
    + rewrite B2. apply elem_of_app. left. specialize (A4 Hcap2 ltac:(lia) sub' Hsub'). rewrite <- app_assoc in A4. by apply A4.
    + by apply B4.
Qed.

Section values.
Context (values : amounts).
Definition exact_on (members : list string) : Prop := ∀ m, m ∈ members → values !! m = Some (grid e (v m)).
Definition within_bounds (members : list string) : Prop := (Z.abs t + total_abs (v <$> members) < 2 ^ 53)%Z.

Lemma exact_values members : exact_on members → (λ m, (m, value_of values m)) <$> members = with_values members.
Proof. intros H. apply list_fmap_ext. intros i m Hm%list_elem_of_lookup_2. unfold value_of. by rewrite H. Qed.
Lemma collect_spec members n c want :
  exact_on members → within_bounds members →
  let st := _collect_partitions values members (grid e t) n c want in
  (c = true → capped st = true) ∧ length (found st) ≤ want ∧
  (∀ p, p ∈ found st → ∃ sub, sub `sublist_of` members ∧ p = sorted_strings sub ∧ hits sub) ∧
  (capped st = false → length (found st) < want → ∀ sub, sub `sublist_of` members → hits sub → sorted_strings sub ∈ found st).
Proof using He.
  intros Hex Hb. unfold _collect_partitions. rewrite exact_values by done.
  pose proof (visit_spec want members [] (mkSearch n c []) ltac:(unfold within_bounds in Hb; simpl; lia)) as Hv.
  change (grid e (total (v <$> []))) with (float_of_Z 0) in Hv. cbv zeta. set (st := visit _ _ _ _ _ _) in *. clearbody st.
  destruct Hv as (H1 & (new & H2 & H2') & H3 & H4). cbn in H2. rewrite H2 in *.
  split_and!; [done|apply H3; simpl; lia|done|done].
Qed.

(** A set of members, in order, that reproduces the total. *)
Definition partition_of (work p : list string) : Prop := p ⊆+ work ∧ sorted_strings p = p ∧ hits p.

Lemma hits_Permutation l k : l ≡ₚ k → hits l → hits k.
Proof. intros Hlk [Hne Ht]. split; [intros ->; by apply Hne, Permutation_nil_r|]. by rewrite <- Hlk. Qed.
Lemma sorted_strings_Permutation l : sorted_strings l ≡ₚ l.
Proof. apply merge_sort_Permutation. Qed.
Lemma sorted_strings_unique l k : l ≡ₚ k → sorted_strings l = sorted_strings k.
Proof.
  intros H. apply (StronglySorted_unique String.le); [apply (StronglySorted_merge_sort String.le)..|].
  by rewrite !sorted_strings_Permutation.
Qed.
Lemma partition_of_sorted members work sub :
  members ≡ₚ work → sub `sublist_of` members → hits sub → partition_of work (sorted_strings sub).
Proof.
  intros Hperm Hsub Hh. split_and!.
  - rewrite sorted_strings_Permutation, <- Hperm. by apply sublist_submseteq.
  - apply sorted_strings_unique, sorted_strings_Permutation.
  - eapply hits_Permutation; [|exact Hh]. symmetry. apply sorted_strings_Permutation.
Qed.

Lemma elem_of_fromkeys l p : p ∈ fromkeys l ↔ p ∈ l.
Proof. unfold fromkeys. by rewrite elem_of_reverse, elem_of_remove_dups, elem_of_reverse. Qed.

Lemma enumerate_sound work found c :
  exact_on work → within_bounds work → _enumerate_partitions values work (grid e t) = (found, c) →
  ∀ p, p ∈ found → partition_of work p.
Proof using He.
  intros Hex Hb. unfold _enumerate_partitions. set (members := merge_sort (larger values) work).
  assert (members ≡ₚ work) as Hperm by apply merge_sort_Permutation. clearbody members.
  destruct (_ <? _)%nat; [intros [= <- _] p Hp; inversion Hp|].
  assert (exact_on members) as Hexm by (intros m Hm; apply Hex; by rewrite <- Hperm).
  assert (within_bounds members) as Hbm by (unfold within_bounds; by rewrite Hperm).
  assert (∀ k n c want, k `sublist_of` members →
    ∀ p, p ∈ PartitionSearch.found (_collect_partitions values k (grid e t) n c want) → partition_of work p) as Hcollect.
  { intros k n c' want Hk p Hp.
    destruct (collect_spec k n c' want) as (_ & _ & Hsound & _);
      [intros m Hm; apply Hexm; by eapply elem_of_sublist|unfold within_bounds in *; pose proof (total_abs_sublist v _ _ Hk); lia|].
    destruct (Hsound p Hp) as (sub & Hsub & -> & Hh). eapply partition_of_sorted; [exact Hperm|by etrans|done]. }
  destruct (PartitionSearch.found (_collect_partitions _ members _ 0 false 1)) as [|pivot rest1] eqn:H1.
  { intros [= <- _] p Hp. inversion Hp. }
  assert (partition_of work pivot) as Hpivot by (eapply (Hcollect members 0%Z false 1 ltac:(done)); rewrite H1; left).
  set (second := _collect_partitions _ (filter _ members) _ _ _ _).
  set (rest := _collect_partitions _ members _ (nodes second) _ _).
  assert (∀ p, p ∈ PartitionSearch.found rest → partition_of work p) as Hrest by (by apply Hcollect).
  assert (∀ p, p ∈ PartitionSearch.found second → partition_of work p) as Hsecond
    by (apply Hcollect, sublist_filter).
  destruct (PartitionSearch.found second) as [|other rest2]; intros [= <- _] p.
  - rewrite elem_of_fromkeys. apply Hrest.
  - rewrite elem_of_fromkeys, !elem_of_cons. intros [->|[->|Hp]]; [done|apply Hsecond; left|by apply Hrest].
Qed.

Lemma enumerate_complete work found p :
  exact_on work → within_bounds work → _enumerate_partitions values work (grid e t) = (found, false) →
  partition_of work p → p ∈ found.
Proof using He.
  intros Hex Hb Hrun (Hsub & Hsorted & Hh). revert Hrun. unfold _enumerate_partitions. set (members := merge_sort (larger values) work).
  assert (members ≡ₚ work) as Hperm by apply merge_sort_Permutation. clearbody members.
  destruct (_ <? _)%nat; [done|].
  assert (exact_on members) as Hexm by (intros m Hm; apply Hex; by rewrite <- Hperm).
  assert (within_bounds members) as Hbm by (unfold within_bounds; by rewrite Hperm).
  rewrite <- Hperm in Hsub. apply submseteq_sublist_r in Hsub as (sub & Hps & Hsl).
  assert (hits sub) as Hhs by (eapply hits_Permutation; [|exact Hh]; done).
  assert (sorted_strings sub = p) as Hsp by (rewrite <- Hsorted; by apply sorted_strings_unique).
  assert (∀ n c want, capped (_collect_partitions values members (grid e t) n c want) = false →
    length (PartitionSearch.found (_collect_partitions values members (grid e t) n c want)) < want →
    p ∈ PartitionSearch.found (_collect_partitions values members (grid e t) n c want)) as Hcomplete.
  { intros n c want Hc Hl. destruct (collect_spec members n c want Hexm Hbm) as (_ & _ & _ & Hfind).
    rewrite <- Hsp. by apply Hfind. }
  specialize (Hcomplete 0%Z false 1) as Hfirst.
  destruct (PartitionSearch.found (_collect_partitions _ members _ 0 false 1)) as [|pivot rest1] eqn:H1.
  { intros [= <- Hc]. apply Hfirst; [done|simpl; lia]. }
  set (second := _collect_partitions _ (filter _ members) _ _ _ _).
  specialize (Hcomplete (nodes second) (capped second) _MAX_CANDIDATES).
  set (rest := _collect_partitions _ members _ (nodes second) _ _) in *.
  assert (∀ f f' : list (list string), (∀ q, q ∈ PartitionSearch.found rest → q ∈ f') →
    (f', capped rest || (_MAX_CANDIDATES <=? length (PartitionSearch.found rest))%nat) = (f, false) → p ∈ f) as Hdone.
  { intros f f' Hf'. destruct (capped rest); [done|]. destruct (Nat.leb_spec _MAX_CANDIDATES (length (PartitionSearch.found rest))) as [|Hl]; [done|].
    intros [= <-]. apply Hf'. by apply Hcomplete. }
  destruct (PartitionSearch.found second) as [|other rest2]; apply Hdone; intros q Hq;
    rewrite elem_of_fromkeys, ?elem_of_cons; auto.
Qed.
(** C31: the branch-and-bound search finds, unless it reports that it was capped, exactly the
    sets of members that reproduce the total: pruning loses none.  Amounts are multiples of a
    power of two of up to 53 bits together. *)
Theorem enumeration_is_exhaustive work found :
  exact_on work → within_bounds work → _enumerate_partitions values work (grid e t) = (found, false) →
  ∀ p, p ∈ found ↔ partition_of work p.
Proof using He. intros Hex Hb Hrun p. split; [by eapply enumerate_sound|by eapply enumerate_complete]. Qed.

(** ** Verdicts *)

Lemma greedy_spec used parts p : p ∈ greedy used parts → p ∈ parts ∧ ∀ m, m ∈ p → m ∉ used.
Proof.
  revert used. induction parts as [|q parts IH]; intros used; simpl; [intros H; inversion H|].
  destruct (share_member q used) eqn:Hs; [intros [? ?]%IH; split; [by right|done]|].
  intros [->|Hp]%elem_of_cons; [split; [left|]|].
  - intros m Hm Hu. unfold share_member in Hs. assert (existsb (λ m, bool_decide (m ∈ used)) q = true) as Ht; [|congruence].
    apply existsb_exists. exists m. by rewrite <- list_elem_of_In, bool_decide_eq_true.
  - apply IH in Hp as [Hp Hd]. split; [by right|]. intros m Hm Hu. apply (Hd m Hm), elem_of_app. by right.
Qed.
Lemma elem_of_sorted_partitions parts p : p ∈ _sorted_partitions parts ↔ p ∈ parts.
Proof. unfold _sorted_partitions. by rewrite merge_sort_Permutation, elem_of_fromkeys. Qed.
Lemma disjoint_pair_sound parts :
  _has_disjoint_pair parts = true → ∃ a b, a ∈ parts ∧ b ∈ parts ∧ ∀ m, m ∈ a → m ∉ b.
Proof.
  unfold _has_disjoint_pair, _disjoint_family. setoid_rewrite <- (elem_of_sorted_partitions parts).
  generalize (_sorted_partitions parts). intros l Hlen%Nat.leb_le. revert Hlen. generalize (@nil string).
  induction l as [|a l IH]; intros used; simpl; [lia|]. destruct (share_member a used).
  - intros Hlen. destruct (IH used Hlen) as (x & y & Hx & Hy & Hd). exists x, y. split_and!; [by right..|done].
  - simpl. destruct (greedy (a ++ used) l) as [|b rest] eqn:Hg; [simpl; lia|]. intros _.
    destruct (greedy_spec (a ++ used) l b) as [Hb Hd]; [rewrite Hg; left|].
    exists a, b. split_and!; [left|by right|]. intros m Hma Hmb. apply (Hd m Hmb), elem_of_app. by left.
Qed.
Lemma elem_of_recorded found p : p ∈ recorded found → p ∈ found.
Proof.
  unfold recorded, _ordered, _disjoint_family. intros Hp.
  assert (p ∈ fromkeys (greedy [] (_sorted_partitions found) ++ take _MAX_PARTITIONS (_sorted_partitions found))) as H
    by (apply list_elem_of_lookup in Hp as [i Hi]; apply lookup_take_Some in Hi as [Hi _]; by eapply list_elem_of_lookup_2).
  apply elem_of_fromkeys, elem_of_app in H as [H|H]; apply elem_of_sorted_partitions.
  - by apply greedy_spec in H as [? _].
  - apply list_elem_of_lookup in H as [i Hi]. apply lookup_take_Some in Hi as [Hi _]. by eapply list_elem_of_lookup_2.
Qed.

Section verdicts.
Context (order_of : gset string → list string) (axis : option string) (subsumption : option MemberSubsumption).
Context (Hexact : exact_on (filed_members values)) (Hbounds : within_bounds (filed_members values)).
#[local] Abbreviation work := (work_members order_of values axis subsumption).
#[local] Abbreviation result := (classify_partitions order_of values (grid e t) axis subsumption).

(** In order and with the total as its sum; maybe empty. *)
Definition reproduces (p : list string) : Prop :=
  p ⊆+ filed_members values ∧ sorted_strings p = p ∧ (Z.abs (t - total (v <$> p)) <= tolerance)%Z.

Lemma work_sublist : work `sublist_of` filed_members values.
Proof.
  unfold work_members, arc_frontier. destruct subsumption as [s|], axis as [ax|]; try done.
  destruct (frontier order_of s ax _) eqn:E; [|done]. by apply frontier_sublist in E.
Qed.
Lemma sublist_exact l : l `sublist_of` filed_members values → exact_on l ∧ within_bounds l.
Proof using Hexact Hbounds.
  intros Hl. split; [intros m Hm; apply Hexact; by eapply elem_of_sublist|].
  unfold within_bounds in *. pose proof (total_abs_sublist v _ _ Hl). lia.
Qed.
Lemma sum_exact l : l `sublist_of` filed_members values → verified (grid e t) (sum_of values l) = (Z.abs (t - total (v <$> l)) <=? tolerance)%Z.
Proof using He Hexact Hbounds.
  intros Hl. destruct (sublist_exact l Hl) as [Hex Hb]. unfold within_bounds in Hb. pose proof (total_bound (v <$> l)).
  unfold sum_of. replace (value_of values <$> l) with (grid e <$> (v <$> l)).
  - rewrite grid_sum by (apply exact_exponent || (pose proof (Z.abs_nonneg t); lia)). apply verified_exact; unfold small; lia.
  - rewrite <- list_fmap_compose. apply list_fmap_ext. intros i m Hm%list_elem_of_lookup_2. unfold value_of. by rewrite Hex.
Qed.
Lemma sum_reproduces l : l `sublist_of` filed_members values → verified (grid e t) (sum_of values l) = true → reproduces (sorted_strings l).
Proof using He Hexact Hbounds.
  intros Hl Hv. rewrite sum_exact in Hv by done. apply Z.leb_le in Hv. split_and!.
  - rewrite sorted_strings_Permutation. by apply sublist_submseteq.
  - apply sorted_strings_unique, sorted_strings_Permutation.
  - by rewrite sorted_strings_Permutation.
Qed.
Lemma partition_reproduces p : partition_of (filed_members values) p → reproduces p.
Proof. by intros (? & ? & _ & ?). Qed.
Lemma partition_of_mono l k p : l `sublist_of` k → partition_of l p → partition_of k p.
Proof. intros Hl (Hp & ? & ?). split_and!; [|done..]. etrans; [exact Hp|by apply sublist_submseteq]. Qed.

Lemma sorted_sublist l : l `sublist_of` filed_members values → sorted_strings l = l.
Proof.
  intros Hl. apply (StronglySorted_unique String.le); [apply (StronglySorted_merge_sort String.le)| |apply sorted_strings_Permutation].
  assert (StronglySorted String.le (filed_members values)) as Hs by apply (StronglySorted_merge_sort String.le).
  revert Hl Hs. generalize (filed_members values). intros all Hl. induction Hl as [|x l k Hl IH|x l k Hl IH]; [done|..]; intros [Hs Hx]%StronglySorted_inv; [|by apply IH].
  constructor; [by apply IH|]. apply Forall_forall. intros y Hy. assert (y ∈ k) as Hyk by (by eapply elem_of_sublist).
  clear Hy. revert y Hyk. by apply Forall_forall.
Qed.
Lemma level_partition p : p ∈ _level_partitions order_of values work (grid e t) axis subsumption → partition_of (filed_members values) p.
Proof using He Hexact Hbounds.
  pose proof work_sublist as Hwork. unfold _level_partitions. destruct subsumption as [s|], axis as [ax|]; try (intros H; by inversion H).
  intros [Hv (rank & -> & Hr)%list_elem_of_fmap]%list_elem_of_filter.
  rewrite merge_sort_Permutation, elem_of_remove_dups in Hr. apply list_elem_of_fmap in Hr as (m & -> & Hm).
  set (group := level_of order_of s ax _ _) in *.
  assert (group `sublist_of` filed_members values) as Hg by (etrans; [apply sublist_filter|exact Hwork]).
  assert (m ∈ group) as Hmg by (by apply list_elem_of_filter).
  rewrite (sorted_sublist group Hg) in Hv |- *. pose proof (sum_reproduces group Hg Hv) as (Hsub & Hsorted & Hh).
  rewrite (sorted_sublist group Hg) in *. split_and!; [done..|]. split; [|done]. intros E. rewrite E in Hmg. inversion Hmg.
Qed.

(** Every partition a verdict records is a set of filed members, in order, that reproduces
    the total; and members are called overlapping only when two disjoint sets of them do. *)
Theorem recorded_partitions_reproduce :
  (∀ p, p ∈ partitions result → reproduces p) ∧
  (kind result = OVERLAPPING_PARTITIONS → ∃ a b, a ∈ partitions result ∧ b ∈ partitions result ∧
     hits a ∧ hits b ∧ ∀ m, m ∈ a → m ∉ b).
Proof using He Hexact Hbounds.
  pose proof work_sublist as Hwork. unfold classify_partitions. case_bool_decide; [simpl; split; [intros p Hp; inversion Hp|done]|].
  destruct (_ && verified _ _) eqn:Hnested.
  { apply andb_true_iff in Hnested as [_ Hv]. simpl. split; [|done]. intros p ->%list_elem_of_singleton. by apply sum_reproduces. }
  destruct (_unique_clean _ _ _ _) eqn:Hclean.
  { unfold _unique_clean in Hclean. apply andb_true_iff in Hclean as [[Hv _]%andb_true_iff _]. simpl. split; [|done].
    intros p ->%list_elem_of_singleton. by apply sum_reproduces. }
  destruct (_enumerate_partitions values _ _) as [enumerated capped] eqn:Hrun.
  assert (nonzero_members values work `sublist_of` filed_members values) as Hnz by (etrans; [apply sublist_filter|done]).
  destruct (sublist_exact _ Hnz) as [Hex Hb].
  set (found := if capped && negb (_has_disjoint_pair enumerated) then _ else enumerated).
  assert (∀ p, p ∈ found → partition_of (filed_members values) p) as Hfound.
  { assert (∀ p, p ∈ enumerated → partition_of (filed_members values) p) as Henum
      by (intros p Hp; eapply partition_of_mono; [exact Hnz|]; by eapply enumerate_sound).
    unfold found. destruct (capped && negb (_has_disjoint_pair enumerated)); [|exact Henum]. intros p [Hp|Hp]%elem_of_app; [by apply Henum|by apply level_partition]. }
  clearbody found. assert (∀ p, p ∈ recorded found → partition_of (filed_members values) p) as Hrec
    by (intros p Hp; by apply Hfound, elem_of_recorded).
  cbn [kind partitions]. split; [intros p Hp; by apply partition_reproduces, Hrec|].
  intros Hkind. destruct (disjoint_pair_sound (recorded found)) as (a & b & Ha & Hb' & Hd).
  { revert Hkind. unfold verdict. destruct (_has_disjoint_pair _); [done|].
    destruct (recorded found) as [|? [|??]]; repeat case_match; discriminate. }
  exists a, b. split_and!; [done..|apply Hrec in Ha as (_ & _ & ?); done|apply Hrec in Hb' as (_ & _ & ?); done|done].
Qed.

Lemma recorded_all found p : length (recorded found) < _MAX_PARTITIONS → p ∈ found → p ∈ recorded found.
Proof.
  unfold recorded, _ordered. intros Hlen Hp.
  set (family := _disjoint_family found) in *. set (all := _sorted_partitions found) in *.
  assert (NoDup all) as Hnd.
  { unfold all, _sorted_partitions. rewrite merge_sort_Permutation. unfold fromkeys.
    rewrite reverse_Permutation. apply NoDup_remove_dups. }
  rewrite length_take in Hlen.
  assert (length (take _MAX_PARTITIONS all) ≤ length (fromkeys (family ++ take _MAX_PARTITIONS all))) as Hle.
  { apply submseteq_length, NoDup_submseteq; [rewrite <- (take_drop _MAX_PARTITIONS all) in Hnd; by apply NoDup_app in Hnd as [? _]|]. intros x Hx. apply elem_of_fromkeys, elem_of_app. by right. }
  rewrite length_take in Hle. rewrite (take_ge (fromkeys _)) by lia. rewrite (take_ge all) by lia.
  apply elem_of_fromkeys, elem_of_app. right. unfold all. by apply elem_of_sorted_partitions.
Qed.

(** A verdict reached by the search that was not capped and records fewer than sixteen
    partitions records every way the members that are not 0 reproduce the total; with no
    partition there is none. *)
Theorem uncapped_verdict_lists_all :
  kind result ≠ NESTED_MEMBERS → _unique_clean values work (grid e t) (sum_of values work) = false →
  enumeration_capped result = false → length (partitions result) < _MAX_PARTITIONS →
  ∀ p, partition_of (nonzero_members values work) p → p ∈ partitions result.
Proof using He Hexact Hbounds.
  unfold classify_partitions. intros Hkind Hclean. revert Hkind. case_bool_decide as Hempty.
  { intros _ _ _ p (Hp & _ & [Hne _]). exfalso. pose proof work_sublist as Hw. rewrite Hempty in Hw. apply sublist_nil_r in Hw.
    unfold nonzero_members in Hp. rewrite Hw in Hp. by apply submseteq_nil_r in Hp. }
  destruct (_ && verified _ _); [done|]. rewrite Hclean.
  destruct (_enumerate_partitions values _ _) as [enumerated capped] eqn:Hrun. cbn [kind partitions enumeration_capped].
  intros _ -> Hlen p Hp. cbn [andb] in *. apply recorded_all; [done|].
  assert (nonzero_members values work `sublist_of` filed_members values) as Hnz by (etrans; [apply sublist_filter|apply work_sublist]).
  destruct (sublist_exact _ Hnz) as [Hex Hb]. by eapply enumerate_complete.
Qed.
End verdicts.
End values.
End exact.

(** ** Examples *)

Definition units (vals : gmap string Z) (m : string) : Z := default 0%Z (vals !! m).
Definition float_amounts (vals : gmap string Z) : amounts := float_of_Z <$> vals.
Definition demo_units : gmap string Z := {["D1" := 600; "D2" := 400; "Product" := 450; "Service" := 550]}%Z.
Definition demo_work : list string := ["D1"; "D2"; "Product"; "Service"].
Lemma exact_on_dec e v values members :
  forallb (λ m, bool_decide (values !! m = Some (grid e (v m)))) members = true → exact_on e v values members.
Proof. rewrite forallb_forall. intros H m Hm. apply list_elem_of_In, H in Hm. by apply bool_decide_eq_true in Hm. Qed.
Definition demo_class : PartitionClassification :=
  Eval vm_compute in classify_partitions elements (float_amounts demo_units) (grid 0 1000) None None.
Lemma demo_class_eq : classify_partitions elements (float_amounts demo_units) (grid 0 1000) None None = demo_class.
Proof. vm_compute. reflexivity. Qed.
Example demo_kind : kind demo_class = OVERLAPPING_PARTITIONS ∧ partitions demo_class = [["D1"; "D2"]; ["Product"; "Service"]].
Proof. split; reflexivity. Qed.
Lemma demo_exact : exact_on 0 (units demo_units) (float_amounts demo_units) demo_work.
Proof. by apply exact_on_dec. Qed.
Lemma demo_filed : filed_members (float_amounts demo_units) = demo_work.
Proof. vm_compute. reflexivity. Qed.
Lemma demo_enumeration :
  _enumerate_partitions (float_amounts demo_units) demo_work (grid 0 1000) = ([["D1"; "D2"]; ["Product"; "Service"]], false).
Proof. vm_compute. reflexivity. Qed.

Lemma enumeration_is_exhaustive_witness : partition_of 0 (units demo_units) 1000 demo_work ["Product"; "Service"].
Proof.
  apply (enumeration_is_exhaustive 0 ltac:(lia) (units demo_units) 1000 (float_amounts demo_units) demo_work _
    demo_exact ltac:(vm_compute; reflexivity) demo_enumeration). right. left.
Defined.
Lemma recorded_partitions_reproduce_witness :
  reproduces 0 (units demo_units) 1000 (float_amounts demo_units) ["D1"; "D2"].
Proof.
  pose proof (recorded_partitions_reproduce 0 ltac:(lia) (units demo_units) 1000 (float_amounts demo_units) elements None None) as H.
  rewrite demo_filed, demo_class_eq in H. apply (proj1 (H demo_exact ltac:(vm_compute; reflexivity))). left.
Defined.
(** Amounts that do not reach the total. *)
Definition short_units : gmap string Z := {["A" := 300; "B" := 400]}%Z.
Lemma short_class : classify_partitions elements (float_amounts short_units) (grid 0 1000) None None =
  mkClassification INCOMPLETE [] [] BASIS_ARCLESS false.
Proof. vm_compute. reflexivity. Qed.
Lemma short_filed : filed_members (float_amounts short_units) = ["A"; "B"].
Proof. vm_compute. reflexivity. Qed.
Lemma short_exact : exact_on 0 (units short_units) (float_amounts short_units) ["A"; "B"].
Proof. by apply exact_on_dec. Qed.
Lemma uncapped_verdict_lists_all_witness :
  ¬ partition_of 0 (units short_units) 1000 (nonzero_members (float_amounts short_units)
      (work_members elements (float_amounts short_units) None None)) ["A"; "B"].
Proof.
  pose proof (uncapped_verdict_lists_all 0 ltac:(lia) (units short_units) 1000 (float_amounts short_units) elements None None) as H.
  rewrite short_filed, short_class in H.
  intros Hp. assert (["A"; "B"] ∈ ([] : list (list string))) as Hin; [|inversion Hin].
  apply (H short_exact ltac:(vm_compute; reflexivity) ltac:(discriminate) ltac:(vm_compute; reflexivity) ltac:(reflexivity)
    ltac:(vm_compute; lia) _ Hp).
Defined.

(** ** Where the verdict falls short *)

(** The greedy choice of disjoint sets can hide two of them: the search finds A with X and B
    with Y, but the finer A, B, C meets both, and the members are not called overlapping. *)
Theorem disjoint_pair_missed (order_of : gset string → list string) :
  let r := classify_partitions order_of (float_amounts {["A" := 500; "B" := 300; "C" := 200; "X" := 500; "Y" := 700]}%Z)
             (float_of_Z 1000) None None in
  kind r = OVER_UNEXPLAINED ∧ enumeration_capped r = false ∧ ["A"; "X"] ∈ partitions r ∧ ["B"; "Y"] ∈ partitions r.
Proof.
  set (r := classify_partitions _ _ _ _ _).
  assert (r = mkClassification OVER_UNEXPLAINED [["A"; "B"; "C"]; ["B"; "C"; "X"]; ["A"; "X"]; ["B"; "Y"]] [] BASIS_ARCLESS false) as ->
    by (vm_compute; reflexivity).
  split_and!; [done..| |]; [right; right; left|right; right; right; left].
Qed.

(** Members of one sign that add up to the total are called a clean partition, but a member
    within the tolerance of 1.0 can be left out as well. *)
Lemma clean_partition_not_unique (order_of : gset string → list string) :
  let vals : gmap string Z := {["A" := 100; "B" := 1]}%Z in
  kind (classify_partitions order_of (float_amounts vals) (float_of_Z 100) None None) = CLEAN_PARTITION ∧
  partition_of 0 (units vals) 100 ["A"; "B"] ["A"].
Proof.
  intros vals. split; [vm_compute; reflexivity|]. split_and!; [|reflexivity|split; [done|vm_compute; discriminate]].
  apply submseteq_skip, submseteq_nil_l.
Qed.
