(* ===== verification/Scoping.v ===== *)
(** * Facts and amendments: [engine/xbrl/solve/scoping.py], [engine/xbrl/schema/models.py]

    A filing may be amended; facts pooled from a filing and its amendments are resolved so that
    a restated fact answers from the last amendment that carries it.  Accession numbers are the
    strings [str] gives. *)
From Stdlib Require Import Ascii.
From S2P Require Import Prelude Binary64.

Definition split_concept_qname (qname : string) : string * string :=
  let '(prefix, sep, local) := partition_char ":"%char qname in if (sep : bool) then (prefix, local) else ("", qname).
Definition qname_local (qname : string) : string := (split_concept_qname qname).2.

(** [float | str | None] *)
Inductive fact_value := FNum (f : float) | FText (s : string) | FNone.

Record XbrlFact := mkFact {
  accession : string;
  concept_qname : string;
  value : fact_value;
  unit_of : option string;
  decimals : option Z;
  period_type : string;
  start_date : option string;
  end_date : option string;
  instant_date : option string;
  dimensions : gmap string string;
  context_id : option string;
  balance : option string;
}.

(** ** Lineages *)

Definition removesuffix (suffix s : string) : string :=
  let n := (String.length s - String.length suffix)%nat in
  if String.eqb (str_take n s +:+ suffix) s then str_take n s else s.
Definition base_form (form : string) : string := removesuffix "/A" form.
Definition is_amendment_form (form : string) : bool := negb (String.eqb form (base_form form)).

Record FilingRef := mkRef {
  ref_accession : string;
  ref_cik : string;
  ref_form : string;
  ref_period : string;
  filed_date : string;
}.
Record AmendmentLineage := mkLineage {
  lineage_cik : string;
  lineage_form : string;
  lineage_period : string;
  accessions : list string;
}.
(** [self.accessions[0]], which is empty for no lineage that is built. *)
Definition original (l : AmendmentLineage) : option string := head (accessions l).
Definition latest (l : AmendmentLineage) : option string := last (accessions l).

(** [tuple.index]: the first position. *)
Fixpoint index_of (a : string) (l : list string) : option nat :=
  match l with
  | [] => None
  | x :: l => if decide (x = a) then Some O else S <$> index_of a l
  end.
Definition rank (l : AmendmentLineage) (a : string) : option nat := index_of a (accessions l).

Definition group_key (r : FilingRef) : list string := [ref_cik r; base_form (ref_form r); ref_period r].
(** The key [(is_amendment, filed_date, accession)]. *)
Definition files_before (r s : FilingRef) : Prop :=
  match is_amendment_form (ref_form r), is_amendment_form (ref_form s) with
  | false, true => True
  | true, false => False
  | _, _ => strings_le [filed_date r; ref_accession r] [filed_date s; ref_accession s]
  end.
#[global] Instance files_before_dec : RelDecision files_before.
Proof. intros r s. unfold files_before. destruct (is_amendment_form (ref_form r)), (is_amendment_form (ref_form s)); apply _. Defined.

(** The groups in the order of their keys; members in the order they come. *)
Definition group_keys (refs : list FilingRef) : list (list string) := merge_sort strings_le (remove_dups (group_key <$> refs)).
Definition lineage_of (key : list string) (members : list FilingRef) : AmendmentLineage :=
  mkLineage (nth 0 key "") (nth 1 key "") (nth 2 key "") (ref_accession <$> merge_sort files_before members).
Definition build_lineages (refs : list FilingRef) : list AmendmentLineage :=
  group_keys refs ≫= λ key,
    let members := filter (λ r, group_key r = key) refs in
    if existsb (λ r, is_amendment_form (ref_form r)) members then [lineage_of key members] else [].

Definition covering_lineage (lineages : list AmendmentLineage) (wanted : list string) : option AmendmentLineage :=
  match filter (λ l, existsb (λ a, bool_decide (a ∈ accessions l)) wanted = true) lineages with
  | [l] => if forallb (λ a, bool_decide (a ∈ accessions l)) wanted then Some l else None
  | _ => None
  end.

(** ** Supersession *)

Definition fact_key (f : XbrlFact) : string * string * option string * option string * option string * gmap string string :=
  (concept_qname f, period_type f, start_date f, end_date f, instant_date f, dimensions f).
(** The dict [ranks]: a later lineage overrides an earlier one. *)
Definition ranks (lineages : list AmendmentLineage) : gmap string (nat * nat) :=
  foldl (λ m entry, <[entry.1 := entry.2]> m) ∅
    (imap (λ group l, imap (λ rank a, (a, (group, rank))) (accessions l)) lineages ≫= id).
Definition best_key (group : nat) (f : XbrlFact) := (group, fact_key f).
Definition note_rank (rs : gmap string (nat * nat))
    (best : gmap (nat * (string * string * option string * option string * option string * gmap string string)) nat) (f : XbrlFact) :=
  match rs !! accession f with
  | None => best
  | Some (group, rank) =>
      match best !! best_key group f with
      | Some r => if (r <? rank)%nat then <[best_key group f := rank]> best else best
      | None => <[best_key group f := rank]> best
      end
  end.
(** [best[...]] cannot fail: the loop has seen every fact of the pool. *)
Definition stands (rs : gmap string (nat * nat))
    (best : gmap (nat * (string * string * option string * option string * option string * gmap string string)) nat) (f : XbrlFact) : bool :=
  match rs !! accession f with
  | None => true
  | Some (group, rank) => bool_decide (best !! best_key group f = Some rank)
  end.
Definition supersede_facts (facts : list XbrlFact) (lineages : list AmendmentLineage) : list XbrlFact :=
  let rs := ranks lineages in
  let best := foldl (note_rank rs) ∅ facts in
  filter (λ f, stands rs best f = true) facts.

(** ** Scopes *)

Record FactScope := mkScope {
  scope_accession : option string;
  scope_instant : option string;
  scope_start : option string;
  scope_end : option string;
  scope_unit : option string;
  scope_dimensions : gmap string string;
  include_all_dimensions : bool;
  scope_lineages : list AmendmentLineage;
}.
Definition given (s : option string) : bool := match s with None | Some "" => false | Some _ => true end.
(** [FactScope.__post_init__] *)
Definition check_scope (s : FactScope) : result unit :=
  _ ← raise_if (bool_decide (is_Some (scope_start s)) && bool_decide (scope_end s = None))
        (ValueError "duration scope requires both start_date and end_date");
  _ ← raise_if (bool_decide (is_Some (scope_end s)) && bool_decide (scope_start s = None))
        (ValueError "duration scope requires both start_date and end_date");
  raise_if (given (scope_instant s) && (given (scope_start s) || given (scope_end s)))
    (ValueError "instant and duration dates are mutually exclusive").
Definition matches (s : FactScope) (f : XbrlFact) : bool :=
  if given (scope_accession s) && negb (bool_decide (Some (accession f) = scope_accession s)) then false
  else if match scope_instant s with
          | Some d => negb (String.eqb (period_type f) "instant") || negb (bool_decide (instant_date f = Some d))
          | None =>
              match scope_start s with
              | Some d => negb (String.eqb (period_type f) "duration") || negb (bool_decide (start_date f = Some d))
                          || negb (bool_decide (end_date f = scope_end s))
              | None => false
              end
          end then false
  else if bool_decide (is_Some (scope_unit s)) && negb (bool_decide (unit_of f = scope_unit s)) then false
  else if negb (include_all_dimensions s) && negb (bool_decide (dimensions f = scope_dimensions s)) then false
  else true.
Definition select (s : FactScope) (facts : list XbrlFact) : list XbrlFact :=
  let selected := filter (λ f, matches s f = true) facts in
  if bool_decide (scope_lineages s = []) then selected else supersede_facts selected (scope_lineages s).

(** ** The best rank of a key *)

(** A fact of the pool with the key has the rank in the group. *)
Definition noted (rs : gmap string (nat * nat)) (facts : list XbrlFact) (g : nat) (f : XbrlFact) (r : nat) : Prop :=
  ∃ f', f' ∈ facts ∧ fact_key f' = fact_key f ∧ rs !! accession f' = Some (g, r).

(** [o] is the greatest rank with [P], if there is one. *)
Definition greatest (P : nat → Prop) (o : option nat) : Prop :=
  match o with Some r => P r ∧ ∀ r', P r' → r' ≤ r | None => ∀ r', ¬ P r' end.
Lemma greatest_ext (P Q : nat → Prop) o : (∀ r, P r ↔ Q r) → greatest Q o → greatest P o.
Proof. unfold greatest. intros H. destruct o; setoid_rewrite H; done. Qed.
Lemma greatest_add P o x :
  greatest P o →
  greatest (λ r, P r ∨ r = x) (Some (match o with Some r => if (r <? x)%nat then x else r | None => x end)).
Proof.
  unfold greatest. destruct o as [r|].
  - intros [Hr Hmax]. destruct (Nat.ltb_spec r x); (split; [auto|]); intros r' [H'| ->]; try specialize (Hmax r' H'); lia.
  - intros Hno. split; [by right|]. intros r' [H'| ->]; [by apply Hno in H'|done].
Qed.

Lemma noted_snoc rs facts x g f r :
  noted rs (facts ++ [x]) g f r ↔ noted rs facts g f r ∨ fact_key x = fact_key f ∧ rs !! accession x = Some (g, r).
Proof.
  unfold noted. split.
  - intros (f' & [Hin| ->%list_elem_of_singleton]%elem_of_app & H); [left; by exists f'|by right].
  - intros [(f' & Hin & H)|H]; [exists f'|exists x]; (split; [apply elem_of_app|done]);
      [by left|right; by apply list_elem_of_singleton].
Qed.
Lemma note_rank_lookup rs best x g f :
  note_rank rs best x !! best_key g f =
    match rs !! accession x with
    | Some (gx, rx) =>
        if decide (best_key gx x = best_key g f)
        then Some (match best !! best_key g f with Some r => if (r <? rx)%nat then rx else r | None => rx end)
        else best !! best_key g f
    | None => best !! best_key g f
    end.
Proof.
  unfold note_rank. destruct (rs !! accession x) as [[gx rx]|]; [|done]. case_decide as E.
  - rewrite E. destruct (best !! best_key g f) as [r|] eqn:Hb; [case_match|]; rewrite ?lookup_insert_eq; done.
  - destruct (best !! best_key gx x) as [r|]; [case_match|]; rewrite ?lookup_insert_ne by done; done.
Qed.
Lemma best_spec rs facts g f : greatest (noted rs facts g f) (foldl (note_rank rs) ∅ facts !! best_key g f).
Proof.
  induction facts as [|x facts IH] using rev_ind; [cbn [foldl]; rewrite lookup_empty; intros r' (? & H & _); inversion H|].
  rewrite foldl_snoc, note_rank_lookup.
  destruct (rs !! accession x) as [[gx rx]|] eqn:Hx; [destruct (decide (best_key gx x = best_key g f)) as [E|E]|].
  - pose proof (f_equal fst E) as Hg. pose proof (f_equal snd E) as Hk. simpl in Hg, Hk. subst gx. eapply greatest_ext; [|exact (greatest_add _ _ rx IH)].
    intros r. rewrite noted_snoc, Hx. split.
    + intros [Hn|[_ Hg]]; [by left|right]. by simplify_eq.
    + intros [Hn| ->]; [by left|by right].
  - eapply greatest_ext; [|exact IH]. intros r. rewrite noted_snoc, Hx. split; [|by left].
    intros [Hn|[Hk [= -> ->]]]; [done|]. destruct E. unfold best_key. by rewrite Hk.
  - eapply greatest_ext; [|exact IH]. intros r. rewrite noted_snoc, Hx. split; [by intros [Hn|[_ Hg]]|by left].
Qed.

Lemma supersede_spec facts lineages f :
  f ∈ supersede_facts facts lineages ↔ f ∈ facts ∧
    ∀ g r, ranks lineages !! accession f = Some (g, r) → ∀ r', noted (ranks lineages) facts g f r' → r' ≤ r.
Proof.
  unfold supersede_facts. rewrite list_elem_of_filter. unfold stands.
  destruct (ranks lineages !! accession f) as [[g r]|] eqn:Hf; [|naive_solver]. rewrite bool_decide_eq_true.
  pose proof (best_spec (ranks lineages) facts g f) as Hbest.
  split; intros [H1 H2].
  - split; [done|]. intros g' r' [= <- <-]. rewrite H1 in Hbest. apply Hbest.
  - split; [|done]. assert (noted (ranks lineages) facts g f r) as Hn by (by exists f).
    unfold greatest in Hbest.
    destruct (foldl _ _ _ !! _) as [b|]; [|by destruct (Hbest r)]. destruct Hbest as [Hb Hmax]. f_equal.
    apply Nat.le_antisymm; [by eapply H2|by apply Hmax].
Qed.

(** ** Ranks of disjoint lineages *)

Definition ranked (lineages : list AmendmentLineage) : list (string * (nat * nat)) :=
  imap (λ group l, imap (λ rank a, (a, (group, rank))) (accessions l)) lineages ≫= id.
Lemma elem_of_ranked lineages a g r :
  (a, (g, r)) ∈ ranked lineages ↔ ∃ l, lineages !! g = Some l ∧ accessions l !! r = Some a.
Proof.
  unfold ranked. rewrite list_elem_of_bind. setoid_rewrite elem_of_lookup_imap. split.
  - intros (k & Hin & (i & l & -> & Hl)). simpl in Hin. apply elem_of_lookup_imap in Hin as (j & x & [= -> -> ->] & Hx). eauto.
  - intros (l & Hl & Ha). eexists. split; [|exists g, l; split; [done|exact Hl]]. simpl.
    apply elem_of_lookup_imap. by exists r, a.
Qed.
Lemma fst_imap {A} (h : nat → A) (l : list string) : fst <$> imap (λ i a, (a, h i)) l = l.
Proof. revert h. induction l as [|a l IH]; intros h; [done|]. rewrite imap_cons, fmap_cons. f_equal. apply (IH (h ∘ S)). Qed.
Lemma fst_ranked lineages : fst <$> ranked lineages = lineages ≫= accessions.
Proof.
  unfold ranked. assert (∀ h : nat → nat, fst <$> (imap (λ group l, imap (λ rank a, (a, (h group, rank))) (accessions l)) lineages ≫= id)
    = lineages ≫= accessions) as H; [|apply (H id)].
  induction lineages as [|l lineages IH]; intros h; [done|]. rewrite imap_cons, !bind_cons, fmap_app. f_equal.
  - apply (fst_imap (λ rank, (h 0, rank))).
  - apply (IH (h ∘ S)).
Qed.

Lemma foldl_insert_lookup {A} (l : list (string * A)) (m : gmap string A) a x :
  NoDup (fst <$> l) → (∀ b, b ∈ fst <$> l → m !! b = None) →
  foldl (λ m entry, <[entry.1 := entry.2]> m) m l !! a = Some x ↔ (a, x) ∈ l ∨ m !! a = Some x.
Proof.
  revert m. induction l as [|[b y] l IH]; intros m Hnd Hm; simpl; [set_solver|].
  apply NoDup_cons in Hnd as [Hb Hnd]. rewrite IH; [|done|].
  - rewrite elem_of_cons. destruct (decide (a = b)) as [->|Hab].
    + rewrite lookup_insert_eq. assert (m !! b = None) as Hmb by (apply Hm; left). rewrite Hmb.
      assert ((b, x) ∉ l) by (intros H; apply Hb; by apply (list_elem_of_fmap_2 fst) in H).
      naive_solver.
    + rewrite lookup_insert_ne by done. naive_solver.
  - intros c Hc. rewrite lookup_insert_ne by (intros ->; done). apply Hm. by right.
Qed.
Lemma ranks_spec lineages a g r :
  NoDup (lineages ≫= accessions) →
  ranks lineages !! a = Some (g, r) ↔ ∃ l, lineages !! g = Some l ∧ accessions l !! r = Some a.
Proof.
  intros Hnd. unfold ranks. change (imap _ lineages ≫= id) with (ranked lineages).
  rewrite foldl_insert_lookup by (by rewrite fst_ranked || (intros b _; apply lookup_empty)).
  rewrite lookup_empty, elem_of_ranked. naive_solver.
Qed.

(** ** The lineages of filings *)

#[global] Instance files_before_total : Total files_before.
Proof. intros r s. unfold files_before. destruct (is_amendment_form (ref_form r)), (is_amendment_form (ref_form s)); auto; apply (base.total strings_le). Qed.
#[global] Instance files_before_trans : Transitive files_before.
Proof.
  intros r s u. unfold files_before.
  destruct (is_amendment_form (ref_form r)), (is_amendment_form (ref_form s)), (is_amendment_form (ref_form u)); try done; apply transitivity.
Qed.
Lemma files_before_antisymm r s : files_before r s → files_before s r → ref_accession r = ref_accession s.
Proof.
  unfold files_before. destruct (is_amendment_form (ref_form r)), (is_amendment_form (ref_form s)); try done;
    intros H1 H2; by assert ([filed_date r; ref_accession r] = [filed_date s; ref_accession s]) as [= _ ?] by (by apply (anti_symm strings_le)).
Qed.

Section lineages.
Context (refs : list FilingRef) (Hdistinct : NoDup (ref_accession <$> refs)).

Definition members_of (key : list string) : list FilingRef := filter (λ r, group_key r = key) refs.
Definition amended (key : list string) : Prop := ∃ r, r ∈ refs ∧ group_key r = key ∧ is_amendment_form (ref_form r) = true.

Lemma elem_of_build l :
  l ∈ build_lineages refs ↔ ∃ key, amended key ∧ l = lineage_of key (members_of key).
Proof.
  unfold build_lineages. rewrite list_elem_of_bind. unfold group_keys.
  assert (∀ key, existsb (λ r, is_amendment_form (ref_form r)) (members_of key) = true ↔ amended key) as Hex.
  { intros key. rewrite existsb_exists. unfold amended, members_of. setoid_rewrite <- list_elem_of_In.
    setoid_rewrite list_elem_of_filter. naive_solver. }
  split.
  - intros (key & Hl & Hkey). fold (members_of key) in Hl. specialize (Hex key). destruct (existsb _ _); [|inversion Hl].
    apply list_elem_of_singleton in Hl as ->. exists key. split; [by apply Hex|done].
  - intros (key & Ham & ->). exists key. fold (members_of key). rewrite (proj2 (Hex key) Ham). split; [left|].
    rewrite merge_sort_Permutation, elem_of_remove_dups. destruct Ham as (r & Hr & <- & _). by apply list_elem_of_fmap_2.
Qed.
Lemma elem_of_lineage key a : a ∈ accessions (lineage_of key (members_of key)) ↔ ∃ r, r ∈ refs ∧ group_key r = key ∧ ref_accession r = a.
Proof.
  unfold lineage_of. simpl. rewrite list_elem_of_fmap. setoid_rewrite merge_sort_Permutation.
  unfold members_of. setoid_rewrite list_elem_of_filter. naive_solver.
Qed.
Lemma ref_unique r s : r ∈ refs → s ∈ refs → ref_accession r = ref_accession s → r = s.
Proof using Hdistinct.
  intros [i Hi]%list_elem_of_lookup [j Hj]%list_elem_of_lookup E.
  assert (i = j) as ->; [|congruence]. eapply NoDup_lookup; [exact Hdistinct|by rewrite list_lookup_fmap, Hi|].
  by rewrite list_lookup_fmap, Hj, E.
Qed.

Lemma NoDup_members key : NoDup (ref_accession <$> members_of key).
Proof using Hdistinct.
  apply NoDup_fmap_2_strong; [|by apply NoDup_filter, (NoDup_fmap_1 ref_accession)].
  intros r s [_ Hr]%list_elem_of_filter [_ Hs]%list_elem_of_filter. by apply ref_unique.
Qed.
Lemma lineages_disjoint : NoDup (build_lineages refs ≫= accessions).
Proof using Hdistinct.
  set (lineage key := if existsb (λ r, is_amendment_form (ref_form r)) (members_of key)
                      then [lineage_of key (members_of key)] else []).
  assert (∀ key a, a ∈ lineage key ≫= accessions → ∃ r, r ∈ refs ∧ group_key r = key ∧ ref_accession r = a) as Hin.
  { intros key a. unfold lineage. destruct (existsb _ _); [|intros H; inversion H]. rewrite bind_cons, app_nil_r. apply elem_of_lineage. }
  assert (∀ keys, NoDup keys → NoDup ((keys ≫= lineage) ≫= accessions)) as H.
  { induction keys as [|key keys IH]; intros Hnd; [constructor|]. apply NoDup_cons in Hnd as [Hk Hnd].
    rewrite bind_cons, bind_app. apply NoDup_app. split_and!; [| |by apply IH].
    - unfold lineage. destruct (existsb _ _); [|constructor]. rewrite bind_cons, app_nil_r. unfold lineage_of. simpl.
      rewrite merge_sort_Permutation. apply NoDup_members.
    - intros a (r & Hr & Hkey & Ha)%Hin (l & Hl & (key' & Hl' & Hkey')%list_elem_of_bind)%list_elem_of_bind.
      destruct (Hin key' a) as (s & Hs & Hks & Has); [apply list_elem_of_bind; eauto|].
      assert (r = s) as <- by (apply ref_unique; congruence). apply Hk. congruence. }
  apply (H (group_keys refs)). unfold group_keys. rewrite merge_sort_Permutation. apply NoDup_remove_dups.
Qed.

Lemma sorted_lookup {A} (R : relation A) l i j x y :
  StronglySorted R l → l !! i = Some x → l !! j = Some y → i < j → R x y.
Proof.
  intros Hs. revert i j. induction Hs as [|z l Hs IH Hz]; intros i j Hi Hj Hij; [done|].
  destruct i as [|i], j as [|j]; try lia; simpl in *; [|by apply (IH i j); try lia].
  injection Hi as ->. apply list_elem_of_lookup_2 in Hj. rewrite Forall_forall in Hz. by apply Hz.
Qed.

(** Within a lineage, a filing that files before another has a lower rank. *)
Lemma rank_order key i j r s :
  accessions (lineage_of key (members_of key)) !! i = Some (ref_accession r) →
  accessions (lineage_of key (members_of key)) !! j = Some (ref_accession s) →
  r ∈ refs → s ∈ refs → i < j ↔ files_before r s ∧ ref_accession r ≠ ref_accession s.
Proof using Hdistinct.
  unfold lineage_of. simpl. rewrite !list_lookup_fmap. intros Hi Hj Hr Hs.
  assert (∀ k x, merge_sort files_before (members_of key) !! k = Some x → x ∈ refs) as Hmem.
  { intros k x Hk%list_elem_of_lookup_2. rewrite merge_sort_Permutation in Hk. by apply list_elem_of_filter in Hk as [_ Hk]. }
  apply fmap_Some in Hi as (r' & Hi & Er), Hj as (s' & Hj & Es).
  apply ref_unique in Er as <-; [|done|by eapply Hmem]. apply ref_unique in Es as <-; [|done|by eapply Hmem].
  pose proof (StronglySorted_merge_sort files_before (members_of key)) as Hsorted.
  assert (NoDup (ref_accession <$> merge_sort files_before (members_of key))) as Hnd by (rewrite merge_sort_Permutation; apply NoDup_members).
  assert (∀ a b x y, merge_sort files_before (members_of key) !! a = Some x → merge_sort files_before (members_of key) !! b = Some y →
    a < b → files_before x y) as Hlt by (intros a b x y Ha Hb Hab; by eapply sorted_lookup).
  split.
  - intros Hij. split; [by eapply Hlt|]. intros E. assert (i = j); [|lia].
    eapply NoDup_lookup; [exact Hnd|by rewrite list_lookup_fmap, Hi|]. by rewrite list_lookup_fmap, Hj, E.
  - intros [Hb Hne]. destruct (Nat.lt_trichotomy i j) as [|[->|Hji]]; [done|congruence|].
    destruct Hne. apply files_before_antisymm; [done|]. by eapply Hlt.
Qed.
End lineages.

(** C33: over the lineages built from filings with distinct accession numbers, a fact of the pool
    is dropped exactly when the pool has a fact with the same concept, period and dimensions
    from a later filing of the same amended report: originals come before amendments, and
    earlier filings before later ones. *)
Theorem restated_facts_answer refs facts f :
  NoDup (ref_accession <$> refs) →
  f ∈ supersede_facts facts (build_lineages refs) ↔ f ∈ facts ∧ ¬ ∃ f' r r',
    f' ∈ facts ∧ fact_key f' = fact_key f ∧ r ∈ refs ∧ r' ∈ refs ∧
    ref_accession r = accession f ∧ ref_accession r' = accession f' ∧
    group_key r' = group_key r ∧ amended refs (group_key r) ∧
    files_before r r' ∧ accession f ≠ accession f'.
Proof.
  intros Hd. pose proof (lineages_disjoint refs Hd) as Hdisj. rewrite supersede_spec.
  apply and_iff_compat_l. unfold noted. setoid_rewrite (ranks_spec (build_lineages refs) _ _ _ Hdisj). split.
  - intros Hmax (f' & r & r' & Hf' & Hk & Hr & Hr' & Ha & Ha' & Hg & Ham & Hb & Hne).
    set (l := lineage_of (group_key r) (members_of refs (group_key r))).
    assert (l ∈ build_lineages refs) as [g Hl]%list_elem_of_lookup by (apply elem_of_build; by exists (group_key r)).
    assert (accession f ∈ accessions l) as [i Hi]%list_elem_of_lookup by (apply elem_of_lineage; eauto).
    assert (accession f' ∈ accessions l) as [j Hj]%list_elem_of_lookup by (apply elem_of_lineage; eauto).
    specialize (Hmax g i ltac:(eauto) j ltac:(eauto 10)).
    assert (i < j); [|lia]. eapply (rank_order refs Hd); [rewrite Ha; exact Hi|rewrite Ha'; exact Hj|done..|]. by rewrite Ha, Ha'.
  - intros Hno g i (l & Hl & Hi) j (f' & Hf' & Hk & (l' & Hl' & Hj)). assert (l' = l) as -> by congruence.
    apply list_elem_of_lookup_2 in Hl as Hbuilt. apply elem_of_build in Hbuilt as (key & Ham & ->).
    apply list_elem_of_lookup_2 in Hi as Hai. apply elem_of_lineage in Hai as (r & Hr & Hkr & Ha).
    apply list_elem_of_lookup_2 in Hj as Haj. apply elem_of_lineage in Haj as (r' & Hr' & Hkr' & Ha').
    destruct (Nat.le_gt_cases j i) as [|Hij]; [done|]. exfalso. apply Hno.
    apply (rank_order refs Hd key i j r r') in Hij as [Hb Hne]; [|by rewrite Ha|by rewrite Ha'|done..].
    exists f', r, r'. rewrite <- Ha, <- Ha'. split_and!; try done; congruence.
Qed.

(** A report of which only amendments were filed makes a lineage too; its [original] is then an
    amendment, against its docstring. *)
Lemma original_may_be_amendment :
  original <$> build_lineages [mkRef "A2" "1" "10-K/A" "2020" "2021-06-01"; mkRef "A1" "1" "10-K/A" "2020" "2021-05-01"] = [Some "A1"].
Proof. vm_compute. reflexivity. Qed.

(** ** Example *)

Definition demo_refs : list FilingRef :=
  [mkRef "A2" "1" "10-K/A" "2020" "2021-06-01"; mkRef "A1" "1" "10-K" "2020" "2021-03-01"].
Definition demo_fact (a concept : string) (v : Z) : XbrlFact :=
  mkFact a concept (FNum (float_of_Z v)) (Some "USD") None "instant" None None (Some "2020-12-31") ∅ None None.
Definition demo_facts : list XbrlFact :=
  [demo_fact "A1" "us-gaap:Assets" 10; demo_fact "A1" "us-gaap:Cash" 3; demo_fact "A2" "us-gaap:Assets" 12].
Example demo_supersede : accession <$> supersede_facts demo_facts (build_lineages demo_refs) = ["A1"; "A2"].
Proof. vm_compute. reflexivity. Qed.
Lemma restated_facts_answer_witness :
  demo_fact "A1" "us-gaap:Assets" 10 ∉ supersede_facts demo_facts (build_lineages demo_refs).
Proof.
  assert (NoDup (ref_accession <$> demo_refs)) as Hd by (apply (bool_decide_unpack _); vm_compute; exact I).
  intros H. apply (proj1 (restated_facts_answer demo_refs demo_facts _ Hd)) in H as [_ H]. apply H.
  exists (demo_fact "A2" "us-gaap:Assets" 12), (mkRef "A1" "1" "10-K" "2020" "2021-03-01"), (mkRef "A2" "1" "10-K/A" "2020" "2021-06-01").
  repeat split; try reflexivity; try discriminate; try (right; left); try left; [right; right; left|].
  exists (mkRef "A2" "1" "10-K/A" "2020" "2021-06-01"). repeat split; left.
Defined.
