(* ===== verification/Atoms.v ===== *)
(** * Concept coordinates: [engine/xbrl/schema/atoms.py] and [relations.py]

    A concept is placed by a head and a set of modifiers; fewer modifiers are more general.
    Upper-casing is on code points up to U+00FF whose capital is among them. *)
From Stdlib Require Import Ascii.
From stdpp Require Import relations.
From S2P Require Import Prelude Text Binary64.

Record Atom := mkAtom { head : string; modifiers : gset string }.
#[global] Instance atom_eq_dec : EqDecision Atom.
Proof. solve_decision. Defined.

Definition starts_with_H (s : string) : bool := String.eqb (str_take 2 s) "H_".
Definition normal_symbol (m : string) : bool := negb (String.eqb m "") && String.eqb m (upper (strip m)).
(** The constructor, with [__post_init__]. *)
Definition atom (h : string) (mods : gset string) : Atom :=
  if starts_with_H h && String.eqb h (upper (strip h)) && forallb normal_symbol (elements mods) then mkAtom h mods
  else
    let norm_head := upper (strip h) in
    mkAtom (if starts_with_H norm_head then norm_head else "H_" +:+ norm_head)
      (set_map (λ m, upper (strip m)) (filter (λ m, m ≠ "") mods)).

Definition is_a (a b : Atom) : bool := String.eqb (head a) (head b) && bool_decide (modifiers b ⊆ modifiers a).
Definition subsumes (a b : Atom) : bool := is_a b a.
Definition meet (a b : Atom) : option Atom :=
  if String.eqb (head a) (head b) then Some (atom (head a) (modifiers a ∪ modifiers b)) else None.
Definition join (a b : Atom) : option Atom :=
  if String.eqb (head a) (head b) then Some (atom (head a) (modifiers a ∩ modifiers b)) else None.
Definition to_dict (a : Atom) : string * list string := (head a, merge_sort String.le (elements (modifiers a))).
Definition from_dict (data : string * list string) : Atom := atom data.1 (list_to_set data.2).

Definition prune_subsumed (atoms : list Atom) : list Atom :=
  filter (λ c, existsb (λ other, negb (bool_decide (other = c)) && is_a other c) atoms = false) atoms.
Definition prune_specialized (atoms : list Atom) : list Atom :=
  filter (λ c, existsb (λ other, negb (bool_decide (other = c)) && is_a c other) atoms = false) atoms.

(** ** The relation graph *)

Record AtomRelation := mkRelation {
  edge_id : string;
  relation_type : string;
  source : Atom;
  target : Atom;
  algebraic_weight : float;
  formula_id : option string;
  operator : option string;
  description : string;
  evidence : string;
}.
(** [.setdefault(key, []).append(rel)] *)
Definition index_by (key : AtomRelation → string) (m : gmap string (list AtomRelation)) (r : AtomRelation) :
    gmap string (list AtomRelation) := <[key r := default [] (m !! key r) ++ [r]]> m.
Record AtomRelationGraph := mkGraph {
  relations : list AtomRelation;
  _by_source_head : gmap string (list AtomRelation);
  _by_target_head : gmap string (list AtomRelation);
}.
Definition graph_of (rels : list AtomRelation) : AtomRelationGraph :=
  mkGraph rels (foldl (index_by (head ∘ source)) ∅ rels) (foldl (index_by (head ∘ target)) ∅ rels).

(** An empty type filters nothing. *)
Definition of_type (wanted : option string) (e : AtomRelation) : bool :=
  match wanted with None | Some "" => true | Some t => String.eqb (relation_type e) (upper t) end.
Definition find_inherited_edges (g : AtomRelationGraph) (a : Atom) (wanted : option string) : list AtomRelation :=
  filter (λ e, of_type wanted e && is_a a (source e) = true) (default [] (_by_source_head g !! head a)).
Definition find_parent_targets (g : AtomRelationGraph) (a : Atom) (wanted : string) : list (Atom * float) :=
  (λ e, (target e, algebraic_weight e)) <$> find_inherited_edges g a (Some wanted).
Definition find_contra_target (g : AtomRelationGraph) (a : Atom) : option (Atom * float) :=
  list.head (find_parent_targets g a "CONTRA_OF").
Definition find_duals (g : AtomRelationGraph) (a : Atom) : list Atom :=
  (target <$> find_inherited_edges g a (Some "DUAL_OF"))
  ++ (source <$> filter (λ e, String.eqb (relation_type e) "DUAL_OF" && is_a a (target e) = true)
        (default [] (_by_target_head g !! head a))).

(** ** Order *)

Lemma is_a_spec a b : is_a a b = true ↔ head a = head b ∧ modifiers b ⊆ modifiers a.
Proof. unfold is_a. by rewrite andb_true_iff, String.eqb_eq, bool_decide_eq_true. Qed.
Definition isa (a b : Atom) : Prop := is_a a b = true.
#[global] Instance isa_partial_order : PartialOrder isa.
Proof.
  unfold isa. split; [split|].
  - intros a. by apply is_a_spec.
  - intros a b c. rewrite !is_a_spec. intros [-> ?] [-> ?]. split; [done|set_solver].
  - intros [h m] [h' m']. rewrite !is_a_spec. simpl. intros [-> ?] [_ ?]. f_equal. set_solver.
Qed.

(** ** The constructor *)

(** Upper case, without blanks around, and with the prefix of a head; modifiers not empty. *)
Record normal (a : Atom) : Prop := {
  normal_prefix : starts_with_H (head a) = true;
  normal_head : head a = upper (strip (head a));
  normal_modifiers m : m ∈ modifiers a → m ≠ "" ∧ m = upper (strip m);
}.

Lemma atom_normal h mods : normal (mkAtom h mods) → atom h mods = mkAtom h mods.
Proof.
  intros [Hp Hh Hm]. simpl in *. unfold atom. rewrite Hp, <- Hh, String.eqb_refl. simpl.
  rewrite (proj2 (forallb_forall _ _)); [done|]. intros m Hin%list_elem_of_In%elem_of_elements.
  unfold normal_symbol. destruct (Hm m Hin) as [Hne E]. rewrite <- E, String.eqb_refl.
  by rewrite (proj2 (String.eqb_neq _ _) Hne).
Qed.
Lemma starts_with_H_append s : starts_with_H ("H_" +:+ s) = true.
Proof. unfold starts_with_H. by rewrite str_take_app. Qed.
Lemma prefixed_head s : s = upper (strip s) → "H_" +:+ s = upper (strip ("H_" +:+ s)).
Proof.
  intros E. assert (strip s = s) as Hs by (by rewrite E, strip_upper, strip_strip).
  assert (upper s = s) as Hu by (by rewrite E, upper_upper).
  assert (rstrip s = s) as Hr.
  { transitivity (rstrip (strip s)); [by rewrite Hs|]. transitivity (strip s); [apply rstrip_rstrip|done]. }
  assert (strip ("H_" +:+ s) = "H_" +:+ s) as ->; [|by rewrite upper_append, Hu].
  change ("H_" +:+ s) with (String "H" (String "_" s)). unfold strip. cbn [lstrip].
  change (is_py_space "H") with false. cbv iota. by rewrite !rstrip_cons, Hr by reflexivity.
Qed.

(** A modifier that is not empty but has only blanks. *)
Definition blank (m : string) : Prop := m ≠ "" ∧ strip m = "".

Lemma nonblank_normal h mods : (∀ m, m ∈ mods → ¬ blank m) → normal (atom h mods).
Proof.
  intros Hblank. unfold atom. destruct (_ && _ && _) eqn:Hfast.
  - apply andb_true_iff in Hfast as [[Hp Hh%String.eqb_eq]%andb_true_iff Hm]. split; [done|done|].
    intros m Hin. simpl in Hin. rewrite forallb_forall in Hm. specialize (Hm m ltac:(by apply list_elem_of_In, elem_of_elements)).
    unfold normal_symbol in Hm. apply andb_true_iff in Hm as [Hne%negb_true_iff%String.eqb_neq E%String.eqb_eq]. done.
  - assert (upper (strip h) = upper (strip (upper (strip h)))) as Hh by (symmetry; apply normalized_twice). split; simpl.
    + destruct (starts_with_H (upper (strip h))) eqn:E; [done|apply starts_with_H_append].
    + destruct (starts_with_H (upper (strip h))); [done|by apply prefixed_head].
    + intros m (x & -> & [Hx Hin]%elem_of_filter)%elem_of_map. split; [|symmetry; apply normalized_twice].
      intros E. apply (Hblank x Hin). split; [done|]. destruct (strip x) as [|c r]; [done|].
      simpl in E. pose proof (upper_char_checked c) as H. unfold upper_char_ok in H. apply andb_true_iff in H as [_ H].
      destruct (is_py_space c); [apply String.eqb_eq in H; by rewrite H in E|by destruct (upper_char c)].
Qed.
(** A blank modifier fails the test for the symbols that are kept, and strips to nothing. *)
Lemma normal_nonblank h mods m : normal (atom h mods) → m ∈ mods → ¬ blank m.
Proof.
  intros [_ _ Hm] Hin [Hne Hs]. unfold atom in Hm. destruct (_ && _ && _); simpl in Hm.
  - destruct (Hm m Hin) as [_ E]. by rewrite Hs in E.
  - destruct (Hm "") as [Hempty _]; [|done]. apply elem_of_map. exists m. rewrite Hs. split; [done|].
    by apply elem_of_filter.
Qed.

(** C35: whatever head and modifiers it is given, the constructor makes a normal atom (upper
    case, stripped, prefixed head, no empty modifier) exactly when none of the modifiers
    consists of blanks only; and it leaves a normal atom as it is. *)
Theorem constructed_atoms_normal h mods :
  (normal (atom h mods) ↔ ∀ m, m ∈ mods → ¬ blank m) ∧
  (normal (atom h mods) → atom (head (atom h mods)) (modifiers (atom h mods)) = atom h mods).
Proof.
  split.
  - split; [intros Hn m; by eapply normal_nonblank|apply nonblank_normal].
  - intros Hn. destruct (atom h mods) as [h' mods']. by apply atom_normal.
Qed.

(** ** The lattice *)

Lemma isa_spec a b : isa a b ↔ head a = head b ∧ modifiers b ⊆ modifiers a.
Proof. apply is_a_spec. Qed.
Lemma normal_mods h (mods : gset string) a :
  normal a → h = head a → (∀ m, m ∈ mods → m ≠ "" ∧ m = upper (strip m)) → normal (mkAtom h mods) ∧ atom h mods = mkAtom h mods.
Proof.
  intros [Hp Hh _] -> Hm. assert (normal (mkAtom (head a) mods)) as Hn by (by split). split; [done|by apply atom_normal].
Qed.

(** On normal atoms [meet] is the greatest lower and [join] the least upper bound of two
    coordinates; both exist exactly for equal heads and are normal. *)
Theorem meet_and_join_bounds a b :
  normal a → normal b →
  (meet a b = None ↔ head a ≠ head b) ∧ (join a b = None ↔ head a ≠ head b) ∧
  (∀ m, meet a b = Some m → normal m ∧ ∀ c, isa c m ↔ isa c a ∧ isa c b) ∧
  (∀ j, join a b = Some j → normal j ∧ ∀ c, isa j c ↔ isa a c ∧ isa b c).
Proof.
  intros Ha Hb. unfold meet, join. destruct (String.eqb_spec (head a) (head b)) as [E|E]; [|naive_solver].
  destruct (normal_mods (head a) (modifiers a ∪ modifiers b) a Ha eq_refl) as [Hnm Hm].
  { intros m [H|H]%elem_of_union; [by apply (normal_modifiers a)|by apply (normal_modifiers b)]. }
  destruct (normal_mods (head a) (modifiers a ∩ modifiers b) a Ha eq_refl) as [Hnj Hj].
  { intros m [H _]%elem_of_intersection. by apply (normal_modifiers a). }
  rewrite Hm, Hj. split; [done|]. split; [done|]. split; intros x [= <-]; (split; [done|]); intros c; rewrite !isa_spec; simpl.
  - rewrite union_subseteq, E. tauto.
  - rewrite <- E. split; [intros [-> ?]; set_solver|]. intros [[-> ?] [_ ?]]. split; [done|]. set_solver.
Qed.

(** ** Pruning *)

Lemma extremal_exists {A} (R : relation A) `{!PartialOrder R, !RelDecision R, !EqDecision A} (l : list A) x :
  x ∈ l → ∃ y, y ∈ l ∧ R y x ∧ ∀ z, z ∈ l → R z y → z = y.
Proof.
  remember (length (filter (λ z, R z x ∧ z ≠ x) l)) as n eqn:Hn. revert x Hn.
  induction n as [n IH] using (well_founded_induction lt_wf). intros x -> Hx.
  destruct (decide (Exists (λ z, R z x ∧ z ≠ x) l)) as [Hex|Hno].
  - apply Exists_exists in Hex as (z & Hz & Hzx & Hne).
    destruct (IH (length (filter (λ y, R y z ∧ y ≠ z) l))) with (x := z) as (y & Hy & Hyz & Hmin); [|done..|].
    + assert (filter (λ y, R y z ∧ y ≠ z) l = filter (λ y, R y z ∧ y ≠ z) (filter (λ y, R y x ∧ y ≠ x) l)) as ->.
      { rewrite list_filter_filter. apply filter_ext_in. intros y _. split; [|tauto]. intros [Hyz Hyne]. split; [done|].
        split; [by etrans|]. intros ->. apply Hne. by apply (anti_symm R). }
      apply length_filter_lt with z; [by apply list_elem_of_filter|]. by intros [_ ?].
    + exists y. split; [done|]. split; [by etrans|done].
  - exists x. split; [done|]. split; [done|]. intros z Hz Hzx. destruct (decide (z = x)) as [|Hne]; [done|].
    destruct Hno. apply Exists_exists. by exists z.
Qed.

Lemma existsb_false {A} (p : A → bool) l : existsb p l = false ↔ ∀ x, x ∈ l → p x = false.
Proof.
  induction l as [|y l IH]; simpl.
  - split; [|done]. intros _ x H. inversion H.
  - rewrite orb_false_iff, IH. setoid_rewrite elem_of_cons. naive_solver.
Qed.
#[global] Instance isa_dec : RelDecision isa.
Proof. intros a b. unfold isa. apply _. Defined.
#[global] Instance flip_isa_partial_order : PartialOrder (flip isa).
Proof.
  split; [split|].
  - intros a. apply (reflexivity (R:=isa)).
  - intros a b c Hba Hcb. by apply (transitivity (R:=isa) Hcb).
  - intros a b Hba Hab. by apply (anti_symm isa).
Qed.
#[global] Instance flip_isa_dec : RelDecision (flip isa).
Proof. intros a b. unfold flip. apply _. Defined.

Lemma elem_of_prune_subsumed atoms c : c ∈ prune_subsumed atoms ↔ c ∈ atoms ∧ ∀ x, x ∈ atoms → isa x c → x = c.
Proof.
  unfold prune_subsumed, isa. rewrite list_elem_of_filter, existsb_false. setoid_rewrite andb_false_iff.
  setoid_rewrite negb_false_iff. setoid_rewrite bool_decide_eq_true. split.
  - intros [H Hc]. split; [done|]. intros x Hx Hi. destruct (H x Hx); congruence.
  - intros [Hc H]. split; [|done]. intros x Hx. destruct (is_a x c) eqn:E; auto.
Qed.
Lemma elem_of_prune_specialized atoms c : c ∈ prune_specialized atoms ↔ c ∈ atoms ∧ ∀ x, x ∈ atoms → isa c x → x = c.
Proof.
  unfold prune_specialized, isa. rewrite list_elem_of_filter, existsb_false. setoid_rewrite andb_false_iff.
  setoid_rewrite negb_false_iff. setoid_rewrite bool_decide_eq_true. split.
  - intros [H Hc]. split; [done|]. intros x Hx Hi. destruct (H x Hx); congruence.
  - intros [Hc H]. split; [|done]. intros x Hx. destruct (is_a c x) eqn:E; auto.
Qed.

(** Pruning keeps exactly the most specific (the most general) of the atoms, and every atom
    is a generalisation (a specialisation) of one that is kept. *)
Theorem pruning_keeps_extremes atoms c :
  c ∈ atoms →
  (c ∈ prune_subsumed atoms ↔ ∀ x, x ∈ atoms → isa x c → x = c) ∧
  (∃ k, k ∈ prune_subsumed atoms ∧ isa k c) ∧
  (c ∈ prune_specialized atoms ↔ ∀ x, x ∈ atoms → isa c x → x = c) ∧
  (∃ k, k ∈ prune_specialized atoms ∧ isa c k).
Proof.
  intros Hc. rewrite elem_of_prune_subsumed, elem_of_prune_specialized. split_and!; [tauto| |tauto|].
  - destruct (extremal_exists isa atoms c Hc) as (k & Hk & Hkc & Hmin). exists k. by rewrite elem_of_prune_subsumed.
  - destruct (extremal_exists (flip isa) atoms c Hc) as (k & Hk & Hkc & Hmin). exists k. by rewrite elem_of_prune_specialized.
Qed.

(** ** Indexes *)

Lemma index_lookup key rels m h :
  default [] (foldl (index_by key) m rels !! h) = default [] (m !! h) ++ filter (λ r, key r = h) rels.
Proof.
  revert m. induction rels as [|r rels IH]; intros m; simpl; [by rewrite app_nil_r|]. rewrite IH. unfold index_by.
  rewrite filter_cons. destruct (decide (key r = h)) as [<-|Hne].
  - rewrite lookup_insert_eq. simpl. by rewrite <- app_assoc.
  - by rewrite lookup_insert_ne.
Qed.
Lemma by_source rels h : default [] (_by_source_head (graph_of rels) !! h) = filter (λ r, head (source r) = h) rels.
Proof. unfold graph_of. cbn [_by_source_head]. by rewrite index_lookup, lookup_empty. Qed.
Lemma by_target rels h : default [] (_by_target_head (graph_of rels) !! h) = filter (λ r, head (target r) = h) rels.
Proof. unfold graph_of. cbn [_by_target_head]. by rewrite index_lookup, lookup_empty. Qed.
Lemma inherited_edges_filter rels a wanted :
  find_inherited_edges (graph_of rels) a wanted = filter (λ e, of_type wanted e && is_a a (source e) = true) rels.
Proof.
  unfold find_inherited_edges. rewrite by_source, list_filter_filter. apply filter_ext_in. intros e _.
  rewrite andb_true_iff, is_a_spec. intuition congruence.
Qed.

(** Looking edges up by head finds what a search of all edges finds, in the same order: the
    edges of the wanted type from generalisations of the atom, and for duals also those into
    them, turned around. *)
Theorem indexed_edges_complete rels a wanted :
  find_inherited_edges (graph_of rels) a wanted = filter (λ e, of_type wanted e && is_a a (source e) = true) rels ∧
  find_duals (graph_of rels) a =
    (target <$> filter (λ e, String.eqb (relation_type e) "DUAL_OF" && is_a a (source e) = true) rels)
    ++ (source <$> filter (λ e, String.eqb (relation_type e) "DUAL_OF" && is_a a (target e) = true) rels).
Proof.
  split; [apply inherited_edges_filter|]. unfold find_duals. rewrite inherited_edges_filter, by_target, list_filter_filter.
  f_equal. f_equal. apply filter_ext_in. intros e _. rewrite !andb_true_iff, is_a_spec. intuition congruence.
Qed.

(** ** Dictionaries *)

(** A normal atom is what its dictionary is read back as, and its modifiers are written in
    order. *)
Theorem atom_round_trip a : normal a → from_dict (to_dict a) = a ∧ StronglySorted String.le (to_dict a).2.
Proof.
  intros Hn. split; [|apply (StronglySorted_merge_sort String.le)]. unfold from_dict, to_dict. simpl.
  replace (list_to_set (merge_sort String.le (elements (modifiers a)))) with (modifiers a).
  - destruct a as [h mods]. by apply atom_normal.
  - apply set_eq. intros m. by rewrite elem_of_list_to_set, merge_sort_Permutation, elem_of_elements.
Qed.

(** A blank modifier survives the constructor as an empty one, which [meet] with the same atom
    drops: [meet] is then not idempotent. *)
Lemma blank_modifier_lost : let a := atom "H_CASH" {[" "]} in meet a a = Some (mkAtom "H_CASH" ∅) ∧ modifiers a = {[""]}.
Proof. split; apply (bool_decide_unpack _); vm_compute; exact I. Qed.

(** ** Examples *)

Definition cash : Atom := atom "cash" {["M_RESTRICTED"]}.
Definition cash_current : Atom := atom " h_cash " {["m_current"; "M_RESTRICTED"]}.
Example constructed : to_dict cash = ("H_CASH", ["M_RESTRICTED"]) ∧ to_dict cash_current = ("H_CASH", ["M_CURRENT"; "M_RESTRICTED"]).
Proof. vm_compute. split; reflexivity. Qed.
Lemma nonblank_dec (mods : gset string) :
  forallb (λ m, String.eqb m "" || negb (String.eqb (strip m) "")) (elements mods) = true → ∀ m, m ∈ mods → ¬ blank m.
Proof.
  rewrite forallb_forall. intros H m Hm%elem_of_elements%list_elem_of_In%H%orb_true_iff.
  intros [Hne Hs]. destruct Hm as [?%String.eqb_eq|?%negb_true_iff%String.eqb_neq]; done.
Qed.
Lemma constructed_atoms_normal_witness :
  normal cash_current ∧ atom (head cash_current) (modifiers cash_current) = cash_current ∧ ¬ normal (atom "H_CASH" {[" "]}).
Proof.
  destruct (constructed_atoms_normal " h_cash " {["m_current"; "M_RESTRICTED"]}) as [[_ Hn] Hkeep].
  assert (normal cash_current) as H by (apply Hn, nonblank_dec; vm_compute; reflexivity).
  split; [exact H|]. split; [exact (Hkeep H)|].
  intros Hb. apply (proj1 (proj1 (constructed_atoms_normal "H_CASH" {[" "]})) Hb " "); [set_solver|by split].
Defined.
Lemma cash_normal : normal cash ∧ normal cash_current.
Proof.
  assert (∀ a, starts_with_H (head a) && String.eqb (head a) (upper (strip (head a)))
    && forallb normal_symbol (elements (modifiers a)) = true → normal a) as H.
  { intros a [[Hp Hh%String.eqb_eq]%andb_true_iff Hm]%andb_true_iff. split; [done|done|]. intros m Hin.
    rewrite forallb_forall in Hm. specialize (Hm m ltac:(by apply list_elem_of_In, elem_of_elements)).
    by apply andb_true_iff in Hm as [?%negb_true_iff%String.eqb_neq ?%String.eqb_eq]. }
  split; apply H; vm_compute; reflexivity.
Qed.
Lemma meet_and_join_bounds_witness : isa (default cash (meet cash cash_current)) cash.
Proof.
  destruct (meet_and_join_bounds cash cash_current (proj1 cash_normal) (proj2 cash_normal)) as (_ & _ & Hmeet & _).
  destruct (meet cash cash_current) as [m|]; [|exact (reflexivity (R:=isa) cash)].
  destruct (Hmeet m eq_refl) as [_ H]. exact (proj1 (proj1 (H m) (reflexivity (R:=isa) m))).
Defined.
Lemma pruning_keeps_extremes_witness : cash_current ∈ prune_subsumed [cash; cash_current].
Proof.
  apply (pruning_keeps_extremes [cash; cash_current] cash_current); [right; left|].
  intros x Hx Hi. apply elem_of_cons in Hx as [->|Hx]; [|by apply list_elem_of_singleton in Hx].
  exfalso. revert Hi. vm_compute. discriminate.
Defined.
Lemma atom_round_trip_witness : from_dict (to_dict cash) = cash.
Proof. apply (atom_round_trip cash (proj1 cash_normal)). Defined.
