(* ===== verification/Rollforward.v ===== *)
(** * Rollforwards: [engine/xbrl/solve/rollforward_graphs.py]

    A rollforward explains a closing balance by an opening balance and signed movements, and
    checks itself by the identity between them, with the functions of [solve/identities.py].
    The signs of movements are declared by valence records ([taxonomy/domain.py],
    [taxonomy/records.py]), which the code loads once: here an argument.  Amounts are Python
    floats; a mapping of amounts is its list of items. *)
From S2P Require Import Prelude Binary64 Closures Subsumption PartitionSearch Scoping.
From S2P Require Atoms.
#[local] Open Scope Z_scope.

(** ** Valences *)

Record MovementValence := mkValence {
  scope : string;
  role : string;
  side : option string;
  sign : float;
}.

(** The loop of [movement_sign]; [generic] is the last generic sign met. *)
Fixpoint sign_loop (valences : list MovementValence) (sc r : string) (sd : option string) (generic : option float) :
    result float :=
  match valences with
  | [] => match generic with Some s => Ok s | None => Err (KeyError "no valence declared") end
  | v :: valences =>
      if negb (String.eqb (scope v) sc) || negb (String.eqb (role v) r) then sign_loop valences sc r sd generic
      else if bool_decide (side v ≠ None ∧ side v = sd) then Ok (sign v)
      else sign_loop valences sc r sd (match side v with None => Some (sign v) | Some _ => generic end)
  end.
Definition movement_sign (valences : list MovementValence) (sc r : string) (sd : option string) : result float :=
  sign_loop valences sc r sd None.

Definition add_role (sc : string) (roles : list string) (v : MovementValence) : list string :=
  if String.eqb (scope v) sc && bool_decide (role v ∉ roles) then roles ++ [role v] else roles.
Definition composition_roles (valences : list MovementValence) (sc : string) : list string :=
  foldl (add_role sc) [] valences.

Definition negative_roles (valences : list MovementValence) (sc sd : string) : gset string :=
  list_to_set (role <$> filter (λ v, scope v = sc ∧ side v = Some sd ∧ flt (sign v) (float_of_Z 0) = true) valences).

(** One role of [evaluate_composition]; the state is [total] and [fired]. *)
Definition add_leg (valences : list MovementValence) (sc : string) (values : gmap string (option float))
    (st : float * bool) (r : string) : result (float * bool) :=
  match mjoin (values !! r) with
  | Some value => s ← movement_sign valences sc r None; Ok (fadd st.1 (fmul s value), true)
  | None => Ok st
  end.
Definition evaluate_composition (valences : list MovementValence) (sc : string) (values : gmap string (option float)) :
    result (option float) :=
  '(total, fired) ← foldr_m (add_leg valences sc values) (float_of_Z 0, false) (composition_roles valences sc);
  Ok (if fired : bool then Some total else None).

(** ** Statement nodes: [solve/statement.py] *)

Record StatementNode := mkNode {
  node_concept_qname : string;
  node_atom : Atoms.Atom;
  label : string;
  facts : list XbrlFact;
  node_value : option float;
  depth : Z;
  weight : float;
  node_values : list (string * float);
  yoy_change : option float;
  yoy_pct : option float;
  node_basis : string;
  derivation_path : list string;
}.

(** ** The graphs

    Every check is [identity_verified] with the default tolerance. *)
Definition check_identity (reported computed : option float) : option bool := identity_verified reported computed one.
Definition change_total (opening net_change : option float) : option float :=
  change ← net_change; signed_rollforward_total opening [(Some change, one)].

Record CashRollforwardGraph := mkCash {
  cash_beginning : option float;
  cash_net_change : option float;
  cash_end : option float;
  beginning_date : option string;
  cash_end_date : option string;
  balance_sheet_total : option float;
  cash_components : list StatementNode;
  total_concept : option string;
}.
Definition cash_rollforward_computed (g : CashRollforwardGraph) : option float :=
  change_total (cash_beginning g) (cash_net_change g).
Definition rollforward_discrepancy (g : CashRollforwardGraph) : option float :=
  identity_discrepancy (cash_end g) (cash_rollforward_computed g).
Definition rollforward_verified (g : CashRollforwardGraph) : option bool :=
  check_identity (cash_end g) (cash_rollforward_computed g).
Definition balance_sheet_discrepancy (g : CashRollforwardGraph) : option float :=
  identity_discrepancy (cash_end g) (balance_sheet_total g).
Definition balance_sheet_verified (g : CashRollforwardGraph) : option bool :=
  check_identity (cash_end g) (balance_sheet_total g).

Record Level3RollforwardGraph := mkLevel3 {
  l3_dimensions : list (string * string);
  l3_opening : option float;
  l3_closing : option float;
  gains_earnings : option float;
  gains_oci : option float;
  purchases : option float;
  sales : option float;
  issues : option float;
  settlements : option float;
  transfers_in : option float;
  transfers_out : option float;
  transfers_net : option float;
  l3_net_change : option float;
  l3_start_date : option string;
  l3_end_date : option string;
  l3_balance_concept : option string;
  l3_side : option string;
  l3_missing_components : list string;
  l3_movements : list StatementNode;
}.
Definition axis_qname (g : Level3RollforwardGraph) : option string :=
  match l3_dimensions g with [(axis, _)] => Some axis | _ => None end.
Definition member_qname (g : Level3RollforwardGraph) : option string :=
  match l3_dimensions g with [(_, member)] => Some member | _ => None end.
Definition total_gains (g : Level3RollforwardGraph) : option float :=
  let parts := omap id [gains_earnings g; gains_oci g] in
  match parts with [] => None | _ => Some (py_sum parts) end.
(** The legs in the order they are added. *)
Definition level3_legs (g : Level3RollforwardGraph) : list (option float * string * option string) :=
  let sd := if bool_decide (l3_side g = Some "liability") then "liability" else "asset" in
  [(gains_earnings g, "gains_earnings", Some sd); (gains_oci g, "gains_oci", Some sd);
   (purchases g, "purchases", None); (issues g, "issues", None); (transfers_in g, "transfers_in", None);
   (transfers_net g, "transfers_net", None); (sales g, "sales", None); (settlements g, "settlements", None);
   (transfers_out g, "transfers_out", None)].
Definition signed_leg (valences : list MovementValence) (leg : option float * string * option string) :
    result (option float * float) :=
  s ← movement_sign valences "level3" leg.1.2 leg.2; Ok (leg.1.1, s).
Definition level3_computed (valences : list MovementValence) (g : Level3RollforwardGraph) : result (option float) :=
  components ← mapr (signed_leg valences) (level3_legs g);
  Ok (signed_rollforward_total (l3_opening g) components).
Definition level3_discrepancy (valences : list MovementValence) (g : Level3RollforwardGraph) : result (option float) :=
  computed ← level3_computed valences g; Ok (identity_discrepancy (l3_closing g) computed).
Definition level3_verified (valences : list MovementValence) (g : Level3RollforwardGraph) : result (option bool) :=
  computed ← level3_computed valences g; Ok (check_identity (l3_closing g) computed).
Definition l3_change_computed (g : Level3RollforwardGraph) : option float := change_total (l3_opening g) (l3_net_change g).
Definition l3_change_discrepancy (g : Level3RollforwardGraph) : option float :=
  identity_discrepancy (l3_closing g) (l3_change_computed g).
Definition l3_change_verified (g : Level3RollforwardGraph) : option bool :=
  check_identity (l3_closing g) (l3_change_computed g).

Record SegmentMember := mkMember { seg_member_qname : string; seg_label : string; seg_value : float }.
Record SegmentBreakdownGraph := mkSegments {
  seg_concept_qname : option string;
  seg_axis_qname : option string;
  seg_total : option float;
  seg_members : list SegmentMember;
  seg_start_date : option string;
  seg_end_date : option string;
  seg_instant_date : option string;
  seg_unit : option string;
  classification : option PartitionClassification;
  alternates : list (list SegmentMember);
  filed_member_sum : option float;
}.
Definition member_sum (g : SegmentBreakdownGraph) : option float :=
  match seg_members g with [] => None | l => Some (py_sum (seg_value <$> l)) end.
Definition segment_discrepancy (g : SegmentBreakdownGraph) : option float := identity_discrepancy (seg_total g) (member_sum g).
Definition segment_verified (g : SegmentBreakdownGraph) : option bool := check_identity (seg_total g) (member_sum g).

Definition _LEVEL_1_LOCAL : string := "FairValueInputsLevel1Member".
Definition _LEVEL_2_LOCAL : string := "FairValueInputsLevel2Member".
Definition _LEVEL_3_LOCAL : string := "FairValueInputsLevel3Member".
Definition _NAV_LOCAL : string := "FairValueMeasuredAtNetAssetValuePerShareMember".
Record FairValueHierarchyRow := mkRow {
  fv_concept_qname : string;
  fv_label : string;
  fv_instant_date : option string;
  fv_unit : option string;
  frequency_member : option string;
  fv_dimensions : list (string * string);
  levels : list (string * float);
  fv_total : option float;
  l3_tied : option bool;
}.
Definition _level (local : string) (row : FairValueHierarchyRow) : option float :=
  match filter (λ kv, qname_local kv.1 = local) (levels row) with [] => None | l => Some (py_sum l.*2) end.
Definition level1 : FairValueHierarchyRow → option float := _level _LEVEL_1_LOCAL.
Definition level2 : FairValueHierarchyRow → option float := _level _LEVEL_2_LOCAL.
Definition level3 : FairValueHierarchyRow → option float := _level _LEVEL_3_LOCAL.
Definition nav : FairValueHierarchyRow → option float := _level _NAV_LOCAL.
Definition levels_sum (row : FairValueHierarchyRow) : option float :=
  match levels row with [] => None | l => Some (py_sum l.*2) end.
Definition row_discrepancy (row : FairValueHierarchyRow) : option float := identity_discrepancy (fv_total row) (levels_sum row).
Definition row_verified (row : FairValueHierarchyRow) : option bool := check_identity (fv_total row) (levels_sum row).
Record FairValueHierarchyGraph := mkFairValue { fv_axis_qname : option string; rows : list FairValueHierarchyRow }.
Definition verified_rows (g : FairValueHierarchyGraph) : list FairValueHierarchyRow :=
  filter (λ row, row_verified row = Some true) (rows g).

Record PensionRollforwardSide := mkSide {
  side_opening : option float;
  side_closing : option float;
  side_movements : list (string * float);
  side_negative_roles : gset string;
}.
Definition side_computed (g : PensionRollforwardSide) : option float :=
  signed_rollforward_total (side_opening g)
    ((λ kv, (Some kv.2, if bool_decide (kv.1 ∈ side_negative_roles g) then fneg one else one)) <$> side_movements g).
Definition side_discrepancy (g : PensionRollforwardSide) : option float := identity_discrepancy (side_closing g) (side_computed g).
Definition side_verified (g : PensionRollforwardSide) : option bool := check_identity (side_closing g) (side_computed g).
Record PensionFundedStatusGraph := mkPension {
  pension_dimensions : list (string * string);
  plan_assets : PensionRollforwardSide;
  obligation : PensionRollforwardSide;
  funded_status_filed : option float;
  pension_start_date : option string;
  pension_end_date : option string;
  pension_missing_components : list string;
  pension_movements : list StatementNode;
}.
Definition funded_status (g : PensionFundedStatusGraph) : option float :=
  match side_closing (plan_assets g), side_closing (obligation g) with Some a, Some o => Some (fsub a o) | _, _ => None end.
Definition funded_discrepancy (g : PensionFundedStatusGraph) : option float :=
  identity_discrepancy (funded_status_filed g) (funded_status g).
Definition funded_verified (g : PensionFundedStatusGraph) : option bool :=
  check_identity (funded_status_filed g) (funded_status g).

Record EquityComponentRollforward := mkComponent {
  comp_member_qname : string;
  comp_opening : option float;
  comp_closing : option float;
  comp_movements : list (string * float);
  filed_net_change : option float;
}.
Definition comp_computed (c : EquityComponentRollforward) : option float :=
  signed_rollforward_total (comp_opening c) ((λ kv, (Some kv.2, one)) <$> comp_movements c).
Definition comp_discrepancy (c : EquityComponentRollforward) : option float := identity_discrepancy (comp_closing c) (comp_computed c).
Definition comp_verified (c : EquityComponentRollforward) : option bool := check_identity (comp_closing c) (comp_computed c).
Definition comp_change_computed (c : EquityComponentRollforward) : option float := change_total (comp_opening c) (filed_net_change c).
Definition comp_change_discrepancy (c : EquityComponentRollforward) : option float :=
  identity_discrepancy (comp_closing c) (comp_change_computed c).
Definition comp_change_verified (c : EquityComponentRollforward) : option bool :=
  check_identity (comp_closing c) (comp_change_computed c).
Record EquityRollforwardGraph := mkEquity {
  eq_axis_qname : option string;
  eq_balance_concept : option string;
  eq_opening : option float;
  eq_closing : option float;
  components : list EquityComponentRollforward;
  antichain_members : list string;
  eq_start_date : option string;
  eq_end_date : option string;
  eq_missing_components : list string;
  eq_movements : list StatementNode;
}.
Definition component (g : EquityRollforwardGraph) (m : string) : option EquityComponentRollforward :=
  snd <$> list_find (λ c, comp_member_qname c = m) (components g).
(** The components of the antichain. *)
Definition chosen (g : EquityRollforwardGraph) : list EquityComponentRollforward :=
  filter (λ c, comp_member_qname c ∈ antichain_members g) (components g).
Definition equity_computed (g : EquityRollforwardGraph) : option float :=
  signed_rollforward_total (eq_opening g) ((λ c, (Some (py_sum (comp_movements c).*2), one)) <$> chosen g).
Definition equity_discrepancy (g : EquityRollforwardGraph) : option float := identity_discrepancy (eq_closing g) (equity_computed g).
Definition equity_verified (g : EquityRollforwardGraph) : option bool := check_identity (eq_closing g) (equity_computed g).
Definition components_sum (g : EquityRollforwardGraph) : option float :=
  let values := comp_closing <$> chosen g in
  if bool_decide (values = []) || existsb (λ v, bool_decide (v = None)) values then None else Some (py_sum (omap id values)).
Definition components_discrepancy (g : EquityRollforwardGraph) : option float :=
  identity_discrepancy (eq_closing g) (components_sum g).
Definition components_verified (g : EquityRollforwardGraph) : option bool := check_identity (eq_closing g) (components_sum g).

(** ** Signs *)

Definition declares (sc r : string) (v : MovementValence) : Prop := scope v = sc ∧ role v = r.
(** The record a movement takes its sign from: the first of its side, else the last generic one. *)
Definition declared_sign (valences : list MovementValence) (sc r : string) (sd : option string) : option float :=
  match filter (λ v, declares sc r v ∧ side v ≠ None ∧ side v = sd) valences with
  | v :: _ => Some (sign v)
  | [] => sign <$> last (filter (λ v, declares sc r v ∧ side v = None) valences)
  end.

Lemma last_cons_default {A} (x : A) (l : list A) : last (x :: l) = Some (default x (last l)).
Proof. destruct l as [|y l]; [done|]. rewrite last_cons. by destruct (last (y :: l)). Qed.

Lemma sign_loop_spec valences sc r sd generic :
  sign_loop valences sc r sd generic =
  match filter (λ v, declares sc r v ∧ side v ≠ None ∧ side v = sd) valences with
  | v :: _ => Ok (sign v)
  | [] => match sign <$> last (filter (λ v, declares sc r v ∧ side v = None) valences) with
          | Some s => Ok s
          | None => match generic with Some s => Ok s | None => Err (KeyError "no valence declared") end
          end
  end.
Proof.
  revert generic. induction valences as [|v l IH]; intros generic; [done|]. cbn [sign_loop].
  destruct (decide (declares sc r v)) as [[Hs Hr]|Hd].
  - rewrite (proj2 (String.eqb_eq _ _) Hs), (proj2 (String.eqb_eq _ _) Hr). cbn [negb orb].
    case_bool_decide as Hside.
    + by rewrite filter_cons_True by done.
    + rewrite (filter_cons_False _ v) by tauto. rewrite IH.
      destruct (filter _ l); [|done]. destruct (side v) as [s|] eqn:Esv.
      * rewrite filter_cons_False by (rewrite Esv; naive_solver). done.
      * rewrite filter_cons_True by done.
        rewrite last_cons_default. by destruct (last _).
  - rewrite !filter_cons_False by tauto. rewrite <- IH.
    destruct (String.eqb_spec (scope v) sc), (String.eqb_spec (role v) r); simpl; try done. by destruct Hd.
Qed.

(** The sign of a movement is that of the first valence record for its role and its side, else
    of the last record for the role that names no side; a role without such a record, even one
    declared for another side, raises a KeyError.  It is never a silent positive. *)
Theorem movement_sign_declared valences sc r sd :
  movement_sign valences sc r sd =
  match declared_sign valences sc r sd with Some s => Ok s | None => Err (KeyError "no valence declared") end.
Proof. unfold movement_sign, declared_sign. rewrite sign_loop_spec. by destruct (filter _ valences); [destruct (_ <$> _)|]. Qed.

(** Records of other scopes do not matter. *)
Lemma sign_loop_scope valences sc r sd generic :
  sign_loop (filter (λ v, scope v = sc) valences) sc r sd generic = sign_loop valences sc r sd generic.
Proof.
  revert generic. induction valences as [|v l IH]; intros generic; [done|].
  destruct (decide (scope v = sc)) as [Hs|Hs].
  - rewrite filter_cons_True by done. cbn [sign_loop]. repeat case_match; try done; apply IH.
  - rewrite filter_cons_False by done. rewrite IH. cbn [sign_loop]. by rewrite (proj2 (String.eqb_neq _ _) Hs).
Qed.

(** ** Exact rollforwards *)

Definition leg_total (legs : list (option Z * Z)) : Z := foldr (λ l t, l.2 * default 0 l.1 + t) 0 legs.
Definition float_leg (e : Z) (l : option Z * Z) : option float * float := (grid e <$> l.1, float_of_Z l.2).
Definition leg_size (legs : list (option Z * Z)) : Z := total_abs ((λ l, default 0 l.1) <$> legs).
Definition unit_signs (legs : list (option Z * Z)) : Prop := Forall (λ l, l.2 = 1 ∨ l.2 = -1) legs.

Lemma add_signed e t s v :
  grid_exponent e → s = 1 ∨ s = -1 → small t → small v → small (t + s * v) →
  fadd (grid e t) (fmul (float_of_Z s) (grid e v)) = grid e (t + s * v).
Proof.
  intros He Hs Ht Hv Htv. destruct (decide (v = 0)) as [->|Hv0].
  - rewrite Z.mul_0_r, Z.add_0_r. assert (∃ b, fmul (float_of_Z s) (grid e 0) = S754_zero b) as [b ->].
    { destruct Hs as [-> | ->]; by eexists. }
    by apply grid_add_zero.
  - assert (small (s * v)) as Hsv by (unfold small in *; nia).
    unfold float_of_Z. rewrite grid_mul; [|done|done|by rewrite Z.add_0_l|lia|done|done].
    rewrite Z.add_0_l. by apply grid_add.
Qed.

Lemma leg_size_cons l legs : leg_size (l :: legs) = Z.abs (default 0 l.1) + leg_size legs.
Proof. done. Qed.
Lemma leg_size_pos legs : 0 <= leg_size legs.
Proof. induction legs as [|l legs IH]; [done|]. rewrite leg_size_cons. lia. Qed.
Lemma leg_total_cons l legs : leg_total (l :: legs) = l.2 * default 0 l.1 + leg_total legs.
Proof. done. Qed.
Lemma leg_total_bound legs : unit_signs legs → Z.abs (leg_total legs) <= leg_size legs.
Proof.
  induction 1 as [|l legs Hl _ IH]; [done|]. rewrite leg_total_cons, leg_size_cons.
  destruct Hl as [-> | ->]; lia.
Qed.

(** A rollforward of amounts on a grid is computed without rounding. *)
Lemma rollforward_exact e opening legs :
  grid_exponent e → unit_signs legs → Z.abs opening + leg_size legs < 2 ^ 53 →
  signed_rollforward_total (Some (grid e opening)) (map (float_leg e) legs) =
    Some (grid e (opening + leg_total legs)).
Proof.
  intros He Hs. revert opening. unfold signed_rollforward_total, mbind, option_bind.
  induction Hs as [|[[v|] s] legs Hl Hs IH]; intros opening Hb.
  - cbn. by rewrite Z.add_0_r.
  - rewrite leg_size_cons in Hb. pose proof (leg_size_pos legs). cbn [default from_option fst snd id] in *.
    cbn [map foldl]. change (float_leg e (Some v, s)) with (Some (grid e v), float_of_Z s). cbn [fst snd].
    assert (Z.abs (opening + s * v) <= Z.abs opening + Z.abs v) by (destruct Hl as [-> | ->]; lia).
    rewrite add_signed by (done || unfold small; lia). rewrite IH by lia.
    rewrite leg_total_cons. cbn [default from_option fst snd id]. f_equal. f_equal. lia.
  - rewrite leg_size_cons in Hb. cbn [default from_option fst snd id] in *. cbn [map foldl]. change (float_leg e (None, s)) with (@None float, float_of_Z s). cbn [fst snd].
    rewrite IH by lia. rewrite leg_total_cons. cbn [default from_option fst snd id]. f_equal. f_equal. lia.
Qed.

Lemma check_whole closing computed :
  Z.abs closing + Z.abs computed < 2 ^ 53 →
  check_identity (Some (grid 0 closing)) (Some (grid 0 computed)) = Some (Z.abs (closing - computed) <=? 1).
Proof.
  intros Hb. unfold check_identity, identity_verified, identity_discrepancy, mbind, option_bind.
  rewrite grid_sub, grid_abs by (done || unfold small; lia). change one with (grid 0 1).
  rewrite grid_le by (done || unfold small; lia). done.
Qed.

(** ** Level 3 reconciliations *)

(** The records [taxonomy/valence.json] declares for the scope. *)
Definition level3_valences : list MovementValence :=
  (λ x : string * option string * Z, mkValence "level3" x.1.1 x.1.2 (float_of_Z x.2)) <$>
  [("gains_earnings", Some "asset", 1); ("gains_earnings", Some "liability", -1); ("gains_oci", Some "asset", 1);
   ("gains_oci", Some "liability", -1); ("purchases", None, 1); ("issues", None, 1); ("transfers_in", None, 1);
   ("transfers_net", None, 1); ("sales", None, -1); ("settlements", None, -1); ("transfers_out", None, -1)].

Definition whole (zs : list (option Z)) : list (option float) := map (fmap (grid 0)) zs.
(** The amounts of the nine legs, those that reduce the balance last. *)
Definition filed_legs (g : Level3RollforwardGraph) : list (option float) :=
  [gains_earnings g; gains_oci g; purchases g; issues g; transfers_in g; transfers_net g; sales g; settlements g; transfers_out g].
Definition gain_sign (g : Level3RollforwardGraph) : Z := if bool_decide (l3_side g = Some "liability") then -1 else 1.
Definition leg_signs (g : Level3RollforwardGraph) : list Z := [gain_sign g; gain_sign g; 1; 1; 1; 1; -1; -1; -1].

Lemma level3_components valences g (zs : list (option Z)) :
  filter (λ v, scope v = "level3") valences = level3_valences →
  filed_legs g = whole zs →
  mapr (signed_leg valences) (level3_legs g) = Ok (map (float_leg 0) (zip zs (leg_signs g))).
Proof.
  intros Hv Hz. unfold filed_legs, level3_legs in *. cbn [fmap list_fmap fst whole map] in Hz.
  do 9 (destruct zs as [|? zs]; [done|]; cbn [whole map] in Hz; injection Hz as ? Hz). destruct zs; [|done].
  cbn [mapr]. unfold signed_leg, movement_sign. rewrite <- !(sign_loop_scope valences), Hv. unfold leg_signs, gain_sign.
  cbn [zip zip_with map]. unfold float_leg. cbn [fst snd]. 
  rewrite H, H0, H1, H2, H3, H4, H5, H6, H7. case_bool_decide; reflexivity.
Qed.

Lemma gain_unit g : gain_sign g = 1 ∨ gain_sign g = -1.
Proof. unfold gain_sign. case_bool_decide; lia. Qed.

(** C34: On whole amounts below 2 ^ 53, and with the signs the taxonomy ships, a Level 3
    reconciliation is verified exactly when its closing balance is within 1 of the opening balance
    plus the gains (subtracted for a liability), purchases, issues and transfers in, less the sales,
    settlements and transfers out; legs that are not filed count as 0. *)
Theorem level3_verified_exactly valences g opening closing ge go pu iu ti tn sa se tr :
  filter (λ v, scope v = "level3") valences = level3_valences →
  l3_opening g = Some (grid 0 opening) → l3_closing g = Some (grid 0 closing) →
  filed_legs g = whole [ge; go; pu; iu; ti; tn; sa; se; tr] →
  let amt := default 0 in
  Z.abs closing + (Z.abs opening + total_abs (amt <$> [ge; go; pu; iu; ti; tn; sa; se; tr])) < 2 ^ 53 →
  level3_verified valences g = Ok (Some (Z.abs (closing - (opening
    + gain_sign g * (amt ge + amt go) + amt pu + amt iu + amt ti + amt tn - amt sa - amt se - amt tr)) <=? 1)).
Proof.
  intros Hv Ho Hc Hz amt Hb. unfold level3_verified, level3_computed.
  rewrite (level3_components valences g _ Hv Hz), Ho, Hc. cbn [mbind result_bind].
  set (legs := zip _ (leg_signs g)).
  assert (leg_size legs = total_abs (amt <$> [ge; go; pu; iu; ti; tn; sa; se; tr])) as Hsize by done.
  assert (unit_signs legs) as Hs by (repeat apply Forall_cons_2; (apply gain_unit || (by left) || (by right) || apply Forall_nil_2)).
  assert (leg_total legs = gain_sign g * (amt ge + amt go) + amt pu + amt iu + amt ti + amt tn - amt sa - amt se - amt tr) as Ht.
  { unfold legs, leg_total, leg_signs. cbn [zip zip_with foldr fst snd]. fold (amt ge) (amt go) (amt pu) (amt iu) (amt ti) (amt tn) (amt sa) (amt se) (amt tr). ring. }
  pose proof (leg_total_bound _ Hs). clearbody legs.
  rewrite rollforward_exact by (done || unfold grid_exponent; lia). rewrite check_whole by lia.
  rewrite Ht. do 4 f_equal. lia.
Qed.

Definition demo_level3 (sd : option string) (closing : Z) : Level3RollforwardGraph :=
  mkLevel3 [("us-gaap:FairValueByAssetClassAxis", "us-gaap:DebtSecuritiesMember")] (Some (grid 0 1000)) (Some (grid 0 closing))
    (Some (grid 0 50)) None (Some (grid 0 300)) (Some (grid 0 120)) None (Some (grid 0 30)) None None None None None None None
    sd [] [].
Lemma level3_verified_exactly_witness :
  level3_verified level3_valences (demo_level3 None 1201) = Ok (Some true) ∧
  level3_verified level3_valences (demo_level3 (Some "liability") 1201) = Ok (Some false).
Proof.
  split.
  - etransitivity; [apply (level3_verified_exactly level3_valences (demo_level3 None 1201) 1000 1201 (Some 50) None (Some 300) None None None
      (Some 120) (Some 30) None); (reflexivity || vm_compute; reflexivity)|reflexivity].
  - etransitivity; [apply (level3_verified_exactly level3_valences (demo_level3 (Some "liability") 1201) 1000 1201 (Some 50) None (Some 300) None None None
      (Some 120) (Some 30) None); (reflexivity || vm_compute; reflexivity)|reflexivity].
Defined.

(** ** Equity *)

(** A component filed in whole amounts: its opening, its closing and its movements. *)
Definition whole_component (c : EquityComponentRollforward) (w : Z * Z * list Z) : Prop :=
  comp_opening c = Some (grid 0 w.1.1) ∧ comp_closing c = Some (grid 0 w.1.2) ∧ (comp_movements c).*2 = map (grid 0) w.2.
Definition component_size (w : Z * Z * list Z) : Z := Z.abs w.1.1 + Z.abs w.1.2 + total_abs w.2.
Definition component_gap (w : Z * Z * list Z) : Z := w.1.2 - (w.1.1 + total w.2).

Lemma total_abs_pos l : 0 <= total_abs l.
Proof. induction l as [|z l IH]; [done|]. rewrite total_abs_cons. lia. Qed.

Lemma leg_total_plain l : leg_total (map (λ z, (Some z, 1)) l) = total l.
Proof. induction l as [|z l IH]; [done|]. cbn [map]. rewrite leg_total_cons, total_cons, IH. cbn [fst snd default from_option id]. lia. Qed.
Lemma leg_size_plain l : leg_size (map (λ z, (Some z, 1)) l) = total_abs l.
Proof. induction l as [|z l IH]; [done|]. cbn [map]. by rewrite leg_size_cons, total_abs_cons, IH. Qed.
Lemma unit_signs_plain l : unit_signs (map (λ z, (Some z, 1)) l).
Proof. induction l; constructor; [by left|done]. Qed.
Lemma float_legs_plain e l : map (float_leg e) (map (λ z, (Some z, 1)) l) = map (λ v, (Some v, one)) (map (grid e) l).
Proof. rewrite !map_map. done. Qed.

(** Opening plus plain movements. *)
Lemma plain_rollforward opening l :
  Z.abs opening + total_abs l < 2 ^ 53 →
  signed_rollforward_total (Some (grid 0 opening)) (map (λ v, (Some v, one)) (map (grid 0) l)) = Some (grid 0 (opening + total l)).
Proof.
  intros Hb. rewrite <- float_legs_plain, rollforward_exact; [by rewrite leg_total_plain|done|apply unit_signs_plain|].
  by rewrite leg_size_plain.
Qed.

Lemma plain_legs {A} (f : A → float) (l : list A) : (λ x, (Some (f x), one)) <$> l = map (λ v, (Some v, one)) (f <$> l).
Proof. induction l as [|x l IH]; [done|]. by rewrite !fmap_cons, IH. Qed.

Lemma component_discrepancy c w :
  whole_component c w → component_size w < 2 ^ 53 → comp_discrepancy c = Some (grid 0 (component_gap w)).
Proof.
  destruct w as [[o cl] ms]. unfold whole_component, component_size, component_gap. cbn [fst snd]. intros (Ho & Hc & Hm) Hb.
  pose proof (total_bound ms). pose proof (total_abs_pos ms). unfold comp_discrepancy, comp_computed. rewrite Ho, Hc.
  rewrite plain_legs, Hm.
  rewrite plain_rollforward by lia. cbn [identity_discrepancy]. rewrite grid_sub by (done || unfold small; lia). done.
Qed.

Lemma whole_closings cs ws :
  Forall2 whole_component cs ws → comp_closing <$> cs = map (λ w, Some (grid 0 w.1.2)) ws.
Proof. induction 1 as [|c w cs ws (_ & Hc & _) _ IH]; [done|]. by rewrite fmap_cons, IH, Hc. Qed.
Lemma whole_sums cs ws :
  Forall2 whole_component cs ws → Forall (λ w, component_size w < 2 ^ 53) ws →
  (λ c, py_sum (comp_movements c).*2) <$> cs = map (grid 0) (map (λ w, total w.2) ws).
Proof.
  induction 1 as [|c w cs ws (_ & _ & Hm) _ IH]; intros Hb; [done|]. apply Forall_cons in Hb as [Hw Hb].
  rewrite fmap_cons, IH, Hm by done. cbn [map]. f_equal. unfold component_size in Hw.
  pose proof (grid_sum 0 ltac:(done) w.2) as Hsum. by rewrite <- Hsum by lia.
Qed.

Definition equity_size (ws : list (Z * Z * list Z)) : Z := foldr (λ w s, component_size w + s) 0 ws.

Lemma equity_size_cons w ws : equity_size (w :: ws) = component_size w + equity_size ws.
Proof. done. Qed.
Lemma component_size_pos w : 0 <= component_size w.
Proof. unfold component_size. pose proof (total_abs_pos w.2). lia. Qed.
Lemma equity_size_pos ws : 0 <= equity_size ws.
Proof. induction ws as [|w ws IH]; [done|]. rewrite equity_size_cons. pose proof (component_size_pos w). lia. Qed.
Lemma equity_size_each ws : Forall (λ w, component_size w <= equity_size ws) ws.
Proof.
  induction ws as [|w ws IH]; constructor; rewrite equity_size_cons.
  - pose proof (equity_size_pos ws). lia.
  - eapply Forall_impl; [exact IH|]. intros v Hv. pose proof (component_size_pos w). cbn beta in *. lia.
Qed.
(** What the parts of the components take up. *)
Lemma equity_parts ws :
  Z.abs (total (map (λ w, w.1.1) ws)) + total_abs (map (λ w, w.1.2) ws) + total_abs (map (λ w, total w.2) ws) <= equity_size ws.
Proof.
  induction ws as [|w ws IH]; [done|]. cbn [map]. rewrite equity_size_cons, !total_abs_cons, total_cons.
  unfold component_size. pose proof (total_bound w.2). lia.
Qed.
Lemma total_gaps ws :
  total (map component_gap ws) = total (map (λ w, w.1.2) ws) - (total (map (λ w, w.1.1) ws) + total (map (λ w, total w.2) ws)).
Proof. induction ws as [|w ws IH]; [done|]. cbn [map]. rewrite !total_cons, IH. unfold component_gap. lia. Qed.

Lemma components_sum_whole g ws :
  Forall2 whole_component (chosen g) ws → ws ≠ [] → equity_size ws < 2 ^ 53 →
  components_sum g = Some (grid 0 (total (map (λ w, w.1.2) ws))).
Proof.
  intros Hw Hne Hb. unfold components_sum. rewrite (whole_closings _ _ Hw).
  rewrite bool_decide_eq_false_2 by (destruct ws; done).
  assert (existsb (λ v, bool_decide (v = None)) (map (λ w : Z * Z * list Z, Some (grid 0 w.1.2)) ws) = false) as ->
    by (clear; induction ws; [done|]; cbn; done).
  cbn [orb]. f_equal. assert (omap id (map (λ w : Z * Z * list Z, Some (grid 0 w.1.2)) ws) = grid 0 <$> map (λ w, w.1.2) ws) as ->.
  { clear. induction ws as [|w ws IH]; [done|]. cbn. f_equal. exact IH. }
  apply grid_sum; [done|]. pose proof (equity_parts ws).
  pose proof (total_abs_pos (map (λ w, total w.2) ws)). lia.
Qed.

Lemma equity_computed_whole g opening ws :
  eq_opening g = Some (grid 0 opening) → Forall2 whole_component (chosen g) ws → Z.abs opening + equity_size ws < 2 ^ 53 →
  equity_computed g = Some (grid 0 (opening + total (map (λ w, total w.2) ws))).
Proof.
  intros Ho Hw Hb. unfold equity_computed. rewrite plain_legs, (whole_sums _ ws), Ho; [|done|].
  - apply plain_rollforward. pose proof (equity_parts ws). pose proof (total_abs_pos (map (λ w, w.1.2) ws)). lia.
  - eapply Forall_impl; [exact (equity_size_each ws)|]. cbn. lia.
Qed.

(** In an equity statement of whole amounts whose opening total is the sum of the opening
    balances of the antichain's components, the discrepancy of the statement is the discrepancy of
    the components' closing balances plus the discrepancies of the components' own rollforwards:
    where every component reproduces its closing balance, the two checks of the total agree. *)
Theorem equity_discrepancy_decomposes g closing ws :
  Forall2 whole_component (chosen g) ws → ws ≠ [] →
  eq_opening g = Some (grid 0 (total (map (λ w, w.1.1) ws))) → eq_closing g = Some (grid 0 closing) →
  Z.abs closing + 2 * equity_size ws < 2 ^ 53 →
  ∃ d d', equity_discrepancy g = Some (grid 0 d) ∧ components_discrepancy g = Some (grid 0 d') ∧
    comp_discrepancy <$> chosen g = map (λ w, Some (grid 0 (component_gap w))) ws ∧
    d = d' + total (map component_gap ws).
Proof.
  intros Hw Hne Ho Hc Hb. pose proof (equity_parts ws) as Hparts. pose proof (equity_size_pos ws).
  pose proof (total_abs_pos (map (λ w, total w.2) ws)). pose proof (total_bound (map (λ w, total w.2) ws)).
  pose proof (total_abs_pos (map (λ w, w.1.2) ws)). pose proof (total_bound (map (λ w, w.1.2) ws)).
  eexists _, _. split; [|split; [|split]].
  - unfold equity_discrepancy. rewrite (equity_computed_whole g _ ws Ho Hw), Hc by lia. cbn [identity_discrepancy].
    rewrite grid_sub by (done || unfold small; lia). done.
  - unfold components_discrepancy. rewrite (components_sum_whole g ws Hw Hne), Hc by lia. cbn [identity_discrepancy].
    rewrite grid_sub by (done || unfold small; lia). done.
  - assert (Forall (λ w, component_size w < 2 ^ 53) ws) as Hall
      by (eapply Forall_impl; [exact (equity_size_each ws)|]; cbn; lia).
    clear -Hw Hall. induction Hw as [|c w cs ws Hcw _ IH]; [done|]. apply Forall_cons in Hall as [Hs Hall].
    rewrite fmap_cons, IH by done. cbn [map]. by rewrite (component_discrepancy c w).
  - rewrite total_gaps. lia.
Qed.

Definition demo_component (m : string) (w : Z * Z * list Z) : EquityComponentRollforward :=
  mkComponent m (Some (grid 0 w.1.1)) (Some (grid 0 w.1.2)) (zip_with (λ k z, (k, grid 0 z)) ["net_income"; "dividends"] w.2) None.
Definition demo_equity : EquityRollforwardGraph :=
  mkEquity None None (Some (grid 0 700)) (Some (grid 0 760))
    [demo_component "CommonStock" (200, 200, [0]); demo_component "RetainedEarnings" (500, 565, [90; -25]); demo_component "Parent" (700, 765, [])]
    ["CommonStock"; "RetainedEarnings"] None None [] [].
Lemma equity_discrepancy_decomposes_witness :
  ∃ d d', equity_discrepancy demo_equity = Some (grid 0 d) ∧ components_discrepancy demo_equity = Some (grid 0 d') ∧
    comp_discrepancy <$> chosen demo_equity = [Some (grid 0 0); Some (grid 0 0)] ∧ d = d' + 0.
Proof.
  apply (equity_discrepancy_decomposes demo_equity 760 [(200, 200, [0]); (500, 565, [90; -25])]);
    [|done|reflexivity|reflexivity|vm_compute; reflexivity].
  change (chosen demo_equity) with
    [demo_component "CommonStock" (200, 200, [0]); demo_component "RetainedEarnings" (500, 565, [90; -25])].
  repeat constructor.
Defined.

(** ** Compositions *)

Lemma composition_roles_spec valences sc :
  NoDup (composition_roles valences sc) ∧
  ∀ r, r ∈ composition_roles valences sc ↔ ∃ v, v ∈ valences ∧ declares sc r v.
Proof.
  unfold composition_roles.
  enough (∀ acc, NoDup acc → NoDup (foldl (add_role sc) acc valences) ∧
    ∀ r, r ∈ foldl (add_role sc) acc valences ↔ r ∈ acc ∨ ∃ v, v ∈ valences ∧ declares sc r v) as H.
  { destruct (H [] (NoDup_nil_2)) as [Hnd Hr]. split; [done|]. intros r. rewrite Hr. set_solver. }
  induction valences as [|v l IH]; intros acc Hacc; cbn [foldl]; [set_solver|].
  assert (NoDup (add_role sc acc v) ∧ ∀ r, r ∈ add_role sc acc v ↔ r ∈ acc ∨ declares sc r v) as [Hnd Hin].
  { unfold add_role, declares. destruct (String.eqb_spec (scope v) sc) as [Hs|Hs]; cbn [andb]; [|naive_solver].
    case_bool_decide as Hr; [|split; [done|]; intros r; destruct (decide (role v = r)) as [<-|]; [destruct (decide (role v ∈ acc))|]; naive_solver].
    split; [apply NoDup_app; set_solver by (apply NoDup_singleton)|]. set_solver. }
  destruct (IH _ Hnd) as [Hnd' Hin']. split; [done|]. intros r. rewrite Hin', Hin. set_solver.
Qed.

(** On whole amounts, a composition is the signed sum over its declared roles, each once, of the
    amounts present, and is absent exactly when none of its roles carries one. *)
Theorem composition_evaluated valences sc values (zs : gmap string (option Z)) (sg : string → Z) :
  (∀ r, values !! r = fmap (grid 0) <$> zs !! r) →
  (∀ r, r ∈ composition_roles valences sc → is_Some (mjoin (zs !! r)) →
    (sg r = 1 ∨ sg r = -1) ∧ movement_sign valences sc r None = Ok (float_of_Z (sg r))) →
  total_abs (map (λ r, default 0 (mjoin (zs !! r))) (composition_roles valences sc)) < 2 ^ 53 →
  evaluate_composition valences sc values =
    Ok (if existsb (λ r, bool_decide (is_Some (mjoin (zs !! r)))) (composition_roles valences sc)
        then Some (grid 0 (leg_total (map (λ r, (mjoin (zs !! r), sg r)) (composition_roles valences sc)))) else None).
Proof.
  intros Hvals Hsg Hb. unfold evaluate_composition.
  enough (∀ roles t fired, (∀ r, r ∈ roles → is_Some (mjoin (zs !! r)) →
      (sg r = 1 ∨ sg r = -1) ∧ movement_sign valences sc r None = Ok (float_of_Z (sg r))) →
    Z.abs t + total_abs (map (λ r, default 0 (mjoin (zs !! r))) roles) < 2 ^ 53 →
    foldr_m (add_leg valences sc values) (grid 0 t, fired) roles =
      Ok (grid 0 (t + leg_total (map (λ r, (mjoin (zs !! r), sg r)) roles)),
          fired || existsb (λ r, bool_decide (is_Some (mjoin (zs !! r)))) roles)) as H.
  { change (float_of_Z 0) with (grid 0 0). rewrite H by (done || lia). cbn [mbind result_bind orb]. by rewrite Z.add_0_l. }
  clear Hsg Hb. induction roles as [|r roles IH]; intros t fired Hsg Hb; cbn [foldr_m map existsb].
  { by rewrite Z.add_0_r, orb_false_r. }
  cbn [map] in Hb. rewrite total_abs_cons in Hb. rewrite leg_total_cons. cbn [fst snd].
  pose proof (total_abs_pos (map (λ r, default 0 (mjoin (zs !! r))) roles)).
  assert (mjoin (values !! r) = grid 0 <$> mjoin (zs !! r)) as Hv by (rewrite Hvals; by destruct (zs !! r) as [[z|]|]).
  assert (add_leg valences sc values (grid 0 t, fired) r = match mjoin (values !! r) with
    | Some value => s ← movement_sign valences sc r None; Ok (fadd (grid 0 t) (fmul s value), true)
    | None => Ok (grid 0 t, fired) end) as -> by done.
  rewrite Hv. destruct (mjoin (zs !! r)) as [z|] eqn:Ez; cbn [fmap option_fmap option_map default from_option id] in *.
  - destruct (Hsg r ltac:(left) ltac:(rewrite Ez; eauto)) as [Hs ->]. cbn [mbind result_bind].
    assert (Z.abs (t + sg r * z) <= Z.abs t + Z.abs z) by (destruct Hs as [-> | ->]; lia).
    rewrite add_signed by (done || unfold small; lia). rewrite IH by (lia || set_solver).
    rewrite bool_decide_eq_true_2 by eauto. cbn [orb]. rewrite orb_true_r. do 3 f_equal. lia.
  - cbn [mbind result_bind]. rewrite IH by (lia || set_solver).
    rewrite bool_decide_eq_false_2 by (intros [? ?]; done). cbn [orb]. do 3 f_equal. lia.
Qed.

Definition debt_valences : list MovementValence :=
  [mkValence "debt_total" "current" None (float_of_Z 1); mkValence "debt_total" "noncurrent" None (float_of_Z 1)].
Lemma composition_evaluated_witness :
  evaluate_composition debt_valences "debt_total" {["noncurrent" := Some (grid 0 80); "other" := Some (grid 0 5)]} =
    Ok (Some (grid 0 80)).
Proof.
  etransitivity; [apply (composition_evaluated debt_valences "debt_total" _ {["noncurrent" := Some 80; "other" := Some 5]} (λ _, 1))|reflexivity].
  - intros r. destruct (decide (r = "noncurrent")) as [->|]; [done|]. destruct (decide (r = "other")) as [->|]; [done|].
    by rewrite !lookup_insert_ne, !lookup_singleton_ne by done.
  - intros r Hr _. split; [by left|]. change (composition_roles debt_valences "debt_total") with ["current"; "noncurrent"] in Hr.
    apply elem_of_cons in Hr as [-> |Hr]; [done|]. by apply list_elem_of_singleton in Hr as ->.
  - vm_compute. reflexivity.
Defined.
