(* ===== verification/Url.v ===== *)
(** * [urllib.parse.urlsplit] and the run state's URL check

    [_url_value] of [run_state/store.py] accepts only plain URLs of www.sec.gov.  The
    parts of the standard library it uses ([urlsplit], and the [hostname], [username],
    [password] and [port] of its result) are modelled on code points up to U+00FF.
    A bracketed (IPv6) or non-ASCII network location never passes the check; CPython
    raises [ValueError] for it in [urlsplit] or the caller raises it afterwards, and the
    model always takes the first. *)
From S2P Require Import Prelude Numerals.
From Stdlib Require Import Ascii.

Record SplitResult := mkSplit {
  scheme : string;
  netloc : string;
}.

Definition is_ascii (c : ascii) : bool := (code c <? 128)%nat.
Definition is_alpha (c : ascii) : bool :=
  let n := code (lower_ascii c) in ((97 <=? n) && (n <=? 122))%nat.
Definition scheme_char (c : ascii) : bool :=
  is_alpha c || is_digit c || char_in "+-." c.

(** [_WHATWG_C0_CONTROL_OR_SPACE] and [_UNSAFE_URL_BYTES_TO_REMOVE]. *)
Definition c0_or_space (c : ascii) : bool := (code c <=? 32)%nat.
Definition unsafe_byte (c : ascii) : bool :=
  ((code c =? 9) || (code c =? 10) || (code c =? 13))%nat.

Fixpoint lstrip_chars (p : ascii → bool) (s : string) : string :=
  match s with
  | EmptyString => EmptyString
  | String c s' => if p c then lstrip_chars p s' else s
  end.

Fixpoint remove_chars (p : ascii → bool) (s : string) : string :=
  match s with
  | EmptyString => EmptyString
  | String c s' => if p c then remove_chars p s' else String c (remove_chars p s')
  end.

(** The longest prefix without a character of [p], and the rest. *)
Fixpoint span_until (p : ascii → bool) (s : string) : string * string :=
  match s with
  | EmptyString => (EmptyString, EmptyString)
  | String c s' =>
      if p c then (EmptyString, s)
      else let '(a, b) := span_until p s' in (String c a, b)
  end.

(** [s.rpartition('@')]: the text before the last '@' (if any) and after it. *)
Fixpoint rpartition_at (s : string) : option string * string :=
  match s with
  | EmptyString => (None, EmptyString)
  | String c s' =>
      match rpartition_at s' with
      | (Some a, b) => (Some (String c a), b)
      | (None, b) => if bool_decide (c = "@"%char) then (Some EmptyString, b)
                     else (None, String c b)
      end
  end.

Definition clean_url (url : string) : string :=
  remove_chars unsafe_byte (lstrip_chars c0_or_space url).

Definition split_scheme (url : string) : string * string :=
  let '(pre, found, post) := partition_char ":"%char url in
  match pre with
  | String c _ =>
      if found && is_alpha c && string_forallb scheme_char pre
      then (string_map lower_ascii pre, post) else (EmptyString, url)
  | EmptyString => (EmptyString, url)
  end.

Definition starts_netloc (url : string) : option string :=
  match url with
  | String c (String d rest) =>
      if bool_decide (c = "/"%char) && bool_decide (d = "/"%char) then Some rest else None
  | _ => None
  end.

(** [None] is [ValueError]. *)
Definition urlsplit (url : string) : option SplitResult :=
  let '(sch, rest) := split_scheme (clean_url url) in
  match starts_netloc rest with
  | Some rest =>
      let '(net, _) := span_until (char_in "/?#") rest in
      if has_char "["%char net || has_char "]"%char net
         || negb (string_forallb is_ascii net)
      then None else Some (mkSplit sch net)
  | None => Some (mkSplit sch EmptyString)
  end.

Definition userinfo (parts : SplitResult) : option string := (rpartition_at (netloc parts)).1.
(** [username] is None exactly when there is no '@'; [password] needs a ':' before it. *)
Definition username (parts : SplitResult) : option string :=
  (λ u, (partition_char ":"%char u).1.1) <$> userinfo parts.
Definition password (parts : SplitResult) : option string :=
  u ← userinfo parts;
  let '(_, found, pw) := partition_char ":"%char u in if found then Some pw else None.

Definition hostinfo (parts : SplitResult) : string * option string :=
  let '(host, _, port) := partition_char ":"%char (rpartition_at (netloc parts)).2 in
  (host, match port with EmptyString => None | _ => Some port end).

Definition hostname (parts : SplitResult) : option string :=
  match (hostinfo parts).1 with
  | EmptyString => None
  | host =>
      let '(h, found, zone) := partition_char "%"%char host in
      Some (string_map lower_ascii h +:+ if found then String "%"%char zone else EmptyString)
  end.

(** [Err] is the [ValueError] of the [port] property. *)
Definition port (parts : SplitResult) : result (option Z) :=
  match (hostinfo parts).2 with
  | None => Ok None
  | Some p =>
      if string_forallb is_digit p then
        let n := int_of_digits 0 p in
        if (n <=? 65535)%Z then Ok (Some n) else Err (ValueError "Port out of range 0-65535")
      else Err (ValueError "Port could not be cast to integer value")
  end.

(** [_url_value] *)
Definition _url_value (value : option string) (name : string) (required : bool) :
    result (option string) :=
  match value with
  | None =>
      if required then Err (ValueError (name +:+ " must be a non-empty exact URL"))
      else Ok None
  | Some v =>
      _ ← raise_if (bool_decide (v = "") || bool_decide (v ≠ strip v))
            (ValueError (name +:+ " must be a non-empty exact URL"));
      parts ← require (urlsplit v) (ValueError (name +:+ " is malformed"));
      p ← match port parts with
          | Ok p => Ok p | Err _ => Err (ValueError (name +:+ " is malformed")) end;
      _ ← raise_if (negb (bool_decide (scheme parts = "https"))
                    || negb (bool_decide (hostname parts = Some "www.sec.gov"))
                    || bool_decide (username parts ≠ None)
                    || bool_decide (password parts ≠ None)
                    || bool_decide (p ≠ None)
                    || has_char "?"%char v || has_char "#"%char v)
            (ValueError (name +:+ " must omit credentials, query, and fragment"));
      Ok (Some v)
  end.

Example url_plain :
  _url_value (Some "https://www.sec.gov/Archives/edgar/data/1/x.txt") "requested_url" true
  = Ok (Some "https://www.sec.gov/Archives/edgar/data/1/x.txt").
Proof. reflexivity. Qed.
Example url_credentials :
  is_ok (_url_value (Some "https://a:b@www.sec.gov/") "requested_url" true) = false.
Proof. reflexivity. Qed.
Example url_port :
  is_ok (_url_value (Some "https://www.sec.gov:443/") "requested_url" true) = false.
Proof. reflexivity. Qed.
Example url_other_host :
  is_ok (_url_value (Some "https://www.sec.gov.evil.com/") "requested_url" true) = false.
Proof. reflexivity. Qed.

(** ** What the check accepts *)

Lemma partition_char_found c s a b :
  partition_char c s = (a, true, b) → s = a +:+ String c b ∧ has_char c a = false.
Proof.
  revert a; induction s as [|d s IH]; intros a; simpl; [done|].
  case_bool_decide as Hc; [intros [= <- <-]; subst; done|].
  destruct (partition_char c s) as [[a' f] b'] eqn:E. intros [= <- -> ->].
  destruct (IH a' eq_refl) as [-> Ha]. simpl. by rewrite bool_decide_false, Ha.
Qed.

Lemma partition_char_not_found c s a b :
  partition_char c s = (a, false, b) → a = s ∧ b = "" ∧ has_char c s = false.
Proof.
  revert a; induction s as [|d s IH]; intros a; simpl; [by intros [= <- <-]|].
  case_bool_decide as Hc; [done|].
  destruct (partition_char c s) as [[a' f] b'] eqn:E. intros [= <- -> ->].
  destruct (IH a' eq_refl) as (-> & -> & ->). done.
Qed.

Lemma partition_char_app c s t :
  has_char c s = false → partition_char c (s +:+ String c t) = (s, true, t).
Proof.
  induction s as [|d s IH]; simpl; rewrite ?append_nil, ?append_cons.
  - intros _. simpl. by rewrite bool_decide_true.
  - intros [Hd Hs]%orb_false_iff. simpl. rewrite Hd, IH; done.
Qed.

Lemma partition_char_none c s :
  has_char c s = false → partition_char c s = (s, false, EmptyString).
Proof.
  induction s as [|d s IH]; simpl; [done|]. intros [Hd Hs]%orb_false_iff.
  rewrite Hd, IH; done.
Qed.

Lemma rpartition_at_none s b : rpartition_at s = (None, b) ↔ b = s ∧ has_char "@"%char s = false.
Proof.
  revert b; induction s as [|c s IH]; intros b; simpl; [naive_solver|].
  destruct (rpartition_at s) as [[a|] r].
  - split; [done|]. intros [-> [_ Hs]%orb_false_iff].
    destruct (IH s) as [_ H]. specialize (H (conj eq_refl Hs)). done.
  - destruct (proj1 (IH r) eq_refl) as [-> Hs]. rewrite Hs, orb_false_r.
    rewrite (bool_decide_ext _ ("@"%char = c)) by naive_solver.
    case_bool_decide; naive_solver.
Qed.

Lemma span_until_eq p s a b : span_until p s = (a, b) → s = a +:+ b.
Proof.
  revert a; induction s as [|c s IH]; intros a; simpl; [by intros [= <- <-]|].
  destruct (p c); [by intros [= <- <-]|].
  destruct (span_until p s) as [a' b'] eqn:E. intros [= <- <-].
  rewrite append_cons. f_equal. by apply IH.
Qed.

Lemma span_until_rest p s a b :
  span_until p s = (a, b) →
  string_forallb (λ c, negb (p c)) a = true ∧
  match b with EmptyString => True | String c _ => p c = true end.
Proof.
  revert a; induction s as [|c s IH]; intros a; simpl; [by intros [= <- <-]|].
  destruct (p c) eqn:Hc; [by intros [= <- <-]|].
  destruct (span_until p s) as [a' b'] eqn:E. intros [= <- <-]. simpl. rewrite Hc.
  by apply IH.
Qed.

Lemma span_until_app p a b :
  string_forallb (λ c, negb (p c)) a = true →
  match b with EmptyString => True | String c _ => p c = true end →
  span_until p (a +:+ b) = (a, b).
Proof.
  intros Ha Hb; induction a as [|c a IH]; rewrite ?append_nil, ?append_cons.
  - destruct b as [|c b]; simpl; [done|]. by rewrite Hb.
  - simpl in *. apply andb_true_iff in Ha as [Hc Ha]. apply negb_true_iff in Hc.
    rewrite Hc, IH; done.
Qed.

Lemma string_forallb_impl (p q : ascii → bool) s :
  (∀ c, p c = true → q c = true) → string_forallb p s = true → string_forallb q s = true.
Proof.
  intros Hpq. induction s as [|c s IH]; simpl; [done|]. rewrite !andb_true_iff. naive_solver.
Qed.

Lemma has_char_forallb c (p : ascii → bool) s :
  p c = false → string_forallb p s = true → has_char c s = false.
Proof.
  intros Hc. induction s as [|d s IH]; simpl; [done|]. intros [Hd Hs]%andb_true_iff.
  rewrite IH by done. rewrite bool_decide_false; [done|]. by intros ->; congruence.
Qed.

(** Letters and dots: all a scheme or host name compared here contains. *)
Definition name_char (c : ascii) : bool := is_alpha c || bool_decide (c = "."%char).

Lemma lower_name_char c : name_char (lower_ascii c) = name_char c.
Proof. by destruct c as [[] [] [] [] [] [] [] []]. Qed.

Lemma lower_name s t :
  string_map lower_ascii s = t → string_forallb name_char t = true →
  string_forallb name_char s = true.
Proof.
  intros <-. induction s as [|c s IH]; simpl; [done|].
  rewrite lower_name_char, !andb_true_iff. naive_solver.
Qed.

Lemma has_char_app c s t : has_char c (s +:+ t) = has_char c s || has_char c t.
Proof.
  induction s as [|d s IH]; rewrite ?append_nil, ?append_cons; simpl; [done|].
  by rewrite IH, orb_assoc.
Qed.

(** The text of a URL the check accepts, once the characters [urlsplit] ignores are
    gone: scheme and host in any case, at most an empty port, then nothing or a path. *)
Definition sec_url_text (u : string) : Prop :=
  ∃ sch host colon path,
    u = sch +:+ "://" +:+ host +:+ colon +:+ path ∧
    string_map lower_ascii sch = "https" ∧ string_map lower_ascii host = "www.sec.gov" ∧
    (colon = "" ∨ colon = ":") ∧
    match path with EmptyString => True | String c _ => char_in "/?#" c = true end.

Definition urlsplit_ok (parts : SplitResult) : Prop :=
  scheme parts = "https" ∧ hostname parts = Some "www.sec.gov" ∧
  username parts = None ∧ port parts = Ok None.

Lemma hostname_inv parts :
  hostname parts = Some "www.sec.gov" →
  string_map lower_ascii (hostinfo parts).1 = "www.sec.gov".
Proof.
  unfold hostname. destruct (hostinfo parts).1 as [|c h] eqn:Eh; [done|].
  destruct (partition_char "%"%char (String c h)) as [[a f] z] eqn:E. destruct f.
  - intros [= H]. exfalso. apply (f_equal (has_char "%"%char)) in H.
    rewrite has_char_app in H. simpl in H. by rewrite orb_true_r in H.
  - apply partition_char_not_found in E as (-> & _ & _). rewrite append_nil_r.
    by intros ?%(inj Some).
Qed.

Lemma port_none parts : port parts = Ok None → (hostinfo parts).2 = None.
Proof.
  unfold port. destruct (hostinfo parts).2 as [p|]; [|done].
  destruct (string_forallb is_digit p); [|done]. by destruct (_ <=? _)%Z.
Qed.

Lemma username_none parts :
  username parts = None → has_char "@"%char (netloc parts) = false.
Proof.
  unfold username, userinfo. destruct (rpartition_at (netloc parts)) as [[a|] b] eqn:E;
    [done|]. by apply rpartition_at_none in E as [_ ->].
Qed.

Lemma urlsplit_text v parts :
  urlsplit v = Some parts → urlsplit_ok parts → sec_url_text (clean_url v).
Proof.
  unfold urlsplit, urlsplit_ok. intros Hu (Hs & Hh & Hn & Hp).
  destruct (split_scheme (clean_url v)) as [sch rest] eqn:Es.
  destruct (starts_netloc rest) as [rest2|] eqn:El; [|injection Hu as <-; done].
  destruct (span_until (char_in "/?#") rest2) as [net path] eqn:Ep.
  case_match; [done|]. injection Hu as <-. simpl in Hs. subst sch.
  apply username_none in Hn. apply hostname_inv in Hh. apply port_none in Hp. simpl in Hn.
  unfold hostinfo in Hh, Hp. simpl in Hh, Hp.
  rewrite (proj2 (rpartition_at_none net net)) in Hh, Hp by done. simpl in Hh, Hp.
  destruct (partition_char ":"%char net) as [[host f] pt] eqn:Enet. simpl in Hh, Hp.
  destruct pt; [|done].
  assert (∃ colon, net = host +:+ colon ∧ (colon = "" ∨ colon = ":")) as (colon & -> & Hc).
  { destruct f; [apply partition_char_found in Enet as [-> _]; eauto|].
    apply partition_char_not_found in Enet as (-> & _ & _). exists "".
    rewrite append_nil_r; auto. }
  pose proof (span_until_rest _ _ _ _ Ep) as [_ Hpath].
  apply span_until_eq in Ep as ->.
  unfold split_scheme in Es.
  destruct (partition_char ":"%char (clean_url v)) as [[pre f'] post] eqn:Ev.
  destruct pre as [|c pre]; [done|].
  destruct f'; [|done]. simpl in Es.
  destruct (is_alpha c && _) in Es; [|done]. apply pair_equal_spec in Es as [Hs ->].
  apply partition_char_found in Ev as [-> _].
  destruct rest as [|d1 [|d2 rest]]; [done..|]. unfold starts_netloc in El.
  destruct (bool_decide (d1 = "/"%char) && _) eqn:Ed; [|done].
  injection El as ->. apply andb_true_iff in Ed as [Ed1 Ed2].
  apply bool_decide_eq_true in Ed1, Ed2. subst d1 d2.
  exists (String c pre), host, colon, path.
  split_and!; [|done|done|done|].
  - by autorewrite with strings.
  - done.
Qed.

Lemma https_scheme_chars s :
  string_map lower_ascii s = "https" → string_forallb scheme_char s = true.
Proof.
  intros H. assert (string_forallb is_alpha (string_map lower_ascii s) = true) as Ha
    by (by rewrite H).
  clear H. induction s as [|c s IH]; simpl in *; [done|].
  apply andb_true_iff in Ha as [Hc Ha]. rewrite IH by done.
  unfold scheme_char. unfold is_alpha in *.
  replace (lower_ascii (lower_ascii c)) with (lower_ascii c) in Hc
    by (by destruct c as [[] [] [] [] [] [] [] []]).
  by rewrite Hc.
Qed.

Lemma text_urlsplit v :
  sec_url_text (clean_url v) → ∃ parts, urlsplit v = Some parts ∧ urlsplit_ok parts.
Proof.
  intros (sch & host & colon & path & Hv & Hs & Hh & Hc & Hp).
  assert (Hsn : string_forallb name_char sch = true) by (by eapply lower_name).
  assert (Hhn : string_forallb name_char host = true) by (by eapply lower_name).
  assert (Hscheme : split_scheme (clean_url v) = ("https", "//" +:+ host +:+ colon +:+ path)).
  { unfold split_scheme. rewrite Hv.
    change ("://" +:+ host +:+ colon +:+ path)
      with (String ":"%char ("//" +:+ host +:+ colon +:+ path)).
    rewrite partition_char_app by (by apply (has_char_forallb _ name_char)).
    destruct sch as [|c sch]; [done|].
    assert (is_alpha c = true ∧ string_forallb scheme_char (String c sch) = true) as [-> ->];
      [|cbn [andb]; by rewrite Hs].
    rewrite https_scheme_chars by done. simpl in Hs. split; [|done].
    injection Hs as Hc' _. by destruct c as [[] [] [] [] [] [] [] []]. }
  assert (Hcolon : string_forallb (λ c, negb (char_in "/?#" c)) (host +:+ colon) = true
    ∧ has_char "["%char (host +:+ colon) = false ∧ has_char "]"%char (host +:+ colon) = false
    ∧ has_char "@"%char (host +:+ colon) = false
    ∧ string_forallb is_ascii (host +:+ colon) = true).
  { rewrite !has_char_app, !string_forallb_app.
    assert (∀ (p : ascii → bool), (∀ c, name_char c = true → p c = true) →
      string_forallb p host = true) as Hall by (intros; by eapply string_forallb_impl).
    rewrite !Hall by (intros [[] [] [] [] [] [] [] []]; done).
    rewrite !(has_char_forallb _ name_char host) by done.
    by destruct Hc as [-> | ->]. }
  destruct Hcolon as (Hn & Hb1 & Hb2 & Hat & Hasc).
  unfold urlsplit. rewrite Hscheme.
  change (starts_netloc _) with (Some (host +:+ colon +:+ path)).
  rewrite <- append_assoc, span_until_app by done. rewrite Hb1, Hb2, Hasc.
  eexists; split; [reflexivity|].
  assert (Hr : rpartition_at (host +:+ colon) = (None, host +:+ colon))
    by (by apply rpartition_at_none).
  assert (Hi : partition_char ":"%char (host +:+ colon) =
               (host, match colon with EmptyString => false | _ => true end, "")).
  { destruct Hc as [-> | ->].
    - rewrite append_nil_r. apply partition_char_none. by apply (has_char_forallb _ name_char).
    - apply partition_char_app. by apply (has_char_forallb _ name_char). }
  unfold urlsplit_ok, hostname, username, port, userinfo, hostinfo; simpl.
  rewrite Hr; simpl. rewrite Hi; simpl. split_and!; try done.
  assert (Hpc : partition_char "%"%char host = (host, false, ""))
    by (by apply partition_char_none, (has_char_forallb _ name_char)).
  destruct host as [|c host]; [done|]. simpl in Hpc |- *.
  rewrite Hpc, append_nil_r. f_equal. exact Hh.
Qed.

Lemma password_none parts : username parts = None → password parts = None.
Proof. unfold username, password. by destruct (userinfo parts). Qed.

(** _url_value returns its argument unchanged, and returns it exactly for a non-empty
    URL without surrounding white space, query or fragment whose text, once the
    characters urlsplit drops are removed, is https on www.sec.gov. *)
Theorem url_value_accepts v name required :
  _url_value (Some v) name required = Ok (Some v) ↔
  v ≠ "" ∧ v = strip v ∧ has_char "?"%char v = false ∧ has_char "#"%char v = false ∧
  sec_url_text (clean_url v).
Proof.
  unfold _url_value. split.
  - intros H. inv_ok. boolprop.
    destruct H2 as ((((((Hs & Hh) & Hu) & _) & Hp) & Hq) & Hf).
    destruct (port x0) as [p|] eqn:Ep; [|done]. injection H1 as ->.
    apply dec_stable in Hu, Hp. subst x1.
    split_and!; [apply H|apply dec_stable, H|done|done|].
    by apply (urlsplit_text v x0).
  - intros (Hne & Hst & Hq & Hf & Ht).
    destruct (text_urlsplit v Ht) as (parts & Hp & Hs & Hh & Hu & Hpt).
    rewrite bool_decide_false, bool_decide_false by (try congruence; naive_solver). simpl.
    rewrite Hp. simpl. rewrite Hpt. simpl. rewrite Hs, Hh, Hu, (password_none _ Hu), Hq, Hf.
    done.
Qed.

Lemma url_value_same value name required v :
  _url_value value name required = Ok v → v = value.
Proof.
  destruct value as [u|]; simpl; [|destruct required; [done|by intros [= <-]]].
  intros H. apply bind_Ok in H as (_ & _ & H). apply bind_Ok in H as (parts & _ & H).
  apply bind_Ok in H as (p & _ & H). apply bind_Ok in H as (_ & _ & H). by injection H as <-.
Qed.
