(* ===== verification/Partitions.v ===== *)
(** * Dividing work among workers

    [foundation/runtime/partitions.py] (parsing a selection of partition numbers,
    round-robin buckets) and [infra/distribution/partition.py] (chunks of a work order
    assigned to named workers). *)
From S2P Require Import Prelude Numerals.
From Stdlib Require Import Ascii.

(** [sorted(set(l))] on integers. *)
Definition sorted_set (l : list Z) : list Z := merge_sort Z.le (remove_dups l).

(** [s.split(",")] *)
Fixpoint split_on (c : Ascii.ascii) (s : string) : list string :=
  match s with
  | EmptyString => [EmptyString]
  | String d s' =>
      if bool_decide (d = c) then EmptyString :: split_on c s'
      else match split_on c s' with
           | [] => [String d EmptyString]
           | x :: l => String d x :: l
           end
  end.

(** [range(start, stop)] *)
Definition range (start stop : Z) : list Z := seqZ start (stop - start).

Definition parse_token (token : string) : result (list Z) :=
  let part := strip token in
  if bool_decide (part = "") then Ok []
  else if has_char "-"%char part then
    let '(start_str, _, end_str) := partition_char "-"%char part in
    start ← int_of_string (strip start_str);
    end_ ← int_of_string (strip end_str);
    _ ← raise_if (end_ <? start)%Z (ValueError "invalid range");
    Ok (range start (end_ + 1))
  else
    n ← int_of_string part;
    Ok [n].

Definition parse_id_selection (spec : string) : result (list Z) :=
  let cleaned := strip spec in
  if bool_decide (cleaned = "") then Ok []
  else
    results ← mapr parse_token (split_on ","%char cleaned);
    Ok (sorted_set (mjoin results)).

Example parse_ranges : parse_id_selection " 5, 1-3,,2 " = Ok [1; 2; 3; 5]%Z.
Proof. vm_compute. reflexivity. Qed.
Example parse_reversed : is_ok (parse_id_selection "3-1") = false.
Proof. vm_compute. reflexivity. Qed.

(** ** Round-robin buckets *)

Section divide.
Context {A : Type}.

(** The [for idx, item in enumerate(ids)] loop. *)
Fixpoint fill (idx n : nat) (ids : list A) (buckets : list (list A)) : list (list A) :=
  match ids with
  | [] => buckets
  | item :: ids => fill (S idx) n ids (alter (λ b, b ++ [item]) (idx mod n)%nat buckets)
  end.

Definition divide_ids_among_workers (ids : list A) (worker_count : Z) :
    result (list (list A)) :=
  _ ← raise_if (worker_count <=? 0)%Z (ValueError "worker_count must be positive");
  match ids with
  | [] => Ok []
  | _ =>
      let n := Nat.min (Z.to_nat worker_count) (length ids) in
      Ok (filter (λ b, b ≠ []) (fill 0 n ids (replicate n [])))
  end.
End divide.

(** [foundation/hashing.py] *)
Definition is_sha256_hex_digest (value : string) : bool :=
  (String.length value =? 64)%nat && string_forallb (char_in "0123456789abcdef") value.

Section chunks.
Context (sha256_hexdigest : string → string).

Definition derive_assignment_id (pipeline work_id work_digest worker_id : string)
    (chunk_ids : list Z) : result string :=
  _ ← raise_if (negb (is_sha256_hex_digest work_digest))
        (ValueError "work_digest must be a SHA-256 hex digest");
  let ordered := sorted_set chunk_ids in
  _ ← raise_if (bool_decide (ordered = [])) (ValueError "assignment covers no chunks");
  let material := "assignment-v2:" +:+ pipeline +:+ ":" +:+ work_id +:+ ":" +:+ work_digest
    +:+ ":" +:+ worker_id +:+ ":" +:+ String.concat "," (pretty <$> ordered) in
  Ok (String.substring 0 16 (sha256_hexdigest material)).
End chunks.

Definition worker_name (index : nat) : string := "worker-" +:+ zero_padded 2 (Z.of_nat index).

(** [divide_chunks]: the dictionary in insertion order. *)
Definition divide_chunks (chunk_count worker_count : Z) : result (list (string * list Z)) :=
  _ ← raise_if (worker_count <? 1)%Z (ValueError "worker_count must be >= 1");
  _ ← raise_if (chunk_count <? 1)%Z (ValueError "chunk_count must be >= 1");
  Ok ((λ index : nat, (worker_name index,
         filter (λ chunk_id, (chunk_id mod worker_count)%Z = Z.of_nat index)
           (range 0 chunk_count))) <$> seq 0 (Z.to_nat worker_count)).

(** ** Selections *)

Lemma elem_of_sorted_set x l : x ∈ sorted_set l ↔ x ∈ l.
Proof. unfold sorted_set. by rewrite merge_sort_Permutation, elem_of_remove_dups. Qed.

Lemma sorted_set_sorted l : StronglySorted Z.lt (sorted_set l).
Proof.
  assert (Hs : StronglySorted Z.le (sorted_set l)) by (apply StronglySorted_merge_sort; apply _).
  assert (Hn : NoDup (sorted_set l)).
  { unfold sorted_set. rewrite merge_sort_Permutation. apply NoDup_remove_dups. }
  revert Hn. induction Hs as [|x k Hs IH Hx]; intros Hn; [constructor|].
  apply NoDup_cons in Hn as [Hxk Hn]. constructor; [by apply IH|].
  rewrite Forall_forall in *. intros y Hy. specialize (Hx y Hy).
  assert (x ≠ y) by (by intros ->). lia.
Qed.

(** Strictly ascending lists with the same elements are equal. *)
Lemma sorted_unique l k :
  StronglySorted Z.lt l → StronglySorted Z.lt k → (∀ x, x ∈ l ↔ x ∈ k) → l = k.
Proof.
  intros Hl. revert k. induction Hl as [|x l Hl IH Hx]; intros k Hk Hlk.
  - destruct k as [|y k]; [done|]. exfalso. apply (not_elem_of_nil y), Hlk. by left.
  - destruct Hk as [|y k Hk Hy]; [exfalso; apply (not_elem_of_nil x), Hlk; by left|].
    rewrite Forall_forall in Hx, Hy.
    assert (x = y) as ->.
    { assert (x ∈ y :: k) as [?|H1]%elem_of_cons by (apply Hlk; left); [done|].
      assert (y ∈ x :: l) as [?|H2]%elem_of_cons by (apply Hlk; left); [done|].
      specialize (Hy x H1). specialize (Hx y H2). lia. }
    f_equal. apply IH; [done|]. intros z. specialize (Hlk z). rewrite !elem_of_cons in Hlk.
    split; intros Hz; [specialize (Hx z Hz)|specialize (Hy z Hz)]; naive_solver lia.
Qed.

Lemma range_sorted start stop : StronglySorted Z.lt (range start stop).
Proof.
  unfold range, seqZ. generalize (Z.to_nat (stop - start)). clear. intros n.
  assert (H : ∀ n i, StronglySorted Z.lt ((λ j : nat, (Z.of_nat j + start)%Z) <$> seq i n)).
  { clear. induction n as [|n IH]; intros i; simpl; constructor; [apply IH|].
    apply Forall_fmap, Forall_forall. intros j Hj%elem_of_seq. simpl. lia. }
  exact (H n 0).
Qed.

Lemma StronglySorted_filter {A} (R : A → A → Prop) (P : A → Prop) `{∀ x, Decision (P x)} l :
  StronglySorted R l → StronglySorted R (filter P l).
Proof.
  induction 1 as [|x l Hl IH Hx]; [constructor|]. rewrite filter_cons. case_decide; [|done].
  constructor; [done|]. rewrite Forall_forall in *. intros y [_ Hy]%list_elem_of_filter. auto.
Qed.

(** What a token denotes. *)
Definition denotes (token : string) (x : Z) : Prop :=
  ∃ l, parse_token token = Ok l ∧ x ∈ l.

(** A selection that parses is strictly ascending and holds exactly the numbers its
    comma-separated tokens denote. *)
Theorem parse_id_selection_spec spec ids :
  parse_id_selection spec = Ok ids →
  StronglySorted Z.lt ids ∧
  ∀ x, x ∈ ids ↔ ∃ token, token ∈ split_on ","%char (strip spec) ∧ denotes token x.
Proof.
  unfold parse_id_selection. case_bool_decide as Hc.
  - intros [= <-]. split; [constructor|]. intros x. rewrite Hc. cbn.
    split; [by intros ?%not_elem_of_nil|]. intros (t & ->%list_elem_of_singleton & l & [= <-] & Hx).
    done.
  - intros (rs & Hrs%mapr_Ok & [= <-])%bind_Ok. split; [apply sorted_set_sorted|].
    intros x. rewrite elem_of_sorted_set, list_elem_of_join. split.
    + intros (l & Hx & [i Hi]%list_elem_of_lookup_1).
      destruct (Forall2_lookup_r _ _ _ _ _ Hrs Hi) as (token & Ht & Hp).
      exists token. split; [by eapply list_elem_of_lookup_2|]. by exists l.
    + intros (token & [i Hi]%list_elem_of_lookup_1 & l & Hp & Hx).
      destruct (Forall2_lookup_l _ _ _ _ _ Hrs Hi) as (l' & Hl' & Hp').
      exists l'. split; [congruence|]. by eapply list_elem_of_lookup_2.
Qed.

(** ** Buckets *)

Section buckets.
Context {A : Type}.
Implicit Types ids : list A.

(** The items at the positions congruent to [k], the first position being [idx]. *)
Fixpoint every (idx n k : nat) (ids : list A) : list A :=
  match ids with
  | [] => []
  | x :: ids =>
      if decide (idx mod n = k)%nat then x :: every (S idx) n k ids
      else every (S idx) n k ids
  end.

Lemma fill_lookup ids : ∀ idx n buckets k,
  fill idx n ids buckets !! k = (λ b, b ++ every idx n k ids) <$> buckets !! k.
Proof.
  induction ids as [|x ids IH]; intros idx n buckets k; simpl.
  { destruct (buckets !! k); simpl; [by rewrite app_nil_r|done]. }
  rewrite IH. destruct (decide (idx mod n = k)%nat) as [<-|Hne].
  - rewrite list_lookup_alter_eq. destruct (buckets !! _); simpl; [|done].
    by rewrite <- app_assoc.
  - by rewrite list_lookup_alter_ne.
Qed.

Lemma fill_replicate n ids :
  fill 0 n ids (replicate n []) = (λ k, every 0 n k ids) <$> seq 0 n.
Proof.
  apply list_eq. intros k. rewrite fill_lookup, list_lookup_fmap.
  destruct (decide (k < n)%nat) as [Hk|Hk].
  - rewrite lookup_replicate_2, lookup_seq_lt by done. done.
  - rewrite !lookup_ge_None_2; [done|rewrite length_seq; lia|rewrite length_replicate; lia].
Qed.

(** How many numbers below [m] are congruent to [k]. *)
Definition count_below (n k m : nat) : nat := (m / n + if (k <? m mod n)%nat then 1 else 0)%nat.

Lemma count_below_S n k m :
  (k < n)%nat →
  count_below n k (S m) = (count_below n k m + if decide (m mod n = k)%nat then 1 else 0)%nat.
Proof.
  intros Hk. unfold count_below.
  pose proof (Nat.div_mod m n ltac:(lia)) as Hm. pose proof (Nat.mod_upper_bound m n ltac:(lia)) as Hr.
  set (q := (m / n)%nat) in *. set (r := (m mod n)%nat) in *.
  destruct (decide (S r = n)) as [Hlast|Hlast].
  - rewrite <- (Nat.div_unique (S m) n (S q) 0), <- (Nat.mod_unique (S m) n (S q) 0) by lia.
    destruct (Nat.ltb_spec k 0), (Nat.ltb_spec k r); case_decide; lia.
  - rewrite <- (Nat.div_unique (S m) n q (S r)), <- (Nat.mod_unique (S m) n q (S r)) by lia.
    destruct (Nat.ltb_spec k (S r)), (Nat.ltb_spec k r); case_decide; lia.
Qed.

Lemma every_length idx n k ids :
  (k < n)%nat →
  (length (every idx n k ids) + count_below n k idx = count_below n k (idx + length ids))%nat.
Proof.
  intros Hk. revert idx; induction ids as [|x ids IH]; intros idx; simpl; [f_equal; lia|].
  rewrite <- Nat.add_succ_comm, <- IH, count_below_S by done.
  case_decide; simpl; lia.
Qed.

Lemma every_length_0 n k ids :
  (k < n)%nat → length (every 0 n k ids) = count_below n k (length ids).
Proof.
  intros Hk. pose proof (every_length 0 n k ids Hk) as H.
  unfold count_below at 1 in H. rewrite Nat.Div0.div_0_l, Nat.Div0.mod_0_l in H.
  simpl in H. lia.
Qed.

Lemma alter_join (x : A) buckets i :
  (i < length buckets)%nat →
  mjoin (alter (λ b, b ++ [x]) i buckets) ≡ₚ x :: mjoin buckets.
Proof.
  revert i; induction buckets as [|b buckets IH]; intros i Hi; simpl in Hi; [lia|].
  destruct i as [|i]; simpl.
  - rewrite <- app_assoc. symmetry. apply Permutation_middle.
  - transitivity (b ++ x :: mjoin buckets).
    + apply Permutation_app_head, (IH i). lia.
    + symmetry. apply Permutation_middle.
Qed.

Lemma fill_join ids : ∀ idx n buckets,
  (0 < n)%nat → length buckets = n →
  mjoin (fill idx n ids buckets) ≡ₚ mjoin buckets ++ ids.
Proof.
  induction ids as [|x ids IH]; intros idx n buckets Hn Hl; simpl; [by rewrite app_nil_r|].
  rewrite IH by (done || by rewrite length_alter).
  etrans; [apply Permutation_app_tail, (alter_join x); rewrite Hl; apply Nat.mod_upper_bound; lia|].
  apply Permutation_middle.
Qed.

Lemma replicate_join n : mjoin (replicate n ([] : list A)) = [].
Proof. by induction n. Qed.

Lemma divide_buckets ids worker_count :
  (0 < worker_count)%Z → ids ≠ [] →
  let n := Nat.min (Z.to_nat worker_count) (length ids) in
  divide_ids_among_workers ids worker_count = Ok ((λ k, every 0 n k ids) <$> seq 0 n) ∧
  (0 < n ≤ length ids)%nat.
Proof.
  intros Hw Hne n. assert (Hn : (0 < n ≤ length ids)%nat) by (destruct ids; [done|simpl in *; lia]).
  split; [|done]. unfold divide_ids_among_workers.
  rewrite (proj2 (Z.leb_gt worker_count 0)) by done. cbn [raise_if mbind result_bind].
  destruct ids as [|x ids]; [done|]. fold n. rewrite fill_replicate. f_equal.
  apply (filter_all (λ b : list A, b ≠ [])). intros b (k & -> & Hk%elem_of_seq)%list_elem_of_fmap Hb.
  apply (f_equal length) in Hb. rewrite every_length_0 in Hb by lia.
  unfold count_below in Hb. simpl length in *.
  destruct (Nat.lt_ge_cases (S (length ids)) n); [lia|].
  assert (1 ≤ S (length ids) / n)%nat by (apply Nat.div_le_lower_bound; lia). lia.
Qed.
End buckets.

(** With at least one worker, dividing always succeeds: as many non-empty buckets as
    there are workers and items to fill them, each item in exactly one bucket, and sizes
    that differ by at most one. *)
Theorem divide_ids_among_workers_spec {A} (ids : list A) worker_count :
  (0 < worker_count)%Z →
  ∃ buckets, divide_ids_among_workers ids worker_count = Ok buckets ∧
    length buckets = Nat.min (Z.to_nat worker_count) (length ids) ∧
    mjoin buckets ≡ₚ ids ∧ (∀ b, b ∈ buckets → b ≠ []) ∧
    ∀ b1 b2, b1 ∈ buckets → b2 ∈ buckets → (length b1 ≤ S (length b2))%nat.
Proof.
  intros Hw. destruct (decide (ids = [])) as [->|Hne].
  { exists []. unfold divide_ids_among_workers. rewrite (proj2 (Z.leb_gt worker_count 0)) by done.
    split_and!; [done|simpl; lia|done|..]; intros *; by rewrite elem_of_nil. }
  destruct (divide_buckets ids worker_count Hw Hne) as [Hd Hn]. rewrite Hd.
  set (n := Nat.min (Z.to_nat worker_count) (length ids)) in *.
  eexists; split; [done|]. split_and!.
  - by rewrite length_fmap, length_seq.
  - rewrite <- fill_replicate, fill_join; [|lia|by rewrite length_replicate].
    by rewrite replicate_join.
  - intros b (k & -> & Hk%elem_of_seq)%list_elem_of_fmap Hb.
    apply (f_equal length) in Hb. rewrite every_length_0 in Hb by lia.
    unfold count_below in Hb. simpl in Hb.
    assert (1 ≤ length ids / n)%nat by (apply Nat.div_le_lower_bound; lia). lia.
  - intros b1 b2 (k1 & -> & H1%elem_of_seq)%list_elem_of_fmap
      (k2 & -> & H2%elem_of_seq)%list_elem_of_fmap.
    rewrite !every_length_0 by lia. unfold count_below. repeat case_match; lia.
Qed.

Lemma divide_ids_among_workers_spec_witness :
  ∃ buckets, divide_ids_among_workers [1; 2; 3; 4; 5]%Z 2 = Ok buckets ∧
    mjoin buckets ≡ₚ [1; 2; 3; 4; 5]%Z.
Proof.
  destruct (divide_ids_among_workers_spec [1; 2; 3; 4; 5]%Z 2 ltac:(lia))
    as (buckets & Hb & _ & Hp & _). exists buckets. split; [exact Hb|exact Hp].
Defined.

Lemma parse_id_selection_spec_witness : StronglySorted Z.lt [1; 2; 3; 5]%Z.
Proof. refine (proj1 (parse_id_selection_spec "5,1-3,2" [1; 2; 3; 5]%Z _)). vm_compute. reflexivity. Defined.

(** ** Chunks *)

Lemma elem_of_range x start stop : x ∈ range start stop ↔ (start ≤ x < stop)%Z.
Proof. unfold range. rewrite elem_of_seqZ. lia. Qed.

Lemma worker_name_inj i j : worker_name i = worker_name j → i = j.
Proof.
  unfold worker_name. intros H%(inj (String.append "worker-")). apply zero_padded_inj in H; lia.
Qed.

(** Dividing chunks always succeeds on positive counts: the workers' names are
    distinct and every chunk belongs to exactly one of them. *)
Theorem divide_chunks_partition chunk_count worker_count :
  (0 < chunk_count)%Z → (0 < worker_count)%Z →
  ∃ workers, divide_chunks chunk_count worker_count = Ok workers ∧
    NoDup workers.*1 ∧ length workers = Z.to_nat worker_count ∧
    (∀ w chunks, (w, chunks) ∈ workers → StronglySorted Z.lt chunks) ∧
    (∀ w chunks chunk, (w, chunks) ∈ workers → chunk ∈ chunks → (0 ≤ chunk < chunk_count)%Z) ∧
    ∀ chunk, (0 ≤ chunk < chunk_count)%Z →
      ∃ w, (∃ chunks, (w, chunks) ∈ workers ∧ chunk ∈ chunks) ∧
        ∀ w' chunks', (w', chunks') ∈ workers → chunk ∈ chunks' → w' = w.
Proof.
  intros Hc Hw. unfold divide_chunks.
  rewrite (proj2 (Z.ltb_ge worker_count 1)), (proj2 (Z.ltb_ge chunk_count 1)) by lia.
  eexists. split; [reflexivity|].
  assert (Hin : ∀ w chunks, (w, chunks) ∈ ((λ index : nat, (worker_name index,
         filter (λ chunk_id, (chunk_id mod worker_count)%Z = Z.of_nat index)
           (range 0 chunk_count))) <$> seq 0 (Z.to_nat worker_count)) ↔
      ∃ i, w = worker_name i ∧ (Z.of_nat i < worker_count)%Z ∧
        chunks = filter (λ c, (c mod worker_count)%Z = Z.of_nat i) (range 0 chunk_count)).
  { intros w chunks. rewrite list_elem_of_fmap. setoid_rewrite elem_of_seq.
    split; [intros (i & [= -> ->] & Hi); exists i; split_and!; [done|lia|done]|].
    intros (i & -> & Hi & ->). exists i. split; [done|lia]. }
  split_and!.
  - rewrite <- list_fmap_compose. apply NoDup_fmap_2; [|apply NoDup_seq].
    intros i j. apply worker_name_inj.
  - by rewrite length_fmap, length_seq.
  - intros w chunks (i & _ & _ & ->)%Hin.
    apply (StronglySorted_filter _ _ _ (range_sorted 0 chunk_count)).
  - intros w chunks chunk (i & _ & _ & ->)%Hin [_ Hr]%list_elem_of_filter.
    by apply elem_of_range.
  - intros chunk Hr. pose proof (Z.mod_pos_bound chunk worker_count Hw) as Hm.
    exists (worker_name (Z.to_nat (chunk mod worker_count))). split.
    + eexists. split; [apply Hin; exists (Z.to_nat (chunk mod worker_count));
        split_and!; [done|lia|done]|].
      apply list_elem_of_filter. split; [lia|by apply elem_of_range].
    + intros w' chunks' (i & -> & Hi & ->)%Hin [Hmod _]%list_elem_of_filter.
      f_equal. lia.
Qed.

Lemma divide_chunks_partition_witness :
  ∃ workers, divide_chunks 5 2 = Ok workers ∧ NoDup workers.*1.
Proof.
  destruct (divide_chunks_partition 5 2 ltac:(lia) ltac:(lia)) as (workers & Hw & Hn & _).
  exists workers. split; [exact Hw|exact Hn].
Defined.

(** An assignment identity exists exactly for a digest and at least one chunk, and
    does not depend on the order or repetition of the chunks. *)
Theorem derive_assignment_id_spec sha256_hexdigest pipeline work_id work_digest worker_id l k :
  (∀ x, x ∈ l ↔ x ∈ k) →
  derive_assignment_id sha256_hexdigest pipeline work_id work_digest worker_id l =
  derive_assignment_id sha256_hexdigest pipeline work_id work_digest worker_id k ∧
  (is_ok (derive_assignment_id sha256_hexdigest pipeline work_id work_digest worker_id l) =
     is_sha256_hex_digest work_digest && negb (bool_decide (l = []))).
Proof.
  intros Hlk. assert (sorted_set l = sorted_set k) as Hs.
  { apply sorted_unique; [apply sorted_set_sorted..|]. intros x. by rewrite !elem_of_sorted_set. }
  assert (Hnil : sorted_set l = [] ↔ l = []).
  { split; [|by intros ->]. intros He. destruct l as [|x l]; [done|].
    assert (x ∈ sorted_set (x :: l)) as Hx by (apply elem_of_sorted_set; left).
    rewrite He in Hx. by apply not_elem_of_nil in Hx. }
  unfold derive_assignment_id. rewrite <- Hs. split; [done|].
  destruct (is_sha256_hex_digest work_digest); [|done]. simpl.
  rewrite (bool_decide_ext _ _ Hnil). by case_bool_decide.
Qed.

Lemma derive_assignment_id_spec_witness :
  derive_assignment_id (λ s, s) "p" "w" (zeros 64) "worker-00" [2; 1; 2]%Z =
  derive_assignment_id (λ s, s) "p" "w" (zeros 64) "worker-00" [1; 2]%Z.
Proof.
  refine (proj1 (derive_assignment_id_spec (λ s, s) "p" "w" (zeros 64) "worker-00" _ _ _)).
  intros x. rewrite !elem_of_cons. naive_solver.
Defined.
