(* ===== verification/Identity.v ===== *)
(** * Identities of filings: [domain/identity.py]

    [Cik] and [AccessionNumber], their spellings and the conversions between them. *)
From S2P Require Import Prelude Numerals.
From Stdlib Require Import Ascii.

(** ** Central index keys *)

Definition max_cik : Z := 9999999999.

(** [Cik(value)], with [__post_init__]. *)
Definition Cik (value : Z) : result Z :=
  _ ← raise_if ((value <? 0)%Z || (max_cik <? value)%Z) (ValueError "invalid CIK value");
  Ok value.

(** [s.lstrip("0")] *)
Fixpoint lstrip_zeros (s : string) : string :=
  match s with
  | String "0"%char s' => lstrip_zeros s'
  | _ => s
  end.

(** [Cik.from_raw] of a string; an [int] goes to [Cik] directly. *)
Definition cik_from_raw (raw : string) : result Z :=
  let cleaned := lstrip_zeros (strip raw) in
  value ← (if bool_decide (cleaned = "") then Ok 0%Z else int_of_string cleaned);
  Cik value.
Definition to_10digit (value : Z) : string := zero_padded 10 value.

(** ** Accession numbers *)

(** The regular expressions [\d{n}] and a literal character, as matchers that return
    the rest of the text. *)
Fixpoint match_digits (n : nat) (s : string) : option string :=
  match n, s with
  | O, _ => Some s
  | S n, String c s' => if is_digit c then match_digits n s' else None
  | S _, EmptyString => None
  end.
Definition match_char (c : ascii) (s : string) : option string :=
  match s with String d s' => if bool_decide (d = c) then Some s' else None | _ => None end.

(** [fullmatch] of [^\d{10}-\d{2}-\d{6}$] *)
Definition is_hyphenated_accession (value : string) : bool :=
  bool_decide ((s ← match_digits 10 value; s ← match_char "-" s; s ← match_digits 2 s;
                s ← match_char "-" s; match_digits 6 s) = Some "").

Definition newline : ascii := ascii_of_nat 10.
(** [match] of [^\d{18}$]: the [$] also matches before a final newline. *)
Definition is_digits_accession (value : string) : bool :=
  match match_digits 18 value with
  | Some EmptyString => true
  | Some (String c EmptyString) => bool_decide (c = newline)
  | _ => false
  end.

(** [s.replace("-", "")] *)
Fixpoint remove_hyphens (s : string) : string :=
  match s with
  | EmptyString => EmptyString
  | String c s' => if bool_decide (c = "-"%char) then remove_hyphens s'
                   else String c (remove_hyphens s')
  end.

(** [AccessionNumber(raw)], with [__post_init__]: the value is its [raw] field. *)
Definition AccessionNumber (raw : string) : result string :=
  let cleaned := strip raw in
  _ ← raise_if (negb (is_hyphenated_accession cleaned))
        (ValueError "invalid SEC accession number format");
  Ok cleaned.

Definition accession_from_any (raw : string) : result string :=
  let text := strip raw in
  let text :=
    if is_hyphenated_accession text then text
    else
      let digits := remove_hyphens text in
      if is_digits_accession digits
      then str_take 10 digits +:+ "-" +:+ str_take 2 (str_drop 10 digits) +:+ "-"
             +:+ str_drop 12 digits
      else text in
  AccessionNumber text.
Definition normalized (raw : string) : string := remove_hyphens raw.

Example accession_spellings :
  accession_from_any " 000032019323000106 " = Ok "0000320193-23-000106" ∧
  accession_from_any "0000320193-23-000106" = Ok "0000320193-23-000106".
Proof. split; vm_compute; reflexivity. Qed.

(** ** Central index keys: round trip *)

Lemma lstrip_zeros_value s :
  string_forallb is_digit s = true →
  string_forallb is_digit (lstrip_zeros s) = true ∧
  int_of_digits 0 (lstrip_zeros s) = int_of_digits 0 s.
Proof.
  induction s as [|c s IH]; [done|]. simpl. intros [Hc Hs]%andb_true_iff.
  destruct c as [[] [] [] [] [] [] [] []]; try discriminate; simpl;
    try (split; [exact Hs|reflexivity]). by apply IH.
Qed.

(** Every integer from 0 to 9,999,999,999 is a CIK; its ten-digit spelling has ten
    characters, is read back to the same key, and other integers are refused. *)
Theorem cik_round_trip value :
  (0 ≤ value ≤ max_cik)%Z →
  Cik value = Ok value ∧ String.length (to_10digit value) = 10%nat ∧
  cik_from_raw (to_10digit value) = Ok value.
Proof.
  intros Hv. assert (Hc : Cik value = Ok value).
  { unfold Cik. rewrite (proj2 (Z.ltb_ge value 0)), (proj2 (Z.ltb_ge max_cik value)) by lia. done. }
  split_and!; [done| |].
  - apply zero_padded_length; [lia|]. apply pretty_N_length_bound; [lia|].
    unfold max_cik in Hv. change (10 ^ N.of_nat 10)%N with 10000000000%N. lia.
  - unfold cik_from_raw, to_10digit. destruct (zero_padded_digits 10 value ltac:(lia)) as (Hd & Hne & Hval).
    rewrite strip_no_space by (by apply digits_no_space).
    destruct (lstrip_zeros_value _ Hd) as [Hd' Hv']. rewrite Hval in Hv'.
    case_bool_decide as He.
    + rewrite He in Hv'. simpl in Hv'. subst value. exact Hc.
    + rewrite int_of_digit_string, Hv' by done. exact Hc.
Qed.
Lemma cik_round_trip_witness : cik_from_raw (to_10digit 320193) = Ok 320193%Z.
Proof. apply (cik_round_trip 320193). unfold max_cik. lia. Defined.

(** ** Accession numbers: spellings *)

Lemma match_digits_Some n s r :
  match_digits n s = Some r ↔
  ∃ d, s = d +:+ r ∧ String.length d = n ∧ string_forallb is_digit d = true.
Proof.
  revert s; induction n as [|n IH]; intros s; simpl.
  - split; [intros [= <-]; by exists ""|]. intros (d & -> & Hl & _). by destruct d.
  - destruct s as [|c s].
    + split; [done|]. intros (d & H & Hl & _). by destruct d.
    + destruct (is_digit c) eqn:Hc.
      * rewrite IH. split.
        -- intros (d & -> & Hl & Hd). exists (String c d). simpl. rewrite Hc, append_cons. auto.
        -- intros ([|c' d] & H & Hl & Hd); [done|]. rewrite append_cons in H. injection H as -> ->.
           simpl in Hl, Hd. apply andb_true_iff in Hd as [_ Hd]. injection Hl as Hl. by exists d.
      * split; [done|]. intros ([|c' d] & H & Hl & Hd); [done|]. rewrite append_cons in H.
        injection H as -> ->. simpl in Hd. by rewrite Hc in Hd.
Qed.
Lemma match_char_Some c s r : match_char c s = Some r ↔ s = String c r.
Proof.
  destruct s as [|d s]; simpl; [done|]. case_bool_decide; naive_solver.
Qed.

(** The parts of a hyphenated accession number. *)
Definition accession_parts (s d1 d2 d3 : string) : Prop :=
  s = d1 +:+ "-" +:+ d2 +:+ "-" +:+ d3 ∧
  (String.length d1 = 10 ∧ String.length d2 = 2 ∧ String.length d3 = 6)%nat ∧
  string_forallb is_digit d1 = true ∧ string_forallb is_digit d2 = true ∧
  string_forallb is_digit d3 = true.

Lemma is_hyphenated_parts s :
  is_hyphenated_accession s = true ↔ ∃ d1 d2 d3, accession_parts s d1 d2 d3.
Proof.
  unfold is_hyphenated_accession, accession_parts. rewrite bool_decide_eq_true. split.
  - intros (s1 & H1 & H)%bind_Some. apply bind_Some in H as (s2 & H2 & H).
    apply bind_Some in H as (s3 & H3 & H). apply bind_Some in H as (s4 & H4 & H5).
    apply match_digits_Some in H1 as (d1 & -> & L1 & D1). apply match_char_Some in H2 as ->.
    apply match_digits_Some in H3 as (d2 & -> & L2 & D2). apply match_char_Some in H4 as ->.
    apply match_digits_Some in H5 as (d3 & -> & L3 & D3).
    exists d1, d2, d3. rewrite append_nil_r. done.
  - intros (d1 & d2 & d3 & -> & (L1 & L2 & L3) & D1 & D2 & D3).
    apply bind_Some. eexists. split; [apply match_digits_Some; by exists d1|].
    apply bind_Some. eexists. split; [by apply match_char_Some|].
    apply bind_Some. eexists. split; [apply match_digits_Some; by exists d2|].
    apply bind_Some. eexists. split; [by apply match_char_Some|].
    apply match_digits_Some. exists d3. by rewrite append_nil_r.
Qed.

Lemma accession_no_space s d1 d2 d3 :
  accession_parts s d1 d2 d3 → string_forallb no_space s = true.
Proof.
  intros (-> & _ & D1 & D2 & D3). rewrite !string_forallb_app.
  by rewrite (digits_no_space d1), (digits_no_space d2), (digits_no_space d3).
Qed.

Lemma remove_hyphens_app s t : remove_hyphens (s +:+ t) = remove_hyphens s +:+ remove_hyphens t.
Proof.
  induction s as [|c s IH]; rewrite ?append_nil, ?append_cons; simpl; [done|].
  case_bool_decide; rewrite IH; [done|]. by rewrite append_cons.
Qed.
Lemma remove_hyphens_digits s : string_forallb is_digit s = true → remove_hyphens s = s.
Proof.
  induction s as [|c s IH]; simpl; [done|]. intros [Hc Hs]%andb_true_iff.
  rewrite bool_decide_false by (by intros ->). by rewrite IH.
Qed.

Lemma normalized_parts s d1 d2 d3 : accession_parts s d1 d2 d3 → normalized s = d1 +:+ d2 +:+ d3.
Proof.
  intros (-> & _ & D1 & D2 & D3). unfold normalized. rewrite !remove_hyphens_app.
  by rewrite !(remove_hyphens_digits d1), !(remove_hyphens_digits d2), !(remove_hyphens_digits d3).
Qed.

Lemma digits_not_hyphenated s : string_forallb is_digit s = true → is_hyphenated_accession s = false.
Proof.
  intros Hs. apply not_true_iff_false. intros (d1 & d2 & d3 & -> & _)%is_hyphenated_parts.
  rewrite !string_forallb_app in Hs. simpl in Hs. by rewrite andb_false_r in Hs.
Qed.

Lemma AccessionNumber_hyphenated s :
  is_hyphenated_accession s = true → AccessionNumber s = Ok s.
Proof.
  intros Hh. pose proof Hh as (d1 & d2 & d3 & Hp)%is_hyphenated_parts.
  unfold AccessionNumber. rewrite strip_no_space by (by eapply accession_no_space).
  by rewrite Hh.
Qed.
Lemma accession_from_any_hyphenated raw number :
  accession_from_any raw = Ok number → is_hyphenated_accession number = true.
Proof.
  unfold accession_from_any, AccessionNumber.
  intros (_ & Hc%raise_if_Ok & [= <-])%bind_Ok. by boolprop.
Qed.

Lemma accession_of_hyphenated s :
  is_hyphenated_accession s = true → accession_from_any s = Ok s.
Proof.
  intros Hh. pose proof Hh as (d1 & d2 & d3 & Hp)%is_hyphenated_parts.
  assert (strip s = s) as Hs by (by eapply strip_no_space, accession_no_space).
  unfold accession_from_any, AccessionNumber. by rewrite Hs, Hh, Hs, Hh.
Qed.

Lemma accession_of_normalized s :
  is_hyphenated_accession s = true → accession_from_any (normalized s) = Ok s.
Proof.
  intros Hh. pose proof Hh as (d1 & d2 & d3 & Hp)%is_hyphenated_parts.
  rewrite (normalized_parts _ _ _ _ Hp).
  assert (strip s = s) as Hs by (by eapply strip_no_space, accession_no_space).
  destruct Hp as (He & (L1 & L2 & L3) & D1 & D2 & D3).
  assert (Hd : string_forallb is_digit (d1 +:+ d2 +:+ d3) = true)
    by (by rewrite !string_forallb_app, D1, D2, D3).
  unfold accession_from_any. rewrite strip_no_space by (by apply digits_no_space).
  rewrite digits_not_hyphenated, remove_hyphens_digits by done.
  assert (is_digits_accession (d1 +:+ d2 +:+ d3) = true) as ->.
  { unfold is_digits_accession. rewrite (proj2 (match_digits_Some 18 _ "")); [done|].
    exists (d1 +:+ d2 +:+ d3). rewrite append_nil_r, !length_append. split_and!; [done|lia|done]. }
  rewrite str_take_app, str_drop_app, str_take_app by done.
  rewrite <- (append_assoc d1 d2 d3), (str_drop_app 12 (d1 +:+ d2) d3) by (rewrite length_append; lia).
  rewrite <- He. unfold AccessionNumber. by rewrite Hs, Hh.
Qed.

(** Whatever spelling is accepted, the accession number is in hyphenated form, its
    unhyphenated form has eighteen digits, and both forms are read back to it. *)
Theorem accession_round_trip raw number :
  accession_from_any raw = Ok number →
  is_hyphenated_accession number = true ∧
  String.length (normalized number) = 18%nat ∧
  accession_from_any number = Ok number ∧
  accession_from_any (normalized number) = Ok number.
Proof.
  intros Hh%accession_from_any_hyphenated.
  split_and!; [done| |by apply accession_of_hyphenated|by apply accession_of_normalized].
  apply is_hyphenated_parts in Hh as (d1 & d2 & d3 & Hp).
  rewrite (normalized_parts _ _ _ _ Hp). destruct Hp as (_ & (L1 & L2 & L3) & _).
  rewrite !length_append. lia.
Qed.
Lemma accession_round_trip_witness :
  accession_from_any (normalized "0000320193-23-000106") = Ok "0000320193-23-000106".
Proof.
  apply (accession_round_trip "000032019323000106" "0000320193-23-000106").
  vm_compute. reflexivity.
Defined.
