(* ===== verification/Regex.v ===== *)
(** * Regular expressions

    The patterns of [domain/sec_urls.py] are regular expressions in the strict sense.  They are
    matched here by derivatives; [match_re_spec] is their meaning.  Nothing here models code of the
    repository: the syntax stands for [re] of Python's standard library. *)
From Stdlib Require Import Ascii.
From S2P Require Import Prelude Numerals.

Inductive re :=
  | Void
  | Eps
  | Chr (p : ascii → bool)
  | Cat (r s : re)
  | Alt (r s : re)
  | Star (r : re).

Inductive matches : re → string → Prop :=
  | M_eps : matches Eps ""
  | M_chr p c : p c = true → matches (Chr p) (String c "")
  | M_cat r s u v : matches r u → matches s v → matches (Cat r s) (u +:+ v)
  | M_alt_l r s u : matches r u → matches (Alt r s) u
  | M_alt_r r s u : matches s u → matches (Alt r s) u
  | M_star_nil r : matches (Star r) ""
  | M_star_cons r u v : matches r u → matches (Star r) v → matches (Star r) (u +:+ v).

Fixpoint nullable (r : re) : bool :=
  match r with
  | Void | Chr _ => false
  | Eps | Star _ => true
  | Cat r s => nullable r && nullable s
  | Alt r s => nullable r || nullable s
  end.
(** [Cat] and [Alt] without the parts that match nothing, so that derivatives stay small. *)
Definition cat (r s : re) : re := match r with Void => Void | Eps => s | _ => Cat r s end.
Definition alt (r s : re) : re := match r with Void => s | _ => match s with Void => r | _ => Alt r s end end.
Fixpoint deriv (c : ascii) (r : re) : re :=
  match r with
  | Void | Eps => Void
  | Chr p => if p c then Eps else Void
  | Cat r s => if nullable r then alt (cat (deriv c r) s) (deriv c s) else cat (deriv c r) s
  | Alt r s => alt (deriv c r) (deriv c s)
  | Star r => cat (deriv c r) (Star r)
  end.
Fixpoint match_re (r : re) (u : string) : bool :=
  match u with
  | EmptyString => nullable r
  | String c u => match_re (deriv c r) u
  end.

Lemma void_spec u : matches Void u ↔ False.
Proof. split; [intros H; inversion H|done]. Qed.
Lemma eps_spec u : matches Eps u ↔ u = "".
Proof. split; [by inversion 1|intros ->; constructor]. Qed.
Lemma cat_spec r s u : matches (Cat r s) u ↔ ∃ v w, u = v +:+ w ∧ matches r v ∧ matches s w.
Proof. split; [intros H; inversion H; subst; eauto|intros (v & w & -> & ? & ?); by constructor]. Qed.
Lemma alt_spec r s u : matches (Alt r s) u ↔ matches r u ∨ matches s u.
Proof. split; [intros H; inversion H; subst; auto|intros [?|?]; [by apply M_alt_l|by apply M_alt_r]]. Qed.

Lemma cat_matches r s u : matches (cat r s) u ↔ matches (Cat r s) u.
Proof.
  destruct r; try done; cbn [cat]; rewrite cat_spec.
  - rewrite void_spec. split; [done|]. intros (v & w & _ & H & _). by apply void_spec in H.
  - setoid_rewrite eps_spec. split; [intros H; by exists "", u|]. by intros (v & w & -> & -> & H).
Qed.
Lemma alt_matches r s u : matches (alt r s) u ↔ matches (Alt r s) u.
Proof.
  rewrite alt_spec. destruct r; cbn [alt]; [rewrite void_spec; tauto|destruct s; rewrite ?alt_spec, ?void_spec; tauto..].
Qed.

Lemma nullable_spec r : nullable r = true ↔ matches r "".
Proof.
  induction r as [| |p|r IHr s IHs|r IHr s IHs|r IH]; cbn [nullable].
  - split; [done|intros H; inversion H].
  - split; [constructor|done].
  - split; [done|intros H; inversion H].
  - rewrite andb_true_iff, IHr, IHs. split.
    + intros [Hr Hs]. rewrite <- (append_nil ""). by constructor.
    + intros H. inversion H as [| |? ? u v Hr Hs E1 E2| | | |]; subst. destruct u; [|done]. rewrite append_nil in E2. by subst.
  - rewrite orb_true_iff, IHr, IHs. split; [intros [?|?]; [by apply M_alt_l|by apply M_alt_r]|intros H; inversion H; subst; auto].
  - split; [constructor|done].
Qed.

Lemma deriv_spec r c u : matches (deriv c r) u ↔ matches r (String c u).
Proof.
  revert u. induction r as [| |p|r IHr s IHs|r IHr s IHs|r IH]; intros u; cbn [deriv].
  - split; intros H; inversion H.
  - split; intros H; inversion H.
  - destruct (p c) eqn:Hp; split; intros H; inversion H; subst; [by constructor|constructor|congruence].
  - assert (matches (cat (deriv c r) s) u ↔ ∃ v w, u = v +:+ w ∧ matches r (String c v) ∧ matches s w) as Hcat.
    { rewrite cat_matches. split.
      - intros H. inversion H as [| |? ? v w Hv Hw E1 E2| | | |]; subst. exists v, w. by rewrite <- IHr.
      - intros (v & w & -> & Hv & Hw). constructor; [by apply IHr|done]. }
    assert (matches (Cat r s) (String c u) ↔
      (∃ v w, u = v +:+ w ∧ matches r (String c v) ∧ matches s w) ∨ matches r "" ∧ matches s (String c u)) as Hsplit.
    { split.
      - intros H. inversion H as [| |? ? v w Hv Hw E1 E2| | | |]; subst. destruct v as [|c' v].
        + rewrite append_nil in E2. subst. by right.
        + injection E2 as -> <-. left. by exists v, w.
      - intros [(v & w & -> & Hv & Hw)|[Hr Hs]]; [rewrite <- append_cons; by constructor|].
        rewrite <- (append_nil (String c u)). by constructor. }
    rewrite Hsplit. destruct (nullable r) eqn:Hn.
    + apply nullable_spec in Hn. rewrite alt_matches. split.
      * intros H. inversion H; subst; [left; by apply Hcat|right; split; [done|by apply IHs]].
      * intros [H|[_ H]]; [apply M_alt_l; by apply Hcat|apply M_alt_r; by apply IHs].
    + rewrite Hcat. split; [by left|]. intros [H|[H _]]; [done|]. apply nullable_spec in H. congruence.
  - by rewrite alt_matches, !alt_spec, IHr, IHs.
  - rewrite cat_matches. split.
    + intros H. inversion H as [| |? ? v w Hv Hw E1 E2| | | |]; subst. rewrite <- append_cons. constructor; [by apply IH|done].
    + intros H. remember (Star r) as q eqn:Eq. remember (String c u) as w eqn:Ew. revert u Ew.
      induction H as [| | | | | |r' u' v Hu _ Hv IHv]; intros u0 Ew; try done. injection Eq as ->. destruct u' as [|c' u'].
      * rewrite append_nil in Ew. by apply IHv.
      * injection Ew as -> <-. constructor; [by apply IH|done].
Qed.

(** Matching by derivatives decides the language of the expression. *)
Lemma match_re_spec r u : match_re r u = true ↔ matches r u.
Proof. revert r. induction u as [|c u IH]; intros r; cbn [match_re]; [apply nullable_spec|]. by rewrite IH, deriv_spec. Qed.

(** ** The syntax patterns use *)

Definition lit_char (c : ascii) : re := Chr (λ x, bool_decide (x = c)).
Fixpoint lit (s : string) : re := match s with EmptyString => Eps | String c s => Cat (lit_char c) (lit s) end.
Definition dot : re := Chr (λ _, true).
Definition anything : re := Star dot.
Definition not_slash : re := Chr (λ c, negb (bool_decide (c = "/"%char))).
Definition digit : re := Chr is_digit.
Definition plus (r : re) : re := Cat r (Star r).
Fixpoint times (n : nat) (r : re) : re := match n with O => Eps | S n => Cat r (times n r) end.
Definition opt (r : re) : re := Alt r Eps.
Fixpoint seq_re (l : list re) : re := match l with [] => Eps | [r] => r | r :: l => Cat r (seq_re l) end.

Lemma lit_spec s u : matches (lit s) u ↔ u = s.
Proof.
  revert u. induction s as [|c s IH]; intros u; cbn [lit].
  - split; [by inversion 1|intros ->; constructor].
  - split.
    + intros H. inversion H as [| |? ? v w Hv Hw E1 E2| | | |]; subst. inversion Hv as [|? c' Hp| | | | |]; subst.
      apply bool_decide_eq_true in Hp as ->. by apply IH in Hw as ->.
    + intros ->. change (String c s) with (String c "" +:+ s). constructor; [constructor; by apply bool_decide_eq_true|by apply IH].
Qed.
Lemma star_chr p u : matches (Star (Chr p)) u ↔ string_forallb p u = true.
Proof.
  split.
  - intros H. remember (Star (Chr p)) as q eqn:Eq. induction H as [| | | | | |r u v Hu _ Hv IHv]; try done.
    injection Eq as ->. inversion Hu as [|? c Hp| | | | |]; subst.
    change (p c && string_forallb p v = true). by rewrite Hp, IHv.
  - induction u as [|c u IH]; [constructor|]. cbn. intros [Hc Hu]%andb_true_iff. change (String c u) with (String c "" +:+ u).
    constructor; [by constructor|by apply IH].
Qed.
Lemma anything_spec u : matches anything u.
Proof. apply star_chr. induction u as [|c u IH]; [done|]. done. Qed.
