(* ===== verification/SecUrls.v ===== *)
(** * URLs of SEC archives: [domain/sec_urls.py]

    Builders of canonical URLs, the classification of a URL by its shape, and the validation that
    confines what is fetched for a filing to the directory of its accession.  [urlsplit] is that of
    [Url], with the path, query and fragment; texts are ASCII. *)
From Stdlib Require Import Ascii.
From S2P Require Import Prelude Numerals Url Identity Regex.

(** ** [urlsplit] *)

Record UrlParts := mkUrlParts {
  up_split : SplitResult;
  up_path : string;
  up_query : string;
  up_fragment : string;
}.
Definition split_tail (parts : SplitResult) (rest : string) : UrlParts :=
  let '(rest, _, fragment) := partition_char "#"%char rest in
  let '(path, _, query) := partition_char "?"%char rest in
  mkUrlParts parts path query fragment.
Definition urlsplit_full (url : string) : option UrlParts :=
  parts ← urlsplit url;
  let rest := (split_scheme (clean_url url)).2 in
  Some (split_tail parts match starts_netloc rest with
                         | Some rest => (span_until (char_in "/?#") rest).2
                         | None => rest
                         end).

(** ** Builders *)

Definition SEC_SUBMISSIONS_BASE : string := "https://data.sec.gov/submissions".
Definition SEC_XBRL_API_BASE : string := "https://data.sec.gov/api/xbrl".
Definition SEC_ARCHIVE_BASE : string := "https://www.sec.gov/Archives/edgar/data".
Definition SUBMISSIONS_BULK_URL : string := "https://www.sec.gov/Archives/edgar/daily-index/bulkdata/submissions.zip".
Definition CIK_PADDED_WIDTH : nat := 10.

Definition normalize_cik (cik : Z) : string := zero_padded CIK_PADDED_WIDTH cik.
Definition submissions_url (cik : Z) : string := SEC_SUBMISSIONS_BASE +:+ "/CIK" +:+ normalize_cik cik +:+ ".json".
Definition historical_submissions_url (source_file : string) : string := SEC_SUBMISSIONS_BASE +:+ "/" +:+ source_file.
Definition submissions_bulk_url : string := SUBMISSIONS_BULK_URL.
Definition companyconcept_url (cik : Z) (taxonomy tag : string) : string :=
  SEC_XBRL_API_BASE +:+ "/companyconcept/CIK" +:+ normalize_cik cik +:+ "/" +:+ taxonomy +:+ "/" +:+ tag +:+ ".json".
(** With the default base URL, which has no slash at its end. *)
Definition archives_url (cik : Z) (accession_number document_name : string) : string :=
  SEC_ARCHIVE_BASE +:+ "/" +:+ str_of_int cik +:+ "/" +:+ remove_hyphens accession_number +:+ "/" +:+ document_name.
Definition index_url_for (accession : string) (archive_cik : Z) : result string :=
  identity ← accession_from_any accession;
  Ok (archives_url archive_cik (normalized identity) (identity +:+ "-index.html")).
Definition index_json_url_for (accession : string) (archive_cik : Z) : result string :=
  identity ← accession_from_any accession;
  Ok (archives_url archive_cik (normalized identity) "index.json").

(** [str.isdigit] also holds of the three superscript digits. *)
Definition isdigit_char (c : ascii) : bool := is_digit c || existsb (Nat.eqb (code c)) [178; 179; 185]%nat.
Definition normalize_accession (accession : string) : option string :=
  if String.eqb accession "" then None else
  let compact := remove_hyphens (strip accession) in
  if String.eqb compact "" || negb (string_forallb isdigit_char compact)
     || negb ((10 <=? String.length compact) && (String.length compact <=? 18))%nat
  then None else Some compact.
Definition accession_hyphenated (accession : string) : result string :=
  canonical ← require (normalize_accession accession) (ValueError "accession must be canonicalizable");
  Ok (if (String.length canonical =? 18)%nat
      then str_take 10 canonical +:+ "-" +:+ str_take 2 (str_drop 10 canonical) +:+ "-" +:+ str_drop 12 canonical
      else str_take 10 canonical +:+ "-" +:+ str_drop 10 canonical).
Definition full_submission_url_for (archive_cik accession : string) : result string :=
  canonical ← require (normalize_accession accession) (ValueError "accession must be canonicalizable");
  dashed ← accession_hyphenated canonical;
  cik ← int_of_string archive_cik;
  Ok (archives_url cik canonical (dashed +:+ ".txt")).
Definition xbrl_package_url_for (archive_cik accession : string) : result string :=
  canonical ← require (normalize_accession accession) (ValueError "accession must be canonicalizable");
  dashed ← accession_hyphenated canonical;
  cik ← int_of_string archive_cik;
  Ok (archives_url cik canonical (dashed +:+ "-xbrl.zip")).

(** ** Validation *)

Record ArchiveUrlParts := mkArchive { url : string; archive_cik : string; archive_accession : string; document_path : string }.

Definition casefold : string → string := string_map lower_ascii.
Record ArchiveUrlPolicy := mkPolicy { allowed_schemes : list string; allowed_hosts : list string }.
Definition lower_letter (c : ascii) : bool := ((97 <=? code c) && (code c <=? 122))%nat.
Definition _SCHEME_RE : re := Cat (Chr lower_letter) (Star (Chr (λ c, lower_letter c || is_digit c || char_in "+.-" c))).
Definition new_policy (schemes hosts : list string) : result ArchiveUrlPolicy :=
  let schemes := casefold <$> schemes in
  let hosts := casefold <$> hosts in
  _ ← raise_if (bool_decide (schemes = []) || bool_decide (hosts = []) || existsb (String.eqb "") (schemes ++ hosts))
        (ValueError "archive URL policy needs schemes and hosts");
  _ ← raise_if (existsb (λ s, negb (match_re _SCHEME_RE s)) schemes)
        (ValueError "archive URL policy contains an invalid scheme");
  _ ← raise_if (existsb (λ h, has_char "/"%char h || has_char ":"%char h || has_char "@"%char h) hosts)
        (ValueError "archive URL policy contains an invalid host");
  Ok (mkPolicy schemes hosts).
Definition DEFAULT_ARCHIVE_URL_POLICY : ArchiveUrlPolicy := mkPolicy ["https"] ["www.sec.gov"].

(** The rest of a text that starts so. *)
Fixpoint strip_prefix (p s : string) : option string :=
  match p, s with
  | EmptyString, _ => Some s
  | String c p, String d s => if decide (c = d) then strip_prefix p s else None
  | _, _ => None
  end.
Definition not_digit (c : ascii) : bool := negb (is_digit c).
(** The groups of [_ARCHIVE_PATH_RE]: digits, 10 to 18 digits, and the rest of the path, with
    slashes between them. *)
Definition archive_groups (path : string) : option (string * string * string) :=
  rest ← strip_prefix "/Archives/edgar/data/" path;
  let '(cik, rest) := span_until not_digit rest in
  rest ← strip_prefix "/" rest;
  let '(accession, rest) := span_until not_digit rest in
  document ← strip_prefix "/" rest;
  if negb (String.eqb cik "") && (10 <=? String.length accession)%nat && (String.length accession <=? 18)%nat
     && negb (String.eqb document "") && negb (has_char newline document)
  then Some (cik, accession, document) else None.
Definition only_slashes (s : string) : bool := string_forallb (λ c, bool_decide (c = "/"%char)) s.
Definition _archive_parts (path url : string) : option ArchiveUrlParts :=
  '(cik, accession, document) ← archive_groups path;
  accession ← normalize_accession accession;
  if only_slashes document then None else Some (mkArchive url cik accession document).

Definition parse_archive_url (url : option string) : option ArchiveUrlParts :=
  match url with
  | None | Some "" => None
  | Some url =>
      let value := strip url in
      rest ← strip_prefix "https://www.sec.gov" value;
      _ ← strip_prefix "/Archives/edgar/data/" rest;
      _archive_parts rest value
  end.

(** [s.split("/")] *)
Fixpoint split_slash (s : string) : list string :=
  match s with
  | EmptyString => [""]
  | String c s =>
      if decide (c = "/"%char) then "" :: split_slash s
      else match split_slash s with w :: ws => String c w :: ws | [] => [String c ""] end
  end.
Definition control_char (c : ascii) : bool := (code c <=? 32)%nat || (code c =? 127)%nat.
Fixpoint double_slash (s : string) : bool :=
  match s with
  | String c s' => (bool_decide (c = "/"%char) && match s' with String d _ => bool_decide (d = "/"%char) | _ => false end) || double_slash s'
  | EmptyString => false
  end.
Definition unsafe_path (path : string) : bool :=
  has_char "%"%char path || has_char "\"%char path || double_slash path
  || existsb (λ s, String.eqb s "." || String.eqb s "..") (split_slash path).

Definition validate_archive_url (url accession : string) (expected_archive_cik : option Z) (policy : ArchiveUrlPolicy) :
    result ArchiveUrlParts :=
  _ ← raise_if (String.eqb url "" || negb (String.eqb url (strip url)))
        (ValueError "archive URL must be a trimmed non-empty string");
  _ ← raise_if (has_char "?"%char url || has_char "#"%char url || negb (string_forallb (λ c, negb (control_char c)) url))
        (ValueError "archive URL contains a query, fragment, or control character");
  parts ← require (urlsplit_full url) (ValueError "archive URL is malformed");
  prt ← match port (up_split parts) with Ok p => Ok p | Err _ => Err (ValueError "archive URL is malformed") end;
  let host := hostname (up_split parts) in
  _ ← raise_if (negb (bool_decide (casefold (scheme (up_split parts)) ∈ allowed_schemes policy))
                || match host with None => true | Some h => negb (bool_decide (casefold h ∈ allowed_hosts policy)) end
                || bool_decide (username (up_split parts) ≠ None) || bool_decide (password (up_split parts) ≠ None)
                || bool_decide (prt ≠ None))
        (ValueError "archive URL host or scheme is not allowed");
  let path := up_path parts in
  _ ← raise_if (unsafe_path path) (ValueError "archive URL path contains an unsafe segment");
  let archive := _archive_parts path url in
  expected ← match accession_from_any accession with
             | Ok a => Ok (normalized a) | Err _ => Err (ValueError "expected accession is invalid") end;
  archive ← match archive with
            | Some a => if String.eqb (archive_accession a) expected then Ok a
                        else Err (ValueError "archive URL is outside the expected accession")
            | None => Err (ValueError "archive URL is outside the expected accession") end;
  match expected_archive_cik with
  | None => Ok archive
  | Some raw =>
      expected_cik ← match Cik raw with Ok c => Ok c | Err _ => Err (ValueError "expected archive CIK is invalid") end;
      _ ← raise_if (negb (int_of_digits 0 (archive_cik archive) =? expected_cik)%Z)
            (ValueError "archive URL has the wrong archive CIK");
      Ok archive
  end.

(** ** Paths of archive documents *)

Lemma strip_prefix_spec p s r : strip_prefix p s = Some r ↔ s = p +:+ r.
Proof.
  revert s. induction p as [|c p IH]; intros s; cbn [strip_prefix].
  - rewrite append_nil. naive_solver.
  - destruct s as [|d s]; [done|]. rewrite append_cons. case_decide as Hc; [subst; rewrite IH; naive_solver|naive_solver].
Qed.
Lemma not_digits s : string_forallb (λ c, negb (not_digit c)) s = string_forallb is_digit s.
Proof. induction s as [|c s IH]; [done|]. cbn. rewrite IH. unfold not_digit. by rewrite negb_involutive. Qed.

Lemma digits_span d r : string_forallb is_digit d = true → span_until not_digit (d +:+ String "/" r) = (d, String "/" r).
Proof. intros Hd. apply span_until_app; [by rewrite not_digits|done]. Qed.

Definition archive_prefix : string := "/Archives/edgar/data/".
(** The path of a document in the directory of an accession. *)
Definition archive_path (cik accession document : string) : string :=
  archive_prefix +:+ cik +:+ "/" +:+ accession +:+ "/" +:+ document.

Lemma archive_groups_spec path cik accession document :
  archive_groups path = Some (cik, accession, document) ↔
  path = archive_path cik accession document ∧ string_forallb is_digit cik = true ∧ cik ≠ "" ∧
  string_forallb is_digit accession = true ∧ (10 <= String.length accession <= 18)%nat ∧
  document ≠ "" ∧ has_char newline document = false.
Proof.
  unfold archive_groups, archive_path. split.
  - intros H. apply bind_Some in H as (rest & ->%strip_prefix_spec & H).
    destruct (span_until not_digit rest) as [ck r1] eqn:E1. apply bind_Some in H as (r2 & ->%strip_prefix_spec & H).
    destruct (span_until not_digit r2) as [ac r3] eqn:E2. apply bind_Some in H as (doc & ->%strip_prefix_spec & H).
    pose proof (span_until_rest _ _ _ _ E1) as [D1 _]. pose proof (span_until_rest _ _ _ _ E2) as [D2 _].
    apply span_until_eq in E1 as ->, E2 as ->. rewrite not_digits in D1, D2.
    destruct (_ && _) eqn:Hc in H; [|done]. injection H as -> -> ->. boolprop.
    destruct Hc as ((((H1 & H2) & H3) & H4) & H5). apply String.eqb_neq in H1, H4. apply Nat.leb_le in H2, H3. done.
  - intros (-> & D1 & H1 & D2 & H2 & H4 & H5). apply bind_Some. eexists. split; [by apply strip_prefix_spec|].
    change ("/" +:+ accession +:+ "/" +:+ document) with (String "/" (accession +:+ String "/" document)).
    rewrite digits_span by done. apply bind_Some. eexists. split; [by apply (strip_prefix_spec "/")|]. rewrite digits_span by done.
    apply bind_Some. eexists. split; [by apply (strip_prefix_spec "/")|].
    rewrite (proj2 (String.eqb_neq _ _)), (proj2 (String.eqb_neq document _)), H5 by done.
    rewrite (proj2 (Nat.leb_le _ _)), (proj2 (Nat.leb_le _ _)) by lia. done.
Qed.

Lemma digit_isdigit s : string_forallb is_digit s = true → string_forallb isdigit_char s = true.
Proof. apply string_forallb_impl. intros c Hc. unfold isdigit_char. by rewrite Hc. Qed.
Lemma normalize_digits s :
  string_forallb is_digit s = true → (10 <= String.length s <= 18)%nat → normalize_accession s = Some s.
Proof.
  intros Hd Hl. unfold normalize_accession. rewrite strip_no_space by (by apply digits_no_space). rewrite remove_hyphens_digits by done.
  destruct s as [|c s]; [simpl in Hl; lia|]. rewrite digit_isdigit by done.
  rewrite (proj2 (Nat.leb_le _ _)), (proj2 (Nat.leb_le _ _)) by lia. done.
Qed.

Lemma archive_parts_spec path u a :
  _archive_parts path u = Some a ↔
  ∃ cik accession document, a = mkArchive u cik accession document ∧ path = archive_path cik accession document ∧
    string_forallb is_digit cik = true ∧ cik ≠ "" ∧ string_forallb is_digit accession = true ∧
    (10 <= String.length accession <= 18)%nat ∧ only_slashes document = false ∧ has_char newline document = false.
Proof.
  unfold _archive_parts. split.
  - intros H. apply bind_Some in H as ([[cik acc] doc] & Hg & H).
    apply archive_groups_spec in Hg as (-> & D1 & H1 & D2 & H2 & H4 & H5). rewrite normalize_digits in H by done. cbn [mbind option_bind] in H.
    destruct (only_slashes doc) eqn:Hs; [done|]. injection H as <-. eauto 12.
  - intros (cik & acc & doc & -> & -> & D1 & H1 & D2 & H2 & H4 & H5).
    assert (archive_groups (archive_path cik acc doc) = Some (cik, acc, doc)) as ->.
    { apply archive_groups_spec. split_and!; try done; try lia. by intros ->. }
    cbn [mbind option_bind]. rewrite normalize_digits by done. cbn [mbind option_bind]. by rewrite H4.
Qed.

(** ** Safe paths *)

Lemma split_slash_nonempty s : split_slash s ≠ [].
Proof. destruct s as [|c s]; [done|]. cbn. case_decide; [done|]. by destruct (split_slash s). Qed.
Lemma split_slash_app s t : split_slash (s +:+ String "/" t) = split_slash s ++ split_slash t.
Proof.
  induction s as [|c s IH]; [done|]. rewrite append_cons. cbn [split_slash]. case_decide; [by rewrite IH|].
  rewrite IH. pose proof (split_slash_nonempty s). by destruct (split_slash s).
Qed.
Lemma split_digits s : string_forallb is_digit s = true → split_slash s = [s].
Proof.
  induction s as [|c s IH]; [done|]. cbn. intros [Hc Hs]%andb_true_iff. rewrite decide_False by (by intros ->). by rewrite IH.
Qed.
Lemma double_slash_digits d t :
  d ≠ "" → string_forallb is_digit d = true → double_slash (String "/" (d +:+ String "/" t)) = double_slash (String "/" t).
Proof.
  intros Hne Hd. destruct d as [|c d]; [done|]. cbn in Hd. apply andb_true_iff in Hd as [Hc Hd].
  assert (∀ d', string_forallb is_digit d' = true → double_slash (d' +:+ String "/" t) = double_slash (String "/" t)) as Hskip.
  { clear. induction d' as [|c' d' IH]; [done|]. cbn [string_forallb]. intros [Hc' Hd']%andb_true_iff. rewrite append_cons. cbn [double_slash].
    rewrite (bool_decide_false (c' = _)) by (by intros ->). by apply IH. }
  assert (bool_decide (c = "/"%char) = false) as Hcs by (apply bool_decide_false; by intros ->).
  change (double_slash (String "/" (String c d +:+ String "/" t))) with (bool_decide (c = "/"%char) || double_slash (String c d +:+ String "/" t)).
  rewrite Hcs. apply Hskip. cbn. by rewrite Hc, Hd.
Qed.

(** A document path that cannot leave its directory and is fetched as it is written. *)
Definition safe_document (d : string) : Prop :=
  only_slashes d = false ∧ double_slash (String "/" d) = false ∧
  (∀ s, s ∈ split_slash d → s ≠ "." ∧ s ≠ "..") ∧
  string_forallb (λ c, negb (control_char c) && negb (char_in "?#%\" c)) d = true.

Lemma digits_no_char c s : is_digit c = false → string_forallb is_digit s = true → has_char c s = false.
Proof. apply has_char_forallb. Qed.

Lemma unsafe_archive_path cik acc doc :
  string_forallb is_digit cik = true → cik ≠ "" → string_forallb is_digit acc = true → acc ≠ "" →
  unsafe_path (archive_path cik acc doc) = false ↔
    has_char "%"%char doc = false ∧ has_char "\"%char doc = false ∧ double_slash (String "/" doc) = false ∧
    (∀ s, s ∈ split_slash doc → s ≠ "." ∧ s ≠ "..").
Proof.
  intros D1 N1 D2 N2. unfold unsafe_path, archive_path.
  rewrite !has_char_app, !(digits_no_char _ cik), !(digits_no_char _ acc) by done.
  change (archive_prefix +:+ cik +:+ "/" +:+ acc +:+ "/" +:+ doc) with ("/Archives/edgar/data" +:+ String "/" (cik +:+ String "/" (acc +:+ String "/" doc))).
  rewrite !split_slash_app, (split_digits cik), (split_digits acc) by done.
  assert (double_slash ("/Archives/edgar/data" +:+ String "/" (cik +:+ String "/" (acc +:+ String "/" doc))) = double_slash (String "/" doc)) as ->.
  { change (double_slash ("/Archives/edgar/data" +:+ String "/" (cik +:+ String "/" (acc +:+ String "/" doc))))
      with (double_slash (String "/" (cik +:+ String "/" (acc +:+ String "/" doc)))). by rewrite !double_slash_digits. }
  rewrite !existsb_app. cbn [existsb].
  assert (∀ d, d ≠ "" → string_forallb is_digit d = true → String.eqb d "." || String.eqb d ".." || false = false) as Hd.
  { intros d Hne Hd. rewrite (proj2 (String.eqb_neq _ _)), (proj2 (String.eqb_neq d _)) by (by intros ->). done. }
  rewrite !Hd by done. change (has_char "%"%char archive_prefix) with false. change (has_char "\"%char archive_prefix) with false.
  change (existsb (λ s, String.eqb s "." || String.eqb s "..") (split_slash "/Archives/edgar/data")) with false.
  change (has_char "%"%char "/") with false. change (has_char "\"%char "/") with false. cbn [orb].
  rewrite !orb_false_iff. assert (existsb (λ s, String.eqb s "." || String.eqb s "..") (split_slash doc) = false ↔
    ∀ s, s ∈ split_slash doc → s ≠ "." ∧ s ≠ "..") as ->; [|tauto].
  rewrite <- not_true_iff_false, existsb_exists. split.
  - intros H s Hs. split; intros ->; apply H; eexists; (split; [by apply list_elem_of_In|done]).
  - intros H (s & Hs%list_elem_of_In & [?%String.eqb_eq|?%String.eqb_eq]%orb_true_iff); by destruct (H s Hs).
Qed.

(** ** What validation accepts *)

Definition plain_char (c : ascii) : bool := negb (control_char c) && negb (char_in "?#" c).

Lemma clean_plain u : string_forallb (λ c, negb (control_char c)) u = true → clean_url u = u.
Proof.
  intros Hu. assert (lstrip_chars c0_or_space u = u) as Hl.
  { destruct u as [|c u]; [done|]. cbn in Hu |- *. apply andb_true_iff in Hu as [Hc _]. unfold control_char in Hc. unfold c0_or_space.
    destruct (code c <=? 32)%nat; [done|done]. }
  unfold clean_url. rewrite Hl. clear Hl. induction u as [|c u IH]; [done|]. cbn in Hu |- *. apply andb_true_iff in Hu as [Hc Hu].
  assert (unsafe_byte c = false) as ->; [|by rewrite IH]. unfold control_char in Hc. apply negb_true_iff, orb_false_iff in Hc as [Hc _].
  apply Nat.leb_gt in Hc. unfold unsafe_byte. rewrite !orb_false_iff, !Nat.eqb_neq. lia.
Qed.
Lemma no_char_of c s p : string_forallb p s = true → p c = false → has_char c s = false.
Proof. intros Hs Hp. by apply (has_char_forallb _ p). Qed.

(** The text of an accepted URL, with scheme and host in any case and at most an empty port. *)
Definition sec_url (u path : string) : Prop :=
  ∃ sch host colon, u = sch +:+ "://" +:+ host +:+ colon +:+ path ∧ string_map lower_ascii sch = "https" ∧
    string_map lower_ascii host = "www.sec.gov" ∧ (colon = "" ∨ colon = ":").

Lemma casefold_idem s : casefold (casefold s) = casefold s.
Proof. unfold casefold. induction s as [|c s IH]; [done|]. cbn. rewrite IH. f_equal. by destruct c as [[] [] [] [] [] [] [] []]. Qed.

(** The check of scheme, host, credentials and port under the default policy. *)
Lemma sec_url_split u path :
  string_forallb (λ c, negb (control_char c)) u = true → has_char "?"%char u = false → has_char "#"%char u = false →
  (∃ c, path = String "/" c) →
  sec_url u path ↔ ∃ parts, urlsplit_full u = Some parts ∧ urlsplit_ok (up_split parts) ∧ up_path parts = path.
Proof.
  intros Hu Hq Hf Hp. assert (∀ w, match w with EmptyString => True | String c _ => char_in "/?#" c = true end →
    sec_url u w → ∃ parts, urlsplit_full u = Some parts ∧ urlsplit_ok (up_split parts) ∧ up_path parts = w) as Hto.
  { intros w Hw (sch & host & colon & Hut & Hs & Hh & Hc). destruct (text_urlsplit u) as (parts & Hparts & Hok).
    { rewrite clean_plain by done. by exists sch, host, colon, w. }
    unfold urlsplit_full. rewrite Hparts. cbn [mbind option_bind]. rewrite clean_plain by done.
    assert (Hsn : string_forallb name_char sch = true) by (by eapply lower_name).
    assert (Hhn : string_forallb name_char host = true) by (by eapply lower_name).
    assert (split_scheme u = ("https", "//" +:+ host +:+ colon +:+ w)) as ->.
    { unfold split_scheme. rewrite Hut. change ("://" +:+ host +:+ colon +:+ w) with (String ":"%char ("//" +:+ host +:+ colon +:+ w)).
      rewrite partition_char_app by (by apply (has_char_forallb _ name_char)). destruct sch as [|c sch]; [done|].
      assert (is_alpha c = true) as ->; [|rewrite https_scheme_chars by done; cbn [andb]; by rewrite Hs].
      simpl in Hs. injection Hs as Hc' _. by destruct c as [[] [] [] [] [] [] [] []]. }
    cbn [snd]. change (starts_netloc ("//" +:+ host +:+ colon +:+ w)) with (Some (host +:+ colon +:+ w)).
    rewrite <- append_assoc, span_until_app; [|rewrite string_forallb_app; destruct Hc as [-> | ->];
      rewrite (string_forallb_impl name_char) by (done || (intros [[] [] [] [] [] [] [] []]; done)); done|done].
    cbn [snd]. assert (has_char "?"%char w = false ∧ has_char "#"%char w = false) as [Hqw Hfw].
    { rewrite Hut, !has_char_app, !orb_false_iff in Hq, Hf. tauto. }
    unfold split_tail. rewrite (partition_char_none "#"%char), (partition_char_none "?"%char) by done. eexists. split; [reflexivity|]. by split. }
  split.
  - destruct Hp as [c ->]. by apply Hto.
  - intros (parts & Hparts & Hok & Hpath). unfold urlsplit_full in Hparts. apply bind_Some in Hparts as (sp & Hsp & Hparts).
    assert (up_split parts = sp) as Esp.
    { injection Hparts as <-. unfold split_tail. destruct (partition_char "#"%char _) as [[? ?] ?], (partition_char "?"%char _) as [[? ?] ?]. done. }
    rewrite Esp in Hok. pose proof (urlsplit_text u sp Hsp Hok) as Htext. rewrite clean_plain in Htext by done.
    destruct Htext as (sch & host & colon & w & Hut & Hs & Hh & Hc & Hw).
    destruct (Hto w Hw) as (parts' & Hparts' & _ & Hpath'); [by exists sch, host, colon|].
    unfold urlsplit_full in Hparts'. rewrite Hsp in Hparts'. cbn [mbind option_bind] in Hparts'. rewrite Hparts in Hparts'.
    injection Hparts' as <-. rewrite Hpath in Hpath'. subst w. by exists sch, host, colon.
Qed.

Lemma scheme_fold u parts : urlsplit u = Some parts → casefold (scheme parts) = scheme parts.
Proof.
  unfold urlsplit. destruct (split_scheme (clean_url u)) as [sch rest] eqn:Es.
  assert (casefold sch = sch) as Hsch.
  { unfold split_scheme in Es. destruct (partition_char ":"%char (clean_url u)) as [[pre f] post]. destruct pre as [|c pre]; [by injection Es as <- _|].
    destruct (_ && _); injection Es as <- _; [apply (casefold_idem (String c pre))|done]. }
  destruct (starts_netloc rest) as [r|]; [|by intros [= <-]]. destruct (span_until _ r). case_match; [done|]. by intros [= <-].
Qed.
Lemma host_fold parts h : hostname parts = Some h → casefold h = "www.sec.gov" → h = "www.sec.gov".
Proof.
  unfold hostname. destruct (hostinfo parts).1 as [|c host]; [done|].
  destruct (partition_char "%"%char (String c host)) as [[a f] z]. intros [= <-]. destruct f.
  - intros H. exfalso. apply (f_equal (has_char "%"%char)) in H. assert (∀ s, has_char "%"%char (casefold s) = has_char "%"%char s) as Hfold.
    { clear. induction s as [|d s IH]; [done|]. change (casefold (String d s)) with (String (lower_ascii d) (casefold s)).
      cbn [has_char]. rewrite IH. f_equal. by destruct d as [[] [] [] [] [] [] [] []]. }
    rewrite Hfold, has_char_app in H. simpl in H. by rewrite orb_true_r in H.
  - rewrite append_nil_r. by rewrite casefold_idem.
Qed.

(** The four conditions of the host check, for the default policy. *)
Lemma default_policy u parts prt :
  urlsplit u = Some parts → port parts = Ok prt →
  negb (bool_decide (casefold (scheme parts) ∈ allowed_schemes DEFAULT_ARCHIVE_URL_POLICY))
  || match hostname parts with None => true | Some h => negb (bool_decide (casefold h ∈ allowed_hosts DEFAULT_ARCHIVE_URL_POLICY)) end
  || bool_decide (username parts ≠ None) || bool_decide (password parts ≠ None) || bool_decide (prt ≠ None) = false ↔ urlsplit_ok parts.
Proof.
  intros Hu Hp. pose proof (scheme_fold u parts Hu) as Hs. cbn [allowed_schemes allowed_hosts DEFAULT_ARCHIVE_URL_POLICY].
  rewrite !orb_false_iff, negb_false_iff, !bool_decide_eq_true, !bool_decide_eq_false, list_elem_of_singleton, Hs. unfold urlsplit_ok. rewrite Hp. split.
  - intros ((((-> & Hh) & Hn) & _) & Hpt). apply dec_stable in Hn, Hpt. subst prt. split_and!; [done| |done|done].
    destruct (hostname parts) as [h|] eqn:Eh; [|done]. apply negb_false_iff, bool_decide_eq_true, list_elem_of_singleton in Hh.
    by rewrite (host_fold parts h).
  - intros (-> & Hh & Hn & [= ->]). rewrite Hh, Hn, (password_none _ Hn). split_and!; tauto.
Qed.

Lemma document_chars d :
  string_forallb (λ c, negb (control_char c)) d = true → has_char "?"%char d = false → has_char "#"%char d = false →
  has_char "%"%char d = false → has_char "\"%char d = false →
  string_forallb (λ c, negb (control_char c) && negb (char_in "?#%\" c)) d = true.
Proof.
  induction d as [|c d IH]; [done|]. cbn [string_forallb has_char]. intros [Hc Hd]%andb_true_iff [C1 R1]%orb_false_iff [C2 R2]%orb_false_iff [C3 R3]%orb_false_iff [C4 R4]%orb_false_iff.
  rewrite Hc, IH by done. unfold char_in. cbn [has_char]. apply bool_decide_eq_false in C1, C2, C3, C4.
  rewrite !bool_decide_false by congruence. done.
Qed.
Lemma document_chars_inv d :
  string_forallb (λ c, negb (control_char c) && negb (char_in "?#%\" c)) d = true →
  string_forallb (λ c, negb (control_char c)) d = true ∧ has_char "?"%char d = false ∧ has_char "#"%char d = false ∧
  has_char "%"%char d = false ∧ has_char "\"%char d = false ∧ has_char newline d = false.
Proof.
  intros Hd. split; [eapply string_forallb_impl; [|exact Hd]; intros c [? _]%andb_true_iff; done|].
  split_and!; (eapply no_char_of; [exact Hd|done]).
Qed.
Lemma url_chars sch host colon path :
  string_forallb name_char sch = true → string_forallb name_char host = true → colon = "" ∨ colon = ":" →
  string_forallb (λ c, negb (control_char c)) path = true ∧ has_char "?"%char path = false ∧ has_char "#"%char path = false →
  let u := sch +:+ "://" +:+ host +:+ colon +:+ path in
  string_forallb (λ c, negb (control_char c)) u = true ∧ has_char "?"%char u = false ∧ has_char "#"%char u = false.
Proof.
  intros Hs Hh Hc (H1 & H2 & H3). cbv zeta. rewrite !string_forallb_app, !has_char_app, H1, H2, H3.
  rewrite (string_forallb_impl name_char (λ c, negb (control_char c)) sch), (string_forallb_impl name_char (λ c, negb (control_char c)) host)
    by (done || (intros [[] [] [] [] [] [] [] []]; done)).
  rewrite !(has_char_forallb _ name_char sch), !(has_char_forallb _ name_char host) by done. by destruct Hc as [-> | ->].
Qed.

Lemma urlsplit_full_split u parts : urlsplit_full u = Some parts → urlsplit u = Some (up_split parts).
Proof.
  intros Hparts. unfold urlsplit_full in Hparts. apply bind_Some in Hparts as (sp & Hsp & Hparts). rewrite Hsp. f_equal. injection Hparts as <-.
  unfold split_tail. by destruct (partition_char "#"%char _) as [[? ?] ?], (partition_char "?"%char _) as [[? ?] ?].
Qed.

(** [u] is the URL of a document in the directory of the accession and the CIK; [a] its parts. *)
Definition confined (u accession : string) (cik : Z) (a : ArchiveUrlParts) : Prop :=
  ∃ identity digits document,
    accession_from_any accession = Ok identity ∧ (0 <= cik <= max_cik)%Z ∧ u = strip u ∧
    string_forallb is_digit digits = true ∧ digits ≠ "" ∧ int_of_digits 0 digits = cik ∧ safe_document document ∧
    sec_url u (archive_path digits (normalized identity) document) ∧
    a = mkArchive u digits (normalized identity) document.

Lemma accepted_confined u accession cik a :
  validate_archive_url u accession (Some cik) DEFAULT_ARCHIVE_URL_POLICY = Ok a → confined u accession cik a.
Proof.
  unfold validate_archive_url. intros H. apply bind_Ok in H as (_ & [_ Hstrip]%raise_if_Ok%orb_false_iff & H). apply negb_false_iff, String.eqb_eq in Hstrip.
  apply bind_Ok in H as (_ & [[Hq Hf]%orb_false_iff Hctl%negb_false_iff]%raise_if_Ok%orb_false_iff & H).
  apply bind_Ok in H as (parts & Hparts%require_Ok & H). apply bind_Ok in H as (prt & Hport & H).
  destruct (port (up_split parts)) as [prt'|] eqn:Eport; [|done]. injection Hport as ->.
  apply bind_Ok in H as (_ & Hhost%raise_if_Ok & H). apply bind_Ok in H as (_ & Hsafe%raise_if_Ok & H).
  apply bind_Ok in H as (expected & Hexp & H). apply bind_Ok in H as (a' & Ha & H).
  destruct (accession_from_any accession) as [identity|] eqn:Eid; [|done]. injection Hexp as <-.
  destruct (_archive_parts (up_path parts) u) as [a''|] eqn:Earch; [|done].
  destruct (String.eqb_spec (archive_accession a'') (normalized identity)) as [Eacc|]; [|done]. injection Ha as ->.
  apply bind_Ok in H as (c & Hc & H). destruct (Cik cik) as [c'|] eqn:Ecik; [|done]. injection Hc as ->.
  apply bind_Ok in H as (_ & Hcik%raise_if_Ok%negb_false_iff%Z.eqb_eq & [= ->]).
  unfold Cik in Ecik. apply bind_Ok in Ecik as (_ & [Hc1%Z.ltb_ge Hc2%Z.ltb_ge]%raise_if_Ok%orb_false_iff & [= ->]).
  apply archive_parts_spec in Earch as (digits & acc & doc & -> & Epath & D1 & N1 & D2 & Hl & Hslash & Hnl).
  cbn [archive_accession archive_cik] in *. subst acc.
  pose proof (urlsplit_full_split u parts Hparts) as Esp. apply (default_policy u _ _ Esp Eport) in Hhost.
  assert (sec_url u (archive_path digits (normalized identity) doc)) as Hsec.
  { apply sec_url_split; [done..|by eexists|]. by exists parts. }
  rewrite Epath in Hsafe. apply unsafe_archive_path in Hsafe as (Hp & Hb & Hd & Hdots); [|done|done|done|by intros E; rewrite E in Hl; simpl in Hl; lia].
  exists identity, digits, doc. split_and!; try done. split_and!; [done..|].
  destruct Hsec as (sch & host & colon & -> & _). unfold archive_path in Hctl, Hq, Hf. rewrite !string_forallb_app in Hctl. rewrite !has_char_app in Hq, Hf.
  repeat match goal with H : _ && _ = true |- _ => apply andb_true_iff in H as [? ?] | H : _ || _ = false |- _ => apply orb_false_iff in H as [? ?] end.
  by apply document_chars.
Qed.

(** A digit string of an identity. *)
Lemma identity_digits accession identity : accession_from_any accession = Ok identity →
  string_forallb is_digit (normalized identity) = true ∧ String.length (normalized identity) = 18%nat.
Proof.
  intros Hid. pose proof (accession_from_any_hyphenated _ _ Hid) as (d1 & d2 & d3 & Hpt)%is_hyphenated_parts.
  rewrite (normalized_parts _ _ _ _ Hpt). destruct Hpt as (_ & (L1 & L2 & L3) & P1 & P2 & P3).
  rewrite !string_forallb_app, P1, P2, P3, !length_append. split; [done|lia].
Qed.

Lemma confined_accepted u accession cik a :
  confined u accession cik a → validate_archive_url u accession (Some cik) DEFAULT_ARCHIVE_URL_POLICY = Ok a.
Proof.
  unfold validate_archive_url. intros (identity & digits & doc & Hid & Hcik & Hstrip & D1 & N1 & Hval & (Hs & Hd & Hdots & Hch) & Hsec & ->).
  apply document_chars_inv in Hch as (Hctl & Hq & Hf & Hp & Hb & Hnl).
  destruct (identity_digits _ _ Hid) as [D2 Hl].
  assert (string_forallb (λ c, negb (control_char c)) u = true ∧ has_char "?"%char u = false ∧ has_char "#"%char u = false) as (Hu & Hqu & Hfu).
  { destruct Hsec as (sch & host & colon & -> & Hsch & Hh & Hc). apply url_chars; [by eapply lower_name..|done|].
    unfold archive_path. rewrite !string_forallb_app, !has_char_app, Hctl, Hq, Hf.
    rewrite (string_forallb_impl is_digit (λ c, negb (control_char c)) digits), (string_forallb_impl is_digit (λ c, negb (control_char c)) (normalized identity))
      by (done || (intros [[] [] [] [] [] [] [] []]; done)).
    rewrite !(digits_no_char _ digits), !(digits_no_char _ (normalized identity)) by done. done. }
  assert (∃ parts, urlsplit_full u = Some parts ∧ urlsplit_ok (up_split parts) ∧ up_path parts = archive_path digits (normalized identity) doc)
    as (parts & Hparts & Hok & Epath) by (apply sec_url_split; [done..|by eexists|done]).
  rewrite (proj2 (String.eqb_neq u _)) by (intros ->; by destruct Hsec as ([|? ?] & [|? ?] & ? & ? & ?)). rewrite <- Hstrip, String.eqb_refl. cbn [orb negb raise_if mbind result_bind].
  rewrite Hqu, Hfu, Hu, Hparts. cbn [orb negb raise_if require mbind result_bind].
  pose proof Hok as (_ & _ & _ & Hport). rewrite Hport. cbn [mbind result_bind].
  pose proof (urlsplit_full_split u parts Hparts) as Esp. rewrite (proj2 (default_policy u _ None Esp Hport) Hok). cbn [raise_if mbind result_bind].
  rewrite Epath, (proj2 (unsafe_archive_path digits (normalized identity) doc D1 N1 D2 ltac:(by intros E; rewrite E in Hl))) by done.
  cbn [raise_if mbind result_bind]. rewrite Hid. cbn [mbind result_bind].
  assert (_archive_parts (archive_path digits (normalized identity) doc) u = Some (mkArchive u digits (normalized identity) doc)) as ->
    by (apply archive_parts_spec; exists digits, (normalized identity), doc; split_and!; done || lia).
  cbn [archive_accession]. rewrite String.eqb_refl. cbn [mbind result_bind]. unfold Cik.
  rewrite (proj2 (Z.ltb_ge cik 0)), (proj2 (Z.ltb_ge max_cik cik)) by lia. cbn [orb raise_if mbind result_bind archive_cik].
  rewrite Hval, Z.eqb_refl. done.
Qed.

(** C23: With the default policy, an archive URL is accepted for an accession and an archive CIK
    exactly when it is, scheme and host in any case and at most an empty port, the URL of a
    document in the directory of that accession and that CIK: nothing else can follow
    https://www.sec.gov, the path has no percent sign, backslash, empty segment or dot segment that
    could lead out of the directory, and there are no credentials, query, fragment or control
    characters. *)
Theorem accepted_urls_are_confined u accession cik a :
  validate_archive_url u accession (Some cik) DEFAULT_ARCHIVE_URL_POLICY = Ok a ↔ confined u accession cik a.
Proof. split; [apply accepted_confined|apply confined_accepted]. Qed.

(** *** The URLs the builders make *)

Lemma ascii_no_space s :
  string_forallb (λ c, negb (control_char c) && is_ascii c) s = true → string_forallb no_space s = true.
Proof. apply string_forallb_impl. by intros [[] [] [] [] [] [] [] []]. Qed.

(** The URL built for a safe ASCII document name of an accession, spelled either way, and a CIK
    is accepted for them, and validation reads back what it was built from. *)
Theorem built_urls_are_accepted cik accession identity document :
  (0 <= cik <= max_cik)%Z → accession_from_any accession = Ok identity → safe_document document →
  string_forallb is_ascii document = true →
  let u := archives_url cik identity document in
  validate_archive_url u accession (Some cik) DEFAULT_ARCHIVE_URL_POLICY =
    Ok (mkArchive u (pretty (Z.to_N cik)) (normalized identity) document).
Proof.
  intros Hcik Hid Hdoc Hasc u. assert (str_of_int cik = pretty (Z.to_N cik)) as Estr.
  { unfold str_of_int. rewrite (proj2 (Z.ltb_ge _ _)) by lia. f_equal. lia. }
  assert (u = "https" +:+ "://" +:+ "www.sec.gov" +:+ "" +:+ archive_path (pretty (Z.to_N cik)) (normalized identity) document) as Eu
    by (unfold u, archives_url, archive_path; by rewrite Estr).
  destruct (identity_digits _ _ Hid) as [D2 _].
  apply confined_accepted. exists identity, (pretty (Z.to_N cik)), document. split_and!; try done; try lia.
  - symmetry. apply strip_no_space, ascii_no_space. rewrite Eu. unfold archive_path. rewrite !string_forallb_app.
    rewrite !(string_forallb_impl is_digit _ (pretty _)), !(string_forallb_impl is_digit _ (normalized identity))
      by (try (intros [[] [] [] [] [] [] [] []]; done); try done; apply pretty_N_digits).
    assert (string_forallb (λ c, negb (control_char c) && is_ascii c) document = true) as ->; [|done].
    destruct Hdoc as (_ & _ & _ & Hch). clear -Hch Hasc. induction document as [|c d IH]; [done|].
    cbn in Hch, Hasc |- *. apply andb_true_iff in Hch as [[Hc _]%andb_true_iff Hch], Hasc as [Ha Hasc].
    rewrite Hc, Ha. exact (IH Hch Hasc).
  - apply pretty_N_digits.
  - apply pretty_N_nonempty.
  - rewrite pretty_N_value. lia.
  - exists "https", "www.sec.gov", "". split_and!; [done..|by left].
Qed.

Lemma built_urls_are_accepted_witness :
  validate_archive_url "https://www.sec.gov/Archives/edgar/data/320193/000032019323000106/aapl.htm" "000032019323000106" (Some 320193%Z)
    DEFAULT_ARCHIVE_URL_POLICY =
  Ok (mkArchive "https://www.sec.gov/Archives/edgar/data/320193/000032019323000106/aapl.htm" "320193" "000032019323000106" "aapl.htm").
Proof.
  refine (built_urls_are_accepted 320193 "000032019323000106" "0000320193-23-000106" "aapl.htm" _ _ _ _);
    [unfold max_cik; lia|reflexivity| |reflexivity].
  split_and!; [reflexivity..| |reflexivity]. intros s Hs. change (s ∈ ["aapl.htm"]) in Hs. apply list_elem_of_singleton in Hs as ->. done.
Defined.

(** ** Surfaces *)

Definition SURFACE_SUBMISSIONS : string := "submissions".
Definition SURFACE_SUBMISSIONS_HISTORICAL_SHARDS : string := "submissions_historical_shards".
Definition SURFACE_SUBMISSIONS_BULK : string := "submissions_bulk".
Definition SURFACE_COMPANYCONCEPT : string := "companyconcept".
Definition SURFACE_ARCHIVE_DOCUMENTS : string := "archive_documents".
Definition SURFACE_ARCHIVE_INDEX_PAGES : string := "archive_index_pages".
Definition SURFACE_ARCHIVE_INDEX_JSON : string := "archive_index_json".
Definition SURFACE_FULL_SUBMISSION_BUNDLES : string := "full_submission_bundles".
Definition SURFACE_XBRL_PACKAGES : string := "xbrl_packages".
Definition SURFACE_TAXONOMY_ARCHIVES : string := "taxonomy_archives".
Definition SURFACE_COMPANY_TICKERS : string := "company_tickers".
Definition SURFACE_COMPANY_TICKERS_EXCHANGE : string := "company_tickers_exchange".
Definition SURFACE_COMPANY_TICKERS_MF : string := "company_tickers_mf".
Definition SURFACE_TICKER_TXT : string := "ticker_txt".
Definition SURFACE_CIK_LOOKUP : string := "cik_lookup".

(** [p(/|$)], searched from the start of a path: [p] alone or with a slash and anything after it. *)
Definition below_path (p : string) : re := Cat (lit p) (Alt (Cat (lit "/") anything) Eps).
(** [^/Archives/edgar/data/\d+/[^/]+/], then [r]. *)
Definition in_archive (r : re) : re :=
  Cat (lit archive_prefix) (Cat (plus digit) (Cat (lit "/") (Cat (plus not_slash) (Cat (lit "/") r)))).
Definition segment_chars : re := Star not_slash.

(** [SEC_SURFACE_RULES]; a pattern without an end anchor is followed by [anything].  No path has a
    line break, so [$] is the end. *)
Definition SEC_SURFACE_RULES : list (string * string * re) := [
  (SURFACE_SUBMISSIONS_HISTORICAL_SHARDS, "data.sec.gov",
   Cat (lit "/submissions/") (Cat segment_chars (Cat (lit "-submissions-") (Cat segment_chars (lit ".json")))));
  (SURFACE_SUBMISSIONS, "data.sec.gov", below_path "/submissions");
  (SURFACE_COMPANYCONCEPT, "data.sec.gov", below_path "/api/xbrl");
  (SURFACE_SUBMISSIONS_BULK, "www.sec.gov", lit "/Archives/edgar/daily-index/bulkdata/submissions.zip");
  (SURFACE_CIK_LOOKUP, "www.sec.gov", lit "/Archives/edgar/cik-lookup-data.txt");
  (SURFACE_COMPANY_TICKERS, "www.sec.gov", lit "/files/company_tickers.json");
  (SURFACE_COMPANY_TICKERS_EXCHANGE, "www.sec.gov", lit "/files/company_tickers_exchange.json");
  (SURFACE_COMPANY_TICKERS_MF, "www.sec.gov", lit "/files/company_tickers_mf.json");
  (SURFACE_TICKER_TXT, "www.sec.gov", lit "/include/ticker.txt");
  (SURFACE_TAXONOMY_ARCHIVES, "www.sec.gov", Cat (lit "/files/") (Cat segment_chars (lit ".zip")));
  (SURFACE_ARCHIVE_INDEX_JSON, "www.sec.gov", in_archive (lit "index.json"));
  (SURFACE_ARCHIVE_INDEX_PAGES, "www.sec.gov",
   in_archive (Cat segment_chars (Cat (lit "-index") (Cat (opt (lit "-headers")) (Cat (lit ".") (Alt (lit "html") (lit "txt")))))));
  (SURFACE_FULL_SUBMISSION_BUNDLES, "www.sec.gov",
   in_archive (Cat (times 10 digit) (Cat (lit "-") (Cat (times 2 digit) (Cat (lit "-") (Cat (times 6 digit) (lit ".txt")))))));
  (SURFACE_XBRL_PACKAGES, "www.sec.gov", in_archive (Cat segment_chars (lit "-xbrl.zip")));
  (SURFACE_ARCHIVE_DOCUMENTS, "www.sec.gov", below_path "/Archives/edgar/data");
  (SURFACE_TAXONOMY_ARCHIVES, "xbrl.sec.gov", anything)].

Definition first_rule (host path : string) : option string :=
  (λ r, r.1.1) <$> List.find (λ r, String.eqb host r.1.2 && match_re r.2 path) SEC_SURFACE_RULES.
(** [urlsplit] raises for a malformed URL: [Err]. *)
Definition classify_sec_surface (url : option string) : result (option string) :=
  match url with
  | None | Some "" => Ok None
  | Some url =>
      parts ← require (urlsplit_full (strip url)) (ValueError "malformed URL");
      Ok (first_rule (casefold (default "" (hostname (up_split parts)))) (up_path parts))
  end.

Example classified :
  classify_sec_surface (Some "https://www.sec.gov/files/company_tickers.json") = Ok (Some SURFACE_COMPANY_TICKERS) ∧
  classify_sec_surface (Some "https://www.sec.gov/Archives/edgar/data/320193/000032019323000106/index.json") = Ok (Some SURFACE_ARCHIVE_INDEX_JSON) ∧
  classify_sec_surface (Some "https://www.sec.gov/Archives/edgar/data/320193/000032019323000106/aapl-20230930.htm") = Ok (Some SURFACE_ARCHIVE_DOCUMENTS) ∧
  classify_sec_surface (Some "https://xbrl.sec.gov/") = Ok (Some SURFACE_TAXONOMY_ARCHIVES) ∧
  classify_sec_surface (Some "https://example.org/x") = Ok None.
Proof. vm_compute. repeat split. Qed.

(** *** Archive paths *)

Definition slash_free (s : string) : bool := string_forallb (λ c, negb (bool_decide (c = "/"%char))) s.
Lemma digits_slash_free s : string_forallb is_digit s = true → slash_free s = true.
Proof. apply string_forallb_impl. by intros [[] [] [] [] [] [] [] []]. Qed.
Lemma slash_split a a' x y : slash_free a = true → slash_free a' = true → a +:+ String "/" x = a' +:+ String "/" y → a = a' ∧ x = y.
Proof.
  revert a'. induction a as [|c a IH]; intros [|c' a']; cbn [slash_free string_forallb].
  - rewrite !append_nil. intros _ _ [= ->]. done.
  - rewrite append_nil, append_cons. intros _ [Hc _]%andb_true_iff [= <- _]. by rewrite bool_decide_true in Hc.
  - rewrite append_nil, append_cons. intros [Hc _]%andb_true_iff _ [= -> _]. by rewrite bool_decide_true in Hc.
  - rewrite !append_cons. intros [_ Ha]%andb_true_iff [_ Ha']%andb_true_iff [= -> E]. destruct (IH a' Ha Ha' E) as [-> ->]. done.
Qed.
Lemma plus_chr p u : matches (plus (Chr p)) u ↔ u ≠ "" ∧ string_forallb p u = true.
Proof.
  unfold plus. rewrite cat_spec. setoid_rewrite star_chr. split.
  - intros (v & w & -> & Hv & Hw). inversion Hv as [|? c Hp| | | | |]; subst. rewrite append_cons, append_nil. cbn. by rewrite Hp, Hw.
  - destruct u as [|c u]; [by intros [? _]|]. cbn. intros [_ [Hc Hu]%andb_true_iff]. exists (String c ""), u. split; [done|]. split; [by constructor|done].
Qed.

Section archive.
Context (D A N : string) (HD : string_forallb is_digit D = true) (HDn : D ≠ "") (HA : slash_free A = true) (HAn : A ≠ "").

Lemma in_archive_spec r : match_re (in_archive r) (archive_path D A N) = match_re r N.
Proof using HD HDn HA HAn.
  apply eq_true_iff_eq. rewrite !match_re_spec. unfold in_archive, archive_path. split.
  - intros H. apply cat_spec in H as (v & w & E & ->%lit_spec & H). apply (inj (String.append archive_prefix)) in E || apply (app_inj archive_prefix) in E. subst w.
    apply cat_spec in H as (d & w & E & [_ Hd]%plus_chr & H). apply cat_spec in H as (s & w' & -> & ->%lit_spec & H).
    apply (slash_split D d) in E as [<- <-]; [|by apply digits_slash_free..].
    apply cat_spec in H as (a & w & E & [_ Ha]%plus_chr & H). apply cat_spec in H as (s & w' & -> & ->%lit_spec & H).
    apply (slash_split A a) in E as [<- <-]; done.
  - intros H. apply cat_spec. eexists _, _. split; [reflexivity|]. split; [by apply lit_spec|]. apply cat_spec. eexists _, _. split; [reflexivity|].
    split; [by apply plus_chr|]. apply cat_spec. eexists _, _. split; [reflexivity|]. split; [by apply lit_spec|].
    apply cat_spec. eexists _, _. split; [reflexivity|]. split; [by apply plus_chr|]. apply cat_spec. eexists _, _. split; [reflexivity|].
    by split; [apply lit_spec|].
Qed.

Definition index_page : re :=
  Cat segment_chars (Cat (lit "-index") (Cat (opt (lit "-headers")) (Cat (lit ".") (Alt (lit "html") (lit "txt"))))).
Definition bundle : re := Cat (times 10 digit) (Cat (lit "-") (Cat (times 2 digit) (Cat (lit "-") (Cat (times 6 digit) (lit ".txt"))))).
Definition package : re := Cat segment_chars (lit "-xbrl.zip").

(** The surface of a document of an archive directory is decided by its name. *)
Definition name_surface (N : string) : string :=
  if match_re (lit "index.json") N then SURFACE_ARCHIVE_INDEX_JSON
  else if match_re index_page N then SURFACE_ARCHIVE_INDEX_PAGES
  else if match_re bundle N then SURFACE_FULL_SUBMISSION_BUNDLES
  else if match_re package N then SURFACE_XBRL_PACKAGES
  else SURFACE_ARCHIVE_DOCUMENTS.
Lemma archive_surface :
  first_rule "www.sec.gov" (archive_path D A N) = Some (name_surface N).
Proof using HD HDn HA HAn.
  set (p := archive_path D A N). assert (p = archive_prefix +:+ (D +:+ "/" +:+ A +:+ "/" +:+ N)) as Ep by done.
  assert (∀ s, ¬ (∃ w, s = archive_prefix +:+ w) → match_re (lit s) p = false) as Hlit.
  { intros s Hs. apply not_true_iff_false. rewrite match_re_spec, lit_spec. intros E. apply Hs. eexists. by rewrite <- E. }
  assert (match_re (Cat (lit "/files/") (Cat segment_chars (lit ".zip"))) p = false) as Hfiles.
  { apply not_true_iff_false. rewrite match_re_spec, cat_spec. intros (v & w & E & ->%lit_spec & _). by rewrite Ep in E. }
  assert (match_re (below_path "/Archives/edgar/data") p = true) as Hall.
  { apply match_re_spec. unfold below_path. apply cat_spec. exists "/Archives/edgar/data". eexists. split; [rewrite Ep; reflexivity|].
    split; [by apply lit_spec|]. apply M_alt_l. apply cat_spec. eexists "/", _. split; [reflexivity|]. split; [by apply lit_spec|apply anything_spec]. }
  unfold first_rule, SEC_SURFACE_RULES. cbn [List.find fst snd String.eqb Ascii.eqb Bool.eqb andb].
  rewrite !Hlit by (intros [w E]; discriminate E). rewrite Hfiles. unfold p at 1 2 3 4. rewrite !in_archive_spec. fold index_page bundle package.
  unfold name_surface. destruct (match_re (lit "index.json") N); [done|]. destruct (match_re index_page N); [done|].
  destruct (match_re bundle N); [done|]. destruct (match_re package N); [done|]. by rewrite Hall.
Qed.
End archive.

(** *** The surfaces of the URLs the builders make *)

Definition plain_document (d : string) : bool :=
  string_forallb (λ c, negb (control_char c) && is_ascii c && negb (char_in "?#/" c)) d.

Lemma classify_archive cik accession document :
  (0 <= cik)%Z → is_hyphenated_accession accession = true → plain_document document = true →
  classify_sec_surface (Some (archives_url cik (normalized accession) document)) =
    Ok (first_rule "www.sec.gov" (archive_path (pretty (Z.abs_N cik)) (normalized accession) document)).
Proof.
  intros Hcik Hid Hdoc. pose proof (accession_of_hyphenated _ Hid) as Hacc. destruct (identity_digits _ _ Hacc) as [D2 _].
  pose proof (pretty_N_digits (Z.abs_N cik)) as D1.
  set (path := archive_path (pretty (Z.abs_N cik)) (normalized accession) document).
  assert (archives_url cik (normalized accession) document = "https" +:+ "://" +:+ "www.sec.gov" +:+ "" +:+ path) as ->.
  { unfold archives_url, str_of_int. rewrite (proj2 (Z.ltb_ge _ _)) by lia. unfold normalized at 1. by rewrite remove_hyphens_digits. }
  set (u := "https" +:+ _).
  assert (string_forallb (λ c, negb (control_char c) && is_ascii c && negb (char_in "?#" c)) u = true) as Hu.
  { unfold u, path, archive_path. rewrite !string_forallb_app.
    rewrite !(string_forallb_impl is_digit _ (pretty _)), !(string_forallb_impl is_digit _ (normalized accession))
      by (try (intros [[] [] [] [] [] [] [] []]; done); done).
    assert (string_forallb (λ c, negb (control_char c) && is_ascii c && negb (char_in "?#" c)) document = true) as ->; [|done].
    revert Hdoc. apply string_forallb_impl. by intros [[] [] [] [] [] [] [] []]. }
  assert (strip u = u) as Hs by (apply strip_no_space, ascii_no_space; revert Hu; apply string_forallb_impl; by intros c [? _]%andb_true_iff).
  assert (∃ parts, urlsplit_full u = Some parts ∧ urlsplit_ok (up_split parts) ∧ up_path parts = path) as (parts & Hp & (_ & Hh & _) & <-).
  { apply sec_url_split; [revert Hu; apply string_forallb_impl; intros c; by destruct (control_char c)|by eapply no_char_of..|by eexists|].
    exists "https", "www.sec.gov", "". split_and!; [done..|by left]. }
  unfold classify_sec_surface. change u with (String "h" (str_drop 1 u)) at 1. cbv iota. change (String "h" (str_drop 1 u)) with u.
  rewrite Hs, Hp. cbn [require mbind result_bind]. by rewrite Hh.
Qed.

Lemma hyphenated_again s d1 d2 d3 : accession_parts s d1 d2 d3 →
  accession_hyphenated (normalized s) = Ok s ∧ normalize_accession s = Some (normalized s).
Proof.
  intros Hp. rewrite (normalized_parts _ _ _ _ Hp).
  assert (strip s = s) as Hs by (by eapply strip_no_space, accession_no_space).
  pose proof (normalized_parts _ _ _ _ Hp) as Hn. destruct Hp as (He & (L1 & L2 & L3) & D1 & D2 & D3).
  assert (normalize_accession (d1 +:+ d2 +:+ d3) = Some (d1 +:+ d2 +:+ d3)) as Hd.
  { apply normalize_digits; [by rewrite !string_forallb_app, D1, D2, D3|rewrite !length_append; lia]. }
  split.
  - unfold accession_hyphenated. rewrite Hd. cbn [require mbind result_bind]. rewrite !length_append, L1, L2, L3. cbn [Nat.eqb Nat.add].
    rewrite str_take_app, str_drop_app, str_take_app by done. rewrite <- (append_assoc d1 d2 d3), (str_drop_app 12 (d1 +:+ d2) d3) by (rewrite length_append; lia).
    by rewrite <- He.
  - unfold normalize_accession in Hd |- *. rewrite strip_no_space in Hd by (by apply digits_no_space; rewrite !string_forallb_app, D1, D2, D3).
    rewrite (remove_hyphens_digits (d1 +:+ d2 +:+ d3)) in Hd by (by rewrite !string_forallb_app, D1, D2, D3).
    rewrite Hs. change (remove_hyphens s) with (normalized s). rewrite Hn. rewrite (proj2 (String.eqb_neq s "")) by (rewrite He; intros E; apply (f_equal String.length) in E; rewrite !length_append in E; simpl in E; lia).
    by destruct (String.eqb (d1 +:+ d2 +:+ d3) "").
Qed.

Lemma not_index_page c N : has_char c "index" = true → has_char c N = false → match_re index_page N = false.
Proof.
  intros Hc Hn. apply not_true_iff_false. rewrite match_re_spec. intros H. unfold index_page in H.
  apply cat_spec in H as (v & w & -> & _ & H). apply cat_spec in H as (v' & w' & -> & ->%lit_spec & _).
  change "-index" with ("-" +:+ "index") in Hn. rewrite !has_char_app, Hc in Hn. by rewrite !orb_true_r in Hn.
Qed.
Lemma not_index_json N : is_digit (default "i"%char (String.get 0 N)) = true → match_re (lit "index.json") N = false.
Proof. intros Hd. apply not_true_iff_false. rewrite match_re_spec, lit_spec. by intros ->. Qed.
Lemma not_bundle N : has_char "t"%char N = false → match_re bundle N = false.
Proof.
  intros Hn. apply not_true_iff_false. rewrite match_re_spec. intros H. unfold bundle in H.
  do 5 (apply cat_spec in H as (? & ? & -> & _ & H); rewrite has_char_app in Hn; apply orb_false_iff in Hn as [_ Hn]).
  apply lit_spec in H as ->. done.
Qed.

Lemma times_digit n u : String.length u = n → string_forallb is_digit u = true → matches (times n digit) u.
Proof.
  revert u. induction n as [|n IH]; intros [|c u]; try done; [by intros; apply eps_spec|]. cbn [String.length string_forallb].
  intros [= Hl] [Hc Hu]%andb_true_iff. cbn [times]. apply cat_spec. exists (String c ""), u. split; [done|]. split; [by constructor|by apply IH].
Qed.

Lemma bundle_name d1 d2 d3 :
  (String.length d1 = 10 ∧ String.length d2 = 2 ∧ String.length d3 = 6)%nat →
  string_forallb is_digit d1 = true → string_forallb is_digit d2 = true → string_forallb is_digit d3 = true →
  matches bundle (d1 +:+ "-" +:+ d2 +:+ "-" +:+ d3 +:+ ".txt").
Proof.
  intros (L1 & L2 & L3) D1 D2 D3. unfold bundle. apply cat_spec. eexists _, _. split; [reflexivity|]. split; [by apply times_digit|].
  apply cat_spec. eexists _, _. split; [reflexivity|]. split; [by apply lit_spec|].
  apply cat_spec. eexists _, _. split; [reflexivity|]. split; [by apply times_digit|].
  apply cat_spec. eexists _, _. split; [reflexivity|]. split; [by apply lit_spec|].
  apply cat_spec. eexists _, _. split; [reflexivity|]. split; [by apply times_digit|by apply lit_spec].
Qed.

(** An index page, a directory listing, a submission bundle and an XBRL package are requested
    under the surface the table of the builders names: the URL built for an accession and a CIK is
    classified so, although the patterns of the surfaces overlap. *)
Theorem builders_are_classified cik accession :
  (0 <= cik)%Z → is_hyphenated_accession accession = true →
  let classified (built : result string) surface :=
    ∃ u, built = Ok u ∧ classify_sec_surface (Some u) = Ok (Some surface) in
  classified (index_url_for accession cik) SURFACE_ARCHIVE_INDEX_PAGES ∧
  classified (index_json_url_for accession cik) SURFACE_ARCHIVE_INDEX_JSON ∧
  classified (full_submission_url_for (pretty (Z.abs_N cik)) accession) SURFACE_FULL_SUBMISSION_BUNDLES ∧
  classified (xbrl_package_url_for (pretty (Z.abs_N cik)) accession) SURFACE_XBRL_PACKAGES.
Proof.
  intros Hcik Hid classified. pose proof (accession_of_hyphenated _ Hid) as Hacc. destruct (identity_digits _ _ Hacc) as [DA LA].
  pose proof Hid as (d1 & d2 & d3 & Hp)%is_hyphenated_parts. destruct (hyphenated_again _ _ _ _ Hp) as [Hdash Hnorm].
  destruct Hp as (He & (L1 & L2 & L3) & D1 & D2 & D3).
  assert (∀ document, plain_document document = true → classify_sec_surface (Some (archives_url cik (normalized accession) document)) =
    Ok (Some (name_surface document))) as Hclass.
  { intros document Hd. rewrite classify_archive by done. f_equal. apply archive_surface;
      [apply pretty_N_digits|apply pretty_N_nonempty|by apply digits_slash_free|by intros E; rewrite E in LA]. }
  assert (∀ tail, is_digit (default "i"%char (String.get 0 (accession +:+ tail))) = true) as Hfirst.
  { intros tail. rewrite He. destruct d1 as [|c d1]; [done|]. change (is_digit c = true). by apply andb_true_iff in D1 as [-> _]. }
  assert (∀ tail, string_forallb (λ c, negb (control_char c) && is_ascii c && negb (char_in "?#/" c)) tail = true → plain_document (accession +:+ tail) = true) as Hplain.
  { intros tail Ht. unfold plain_document. rewrite He, !string_forallb_app, Ht.
    rewrite (string_forallb_impl is_digit _ d1), (string_forallb_impl is_digit _ d2), (string_forallb_impl is_digit _ d3)
      by (try (intros [[] [] [] [] [] [] [] []]; done); done). done. }
  assert (∀ c, is_digit c = false → c ≠ "-"%char → has_char c accession = false) as Hchar.
  { intros c Hc Hh. rewrite He, !has_char_app, (digits_no_char c d1), (digits_no_char c d2), (digits_no_char c d3) by done. cbn [has_char]. by rewrite bool_decide_false by done. }
  assert (matches segment_chars accession) as Hseg.
  { apply star_chr. change (slash_free accession = true). unfold slash_free. rewrite He, !string_forallb_app.
    pose proof (digits_slash_free _ D1) as S1. pose proof (digits_slash_free _ D2) as S2. pose proof (digits_slash_free _ D3) as S3.
    unfold slash_free in S1, S2, S3. by rewrite S1, S2, S3. }
  split_and!; unfold classified, index_url_for, index_json_url_for, full_submission_url_for, xbrl_package_url_for;
    rewrite ?Hacc, ?Hnorm; cbn [require mbind result_bind]; rewrite ?Hdash, ?int_of_pretty by done; cbn [mbind result_bind];
    (eexists; split; [reflexivity|]); rewrite Hclass by (done || by apply Hplain); unfold name_surface.
  - rewrite not_index_json by done. assert (match_re index_page (accession +:+ "-index.html") = true) as ->; [|done].
    apply match_re_spec, cat_spec. exists accession, "-index.html". split; [done|]. split; [|by apply match_re_spec].
    exact Hseg.
  - done.
  - rewrite not_index_json, (not_index_page "n") by (done || rewrite has_char_app, Hchar by done; done).
    assert (match_re bundle (accession +:+ ".txt") = true) as ->; [|done]. apply match_re_spec. rewrite He, !append_assoc. by apply bundle_name.
  - rewrite not_index_json, (not_index_page "n"), not_bundle by (done || rewrite has_char_app, Hchar by done; done).
    assert (match_re package (accession +:+ "-xbrl.zip") = true) as ->; [|done].
    apply match_re_spec, cat_spec. exists accession, "-xbrl.zip". split; [done|]. split; [exact Hseg|by apply match_re_spec].
Qed.
Lemma builders_are_classified_witness :
  classify_sec_surface (Some "https://www.sec.gov/Archives/edgar/data/320193/000032019323000106/0000320193-23-000106.txt") =
    Ok (Some SURFACE_FULL_SUBMISSION_BUNDLES).
Proof.
  destruct (builders_are_classified 320193 "0000320193-23-000106" ltac:(lia) eq_refl) as (_ & _ & (u & [= <-] & Hu) & _). exact Hu.
Defined.
