(* ===== verification/Calendar.v ===== *)
(** * UTC time stamps

    [time.strftime("%Y-%m-%dT%H:%M:%SZ", time.gmtime(t))] for a number of seconds since 1970, and
    that comparing such texts compares the times, up to the end of the year 9999.  No code of the
    repository is modelled here. *)
From S2P Require Import Prelude Numerals.
#[local] Open Scope Z_scope.

(** ** Dates *)

Definition era_days : Z := 146097.
(** Year, month and day of a day of a period of 400 years that starts on the first of March. *)
Definition date_in_era (doe : Z) : Z * Z * Z :=
  let yoe := (doe - doe / 1460 + doe / 36524 - doe / 146096) / 365 in
  let doy := doe - (365 * yoe + yoe / 4 - yoe / 100) in
  let mp := (5 * doy + 2) / 153 in
  let d := doy - (153 * mp + 2) / 5 + 1 in
  let m := if mp <? 10 then mp + 3 else mp - 9 in
  (yoe + (if m <=? 2 then 1 else 0), m, d).
(** Year, month and day of a day counted from 1970-01-01. *)
Definition date_of_day (day : Z) : Z * Z * Z :=
  let z := day + 719468 in
  let '(y, m, d) := date_in_era (z mod era_days) in
  (y + 400 * (z / era_days), m, d).

Definition utc_text (seconds : Z) : string :=
  let '(y, m, d) := date_of_day (seconds / 86400) in
  let s := seconds mod 86400 in
  zero_padded 4 y +:+ "-" +:+ zero_padded 2 m +:+ "-" +:+ zero_padded 2 d +:+ "T" +:+
  zero_padded 2 (s / 3600) +:+ ":" +:+ zero_padded 2 (s / 60 mod 60) +:+ ":" +:+ zero_padded 2 (s mod 60) +:+ "Z".

Example stamps :
  utc_text 0 = "1970-01-01T00:00:00Z" ∧ utc_text 951782400 = "2000-02-29T00:00:00Z" ∧
  utc_text 1709210096 = "2024-02-29T12:34:56Z" ∧ utc_text 253402300799 = "9999-12-31T23:59:59Z".
Proof. vm_compute. done. Qed.

(** ** Dates increase *)

Definition date_key (p : Z * Z * Z) : Z := (p.1.1 * 100 + p.1.2) * 100 + p.2.
Definition good_date (p : Z * Z * Z) : bool := (1 <=? p.1.2) && (p.1.2 <=? 12) && (1 <=? p.2) && (p.2 <=? 31) && (0 <=? p.1.1) && (p.1.1 <=? 400).

(** Every day of an era has a good date, later than that of the day before. *)
Definition check_day (st : Z * Z * bool) : Z * Z * bool :=
  let '(doe, last, ok) := st in
  let p := date_in_era doe in
  (doe + 1, date_key p, ok && good_date p && (last <? date_key p)).
Lemma era_checked : (N.iter 146097 check_day (0, 0, true)).2 = true.
Proof. vm_compute. done. Qed.

Lemma iter_check n :
  (N.iter n check_day (0, 0, true)).2 = true →
  (N.iter n check_day (0, 0, true)).1 = (Z.of_N n, if (n =? 0)%N then 0 else date_key (date_in_era (Z.of_N n - 1))) ∧
  (∀ a, 0 <= a < Z.of_N n → good_date (date_in_era a) = true) ∧
  (∀ a b, 0 <= a < b → b < Z.of_N n → date_key (date_in_era a) < date_key (date_in_era b)).
Proof.
  induction n as [|n IH] using N.peano_ind; [intros _; split; [done|split; intros; lia]|].
  rewrite N.iter_succ. destruct (N.iter n check_day (0, 0, true)) as [[doe last] ok]. cbn [check_day fst snd]. intros Hok.
  apply andb_true_iff in Hok as [[Hok Hgood]%andb_true_iff Hlt%Z.ltb_lt].
  destruct (IH Hok) as (Est & Hg & Hm). injection Est as -> Elast. clear IH.
  rewrite (proj2 (N.eqb_neq _ _)) by lia. replace (Z.of_N (N.succ n)) with (Z.of_N n + 1) by lia. replace (Z.of_N n + 1 - 1) with (Z.of_N n) by lia.
  split; [done|]. split.
  - intros a Ha. destruct (decide (a = Z.of_N n)) as [-> |]; [done|]. apply Hg. lia.
  - intros a b Hab Hb. destruct (decide (b = Z.of_N n)) as [-> |]; [|apply Hm; lia].
    rewrite (proj2 (N.eqb_neq n 0)) in Elast by lia. subst last.
    destruct (decide (a = Z.of_N n - 1)) as [-> |]; [done|]. etrans; [apply (Hm a (Z.of_N n - 1)); lia|done].
Qed.

Lemma era_good a : 0 <= a < era_days → good_date (date_in_era a) = true.
Proof. intros Ha. destruct (iter_check _ era_checked) as (_ & H & _). by apply H. Qed.
Lemma era_increases a b : 0 <= a < b → b < era_days → date_key (date_in_era a) < date_key (date_in_era b).
Proof. intros Ha Hb. destruct (iter_check _ era_checked) as (_ & _ & H). by apply H. Qed.

Lemma date_of_day_key day :
  date_key (date_of_day day) = date_key (date_in_era ((day + 719468) mod era_days)) + 4000000 * ((day + 719468) / era_days).
Proof. unfold date_of_day, date_key. destruct (date_in_era _) as [[y m] d]. cbn [fst snd]. lia. Qed.
Lemma era_key_bounds a : 0 <= a < era_days → 301 <= date_key (date_in_era a) <= 4000229.
Proof.
  intros Ha. assert (date_key (date_in_era 0) = 301) as H0 by done. assert (date_key (date_in_era (era_days - 1)) = 4000229) as H1 by done. split.
  - destruct (decide (a = 0)) as [-> |]; [lia|]. rewrite <- H0. apply Z.lt_le_incl, era_increases; lia.
  - destruct (decide (a = era_days - 1)) as [-> |]; [lia|]. rewrite <- H1. apply Z.lt_le_incl, era_increases; lia.
Qed.
Lemma dates_increase a b : a < b → date_key (date_of_day a) < date_key (date_of_day b).
Proof.
  intros Hab. rewrite !date_of_day_key. set (x := a + 719468). set (y := b + 719468). assert (x < y) as Hxy by lia.
  assert (0 < era_days) as He by done.
  pose proof (Z.mod_pos_bound x era_days He) as Hx. pose proof (Z.mod_pos_bound y era_days He) as Hy.
  pose proof (Z.div_mod x era_days ltac:(lia)) as Ex. pose proof (Z.div_mod y era_days ltac:(lia)) as Ey.
  pose proof (era_key_bounds _ Hx). pose proof (era_key_bounds _ Hy).
  assert (x / era_days <= y / era_days) as Hq by (apply Z.div_le_mono; lia).
  destruct (decide (x / era_days = y / era_days)) as [Eq|Hne]; [|lia].
  rewrite Eq. assert (x mod era_days < y mod era_days) as Hm by nia. pose proof (era_increases _ _ (conj (proj1 Hx) Hm) (proj2 Hy)). lia.
Qed.

(** ** Texts of one length *)

Lemma compare_app a b x y : String.length a = String.length b →
  String.compare (a +:+ x) (b +:+ y) = match String.compare a b with Eq => String.compare x y | c => c end.
Proof.
  revert b. induction a as [|c a IH]; intros [|d b]; try done. intros [= Hl]. rewrite !append_cons. cbn [String.compare].
  destruct (Ascii.compare c d); [by apply IH|done..].
Qed.
Lemma compare_refl s : String.compare s s = Eq.
Proof. induction s as [|c s IH]; [done|]. cbn. unfold Ascii.compare. by rewrite N.compare_refl. Qed.

Lemma digit_value_bound c : is_digit c = true → 0 <= digit_value c < 10.
Proof. unfold is_digit, digit_value. intros [H1%Nat.leb_le H2%Nat.leb_le]%andb_true_iff. lia. Qed.
Lemma compare_digit c d : is_digit c = true → is_digit d = true → Ascii.compare c d = (digit_value c ?= digit_value d).
Proof.
  unfold is_digit, digit_value, code, Ascii.compare. unfold Ascii.nat_of_ascii.
  intros [H1%Nat.leb_le H2%Nat.leb_le]%andb_true_iff [H3%Nat.leb_le H4%Nat.leb_le]%andb_true_iff.
  destruct (N.compare_spec (Ascii.N_of_ascii c) (Ascii.N_of_ascii d)); symmetry; [apply Z.compare_eq_iff|apply Z.compare_lt_iff|apply Z.compare_gt_iff]; lia.
Qed.

(** The value of decimal digits orders texts of them. *)
Lemma digits_lt a b m n :
  String.length a = String.length b → string_forallb is_digit a = true → string_forallb is_digit b = true → m < n →
  int_of_digits m a < int_of_digits n b.
Proof.
  revert b m n. induction a as [|c a IH]; intros [|d b] m n; try done. cbn [String.length string_forallb int_of_digits].
  intros [= Hl] [Hc Ha]%andb_true_iff [Hd Hb]%andb_true_iff Hmn. apply IH; try done.
  pose proof (digit_value_bound c Hc). pose proof (digit_value_bound d Hd). lia.
Qed.
Lemma compare_digits a b m :
  String.length a = String.length b → string_forallb is_digit a = true → string_forallb is_digit b = true →
  String.compare a b = (int_of_digits m a ?= int_of_digits m b).
Proof.
  revert b m. induction a as [|c a IH]; intros [|d b] m; try done; [by rewrite Z.compare_refl|].
  cbn [String.length string_forallb int_of_digits String.compare]. intros [= Hl] [Hc Ha]%andb_true_iff [Hd Hb]%andb_true_iff.
  rewrite compare_digit by done. destruct (Z.compare_spec (digit_value c) (digit_value d)) as [E|Hlt|Hlt].
  - rewrite E. by apply IH.
  - symmetry. apply Z.compare_lt_iff, digits_lt; done || lia.
  - symmetry. apply Z.compare_gt_iff, digits_lt; done || lia.
Qed.

Lemma zero_padded_width w n : (0 < w)%nat → 0 <= n < 10 ^ Z.of_nat w → String.length (zero_padded w n) = w.
Proof.
  intros Hw Hn. apply zero_padded_length; [lia|]. apply pretty_N_length_bound; [done|].
  apply N2Z.inj_lt. rewrite N2Z.inj_pow, nat_N_Z, N2Z.inj_abs_N. lia.
Qed.
Lemma compare_padded w m n x y :
  (0 < w)%nat → 0 <= m < 10 ^ Z.of_nat w → 0 <= n < 10 ^ Z.of_nat w →
  String.compare (zero_padded w m +:+ x) (zero_padded w n +:+ y) = match m ?= n with Eq => String.compare x y | c => c end.
Proof.
  intros Hw Hm Hn. pose proof (zero_padded_width w m Hw Hm) as Lm. pose proof (zero_padded_width w n Hw Hn) as Ln.
  destruct (zero_padded_digits w m ltac:(lia)) as (D1 & _ & V1). destruct (zero_padded_digits w n ltac:(lia)) as (D2 & _ & V2).
  rewrite compare_app by congruence. rewrite (compare_digits _ _ 0) by congruence. by rewrite V1, V2.
Qed.
Lemma compare_sep c x y : String.compare (String c "" +:+ x) (String c "" +:+ y) = String.compare x y.
Proof. rewrite compare_app by done. by rewrite compare_refl. Qed.

(** ** Time stamps *)

Lemma lex_compare k x y u v : 0 <= u < k → 0 <= v < k →
  (x * k + u ?= y * k + v) = match x ?= y with Eq => u ?= v | c => c end.
Proof.
  intros Hu Hv. destruct (Z.compare_spec x y) as [-> |H|H].
  - destruct (Z.compare_spec u v); [apply Z.compare_eq_iff|apply Z.compare_lt_iff|apply Z.compare_gt_iff]; lia.
  - apply Z.compare_lt_iff. nia.
  - apply Z.compare_gt_iff. nia.
Qed.

Definition last_second : Z := 253402300799.

Lemma date_bounds day : 0 <= day <= last_second / 86400 →
  0 <= (date_of_day day).1.1 < 10000 ∧ 1 <= (date_of_day day).1.2 <= 12 ∧ 1 <= (date_of_day day).2 <= 31.
Proof.
  intros Hd. assert (date_key (date_of_day 0) <= date_key (date_of_day day) <= date_key (date_of_day (last_second / 86400))) as Hk.
  { assert (∀ u v, u <= v → date_key (date_of_day u) <= date_key (date_of_day v)) as Hm; [|split; apply Hm; lia].
    intros u v Huv. destruct (decide (u = v)) as [-> |]; [lia|]. apply Z.lt_le_incl, dates_increase. lia. }
  assert (date_key (date_of_day 0) = 19700101) as E0 by done. assert (date_key (date_of_day (last_second / 86400)) = 99991231) as E1 by done.
  pose proof (era_good _ (Z.mod_pos_bound (day + 719468) era_days eq_refl)) as Hg. unfold good_date in Hg.
  unfold date_key, date_of_day in *. destruct (date_in_era ((day + 719468) mod era_days)) as [[y m] d]. cbn [fst snd] in *.
  apply andb_true_iff in Hg as [[[[[H1%Z.leb_le H2%Z.leb_le]%andb_true_iff H3%Z.leb_le]%andb_true_iff H4%Z.leb_le]%andb_true_iff _]%andb_true_iff _].
  rewrite E0, E1 in Hk. lia.
Qed.

(** Until the end of the year 9999 the text of a time compares as the time does. *)
Theorem utc_text_compare a b : 0 <= a <= last_second → 0 <= b <= last_second →
  String.compare (utc_text a) (utc_text b) = (a ?= b).
Proof.
  intros Ha Hb. assert (0 <= a / 86400 <= last_second / 86400 ∧ 0 <= b / 86400 <= last_second / 86400) as [Hda Hdb]
    by (split; split; (apply Z.div_pos || apply Z.div_le_mono); lia).
  pose proof (date_bounds _ Hda) as Ba. pose proof (date_bounds _ Hdb) as Bb.
  assert ((a ?= b) = match date_key (date_of_day (a / 86400)) ?= date_key (date_of_day (b / 86400)) with Eq => a mod 86400 ?= b mod 86400 | c => c end) as ->.
  { rewrite (Z.div_mod a 86400) at 1 by lia. rewrite (Z.div_mod b 86400) at 1 by lia. rewrite !(Z.mul_comm 86400).
    rewrite lex_compare by (apply Z.mod_pos_bound; lia).
    destruct (Z.compare_spec (a / 86400) (b / 86400)) as [-> |H|H]; [by rewrite Z.compare_refl|apply dates_increase in H..]; symmetry.
    - by rewrite (proj2 (Z.compare_lt_iff _ _) H).
    - by rewrite (proj2 (Z.compare_gt_iff _ _) H). }
  unfold utc_text. destruct (date_of_day (a / 86400)) as [[y m] d], (date_of_day (b / 86400)) as [[y' m'] d']. cbn [fst snd date_key] in *.
  pose proof (Z.mod_pos_bound a 86400 eq_refl) as Hs. pose proof (Z.mod_pos_bound b 86400 eq_refl) as Hs'.
  set (s := a mod 86400) in *. set (s' := b mod 86400) in *. unfold date_key. cbn [fst snd].
  assert (∀ s, 0 <= s < 86400 → 0 <= s / 3600 < 24 ∧ 0 <= s / 60 mod 60 < 60 ∧ 0 <= s mod 60 < 60 ∧ s = (s / 3600 * 60 + s / 60 mod 60) * 60 + s mod 60) as Hparts.
  { clear. intros s Hs. pose proof (Z.mod_pos_bound (s / 60) 60 eq_refl). pose proof (Z.mod_pos_bound s 60 eq_refl).
    assert (s / 3600 = s / 60 / 60) as -> by (rewrite Z.div_div by lia; done).
    pose proof (Z.div_mod (s / 60) 60 ltac:(lia)). pose proof (Z.div_mod s 60 ltac:(lia)). lia. }
  destruct (Hparts s Hs) as (P1 & P2 & P3 & E). destruct (Hparts s' Hs') as (P1' & P2' & P3' & E').
  replace (s ?= s') with ((s / 3600 * 60 + s / 60 mod 60) * 60 + s mod 60 ?= (s' / 3600 * 60 + s' / 60 mod 60) * 60 + s' mod 60) by (by rewrite <- E, <- E').
  rewrite !lex_compare by lia. rewrite (compare_padded 4 y y') by (done || lia). destruct (y ?= y'); [|done..].
  rewrite compare_sep, (compare_padded 2 m m') by (done || lia). destruct (m ?= m'); [|done..].
  rewrite compare_sep, (compare_padded 2 d d') by (done || lia). destruct (d ?= d'); [|done..].
  rewrite compare_sep, (compare_padded 2 (s / 3600)) by (done || lia). destruct (s / 3600 ?= s' / 3600); [|done..].
  rewrite compare_sep, (compare_padded 2 (s / 60 mod 60)) by (done || lia). destruct (s / 60 mod 60 ?= s' / 60 mod 60); [|done..].
  rewrite compare_sep, (compare_padded 2 (s mod 60)) by (done || lia). by destruct (s mod 60 ?= s' mod 60).
Qed.
