(* ===== verification/HttpCache.v ===== *)
(** * The response cache and its failure ledger: [infra/sec_http/cache.py]

    Two tables of an SQLite database, keyed by the digest of a URL: responses with their expiry,
    and failures with how often they were recorded.  Every method is one transaction.  The clock
    is read in whole seconds; the compression of payloads, of zstandard, and the hash function are
    parameters. *)
From stdpp Require Import gmap.
From Stdlib Require Import Ascii.
From S2P Require Import Prelude Numerals Hashing Url Identity Regex SecUrls Calendar.
#[local] Open Scope Z_scope.

(** ** Expiry *)

Definition DEFAULT_TRANSIENT_TTL_S : Z := 24 * 60 * 60.
Definition SURFACE_KIND_STATIC : string := "static".
Definition SURFACE_KIND_TRANSIENT : string := "transient".
(** The cadence, a description, is left out. *)
Record SurfacePolicy := mkSurfacePolicy { surface_id : string; kind : string; ttl_path : option string }.
Definition SURFACE_POLICIES : list SurfacePolicy := [
  mkSurfacePolicy "submissions" SURFACE_KIND_TRANSIENT (Some "sec.ttl.submissions");
  mkSurfacePolicy "submissions_bulk" SURFACE_KIND_TRANSIENT (Some "sec.ttl.submissions_bulk");
  mkSurfacePolicy "companyconcept" SURFACE_KIND_TRANSIENT (Some "sec.ttl.companyconcept");
  mkSurfacePolicy "company_tickers" SURFACE_KIND_TRANSIENT (Some "sec.ttl.company_tickers");
  mkSurfacePolicy "company_tickers_exchange" SURFACE_KIND_TRANSIENT (Some "sec.ttl.company_tickers_exchange");
  mkSurfacePolicy "company_tickers_mf" SURFACE_KIND_TRANSIENT (Some "sec.ttl.company_tickers_mf");
  mkSurfacePolicy "ticker_txt" SURFACE_KIND_TRANSIENT (Some "sec.ttl.ticker_txt");
  mkSurfacePolicy "cik_lookup" SURFACE_KIND_TRANSIENT (Some "sec.ttl.cik_lookup");
  mkSurfacePolicy "archive_documents" SURFACE_KIND_STATIC None;
  mkSurfacePolicy "archive_index_pages" SURFACE_KIND_STATIC None;
  mkSurfacePolicy "archive_index_json" SURFACE_KIND_STATIC None;
  mkSurfacePolicy "full_submission_bundles" SURFACE_KIND_STATIC None;
  mkSurfacePolicy "xbrl_packages" SURFACE_KIND_STATIC None;
  mkSurfacePolicy "submissions_historical_shards" SURFACE_KIND_STATIC None;
  mkSurfacePolicy "taxonomy_archives" SURFACE_KIND_STATIC None].

(** [raw] is the settings that were resolved. *)
Definition surface_ttl (raw : string → Z) (default_ttl : Z) (policy : SurfacePolicy) : option Z :=
  if String.eqb (kind policy) SURFACE_KIND_STATIC then None
  else match ttl_path policy with Some p => Some (raw p) | None => Some default_ttl end.
Definition resolve_surface_policy (raw : string → Z) : gmap string (option Z) * Z :=
  let default_ttl := raw "sec.ttl.default_s" in
  (foldl (λ table policy, <[surface_id policy := surface_ttl raw default_ttl policy]> table) ∅ SURFACE_POLICIES, default_ttl).

Definition _now (now : Z) : string := utc_text now.
Definition _format_expiry (fetched ttl_s : Z) : string := utc_text (fetched + ttl_s).
(** The table and the default that [_expires_at] uses. *)
Definition expiry_policy (raw : string → Z) (surface_ttls : option (gmap string (option Z))) (default_surface_ttl_s : option Z) :
    gmap string (option Z) * Z :=
  match surface_ttls with
  | None => let '(table, resolved) := resolve_surface_policy raw in (table, default resolved default_surface_ttl_s)
  | Some table => (table, default DEFAULT_TRANSIENT_TTL_S default_surface_ttl_s)
  end.
Definition ends_with (suffix s : string) : bool :=
  (String.length suffix <=? String.length s)%nat && String.eqb (str_drop (String.length s - String.length suffix) s) suffix.
Definition suffix_expiry (url : string) (fetched ttl_s : Z) (mutable : bool) : result (option string) :=
  governed ← (if mutable then Ok true
              else parts ← require (urlsplit_full url) (ValueError "malformed URL");
                   Ok (ends_with ".json" (casefold (up_path parts))));
  Ok (if governed : bool then Some (_format_expiry fetched ttl_s) else None).
Definition _expires_at (raw : string → Z) (url : string) (fetched ttl_s : Z) (mutable : bool)
    (surface_ttls : option (gmap string (option Z))) (default_surface_ttl_s : option Z) : result (option string) :=
  if ttl_s <=? 0 then Ok None else
  surface ← classify_sec_surface (Some url);
  match surface with
  | Some surface =>
      let '(table, default_ttl) := expiry_policy raw surface_ttls default_surface_ttl_s in
      match table !! surface with
      | Some None => Ok (if mutable then Some (_format_expiry fetched default_ttl) else None)
      | Some (Some ttl) => Ok (Some (_format_expiry fetched ttl))
      | None => suffix_expiry url fetched ttl_s mutable
      end
  | None => suffix_expiry url fetched ttl_s mutable
  end.
Definition _is_expired (expires_at : option string) (now : string) : bool :=
  match expires_at with None => false | Some t => String.leb t now end.

(** ** The tables *)

Record response_row := mkResponse {
  r_url : string; r_payload : string; r_payload_sha256 : string; r_byte_size : Z; r_content_kind : string;
  r_fetched_at : string; r_expires_at : option string;
}.
Record failure_row := mkFailure {
  f_url : string; f_failed_runs : Z; f_last_kind : string; f_last_status : option Z; f_last_detail : string;
  f_permanent : bool; f_updated_at : string;
}.
(** The settings of a store, and its tables. *)
Record store_settings := mkStore {
  ttl_s : Z; _surface_ttls : option (gmap string (option Z)); _default_surface_ttl_s : option Z; raw_settings : string → Z;
}.
Record tables := mkTables { url_responses : gmap string response_row; url_failures : gmap string failure_row }.

Section store.
Context (sha256_hexdigest : string → string) (compress_payload : string → string) (decompress_payload : string → option string).

Definition _url_sha256 (url : string) : string := sha256_hexdigest (utf8 url).

(** [Err] is the error of a payload that cannot be decompressed. *)
Definition get (url : string) (now : Z) (t : tables) : result (option string) :=
  match url_responses t !! _url_sha256 url with
  | None => Ok None
  | Some row =>
      if _is_expired (r_expires_at row) (_now now) then Ok None
      else payload ← require (decompress_payload (r_payload row)) (RuntimeError "zstd"); Ok (Some payload)
  end.
Definition put (cfg : store_settings) (url payload sha256 : string) (byte_size : Z) (content_kind : string) (mutable : bool)
    (now : Z) (t : tables) : result tables :=
  expires_at ← _expires_at (raw_settings cfg) url now (ttl_s cfg) mutable (_surface_ttls cfg) (_default_surface_ttl_s cfg);
  Ok (mkTables
    (<[_url_sha256 url := mkResponse url (compress_payload payload) sha256 byte_size content_kind (_now now) expires_at]> (url_responses t))
    (url_failures t)).

Definition load_failure_entry (url : string) (t : tables) : option failure_row := url_failures t !! _url_sha256 url.
Definition record_failure (url kind detail : string) (status_code : option Z) (permanent : bool) (now : Z) (t : tables) : tables :=
  let runs := match url_failures t !! _url_sha256 url with Some row => f_failed_runs row + 1 | None => 1 end in
  let stored := match url_failures t !! _url_sha256 url with Some row => f_url row | None => url end in
  mkTables (url_responses t)
    (<[_url_sha256 url := mkFailure stored runs kind status_code (str_take 500 detail) permanent (_now now)]> (url_failures t)).
Definition clear_failure (url : string) (t : tables) : tables :=
  mkTables (url_responses t) (delete (_url_sha256 url) (url_failures t)).

(** ** Clearing *)

(** [LIKE] of SQLite, where ASCII letters of either case are alike. *)
Fixpoint like_re (pattern : string) : re :=
  match pattern with
  | EmptyString => Eps
  | String c p => Cat (if bool_decide (c = "%"%char) then anything else if bool_decide (c = "_"%char) then dot else lit_char c) (like_re p)
  end.
Definition sql_like (s pattern : string) : bool := match_re (like_re (casefold pattern)) (casefold s).

(** [s.zfill(10)] *)
Definition zfill (width : nat) (s : string) : string :=
  match s with
  | String c s' =>
      if bool_decide (c = "+"%char) || bool_decide (c = "-"%char) then String c (zeros (width - String.length s) +:+ s')
      else zeros (width - String.length s) +:+ s
  | EmptyString => zeros width
  end.
Definition cik_patterns (cik : string) : result (list string) :=
  let s := strip cik in
  let padded := zfill 10 s in
  bare ← (if negb (String.eqb s "") && string_forallb isdigit_char s then n ← int_of_string s; Ok (str_of_int n) else Ok s);
  Ok ["%CIK" +:+ padded +:+ "%"; "%/data/" +:+ bare +:+ "/%"; "%/data/" +:+ padded +:+ "/%"].

Record clear_request := mkClear {
  c_url : option string; c_url_pattern : option string; c_cik : option string; c_kind : option string;
  c_older_than_s : option Z; c_expired_only : bool; c_clear_failures : bool;
}.
(** The conditions on the URL of a row, of both tables. *)
Definition url_conditions (q : clear_request) : result (string → bool) :=
  patterns ← match c_cik q with Some cik => ps ← cik_patterns cik; Ok (Some ps) | None => Ok None end;
  Ok (λ url,
    match c_url q with Some u => String.eqb url u | None => true end &&
    match c_url_pattern q with Some p => sql_like url p | None => true end &&
    match patterns with Some ps => existsb (sql_like url) ps | None => true end).
Definition row_conditions (q : clear_request) (now : Z) (row : response_row) : bool :=
  match c_kind q with Some k => String.eqb (r_content_kind row) k | None => true end &&
  match c_older_than_s q with
  | Some s => if 0 <? s then String.leb (r_fetched_at row) (utc_text (now - s)) else true
  | None => true
  end &&
  (if c_expired_only q then match r_expires_at row with Some t => String.leb t (_now now) | None => false end else true).
(** The number of responses deleted, and the tables after it. *)
Definition clear (q : clear_request) (now : Z) (t : tables) : result (nat * tables) :=
  on_url ← url_conditions q;
  let doomed (row : response_row) := on_url (r_url row) && row_conditions q now row in
  let kept := filter (λ kv, doomed kv.2 = false) (url_responses t) in
  Ok ((size (url_responses t) - size kept)%nat,
      mkTables kept
        (if c_clear_failures q then filter (λ kv, on_url (f_url kv.2) = false) (url_failures t) else url_failures t)).
End store.

(** ** How long a response is served *)

(** The life in seconds of a response, [None] when it never expires. *)
Definition lifetime (cfg : store_settings) (url : string) (mutable : bool) : result (option Z) :=
  let by_suffix :=
    governed ← (if mutable then Ok true
                else parts ← require (urlsplit_full url) (ValueError "malformed URL");
                     Ok (ends_with ".json" (casefold (up_path parts))));
    Ok (if governed : bool then Some (ttl_s cfg) else None) in
  if ttl_s cfg <=? 0 then Ok None else
  surface ← classify_sec_surface (Some url);
  match surface with
  | Some surface =>
      let '(table, default_ttl) := expiry_policy (raw_settings cfg) (_surface_ttls cfg) (_default_surface_ttl_s cfg) in
      match table !! surface with
      | Some None => Ok (if mutable then Some default_ttl else None)
      | Some (Some ttl) => Ok (Some ttl)
      | None => by_suffix
      end
  | None => by_suffix
  end.
Definition served (payload : string) (life : option Z) (age : Z) : option string :=
  match life with Some ttl => if age <? ttl then Some payload else None | None => Some payload end.

Lemma expires_lifetime cfg url fetched mutable :
  _expires_at (raw_settings cfg) url fetched (ttl_s cfg) mutable (_surface_ttls cfg) (_default_surface_ttl_s cfg) =
    match lifetime cfg url mutable with Ok life => Ok (option_map (_format_expiry fetched) life) | Err e => Err e end.
Proof.
  unfold _expires_at, lifetime. destruct (ttl_s cfg <=? 0); [done|]. destruct (classify_sec_surface (Some url)) as [[s|]|]; cbn [mbind result_bind]; [| |done].
  - destruct (expiry_policy _ _ _) as [table d]. destruct (table !! s) as [[ttl|]|]; [done|by destruct mutable|].
    unfold suffix_expiry. destruct mutable; [done|]. destruct (require _ _); [|done]. cbn [mbind result_bind]. by destruct (ends_with _ _).
  - unfold suffix_expiry. destruct mutable; [done|]. destruct (require _ _); [|done]. cbn [mbind result_bind]. by destruct (ends_with _ _).
Qed.

Section serving.
Context (sha256_hexdigest : string → string) (compress_payload : string → string) (decompress_payload : string → option string).
Context (Hzstd : ∀ payload, decompress_payload (compress_payload payload) = Some payload).

(** C28: A response that was put is served, decompressed, exactly until its lifetime has passed: the
    texts of the expiry and of the clock that the store compares order as the times do. *)
Theorem response_served_until_expiry cfg url payload sha size kind mutable now t t' life :
  put sha256_hexdigest compress_payload cfg url payload sha size kind mutable now t = Ok t' → lifetime cfg url mutable = Ok life →
  match life with Some ttl => 0 <= now + ttl <= last_second | None => True end →
  ∀ later, 0 <= later <= last_second → get sha256_hexdigest decompress_payload url later t' = Ok (served payload life (later - now)).
Proof using Hzstd.
  unfold put. rewrite expires_lifetime. intros Hput Hlife Hb later Hl. rewrite Hlife in Hput. cbn [mbind result_bind] in Hput. injection Hput as <-.
  unfold get. cbn [url_responses]. rewrite lookup_insert_eq. cbn [r_expires_at r_payload].
  destruct life as [ttl|]; cbn [option_map _is_expired]; [|by rewrite Hzstd].
  unfold _format_expiry, _now, String.leb. rewrite utc_text_compare by done. unfold served.
  destruct (Z.compare_spec (now + ttl) later) as [E|E|E]; destruct (Z.ltb_spec (later - now) ttl); try lia; [done|done|]. by rewrite Hzstd.
Qed.

(** Putting a response for one URL leaves those of URLs with another digest. *)
Lemma put_other cfg url payload sha size kind mutable now t t' url' later :
  put sha256_hexdigest compress_payload cfg url payload sha size kind mutable now t = Ok t' → _url_sha256 sha256_hexdigest url ≠ _url_sha256 sha256_hexdigest url' →
  get sha256_hexdigest decompress_payload url' later t' = get sha256_hexdigest decompress_payload url' later t.
Proof using Type.
  unfold put. intros (expires & _ & [= <-])%bind_Ok Hne. unfold get. cbn [url_responses]. by rewrite lookup_insert_ne.
Qed.
End serving.

(** *** Archive documents *)

Lemma static_surface raw default_ttl document :
  (expiry_policy raw None default_ttl).1 !! name_surface document = Some None.
Proof.
  unfold name_surface. destruct (match_re (lit "index.json") document); [done|]. destruct (match_re index_page document); [done|].
  destruct (match_re bundle document); [done|]. by destruct (match_re package document).
Qed.

Lemma archive_lifetime cfg cik accession document mutable :
  _surface_ttls cfg = None → 0 < ttl_s cfg → 0 <= cik → is_hyphenated_accession accession = true → plain_document document = true →
  lifetime cfg (archives_url cik (normalized accession) document) mutable =
    Ok (if mutable then Some (default (raw_settings cfg "sec.ttl.default_s") (_default_surface_ttl_s cfg)) else None).
Proof.
  intros Hs Httl Hcik Hid Hdoc. destruct (identity_digits _ _ (accession_of_hyphenated _ Hid)) as [D2 L2].
  unfold lifetime. rewrite (proj2 (Z.leb_gt _ _) Httl), classify_archive by done.
  rewrite archive_surface; [|apply pretty_N_digits|apply pretty_N_nonempty|by apply digits_slash_free|by intros E; rewrite E in L2].
  cbn [mbind result_bind]. rewrite Hs.
  pose proof (static_surface (raw_settings cfg) (_default_surface_ttl_s cfg) document) as Hst.
  assert ((expiry_policy (raw_settings cfg) None (_default_surface_ttl_s cfg)).2 =
    default (raw_settings cfg "sec.ttl.default_s") (_default_surface_ttl_s cfg)) as Hd by done.
  destruct (expiry_policy _ _ _) as [table d]. cbn [fst snd] in *. rewrite Hst, Hd. by destruct mutable.
Qed.

(** ** An example *)

Definition demo_store : store_settings := mkStore 100 None None (λ _, 3600).
Definition demo_url : string := "https://data.sec.gov/submissions/CIK0000320193.json".
Definition no_tables : tables := mkTables ∅ ∅.
Definition demo_tables : tables :=
  match put id id demo_store demo_url "{}" "" 2 "json" false 1000 no_tables with Ok t => t | Err _ => no_tables end.
Lemma response_served_until_expiry_witness :
  get id Some demo_url 4599 demo_tables = Ok (Some "{}") ∧ get id Some demo_url 4600 demo_tables = Ok None.
Proof.
  assert (put id id demo_store demo_url "{}" "" 2 "json" false 1000 no_tables = Ok demo_tables) as Hput by (vm_compute; reflexivity).
  assert (lifetime demo_store demo_url false = Ok (Some 3600)) as Hlife by (vm_compute; reflexivity).
  split.
  - refine (response_served_until_expiry id id Some (λ _, eq_refl) _ _ _ _ _ _ _ _ _ _ _ Hput Hlife _ 4599 _); unfold last_second; lia.
  - refine (response_served_until_expiry id id Some (λ _, eq_refl) _ _ _ _ _ _ _ _ _ _ _ Hput Hlife _ 4600 _); unfold last_second; lia.
Defined.
