(* ===== verification/Transport.v ===== *)
(** * Programs of the HTTP client and what they act on: [infra/sec_http]

    A method of the client is a program of calls: on the rate limiter, the cache and the metrics,
    which all threads share and which lock each call, on the network, the clock, the random
    numbers and the file system.  An execution runs the programs of any number of threads, one
    call of one of them at a time; what the environment answers is an input. *)
From stdpp Require Import gmap.
From S2P Require Import Prelude Numerals Binary64 Rounding RateLimiter Hashing HttpCache.
#[local] Open Scope Z_scope.

(** ** Metrics: [metrics.py] *)

Record HttpMetrics := mkMetrics {
  requests_total : nat; cache_hits : nat; responses_2xx : nat; status_counts : gmap string nat;
  throttled_count : nat; network_errors : nat; retries_used : nat; bytes_received : nat;
  latency_sum_s : float; last_error : option string;
}.
Definition new_metrics : HttpMetrics := mkMetrics 0 0 0 ∅ 0 0 0 0 (float_of_Z 0) None.

Definition record_attempt (m : HttpMetrics) : HttpMetrics :=
  mkMetrics (S (requests_total m)) (cache_hits m) (responses_2xx m) (status_counts m) (throttled_count m) (network_errors m)
    (retries_used m) (bytes_received m) (latency_sum_s m) (last_error m).
Definition str_of_status (status : Z) : string := Numerals.str_of_int status.
Definition record_status (status_code : Z) (latency_s : float) (byte_count : nat) (m : HttpMetrics) : HttpMetrics :=
  let key := str_of_status status_code in
  mkMetrics (requests_total m) (cache_hits m) (S (responses_2xx m))
    (<[key := S (default 0%nat (status_counts m !! key))]> (status_counts m)) (throttled_count m) (network_errors m)
    (retries_used m) (bytes_received m + byte_count) (fadd (latency_sum_s m) latency_s) (last_error m).
(** The kind of a failure is counted; its status is not used. *)
Definition metric_failure (kind detail : string) (m : HttpMetrics) : HttpMetrics :=
  mkMetrics (requests_total m) (cache_hits m) (responses_2xx m) (status_counts m)
    (if String.eqb kind "throttle" then S (throttled_count m) else throttled_count m)
    (if String.eqb kind "throttle" then network_errors m else if String.eqb kind "network" then S (network_errors m) else network_errors m)
    (retries_used m) (bytes_received m) (latency_sum_s m) (Some detail).
Definition record_retry (m : HttpMetrics) : HttpMetrics :=
  mkMetrics (requests_total m) (cache_hits m) (responses_2xx m) (status_counts m) (throttled_count m) (network_errors m)
    (S (retries_used m)) (bytes_received m) (latency_sum_s m) (last_error m).
Definition record_cache_hit (m : HttpMetrics) : HttpMetrics :=
  mkMetrics (requests_total m) (S (cache_hits m)) (responses_2xx m) (status_counts m) (throttled_count m) (network_errors m)
    (retries_used m) (bytes_received m) (latency_sum_s m) (last_error m).

Inductive measure :=
  | Attempt
  | Status (status_code : Z) (latency_s : float) (byte_count : nat)
  | Failure (kind detail : string)
  | Retry
  | CacheHit.
Definition measured (x : measure) : HttpMetrics → HttpMetrics :=
  match x with
  | Attempt => record_attempt
  | Status s l n => record_status s l n
  | Failure k d => metric_failure k d
  | Retry => record_retry
  | CacheHit => record_cache_hit
  end.

(** ** Programs *)

(** How [Session.get] ends, without and with [stream=True]; in a stream, the chunks of the body
    arrive until it ends or the connection fails. *)
Inductive transport_error := Timeout (detail : string) | RequestException (detail : string).
Record response := mkResp { status_code : Z; content : string; retry_after_header : option string }.
Record stream_response := mkStream {
  s_status : Z; s_headers : string → option string; s_url : option string;
  s_chunks : list string; s_broken : option transport_error;
}.
Inductive http_exn :=
  | PermanentHttpError (url reason : string) (status : option Z)
  | ResponseTooLargeError (url reason : string) (status : option Z)
  | RetryExhausted (url reason : string) (status : option Z)
  | Raised (e : exn).

Inductive call_op :=
  | Acquire_ | SignalThrottle (retry_after_s : option float) | SignalNetworkError
  | Doze | Wake (since seconds : float) | Monotonic | Random
  | Get (url : string) | Open (url : string)
  | Measure (m : measure)
  | CacheGet (url : string) | CachePut (url payload sha256 content_kind : string) (mutable : bool)
  | LoadFailure (url : string)
  | RecordFailure (url kind detail : string) (status_code : option Z) (permanent : bool)
  | ClearFailure (url : string)
  | Mkstemp | Append (path chunk : string) | Unlink (path : string) | Replace (source target : string)
  | FileSize (path : string).
Definition answer (o : call_op) : Type :=
  match o with
  | Acquire_ | Doze | Monotonic | Random => float
  | Get _ => transport_error + response
  | Open _ => transport_error + stream_response
  | CacheGet _ => result (option string)
  | CachePut _ _ _ _ _ => result unit
  | LoadFailure _ => option failure_row
  | Mkstemp => string
  | FileSize _ => option Z
  | _ => unit
  end.

Inductive io (A : Type) :=
  | Ret (a : A)
  | Raise (e : http_exn)
  | Next (o : call_op) (k : answer o → io A).
Arguments Ret {A} a.
Arguments Raise {A} e.
Arguments Next {A} o k.
#[global] Instance io_ret : MRet io := @Ret.
#[global] Instance io_bind : MBind io := λ A B f, fix bind p :=
  match p with Ret a => f a | Raise e => Raise e | Next o k => Next o (λ x, bind (k x)) end.
Definition call (o : call_op) : io (answer o) := Next o Ret.
(** [time.sleep(s)]: it begins, and ends no less than [s] seconds later; other threads run meanwhile. *)
Definition sleep (s : float) : io unit :=
  if negb (feq s s) || flt s (float_of_Z 0) then Raise (Raised (ValueError "sleep length must be non-negative"))
  else if infinite s then Raise (Raised OverflowError)
  else since ← call Doze; call (Wake since s).
Definition lift {A} (r : result A) : io A := match r with Ok a => Ret a | Err e => Raise (Raised e) end.

(** ** What they act on *)

Record world := mkWorld {
  w_clock : float;
  w_limiter : RateLimiter;
  w_metrics : HttpMetrics;
  w_tables : tables;
  w_files : gmap string string;
  (** the calls of the limiter and their times, the requests the client made and their times,
      and those the session added by following redirects, with the time of the call *)
  w_calls : list (float * RateLimiter.call);
  w_sent : list (float * string);
  w_followed : list (float * string);
}.
Definition with_clock (t : float) (w : world) : world :=
  mkWorld t (w_limiter w) (w_metrics w) (w_tables w) (w_files w) (w_calls w) (w_sent w) (w_followed w).
Definition with_limiter (l : RateLimiter) (t : float) (c : RateLimiter.call) (w : world) : world :=
  mkWorld t l (w_metrics w) (w_tables w) (w_files w) (w_calls w ++ [(t, c)]) (w_sent w) (w_followed w).
Definition with_metrics (m : HttpMetrics) (w : world) : world :=
  mkWorld (w_clock w) (w_limiter w) m (w_tables w) (w_files w) (w_calls w) (w_sent w) (w_followed w).
Definition with_tables (t : tables) (w : world) : world :=
  mkWorld (w_clock w) (w_limiter w) (w_metrics w) t (w_files w) (w_calls w) (w_sent w) (w_followed w).
Definition with_files (f : gmap string string) (w : world) : world :=
  mkWorld (w_clock w) (w_limiter w) (w_metrics w) (w_tables w) f (w_calls w) (w_sent w) (w_followed w).
Definition with_sent (url : string) (w : world) : world :=
  mkWorld (w_clock w) (w_limiter w) (w_metrics w) (w_tables w) (w_files w) (w_calls w) (w_sent w ++ [(w_clock w, url)]) (w_followed w).
Definition with_followed (urls : list string) (w : world) : world :=
  mkWorld (w_clock w) (w_limiter w) (w_metrics w) (w_tables w) (w_files w) (w_calls w) (w_sent w)
    (w_followed w ++ ((λ url, (w_clock w, url)) <$> urls)).

(** [requests.sessions.DEFAULT_REDIRECT_LIMIT] *)
Definition DEFAULT_REDIRECT_LIMIT : nat := 30.
(** [Replied hops r]: the session followed the redirects [hops] before it answered or raised. *)
Inductive input :=
  | Tick (t : float)
  | Replied (hops : list string) (r : transport_error + response) | Opened (r : transport_error + stream_response)
  | Drawn (r : float) | Wall (seconds : Z) | Named (path : string) | Silent.
(** A reading of the clock that is not earlier than the last. *)
Definition clock_reading (w : world) (t : float) : bool :=
  valid_binary 53 1024 t && negb (bool_decide (t = S754_nan)) && (val (w_clock w) <=? val t).

(** The URLs requested in a run, the replies to those that are not streamed, and the requests
    to stream with what opened. *)
Fixpoint requested (trace : list { o : call_op & answer o }) : list string :=
  match trace with
  | [] => []
  | existT (Get url) _ :: trace | existT (Open url) _ :: trace => url :: requested trace
  | _ :: trace => requested trace
  end.
Fixpoint replies (trace : list { o : call_op & answer o }) : list (transport_error + response) :=
  match trace with
  | [] => []
  | existT (Get _) r :: trace => r :: replies trace
  | _ :: trace => replies trace
  end.
Fixpoint opened (trace : list { o : call_op & answer o }) : list (string * (transport_error + stream_response)) :=
  match trace with
  | [] => []
  | existT (Open url) r :: trace => (url, r) :: opened trace
  | _ :: trace => opened trace
  end.
Lemma opened_app t t' : opened (t ++ t') = opened t ++ opened t'.
Proof. induction t as [|[[] x] t IH]; cbn [app opened]; by rewrite ?IH. Qed.
Lemma requested_app t t' : requested (t ++ t') = requested t ++ requested t'.
Proof. induction t as [|[[] x] t IH]; cbn [app requested]; by rewrite ?IH. Qed.
Lemma replies_app t t' : replies (t ++ t') = replies t ++ replies t'.
Proof. induction t as [|[[] x] t IH]; cbn [app replies]; by rewrite ?IH. Qed.

Section handle.
Context (sha256_hexdigest : string → string) (compress_payload : string → string) (decompress_payload : string → option string).
Context (cfg : store_settings).

(** One call; [None] when the input is not one the call can get. *)
Definition handle (o : call_op) (i : input) (w : world) : option (world * answer o) :=
  match o, i with
  | Acquire_, Tick t =>
      if clock_reading w t then let '(l, delay) := acquire t (w_limiter w) in Some (with_limiter l t RateLimiter.Acquire w, delay) else None
  | SignalThrottle r, Tick t =>
      if clock_reading w t then Some (with_limiter (signal_throttle t r (w_limiter w)).1 t (Throttle r) w, tt) else None
  | SignalNetworkError, Tick t =>
      if clock_reading w t then Some (with_limiter (signal_network_error (w_limiter w)) t NetworkError w, tt) else None
  | Wake since s, Tick t =>
      if clock_reading w t && (val since + val s <=? val t) then Some (with_clock t w, tt) else None
  | Doze, Tick t | Monotonic, Tick t => if clock_reading w t then Some (with_clock t w, t) else None
  | Random, Drawn r => Some (w, r)
  | Get url, Replied hops r =>
      if (length hops <=? DEFAULT_REDIRECT_LIMIT)%nat then Some (with_followed hops (with_sent url w), r) else None
  | Open url, Opened r => Some (with_sent url w, r)
  | Measure m, Silent => Some (with_metrics (measured m (w_metrics w)) w, tt)
  | CacheGet url, Wall z => Some (w, get sha256_hexdigest decompress_payload url z (w_tables w))
  | CachePut url payload sha kind mutable, Wall z =>
      match put sha256_hexdigest compress_payload cfg url payload sha (Z.of_nat (String.length payload)) kind mutable z (w_tables w) with
      | Ok t => Some (with_tables t w, Ok tt)
      | Err e => Some (w, Err e)
      end
  | LoadFailure url, Silent => Some (w, load_failure_entry sha256_hexdigest url (w_tables w))
  | RecordFailure url kind detail status permanent, Wall z =>
      Some (with_tables (record_failure sha256_hexdigest url kind detail status permanent z (w_tables w)) w, tt)
  | ClearFailure url, Silent => Some (with_tables (clear_failure sha256_hexdigest url (w_tables w)) w, tt)
  | Mkstemp, Named p => match w_files w !! p with None => Some (with_files (<[p := ""]> (w_files w)) w, p) | Some _ => None end
  | Append p chunk, Silent => Some (with_files (alter (λ body, body +:+ chunk) p (w_files w)) w, tt)
  | Unlink p, Silent => Some (with_files (delete p (w_files w)) w, tt)
  | Replace p q, Silent =>
      match w_files w !! p with Some body => Some (with_files (<[q := body]> (delete p (w_files w))) w, tt) | None => None end
  | FileSize p, Silent => Some (w, (λ body, Z.of_nat (String.length body)) <$> w_files w !! p)
  | _, _ => None
  end.

(** The end of a program run alone, with the calls it makes and their answers. *)
Fixpoint evals {A} (p : io A) (w : world) (trace : list { o : call_op & answer o }) (w' : world) (r : A + http_exn) : Prop :=
  match p with
  | Ret a => trace = [] ∧ w' = w ∧ r = inl a
  | Raise e => trace = [] ∧ w' = w ∧ r = inr e
  | Next o k => ∃ i w1 x rest, handle o i w = Some (w1, x) ∧ trace = existT o x :: rest ∧ evals (k x) w1 rest w' r
  end.

(** A run on given inputs. *)
Fixpoint play {A} (p : io A) (inputs : list input) (w : world) : option (list { o : call_op & answer o } * world * (A + http_exn)) :=
  match p, inputs with
  | Ret a, [] => Some ([], w, inl a)
  | Raise e, [] => Some ([], w, inr e)
  | Next o k, i :: inputs =>
      match handle o i w with
      | Some (w1, x) =>
          match play (k x) inputs w1 with Some (trace, w', r) => Some (existT o x :: trace, w', r) | None => None end
      | None => None
      end
  | _, _ => None
  end.
Lemma play_evals {A} (p : io A) inputs w trace w' r : play p inputs w = Some (trace, w', r) → evals p w trace w' r.
Proof.
  revert inputs w trace w' r. induction p as [a|e|o k IH]; intros inputs w trace w' r; cbn [play evals].
  - destruct inputs; [|done]. by intros [= <- <- <-].
  - destruct inputs; [|done]. by intros [= <- <- <-].
  - destruct inputs as [|i inputs]; [done|]. destruct (handle o i w) as [[w1 x]|] eqn:Hh; [|done].
    destruct (play (k x) inputs w1) as [[[tr w2] r2]|] eqn:Hp; [|done]. intros [= <- <- <-]. eauto 10.
Qed.

(** Every run of a program ends in what [Q] says of its calls, the world and the result. *)
Fixpoint wp {A} (p : io A) (w : world) (Q : list { o : call_op & answer o } → world → A + http_exn → Prop) : Prop :=
  match p with
  | Ret a => Q [] w (inl a)
  | Raise e => Q [] w (inr e)
  | Next o k => ∀ i w1 x, handle o i w = Some (w1, x) → wp (k x) w1 (λ trace, Q (existT o x :: trace))
  end.
Lemma wp_evals {A} (p : io A) w Q : wp p w Q ↔ ∀ trace w' r, evals p w trace w' r → Q trace w' r.
Proof.
  revert w Q. induction p as [a|e|o k IH]; intros w Q; cbn [wp evals]; [naive_solver..|]. split.
  - intros H trace w' r (i & w1 & x & rest & Hh & -> & Hr). pose proof (H i w1 x Hh) as Hw. rewrite IH in Hw. by apply Hw.
  - intros H i w1 x Hh. apply IH. intros trace w' r Hr. apply H. eauto 10.
Qed.
Lemma wp_mono {A} (p : io A) w (Q Q' : _ → _ → _ → Prop) : (∀ trace w' r, Q trace w' r → Q' trace w' r) → wp p w Q → wp p w Q'.
Proof. intros HQ. rewrite !wp_evals. eauto. Qed.
Lemma wp_bind {A B} (p : io A) (f : A → io B) w Q :
  wp p w (λ trace w' r, match r with inl a => wp (f a) w' (λ trace', Q (trace ++ trace')) | inr e => Q trace w' (inr e) end) → wp (p ≫= f) w Q.
Proof.
  revert w Q. induction p as [a|e|o k IH]; intros w Q; cbn [wp mbind io_bind]; [done..|].
  intros H i w1 x Hh. apply IH. exact (H i w1 x Hh).
Qed.

(** *** Calls that neither request nor change the tables or the files *)

Definition calm_op (o : call_op) : bool :=
  match o with
  | Acquire_ | SignalThrottle _ | SignalNetworkError | Doze | Wake _ _ | Monotonic | Random | Measure _ => true
  | _ => false
  end.
(** A program of such calls that raises nothing but errors of its own. *)
Fixpoint calm {A} (p : io A) : Prop :=
  match p with
  | Ret _ => True
  | Raise e => ∃ e', e = Raised e'
  | Next o k => calm_op o = true ∧ ∀ x, calm (k x)
  end.
Lemma calm_bind {A B} (p : io A) (f : A → io B) : calm p → (∀ a, calm (f a)) → calm (p ≫= f).
Proof. induction p as [a|e|o k IH]; cbn [calm mbind io_bind]; [auto..|]. intros [Ho Hk] Hf. auto. Qed.

(** What such a program leaves as it is. *)
Record same_store (w w' : world) : Prop := {
  same_tables : w_tables w' = w_tables w; same_files : w_files w' = w_files w; same_sent : w_sent w' = w_sent w;
}.
#[global] Instance same_store_refl : Reflexive same_store.
Proof. done. Qed.
#[global] Instance same_store_trans : Transitive same_store.
Proof. intros a b c [H1 H2 H3] [H4 H5 H6]. split; congruence. Qed.

Lemma calm_handle o i w w' x : calm_op o = true → handle o i w = Some (w', x) → same_store w w'.
Proof.
  destruct o; try done; intros _; destruct i; try done; cbn [handle]; try (destruct (clock_reading _ _); [|done]).
  - destruct (acquire _ _). by intros [= <- _].
  - by intros [= <- _].
  - by intros [= <- _].
  - by intros [= <- _].
  - destruct (_ <=? _); [|done]. by intros [= <- _].
  - by intros [= <- _].
  - by intros [= <- _].
  - by intros [= <- _].
Qed.
Lemma calm_wp {A} (p : io A) w :
  calm p → wp p w (λ trace w' r, Forall (λ e, calm_op (projT1 e) = true) trace ∧ same_store w w' ∧ ((∃ a, r = inl a) ∨ ∃ e, r = inr (Raised e))).
Proof.
  revert w. induction p as [a|e|o k IH]; intros w; cbn [calm wp].
  - intros _. split; [constructor|]. split; [done|]. left. by eexists.
  - intros [e' ->]. split; [constructor|]. split; [done|]. right. by eexists.
  - intros [Ho Hk] i w1 x Hh. apply (calm_handle _ _ _ _ _ Ho) in Hh as Hs. eapply wp_mono; [|exact (IH x w1 (Hk x))].
    intros trace w' r (Ht & Hs' & Hr). split; [by constructor|]. split; [by etrans|done].
Qed.

Definition quiet (trace : list { o : call_op & answer o }) : Prop := Forall (λ e, calm_op (projT1 e) = true) trace.
Lemma quiet_trace trace : quiet trace → requested trace = [] ∧ replies trace = [].
Proof. induction 1 as [|[[] x] trace Hx _ IH]; done. Qed.
Lemma wp_calm_bind {A B} (p : io A) (f : A → io B) w Q :
  calm p →
  (∀ trace w' e, quiet trace → same_store w w' → Q trace w' (inr (Raised e))) →
  (∀ trace w' a, quiet trace → same_store w w' → wp (f a) w' (λ trace', Q (trace ++ trace'))) →
  wp (p ≫= f) w Q.
Proof.
  intros Hp He Ha. apply wp_bind. eapply wp_mono; [|by apply calm_wp]. intros trace w' r (Ht & Hs & [[a ->]|[e ->]]); auto.
Qed.

(** Threads: the schedule says which makes its next call, and what the environment answers. *)
Definition step (choice : nat * input) (st : world * list (io unit)) : option (world * list (io unit)) :=
  match st.2 !! choice.1 with
  | Some (Next o k) => '(w, x) ← handle o choice.2 st.1; Some (w, <[choice.1 := k x]> st.2)
  | _ => None
  end.
Fixpoint execute (schedule : list (nat * input)) (st : world * list (io unit)) : option (world * list (io unit)) :=
  match schedule with
  | [] => Some st
  | c :: schedule => st ← step c st; execute schedule st
  end.
End handle.
