(* ===== verification/HttpClient.v ===== *)
(** * Fetching bytes: [infra/sec_http/client.py], [retry.py]

    [get_bytes] with its retries, its cache and its failure ledger, as a program of calls
    ([Transport]).  [float(text)] of a header is a parameter. *)
From stdpp Require Import gmap.
From S2P Require Import Prelude Numerals Binary64 Rounding RateLimiter Hashing Identity SecUrls HttpCache Transport.
#[local] Open Scope Z_scope.

(** ** Retry policy *)

Definition BACKOFF_BASE_S : float := grid (-1) 1.
Definition BACKOFF_CAP_S : float := float_of_Z 30.
Definition DEFAULT_MAX_RETRIES : Z := 3.
Record RetryPolicy := mkRetryPolicy { max_retries : Z; backoff_base_s : float; backoff_cap_s : float; jitter : float }.
Definition default_retry_policy : RetryPolicy := mkRetryPolicy DEFAULT_MAX_RETRIES BACKOFF_BASE_S BACKOFF_CAP_S (grid (-2) 1).

Inductive status_class := ok_ | throttle_ | retry_ | permanent_.
#[global] Instance status_class_eq_dec : EqDecision status_class.
Proof. solve_decision. Defined.
Definition classify (status_code : Z) : status_class :=
  if status_code =? 200 then ok_
  else if status_code =? 429 then throttle_
  else if (status_code =? 408) || (status_code =? 425) then retry_
  else if (500 <=? status_code) && (status_code <? 600) then retry_
  else permanent_.

(** [float * int] raises when the integer exceeds every float. *)
Definition backoff (policy : RetryPolicy) (attempt : Z) (retry_after_s : option float) : result float :=
  match retry_after_s with
  | Some r => Ok (fmin (fmax r (float_of_Z 0)) RETRY_AFTER_CAP_S)
  | None =>
      _ ← raise_if (1024 <=? attempt) OverflowError;
      Ok (fmin (fmul (backoff_base_s policy) (float_of_Z (2 ^ attempt))) (backoff_cap_s policy))
  end.
(** [random.uniform(0.0, jitter)] *)
Definition uniform (jitter r : float) : float := fadd (float_of_Z 0) (fmul (fsub jitter (float_of_Z 0)) r).
Definition delay (policy : RetryPolicy) (attempt : Z) (retry_after_s : option float) : io float :=
  base ← lift (backoff policy attempt retry_after_s);
  r ← call Random;
  Ret (fmul base (fadd (float_of_Z 1) (uniform (jitter policy) r))).

(** ** The client *)

(** Without a cache directory there is no cache, and no ledger. *)
Record SecHttpClient := mkClient {
  retry_policy : RetryPolicy;
  _cache : bool;
  max_failure_attempts : Z;
  ignore_failure_history : bool;
  max_response_bytes : option nat;
}.

Definition measure_ (m : measure) : io unit := call (Measure m).
(** [acquire], and the sleep it asks for. *)
Definition paced_ : io unit :=
  d ← call Acquire_;
  if flt (float_of_Z 0) d then sleep d else Ret tt.

Definition show_status (s : option Z) : string := match s with Some z => str_of_int z | None => "None" end.
Definition str_of_exn (e : http_exn) : string :=
  match e with
  | PermanentHttpError url reason s | ResponseTooLargeError url reason s =>
      "permanent error for " +:+ url +:+ ": " +:+ reason +:+ " (status=" +:+ show_status s +:+ ")"
  | RetryExhausted url reason s =>
      "retries exhausted for " +:+ url +:+ ": " +:+ reason +:+ " (status=" +:+ show_status s +:+ ")"
  | Raised _ => ""
  end.

Section client.
Context (sha256_hexdigest : string → string) (py_float : string → option float).
Context (self : SecHttpClient).

Definition _cache_get (url : string) : io (option string) :=
  if _cache self then cached ← call (CacheGet url); lift cached else Ret None.
Definition _cache_put (url payload sha content_kind : string) (mutable : bool) : io unit :=
  if _cache self then done ← call (CachePut url payload sha content_kind mutable); lift done else Ret tt.
Definition ledger (url kind detail : string) (status : option Z) (permanent : bool) : io unit :=
  if _cache self then call (RecordFailure url kind detail status permanent) else Ret tt.
Definition peek_cache (url : string) : io (option string) :=
  cached ← _cache_get url;
  match cached with Some payload => _ ← measure_ CacheHit; Ret (Some payload) | None => Ret None end.

Definition skip_reason (entry : failure_row) : option string :=
  if f_permanent entry
  then Some ("permanent failure on a previous run (" +:+ f_last_kind entry +:+ ": " +:+ f_last_detail entry +:+ ")")
  else if (0 <? max_failure_attempts self) && (max_failure_attempts self <=? f_failed_runs entry)
  then Some ("failed " +:+ str_of_int (f_failed_runs entry) +:+ " independent run(s), reaching budget of " +:+
             str_of_int (max_failure_attempts self) +:+ ": " +:+ f_last_detail entry)
  else None.
Definition _preflight_skip (url : string) : io (option http_exn) :=
  if ignore_failure_history self || negb (_cache self) then Ret None
  else entry ← call (LoadFailure url);
       Ret (e ← entry; reason ← skip_reason e; Some (PermanentHttpError url reason (f_last_status e))).

(** [hdr and hdr.isdigit()] *)
Definition digit_header (h : option string) : result (option float) :=
  match h with
  | Some h => if negb (String.eqb h "") && string_forallb isdigit_char h
              then r ← require (py_float h) (ValueError "could not convert string to float"); Ok (Some r)
              else Ok None
  | None => Ok None
  end.

Section attempts.
Context (url content_kind : string) (mutable : bool).

(** What is done before another attempt. *)
Definition pause (attempt : Z) (retry_after : option float) : io unit :=
  _ ← measure_ Retry; d ← delay (retry_policy self) attempt retry_after; sleep d.
(** Another attempt after a delay when there is one left; otherwise the failure is noted and raised. *)
Definition again (attempt : Z) (retry_after : option float) (next : io string)
    (kind detail : string) (status : option Z) (e : http_exn) : io string :=
  if attempt <? max_retries (retry_policy self)
  then _ ← pause attempt retry_after; next
  else _ ← ledger url kind detail status false; Raise e.

Definition on_success (body : string) : io string :=
  if match max_response_bytes self with Some n => (n <? String.length body)%nat | None => false end
  then _ ← ledger url "size_exceeded"
         ("response size " +:+ pretty (String.length body) +:+ " > " +:+ pretty (default 0%nat (max_response_bytes self))) (Some 200) true;
       Raise (ResponseTooLargeError url ("response exceeded " +:+ pretty (default 0%nat (max_response_bytes self)) +:+ " bytes") (Some 200))
  else _ ← _cache_put url body (sha256_hexdigest body) content_kind mutable;
       _ ← (if _cache self then call (ClearFailure url) else Ret tt);
       Ret body.

Definition on_response (attempt : Z) (r : response) (next : io string) : io string :=
  let status := status_code r in
  match classify status with
  | ok_ => on_success (content r)
  | throttle_ =>
      retry_after ← lift (digit_header (retry_after_header r));
      _ ← measure_ (Failure "throttle" ("429 throttled: " +:+ url));
      _ ← call (SignalThrottle retry_after);
      again attempt retry_after next "throttle" "HTTP 429 rate limit exceeded" (Some 429)
        (RetryExhausted url "rate limit 429 retries exhausted" (Some 429))
  | retry_ =>
      _ ← measure_ (Failure "http_retry" ("HTTP " +:+ str_of_int status +:+ ": " +:+ url));
      again attempt None next "retryable_http" ("HTTP " +:+ str_of_int status) (Some status)
        (RetryExhausted url ("server error " +:+ str_of_int status) (Some status))
  | permanent_ =>
      _ ← ledger url "permanent" ("HTTP " +:+ str_of_int status) (Some status) true;
      Raise (PermanentHttpError url ("HTTP " +:+ str_of_int status) (Some status))
  end.

(** The iterations of the loop that are left, from [attempt]. *)
Fixpoint attempts (remaining : nat) (attempt : Z) : io string :=
  match remaining with
  | O => Raise (RetryExhausted url "exhausted all retry attempts" None)
  | S remaining =>
      _ ← paced_;
      send_started ← call Monotonic;
      _ ← measure_ Attempt;
      reply ← call (Get url);
      match reply with
      | inl (Timeout exc) =>
          _ ← measure_ (Failure "network" ("timeout: " +:+ url));
          _ ← call SignalNetworkError;
          again attempt None (attempts remaining (attempt + 1)) "timeout" exc None
            (RetryExhausted url ("timeout after " +:+ str_of_int (attempt + 1) +:+ " attempts") None)
      | inl (RequestException exc) =>
          _ ← measure_ (Failure "network" ("connection_error: " +:+ url));
          _ ← call SignalNetworkError;
          again attempt None (attempts remaining (attempt + 1)) "network" exc None
            (RetryExhausted url ("network error: " +:+ exc) None)
      | inr r =>
          now ← call Monotonic;
          _ ← measure_ (Status (status_code r) (fsub now send_started) (String.length (content r)));
          on_response attempt r (attempts remaining (attempt + 1))
      end
  end.

Definition get_bytes (force_refresh : bool) : io string :=
  cached ← (if force_refresh then Ret None else _cache_get url);
  match cached with
  | Some payload => _ ← measure_ CacheHit; Ret payload
  | None =>
      skip ← _preflight_skip url;
      match skip with
      | Some e => _ ← measure_ (Failure "ledger_skip" (str_of_exn e)); Raise e
      | None => attempts (Z.to_nat (max_retries (retry_policy self) + 1)) 0
      end
  end.
End attempts.
End client.

(** ** Calm parts *)

Lemma sleep_calm s : calm (sleep s).
Proof.
  unfold sleep. destruct (_ || _); [by eexists|]. destruct (infinite s); [by eexists|]. cbn. split; [done|]. intros x. split; [done|]. by intros [].
Qed.
Lemma measure_calm m : calm (measure_ m).
Proof. split; [done|]. by intros []. Qed.
Lemma lift_calm {A} (r : result A) : calm (lift r).
Proof. destruct r; cbn; eauto. Qed.
Lemma delay_calm policy attempt ra : calm (delay policy attempt ra).
Proof. unfold delay. apply calm_bind; [apply lift_calm|]. intros base. cbn. done. Qed.
Lemma paced_calm : calm paced_.
Proof. unfold paced_. cbn. split; [done|]. intros d. destruct (flt _ d); [apply sleep_calm|done]. Qed.
Create HintDb calm.
#[export] Hint Resolve sleep_calm measure_calm lift_calm delay_calm paced_calm : calm.
#[export] Hint Extern 1 (calm (call _)) => split; [done|by intros] : calm.

Lemma pause_calm self attempt ra : calm (pause self attempt ra).
Proof. unfold pause. apply calm_bind; [auto with calm|]. intros []. apply calm_bind; auto with calm. Qed.
#[export] Hint Resolve pause_calm : calm.

(** ** Outcomes *)

Section outcomes.
Context (sha256_hexdigest : string → string) (compress_payload : string → string) (decompress_payload : string → option string).
Context (cfg : store_settings) (py_float : string → option float) (self : SecHttpClient).
Context (url content_kind : string) (mutable : bool).
#[local] Abbreviation wp := (wp sha256_hexdigest compress_payload decompress_payload cfg).

(** What a reply that another attempt may follow is noted as: kind, detail and status. *)
Definition transient (reply : transport_error + response) : option (string * string * option Z) :=
  match reply with
  | inl (Timeout exc) => Some ("timeout", exc, None)
  | inl (RequestException exc) => Some ("network", exc, None)
  | inr r =>
      match classify (status_code r) with
      | throttle_ => Some ("throttle", "HTTP 429 rate limit exceeded", Some 429)
      | retry_ => Some ("retryable_http", "HTTP " +:+ str_of_int (status_code r), Some (status_code r))
      | _ => None
      end
  end.
Definition too_large (body : string) : bool := match max_response_bytes self with Some n => (n <? String.length body)%nat | None => false end.

(** A failure is noted, once, when there is a ledger. *)
Definition noted (t t' : tables) (kind detail : string) (status : option Z) (permanent : bool) : Prop :=
  if _cache self then ∃ now, t' = record_failure sha256_hexdigest url kind detail status permanent now t else t' = t.
(** A response is put and the failures of the URL forgotten, when there is a cache. *)
Definition kept (t t' : tables) (body : string) : Prop :=
  if _cache self
  then ∃ now t1, put sha256_hexdigest compress_payload cfg url body (sha256_hexdigest body) (Z.of_nat (String.length body)) content_kind mutable now t = Ok t1 ∧
                 t' = clear_failure sha256_hexdigest url t1
  else t' = t.
(** How the last reply, to attempt [attempt] counted from zero, settles the call: the tables after
    it and its result. *)
Definition settles (attempt : Z) (last : transport_error + response) (t t' : tables) (r : string + http_exn) : Prop :=
  match transient last, last with
  | Some (kind, detail, status), _ =>
      max_retries (retry_policy self) <= attempt ∧ (∃ reason, r = inr (RetryExhausted url reason status)) ∧ noted t t' kind detail status false
  | None, inr resp =>
      if status_code resp =? 200 then
        if too_large (content resp)
        then (∃ reason, r = inr (ResponseTooLargeError url reason (Some 200))) ∧ ∃ detail, noted t t' "size_exceeded" detail (Some 200) true
        else r = inl (content resp) ∧ kept t t' (content resp)
      else (∃ reason, r = inr (PermanentHttpError url reason (Some (status_code resp)))) ∧
           ∃ detail, noted t t' "permanent" detail (Some (status_code resp)) true
  | None, inl _ => False
  end.

(** The runs of the loop: transient replies within the budget, then a reply that settles the call;
    or an error of a header or a delay that cannot be used. *)
Definition settled (remaining : nat) (attempt : Z) (t : tables) (trace : list { o : call_op & answer o }) (w' : world) (r : string + http_exn) : Prop :=
  Forall (eq url) (requested trace) ∧ length (requested trace) = length (replies trace) ∧ (length (replies trace) <= remaining)%nat ∧
  ((∃ e, r = inr (Raised e)) ∨
   ∃ before last, replies trace = before ++ [last] ∧ Forall (λ x, is_Some (transient x)) before ∧
     settles (attempt + Z.of_nat (length before)) last t (w_tables w') r).

Lemma wp_ledger kind detail status permanent e w (Q : _ → _ → string + http_exn → Prop) :
  (∀ trace w', requested trace = [] → replies trace = [] → noted (w_tables w) (w_tables w') kind detail status permanent → Q trace w' (inr e)) →
  wp (ledger self url kind detail status permanent ≫= λ _, Raise e) w Q.
Proof using Type.
  intros HQ. unfold ledger, noted in *. destruct (_cache self); [|by apply HQ].
  cbn [mbind io_bind call Transport.wp]. intros i w1 x Hh. destruct i; try done. cbn [handle] in Hh. injection Hh as <- <-. apply HQ; [done..|]. by eexists.
Qed.

Lemma wp_again attempt ra next kind detail status reason w (Q : _ → _ → string + http_exn → Prop) :
  (attempt < max_retries (retry_policy self) → ∀ trace w', quiet trace → same_store w w' → wp next w' (λ trace', Q (trace ++ trace'))) →
  (∀ trace w' e, quiet trace → same_store w w' → Q trace w' (inr (Raised e))) →
  (max_retries (retry_policy self) <= attempt → ∀ trace w', requested trace = [] → replies trace = [] →
     noted (w_tables w) (w_tables w') kind detail status false → Q trace w' (inr (RetryExhausted url reason status))) →
  wp (again self url attempt ra next kind detail status (RetryExhausted url reason status)) w Q.
Proof using Type.
  intros Hnext Hraise Hend. unfold again. destruct (Z.ltb_spec attempt (max_retries (retry_policy self))) as [Hlt|Hge].
  - apply wp_calm_bind; [apply pause_calm|done|]. intros trace w' [] Hq Hs. by apply Hnext.
  - apply wp_ledger. by apply Hend.
Qed.

Lemma classify_200 status : classify status = ok_ → (status =? 200) = true.
Proof using Type. unfold classify. repeat (destruct (_ =? _)); try done; cbn [orb]. by destruct (_ && _). Qed.
Definition silent (trace : list { o : call_op & answer o }) : Prop := requested trace = [] ∧ replies trace = [].

Lemma silent_app a b : silent a → silent b → silent (a ++ b).
Proof using Type. intros [E F] [E' F']. unfold silent. by rewrite requested_app, replies_app, E, F, E', F'. Qed.
Lemma quiet_silent trace : quiet trace → silent trace.
Proof using Type. apply quiet_trace. Qed.
#[local] Hint Resolve silent_app quiet_silent : core.

Lemma settled_end remaining attempt t t0 t1 x w' r :
  silent t0 → silent t1 → (∃ e, r = inr (Raised e)) ∨ settles attempt x t (w_tables w') r →
  settled (S remaining) attempt t (t0 ++ existT (Get url) x :: t1) w' r.
Proof using Type.
  intros [E0 F0] [E1 F1] Hr. unfold settled. rewrite requested_app, replies_app. cbn [requested replies]. rewrite E0, E1, F0, F1. cbn.
  split; [by repeat constructor|]. split; [done|]. split; [lia|]. destruct Hr as [Hr|Hr]; [by left|right]. exists [], x. by rewrite Z.add_0_r.
Qed.
Lemma settled_next remaining attempt t t0 t1 trace x w' r :
  silent t0 → silent t1 → is_Some (transient x) → settled remaining (attempt + 1) t trace w' r →
  settled (S remaining) attempt t (t0 ++ existT (Get url) x :: t1 ++ trace) w' r.
Proof using Type.
  intros [E0 F0] [E1 F1] Hx (Hu & Hl & Hb & Hr). unfold settled. rewrite requested_app, replies_app. cbn [requested replies].
  rewrite requested_app, replies_app, E0, E1, F0, F1. cbn.
  split; [by constructor|]. split; [lia|]. split; [lia|]. destruct Hr as [Hr|(before & last & -> & Hf & Hs)]; [by left|right].
  exists (x :: before), last. split; [done|]. split; [by constructor|].
  by replace (attempt + Z.of_nat (length (x :: before))) with (attempt + 1 + Z.of_nat (length before)) by (cbn; lia).
Qed.

Lemma wp_on_success body w (Q : _ → _ → string + http_exn → Prop) :
  (∀ trace w' r, silent trace →
     (∃ e, r = inr (Raised e)) ∨
     (if too_large body
      then (∃ reason, r = inr (ResponseTooLargeError url reason (Some 200))) ∧ ∃ detail, noted (w_tables w) (w_tables w') "size_exceeded" detail (Some 200) true
      else r = inl body ∧ kept (w_tables w) (w_tables w') body) → Q trace w' r) →
  wp (on_success sha256_hexdigest self url content_kind mutable body) w Q.
Proof using Type.
  intros HQ. unfold on_success. fold (too_large body). destruct (too_large body).
  - apply wp_ledger. intros trace w' H1 H2 Hn. apply HQ; [done|]. right. eauto.
  - unfold _cache_put, kept in *. destruct (_cache self); [|apply HQ; [done|by right]].
    cbn [mbind io_bind call Transport.wp]. intros i w1 x Hh. destruct i as [| | | |now| |]; try done. cbn [handle] in Hh.
    destruct (put _ _ _ _ _ _ _ _ _ _ _) as [t1|e] eqn:Hput; injection Hh as <- <-; cbn [lift mbind io_bind Transport.wp].
    + intros i w2 x Hh. destruct i; try done. cbn [handle] in Hh. injection Hh as <- <-. apply HQ; [done|]. right. eauto 10.
    + apply HQ; [done|]. left. by eexists.
Qed.

Lemma settled_raise remaining attempt t trace w' e : silent trace → settled remaining attempt t trace w' (inr (Raised e)).
Proof using Type. intros [E F]. unfold settled. rewrite E, F. split; [done|]. split; [done|]. split; [cbn; lia|]. left. by eexists. Qed.

(** What follows a reply, given that the next iterations settle the call. *)
Section reply.
Context (remaining : nat) (attempt : Z) (t : tables) (t0 : list { o : call_op & answer o }) (next : io string).
Context (Ht0 : silent t0).
Context (Hnext : attempt < max_retries (retry_policy self) → ∀ w, w_tables w = t → wp next w (settled remaining (attempt + 1) t)).
Local Definition after (x : transport_error + response) (t1 trace : list { o : call_op & answer o }) := t0 ++ existT (Get url) x :: t1 ++ trace.

Lemma wp_again_settled x ra kind detail status reason t1 w :
  silent t1 → w_tables w = t → transient x = Some (kind, detail, status) →
  wp (again self url attempt ra next kind detail status (RetryExhausted url reason status)) w (λ trace, settled (S remaining) attempt t (after x t1 trace)).
Proof using Ht0 Hnext.
  intros Ht1 Hw Hx. apply wp_again.
  - intros Hlt t2 w2 Hq Hs. eapply wp_mono; [|apply (Hnext Hlt); rewrite (same_tables _ _ Hs); done].
    intros trace w' r Hr. unfold after. rewrite app_assoc. apply settled_next; [done|auto|by rewrite Hx|done].
  - intros t2 w2 e Hq Hs. apply settled_end; [done|auto|left; by eexists].
  - intros Hge t2 w2 E F Hn. apply settled_end; [done|by apply silent_app|right].
    unfold settles. rewrite Hx. rewrite Hw in Hn. split; [done|]. split; [by eexists|done].
Qed.
Lemma wp_calm_after {A} (p : io A) f x t1 w :
  calm p → silent t1 → w_tables w = t →
  (∀ t2 w' a, silent t2 → w_tables w' = t → wp (f a) w' (λ trace, settled (S remaining) attempt t (after x t2 trace))) →
  wp (p ≫= f) w (λ trace, settled (S remaining) attempt t (after x t1 trace)).
Proof using Ht0.
  intros Hp Ht1 Hw Hf. apply wp_calm_bind; [done| |].
  - intros t2 w2 e Hq Hs. apply settled_end; [done|auto|left; by eexists].
  - intros t2 w2 a Hq Hs. eapply wp_mono; [|apply (Hf (t1 ++ t2) w2 a); [auto|rewrite (same_tables _ _ Hs); done]].
    intros trace w' r. unfold after. by rewrite <- app_assoc.
Qed.

Lemma wp_response resp t1 w :
  silent t1 → w_tables w = t →
  wp (on_response sha256_hexdigest py_float self url content_kind mutable attempt resp next) w
    (λ trace, settled (S remaining) attempt t (after (inr resp) t1 trace)).
Proof using Ht0 Hnext.
  intros Ht1 Hw. unfold on_response. destruct (classify (status_code resp)) eqn:Hc.
  - apply wp_on_success. intros trace w' r Ht Hr. apply settled_end; [done|auto|]. destruct Hr as [Hr|Hr]; [by left|right].
    rewrite Hw in Hr. unfold settles, transient. rewrite Hc. by rewrite (classify_200 _ Hc).
  - apply wp_calm_after; [auto with calm|done..|]. intros t2 w2 ra Ht2 Hw2.
    apply wp_calm_after; [auto with calm|done..|]. intros t3 w3 [] Ht3 Hw3.
    apply wp_calm_after; [auto with calm|done..|]. intros t4 w4 [] Ht4 Hw4.
    apply wp_again_settled; [done..|]. unfold transient. by rewrite Hc.
  - apply wp_calm_after; [auto with calm|done..|]. intros t2 w2 [] Ht2 Hw2.
    apply wp_again_settled; [done..|]. unfold transient. by rewrite Hc.
  - apply wp_ledger. intros trace w' H1 H2 Hn'. apply settled_end; [done|by apply silent_app|right].
    rewrite Hw in Hn'. unfold settles, transient. rewrite Hc.
    destruct (Z.eqb_spec (status_code resp) 200) as [E|_]; [by rewrite E in Hc|]. eauto.
Qed.
End reply.

Lemma wp_get (f : transport_error + response → io string) w Q :
  (∀ x w1, w_tables w1 = w_tables w → wp (f x) w1 (λ trace, Q (existT (Get url) x :: trace))) → wp (call (Get url) ≫= f) w Q.
Proof using Type.
  intros Hf i w1 x Hh. destruct i; try done. cbn [handle] in Hh. destruct (_ <=? _)%nat; [|done]. injection Hh as <- <-. by apply Hf.
Qed.
Lemma wp_attempts remaining attempt w :
  Z.of_nat remaining = max_retries (retry_policy self) + 1 - attempt → attempt <= max_retries (retry_policy self) →
  wp (attempts sha256_hexdigest py_float self url content_kind mutable remaining attempt) w (settled remaining attempt (w_tables w)).
Proof using Type.
  revert attempt w. induction remaining as [|remaining IH]; intros attempt w Hn Ha; [lia|]. cbn [attempts].
  apply wp_calm_bind; [auto with calm|intros; apply settled_raise; auto|]. intros t1 w1 [] Q1 S1.
  apply wp_calm_bind; [auto with calm|intros; apply settled_raise; auto|]. intros t2 w2 started Q2 S2.
  apply wp_calm_bind; [auto with calm|intros; apply settled_raise; auto|]. intros t3 w3 [] Q3 S3.
  assert (w_tables w3 = w_tables w) as Ew by (rewrite (same_tables _ _ S3), (same_tables _ _ S2); apply S1).
  assert (attempt < max_retries (retry_policy self) → ∀ w', w_tables w' = w_tables w →
    wp (attempts sha256_hexdigest py_float self url content_kind mutable remaining (attempt + 1)) w' (settled remaining (attempt + 1) (w_tables w))) as Hnext.
  { intros Hlt w' <-. apply IH; lia. }
  apply wp_get. intros x w4 Ew4. rewrite <- Ew4 in Ew.
  apply (wp_mono _ _ _ _ _ _ (λ trace, settled (S remaining) attempt (w_tables w) (after (t1 ++ t2 ++ t3) x [] trace)));
    [intros trace w' r; unfold after; by rewrite <- !app_assoc|].
  assert (silent (t1 ++ t2 ++ t3)) as Ht0 by auto 10. assert (silent []) as Hnil by done.
  destruct x as [[exc|exc]|resp].
  - apply wp_calm_after; [done|auto with calm|done..|]. intros t5 w5 [] Ht5 Hw5.
    apply wp_calm_after; [done|auto with calm|done..|]. intros t6 w6 [] Ht6 Hw6. by apply wp_again_settled.
  - apply wp_calm_after; [done|auto with calm|done..|]. intros t5 w5 [] Ht5 Hw5.
    apply wp_calm_after; [done|auto with calm|done..|]. intros t6 w6 [] Ht6 Hw6. by apply wp_again_settled.
  - apply wp_calm_after; [done|auto with calm|done..|]. intros t5 w5 now Ht5 Hw5.
    apply wp_calm_after; [done|auto with calm|done..|]. intros t6 w6 [] Ht6 Hw6. by apply wp_response.
Qed.

(** *** The whole call *)

(** The ledger entry that keeps the URL from being requested. *)
Definition blocked (t : tables) : option http_exn :=
  if ignore_failure_history self || negb (_cache self) then None
  else e ← load_failure_entry sha256_hexdigest url t; reason ← skip_reason self e; Some (PermanentHttpError url reason (f_last_status e)).
Definition from_cache (t : tables) (payload : string) : Prop :=
  _cache self = true ∧ ∃ now, get sha256_hexdigest decompress_payload url now t = Ok (Some payload).

Definition answered (force_refresh : bool) (w : world) (trace : list { o : call_op & answer o }) (w' : world) (r : string + http_exn) : Prop :=
  (requested trace = [] ∧ w_tables w' = w_tables w ∧
   ((∃ payload, force_refresh = false ∧ from_cache (w_tables w) payload ∧ r = inl payload) ∨
    (∃ e, blocked (w_tables w) = Some e ∧ r = inr e) ∨ ∃ e, r = inr (Raised e))) ∨
  blocked (w_tables w) = None ∧ settled (Z.to_nat (max_retries (retry_policy self) + 1)) 0 (w_tables w) trace w' r.

Lemma wp_cache_get w (Q : _ → _ → option string + http_exn → Prop) :
  (∀ trace, silent trace → ∀ payload, from_cache (w_tables w) payload → Q trace w (inl (Some payload))) →
  (∀ trace, silent trace → Q trace w (inl None)) →
  (∀ trace e, silent trace → Q trace w (inr (Raised e))) →
  wp (_cache_get self url) w Q.
Proof using Type.
  intros H1 H2 H3. unfold _cache_get, from_cache in *. destruct (_cache self); [|by apply H2].
  intros i w1 x Hh. destruct i as [| | | |now| |]; try done. cbn [handle] in Hh. injection Hh as <- <-.
  destruct (get _ _ _ _ _) as [[payload|]|e] eqn:Hg; cbn [lift Transport.wp mbind io_bind]; [|by apply H2|by apply H3].
  apply H1; [done|]. split; [done|]. by exists now.
Qed.
Lemma wp_preflight w (Q : _ → _ → option http_exn + http_exn → Prop) :
  (∀ trace, silent trace → Q trace w (inl (blocked (w_tables w)))) → wp (_preflight_skip self url) w Q.
Proof using Type.
  intros HQ. unfold _preflight_skip, blocked in *. destruct (_ || _); [by apply HQ|].
  intros i w1 x Hh. destruct i; try done. cbn [handle] in Hh. injection Hh as <- <-. by apply HQ.
Qed.

Lemma settled_app remaining attempt t t0 trace w' r :
  silent t0 → settled remaining attempt t trace w' r → settled remaining attempt t (t0 ++ trace) w' r.
Proof using Type. intros [E F]. unfold settled. by rewrite requested_app, replies_app, E, F. Qed.

Lemma wp_get_bytes force_refresh w :
  0 <= max_retries (retry_policy self) →
  wp (get_bytes sha256_hexdigest py_float self url content_kind mutable force_refresh) w (answered force_refresh w).
Proof using Type.
  intros Hmax. unfold get_bytes.
  assert (∀ t0, silent t0 → wp (skip ← _preflight_skip self url;
      match skip with
      | Some e => _ ← measure_ (Failure "ledger_skip" (str_of_exn e)); Raise e
      | None => attempts sha256_hexdigest py_float self url content_kind mutable (Z.to_nat (max_retries (retry_policy self) + 1)) 0
      end) w (λ trace, answered force_refresh w (t0 ++ trace))) as Hfetch.
  { intros t0 Ht0. apply wp_bind, wp_preflight. intros t1 Ht1. destruct (blocked (w_tables w)) as [e|] eqn:Hb.
    - apply wp_calm_bind; [auto with calm|..].
      + intros t2 w2 e' Hq Hs. left. split; [by destruct (silent_app _ _ Ht0 (silent_app _ _ Ht1 (quiet_silent _ Hq)))|]. split; [apply Hs|].
        right. right. by eexists.
      + intros t2 w2 [] Hq Hs. left. rewrite app_nil_r. split; [by destruct (silent_app _ _ Ht0 (silent_app _ _ Ht1 (quiet_silent _ Hq)))|].
        split; [apply Hs|]. right. left. by eexists.
    - eapply wp_mono; [|apply wp_attempts; lia]. intros trace w' r Hr. right. split; [done|]. rewrite app_assoc. by apply settled_app; [apply silent_app|]. }
  apply wp_bind. destruct force_refresh; [by apply (Hfetch [])|]. apply wp_cache_get.
  - intros t1 Ht1 payload Hp. apply wp_calm_bind; [auto with calm|..].
    + intros t2 w2 e Hq Hs. left. split; [by destruct (silent_app _ _ Ht1 (quiet_silent _ Hq))|]. split; [apply Hs|]. right. right. by eexists.
    + intros t2 w2 [] Hq Hs. left. rewrite app_nil_r. split; [by destruct (silent_app _ _ Ht1 (quiet_silent _ Hq))|]. split; [apply Hs|].
      left. by eexists.
  - exact Hfetch.
  - intros t1 e [E _]. left. split; [done|]. split; [done|]. right. right. by eexists.
Qed.




End outcomes.


(** ** Documents of archives *)

(** A response for a URL that never expires is served from then on. *)
Lemma kept_then_served sha compress decompress cfg self url kind mutable t t' body :
  (∀ payload, decompress (compress payload) = Some payload) →
  lifetime cfg url mutable = Ok None → _cache self = true →
  kept sha compress cfg self url kind mutable t t' body →
  ∀ now, get sha decompress url now t' = Ok (Some body).
Proof.
  intros Hz Hlife Hc Hk now. unfold kept in Hk. rewrite Hc in Hk. destruct Hk as (at_ & t1 & Hput & ->).
  unfold put in Hput. rewrite expires_lifetime, Hlife in Hput. cbn [mbind result_bind option_map] in Hput. injection Hput as <-.
  unfold get, clear_failure. cbn [url_responses]. rewrite lookup_insert_eq. cbn [r_expires_at r_payload _is_expired]. by rewrite Hz.
Qed.

Lemma wp_cached sha compress decompress cfg py_float self url kind mutable body w :
  _cache self = true → (∀ now, get sha decompress url now (w_tables w) = Ok (Some body)) →
  wp sha compress decompress cfg (get_bytes sha py_float self url kind mutable false) w (λ trace w' r, r = inl body ∧ requested trace = []).
Proof.
  intros Hc Hget. unfold get_bytes, _cache_get. rewrite Hc. apply wp_bind. intros i w1 x Hh. destruct i as [| | | |now| |]; try done.
  cbn [handle] in Hh. injection Hh as <- <-. rewrite Hget. cbn [lift Transport.wp mbind io_bind]. intros i w1 x Hh. by destruct i.
Qed.

(** [make_cache_store] of cache.py: the settings of a client's store. *)
Definition make_cache_store (ttl : Z) (raw : string → Z) : store_settings := mkStore ttl None None raw.

(** *** What other threads leave in the cache *)

Section leaving.
Context (sha : string → string) (compress : string → string) (decompress : string → option string) (cfg : store_settings).
Context (url body : string).
Context (no_collision : ∀ u, _url_sha256 sha u = _url_sha256 sha url → u = url).

(** Calls that neither request the URL nor put a response for it, and what they are answered while
    the cache holds its body. *)
Definition spares (o : call_op) : Prop :=
  match o with Get u | Open u | CachePut u _ _ _ _ => u ≠ url | _ => True end.
Definition hit (o : call_op) : answer o → Prop :=
  match o return answer o → Prop with CacheGet u => λ x, u = url → x = Ok (Some body) | _ => λ _, True end.
(** A program that only makes such calls as long as the cache holds the body. *)
Fixpoint leaves {A} (p : io A) : Prop :=
  match p with Ret _ | Raise _ => True | Next o k => spares o ∧ ∀ x, hit o x → leaves (k x) end.
Definition holds (w : world) : Prop := ∀ now, get sha decompress url now (w_tables w) = Ok (Some body).

Lemma handle_spares o i w w' x :
  handle sha compress decompress cfg o i w = Some (w', x) → spares o → holds w →
  holds w' ∧ hit o x ∧ ∃ sent, w_sent w' = w_sent w ++ sent ∧ url ∉ sent.*2.
Proof using no_collision.
  intros Hh Ho Hw. assert (Hsame : ∀ w1, w_tables w1 = w_tables w → w_sent w1 = w_sent w →
    holds w1 ∧ ∃ sent, w_sent w1 = w_sent w ++ sent ∧ url ∉ sent.*2).
  { intros w1 Et Es. split; [intros now; by rewrite Et|]. exists []. rewrite app_nil_r. split; [done|apply not_elem_of_nil]. }
  assert (Hledger : ∀ w1, url_responses (w_tables w1) = url_responses (w_tables w) → w_sent w1 = w_sent w →
    holds w1 ∧ ∃ sent, w_sent w1 = w_sent w ++ sent ∧ url ∉ sent.*2).
  { intros w1 Et Es. split; [intros now; specialize (Hw now); unfold get in *; by rewrite Et|]. exists []. rewrite app_nil_r. split; [done|apply not_elem_of_nil]. }
  destruct o; destruct i; try done; cbn [handle] in Hh; cbn [spares] in Ho;
    try (destruct (clock_reading _ _); [|done]); try (destruct (acquire _ _)); try (destruct (_ <=? _); [|done]);
    try (destruct (w_files w !! _); [|try done]); try done;
    try (injection Hh as <- <-; destruct (Hsame _ eq_refl eq_refl); done);
    try (injection Hh as <- <-; edestruct Hledger as [? ?]; [reflexivity|reflexivity|done]).
  - destruct (_ <=? _)%nat; [|done]. injection Hh as <- <-. split; [exact Hw|]. split; [done|]. eexists. split; [reflexivity|]. by apply not_elem_of_cons; split; [|apply not_elem_of_nil].
  - injection Hh as <- <-. split; [exact Hw|]. split; [done|]. eexists. split; [reflexivity|]. by apply not_elem_of_cons; split; [|apply not_elem_of_nil].
  - injection Hh as <- <-. destruct (Hsame _ eq_refl eq_refl) as [? ?]. split; [done|]. split; [|done]. intros ->. apply Hw.
  - destruct (put _ _ _ _ _ _ _ _ _ _ _) as [t|e] eqn:Hput; injection Hh as <- <-.
    + split; [|split; [done|exists []; rewrite app_nil_r; split; [done|apply not_elem_of_nil]]]. intros now. cbn [with_tables w_tables].
      erewrite (put_other sha compress decompress); [apply Hw|exact Hput|]. intros E. by apply Ho, no_collision.
    + destruct (Hsame _ eq_refl eq_refl); done.
Qed.

Lemma leaves_bind {A B} (p : io A) (f : A → io B) : leaves p → (∀ a, leaves (f a)) → leaves (p ≫= f).
Proof using Type. intros Hp Hf. induction p as [a|e|o k IH]; cbn [leaves mbind io_bind] in *; [auto..|]. destruct Hp as [Ho Hk]. auto. Qed.
Lemma leaves_calm {A} (p : io A) : calm p → leaves p.
Proof using Type. induction p as [a|e|o k IH]; cbn [calm leaves]; [done..|]. intros [Ho Hk]. split; [by destruct o|auto]. Qed.

Lemma execute_leaves schedule w threads w' threads' :
  execute sha compress decompress cfg schedule (w, threads) = Some (w', threads') → Forall leaves threads → holds w →
  holds w' ∧ ∃ sent, w_sent w' = w_sent w ++ sent ∧ url ∉ sent.*2.
Proof using no_collision.
  revert w threads. induction schedule as [|[n i] schedule IH]; intros w threads; cbn [execute].
  { intros [= <- _] _ Hw. split; [done|]. exists []. rewrite app_nil_r. split; [done|apply not_elem_of_nil]. }
  intros (st & Hs & He)%bind_Some Hth Hw. unfold step in Hs. cbn [fst snd] in Hs.
  destruct (threads !! n) as [[a|e|o k]|] eqn:Hn; try done. apply bind_Some in Hs as ([w1 x] & Hh & [= <-]).
  destruct (Forall_lookup_1 _ _ _ _ Hth Hn) as [Ho Hk]. destruct (handle_spares o i w w1 x Hh Ho Hw) as (Hw1 & Hx & sent & Es & Hn1).
  destruct (IH w1 _ He) as (Hw' & sent' & Es' & Hn'); [by apply Forall_insert; [|apply Hk]|done|].
  split; [done|]. exists (sent ++ sent'). rewrite Es', Es, app_assoc. split; [done|]. rewrite fmap_app. by apply not_elem_of_app.
Qed.

Lemma fetch_leaves py_float self u kind mutable force :
  (u = url → force = false ∧ _cache self = true) → leaves (get_bytes sha py_float self u kind mutable force).
Proof using Type.
  intros Hu. unfold get_bytes. destruct (decide (u = url)) as [->|Hne].
  { destruct (Hu eq_refl) as [-> Hc]. unfold _cache_get. rewrite Hc. cbn [mbind io_bind call leaves]. split; [done|].
    intros x Hx. cbn [hit] in Hx. rewrite (Hx eq_refl). cbn [lift mbind io_bind leaves measure_ call]. split; [done|]. by intros []. }
  assert (Hledger : ∀ kind detail status permanent, leaves (ledger self u kind detail status permanent))
    by (intros; unfold ledger; by destruct (_cache self)).
  assert (Hagain : ∀ attempt ra next kind detail status e, leaves next → leaves (again self u attempt ra next kind detail status e)).
  { intros. unfold again. destruct (_ <? _); (apply leaves_bind; [|done]); [apply leaves_calm, pause_calm|apply Hledger]. }
  assert (Hpre : leaves (_preflight_skip self u)) by (unfold _preflight_skip; by destruct (_ || _)).
  assert (Hattempts : ∀ n attempt, leaves (attempts sha py_float self u kind mutable n attempt)).
  { induction n as [|n IH]; intros attempt; cbn [attempts]; [done|]. apply leaves_bind; [apply leaves_calm, paced_calm|]. intros [].
    split; [done|]. intros started _. split; [done|]. intros [] _. split; [done|]. intros [[exc|exc]|r] _.
    - split; [done|]. intros [] _. split; [done|]. intros [] _. by apply Hagain.
    - split; [done|]. intros [] _. split; [done|]. intros [] _. by apply Hagain.
    - split; [done|]. intros now _. split; [done|]. intros [] _. cbn [mbind io_bind]. unfold on_response. destruct (classify _).
      + unfold on_success. destruct (match max_response_bytes self with Some _ => _ | None => _ end); [by apply leaves_bind|].
        unfold _cache_put. destruct (_cache self); [|done]. split; [done|]. intros done_ _. apply leaves_bind; [apply leaves_calm, lift_calm|].
        intros []. done.
      + apply leaves_bind; [apply leaves_calm, lift_calm|]. intros ra. split; [done|]. intros [] _. split; [done|]. intros [] _. by apply Hagain.
      + split; [done|]. intros [] _. by apply Hagain.
      + by apply leaves_bind. }
  apply leaves_bind.
  - destruct force; [done|]. unfold _cache_get. destruct (_cache self); [|done]. split; [done|]. intros x _. apply leaves_calm, lift_calm.
  - intros [payload|]; [by split|]. apply leaves_bind; [done|]. intros [e|]; [by split|apply Hattempts].
Qed.
End leaving.

(** C25: A document of an accession's directory is requested once.  After a call, not for a mutable
    response, that requested it and returned its bytes, any threads may fetch any URLs, with any
    interleaving of their calls, as long as none of them forces a refresh of this document or
    fetches it without the cache: it is not requested, and later calls return the same bytes and
    send nothing, at whatever time.  (Clearing the cache is not among these calls.) *)
Theorem archive_documents_are_fetched_once sha compress decompress ttl raw py_float self cik accession document kind w trace w1 body :
  let cfg := make_cache_store ttl raw in
  let url := archives_url cik (normalized accession) document in
  (∀ payload, decompress (compress payload) = Some payload) →
  (∀ u, _url_sha256 sha u = _url_sha256 sha url → u = url) →
  0 <= max_retries (retry_policy self) → _cache self = true →
  0 <= cik → is_hyphenated_accession accession = true → plain_document document = true →
  evals sha compress decompress cfg (get_bytes sha py_float self url kind false false) w trace w1 (inl body) → requested trace ≠ [] →
  ∀ threads schedule w2 w3 threads', w_tables w2 = w_tables w1 →
  Forall (λ p, ∃ self' u kind' mutable' force', p = (_ ← get_bytes sha py_float self' u kind' mutable' force'; Ret tt) ∧
                 (u = url → force' = false ∧ _cache self' = true)) threads →
  execute sha compress decompress cfg schedule (w2, threads) = Some (w3, threads') →
  (∃ sent, w_sent w3 = w_sent w2 ++ sent ∧ url ∉ sent.*2) ∧
  ∀ kind' mutable' trace' w4 r,
    evals sha compress decompress cfg (get_bytes sha py_float self url kind' mutable' false) w3 trace' w4 r → r = inl body ∧ requested trace' = [].
Proof.
  intros cfg url Hz Hcoll Hmax Hc Hcik Hid Hdoc H1 Hreq threads schedule w2 w3 threads' Ew Hth He.
  assert (lifetime cfg url false = Ok None) as Hlife.
  { destruct (Z.leb_spec ttl 0) as [Hle|Hlt].
    - unfold lifetime. cbn [cfg make_cache_store ttl_s]. by rewrite (proj2 (Z.leb_le _ _) Hle).
    - by apply (archive_lifetime cfg cik accession document false). }
  pose proof (proj1 (wp_evals _ _ _ _ _ _ _) (wp_get_bytes sha compress decompress cfg py_float self url kind false false w Hmax) _ _ _ H1) as A1.
  assert (∀ now, get sha decompress url now (w_tables w1) = Ok (Some body)) as Hget.
  { destruct A1 as [(E & _)|(_ & _ & _ & _ & Hr)]; [done|]. destruct Hr as [[e [=]]|(before & last & _ & _ & Hset)].
    unfold settles in Hset. destruct (transient last) as [[[k d] s]|]; [by destruct Hset as (_ & [? [=]] & _)|].
    destruct last as [|resp]; [done|]. destruct (_ =? 200); [destruct (too_large _ _)|].
    - by destruct Hset as [[? [=]] _].
    - destruct Hset as [[= ->] Hk]. by eapply kept_then_served.
    - by destruct Hset as [[? [=]] _]. }
  rewrite <- Ew in Hget.
  destruct (execute_leaves sha compress decompress cfg url body Hcoll schedule w2 threads w3 threads' He) as [Hget3 Hsent]; [|exact Hget|].
  { eapply Forall_impl; [exact Hth|]. intros p (self' & u & kind' & mutable' & force' & -> & Hu). apply leaves_bind; [by apply fetch_leaves|done]. }
  split; [exact Hsent|]. intros kind' mutable' trace' w4 r H2.
  exact (proj1 (wp_evals _ _ _ _ _ _ _) (wp_cached _ _ _ _ _ _ _ _ _ _ _ Hc Hget3) _ _ _ H2).
Qed.

(** ** Examples *)

Definition demo_client : SecHttpClient := mkClient default_retry_policy true 3 false None.
Definition demo_world : world := mkWorld (seconds 5) demo_limiter new_metrics no_tables ∅ [] [] [].
Definition demo_document : string := archives_url 320193 (normalized "0000320193-23-000106") "aapl.htm".
Definition no_float (s : string) : option float := None.
Definition demo_get (force : bool) : io string := get_bytes id no_float demo_client demo_document "bytes" false force.
Definition demo_play (p : io string) (inputs : list input) (w : world) := play id id Some demo_store p inputs w.
Definition end_world {T A} (o : option (T * world * A)) : world := match o with Some (_, w, _) => w | None => demo_world end.
Definition end_trace {W A} (o : option (list { o : call_op & answer o } * W * A)) := match o with Some (t, _, _) => t | None => [] end.
(** An attempt at a time, up to the reply. *)
Definition attempt_at (t : Z) (r : transport_error + response) : list input :=
  [Tick (seconds t); Tick (seconds t); Silent; Replied [] r; Tick (seconds (t + 1)); Silent].
(** A server error, a pause of half a second, and the document. *)
Definition fetched := demo_play (demo_get false)
  ([Wall 1000; Silent] ++ attempt_at 6 (inr (mkResp 503 "" None)) ++ [Silent; Silent; Drawn (seconds 0); Tick (seconds 7); Tick (seconds 8)] ++
   attempt_at 9 (inr (mkResp 200 "<html>" None)) ++ [Wall 1003; Silent]) demo_world.
(** Two threads after it, one for the same document, and a call after them. *)
Definition later_threads : list (io unit) :=
  [_ ← demo_get false; Ret tt; _ ← get_bytes id no_float demo_client "https://www.sec.gov/b.htm" "bytes" true true; Ret tt].
Definition later_schedule : list (nat * input) :=
  [(0, Wall 2000); (1, Silent); (0, Silent); (1, Tick (seconds 11)); (1, Tick (seconds 11)); (1, Silent);
   (1, Replied [] (inl (Timeout "timed out")))]%nat.
Definition later := execute id id Some demo_store later_schedule (end_world fetched, later_threads).
Definition later_state : world * list (io unit) := default (demo_world, []) later.
Definition fetched_again := demo_play (demo_get false) [Wall 999999999; Silent] later_state.1.

Lemma fetched_ends : fetched = Some (end_trace fetched, end_world fetched, inl "<html>").
Proof. vm_compute. reflexivity. Qed.
Lemma later_runs : match later with Some _ => true | None => false end = true.
Proof. vm_compute. reflexivity. Qed.
Lemma later_eq : later = Some (later_state.1, later_state.2).
Proof. pose proof later_runs as H. unfold later_state. destruct later as [[w threads]|]; [reflexivity|discriminate H]. Qed.
Lemma fetched_again_ends : fetched_again = Some (end_trace fetched_again, end_world fetched_again, inl "<html>").
Proof. vm_compute. reflexivity. Qed.

Lemma archive_documents_are_fetched_once_witness : requested (end_trace fetched_again) = [].
Proof.
  refine (proj2 (proj2 (archive_documents_are_fetched_once id id Some 100 (λ _, 3600) no_float demo_client 320193 "0000320193-23-000106" "aapl.htm" "bytes"
    demo_world (end_trace fetched) (end_world fetched) "<html>" (λ _, eq_refl) (λ u, inj utf8 u _) _ eq_refl _ eq_refl eq_refl _ _
    later_threads later_schedule (end_world fetched) later_state.1 later_state.2 eq_refl _ later_eq)
    "bytes" false (end_trace fetched_again) (end_world fetched_again) (inl "<html>") _)).
  - vm_compute. discriminate || reflexivity.
  - lia.
  - exact (play_evals _ _ _ _ _ _ _ _ _ _ fetched_ends).
  - vm_compute. discriminate.
  - apply Forall_cons. split; [|apply Forall_singleton].
    + exists demo_client, demo_document, "bytes", false, false. split; [reflexivity|]. intros _. split; reflexivity.
    + exists demo_client, "https://www.sec.gov/b.htm", "bytes", true, true. split; [reflexivity|]. intros E. vm_compute in E. discriminate E.
  - exact (play_evals _ _ _ _ _ _ _ _ _ _ fetched_again_ends).
Defined.
