(* ===== verification/Pacing.v ===== *)
(** * Pacing of the requests of many threads: [infra/sec_http]

    Whatever threads run the methods of one client, and however their calls interleave, every
    request is sent in a slot that was reserved for it, and not before it; with the spacing of the
    slots ([RateLimiter]) this bounds how many requests are sent by any time. *)
From stdpp Require Import gmap.
From S2P Require Import Prelude Binary64 Rounding RateLimiter HttpCache Transport.
#[local] Open Scope Z_scope.

(** ** The discipline of a thread *)

(** Nothing reserved; a slot reserved and [d] seconds to wait; waiting since a time; waited. *)
Inductive phase := Idle | Owed (d : float) | Asleep (d since : float) | Ready.
Definition may (ph : phase) (o : call_op) : Prop :=
  match o, ph with
  | Get _, Ready | Open _, Ready => True
  | Get _, Owed d | Open _, Owed d => flt (float_of_Z 0) d = false
  | Get _, _ | Open _, _ => False
  | Wake since s, Asleep d since' => since = since' ∧ s = d
  | _, _ => True
  end.
Definition next_phase (ph : phase) (o : call_op) : answer o → phase :=
  match o with
  | Acquire_ => λ d, Owed d
  | Doze => λ since, match ph with Owed d => Asleep d since | _ => ph end
  | Wake _ _ => λ _, match ph with Asleep _ _ => Ready | _ => ph end
  | Get _ | Open _ => λ _, Idle
  | _ => λ _, ph
  end.
(** A program sends only in a slot it has waited for, and ends in a phase of which [Q] holds. *)
Fixpoint disciplined {A} (ph : phase) (p : io A) (Q : phase → Prop) : Prop :=
  match p with
  | Ret _ => Q ph
  | Raise _ => True
  | Next o k => may ph o ∧ ∀ x, disciplined (next_phase ph o x) (k x) Q
  end.
Lemma disciplined_mono {A} ph (p : io A) (Q Q' : phase → Prop) : (∀ ph, Q ph → Q' ph) → disciplined ph p Q → disciplined ph p Q'.
Proof. intros HQ. revert ph. induction p as [a|e|o k IH]; intros ph; cbn [disciplined]; [auto..|]. intros [Ho Hk]. auto. Qed.
Lemma disciplined_bind {A B} ph (p : io A) (f : A → io B) Q R :
  disciplined ph p Q → (∀ a ph, Q ph → disciplined ph (f a) R) → disciplined ph (p ≫= f) R.
Proof.
  intros Hp Hf. revert ph Hp. induction p as [a|e|o k IH]; intros ph; cbn [disciplined mbind io_bind]; [auto..|]. intros [Ho Hk]. auto.
Qed.

(** A program that neither reserves nor sends keeps a thread idle. *)
Fixpoint tame {A} (p : io A) : Prop :=
  match p with
  | Ret _ | Raise _ => True
  | Next o k => match o with Acquire_ | Get _ | Open _ => False | _ => True end ∧ ∀ x, tame (k x)
  end.
Lemma tame_bind {A B} (p : io A) (f : A → io B) : tame p → (∀ a, tame (f a)) → tame (p ≫= f).
Proof. intros Hp Hf. induction p as [a|e|o k IH]; cbn [tame mbind io_bind] in *; [auto..|]. destruct Hp as [Ho Hk]. auto. Qed.
Lemma tame_idle {A} (p : io A) : tame p → disciplined Idle p (eq Idle).
Proof.
  induction p as [a|e|o k IH]; cbn [tame disciplined]; [done..|]. intros [Ho Hk]. split; [by destruct o|]. intros x.
  replace (next_phase Idle o x) with Idle by (by destruct o). auto.
Qed.
Lemma tame_sleep s : tame (sleep s).
Proof. unfold sleep. destruct (_ || _); [done|]. destruct (infinite s); [done|]. by cbn. Qed.
Lemma tame_lift {A} (r : result A) : tame (lift r).
Proof. by destruct r. Qed.
Lemma tame_call o : match o with Acquire_ | Get _ | Open _ => False | _ => True end → tame (call o).
Proof. done. Qed.
Create HintDb tame.
#[export] Hint Resolve tame_sleep tame_lift tame_call : tame.

(** Ready to send: waited, or nothing to wait for. *)
Definition sendable (ph : phase) : Prop := ph = Ready ∨ ∃ d, ph = Owed d ∧ flt (float_of_Z 0) d = false.
Lemma disciplined_sleep d : disciplined (Owed d) (sleep d) (eq Ready).
Proof. unfold sleep. destruct (_ || _); [done|]. destruct (infinite d); [done|]. by cbn. Qed.

(** ** Reservations *)

(** The times at which slots were reserved, and the slots. *)
Fixpoint reservations (l : RateLimiter) (calls : list (float * RateLimiter.call)) : list (float * float) :=
  match calls with
  | [] => []
  | c :: calls =>
      match c.2 with Acquire => [(c.1, slot c.1 l)] | _ => [] end ++ reservations (call_at l c).1 calls
  end.
Lemma reservations_slots l calls : (RateLimiter.run l calls).2 = snd <$> reservations l calls.
Proof.
  revert l. induction calls as [|[t c] calls IH]; intros l; [done|]. cbn [RateLimiter.run reservations fst snd].
  destruct c; cbn [call_at fst snd]; rewrite fmap_app, <- IH; by destruct (RateLimiter.run _ calls).
Qed.
Lemma run_snoc l calls c : (RateLimiter.run l (calls ++ [c])).1 = (call_at (RateLimiter.run l calls).1 c).1.
Proof.
  revert l. induction calls as [|[t c'] calls IH]; intros l; cbn [app RateLimiter.run fst].
  - by destruct (call_at l c) as [l' s].
  - specialize (IH (call_at l (t, c')).1). destruct (call_at l (t, c')) as [l' s]. cbn [fst] in IH.
    destruct (RateLimiter.run l' (calls ++ [c])), (RateLimiter.run l' calls). exact IH.
Qed.
Lemma reservations_snoc l calls c :
  reservations l (calls ++ [c]) =
    reservations l calls ++ match c.2 with Acquire => [(c.1, slot c.1 (RateLimiter.run l calls).1)] | _ => [] end.
Proof.
  revert l. induction calls as [|[t c'] calls IH]; intros l; cbn [app reservations RateLimiter.run].
  - by rewrite app_nil_r.
  - rewrite IH, <- app_assoc. do 3 f_equal. destruct (call_at l (t, c')) as [l' s]. cbn [fst]. by destruct (RateLimiter.run l' calls).
Qed.

(** ** The invariant of an execution *)

Definition finite_time (t : float) : Prop := nonneg t ∧ infinite t = false.
(** A slot not before the time it was reserved at, and at most twice as late: their difference is
    then computed exactly. *)
Definition regular (r : float * float) : Prop := nonneg r.1 ∧ finite_time r.2 ∧ val r.1 <= val r.2 <= 2 * val r.1.
(** The slot a thread holds, and what its phase says of it at a time. *)
Definition holding (ph : phase) (r : float * float) (clock : float) : Prop :=
  match ph with
  | Idle => True
  | Owed d => d = fmax (float_of_Z 0) (fsub r.2 r.1) ∧ val r.1 <= val clock
  | Asleep d since => d = fmax (float_of_Z 0) (fsub r.2 r.1) ∧ val r.1 <= val since
  | Ready => regular r → val r.2 <= val clock
  end.
Definition held (g : phase * (float * float)) : list (float * float) := match g.1 with Idle => [] | _ => [g.2] end.

Lemma delay_value r : regular r → val (fmax (float_of_Z 0) (fsub r.2 r.1)) = val r.2 - val r.1 ∧ number (fmax (float_of_Z 0) (fsub r.2 r.1)).
Proof.
  intros (H1 & [H2 Hf] & Hb). destruct (fsub_exact r.2 r.1 H2 H1 Hf Hb) as [Hn Hv].
  assert (number (float_of_Z 0)) as H0 by (split; done).
  destruct (fmax_number (float_of_Z 0) (fsub r.2 r.1) H0 Hn) as [Hm ->]. split; [|done]. rewrite value_0, Hv. lia.
Qed.

(** Times of calls that do not decrease. *)
Fixpoint times_from (t : float) (calls : list (float * RateLimiter.call)) : Prop :=
  match calls with [] => True | c :: calls => val t <= val c.1 ∧ nonneg c.1 ∧ times_from c.1 calls end.
Definition hint_ok (c : float * RateLimiter.call) : Prop := match c.2 with Throttle (Some r) => number r | _ => True end.
Lemma times_clock t calls : times_from t calls → Forall hint_ok calls → clock_from t calls.
Proof. revert t. induction calls as [|c calls IH]; intros t; [done|]. intros (? & ? & ?) [? ?]%Forall_cons. split; [done|]. split; [by split|]. by apply IH. Qed.
Lemma times_snoc t calls c :
  times_from t calls → val t <= val c.1 → Forall (λ c', val c'.1 <= val c.1) calls → nonneg c.1 → times_from t (calls ++ [c]).
Proof.
  revert t. induction calls as [|c' calls IH]; intros t; cbn [app times_from]; [done|]. intros (? & ? & ?) Ht [? ?]%Forall_cons Hc. split; [done|]. split; [done|]. by apply IH.
Qed.

Section invariant.
Context (sha compress : string → string) (decompress : string → option string) (cfg : store_settings).
Context (l0 : RateLimiter) (t0 : float).
Abbreviation handle := (handle sha compress decompress cfg).
Abbreviation step := (step sha compress decompress cfg).
Abbreviation execute := (execute sha compress decompress cfg).

Record clock_ok (w : world) : Prop := {
  clock_nonneg : nonneg (w_clock w);
  clock_start : val t0 <= val (w_clock w);
  clock_times : times_from t0 (w_calls w);
  clock_last : Forall (λ c, val c.1 <= val (w_clock w)) (w_calls w);
  clock_limiter : w_limiter w = (RateLimiter.run l0 (w_calls w)).1;
}.
Record paced (st : world * list (io unit)) (ghosts : list (phase * (float * float))) (used : list (float * float)) : Prop := {
  paced_clock : clock_ok st.1;
  paced_threads : Forall2 (λ g p, disciplined g.1 p (λ _, True)) ghosts st.2;
  paced_holding : Forall (λ g, holding g.1 g.2 (w_clock st.1)) ghosts;
  paced_slots : used ++ (ghosts ≫= held) ⊆+ reservations l0 (w_calls st.1);
  paced_used : Forall2 (λ r s, regular r → val r.2 <= val s.1) used (w_sent st.1);
}.

Lemma reading w t : clock_reading w t = true → nonneg (w_clock w) → nonneg t ∧ val (w_clock w) <= val t.
Proof using Type.
  unfold clock_reading. intros [[Hv Hn]%andb_true_iff Hle%Z.leb_le]%andb_true_iff [_ H0].
  apply negb_true_iff, bool_decide_eq_false in Hn. split; [|done]. split; [by split|lia].
Qed.
Lemma clock_later w t l c :
  clock_ok w → nonneg t → val (w_clock w) <= val t → l = (call_at (w_limiter w) (t, c)).1 → clock_ok (with_limiter l t c w).
Proof using Type.
  intros [H1 H2 H3 H4 H5] Ht Hle ->. assert (Forall (λ c', val c'.1 <= val t) (w_calls w)) as H4' by (eapply Forall_impl; [exact H4|]; cbn; lia).
  split; cbn; [done|lia|apply times_snoc; cbn; (done || lia)|apply Forall_app; split; [done|by repeat constructor]|].
  by rewrite run_snoc, <- H5.
Qed.
Lemma clock_tick w t : clock_ok w → nonneg t → val (w_clock w) <= val t → clock_ok (with_clock t w).
Proof using Type. intros [H1 H2 H3 H4 H5] Ht Hle. split; cbn; [done|lia|done|eapply Forall_impl; [exact H4|cbn; lia]|done]. Qed.

(** What a call does that neither reserves nor sends. *)
Lemma handle_other o i w w' x :
  handle o i w = Some (w', x) → match o with Acquire_ | Get _ | Open _ => False | _ => True end → clock_ok w →
  clock_ok w' ∧ val (w_clock w) <= val (w_clock w') ∧ w_sent w' = w_sent w ∧ reservations l0 (w_calls w') = reservations l0 (w_calls w).
Proof using Type.
  intros Hh Ho Hok. pose proof (clock_nonneg w Hok) as H0.
  assert (∀ l t c, c ≠ Acquire → clock_reading w t = true → l = (call_at (w_limiter w) (t, c)).1 →
    clock_ok (with_limiter l t c w) ∧ val (w_clock w) <= val t ∧ w_sent (with_limiter l t c w) = w_sent w ∧
    reservations l0 (w_calls (with_limiter l t c w)) = reservations l0 (w_calls w)) as Hcall.
  { intros l t c Hc Ht El. destruct (reading w t Ht H0) as [Hn Hle]. split; [by apply clock_later|]. split; [done|]. split; [done|].
    cbn [with_limiter w_calls]. rewrite reservations_snoc. cbn [snd]. destruct c; [done|by rewrite app_nil_r..]. }
  assert (∀ t, clock_reading w t = true → clock_ok (with_clock t w) ∧ val (w_clock w) <= val t ∧
    w_sent (with_clock t w) = w_sent w ∧ reservations l0 (w_calls (with_clock t w)) = reservations l0 (w_calls w)) as Htick.
  { intros t Ht. destruct (reading w t Ht H0) as [Hn Hle]. split; [by apply clock_tick|done]. }
  assert (∀ w1, w_clock w1 = w_clock w → w_calls w1 = w_calls w → w_limiter w1 = w_limiter w → w_sent w1 = w_sent w →
    clock_ok w1 ∧ val (w_clock w) <= val (w_clock w1) ∧ w_sent w1 = w_sent w ∧ reservations l0 (w_calls w1) = reservations l0 (w_calls w)) as Hsame.
  { intros w1 E1 E2 E3 E4. destruct Hok. rewrite E1, E2, E4. split; [|split; [lia|done]]. by split; rewrite ?E1, ?E2, ?E3. }
  destruct o; try done; destruct i; try done; cbn [Transport.handle] in Hh.
  - destruct (clock_reading w t) eqn:Ht; [|done]. injection Hh as <- _. by apply Hcall.
  - destruct (clock_reading w t) eqn:Ht; [|done]. injection Hh as <- _. by apply Hcall.
  - destruct (clock_reading w t) eqn:Ht; [|done]. injection Hh as <- _. by apply Htick.
  - destruct (clock_reading w t) eqn:Ht; [|done]. destruct (_ <=? _); [|done]. injection Hh as <- _. by apply Htick.
  - destruct (clock_reading w t) eqn:Ht; [|done]. injection Hh as <- _. by apply Htick.
  - injection Hh as <- _. by apply Hsame.
  - injection Hh as <- _. by apply Hsame.
  - injection Hh as <- _. by apply Hsame.
  - destruct (put _ _ _ _ _ _ _ _ _ _ _); injection Hh as <- _; by apply Hsame.
  - injection Hh as <- _. by apply Hsame.
  - injection Hh as <- _. by apply Hsame.
  - injection Hh as <- _. by apply Hsame.
  - destruct (w_files w !! path); [done|]. injection Hh as <- _. by apply Hsame.
  - injection Hh as <- _. by apply Hsame.
  - injection Hh as <- _. by apply Hsame.
  - destruct (w_files w !! source); [|done]. injection Hh as <- _. by apply Hsame.
  - injection Hh as <- _. by apply Hsame.
Qed.

Lemma held_update (ghosts : list (phase * (float * float))) n g g' :
  ghosts !! n = Some g → (<[n:=g']> ghosts ≫= held) ++ held g ≡ₚ (ghosts ≫= held) ++ held g'.
Proof using Type.
  intros Hg. pose proof (lookup_lt_Some _ _ _ Hg) as Hn. rewrite insert_take_drop by done. rewrite <- (take_drop_middle ghosts n g Hg) at 3.
  rewrite !bind_app, !bind_cons, <- !app_assoc. apply Permutation_app_head.
  rewrite (Permutation_app_swap_app (held g')), (Permutation_app_swap_app (held g)). apply Permutation_app_head, Permutation_app_comm.
Qed.

(** The phase of a thread after a call that neither reserves nor sends. *)
Lemma other_phase o i w w' x ph r :
  handle o i w = Some (w', x) → match o with Acquire_ | Get _ | Open _ => False | _ => True end →
  clock_ok w → val (w_clock w) <= val (w_clock w') → may ph o → holding ph r (w_clock w) →
  holding (next_phase ph o x) r (w_clock w') ∧ held (next_phase ph o x, r) = held (ph, r).
Proof using Type.
  intros Hh Ho Hok Hle Hmay Hold.
  assert (holding ph r (w_clock w')) as Hkeep by (destruct ph; cbn [holding] in *; [done|destruct Hold; split; [done|lia]|done|intros Hr; specialize (Hold Hr); lia]).
  destruct o; try done; destruct ph as [|d|d began|]; try done; cbn [next_phase holding held fst] in *.
  - split; [|done]. destruct Hold as [-> Hold]. split; [done|]. destruct i; try done. cbn [Transport.handle] in Hh.
    destruct (clock_reading w t) eqn:Ht; [|done]. injection Hh as _ <-. destruct (reading w t Ht (clock_nonneg w Hok)). lia.
  - split; [|done]. destruct Hmay as [-> ->]. destruct Hold as [-> Hold]. intros Hr. destruct (delay_value r Hr) as [Hd _].
    destruct i; try done. cbn [Transport.handle] in Hh. destruct (clock_reading w t); [|done]. destruct (Z.leb_spec (val began + val (fmax (float_of_Z 0) (fsub r.2 r.1))) (val t)); [|done].
    injection Hh as <-. cbn. lia.
Qed.

Lemma paced_other n o i w w' x k threads ghosts used :
  handle o i w = Some (w', x) → match o with Acquire_ | Get _ | Open _ => False | _ => True end →
  threads !! n = Some (Next o k) → paced (w, threads) ghosts used →
  ∃ ghosts', paced (w', <[n:=k x]> threads) ghosts' used.
Proof using Type.
  intros Hh Ho Hn [Hok Hth Hhold Hslots Hused]. cbn [fst snd] in *.
  destruct (handle_other o i w w' x Hh Ho Hok) as (Hok' & Hle & Es & Er).
  destruct (Forall2_lookup_r _ _ _ _ _ Hth Hn) as ([ph r] & Hg & Hmay & Hk). cbn [fst] in *.
  pose proof (Forall_lookup_1 _ _ _ _ Hhold Hg) as Hr. cbn [fst snd] in Hr.
  destruct (other_phase o i w w' x ph r Hh Ho Hok Hle Hmay Hr) as [Hnew Eheld].
  exists (<[n:=(next_phase ph o x, r)]> ghosts). split; cbn [fst snd]; [done| | | |].
  - apply Forall2_insert; [done|]. cbn. apply Hk.
  - apply Forall_insert; [|done]. eapply Forall_impl; [exact Hhold|]. intros [ph' r'] H'. cbn [fst snd] in *.
    destruct ph'; cbn [holding] in *; [done|destruct H'; split; [done|lia]|done|intros Hrr; specialize (H' Hrr); lia].
  - rewrite Er. pose proof (held_update ghosts n (ph, r) (next_phase ph o x, r) Hg) as Hp. rewrite Eheld in Hp.
    apply Permutation_app_inv_r in Hp. by rewrite Hp.
  - by rewrite Es.
Qed.

Lemma paced_acquire n i w w' x k threads ghosts used :
  handle Acquire_ i w = Some (w', x) → threads !! n = Some (Next Acquire_ k) → paced (w, threads) ghosts used →
  ∃ ghosts', paced (w', <[n:=k x]> threads) ghosts' used.
Proof using Type.
  intros Hh Hn [Hok Hth Hhold Hslots Hused]. cbn [fst snd] in *. destruct i; try done. cbn [Transport.handle] in Hh.
  destruct (clock_reading w t) eqn:Ht; [|done]. destruct (reading w t Ht (clock_nonneg w Hok)) as [Htn Hle].
  destruct (Forall2_lookup_r _ _ _ _ _ Hth Hn) as ([ph r] & Hg & Hmay & Hk). cbn [fst] in *.
  assert (w' = with_limiter (acquire t (w_limiter w)).1 t Acquire w ∧ x = (acquire t (w_limiter w)).2) as [-> ->].
  { destruct (acquire t (w_limiter w)). by injection Hh as <- <-. }
  set (rs := (t, slot t (w_limiter w))). exists (<[n:=(Owed (acquire t (w_limiter w)).2, rs)]> ghosts). split; cbn [fst snd].
  - by apply clock_later.
  - apply Forall2_insert; [done|]. cbn [fst]. apply (Hk (acquire t (w_limiter w)).2).
  - apply Forall_insert; [|by split]. eapply Forall_impl; [exact Hhold|]. intros [ph' r'] H'. cbn [fst snd with_limiter w_clock] in *.
    destruct ph'; cbn [holding] in *; [done|destruct H'; split; [done|lia]|done|intros Hrr; specialize (H' Hrr); lia].
  - cbn [with_limiter w_calls]. rewrite reservations_snoc. cbn [fst snd]. rewrite <- (clock_limiter w Hok). fold rs.
    pose proof (held_update ghosts n (ph, r) (Owed (acquire t (w_limiter w)).2, rs) Hg) as Hp. change (held (Owed _, rs)) with [rs] in Hp.
    etrans; [|apply submseteq_app; [exact Hslots|reflexivity]]. rewrite <- app_assoc. apply submseteq_app; [done|]. rewrite <- Hp. by apply submseteq_inserts_r.
  - done.
Qed.

Lemma paced_send n o i w w' x k url threads ghosts used :
  o = Get url ∨ o = Open url → handle o i w = Some (w', x) → threads !! n = Some (Next o k) → paced (w, threads) ghosts used →
  ∃ ghosts' used', paced (w', <[n:=k x]> threads) ghosts' used'.
Proof using Type.
  intros Ho Hh Hn [Hok Hth Hhold Hslots Hused]. cbn [fst snd] in *.
  assert (w_clock w' = w_clock w ∧ w_calls w' = w_calls w ∧ w_limiter w' = w_limiter w ∧ w_sent w' = w_sent w ++ [(w_clock w, url)]) as (E1 & E2 & E3 & E4).
  { destruct Ho as [-> | ->]; destruct i; try done; cbn [Transport.handle] in Hh; [destruct (_ <=? _)%nat; [|done]|]; by injection Hh as <- _. }
  destruct (Forall2_lookup_r _ _ _ _ _ Hth Hn) as ([ph r] & Hg & Hmay & Hk). cbn [fst] in *.
  pose proof (Forall_lookup_1 _ _ _ _ Hhold Hg) as Hr. cbn [fst snd] in Hr.
  assert (held (ph, r) = [r] ∧ (regular r → val r.2 <= val (w_clock w)) ∧ next_phase ph o x = Idle) as (Eheld & Htime & Eph).
  { split; [|split; [|by destruct Ho as [-> | ->]]]; destruct Ho as [-> | ->]; destruct ph as [|d|d since|]; try done; cbn [may holding] in *;
      intros Hreg; destruct Hr as [-> Hle]; destruct (delay_value r Hreg) as [Hd Hnum];
      rewrite flt_value in Hmay by (done || split; done); apply Z.ltb_ge in Hmay; rewrite value_0 in Hmay; lia. }
  exists (<[n:=(Idle, r)]> ghosts), (used ++ [r]). split; cbn [fst snd].
  - destruct Hok. by split; rewrite ?E1, ?E2, ?E3.
  - apply Forall2_insert; [done|]. cbn [fst]. specialize (Hk x). by rewrite Eph in Hk.
  - rewrite E1. apply Forall_insert; [|done]. done.
  - rewrite E2. pose proof (held_update ghosts n (ph, r) (Idle, r) Hg) as Hp. rewrite Eheld in Hp. cbn [held fst] in Hp. rewrite app_nil_r in Hp.
    rewrite <- app_assoc. etrans; [|exact Hslots]. rewrite <- Hp. by rewrite (Permutation_app_comm [r]).
  - rewrite E4. apply Forall2_app; [done|]. by repeat constructor.
Qed.

Lemma step_paced c st st' ghosts used : step c st = Some st' → paced st ghosts used → ∃ ghosts' used', paced st' ghosts' used'.
Proof using Type.
  destruct st as [w threads], c as [n i]. unfold Transport.step. cbn [fst snd]. intros Hs Hp.
  destruct (threads !! n) as [[a|e|o k]|] eqn:Hn; try done. apply bind_Some in Hs as ([w' x] & Hh & [= <-]).
  assert (match o with Acquire_ | Get _ | Open _ => True | _ => match o with Acquire_ | Get _ | Open _ => False | _ => True end end) as Ho by (by destruct o).
  destruct o as [| | | | | | |url|url| | | | | | | | | | |];
    try (destruct (paced_other n _ i w w' x k threads ghosts used Hh I Hn Hp) as [ghosts' ?]; by exists ghosts', used).
  - destruct (paced_acquire n i w w' x k threads ghosts used Hh Hn Hp) as [ghosts' ?]. by exists ghosts', used.
  - eapply (paced_send n (Get url)); [by left|done..].
  - eapply (paced_send n (Open url)); [by right|done..].
Qed.
Lemma execute_paced schedule st st' ghosts used :
  execute schedule st = Some st' → paced st ghosts used → ∃ ghosts' used', paced st' ghosts' used'.
Proof using Type.
  revert st ghosts used. induction schedule as [|c schedule IH]; intros st ghosts used; cbn [Transport.execute]; [intros [= <-]; eauto|].
  intros (st1 & Hs & He)%bind_Some Hp. destruct (step_paced c st st1 ghosts used Hs Hp) as (g' & u' & Hp'). by eapply IH.
Qed.
End invariant.

(** ** How many requests are sent by a time *)

Lemma reservations_ordered l calls t :
  limiter_ok l → clock_from t calls → Forall (λ r, nonneg r.1 ∧ nonneg r.2 ∧ val r.1 <= val r.2) (reservations l calls).
Proof.
  revert l t. induction calls as [|[now c] calls IH]; intros l t Hok; [done|]. cbn [clock_from reservations fst snd]. intros (_ & [Hn Hra] & Hc).
  apply Forall_app. split; [|by apply (IH _ now); [apply call_at_ok|]]. destruct c; [|constructor..]. apply Forall_singleton. cbn [fst snd] in *.
  destruct (slot_ok l Hok now Hn) as [Hs Hv]. split; [done|]. split; [done|lia].
Qed.

Lemma filter_beyond {A} (P : A → Prop) `{∀ x, Decision (P x)} (l : list A) n :
  (n < length (filter P l))%nat → ∃ k x, (n <= k)%nat ∧ l !! k = Some x ∧ P x.
Proof.
  revert n. induction l as [|a l IH]; intros n; [cbn; lia|]. rewrite filter_cons. destruct (decide (P a)) as [Ha|Ha]; cbn [length].
  - destruct n as [|n]; [intros _; by exists 0%nat, a|]. intros Hn. destruct (IH n ltac:(lia)) as (k & x & Hk & Hx & HP). exists (S k), x. split; [lia|done].
  - intros Hn. destruct (IH n Hn) as (k & x & Hk & Hx & HP). exists (S k), x. split; [lia|done].
Qed.
Lemma filter_forall2 {A B} (R : A → B → Prop) (P : A → Prop) (Q : B → Prop) `{∀ x, Decision (P x), ∀ y, Decision (Q y)} l k :
  (∀ x y, R x y → Q y → P x) → Forall2 R l k → (length (filter Q k) <= length (filter P l))%nat.
Proof.
  intros HPQ. induction 1 as [|x y l k Hxy _ IH]; [done|]. rewrite !filter_cons.
  destruct (decide (Q y)), (decide (P x)); cbn [length]; try lia. exfalso. eauto.
Qed.
Lemma after_intervals_le lo n k t : (n <= k)%nat → nonneg lo → nonneg t → val (after_intervals lo n t) <= val (after_intervals lo k t).
Proof.
  intros Hk Hlo Ht. induction Hk as [|k _ IH]; [done|]. etrans; [exact IH|]. unfold after_intervals at 2. cbn [Nat.iter]. apply fadd_above; [by apply after_intervals_nonneg|done].
Qed.

(** The requests the client made by a time, and those the session added to them. *)
Definition sent_by (T : float) (w : world) : list (float * string) := filter (λ s, val s.1 <= val T) (w_sent w).
Definition followed_by (T : float) (w : world) : list (float * string) := filter (λ s, val s.1 <= val T) (w_followed w).

Section bound.
Context (sha compress : string → string) (decompress : string → option string) (cfg : store_settings).

(** Nothing was called yet. *)
Definition fresh (l0 : RateLimiter) (w : world) : Prop :=
  nonneg (w_clock w) ∧ w_limiter w = l0 ∧ w_calls w = [] ∧ w_sent w = [] ∧ w_followed w = [].
Lemma fresh_paced l0 w threads :
  fresh l0 w → Forall (λ p, disciplined Idle p (λ _, True)) threads →
  paced l0 (w_clock w) (w, threads) (replicate (length threads) (Idle, (float_of_Z 0, float_of_Z 0))) [].
Proof using Type.
  intros (Hc & El & Ec & Es & _) Hth. split; cbn [fst snd].
  - split; rewrite ?Ec, ?El; try done.
  - clear -Hth. induction Hth; cbn; by constructor.
  - apply Forall_replicate. done.
  - rewrite Ec. cbn. induction (length threads); done.
  - by rewrite Es.
Qed.

(** The session follows at most thirty redirects of a request. *)
Definition followed_ok (T : float) (w : world) : Prop :=
  (length (followed_by T w) <= DEFAULT_REDIRECT_LIMIT * length (sent_by T w))%nat.
Lemma followed_same T w w' : w_sent w' = w_sent w → w_followed w' = w_followed w → followed_ok T w → followed_ok T w'.
Proof using Type. unfold followed_ok, followed_by, sent_by. by intros -> ->. Qed.
Lemma followed_more T w w' url hops :
  (length hops <= DEFAULT_REDIRECT_LIMIT)%nat → w_sent w' = w_sent w ++ [(w_clock w, url)] →
  w_followed w' = w_followed w ++ ((λ u, (w_clock w, u)) <$> hops) → followed_ok T w → followed_ok T w'.
Proof using Type.
  intros Hh E1 E2. unfold followed_ok, followed_by, sent_by. rewrite E1, E2, !filter_app, !length_app, filter_cons, filter_nil. cbn [fst].
  pose proof (length_filter (λ s : float * string, val s.1 <= val T) ((λ u, (w_clock w, u)) <$> hops)) as Hf. rewrite length_fmap in Hf.
  destruct (decide (val (w_clock w) <= val T)) as [Hle|Hgt]; cbn [length]; [lia|].
  rewrite (list_filter_none _ (_ <$> hops)); [cbn; lia|]. by intros s (u & -> & _)%list_elem_of_fmap.
Qed.
Lemma step_followed c st st' T : step sha compress decompress cfg c st = Some st' → followed_ok T st.1 → followed_ok T st'.1.
Proof using Type.
  destruct st as [w threads], c as [n i]. unfold Transport.step. cbn [fst snd]. intros Hs Hw.
  destruct (threads !! n) as [[a|e|o k]|]; try done. apply bind_Some in Hs as ([w' x] & Hh & [= <-]). cbn [fst].
  destruct o; destruct i; try done; cbn [handle] in Hh;
    try (destruct (clock_reading _ _); [|done]); try (destruct (acquire _ _)); try (destruct (_ <=? _); [|done]);
    try (destruct (put _ _ _ _ _ _ _ _ _ _ _)); try (destruct (w_files w !! _); [|try done]); try done;
    try (injection Hh as <- _; by eapply followed_same).
  - destruct (Nat.leb_spec (length hops) DEFAULT_REDIRECT_LIMIT); [|done]. injection Hh as <- _. by eapply followed_more.
  - injection Hh as <- _. apply (followed_more T w _ url []); [cbn; lia|done|by cbn; rewrite app_nil_r|done].
Qed.
Lemma execute_followed schedule st st' T :
  execute sha compress decompress cfg schedule st = Some st' → followed_ok T st.1 → followed_ok T st'.1.
Proof using Type.
  revert st. induction schedule as [|c schedule IH]; intros st; cbn [Transport.execute]; [by intros [= <-]|].
  intros (st1 & Hs & He)%bind_Some Hw. eapply IH; [done|]. by eapply step_followed.
Qed.

Lemma sends_bounded l0 w0 threads schedule w threads' T :
  limiter_ok l0 → fresh l0 w0 → Forall (λ p, disciplined Idle p (λ _, True)) threads →
  execute sha compress decompress cfg schedule (w0, threads) = Some (w, threads') →
  Forall hint_ok (w_calls w) →
  Forall (λ r, infinite r.2 = false ∧ val r.2 <= 2 * val r.1) (reservations l0 (w_calls w)) →
  nonneg T → sent_by T w ≠ [] →
  fle (after_intervals (_min_interval l0) (length (sent_by T w) - 1) (_next_slot l0)) T = true ∧ followed_ok T w.
Proof using Type.
  intros Hok Hfresh Hth He Hhints Hreg HT Hne. split.
  2:{ apply (execute_followed _ _ _ T He). destruct Hfresh as (_ & _ & _ & _ & Ef). unfold followed_ok, followed_by. cbn [fst]. rewrite Ef. cbn. lia. }
  destruct (execute_paced sha compress decompress cfg l0 (w_clock w0) schedule _ _ _ _ He (fresh_paced l0 w0 threads Hfresh Hth)) as (ghosts & used & Hp).
  destruct Hp as [[Hc0 Hc1 Hct Hcl Hlim] _ _ Hslots Hused]. cbn [fst snd] in *. pose proof (times_clock _ _ Hct Hhints) as Hclock.
  pose proof (reservations_ordered l0 _ _ Hok Hclock) as Hord.
  assert (Forall regular (reservations l0 (w_calls w))) as Hall.
  { apply Forall_forall. intros r Hr. destruct (proj1 (Forall_forall _ _) Hreg r Hr) as [Hi Htwo]. destruct (proj1 (Forall_forall _ _) Hord r Hr) as (? & ? & ?). done. }
  assert (used ⊆+ reservations l0 (w_calls w)) as Hsub by (etrans; [apply submseteq_inserts_r; reflexivity|exact Hslots]).
  set (P := λ r : float * float, val r.2 <= val T). assert (length (sent_by T w) <= length (filter P used))%nat as Hlen.
  { unfold sent_by. eapply (filter_forall2 (λ r s, regular r ∧ val r.2 <= val s.1)); [unfold P; intros r s [_ ?] ?; lia|].
    apply Forall2_same_length_lookup. split; [by eapply Forall2_length|]. intros i r s Hr Hs.
    assert (regular r) as Hrr by (apply (proj1 (Forall_forall _ _) Hall); eapply elem_of_submseteq; [by eapply list_elem_of_lookup_2|done]).
    split; [done|]. by apply (Forall2_lookup_lr _ _ _ _ _ _ Hused Hr Hs). }
  apply submseteq_Permutation in Hsub as [rest Hperm].
  assert (length (filter P used) <= length (filter P (reservations l0 (w_calls w))))%nat as Hlen'.
  { rewrite (filter_Permutation P _ _ Hperm), filter_app, length_app. lia. }
  assert (0 < length (sent_by T w))%nat as Hpos by (destruct (sent_by T w); [done|cbn; lia]).
  destruct (filter_beyond P (reservations l0 (w_calls w)) (length (sent_by T w) - 1) ltac:(lia)) as (k & r & Hk & Hr & HP).
  assert ((RateLimiter.run l0 (w_calls w)).2 !! k = Some r.2) as Hslot by (rewrite reservations_slots, list_lookup_fmap, Hr; done).
  destruct (slots_after_next l0 _ _ k r.2 Hok Hclock Hslot) as [_ Hv]. pose proof (ok_min l0 Hok) as Hmin. pose proof (ok_next l0 Hok) as Hnext.
  rewrite fle_value; [|by apply after_intervals_nonneg|apply HT]. apply Z.leb_le. unfold P in HP.
  pose proof (after_intervals_le (_min_interval l0) _ k (_next_slot l0) Hk Hmin Hnext). lia.
Qed.
End bound.
