(* ===== verification/HttpStream.v ===== *)
(** * Streaming a response to a file: [infra/sec_http/client.py], [streaming.py]

    [SecHttpClient.stream_to_file]: redirects followed one by one after validation, a body bounded
    in size written to a temporary file, and the destination replaced at the end.  [urljoin],
    [float(text)] of a header and the validator of redirects are parameters; errors of the file
    system are left out. *)
From stdpp Require Import gmap.
From S2P Require Import Prelude Numerals Binary64 Rounding RateLimiter SecUrls HttpCache Transport HttpClient Pacing.
#[local] Open Scope Z_scope.

(** ** Results *)

Inductive stream_code := http_not_found | http_error | timeout | transport_failed | response_too_large | unsafe_redirect | empty_body.
Inductive StreamResult :=
  | StreamedResponse (status_code : Z) (requested_url final_url sha256 : string) (byte_size : Z)
      (content_type content_encoding : option string) (path : string)
  | StreamFailure (code : stream_code) (retryable : bool) (http_status : option Z) (detail : string).

(** [try: p finally: fin] *)
Fixpoint finally_ {A} (p : io A) (fin : io unit) : io A :=
  match p with
  | Ret a => _ ← fin; Ret a
  | Raise e => _ ← fin; Raise e
  | Next o k => Next o (λ x, finally_ (k x) fin)
  end.

Section stream.
Context (sha256_hexdigest : string → string) (py_float : string → option float) (urljoin : string → string → string).
Context (self : SecHttpClient) (url target : string) (max_response_bytes : Z).
(** [Some] text of the exception, when the redirect is rejected. *)
Context (validate_redirect : string → option string).

Definition failure (code : stream_code) (detail : string) (retryable : bool) (status : option Z)
    (kind : string) (permanent : bool) (metric_kind : option string) : io StreamResult :=
  _ ← measure_ (Failure (default kind metric_kind) detail);
  _ ← ledger self url kind detail status permanent;
  Ret (StreamFailure code retryable status detail).

(** ** Redirects *)

Inductive hop := Broke (e : transport_error) | Refused (r : StreamResult) | Arrived (send_started : float) (current_url : string) (r : stream_response).
Definition is_redirect (status : Z) : bool := bool_decide (status ∈ [301; 302; 303; 307; 308]).
(** [response.headers.get(name)], when it is not empty *)
Definition header (r : stream_response) (name : string) : option string :=
  match s_headers r name with Some v => if String.eqb v "" then None else Some v | None => None end.
Definition url_or (u : option string) (fallback : string) : string :=
  match u with Some u => if String.eqb u "" then fallback else u | None => fallback end.
Definition refuse (status : Z) (detail : string) : io hop :=
  r ← failure unsafe_redirect detail false (Some status) "unsafe_redirect" true None; Ret (Refused r).

(** The [while] loop; [more] redirects can be followed before the limit. *)
Fixpoint follow (more : nat) (send_started : float) (current_url : string) : io hop :=
  _ ← paced_;
  _ ← measure_ Attempt;
  reply ← call (Open current_url);
  match reply with
  | inl e => Ret (Broke e)
  | inr r =>
      match (if is_redirect (s_status r) then header r "Location" else None) with
      | None => Ret (Arrived send_started current_url r)
      | Some location =>
          now ← call Monotonic;
          _ ← measure_ (Status (s_status r) (fsub now send_started) 0);
          let redirect_url := urljoin (url_or (s_url r) current_url) location in
          match validate_redirect redirect_url with
          | Some exc => refuse (s_status r) ("redirect rejected: " +:+ exc)
          | None =>
              match more with
              | O => refuse (s_status r) "redirect limit exceeded"
              | S more => started ← call Monotonic; follow more started redirect_url
              end
          end
      end
  end.

(** ** The body *)

Record received := mkReceived { byte_size : Z; body : string; too_big : bool; broken : option transport_error }.
(** The chunks as they arrive, written until they exceed the limit or the connection fails. *)
Fixpoint receive (temporary : string) (chunks : list string) (broke : option transport_error) (size : Z) (digested : string) : io received :=
  match chunks with
  | [] => Ret (mkReceived size digested false broke)
  | chunk :: chunks =>
      if String.eqb chunk "" then receive temporary chunks broke size digested
      else let size := size + Z.of_nat (String.length chunk) in
           if max_response_bytes <? size then Ret (mkReceived size digested true None)
           else _ ← call (Append temporary chunk); receive temporary chunks broke size (digested +:+ chunk)
  end.

Definition declared_size (r : stream_response) : Z :=
  match header r "Content-Length" with
  | Some h => match int_of_string h with Ok n => n | Err _ => 0 end
  | None => 0
  end.
Definition stream_retry_after (r : stream_response) : option float :=
  match header r "Retry-After" with Some h => py_float h | None => None end.

(** ** Attempts *)

Section attempt.
Context (attempt : Z).

(** One iteration of the loop; [None] continues it. *)
Definition settle (r : io StreamResult) : io (option StreamResult) := r ← r; Ret (Some r).
Definition again_or (retry_after : option float) (otherwise : io StreamResult) : io (option StreamResult) :=
  if attempt <? max_retries (retry_policy self) then _ ← pause self attempt retry_after; Ret None else settle otherwise.

(** The handlers of [Timeout] and [RequestException]. *)
Definition on_broken (e : transport_error) : io (option StreamResult) :=
  _ ← call SignalNetworkError;
  let detail := match e with Timeout _ => "timeout: " | RequestException _ => "connection_error: " end +:+ url in
  if attempt <? max_retries (retry_policy self)
  then _ ← measure_ (Failure "network" detail); _ ← pause self attempt None; Ret None
  else settle match e with
              | Timeout exc => failure timeout exc true None "timeout" false (Some "network")
              | RequestException exc => failure transport_failed exc true None "network" false (Some "network")
              end.

Definition on_status (send_started : float) (r : stream_response) : io (option StreamResult) :=
  let status := s_status r in
  now ← call Monotonic;
  _ ← measure_ (Status status (fsub now send_started) 0);
  if status =? 404 then settle (failure http_not_found ("HTTP 404: " +:+ url) false (Some 404) "not_found" true None)
  else
    let retry (kind : string) :=
      _ ← measure_ (Failure kind ("HTTP " +:+ str_of_int status +:+ ": " +:+ url));
      again_or (stream_retry_after r)
        (failure http_error ("HTTP " +:+ str_of_int status +:+ ": retry budget exhausted") true (Some status) "retryable_http" false None) in
    match classify status with
    | throttle_ => _ ← call (SignalThrottle (stream_retry_after r)); retry "throttle"
    | retry_ => retry "http_retry"
    | _ => settle (failure http_error ("HTTP " +:+ str_of_int status +:+ ": " +:+ url) false (Some status) "permanent" true None)
    end.

Definition too_large_failure (status : Z) (detail : string) : io (option StreamResult) :=
  settle (failure response_too_large detail false (Some status) "size_exceeded" true None).

(** The temporary file is removed however the body ends, unless it became the destination. *)
Definition on_received (send_started : float) (current_url temporary : string) (r : stream_response) (got : received) : io (option StreamResult) :=
  let status := s_status r in
  now ← call Monotonic;
  _ ← measure_ (Status status (fsub now send_started) (Z.to_nat (byte_size got)));
  if too_big got
  then _ ← call (Unlink temporary);
       too_large_failure status ("response exceeded " +:+ str_of_int max_response_bytes +:+ " bytes")
  else if byte_size got =? 0
  then _ ← call (Unlink temporary);
       settle (failure empty_body "successful response had an empty body" false (Some status) "empty_body" true None)
  else _ ← call (Replace temporary target);
       _ ← (if _cache self then call (ClearFailure url) else Ret tt);
       Ret (Some (StreamedResponse status url (url_or (s_url r) current_url) (sha256_hexdigest (body got)) (byte_size got)
              (s_headers r "Content-Type") (s_headers r "Content-Encoding") target)).
Definition on_body (send_started : float) (current_url : string) (r : stream_response) : io (option StreamResult) :=
  let status := s_status r in
  if max_response_bytes <? declared_size r
  then now ← call Monotonic;
       _ ← measure_ (Status status (fsub now send_started) 0);
       too_large_failure status
         ("declared response size " +:+ str_of_int (declared_size r) +:+ " exceeds " +:+ str_of_int max_response_bytes +:+ " bytes")
  else
    temporary ← call Mkstemp;
    got ← receive temporary (s_chunks r) (s_broken r) 0 "";
    match broken got with
    | Some e => finally_ (on_broken e) (call (Unlink temporary))
    | None => on_received send_started current_url temporary r got
    end.

Definition try_once : io (option StreamResult) :=
  send_started ← call Monotonic;
  arrived ← follow (DEFAULT_REDIRECT_LIMIT - 1) send_started url;
  match arrived with
  | Broke e => on_broken e
  | Refused r => Ret (Some r)
  | Arrived send_started current_url r =>
      if s_status r =? 200 then on_body send_started current_url r else on_status send_started r
  end.
End attempt.

Fixpoint stream_attempts (remaining : nat) (attempt : Z) : io StreamResult :=
  match remaining with
  | O => failure transport_failed "exhausted all retry attempts" true None "network" false None
  | S remaining =>
      r ← try_once attempt;
      match r with Some r => Ret r | None => stream_attempts remaining (attempt + 1) end
  end.

Definition stream_to_file : io StreamResult :=
  if max_response_bytes <=? 0 then Raise (Raised (ValueError "max_response_bytes must be a positive finite integer")) else
  skipped ← _preflight_skip self url;
  match skipped with
  | Some e => Ret (StreamFailure http_error false (match e with PermanentHttpError _ _ s => s | _ => None end) (str_of_exn e))
  | None => stream_attempts (Z.to_nat (max_retries (retry_policy self) + 1)) 0
  end.
End stream.

(** ** Every request has its slot *)

Lemma disciplined_paced ph : disciplined ph paced_ sendable.
Proof.
  unfold paced_. cbn [mbind io_bind call disciplined may next_phase]. split; [by destruct ph|]. intros d.
  destruct (flt _ d) eqn:Hd.
  - eapply disciplined_mono; [|apply disciplined_sleep]. intros ph' <-. by left.
  - cbn. right. by exists d.
Qed.
Lemma sendable_may ph o url : sendable ph → o = Get url ∨ o = Open url → may ph o.
Proof. intros [-> |(d & -> & Hd)] [-> | ->]; done. Qed.
(** A reserved request: the slot, calls that keep the phase, the request, and what follows. *)
Lemma disciplined_attempt {A} ph (f : unit → io A) Q :
  (∀ ph', sendable ph' → disciplined ph' (f tt) Q) → disciplined ph (paced_ ≫= f) Q.
Proof. intros Hf. eapply disciplined_bind; [apply disciplined_paced|]. intros [] ph' Hph. by apply Hf. Qed.
Lemma disciplined_measure {A} ph m (f : unit → io A) Q : (∀ x, disciplined ph (f x) Q) → disciplined ph (measure_ m ≫= f) Q.
Proof. intros Hf. unfold measure_. cbn [mbind io_bind call disciplined may next_phase]. split; [by destruct ph|done]. Qed.
Lemma disciplined_clock {A} ph (f : float → io A) Q : (∀ x, disciplined ph (f x) Q) → disciplined ph (call Monotonic ≫= f) Q.
Proof. intros Hf. cbn [mbind io_bind call disciplined may next_phase]. split; [by destruct ph|done]. Qed.
Lemma disciplined_get {A} ph url (f : transport_error + response → io A) Q :
  sendable ph → (∀ x, disciplined Idle (f x) Q) → disciplined ph (call (Get url) ≫= f) Q.
Proof. intros Hph Hf. cbn [mbind io_bind call disciplined]. split; [eapply sendable_may; [done|by left]|done]. Qed.
Lemma disciplined_open {A} ph url (f : transport_error + stream_response → io A) Q :
  sendable ph → (∀ x, disciplined Idle (f x) Q) → disciplined ph (call (Open url) ≫= f) Q.
Proof. intros Hph Hf. cbn [mbind io_bind call disciplined]. split; [eapply sendable_may; [done|by right]|done]. Qed.

Lemma tame_measure m : tame (measure_ m).
Proof. done. Qed.
Lemma tame_delay policy attempt ra : tame (delay policy attempt ra).
Proof. unfold delay. apply tame_bind; [auto with tame|]. intros base. done. Qed.
Lemma tame_pause self attempt ra : tame (pause self attempt ra).
Proof. unfold pause. apply tame_bind; [done|]. intros []. apply tame_bind; [apply tame_delay|]. auto with tame. Qed.
Lemma tame_ledger self url kind detail status permanent : tame (ledger self url kind detail status permanent).
Proof. unfold ledger. by destruct (_cache self). Qed.
Lemma tame_preflight self url : tame (_preflight_skip self url).
Proof. unfold _preflight_skip. by destruct (_ || _). Qed.
#[export] Hint Resolve tame_measure tame_pause tame_ledger tame_preflight tame_bind : tame.
#[export] Hint Extern 1 (tame (call _)) => exact (conj I (λ _, I)) : tame.
#[export] Hint Extern 1 (tame (Ret _)) => exact I : tame.
#[export] Hint Extern 1 (tame (Raise _)) => exact I : tame.

Lemma idle_bind {A B} (p : io A) (f : A → io B) (Q : phase → Prop) :
  tame p → (∀ a, disciplined Idle (f a) Q) → disciplined Idle (p ≫= f) Q.
Proof. intros Hp Hf. eapply disciplined_bind; [by apply tame_idle|]. by intros a ph <-. Qed.

Section discipline.
Context (sha256_hexdigest : string → string) (py_float : string → option float) (urljoin : string → string → string).
Context (self : SecHttpClient) (url : string).

Lemma again_disciplined attempt ra next kind detail status e :
  disciplined Idle next (eq Idle) → disciplined Idle (again self url attempt ra next kind detail status e) (eq Idle).
Proof using Type.
  intros Hn. unfold again. destruct (_ <? _); [apply idle_bind; auto with tame|]. apply idle_bind; auto with tame. done.
Qed.
Lemma success_tame content_kind mutable body : tame (on_success sha256_hexdigest self url content_kind mutable body).
Proof using Type.
  unfold on_success, _cache_put. destruct (match max_response_bytes self with Some _ => _ | None => _ end); [auto with tame|].
  apply tame_bind; [destruct (_cache self); [|done]; apply tame_bind; auto with tame|]. intros []. apply tame_bind; [by destruct (_cache self)|done].
Qed.
Lemma response_disciplined content_kind mutable attempt r next :
  disciplined Idle next (eq Idle) → disciplined Idle (on_response sha256_hexdigest py_float self url content_kind mutable attempt r next) (eq Idle).
Proof using Type.
  intros Hn. unfold on_response. destruct (classify _).
  - apply tame_idle, success_tame.
  - apply idle_bind; [auto with tame|]. intros ra. apply idle_bind; [auto with tame|]. intros []. apply idle_bind; [auto with tame|]. intros []. by apply again_disciplined.
  - apply idle_bind; [auto with tame|]. intros []. by apply again_disciplined.
  - apply tame_idle. auto with tame.
Qed.
Lemma attempts_disciplined content_kind mutable remaining attempt :
  disciplined Idle (attempts sha256_hexdigest py_float self url content_kind mutable remaining attempt) (eq Idle).
Proof using Type.
  revert attempt. induction remaining as [|remaining IH]; intros attempt; cbn [attempts]; [done|].
  apply disciplined_attempt. intros ph Hph. apply disciplined_clock. intros started. apply disciplined_measure. intros [].
  apply disciplined_get; [done|]. intros [[exc|exc]|r].
  - apply disciplined_measure. intros []. apply idle_bind; [auto with tame|]. intros []. by apply again_disciplined.
  - apply disciplined_measure. intros []. apply idle_bind; [auto with tame|]. intros []. by apply again_disciplined.
  - apply disciplined_clock. intros now. apply disciplined_measure. intros []. by apply response_disciplined.
Qed.
Lemma get_bytes_disciplined content_kind mutable force :
  disciplined Idle (get_bytes sha256_hexdigest py_float self url content_kind mutable force) (eq Idle).
Proof using Type.
  unfold get_bytes. apply idle_bind.
  { destruct force; [done|]. unfold _cache_get. destruct (_cache self); [|done]. apply tame_bind; auto with tame. }
  intros [payload|]; [by apply tame_idle|]. apply idle_bind; [auto with tame|]. intros [e|]; [by apply tame_idle|apply attempts_disciplined].
Qed.

Context (target : string) (max_bytes : Z) (validate : string → option string).
Lemma failure_tame code detail retryable status kind permanent metric : tame (failure self url code detail retryable status kind permanent metric).
Proof using Type. unfold failure. auto with tame. Qed.
#[local] Hint Resolve failure_tame : tame.
Lemma follow_disciplined more started current : disciplined Idle (follow urljoin self url validate more started current) (eq Idle).
Proof using Type.
  revert started current. induction more as [|more IH]; intros started current; cbn [follow];
    (apply disciplined_attempt; intros ph Hph; apply disciplined_measure; intros []; apply disciplined_open; [done|]; intros [e|r]; [done|];
     destruct (if is_redirect _ then _ else _) as [location|]; [|done]; apply disciplined_clock; intros now; apply disciplined_measure; intros [];
     destruct (validate _); [apply tame_idle; unfold refuse; auto with tame|]).
  - apply tame_idle. unfold refuse. auto with tame.
  - apply disciplined_clock. intros t. apply IH.
Qed.
Lemma settle_tame r : tame r → tame (settle r).
Proof using Type. intros Hr. unfold settle. auto with tame. Qed.
#[local] Hint Resolve settle_tame : tame.
Lemma on_broken_tame attempt e : tame (on_broken self url attempt e).
Proof using Type.
  unfold on_broken. apply tame_bind; [done|]. intros []. destruct (_ <? _); [auto with tame|]. apply settle_tame. destruct e; apply failure_tame.
Qed.
Lemma again_or_tame attempt ra r : tame r → tame (again_or self attempt ra r).
Proof using Type. intros Hr. unfold again_or. destruct (_ <? _); auto with tame. Qed.
#[local] Hint Resolve on_broken_tame again_or_tame : tame.
Lemma on_status_tame attempt started r : tame (on_status py_float self url attempt started r).
Proof using Type.
  unfold on_status. apply tame_bind; [done|]. intros now. apply tame_bind; [done|]. intros []. destruct (_ =? 404); [auto with tame|]. destruct (classify _); auto 6 with tame.
Qed.
Lemma receive_tame temporary chunks broke size digested : tame (receive max_bytes temporary chunks broke size digested).
Proof using Type.
  revert size digested. induction chunks as [|chunk chunks IH]; intros size digested; cbn [receive]; [done|].
  destruct (String.eqb chunk ""); [apply IH|]. cbv zeta. destruct (_ <? _); [done|]. apply tame_bind; [done|]. intros []. apply IH.
Qed.
Lemma finally_tame {A} (p : io A) fin : tame p → tame fin → tame (finally_ p fin).
Proof using Type. intros Hp Hf. induction p as [a|e|o k IH]; cbn [finally_ tame] in *; [by apply tame_bind..|]. destruct Hp as [Ho Hk]. auto. Qed.
Lemma on_body_tame attempt started current r : tame (on_body sha256_hexdigest self url target max_bytes attempt started current r).
Proof using Type.
  unfold on_body, too_large_failure. destruct (_ <? _); [auto with tame|]. apply tame_bind; [done|]. intros temporary.
  apply tame_bind; [apply receive_tame|]. intros got. destruct (broken got); [apply finally_tame; [apply on_broken_tame|done]|].
  unfold on_received, too_large_failure. apply tame_bind; [done|]. intros now. apply tame_bind; [done|]. intros []. destruct (too_big got); [auto with tame|].
  destruct (_ =? 0); [auto with tame|]. apply tame_bind; [done|]. intros []. apply tame_bind; [by destruct (_cache self)|done].
Qed.
Lemma stream_disciplined : disciplined Idle (stream_to_file sha256_hexdigest py_float urljoin self url target max_bytes validate) (eq Idle).
Proof using Type.
  unfold stream_to_file. destruct (_ <=? 0); [done|]. apply idle_bind; [auto with tame|]. intros [e|]; [done|].
  generalize 0 as attempt. induction (Z.to_nat _) as [|remaining IH]; intros attempt; cbn [stream_attempts]; [apply tame_idle; auto with tame|].
  eapply disciplined_bind with (Q := eq Idle); [|by intros [r|] ph <-]. unfold try_once. apply disciplined_clock. intros started.
  eapply disciplined_bind; [apply follow_disciplined|]. intros [e|r|started' current r] ph <-; [by apply tame_idle, on_broken_tame|done|].
  destruct (_ =? 200); apply tame_idle; [apply on_body_tame|apply on_status_tame].
Qed.
End discipline.

(** The methods of clients that share the limiter, run for their effects. *)
Inductive method (sha256_hexdigest : string → string) (py_float : string → option float) (urljoin : string → string → string) : io unit → Prop :=
  | Gets self url content_kind mutable force_refresh :
      method sha256_hexdigest py_float urljoin (_ ← get_bytes sha256_hexdigest py_float self url content_kind mutable force_refresh; Ret tt)
  | Streams self url target max_bytes validate :
      method sha256_hexdigest py_float urljoin (_ ← stream_to_file sha256_hexdigest py_float urljoin self url target max_bytes validate; Ret tt).
Lemma method_disciplined sha py_float urljoin p : method sha py_float urljoin p → disciplined Idle p (λ _, True).
Proof.
  intros [self url kind mutable force|self url target max_bytes validate]; (eapply disciplined_bind; [|done]);
    [apply get_bytes_disciplined|apply stream_disciplined].
Qed.

(** C6: Whatever threads fetch and stream through clients with one limiter, retrying and following
    the redirects of streams, and however their calls interleave, the requests they make by a time
    are no more than its slots allow: the last of [n] was made at least [n - 1] minimal intervals
    after the limiter's first slot.  Times are the floats the code computes: a sleep may only be
    too long, no Retry-After is a nan, and a reserved slot is at most twice the clock reading it
    was reserved at, so that the wait until it is computed exactly.  The session adds requests of its own, which take no slot, when it follows the
    redirects of a fetch: at most thirty to each request. *)
Theorem requests_are_paced sha compress decompress cfg py_float urljoin l0 w0 threads schedule w threads' T :
  limiter_ok l0 → fresh l0 w0 → Forall (method sha py_float urljoin) threads →
  execute sha compress decompress cfg schedule (w0, threads) = Some (w, threads') →
  Forall hint_ok (w_calls w) →
  Forall (λ r, infinite r.2 = false ∧ val r.2 <= 2 * val r.1) (reservations l0 (w_calls w)) →
  nonneg T → sent_by T w ≠ [] →
  fle (after_intervals (_min_interval l0) (length (sent_by T w) - 1) (_next_slot l0)) T = true ∧
  (length (followed_by T w) <= DEFAULT_REDIRECT_LIMIT * length (sent_by T w))%nat.
Proof.
  intros Hok Hfresh Hth. apply sends_bounded; [done..|]. eapply Forall_impl; [exact Hth|]. intros p. apply method_disciplined.
Qed.

(** ** What is requested *)

(** At most [n] requests on every path, of URLs of which [P] holds. *)
Fixpoint asks {A} (P : string → Prop) (n : nat) (p : io A) : Prop :=
  match p with
  | Ret _ | Raise _ => True
  | Next o k =>
      match o with
      | Get url | Open url => P url ∧ ∃ m, n = S m ∧ ∀ x, asks P m (k x)
      | _ => ∀ x, asks P n (k x)
      end
  end.
Lemma asks_le {A} P n m (p : io A) : (n <= m)%nat → asks P n p → asks P m p.
Proof.
  revert n m. induction p as [a|e|o k IH]; intros n m Hnm; cbn [asks]; [done..|].
  destruct o; try (intros Hk x; by eapply IH); (intros [HP (j & -> & Hk)]; split; [done|]; destruct m as [|m]; [lia|]; exists m; split; [done|];
    intros x; eapply IH; [|apply Hk]; lia).
Qed.
Lemma asks_bind {A B} P n m (p : io A) (f : A → io B) : asks P n p → (∀ a, asks P m (f a)) → asks P (n + m) (p ≫= f).
Proof.
  intros Hp Hf. revert n Hp. induction p as [a|e|o k IH]; intros n; cbn [asks mbind io_bind].
  - intros _. eapply asks_le; [|apply Hf]. lia.
  - done.
  - destruct o; try (intros Hk x; by apply IH); (intros [HP (j & -> & Hk)]; split; [done|]; exists (j + m)%nat; split; [done|]; intros x; by apply IH).
Qed.
Lemma asks_evals sha compress decompress cfg {A} P n (p : io A) w trace w' r :
  asks P n p → evals sha compress decompress cfg p w trace w' r → Forall P (requested trace) ∧ (length (requested trace) <= n)%nat.
Proof.
  revert n w trace w' r. induction p as [a|e|o k IH]; intros n w trace w' r; cbn [asks evals].
  - intros _ (-> & _). cbn. split; [done|lia].
  - intros _ (-> & _). cbn. split; [done|lia].
  - intros Ho (i & w1 & x & rest & _ & -> & He). destruct o; cbn [requested]; try (by eapply IH; [|exact He]);
      (destruct Ho as [HP (m & -> & Hk)]; destruct (IH x m w1 rest w' r (Hk x) He) as [H1 H2]; split; [by constructor|cbn; lia]).
Qed.
Lemma tame_asks {A} P (p : io A) : tame p → asks P 0 p.
Proof. induction p as [a|e|o k IH]; cbn [tame asks]; [done..|]. intros [Ho Hk]. destruct o; try done; intros x; apply IH, Hk. Qed.
Lemma paced_asks P : asks P 0 paced_.
Proof. unfold paced_. cbn [mbind io_bind call asks]. intros d. destruct (flt _ d); [apply tame_asks, tame_sleep|done]. Qed.

Section asking.
Context (sha256_hexdigest : string → string) (py_float : string → option float) (urljoin : string → string → string).
Context (self : SecHttpClient) (url target : string) (max_bytes : Z) (validate : string → option string).
Definition allowed (u : string) : Prop := u = url ∨ validate u = None.

Lemma follow_asks more started current : allowed current → asks allowed (S more) (follow urljoin self url validate more started current).
Proof using Type.
  revert started current. induction more as [|more IH]; intros started current Hc; cbn [follow];
    (change (S ?n) with (0 + S n)%nat; apply asks_bind; [apply paced_asks|]; intros []; change (S ?n) with (0 + S n)%nat; apply asks_bind; [by apply tame_asks|]; intros [];
     cbn [mbind io_bind call asks]; split; [done|]; eexists; split; [done|]; intros [e|r]; [done|];
     destruct (if is_redirect _ then _ else _) as [location|]; [|done]; cbn [asks]; intros now []; cbn [asks mbind io_bind];
     destruct (validate _) eqn:Hv; [eapply asks_le; [|apply tame_asks; unfold refuse; auto using failure_tame with tame]; lia|]).
  - apply tame_asks. unfold refuse. auto using failure_tame with tame.
  - intros t. apply IH. by right.
Qed.

(** The requests of a stream: at most thirty for each attempt. *)
Lemma stream_asks :
  asks allowed (Z.to_nat (max_retries (retry_policy self) + 1) * DEFAULT_REDIRECT_LIMIT)
    (stream_to_file sha256_hexdigest py_float urljoin self url target max_bytes validate).
Proof using Type.
  unfold stream_to_file. destruct (_ <=? 0); [done|]. change (?n * ?m)%nat with (0 + n * m)%nat. apply asks_bind; [apply tame_asks, tame_preflight|].
  intros [e|]; [done|]. generalize 0 as attempt. induction (Z.to_nat _) as [|remaining IH]; intros attempt; cbn [stream_attempts].
  { apply tame_asks. auto using failure_tame with tame. }
  cbn [Nat.mul]. apply asks_bind; [|by intros [r|]]. unfold try_once. change DEFAULT_REDIRECT_LIMIT with (0 + (30 + 0))%nat.
  apply asks_bind; [done|]. intros started. apply asks_bind; [apply (follow_asks 29); by left|].
  intros [e|r|started' current r]; [apply tame_asks, on_broken_tame|done|]. destruct (_ =? 200); apply tame_asks; [apply on_body_tame|apply on_status_tame].
Qed.
End asking.

(** C22: A stream requests nothing but the URL it was asked for and redirects that its validator
    accepted, and, retries and redirects together, at most thirty requests for each attempt. *)
Theorem only_validated_urls_are_requested sha compress decompress cfg py_float urljoin self url target max_bytes validate w trace w' r :
  evals sha compress decompress cfg (stream_to_file sha py_float urljoin self url target max_bytes validate) w trace w' r →
  Forall (λ u, u = url ∨ validate u = None) (requested trace) ∧
  (length (requested trace) <= Z.to_nat (max_retries (retry_policy self) + 1) * DEFAULT_REDIRECT_LIMIT)%nat.
Proof. apply asks_evals, stream_asks. Qed.

(** ** What is written *)

(** A program that leaves the files as they are. *)
Fixpoint fileless {A} (p : io A) : Prop :=
  match p with
  | Ret _ | Raise _ => True
  | Next o k => match o with Mkstemp | Append _ _ | Unlink _ | Replace _ _ => False | _ => True end ∧ ∀ x, fileless (k x)
  end.
Lemma fileless_bind {A B} (p : io A) (f : A → io B) : fileless p → (∀ a, fileless (f a)) → fileless (p ≫= f).
Proof. intros Hp Hf. induction p as [a|e|o k IH]; cbn [fileless mbind io_bind] in *; [auto..|]. destruct Hp as [Ho Hk]. auto. Qed.
Lemma calm_fileless {A} (p : io A) : calm p → fileless p.
Proof. induction p as [a|e|o k IH]; cbn [calm fileless]; [done..|]. intros [Ho Hk]. split; [by destruct o|]. auto. Qed.

Section files.
Context (sha256_hexdigest : string → string) (compress : string → string) (decompress : string → option string) (cfg : store_settings).
Context (py_float : string → option float) (urljoin : string → string → string).
Context (self : SecHttpClient) (url target : string) (max_bytes : Z) (validate : string → option string).
Abbreviation wp := (wp sha256_hexdigest compress decompress cfg).

Lemma fileless_handle o i w w' x :
  match o with Mkstemp | Append _ _ | Unlink _ | Replace _ _ => False | _ => True end →
  handle sha256_hexdigest compress decompress cfg o i w = Some (w', x) → w_files w' = w_files w.
Proof using Type.
  intros Ho Hh. destruct o; try done; destruct i; try done; cbn [handle] in Hh;
    try (destruct (clock_reading _ _); [|done]); try (destruct (acquire _ _)); try (destruct (_ <=? _); [|done]);
    try (destruct (_ <=? _)%nat; [|done]); try (destruct (put _ _ _ _ _ _ _ _ _ _ _)); by injection Hh as <- _.
Qed.
Lemma fileless_wp {A} (p : io A) w : fileless p → wp p w (λ _ w' _, w_files w' = w_files w).
Proof using Type.
  revert w. induction p as [a|e|o k IH]; intros w; cbn [fileless Transport.wp]; [done..|]. intros [Ho Hk] i w1 x Hh.
  apply fileless_handle in Hh; [|done]. eapply wp_mono; [|apply (IH x w1), Hk]. intros trace w' r ->. done.
Qed.

Lemma failure_fileless code detail retryable status kind permanent metric : fileless (failure self url code detail retryable status kind permanent metric).
Proof using Type. unfold failure, ledger. by destruct (_cache self). Qed.
Lemma settle_fileless r : fileless r → fileless (settle r).
Proof using Type. intros Hr. unfold settle. by apply fileless_bind. Qed.
Lemma pause_fileless attempt ra : fileless (pause self attempt ra).
Proof using Type. apply calm_fileless, pause_calm. Qed.
Lemma preflight_fileless : fileless (_preflight_skip self url).
Proof using Type. unfold _preflight_skip. by destruct (_ || _). Qed.
#[local] Hint Resolve failure_fileless settle_fileless pause_fileless preflight_fileless : core.
Lemma again_or_fileless attempt ra r : fileless r → fileless (again_or self attempt ra r).
Proof using Type. intros Hr. unfold again_or. destruct (_ <? _); [by apply fileless_bind|auto]. Qed.
Lemma on_broken_fileless attempt e : fileless (on_broken self url attempt e).
Proof using Type.
  unfold on_broken. apply fileless_bind; [done|]. intros []. destruct (_ <? _); [|apply settle_fileless; by destruct e].
  apply fileless_bind; [done|]. intros []. by apply fileless_bind.
Qed.
#[local] Hint Resolve on_broken_fileless again_or_fileless : core.
Lemma on_status_fileless attempt started r : fileless (on_status py_float self url attempt started r).
Proof using Type.
  unfold on_status. apply fileless_bind; [done|]. intros now. apply fileless_bind; [done|]. intros []. destruct (_ =? 404); [auto|].
  destruct (classify _); [auto| |apply fileless_bind; [done|intros []; auto]|auto]. apply fileless_bind; [done|]. intros []. apply fileless_bind; [done|intros []; auto].
Qed.
Lemma follow_fileless more started current : fileless (follow urljoin self url validate more started current).
Proof using Type.
  assert (∀ status detail, fileless (refuse self url status detail)) as Href by (intros; unfold refuse; by apply fileless_bind).
  revert started current. induction more as [|more IH]; intros started current; cbn [follow];
    (apply fileless_bind; [apply calm_fileless, paced_calm|]; intros []; apply fileless_bind; [done|]; intros []; apply fileless_bind; [done|]; intros [e|r]; [done|];
     destruct (if is_redirect _ then _ else _) as [location|]; [|done]; apply fileless_bind; [done|]; intros now; apply fileless_bind; [done|]; intros [];
     destruct (validate _); [apply Href|]).
  - apply Href.
  - apply fileless_bind; [done|]. intros t. apply IH.
Qed.

(** The body of a response, and whether it is one to deliver: it arrived whole, is not empty and
    neither exceeds the limit nor says it will. *)
Definition whole_body (r : stream_response) : string := foldr String.append "" (s_chunks r).
Definition deliverable (r : stream_response) : bool :=
  (s_status r =? 200) && match s_broken r with None => true | Some _ => false end && (declared_size r <=? max_bytes)
  && (0 <? Z.of_nat (String.length (whole_body r))) && (Z.of_nat (String.length (whole_body r)) <=? max_bytes).
(** The answer that describes the response [r] of [current], and the files with its body. *)
Definition description (current : string) (r : stream_response) : StreamResult :=
  StreamedResponse 200 url (url_or (s_url r) current) (sha256_hexdigest (whole_body r)) (Z.of_nat (String.length (whole_body r)))
    (s_headers r "Content-Type") (s_headers r "Content-Encoding") target.
Definition no_body (r : option StreamResult) : Prop := match r with Some (StreamedResponse _ _ _ _ _ _ _ _) => False | _ => True end.

(** The results of an iteration of the loop: a response delivered, or nothing. *)
Definition stored (current : string) (r : stream_response) (files files' : gmap string string) (res : option StreamResult + http_exn) : Prop :=
  res = inl (Some (description current r)) ∧ files' = <[target := whole_body r]> files.
Definition lost (files files' : gmap string string) (res : option StreamResult + http_exn) : Prop :=
  files' = files ∧ match res with inl r => no_body r | inr _ => True end.
(** The last response that was opened, when it is one to deliver, and its URL. *)
Definition to_deliver (os : list (string * (transport_error + stream_response))) : option (string * stream_response) :=
  match last os with Some (current, inr r) => if deliverable r then Some (current, r) else None | _ => None end.
Definition delivered_once (os : list (string * (transport_error + stream_response))) (files files' : gmap string string) (res : option StreamResult + http_exn) : Prop :=
  match to_deliver os with Some (current, r) => stored current r files files' res | None => lost files files' res end.
Definition delivered (os : list (string * (transport_error + stream_response))) (files files' : gmap string string) (res : StreamResult + http_exn) : Prop :=
  delivered_once os files files' match res with inl r => inl (Some r) | inr e => inr e end.

Lemma delivered_fruitless os files files' res : to_deliver os = None → lost files files' res → delivered_once os files files' res.
Proof using Type. unfold delivered_once. by intros ->. Qed.
Lemma delivered_lost os files files' res : delivered_once os files files' res → ¬ (∃ r, res = inl (Some r)) → to_deliver os = None ∧ lost files files' res.
Proof using Type.
  unfold delivered_once, stored. destruct (to_deliver os) as [[? r]|]; [|done]. intros [-> _] Hn. destruct Hn. by eexists.
Qed.
Lemma served_app os os' : to_deliver os = None → to_deliver (os ++ os') = to_deliver os'.
Proof using Type. unfold to_deliver. rewrite last_app. by destruct (last os'). Qed.
Lemma fruitless_app os os' : to_deliver os = None → to_deliver os' = None → to_deliver (os ++ os') = None.
Proof using Type. intros Hos. by rewrite served_app. Qed.
Lemma delivered_app os os' files files' res : to_deliver os = None → delivered_once os' files files' res → delivered_once (os ++ os') files files' res.
Proof using Type. intros Hos. unfold delivered_once. by rewrite served_app. Qed.

(** Programs that do not open a response. *)
Lemma wp_both {A} (p : io A) w Q Q' : wp p w Q → wp p w Q' → wp p w (λ trace w' r, Q trace w' r ∧ Q' trace w' r).
Proof using Type. rewrite !wp_evals. auto. Qed.
Lemma tame_opened {A} (p : io A) w : tame p → wp p w (λ trace _ _, opened trace = []).
Proof using Type.
  revert w. induction p as [a|e|o k IH]; intros w; cbn [tame Transport.wp]; [done..|]. intros [Ho Hk] i w1 x Hh.
  eapply wp_mono; [|apply (IH x w1), Hk]. intros trace w' r. by destruct o.
Qed.
Lemma calm_opened {A} (p : io A) w : calm p → wp p w (λ trace _ _, opened trace = []).
Proof using Type.
  revert w. induction p as [a|e|o k IH]; intros w; cbn [calm Transport.wp]; [done..|]. intros [Ho Hk] i w1 x Hh.
  eapply wp_mono; [|apply (IH x w1), Hk]. intros trace w' r. by destruct o.
Qed.

(** What settles the loop without a body delivers nothing. *)
Fixpoint fails {A} (Q : A → Prop) (p : io A) : Prop :=
  match p with Ret a => Q a | Raise _ => True | Next o k => ∀ x, fails Q (k x) end.
Lemma fails_bind {A B} (Q : A → Prop) (R : B → Prop) (p : io A) (f : A → io B) : fails Q p → (∀ a, Q a → fails R (f a)) → fails R (p ≫= f).
Proof using Type. intros Hp Hf. induction p as [a|e|o k IH]; cbn [fails mbind io_bind] in *; auto. Qed.
Lemma fails_any {A} (p : io A) : fails (λ _, True) p.
Proof using Type. induction p; cbn; auto. Qed.
Lemma failure_fails code detail retryable status kind permanent metric : fails (λ r, no_body (Some r)) (failure self url code detail retryable status kind permanent metric).
Proof using Type. unfold failure. eapply fails_bind; [apply fails_any|]. intros [] _. by eapply fails_bind; [apply fails_any|]. Qed.
Lemma fails_wp {A} (Q : A → Prop) (p : io A) w : fileless p → fails Q p →
  wp p w (λ _ w' r, w_files w' = w_files w ∧ match r with inl a => Q a | inr _ => True end).
Proof using Type.
  revert w. induction p as [a|e|o k IH]; intros w; cbn [fileless fails Transport.wp]; [done..|]. intros [Ho Hk] Hq i w1 x Hh.
  apply fileless_handle in Hh; [|done]. eapply wp_mono; [|apply (IH x w1); auto]. intros trace w' r [-> ?]. done.
Qed.
Lemma settle_fails r : fails (λ r, no_body (Some r)) r → fails no_body (settle r).
Proof using Type. intros Hr. unfold settle. by eapply fails_bind. Qed.
Lemma on_broken_fails attempt e : fails no_body (on_broken self url attempt e).
Proof using Type.
  unfold on_broken. eapply fails_bind; [apply fails_any|]. intros [] _. destruct (_ <? _); [|apply settle_fails; destruct e; apply failure_fails].
  eapply fails_bind; [apply fails_any|]. intros [] _. by eapply fails_bind; [apply fails_any|].
Qed.
Lemma again_or_fails attempt ra r : fails (λ r, no_body (Some r)) r → fails no_body (again_or self attempt ra r).
Proof using Type. intros Hr. unfold again_or. destruct (_ <? _); [by eapply fails_bind; [apply fails_any|]|by apply settle_fails]. Qed.
Lemma on_status_fails attempt started r : fails no_body (on_status py_float self url attempt started r).
Proof using Type.
  unfold on_status. eapply fails_bind; [apply fails_any|]. intros now _. eapply fails_bind; [apply fails_any|]. intros [] _.
  destruct (_ =? 404); [apply settle_fails, failure_fails|]. destruct (classify _); try apply settle_fails, failure_fails.
  - eapply fails_bind; [apply fails_any|]. intros [] _. eapply fails_bind; [apply fails_any|]. intros [] _. apply again_or_fails, failure_fails.
  - eapply fails_bind; [apply fails_any|]. intros [] _. apply again_or_fails, failure_fails.
Qed.

(** What was received: everything, unless it exceeds the limit. *)
Definition received_ok (total : string) (broke : option transport_error) (got : received) : Prop :=
  if Z.of_nat (String.length total) <=? max_bytes
  then got = mkReceived (Z.of_nat (String.length total)) total false broke
  else too_big got = true ∧ broken got = None.
Lemma receive_wp temporary chunks broke size digested files w :
  w_files w = <[temporary := digested]> files → size = Z.of_nat (String.length digested) → size <= max_bytes →
  wp (receive max_bytes temporary chunks broke size digested) w (λ _ w' r, ∃ got, r = inl got ∧
    w_files w' = <[temporary := body got]> files ∧ received_ok (digested +:+ foldr String.append "" chunks) broke got).
Proof using Type.
  revert size digested w. induction chunks as [|chunk chunks IH]; intros size digested w Hw Hs Hm; cbn [receive foldr].
  - eexists. split; [reflexivity|]. split; [done|]. unfold received_ok. rewrite append_nil_r, <- Hs. by destruct (Z.leb_spec size max_bytes); [|lia].
  - destruct (String.eqb_spec chunk "") as [->|_]; [by apply IH|]. cbv zeta. destruct (Z.ltb_spec max_bytes (size + Z.of_nat (String.length chunk))) as [|Hle].
    + eexists. split; [reflexivity|]. split; [done|]. unfold received_ok. rewrite !length_append. by destruct (Z.leb_spec (Z.of_nat (String.length digested + (String.length chunk + String.length (foldr String.append "" chunks)))) max_bytes); [lia|].
    + intros i w1 x Hh. destruct i; try done. cbn [handle] in Hh. injection Hh as <- <-. eapply wp_mono; [|apply IH; [|rewrite length_append, Hs; lia|lia]].
      * intros trace w' r (got & -> & Hf & Hg). exists got. rewrite append_assoc in Hg. done.
      * cbn [with_files w_files]. rewrite Hw. by rewrite alter_insert_eq.
Qed.

Lemma finally_wp {A} (p : io A) fin w Q :
  wp p w (λ trace w' r, wp fin w' (λ trace' w'' r', Q (trace ++ trace') w'' match r' with inl _ => r | inr e => inr e end)) → wp (finally_ p fin) w Q.
Proof using Type.
  revert w Q. induction p as [a|e|o k IH]; intros w Q; cbn [finally_ Transport.wp].
  - intros H. apply wp_bind. eapply wp_mono; [|exact H]. intros trace w' [[]|e]; cbn; by rewrite ?app_nil_r.
  - intros H. apply wp_bind. eapply wp_mono; [|exact H]. intros trace w' [[]|e']; cbn; by rewrite ?app_nil_r.
  - intros H i w1 x Hh. apply IH. exact (H i w1 x Hh).
Qed.
Lemma unlink_wp temporary content files w Q :
  w_files w = <[temporary := content]> files → files !! temporary = None →
  (∀ trace w', w_files w' = files → Q trace w' (inl tt)) → wp (call (Unlink temporary)) w Q.
Proof using Type.
  intros Hw Hn HQ i w1 x Hh. destruct i; try done. cbn [handle] in Hh. injection Hh as <- <-. apply HQ. cbn. rewrite Hw. by apply delete_insert_id.
Qed.
Lemma fileless_bind_wp {A B} (p : io A) (f : A → io B) w (Q : world → B + http_exn → Prop) :
  fileless p → (∀ w' e, w_files w' = w_files w → Q w' (inr e)) → (∀ a w', w_files w' = w_files w → wp (f a) w' (λ _, Q)) →
  wp (p ≫= f) w (λ _, Q).
Proof using Type. intros Hp He Hf. apply wp_bind. eapply wp_mono; [|by apply fileless_wp]. intros trace w' [a|e] Hw; [by apply Hf|by apply He]. Qed.

(** Responses of which nothing is delivered, and what an iteration makes of a response. *)
Definition made_of (current : string) (r : stream_response) (files files' : gmap string string) (res : option StreamResult + http_exn) : Prop :=
  if deliverable r then stored current r files files' res else lost files files' res.
Lemma fails_lost files (p : io (option StreamResult)) w :
  fileless p → fails no_body p → w_files w = files → wp p w (λ _ w' r, lost files (w_files w') r).
Proof using Type. intros Hp Hf <-. eapply wp_mono; [|by apply (fails_wp no_body)]. intros trace w' r [-> Hr]. by split. Qed.
Lemma fails_made current r files (p : io (option StreamResult)) w :
  deliverable r = false → fileless p → fails no_body p → w_files w = files → wp p w (λ _ w' res, made_of current r files (w_files w') res).
Proof using Type. intros Hr Hp Hf Hw. unfold made_of. rewrite Hr. by apply fails_lost. Qed.

Lemma wp_call {A} o (f : answer o → io A) w Q :
  (∀ i w1 x, handle sha256_hexdigest compress decompress cfg o i w = Some (w1, x) → wp (f x) w1 (λ trace, Q (existT o x :: trace))) → wp (call o ≫= f) w Q.
Proof using Type. done. Qed.
Lemma on_received_delivers started current temporary r got files w :
  s_status r = 200 → s_broken r = None → declared_size r <= max_bytes →
  w_files w = <[temporary := body got]> files → files !! temporary = None → received_ok (whole_body r) None got →
  wp (on_received sha256_hexdigest self url target max_bytes started current temporary r got) w
    (λ _ w' res, made_of current r files (w_files w') res).
Proof using Type.
  intros Hst Hbr Hdec Hw Hn Hgot. unfold on_received, too_large_failure.
  apply wp_call. intros i w1 now Hh. apply fileless_handle in Hh; [|done]. rewrite Hw in Hh. clear Hw w.
  apply wp_call. intros i2 w2 [] Hh2. apply fileless_handle in Hh2; [|done]. rewrite Hh in Hh2. clear Hh w1.
  assert (Hdel : deliverable r = (0 <? Z.of_nat (String.length (whole_body r))) && (Z.of_nat (String.length (whole_body r)) <=? max_bytes)).
  { unfold deliverable. rewrite Hst, Hbr, (proj2 (Z.leb_le _ _) Hdec). done. }
  unfold received_ok in Hgot. destruct (Z.of_nat (String.length (whole_body r)) <=? max_bytes).
  2:{ destruct Hgot as [-> _]. rewrite andb_false_r in Hdel. apply wp_bind. eapply unlink_wp; [done..|]. intros tr3 w3 Ew3.
      apply fails_made; [done|auto using settle_fileless, failure_fileless|apply settle_fails, failure_fails|done]. }
  subst got. cbn [too_big byte_size body]. rewrite andb_true_r in Hdel. destruct (Z.eqb_spec (Z.of_nat (String.length (whole_body r))) 0) as [Hz|Hz].
  { rewrite Hz in Hdel. apply wp_bind. eapply unlink_wp; [done..|]. intros tr3 w3 Ew3.
    apply fails_made; [done|auto using settle_fileless, failure_fileless|apply settle_fails, failure_fails|done]. }
  rewrite (proj2 (Z.ltb_lt _ _)) in Hdel by lia. cbn [body] in Hh2.
  apply wp_call. intros i3 w3 [] Hh3. destruct i3; try done. cbn [handle] in Hh3. rewrite Hh2, lookup_insert_eq, delete_insert_id in Hh3 by done.
  injection Hh3 as <-. assert (Hd : made_of current r files (<[target:=whole_body r]> files) (inl (Some (description current r)))).
  { unfold made_of. rewrite Hdel. by split. }
  unfold description in Hd. rewrite <- Hst in Hd.
  destruct (_cache self); [|exact Hd]. intros i4 w4 [] Hh4. apply fileless_handle in Hh4; [|done]. cbn [with_files w_files] in Hh4.
  change (made_of current r files (w_files w4) (inl (Some (StreamedResponse (s_status r) url (url_or (s_url r) current)
    (sha256_hexdigest (whole_body r)) (Z.of_nat (String.length (whole_body r))) (s_headers r "Content-Type") (s_headers r "Content-Encoding") target)))).
  by rewrite Hh4.
Qed.

Lemma on_body_delivers attempt started current r w :
  0 < max_bytes → s_status r = 200 →
  wp (on_body sha256_hexdigest self url target max_bytes attempt started current r) w (λ _ w' res, made_of current r (w_files w) (w_files w') res).
Proof using Type.
  intros Hmax Hst. unfold on_body, too_large_failure. destruct (Z.ltb_spec max_bytes (declared_size r)) as [Hbig|Hdec].
  { apply fails_made; [| |eapply fails_bind; [apply fails_any|]; intros now _; eapply fails_bind; [apply fails_any|]; intros [] _; apply settle_fails, failure_fails|done].
    - unfold deliverable. rewrite (proj2 (Z.leb_gt _ _) Hbig). by rewrite !andb_false_r.
    - apply fileless_bind; [done|]. intros now. apply fileless_bind; [done|]. intros []. auto using settle_fileless, failure_fileless. }
  set (files := w_files w). apply wp_bind. intros i w1 temporary Hh. destruct i; try done. cbn [handle] in Hh.
  destruct (w_files w !! path) eqn:Hn; [done|]. injection Hh as <- <-. cbn [Transport.wp].
  apply wp_bind. eapply wp_mono; [|apply (receive_wp path _ _ 0 "" files); [done|done|lia]]. intros tr w2 res (got & -> & Hw2 & Hgot).
  change (foldr String.append "" (s_chunks r)) with (whole_body r) in Hgot. change ("" +:+ whole_body r) with (whole_body r) in Hgot.
  destruct (broken got) as [e|] eqn:Hbr.
  { assert (deliverable r = false) as Hnot.
    { unfold received_ok in Hgot. destruct (_ <=? max_bytes) in Hgot; [|destruct Hgot; congruence]. subst got. cbn [broken] in Hbr.
      unfold deliverable. rewrite Hbr. by rewrite andb_false_r. }
    apply finally_wp. eapply wp_mono; [|apply (fails_wp no_body); [apply on_broken_fileless|apply on_broken_fails]].
    intros tr3 w3 r3 [Ew3 Hr3]. eapply unlink_wp; [by rewrite Ew3|done|]. intros tr4 w4 Ew4. unfold made_of. rewrite Hnot, Ew4. by destruct r3. }
  destruct (s_broken r) as [e|] eqn:Hb.
  - assert (received_ok (whole_body r) (Some e) got ∧ too_big got = true ∧ deliverable r = false) as (_ & Htoo & Hnot).
    { split; [done|]. unfold received_ok in Hgot. destruct (_ <=? max_bytes) in Hgot; [subst got; done|]. split; [by destruct Hgot|].
      unfold deliverable. rewrite Hb. by rewrite andb_false_r. }
    unfold on_received, too_large_failure. rewrite Htoo.
    apply wp_call. intros i2 w3 now Hh. apply fileless_handle in Hh; [|done]. rewrite Hw2 in Hh.
    apply wp_call. intros i3 w4 [] Hh2. apply fileless_handle in Hh2; [|done]. rewrite Hh in Hh2.
    apply wp_bind. eapply unlink_wp; [done..|]. intros tr3 w5 Ew5.
    apply fails_made; [done|auto using settle_fileless, failure_fileless|apply settle_fails, failure_fails|done].
  - by apply on_received_delivers.
Qed.

Lemma follow_fails more started current : fails (λ h, match h with Refused r => no_body (Some r) | _ => True end) (follow urljoin self url validate more started current).
Proof using Type.
  assert (∀ status detail, fails (λ h, match h with Refused r => no_body (Some r) | _ => True end) (refuse self url status detail)) as Href.
  { intros. unfold refuse. eapply fails_bind; [apply failure_fails|]. by intros r Hr. }
  revert started current. induction more as [|more IH]; intros started current; cbn [follow];
    (eapply fails_bind; [apply fails_any|]; intros [] _; eapply fails_bind; [apply fails_any|]; intros [] _; eapply fails_bind; [apply fails_any|]; intros [e|r] _; [done|];
     destruct (if is_redirect _ then _ else _) as [location|]; [|done]; eapply fails_bind; [apply fails_any|]; intros now _; eapply fails_bind; [apply fails_any|]; intros [] _;
     destruct (validate _); [apply Href|]).
  - apply Href.
  - eapply fails_bind; [apply fails_any|]. intros t _. apply IH.
Qed.
(** What following redirects opens: at last a response to judge, and before it none to deliver. *)
Definition followed (os : list (string * (transport_error + stream_response))) (r : hop + http_exn) : Prop :=
  match r with inl (Arrived _ current resp) => last os = Some (current, inr resp) | _ => to_deliver os = None end.
Lemma followed_app os os' r : to_deliver os = None → followed os' r → followed (os ++ os') r.
Proof using Type.
  unfold followed. destruct r as [[e|r|t u resp]|e]; try apply fruitless_app. intros _. rewrite last_app. by intros ->.
Qed.
Lemma redirect_fruitless current r : is_redirect (s_status r) = true → to_deliver [(current, inr r)] = None.
Proof using Type.
  unfold to_deliver, is_redirect, deliverable. cbn [last]. intros Hr%bool_decide_eq_true. destruct (Z.eqb_spec (s_status r) 200) as [E|]; [|done].
  rewrite E in Hr. by apply list_elem_of_In in Hr; cbn in Hr; lia.
Qed.
Lemma calm_step {A B} (p : io A) (f : A → io B) w (P : list (string * (transport_error + stream_response)) → B + http_exn → Prop) :
  calm p → (∀ e, P [] (inr e)) → (∀ a w', wp (f a) w' (λ trace _ r, P (opened trace) r)) → wp (p ≫= f) w (λ trace _ r, P (opened trace) r).
Proof using Type.
  intros Hp He Hf. apply wp_bind. eapply wp_mono; [|by apply calm_opened]. intros trace w' [a|e] Ho; [|by rewrite Ho].
  eapply wp_mono; [|apply Hf]. intros trace' w'' r. by rewrite opened_app, Ho.
Qed.
Lemma refuse_followed status detail w : wp (refuse self url status detail) w (λ trace _ r, followed (opened trace) r).
Proof using Type.
  unfold refuse. apply wp_bind. eapply wp_mono; [|apply tame_opened, failure_tame]. intros trace w' [r|e] Ho; cbn [Transport.wp]; rewrite ?app_nil_r, Ho; done.
Qed.
Lemma follow_opens more started current w :
  wp (follow urljoin self url validate more started current) w (λ trace _ r, followed (opened trace) r).
Proof using Type.
  revert started current w. induction more as [|more IH]; intros started current w; cbn [follow];
    (apply calm_step; [apply paced_calm|done|]; intros [] w1; apply calm_step; [apply measure_calm|done|]; intros [] w2;
     apply wp_call; intros i w3 x _; apply (wp_mono _ _ _ _ _ _ (λ trace _ r, followed ([(current, x)] ++ opened trace) r)); [done|];
     destruct x as [e|r]; [done|]; destruct (is_redirect (s_status r)) eqn:Hred; [|done]; destruct (header r "Location") as [location|]; [|done];
     apply (wp_mono _ _ _ _ _ _ (λ trace _ res, followed (opened trace) res)); [intros tr w4 res; by apply followed_app, redirect_fruitless|];
     apply calm_step; [by split|done|]; intros now w4; apply calm_step; [apply measure_calm|done|]; intros [] w5;
     destruct (validate _); [apply refuse_followed|]).
  - apply refuse_followed.
  - apply calm_step; [by split|done|]. intros t w6. apply IH.
Qed.

Lemma try_once_delivers attempt w :
  0 < max_bytes →
  wp (try_once sha256_hexdigest py_float urljoin self url target max_bytes validate attempt) w
    (λ trace w' r, delivered_once (opened trace) (w_files w) (w_files w') r).
Proof using Type.
  intros Hmax. unfold try_once. apply wp_call. intros i w1 started Hh. apply fileless_handle in Hh; [|done]. rewrite <- Hh.
  apply (wp_mono _ _ _ _ _ _ (λ trace w' r, delivered_once (opened trace) (w_files w1) (w_files w') r)); [done|].
  apply wp_bind. eapply wp_mono; [|apply wp_both; [apply follow_opens|apply fails_wp; [apply follow_fileless|apply follow_fails]]].
  intros tr w2 [h|e] [Hos [Ew2 Hh2]]; [|by apply delivered_fruitless; [|split]].
  assert (Hlost : ∀ p, to_deliver (opened tr) = None → fileless p → fails no_body p → tame p → wp p w2 (λ trace w' r, delivered_once (opened (tr ++ trace)) (w_files w1) (w_files w') r)).
  { intros p Hf Hfl Hfa Ht. eapply wp_mono; [|apply wp_both; [by apply tame_opened|by apply (fails_lost (w_files w1))]].
    intros tr' w' r [Ho Hl]. rewrite opened_app, Ho, app_nil_r. by apply delivered_fruitless. }
  destruct h as [e|r|started' current r]; cbn [followed] in Hos.
  - apply Hlost; [done|apply on_broken_fileless|apply on_broken_fails|apply on_broken_tame].
  - by apply Hlost.
  - destruct (Z.eqb_spec (s_status r) 200) as [E|E].
    + eapply wp_mono; [|apply wp_both; [apply tame_opened, on_body_tame|by apply on_body_delivers]].
      intros tr' w' res [Ho Hm]. rewrite opened_app, Ho, app_nil_r. unfold delivered_once, to_deliver. rewrite Hos, <- Ew2.
      unfold made_of in Hm. by destruct (deliverable r).
    + apply Hlost; [|apply on_status_fileless|apply on_status_fails|apply on_status_tame].
      unfold to_deliver. rewrite Hos. unfold deliverable. by rewrite (proj2 (Z.eqb_neq _ _) E).
Qed.
Lemma stream_delivers w :
  wp (stream_to_file sha256_hexdigest py_float urljoin self url target max_bytes validate) w
    (λ trace w' r, delivered (opened trace) (w_files w) (w_files w') r).
Proof using Type.
  unfold stream_to_file. destruct (Z.leb_spec max_bytes 0) as [|Hmax]; [done|].
  apply wp_bind. eapply wp_mono; [|apply wp_both; [apply tame_opened, tame_preflight|apply fileless_wp, preflight_fileless]].
  intros t0 w1 r0 [Ho <-]. destruct r0 as [[e|]|e]; [by cbn [Transport.wp]; rewrite opened_app, Ho| |by rewrite Ho].
  apply (wp_mono _ _ _ _ _ _ (λ trace w' r, delivered (opened trace) (w_files w1) (w_files w') r)); [intros tr w' r; by rewrite opened_app, Ho|].
  generalize 0 as attempt. clear Ho t0. revert w1. induction (Z.to_nat _) as [|remaining IH]; intros w1 attempt; cbn [stream_attempts].
  - eapply wp_mono; [|apply wp_both; [apply tame_opened, failure_tame|apply (fails_wp (λ r, no_body (Some r))); [apply failure_fileless|apply failure_fails]]].
    intros tr w' r [-> [-> Hr]]. by destruct r.
  - apply wp_bind. eapply wp_mono; [|apply (try_once_delivers attempt w1 Hmax)]. intros tr w2 [[r|]|e] Hd.
    + cbn [Transport.wp]. by rewrite app_nil_r.
    + apply delivered_lost in Hd as [Hf [Ew _]]; [|by intros [? [=]]]. rewrite <- Ew.
      eapply wp_mono; [|apply IH]. intros tr' w' r Hr. rewrite opened_app. by apply delivered_app.
    + exact Hd.
Qed.
End files.

(** C8: A stream delivers exactly when the last response it opened is one to deliver: of status 200,
    arrived to its end, not empty, and within the limit, declared and received.  Then the
    destination holds the chunks of that response, joined, the answer says their size and digest,
    and no other file has changed.  In every other case, whatever broke, was refused or raised, the
    answer is a failure and every file is as it was: no partial body and no temporary file is left. *)
Theorem destination_gets_the_whole_body sha compress decompress cfg py_float urljoin self url target max_bytes validate w trace w' r :
  evals sha compress decompress cfg (stream_to_file sha py_float urljoin self url target max_bytes validate) w trace w' r →
  delivered sha url target max_bytes (opened trace) (w_files w) (w_files w') r.
Proof.
  intros He. exact (proj1 (wp_evals _ _ _ _ _ _ _) (stream_delivers sha compress decompress cfg py_float urljoin self url target max_bytes validate w) _ _ _ He).
Qed.

(** ** Examples *)

Definition no_headers (name : string) : option string := None.
Definition moved (name : string) : option string := if String.eqb name "Location" then Some "b.htm" else None.
Definition demo_target : string := "out/aapl.htm".
Definition demo_join (base location : string) : string := "https://www.sec.gov/" +:+ location.
Definition only_b (u : string) : option string := if String.eqb u "https://www.sec.gov/b.htm" then None else Some "elsewhere".
Definition demo_stream : io StreamResult := stream_to_file id no_float demo_join demo_client demo_document demo_target 10 only_b.
(** A redirect, then the body in two chunks. *)
Definition streamed := play id id Some demo_store demo_stream
  [Silent; Tick (seconds 6); Tick (seconds 6); Silent; Opened (inr (mkStream 302 moved None [] None)); Tick (seconds 6); Silent;
   Tick (seconds 6); Tick (seconds 7); Silent; Opened (inr (mkStream 200 no_headers None ["<ht"; "ml>"] None));
   Named "out/.sec-stream-1.tmp"; Silent; Silent; Tick (seconds 8); Silent; Silent; Silent] demo_world.
Definition streamed_result : StreamResult :=
  StreamedResponse 200 demo_document "https://www.sec.gov/b.htm" "<html>" 6 None None demo_target.
Lemma streamed_ends : streamed = Some (end_trace streamed, end_world streamed, inl streamed_result).
Proof. vm_compute. reflexivity. Qed.

Lemma only_validated_urls_are_requested_witness :
  requested (end_trace streamed) = [demo_document; "https://www.sec.gov/b.htm"] ∧
  Forall (λ u, u = demo_document ∨ only_b u = None) (requested (end_trace streamed)).
Proof.
  split; [vm_compute; reflexivity|].
  exact (proj1 (only_validated_urls_are_requested id id Some demo_store no_float demo_join demo_client demo_document demo_target 10 only_b
    demo_world (end_trace streamed) (end_world streamed) (inl streamed_result) (play_evals _ _ _ _ _ _ _ _ _ _ streamed_ends))).
Defined.
Lemma destination_gets_the_whole_body_witness :
  w_files (end_world streamed) = {[demo_target := "<html>"]} ∧
  delivered id demo_document demo_target 10 (opened (end_trace streamed)) (w_files demo_world) (w_files (end_world streamed)) (inl streamed_result).
Proof.
  split; [vm_compute; reflexivity|].
  exact (destination_gets_the_whole_body id id Some demo_store no_float demo_join demo_client demo_document demo_target 10 only_b
    demo_world (end_trace streamed) (end_world streamed) (inl streamed_result) (play_evals _ _ _ _ _ _ _ _ _ _ streamed_ends)).
Defined.

(** Two threads that fetch: the second waits for its slot. *)
Definition plain_client : SecHttpClient := mkClient default_retry_policy false 3 false None.
Definition demo_threads : list (io unit) :=
  [_ ← get_bytes id no_float plain_client demo_document "bytes" false false; Ret tt;
   _ ← get_bytes id no_float plain_client "https://www.sec.gov/b.htm" "bytes" false false; Ret tt].
Definition demo_schedule : list (nat * input) :=
  [(0, Tick (seconds 5)); (1, Tick (seconds 5)); (0, Tick (seconds 5)); (0, Silent); (1, Tick (seconds 5));
   (0, Replied ["https://www.sec.gov/moved.htm"] (inr (mkResp 200 "a" None))); (1, Tick (seconds 6)); (1, Tick (seconds 6)); (1, Silent);
   (1, Replied [] (inl (Timeout "timed out")))]%nat.
#[local] Abbreviation demo_execution := (execute id id Some demo_store demo_schedule (demo_world, demo_threads)).
Definition end_state (o : option (world * list (io unit))) : world * list (io unit) := default (demo_world, []) o.
Definition is_some {A} (o : option A) : bool := match o with Some _ => true | None => false end.
Lemma end_state_eq o : is_some o = true → o = Some ((end_state o).1, (end_state o).2).
Proof. by destruct o as [[w threads]|]. Qed.

Lemma demo_fresh : fresh demo_limiter demo_world.
Proof. split; [by apply nonneg_dec|done]. Qed.
Lemma demo_runs : is_some demo_execution = true.
Proof. vm_compute. reflexivity. Qed.
Lemma demo_sends : length (sent_by (seconds 6) (end_state demo_execution).1) = 2%nat.
Proof. vm_compute. reflexivity. Qed.
Lemma demo_followed : length (followed_by (seconds 6) (end_state demo_execution).1) = 1%nat.
Proof. vm_compute. reflexivity. Qed.
Lemma requests_are_paced_witness :
  length (sent_by (seconds 6) (end_state demo_execution).1) = 2%nat ∧
  fle (after_intervals (_min_interval demo_limiter) (length (sent_by (seconds 6) (end_state demo_execution).1) - 1) (_next_slot demo_limiter)) (seconds 6) = true ∧
  (length (followed_by (seconds 6) (end_state demo_execution).1) <= DEFAULT_REDIRECT_LIMIT * length (sent_by (seconds 6) (end_state demo_execution).1))%nat.
Proof.
  split; [exact demo_sends|].
  refine (requests_are_paced id id Some demo_store no_float demo_join demo_limiter demo_world demo_threads demo_schedule
    (end_state demo_execution).1 (end_state demo_execution).2 (seconds 6) demo_limiter_ok demo_fresh _ _ _ _ _ _).
  - repeat constructor.
  - exact (end_state_eq demo_execution demo_runs).
  - vm_compute. repeat constructor.
  - vm_compute. repeat constructor; discriminate.
  - apply nonneg_dec. vm_compute. reflexivity.
  - intros E. pose proof demo_sends as H. rewrite E in H. exact (O_S _ H).
Defined.
