(* ===== verification/Frames.v ===== *)
(** * Frames between the broker and its clients: [infra/broker/sec_broker.py]

    A message is its length in four bytes, the highest first, and its bytes.  A socket hands over
    what was sent in chunks of any size; [recv] returns at most what was asked for, and nothing
    when the other side has closed. *)
From Stdlib Require Import Ascii.
From S2P Require Import Prelude Numerals.
#[local] Open Scope nat_scope.

Definition BrokerError (msg : string) : exn := RuntimeError msg.

(** ** Headers *)

Definition _HEADER_SIZE : nat := 4.
Definition max_frame : N := 4294967296.
(** [struct.Struct("!I")] *)
Definition byte_at (n : N) (shift : N) : ascii := ascii_of_N (N.shiftr n shift mod 256).
Definition pack (n : N) : result string :=
  _ ← raise_if (max_frame <=? n)%N (ValueError "struct.error");
  Ok (String (byte_at n 24) (String (byte_at n 16) (String (byte_at n 8) (String (byte_at n 0) "")))).
Fixpoint unpack (acc : N) (s : string) : N :=
  match s with EmptyString => acc | String c s => unpack (256 * acc + N_of_ascii c) s end.

Lemma byte_value n shift : N_of_ascii (byte_at n shift) = (N.shiftr n shift mod 256)%N.
Proof. unfold byte_at. apply N_ascii_embedding. by apply N.mod_lt. Qed.
Lemma unpack_pack n h : pack n = Ok h → String.length h = _HEADER_SIZE ∧ unpack 0 h = n.
Proof.
  unfold pack. intros (_ & Hn%raise_if_Ok%N.leb_gt & [= <-])%bind_Ok. split; [done|]. cbn [unpack]. rewrite !byte_value.
  rewrite !N.shiftr_div_pow2. change (2 ^ 24)%N with (256 * (256 * 256))%N. change (2 ^ 16)%N with (256 * 256)%N. change (2 ^ 8)%N with 256%N. change (2 ^ 0)%N with 1%N.
  rewrite N.div_1_r, <- !N.Div0.div_div. unfold max_frame in Hn.
  pose proof (N.div_mod n 256 ltac:(done)). pose proof (N.div_mod (n / 256) 256 ltac:(done)). pose proof (N.div_mod (n / 256 / 256) 256 ltac:(done)).
  assert (n / 256 / 256 / 256 < 256)%N by (repeat apply N.Div0.div_lt_upper_bound; lia).
  rewrite (N.mod_small (n / 256 / 256 / 256) 256) by done. lia.
Qed.

(** ** Reading *)

(** The chunks that will arrive before the other side closes; a frame's bytes and what is left. *)
Fixpoint _recv_exactly (count : nat) (chunks : list string) : result (string * list string) :=
  match count, chunks with
  | O, _ => Ok ("", chunks)
  | _, [] => Err (BrokerError "broker closed the connection mid-frame")
  | _, chunk :: chunks =>
      if String.eqb chunk "" then Err (BrokerError "broker closed the connection mid-frame")
      else if String.length chunk <=? count
      then '(bytes, rest) ← _recv_exactly (count - String.length chunk) chunks; Ok (chunk +:+ bytes, rest)
      else Ok (str_take count chunk, str_drop count chunk :: chunks)
  end.
Definition _recv_frame (chunks : list string) : result (string * list string) :=
  '(header, chunks) ← _recv_exactly _HEADER_SIZE chunks;
  _recv_exactly (N.to_nat (unpack 0 header)) chunks.
(** The bytes of a frame, as [_send_frame] sends them. *)
Definition frame (payload : string) : result string :=
  header ← pack (N.of_nat (String.length payload));
  Ok (header +:+ payload).

Definition flat (chunks : list string) : string := foldr String.append "" chunks.
Definition arriving (chunks : list string) : Prop := Forall (λ c, c ≠ "") chunks.

Lemma take_drop_append n s : n <= String.length s → s = str_take n s +:+ str_drop n s ∧ String.length (str_take n s) = n.
Proof.
  revert s. induction n as [|n IH]; intros [|c s]; cbn; try lia; [done..|]. intros Hn. destruct (IH s ltac:(lia)) as [E L]. split; [|by f_equal].
  rewrite append_cons. by f_equal.
Qed.
Lemma append_split a b x y : String.length a = String.length b → a +:+ x = b +:+ y → a = b ∧ x = y.
Proof.
  revert b. induction a as [|c a IH]; intros [|d b]; cbn [String.length]; try done.
  intros [= Hl]. rewrite !append_cons. intros [= -> E]. by destruct (IH b Hl E) as [-> ->].
Qed.

(** What is read is what was sent, wherever the chunks are cut. *)
Lemma recv_spec count chunks s t :
  arriving chunks → flat chunks = s +:+ t → String.length s = count →
  ∃ rest, _recv_exactly count chunks = Ok (s, rest) ∧ flat rest = t ∧ arriving rest.
Proof.
  revert count s. induction chunks as [|chunk chunks IH]; intros count s Ha Hf Hl.
  - assert (String.length s = 0) as H0 by (apply (f_equal String.length) in Hf; rewrite length_append in Hf; cbn in Hf; lia).
    destruct s; [|done]. subst count. exists []. split; [done|]. by split.
  - apply Forall_cons in Ha as [Hne Ha]. destruct count as [|count]; [destruct s; [|done]; exists (chunk :: chunks); split; [done|]; split; [done|by constructor]|].
    cbn [_recv_exactly]. rewrite (proj2 (String.eqb_neq _ _) Hne). cbn [flat foldr] in Hf. destruct (Nat.leb_spec (String.length chunk) (S count)) as [Hle|Hgt].
    + destruct (take_drop_append (String.length chunk) s ltac:(lia)) as [Es Els]. rewrite Es, append_assoc in Hf.
      apply append_split in Hf as [Ec Hf]; [|done]. rewrite <- Ec in Es.
      destruct (IH (S count - String.length chunk) (str_drop (String.length chunk) s) Ha Hf) as (rest & -> & Hr & Har).
      { rewrite Es in Hl at 1. rewrite length_append in Hl. lia. }
      exists rest. cbn [mbind result_bind]. by rewrite <- Es.
    + destruct (take_drop_append (S count) chunk ltac:(lia)) as [Ec Elc]. rewrite Ec, append_assoc in Hf.
      apply append_split in Hf as [Es Hf]; [|by rewrite Hl]. exists (str_drop (S count) chunk :: chunks). rewrite Es. split; [done|]. split; [done|].
      constructor; [|done]. intros E. apply (f_equal String.length) in Ec. rewrite length_append, E, Elc in Ec. cbn in Ec. lia.
Qed.

Lemma recv_frame_spec payload bytes chunks t :
  frame payload = Ok bytes → arriving chunks → flat chunks = bytes +:+ t →
  ∃ rest, _recv_frame chunks = Ok (payload, rest) ∧ flat rest = t ∧ arriving rest.
Proof.
  unfold frame. intros (header & Hp & [= <-])%bind_Ok Ha Hf. destruct (unpack_pack _ _ Hp) as [Hl Hu].
  rewrite append_assoc in Hf. destruct (recv_spec _HEADER_SIZE chunks header _ Ha Hf Hl) as (rest & E & Hr & Har).
  unfold _recv_frame. rewrite E. cbn [mbind result_bind]. rewrite Hu, Nat2N.id. by apply recv_spec.
Qed.

(** Frames one after another. *)
Fixpoint _recv_frames (n : nat) (chunks : list string) : result (list string * list string) :=
  match n with
  | O => Ok ([], chunks)
  | S n => '(payload, chunks) ← _recv_frame chunks; '(payloads, chunks) ← _recv_frames n chunks; Ok (payload :: payloads, chunks)
  end.

(** C30: Messages sent one after another are received whole and in order, wherever the socket cuts
    the bytes into chunks, and nothing of what follows is consumed. *)
Theorem frames_round_trip payloads bytes chunks t :
  mapr frame payloads = Ok bytes → arriving chunks → flat chunks = flat bytes +:+ t →
  ∃ rest, _recv_frames (length payloads) chunks = Ok (payloads, rest) ∧ flat rest = t ∧ arriving rest.
Proof.
  revert bytes chunks. induction payloads as [|payload payloads IH]; intros bytes chunks; cbn [mapr length _recv_frames].
  - intros [= <-] Ha Hf. by exists chunks.
  - intros (b & Hb & (bs & Hbs & [= <-])%bind_Ok)%bind_Ok Ha Hf. cbn [flat foldr] in Hf. rewrite append_assoc in Hf.
    destruct (recv_frame_spec _ _ _ _ Hb Ha Hf) as (rest & -> & Hr & Har). cbn [mbind result_bind].
    destruct (IH bs rest Hbs Har Hr) as (rest' & -> & Hr' & Har'). by exists rest'.
Qed.
Lemma frames_round_trip_witness :
  ∃ rest, _recv_frames 2 [String "000" (String "000" ""); String "000" (String "003" "a"); "bc"; String "000" (String "000" (String "000" (String "001" "z")))] =
    Ok (["abc"; "z"], rest).
Proof.
  destruct (frames_round_trip ["abc"; "z"]
    [String "000" (String "000" (String "000" (String "003" "abc"))); String "000" (String "000" (String "000" (String "001" "z")))]
    [String "000" (String "000" ""); String "000" (String "003" "a"); "bc"; String "000" (String "000" (String "000" (String "001" "z")))] ""
    eq_refl ltac:(repeat constructor; discriminate) eq_refl) as (rest & E & _). by exists rest.
Defined.

(** A connection closed before the end of a frame is an error, never a shorter message. *)
Lemma recv_short count chunks : arriving chunks → String.length (flat chunks) < count →
  _recv_exactly count chunks = Err (BrokerError "broker closed the connection mid-frame").
Proof.
  revert count. induction chunks as [|chunk chunks IH]; intros [|count]; try lia; [done|]. intros [Hne Ha]%Forall_cons. cbn [flat foldr _recv_exactly].
  rewrite length_append. intros Hl. rewrite (proj2 (String.eqb_neq _ _) Hne), (proj2 (Nat.leb_le _ _)) by lia. by rewrite IH by (done || unfold flat; lia).
Qed.
