(* ===== verification/Broker.v ===== *)
(** * The acquisition broker: [infra/broker/sec_broker.py]

    One process owns the client and serves requests to fetch bytes or to stream a document of an
    accession to a file.  A handler is a program of calls ([Transport]).  [unquote] and the texts of
    exceptions are parameters; the staging directory exists and can be written. *)
From stdpp Require Import gmap.
From Stdlib Require Import Ascii.
From S2P Require Import Prelude Numerals Serialization PyJson Url Identity Partitions SecUrls Binary64 Rounding RateLimiter HttpCache Transport HttpClient Pacing HttpStream.
#[local] Open Scope Z_scope.

Section validator.
Context (unquote : string → string).

(** [Cik.from_raw] and [AccessionNumber.from_any] of the fields of a request. *)
Definition request_cik (v : json) : result Z :=
  match v with JStr s => cik_from_raw s | JInt z => Cik z | _ => Err (ValueError "invalid accession CIK") end.
Definition request_accession (v : json) : result string :=
  match v with JStr s => accession_from_any s | _ => Err (ValueError "invalid accession number") end.
(** The checks of [validate] after [validate_archive_url], on the path. *)
Definition outside (directory path : string) : bool :=
  match strip_prefix directory path with
  | None => true
  | Some rest => String.eqb rest "" || existsb (λ s, String.eqb s "." || String.eqb s "..") (split_slash path)
  end.
Definition validate_in (cik : Z) (accession url : string) : result unit :=
  _ ← validate_archive_url url accession (Some cik) DEFAULT_ARCHIVE_URL_POLICY;
  parts ← require (urlsplit_full url) (ValueError "malformed URL");
  raise_if (outside (archive_prefix +:+ str_of_int cik +:+ "/" +:+ normalized accession +:+ "/") (unquote (up_path parts)))
    (ValueError "unsafe redirect outside accession directory").
Definition _accession_redirect_validator (archive_cik accession_number : json) : result (string → result unit) :=
  cik ← request_cik archive_cik;
  accession ← request_accession accession_number;
  Ok (validate_in cik accession).

(** What the validator of an accession accepts: a document of its directory, the CIK spelled
    without leading zeros. *)
Definition in_directory (cik : Z) (accession u : string) : Prop :=
  ∃ a, confined u accession cik a ∧ archive_cik a = str_of_int cik.

Context (Hunquote : ∀ s, has_char "%"%char s = false → unquote s = s).

Lemma safe_no_percent d : safe_document d → has_char "%"%char d = false.
Proof using Type. intros (_ & _ & _ & H). by destruct (document_chars_inv d H) as (_ & _ & _ & ? & _). Qed.
Lemma confined_path u accession cik a : confined u accession cik a →
  ∃ parts identity document, urlsplit_full u = Some parts ∧ accession_from_any accession = Ok identity ∧
    up_path parts = archive_path (archive_cik a) (normalized identity) document ∧ safe_document document ∧
    string_forallb is_digit (archive_cik a) = true ∧ archive_cik a ≠ "".
Proof using Type.
  intros Hc. pose proof (confined_accepted _ _ _ _ Hc) as Hv. destruct Hc as (identity & digits & document & Hid & Hcik & Hstrip & D1 & N1 & Hval & Hdoc & Hsec & ->).
  unfold validate_archive_url in Hv. apply bind_Ok in Hv as (_ & _ & Hv). apply bind_Ok in Hv as (_ & [[Hq Hf]%orb_false_iff Hctl%negb_false_iff]%raise_if_Ok%orb_false_iff & _).
  apply sec_url_split in Hsec as (parts & Hp & _ & Hpath); [|done..|by eexists]. exists parts, identity, document. by cbn [archive_cik].
Qed.

Lemma validate_in_directory cik accession u :
  is_hyphenated_accession accession = true → validate_in cik accession u = Ok tt ↔ in_directory cik accession u.
Proof using Hunquote.
  intros Hh.
  pose proof (accession_of_hyphenated _ Hh) as Hacc. destruct (identity_digits _ _ Hacc) as [DA LA].
  set (directory := archive_prefix +:+ str_of_int cik +:+ "/" +:+ normalized accession +:+ "/").
  assert (∀ digits document, archive_path digits (normalized accession) document = archive_prefix +:+ (digits +:+ String "/" (normalized accession +:+ String "/" document))) as Epath by done.
  assert (∀ d, directory +:+ d = archive_path (str_of_int cik) (normalized accession) d) as Edir.
  { intros d. unfold directory, archive_path. by rewrite !append_assoc. }
  unfold validate_in. fold directory. split.
  - intros (a & Hv%accepted_confined & H)%bind_Ok. apply bind_Ok in H as (parts & Hparts%require_Ok & Hout%raise_if_Ok).
    exists a. split; [done|]. destruct (confined_path _ _ _ _ Hv) as (parts' & identity & document & Hp' & Hid & Hpath & Hdoc & D1 & N1).
    rewrite Hacc in Hid. injection Hid as <-. rewrite Hparts in Hp'. injection Hp' as <-. rewrite Hpath, Hunquote in Hout.
    + unfold outside in Hout. destruct (strip_prefix directory _) as [rest|] eqn:Hs; [|done]. apply strip_prefix_spec in Hs.
      rewrite Edir, !Epath in Hs. apply (inj (String.append archive_prefix)) in Hs. destruct Hv as (_ & digits & _ & _ & Hcik & _).
      apply slash_split in Hs as [E _]; [done|by apply digits_slash_free|]. apply digits_slash_free. unfold str_of_int. rewrite (proj2 (Z.ltb_ge _ _)) by lia. apply pretty_N_digits.
    + unfold archive_path. rewrite !has_char_app, !(digits_no_char _ (archive_cik a)), !(digits_no_char _ (normalized accession)), (safe_no_percent _ Hdoc) by done. done.
  - intros (a & Hconf & Ecik). rewrite (confined_accepted _ _ _ _ Hconf). cbn [mbind result_bind].
    destruct (confined_path _ _ _ _ Hconf) as (parts & identity & document & -> & Hid & Hpath & Hdoc & D1 & N1). cbn [require mbind result_bind].
    rewrite Hacc in Hid. injection Hid as <-. rewrite Hpath, Ecik in *. rewrite Hunquote.
    + unfold raise_if, outside. assert (strip_prefix directory (archive_path (str_of_int cik) (normalized accession) document) = Some document) as ->
        by (apply strip_prefix_spec; by rewrite Edir).
      assert (unsafe_path (archive_path (str_of_int cik) (normalized accession) document) = false) as Hu.
      { destruct Hdoc as (Hs & Hd & Hdots & Hch). apply unsafe_archive_path; try done; [by intros E; rewrite E in LA|].
        destruct (document_chars_inv document Hch) as (_ & _ & _ & ? & ? & _). done. }
      unfold unsafe_path in Hu. apply orb_false_iff in Hu as [_ ->]. destruct document as [|c d]; [by destruct Hdoc|done].
    + unfold archive_path. rewrite !has_char_app, !(digits_no_char _ (str_of_int cik)), !(digits_no_char _ (normalized accession)), (safe_no_percent _ Hdoc) by done. done.
Qed.
Lemma request_accession_hyphenated v accession : request_accession v = Ok accession → is_hyphenated_accession accession = true.
Proof using Type. destruct v; try done. apply accession_from_any_hyphenated. Qed.

(** The validator of a stream accepts exactly the documents of the accession's directory, with
    the CIK in canonical form; undoing percent escapes after the checks changes nothing. *)
Theorem redirect_validator_confines archive_cik_ accession_number cik accession u :
  request_cik archive_cik_ = Ok cik → request_accession accession_number = Ok accession →
  ∃ validate, _accession_redirect_validator archive_cik_ accession_number = Ok validate ∧
    (validate u = Ok tt ↔ in_directory cik accession u).
Proof using Hunquote.
  intros Hc Ha. unfold _accession_redirect_validator. rewrite Hc, Ha. cbn [mbind result_bind]. eexists. split; [reflexivity|].
  eapply validate_in_directory, request_accession_hyphenated, Ha.
Qed.
End validator.

(** ** Fetching bytes *)

(** [try: p except ...: handler] *)
Fixpoint catch {A} (p : io A) (handler : http_exn → io A) : io A :=
  match p with Ret a => Ret a | Raise e => handler e | Next o k => Next o (λ x, catch (k x) handler) end.

Record fetch_result := mkFetch {
  fr_ok : bool; fr_error : option string; fr_error_code : option string; fr_status_code : option Z;
  fr_payload : string; fr_cache_source : option string;
}.
Definition HEALTHCHECK_URL : string := "healthcheck://broker".
(** The code and the status of the errors of the client; [None] for any other exception. *)
Definition error_code (e : http_exn) : option (string * option Z) :=
  match e with
  | ResponseTooLargeError _ _ s => Some ("response_too_large", s)
  | PermanentHttpError _ _ s => Some (if bool_decide (s = Some 404) then "http_not_found" else "http_error", s)
  | RetryExhausted _ _ s => Some ("http_error", s)
  | Raised _ => None
  end.

(** [type(exc).__name__] *)
Definition exn_name (e : exn) : string :=
  match e with
  | ValueError _ => "ValueError" | TypeError _ => "TypeError" | KeyError _ => "KeyError" | RuntimeError _ => "RuntimeError"
  | RunStateError _ => "RunStateError" | RunLockError _ => "RunLockError" | ManifestMismatchError _ => "ManifestMismatchError"
  | AttemptValidationError _ => "AttemptValidationError" | AttributeError _ => "AttributeError" | OverflowError => "OverflowError"
  | FileNotFoundError => "FileNotFoundError" | ArrowInvalid => "ArrowInvalid" | ConversionException => "ConversionException"
  | ConstraintException => "ConstraintException" | CatalogException => "CatalogException" | BinderException => "BinderException"
  | CompactionParityError => "CompactionParityError" | FileExistsError => "FileExistsError" | StaleParentError => "StaleParentError"
  | CycleDetectedError => "CycleDetectedError" | BrokenLineageError _ => "BrokenLineageError" | DigestMismatchError => "DigestMismatchError"
  | IntegrityError => "IntegrityError" | OperationalError => "OperationalError" | InterfaceError => "InterfaceError"
  end.
Definition type_name (e : http_exn) : string :=
  match e with
  | PermanentHttpError _ _ _ => "PermanentHttpError" | ResponseTooLargeError _ _ _ => "ResponseTooLargeError"
  | RetryExhausted _ _ _ => "RetryExhausted" | Raised e => exn_name e
  end.
Lemma type_name_nonempty e : type_name e ≠ "".
Proof. by destruct e as [| | |[]]. Qed.

Section broker.
Context (sha256_hexdigest : string → string) (py_float : string → option float) (urljoin : string → string → string).
Context (unquote : string → string) (exn_text : exn → string).
Context (client : SecHttpClient) (default_root : string).

(** [str(exc) or type(exc).__name__] *)
Definition text_of (e : http_exn) : string :=
  let text := match e with Raised e => exn_text e | e => str_of_exn e end in
  if String.eqb text "" then type_name e else text.
Lemma text_of_nonempty e : text_of e ≠ "".
Proof using Type. unfold text_of. case_match eqn:E; [apply type_name_nonempty|by apply String.eqb_neq]. Qed.
Definition fetched_bytes (payload cache_source : string) : fetch_result := mkFetch true None None None payload (Some cache_source).
Definition fetch_failed (e : http_exn) : fetch_result :=
  mkFetch false (Some (text_of e)) (fst <$> error_code e) (match error_code e with Some (_, s) => s | None => None end) "" None.
Definition fetch (archive_url : string) (force_refresh : bool) : io fetch_result :=
  if String.eqb archive_url HEALTHCHECK_URL then Ret (mkFetch true None None None "" None) else
  peeked ← (if force_refresh then Ret None else peek_cache client archive_url);
  match peeked with
  | Some payload => Ret (fetched_bytes payload "http_cache")
  | None =>
      catch (payload ← get_bytes sha256_hexdigest py_float client archive_url "bytes" false force_refresh; Ret (fetched_bytes payload "network"))
        (λ e, Ret (fetch_failed e))
  end.

(** ** Streaming to a file *)

(** An answer, without the [request_id] it repeats. *)
Record file_reply := mkReply {
  p_status : string; p_path : option string; p_sha256 : option string; p_size : Z; p_requested_url : string; p_final_url : option string;
  p_status_code : option Z; p_content_type : option string; p_content_encoding : option string; p_error_code : option string; p_retryable : option bool;
}.
Definition code_name (code : stream_code) : string :=
  match code with
  | http_not_found => "http_not_found" | http_error => "http_error" | timeout => "timeout" | transport_failed => "transport_error"
  | response_too_large => "response_too_large" | unsafe_redirect => "unsafe_redirect" | empty_body => "empty_body"
  end.
Definition failed (url code : string) (retryable : bool) (status_code : option Z) : file_reply :=
  mkReply "failed" None None 0 url None status_code None None (Some code) (Some retryable).
Definition allowed_keys : list string :=
  ["operation"; "request_id"; "url"; "max_response_bytes"; "accession_cik"; "accession_number"; "staging_root"].
Definition field (request : list (string * json)) (k : string) : json := default JNull (assoc k request).
(** The directory for the file, when the request names none or an absolute path. *)
Definition staging (v : json) : option string :=
  match v with
  | JNull => Some default_root
  | JStr s => match s with String "/" _ => Some s | _ => None end
  | _ => None
  end.

Section file.
Context (url destination : string) (limit : Z) (validate : string → result unit).
(** What is answered, and whether the file is kept. *)
Definition handled (streamed : StreamResult) : io (file_reply * bool) :=
  match streamed with
  | StreamFailure code retryable status _ => Ret (failed url (code_name code) retryable status, false)
  | StreamedResponse status _ final_url sha size content_type content_encoding _ =>
      existing ← call (FileSize destination);
      if negb (is_sha256_hex_digest sha) || (size <=? 0) || (limit <? size) || negb (bool_decide (existing = Some size))
      then Ret (failed url "transport_error" false None, false)
      else match validate final_url with
           | Err e => Raise (Raised e)
           | Ok _ => Ret (mkReply "ok" (Some destination) (Some sha) size url (Some final_url) (Some status) content_type content_encoding None None, true)
           end
  end.
Definition on_exception (e : http_exn) : io (file_reply * bool) :=
  match e, error_code e with
  | RetryExhausted _ _ s, _ => Ret (failed url "http_error" true s, false)
  | _, Some (code, s) => Ret (failed url code false s, false)
  | Raised (ValueError _), _ => Ret (failed url "unsafe_redirect" false None, false)
  | Raised _, _ => Ret (failed url "transport_error" true None, false)
  | _, None => Ret (failed url "transport_error" true None, false)
  end.
Definition validator_text (u : string) : option string := match validate u with Ok _ => None | Err e => Some (exn_text e) end.
Definition streamed_reply : io file_reply :=
  reply ← catch (streamed ← stream_to_file sha256_hexdigest py_float urljoin client url destination limit validator_text; handled streamed) on_exception;
  _ ← (if reply.2 : bool then Ret tt else call (Unlink destination));
  Ret reply.1.
End file.

Definition _stream_file (request : list (string * json)) : io file_reply :=
  let invalid (url code : string) : io file_reply := Ret (failed url code false None) in
  let url := match field request "url" with JStr s => s | _ => "" end in
  if existsb (λ kv, negb (bool_decide (kv.1 ∈ allowed_keys))) request then invalid url "invalid_request" else
  match field request "request_id", field request "url", field request "max_response_bytes" with
  | JStr (String _ _), JStr url, JInt limit =>
      if limit <=? 0 then invalid url "invalid_request" else
      match _accession_redirect_validator unquote (field request "accession_cik") (field request "accession_number") with
      | Err _ => invalid url "invalid_scope"
      | Ok validate =>
          match validate url with
          | Err _ => invalid url "invalid_scope"
          | Ok _ =>
              match staging (field request "staging_root") with
              | None => invalid url "invalid_path"
              | Some _ => destination ← call Mkstemp; streamed_reply url destination limit validate
              end
          end
      end
  | _, _, _ => invalid url "invalid_request"
  end.
End broker.

(** ** What the handlers promise *)

Section promises.
Context (sha : string → string) (compress : string → string) (decompress : string → option string) (cfg : store_settings).
Context (py_float : string → option float) (urljoin : string → string → string) (unquote : string → string) (exn_text : exn → string).
Context (client : SecHttpClient) (default_root : string).
Abbreviation wp := (wp sha compress decompress cfg).

Lemma catch_wp {A} (p : io A) handler w Q :
  wp p w (λ trace w' r, match r with inl a => Q trace w' (inl a) | inr e => wp (handler e) w' (λ trace', Q (trace ++ trace')) end) → wp (catch p handler) w Q.
Proof using Type. revert w Q. induction p as [a|e|o k IH]; intros w Q; cbn [catch Transport.wp]; [done..|]. intros H i w1 x Hh. apply IH. exact (H i w1 x Hh). Qed.
Lemma wp_any {A} (p : io A) w : wp p w (λ _ _ _, True).
Proof using Type. revert w. induction p as [a|e|o k IH]; intros w; cbn [Transport.wp]; [done..|]. intros i w1 x _. apply IH. Qed.

(** A cached payload that cannot be decompressed. *)
Definition undecodable (url : string) (t : tables) : Prop := _cache client = true ∧ ∃ now e, get sha decompress url now t = Err e.

Lemma wp_peek url w (Q : _ → _ → option string + http_exn → Prop) :
  (∀ trace w' cached, Q trace w' (inl cached)) → (∀ trace e, undecodable url (w_tables w) → Q trace w (inr e)) →
  wp (peek_cache client url) w Q.
Proof using Type.
  intros H1 H2. unfold peek_cache, _cache_get, undecodable in *. destruct (_cache client); [|apply H1].
  apply wp_bind, wp_bind. intros i w1 x Hh. destruct i as [| | | |now| |]; try done. cbn [handle] in Hh. injection Hh as <- <-. cbn [Transport.wp].
  destruct (get sha decompress url now (w_tables w)) as [[payload|]|e] eqn:Hg; cbn [lift Transport.wp].
  - intros i w1 [] _. apply H1.
  - apply H1.
  - apply H2. split; [done|]. by exists now, e.
Qed.

(** C29: The broker answers every fetch, whatever the client raises: a failure has a text, never
    empty, and no payload.  Only a cached payload that cannot be decompressed escapes, since the cache is looked
    at outside the handlers. *)
Theorem fetch_answers url force w trace w' r :
  evals sha compress decompress cfg (fetch sha py_float exn_text client url force) w trace w' r →
  (∃ res, r = inl res ∧ (fr_ok res = false → fr_payload res = "" ∧ ∃ text, fr_error res = Some text ∧ text ≠ "")) ∨
  (∃ e, r = inr e ∧ force = false ∧ undecodable url (w_tables w)).
Proof using Type.
  revert trace w' r. apply (wp_evals sha compress decompress cfg). unfold fetch. destruct (String.eqb _ _); [left; by eexists|].
  assert (∀ w', wp (catch (payload ← get_bytes sha py_float client url "bytes" false force; Ret (fetched_bytes payload "network"))
    (λ e, Ret (fetch_failed exn_text e))) w' (λ _ _ r, ∃ res, r = inl res ∧ (fr_ok res = false → fr_payload res = "" ∧ ∃ text, fr_error res = Some text ∧ text ≠ ""))) as Hfetch.
  { intros w'. apply catch_wp, wp_bind. eapply wp_mono; [|apply wp_any]. intros tr w2 [payload|e] _; cbn [Transport.wp]; [by eexists|].
    eexists. split; [reflexivity|]. intros _. split; [done|]. eexists. split; [reflexivity|]. apply text_of_nonempty. }
  destruct force.
  { eapply wp_mono; [|apply Hfetch]. by left. }
  apply wp_bind, wp_peek.
  - intros t1 w1 [payload|]; [left; by eexists|]. eapply wp_mono; [|apply Hfetch]. by left.
  - intros t1 e He. right. by exists e.
Qed.

(** *** Streams *)

Lemma catch_asks {A} P n (p : io A) handler : asks P n p → (∀ e, asks P 0 (handler e)) → asks P n (catch p handler).
Proof using Type.
  intros Hp Hh. revert n Hp. induction p as [a|e|o k IH]; intros n; cbn [asks catch]; [done| |].
  - intros _. eapply asks_le; [|apply Hh]. lia.
  - destruct o; try (intros Hk x; by apply IH); (intros [HP (m & -> & Hk)]; split; [done|]; exists m; split; [done|]; intros x; by apply IH).
Qed.
Lemma asks_mono {A} (P P' : string → Prop) n (p : io A) : (∀ u, P u → P' u) → asks P n p → asks P' n p.
Proof using Type.
  intros HP. revert n. induction p as [a|e|o k IH]; intros n; cbn [asks]; [done..|].
  destruct o; try (intros Hk x; by apply IH); (intros [HPu (m & -> & Hk)]; split; [auto|]; exists m; split; [done|]; intros x; by apply IH).
Qed.
Lemma handled_asks P url destination limit validate streamed : asks P 0 (handled url destination limit validate streamed).
Proof using Type.
  destruct streamed; [|done]. cbn [handled mbind io_bind call asks]. intros existing.
  destruct (_ || _); [exact I|]. destruct (validate _); exact I.
Qed.
Lemma on_exception_asks P url e : asks P 0 (on_exception url e).
Proof using Type. unfold on_exception. destruct e as [| | |e]; cbn [error_code]; try done. by destruct e. Qed.

Lemma streamed_reply_asks url destination limit (validate : string → result unit) :
  validate url = Ok tt →
  asks (λ u, validate u = Ok tt) (Z.to_nat (max_retries (retry_policy client) + 1) * DEFAULT_REDIRECT_LIMIT)
    (streamed_reply sha py_float urljoin exn_text client url destination limit validate).
Proof using Type.
  intros Hurl. unfold streamed_reply. change (?n * ?m)%nat with (n * m)%nat.
  replace (Z.to_nat (max_retries (retry_policy client) + 1) * DEFAULT_REDIRECT_LIMIT)%nat
    with (Z.to_nat (max_retries (retry_policy client) + 1) * DEFAULT_REDIRECT_LIMIT + 0)%nat by lia.
  apply asks_bind; [|by intros [reply []]]. apply catch_asks; [|intros e; apply on_exception_asks].
  replace (Z.to_nat (max_retries (retry_policy client) + 1) * DEFAULT_REDIRECT_LIMIT)%nat
    with (Z.to_nat (max_retries (retry_policy client) + 1) * DEFAULT_REDIRECT_LIMIT + 0)%nat by lia.
  apply asks_bind; [|intros streamed; apply handled_asks]. eapply asks_mono; [|apply stream_asks].
  intros u [-> |Hu]; [done|]. unfold validator_text in Hu. destruct (validate u) as [[]|]; done.
Qed.

(** The answer that describes the response [r] of [current] to a request for [url], its body in
    [path]; whether it is given; and any other. *)
Definition file_answer (url path current : string) (r : stream_response) : file_reply :=
  mkReply "ok" (Some path) (Some (sha (whole_body r))) (Z.of_nat (String.length (whole_body r))) url (Some (url_or (s_url r) current)) (Some 200)
    (s_headers r "Content-Type") (s_headers r "Content-Encoding") None None.
Definition acceptable (scope : string → Prop) (current : string) (r : stream_response) : Prop :=
  is_sha256_hex_digest (sha (whole_body r)) = true ∧ scope (url_or (s_url r) current).
Definition refused (reply : file_reply) : Prop := p_status reply = "failed" ∧ p_path reply = None.
(** The answer and the files after it, from the responses that were opened; [scope] says which
    final URLs are in order. *)
Definition answered_files (scope : string → Prop) (url : string) (limit : Z) (os : list (string * (transport_error + stream_response)))
    (files files' : gmap string string) (reply : file_reply) : Prop :=
  (∃ current r path, to_deliver limit os = Some (current, r) ∧ acceptable scope current r ∧ files !! path = None ∧
     files' = <[path := whole_body r]> files ∧ reply = file_answer url path current r) ∨
  (∀ current r, to_deliver limit os = Some (current, r) → ¬ acceptable scope current r) ∧ files' = files ∧ refused reply.

Lemma on_exception_reply url e w : wp (on_exception url e) w (λ trace w' r, trace = [] ∧ w' = w ∧ ∃ reply, r = inl (reply, false) ∧ refused reply).
Proof using Type.
  unfold on_exception. destruct e as [| | |e]; cbn [error_code]; try (split; [done|]; split; [done|]; eexists; split; [reflexivity|done]).
  destruct e; (split; [done|]; split; [done|]; eexists; split; [reflexivity|done]).
Qed.
(** The handler of a stream's result: the answer, whether the file is kept, and the file. *)
Definition handled_ok (scope : string → Prop) (url destination : string) (limit : Z) (os : list (string * (transport_error + stream_response)))
    (files files' : gmap string string) (res : (file_reply * bool) + http_exn) : Prop :=
  ∃ reply (keep : bool) content, res = inl (reply, keep) ∧ files' = <[destination := content]> files ∧
    if keep then ∃ current r, to_deliver limit os = Some (current, r) ∧ acceptable scope current r ∧ content = whole_body r ∧
                   reply = file_answer url destination current r
    else refused reply ∧ ∀ current r, to_deliver limit os = Some (current, r) → ¬ acceptable scope current r.
Lemma to_deliver_limit limit os current r : to_deliver limit os = Some (current, r) → 0 < Z.of_nat (String.length (whole_body r)) <= limit.
Proof using Type.
  unfold to_deliver. destruct (last os) as [[? [|r']]|]; [done| |done]. destruct (deliverable limit r') eqn:Hd; [|done]. intros [= <- <-].
  unfold deliverable in Hd. boolprop. lia.
Qed.
Lemma handled_wp url destination limit validate streamed os files w :
  delivered sha url destination limit os (<[destination := ""]> files) (w_files w) (inl streamed) →
  wp (catch (handled url destination limit validate streamed) (on_exception url)) w
    (λ _ w' res, handled_ok (λ u, validate u = Ok tt) url destination limit os files (w_files w') res).
Proof using Type.
  unfold delivered, delivered_once. destruct (to_deliver limit os) as [[current r]|] eqn:Hserved.
  2:{ intros [Ew Hn]. destruct streamed as [|code retryable status detail]; [done|]. eexists _, false, "". split; [reflexivity|]. split; [exact Ew|].
      split; [done|]. by rewrite Hserved. }
  intros [[= ->] Ew]. rewrite insert_insert_eq in Ew. pose proof (to_deliver_limit _ _ _ _ Hserved) as Hlim. unfold description. cbn [handled].
  apply catch_wp, wp_call. intros i w2 x Hh. destruct i; try done. cbn [handle] in Hh. injection Hh as <- <-.
  rewrite Ew, lookup_insert_eq. cbn [fmap option_fmap option_map]. rewrite bool_decide_true by done.
  rewrite (proj2 (Z.leb_gt _ _)), (proj2 (Z.ltb_ge _ _)) by lia. rewrite !orb_false_r.
  assert (Hother : ¬ acceptable (λ u, validate u = Ok tt) current r → ∀ reply, refused reply →
    handled_ok (λ u, validate u = Ok tt) url destination limit os files (w_files w) (inl (reply, false))).
  { intros Hn reply Hr. exists reply, false, (whole_body r). split; [done|]. split; [exact Ew|]. split; [done|]. intros ? ? [= <- <-]%(eq_trans (eq_sym Hserved)). exact Hn. }
  destruct (is_sha256_hex_digest (sha (whole_body r))) eqn:Hex; cbn [negb].
  2:{ cbn [Transport.wp]. apply Hother; [intros [? _]; congruence|done]. }
  destruct (validate (url_or (s_url r) current)) as [[]|e] eqn:Hv; cbn [Transport.wp].
  - eexists _, true, (whole_body r). split; [reflexivity|]. split; [exact Ew|]. exists current, r. split_and!; [done..|reflexivity].
  - eapply wp_mono; [|apply on_exception_reply]. intros tr w3 res (_ & -> & reply & -> & Hr).
    apply Hother; [intros [_ ?]; congruence|done].
Qed.
Lemma catch_bind_wp {A B} (p : io A) (f : A → io B) handler w Q :
  wp p w (λ trace w' r, match r with inl a => wp (catch (f a) handler) w' (λ trace', Q (trace ++ trace'))
                                   | inr e => wp (handler e) w' (λ trace', Q (trace ++ trace')) end) → wp (catch (p ≫= f) handler) w Q.
Proof using Type.
  revert w Q. induction p as [a|e|o k IH]; intros w Q; cbn [catch mbind io_bind Transport.wp]; [done..|].
  intros H i w1 x Hh. apply IH. exact (H i w1 x Hh).
Qed.
Lemma handled_tame url destination limit validate streamed : tame (catch (handled url destination limit validate streamed) (on_exception url)).
Proof using Type.
  assert (Hexn : ∀ e, tame (on_exception url e)) by (intros e; unfold on_exception; destruct e as [| | |e']; cbn [error_code]; try done; by destruct e').
  destruct streamed; cbn [handled mbind io_bind call catch tame]; [|done]. split; [done|]. intros x. destruct (_ || _); [done|]. destruct (validate _); cbn [catch]; [done|apply Hexn].
Qed.
Lemma streamed_reply_files url destination limit validate files w :
  w_files w = <[destination := ""]> files → files !! destination = None →
  wp (streamed_reply sha py_float urljoin exn_text client url destination limit validate) w
    (λ trace w' r, ∃ reply, r = inl reply ∧ answered_files (λ u, validate u = Ok tt) url limit (opened trace) files (w_files w') reply).
Proof using Type.
  intros Hw Hn. unfold streamed_reply. apply wp_bind.
  apply (wp_mono _ _ _ _ _ _ (λ trace w' res, handled_ok (λ u, validate u = Ok tt) url destination limit (opened trace) files (w_files w') res)).
  { intros tr w' r (reply & keep & content & -> & Hfiles & Hr). cbn [snd fst]. destruct keep.
    - cbn [mbind io_bind Transport.wp]. exists reply. split; [done|]. rewrite app_nil_r. left. destruct Hr as (current & r & Hs & Ha & -> & ->).
      exists current, r, destination. by split_and!.
    - apply wp_bind. eapply wp_mono; [|apply wp_both; [by apply tame_opened|eapply (unlink_wp _ _ _ _ destination content files w' (λ _ w'' r, w_files w'' = files ∧ r = inl tt)); [done..|by intros]]].
      intros tr' w'' r [Ho [Ew ->]]. cbn [Transport.wp].
      exists reply. split; [done|]. rewrite app_nil_r, opened_app, Ho, app_nil_r. right. by destruct Hr. }
  apply catch_bind_wp. eapply wp_mono; [|apply stream_delivers].
  intros tr w1 [streamed|e] Hd; rewrite Hw in Hd.
  - eapply wp_mono; [|apply wp_both; [apply tame_opened, handled_tame|by eapply handled_wp]]. intros tr' w' r [Ho Hr]. by rewrite opened_app, Ho, app_nil_r.
  - unfold delivered, delivered_once, stored in Hd. destruct (to_deliver limit (opened tr)) as [[current r]|] eqn:Hserved; [by destruct Hd|].
    eapply wp_mono; [|apply on_exception_reply]. intros tr' w' r (-> & -> & reply & -> & Hr). rewrite app_nil_r.
    eexists _, false, "". split; [reflexivity|]. split; [apply Hd|]. split; [done|]. by rewrite Hserved.
Qed.

Context (Hunquote : ∀ s, has_char "%"%char s = false → unquote s = s).

(** The documents a request may lead to, and the size it allows. *)
Definition in_scope (request : list (string * json)) (u : string) : Prop :=
  ∃ cik accession, request_cik (field request "accession_cik") = Ok cik ∧ request_accession (field request "accession_number") = Ok accession ∧
    in_directory cik accession u.
Definition request_url (request : list (string * json)) : string := match field request "url" with JStr url => url | _ => "" end.
Definition size_limit (request : list (string * json)) : Z := match field request "max_response_bytes" with JInt limit => limit | _ => 0 end.
Definition request_budget : nat := Z.to_nat (max_retries (retry_policy client) + 1) * DEFAULT_REDIRECT_LIMIT.

Lemma validator_scope request validate u :
  _accession_redirect_validator unquote (field request "accession_cik") (field request "accession_number") = Ok validate →
  validate u = Ok tt ↔ in_scope request u.
Proof using Hunquote.
  unfold _accession_redirect_validator. intros (cik & Hc & (accession & Ha & [= <-])%bind_Ok)%bind_Ok.
  rewrite (validate_in_directory unquote Hunquote) by (by eapply request_accession_hyphenated). unfold in_scope. split.
  - intros Hd. exists cik, accession. done.
  - intros (cik' & accession' & Hc' & Ha' & Hd). congruence.
Qed.
Lemma answered_files_iff (scope scope' : string → Prop) url limit os files files' reply :
  (∀ u, scope u ↔ scope' u) → answered_files scope url limit os files files' reply → answered_files scope' url limit os files files' reply.
Proof using Type.
  intros H. unfold answered_files, acceptable. setoid_rewrite H. done.
Qed.

(** A request that is not refused: its stream begins with a file of its own. *)
Lemma stream_file_cases request :
  (∃ url code, _stream_file sha py_float urljoin unquote exn_text client default_root request = Ret (failed url code false None)) ∨
  (∃ validate, let url := request_url request in
     _stream_file sha py_float urljoin unquote exn_text client default_root request =
     (destination ← call Mkstemp; streamed_reply sha py_float urljoin exn_text client url destination (size_limit request) validate) ∧
     validate url = Ok tt ∧
     _accession_redirect_validator unquote (field request "accession_cik") (field request "accession_number") = Ok validate).
Proof using Type.
  unfold _stream_file, size_limit, request_url. destruct (existsb _ request); [left; by eexists _, _|].
  destruct (field request "request_id") as [| | |[|c id]| |]; try (left; by eexists _, _).
  destruct (field request "url") as [| | |url| |]; try (left; by eexists _, _).
  destruct (field request "max_response_bytes") as [| |limit| | |]; try (left; by eexists _, _).
  destruct (limit <=? 0); [left; by eexists _, _|].
  destruct (_accession_redirect_validator _ _ _) as [validate|e]; [|left; by eexists _, _].
  destruct (validate url) as [[]|e] eqn:Hv; [|left; by eexists _, _].
  destruct (staging _ _); [|left; by eexists _, _]. right. by exists validate.
Qed.
Lemma stream_file_asks request : asks (in_scope request) request_budget (_stream_file sha py_float urljoin unquote exn_text client default_root request).
Proof using Hunquote.
  destruct (stream_file_cases request) as [(url & code & ->)|(validate & -> & Hurl & Hv)]; [exact I|].
  cbn [mbind io_bind call asks]. intros destination. eapply asks_mono; [|by apply streamed_reply_asks]. intros u. by apply validator_scope.
Qed.
Lemma stream_file_files request w :
  wp (_stream_file sha py_float urljoin unquote exn_text client default_root request) w
    (λ trace w' r, ∃ reply, r = inl reply ∧
       answered_files (in_scope request) (request_url request) (size_limit request) (opened trace) (w_files w) (w_files w') reply).
Proof using Hunquote.
  destruct (stream_file_cases request) as [(url & code & ->)|(validate & -> & Hurl & Hv)].
  { eexists. split; [reflexivity|]. by right. }
  apply wp_call. intros i w1 destination Hh. destruct i; try done. cbn [handle] in Hh.
  destruct (w_files w !! path) eqn:Hn; [done|]. injection Hh as <- <-.
  eapply wp_mono; [|by apply (streamed_reply_files (request_url request) path (size_limit request) validate (w_files w))].
  intros tr w' r (reply & -> & Hr). exists reply. split; [done|]. eapply answered_files_iff; [|exact Hr]. intros u. by apply validator_scope.
Qed.

(** C7: Whatever a request to stream asks for, it is answered, never more is requested than retries and
    redirects allow, and every URL requested is a document of the directory of the accession it names.
    When the last response opened is one to deliver (of status 200, arrived to its end, not empty,
    within the limit), its URL is such a document too and its digest is one, a new file holds its
    chunks, joined, and the answer describes it; otherwise the answer says it failed and every file
    is as it was. *)
Theorem streamed_files_are_confined request w trace w' r :
  evals sha compress decompress cfg (_stream_file sha py_float urljoin unquote exn_text client default_root request) w trace w' r →
  Forall (in_scope request) (requested trace) ∧ (length (requested trace) <= request_budget)%nat ∧
  ∃ reply, r = inl reply ∧
    answered_files (in_scope request) (request_url request) (size_limit request) (opened trace) (w_files w) (w_files w') reply.
Proof using Hunquote.
  intros He. destruct (asks_evals _ _ _ _ _ _ _ _ _ _ _ (stream_file_asks request) He) as [H1 H2]. split; [done|]. split; [done|].
  exact (proj1 (wp_evals _ _ _ _ _ _ _) (stream_file_files request w) _ _ _ He).
Qed.
End promises.

(** ** Examples *)

Definition demo_sha (content : string) : string := "9f86d081884c7d659a2feaa0c55ad015a3bf4f1b2b0b822cd15d6c15b0f00a08".
Definition demo_text (e : exn) : string := "error".
Definition next_document (base location : string) : string := archives_url 320193 (normalized "0000320193-23-000106") location.
Definition demo_request : list (string * json) :=
  [("operation", JStr "stream_to_file"); ("request_id", JStr "1"); ("url", JStr demo_document); ("max_response_bytes", JInt 10);
   ("accession_cik", JInt 320193); ("accession_number", JStr "0000320193-23-000106"); ("staging_root", JNull)].
(** A redirect in the directory of the accession, then the body in two chunks. *)
Definition served_file :=
  play demo_sha id Some demo_store (_stream_file demo_sha no_float next_document id demo_text demo_client "staging" demo_request)
    [Named "staging/sec-stream-1.part"; Silent; Tick (seconds 6); Tick (seconds 6); Silent; Opened (inr (mkStream 302 moved None [] None));
     Tick (seconds 6); Silent; Tick (seconds 6); Tick (seconds 7); Silent; Opened (inr (mkStream 200 no_headers None ["<ht"; "ml>"] None));
     Named "staging/.sec-stream-2.tmp"; Silent; Silent; Tick (seconds 8); Silent; Silent; Silent; Silent] demo_world.
Definition served_reply : file_reply :=
  mkReply "ok" (Some "staging/sec-stream-1.part") (Some (demo_sha "")) 6 demo_document (Some (next_document "" "b.htm")) (Some 200) None None None None.
Lemma served_ends : served_file = Some (end_trace served_file, end_world served_file, inl served_reply).
Proof. vm_compute. reflexivity. Qed.

Lemma redirect_validator_confines_witness :
  ∃ validate, _accession_redirect_validator id (JInt 320193) (JStr "0000320193-23-000106") = Ok validate ∧
    (validate demo_document = Ok tt ↔ in_directory 320193 "0000320193-23-000106" demo_document).
Proof. exact (redirect_validator_confines id (λ _ _, eq_refl) (JInt 320193) (JStr "0000320193-23-000106") 320193 "0000320193-23-000106" demo_document eq_refl eq_refl). Defined.

Lemma streamed_files_are_confined_witness :
  requested (end_trace served_file) = [demo_document; next_document "" "b.htm"] ∧
  Forall (in_scope demo_request) (requested (end_trace served_file)).
Proof.
  split; [vm_compute; reflexivity|].
  exact (proj1 (streamed_files_are_confined demo_sha id Some demo_store no_float next_document id demo_text demo_client "staging" (λ _ _, eq_refl)
    demo_request demo_world (end_trace served_file) (end_world served_file) (inl served_reply) (play_evals _ _ _ _ _ _ _ _ _ _ served_ends))).
Defined.

(** A document that is not there. *)
Definition refused_fetch :=
  play demo_sha id Some demo_store (fetch demo_sha no_float demo_text demo_client demo_document false)
    ([Wall 1000; Wall 1000; Silent] ++ attempt_at 6 (inr (mkResp 404 "" None)) ++ [Wall 1000]) demo_world.
Definition refused_result : fetch_result := fetch_failed demo_text (PermanentHttpError demo_document "HTTP 404" (Some 404)).
Lemma refused_ends : refused_fetch = Some (end_trace refused_fetch, end_world refused_fetch, inl refused_result).
Proof. vm_compute. reflexivity. Qed.
Lemma fetch_answers_witness :
  fr_error_code refused_result = Some "http_not_found" ∧
  ((∃ res, @inl fetch_result http_exn refused_result = inl res ∧ (fr_ok res = false → fr_payload res = "" ∧ ∃ text, fr_error res = Some text ∧ text ≠ "")) ∨
   (∃ e, @inl fetch_result http_exn refused_result = inr e ∧ false = false ∧ undecodable demo_sha Some demo_client demo_document (w_tables demo_world))).
Proof.
  split; [vm_compute; reflexivity|].
  exact (fetch_answers demo_sha id Some demo_store no_float demo_text demo_client demo_document false
    demo_world (end_trace refused_fetch) (end_world refused_fetch) (inl refused_result) (play_evals _ _ _ _ _ _ _ _ _ _ refused_ends)).
Defined.
