(* ===== verification/RunStateModels.v ===== *)
(** * Run-state data

    The value types of [pipelines/document_acquisition/models.py] and
    [run_state/models.py].  A SQLite row and the dataclass read from it hold the same
    columns, except that SQLite has no booleans: records with a boolean column are
    parameterised by its type, [Z] in a row and [bool] in the dataclass, and the
    [_from_row] functions are the column-wise [bool(...)].
    [Literal[...]] fields are strings: Python does not enforce them; the tables'
    CHECK constraints do. *)
From S2P Require Import Prelude.

(** Prefixes of the fields: [att_] attempt, [ts_] target state, [out_] outcome,
    [res_] resolution, [seed_] target seed, [os_] operation state, [oa_] operation
    attempt. *)
Record AcquisitionAttempt_ (B : Type) := mkAttempt {
  att_attempt_id : string;
  att_target_id : string;
  att_attempt_number : Z;
  att_attempt_kind : string;
  att_source : string;
  att_requested_url : string;
  att_outcome : string;
  att_retryable : B;
  att_error_code : option string;
  att_http_status : option Z;
  att_final_url : option string;
  att_started_at_utc : string;
  att_finished_at_utc : string;
  att_source_sha256 : option string;
  att_source_byte_size : option Z;
  att_source_body_relative_path : option string;
  att_selected_sha256 : option string;
  att_selected_byte_size : option Z;
  att_selected_body_relative_path : option string;
  att_selected_filename : option string;
}.
Arguments mkAttempt {B}.
Arguments att_attempt_id {B} _.
Arguments att_target_id {B} _.
Arguments att_attempt_number {B} _.
Arguments att_attempt_kind {B} _.
Arguments att_source {B} _.
Arguments att_requested_url {B} _.
Arguments att_outcome {B} _.
Arguments att_retryable {B} _.
Arguments att_error_code {B} _.
Arguments att_http_status {B} _.
Arguments att_final_url {B} _.
Arguments att_started_at_utc {B} _.
Arguments att_finished_at_utc {B} _.
Arguments att_source_sha256 {B} _.
Arguments att_source_byte_size {B} _.
Arguments att_source_body_relative_path {B} _.
Arguments att_selected_sha256 {B} _.
Arguments att_selected_byte_size {B} _.
Arguments att_selected_body_relative_path {B} _.
Arguments att_selected_filename {B} _.
Definition AcquisitionAttempt : Type := AcquisitionAttempt_ bool.
Abbreviation attempt_row := (AcquisitionAttempt_ Z).

Record TargetSlotResolution := mkResolution {
  res_resolution_schema_version : string;
  res_resolution_id : string;
  res_run_id : string;
  res_target_id : string;
  res_target_role : string;
  res_target_type : string;
  res_selector : string;
  res_expected_statutory_type : string;
  res_initial_sequence : option Z;
  res_index_document_type : option string;
  res_index_primary_designation : option bool;
  res_initial_observed_body_type : option string;
  res_screen_kind : string;
  res_screen_result : string;
  res_evaluator_version : option string;
  res_initial_body_sha256 : string;
  res_index_attempt_id : option string;
  res_index_response_sha256 : option string;
  res_index_parser_version : option string;
  res_matching_entry_ids : list string;
  res_selected_sequence : option Z;
  res_selected_retrieval_mode : option string;
  res_selected_url : option string;
  res_result : string;
}.

Record AcquisitionOutcome := mkOutcome {
  out_target_id : string;
  out_source : option string;
  out_status : string;
  out_attempt_count : Z;
  out_last_attempt_id : option string;
  out_error_code : option string;
  out_retryable : bool;
  out_source_sha256 : option string;
  out_source_byte_size : option Z;
  out_source_body_relative_path : option string;
  out_selected_sha256 : option string;
  out_selected_byte_size : option Z;
  out_body_lifecycle : option string;
  out_selected_body_relative_path : option string;
}.

Record AcquisitionStatusCounts := mkCounts {
  asc_target_counts : gmap string Z;
  asc_retryable_failure_count : Z;
  asc_non_retryable_failure_count : Z;
}.

Record RunLockInfo := mkRunLockInfo {
  rli_host : string;
  rli_pid : Z;
  rli_started_at_utc : string;
  rli_owner_token : string;
}.

Record OperationAttempt_ (B : Type) := mkOperationAttempt {
  oa_attempt_id : string;
  oa_operation_id : string;
  oa_attempt_number : Z;
  oa_outcome : string;
  oa_retryable : B;
  oa_error_code : option string;
  oa_started_at_utc : string;
  oa_finished_at_utc : string;
}.
Arguments mkOperationAttempt {B}.
Arguments oa_attempt_id {B} _.
Arguments oa_operation_id {B} _.
Arguments oa_attempt_number {B} _.
Arguments oa_outcome {B} _.
Arguments oa_retryable {B} _.
Arguments oa_error_code {B} _.
Arguments oa_started_at_utc {B} _.
Arguments oa_finished_at_utc {B} _.
Definition OperationAttempt : Type := OperationAttempt_ bool.
Abbreviation operation_attempt_row := (OperationAttempt_ Z).

Record AcquisitionStatusReport := mkReport {
  rep_run_id : string;
  rep_state : string;
  rep_target_counts : gmap string Z;
  rep_retryable_failure_count : Z;
  rep_non_retryable_failure_count : Z;
  rep_active_lock : option RunLockInfo;
  rep_invalid_reason : option exn;
}.

Record OperationState_ (B : Type) := mkOperationState {
  os_operation_id : string;
  os_target_id : string;
  os_operation : string;
  os_requested : B;
  os_request_mode : string;
  os_selected : B;
  os_source_request_id : option string;
  os_input_ordinal : option Z;
  os_input_role : option string;
  os_support_status : string;
  os_support_reason : option string;
  os_capability_id : option string;
  os_capability_version : option string;
  os_handler_id : option string;
  os_handler_version : option string;
  os_output_kind : option string;
  os_status : string;
  os_retryable : B;
  os_attempt_count : Z;
  os_last_attempt_id : option string;
  os_error_code : option string;
}.
Arguments mkOperationState {B}.
Arguments os_operation_id {B} _.
Arguments os_target_id {B} _.
Arguments os_operation {B} _.
Arguments os_requested {B} _.
Arguments os_request_mode {B} _.
Arguments os_selected {B} _.
Arguments os_source_request_id {B} _.
Arguments os_input_ordinal {B} _.
Arguments os_input_role {B} _.
Arguments os_support_status {B} _.
Arguments os_support_reason {B} _.
Arguments os_capability_id {B} _.
Arguments os_capability_version {B} _.
Arguments os_handler_id {B} _.
Arguments os_handler_version {B} _.
Arguments os_output_kind {B} _.
Arguments os_status {B} _.
Arguments os_retryable {B} _.
Arguments os_attempt_count {B} _.
Arguments os_last_attempt_id {B} _.
Arguments os_error_code {B} _.
Definition OperationState : Type := OperationState_ bool.
Abbreviation operation_row := (OperationState_ Z).

Record TargetState_ (B : Type) := mkTargetState {
  ts_target_id : string;
  ts_executable : B;
  ts_skip_reason : option string;
  ts_outcome : string;
  ts_source : option string;
  ts_retryable : B;
  ts_attempt_count : Z;
  ts_last_attempt_id : option string;
  ts_error_code : option string;
  ts_source_sha256 : option string;
  ts_source_byte_size : option Z;
  ts_source_body_relative_path : option string;
  ts_selected_sha256 : option string;
  ts_selected_byte_size : option Z;
  ts_selected_body_relative_path : option string;
}.
Arguments mkTargetState {B}.
Arguments ts_target_id {B} _.
Arguments ts_executable {B} _.
Arguments ts_skip_reason {B} _.
Arguments ts_outcome {B} _.
Arguments ts_source {B} _.
Arguments ts_retryable {B} _.
Arguments ts_attempt_count {B} _.
Arguments ts_last_attempt_id {B} _.
Arguments ts_error_code {B} _.
Arguments ts_source_sha256 {B} _.
Arguments ts_source_byte_size {B} _.
Arguments ts_source_body_relative_path {B} _.
Arguments ts_selected_sha256 {B} _.
Arguments ts_selected_byte_size {B} _.
Arguments ts_selected_body_relative_path {B} _.
Definition TargetState : Type := TargetState_ bool.
Abbreviation target_row := (TargetState_ Z).

#[global] Instance TargetState_eq_dec {B} `{EqDecision B} : EqDecision (TargetState_ B).
Proof. solve_decision. Defined.
#[global] Instance OperationState_eq_dec {B} `{EqDecision B} :
  EqDecision (OperationState_ B).
Proof. solve_decision. Defined.
#[global] Instance AcquisitionAttempt_eq_dec {B} `{EqDecision B} :
  EqDecision (AcquisitionAttempt_ B).
Proof. solve_decision. Defined.

(** [bool(row[i])] on an INTEGER column, and [int(flag)] back. *)
Definition py_bool (z : Z) : bool := negb (z =? 0)%Z.
Definition py_int (b : bool) : Z := Z.b2z b.

Definition _target_state_from_row (row : target_row) : TargetState :=
  {| ts_target_id := ts_target_id row;
     ts_executable := py_bool (ts_executable row);
     ts_skip_reason := ts_skip_reason row;
     ts_outcome := ts_outcome row;
     ts_source := ts_source row;
     ts_retryable := py_bool (ts_retryable row);
     ts_attempt_count := ts_attempt_count row;
     ts_last_attempt_id := ts_last_attempt_id row;
     ts_error_code := ts_error_code row;
     ts_source_sha256 := ts_source_sha256 row;
     ts_source_byte_size := ts_source_byte_size row;
     ts_source_body_relative_path := ts_source_body_relative_path row;
     ts_selected_sha256 := ts_selected_sha256 row;
     ts_selected_byte_size := ts_selected_byte_size row;
     ts_selected_body_relative_path := ts_selected_body_relative_path row |}.

Definition _acquisition_attempt_from_row (row : attempt_row) : AcquisitionAttempt :=
  {| att_attempt_id := att_attempt_id row;
     att_target_id := att_target_id row;
     att_attempt_number := att_attempt_number row;
     att_attempt_kind := att_attempt_kind row;
     att_source := att_source row;
     att_requested_url := att_requested_url row;
     att_outcome := att_outcome row;
     att_retryable := py_bool (att_retryable row);
     att_error_code := att_error_code row;
     att_http_status := att_http_status row;
     att_final_url := att_final_url row;
     att_started_at_utc := att_started_at_utc row;
     att_finished_at_utc := att_finished_at_utc row;
     att_source_sha256 := att_source_sha256 row;
     att_source_byte_size := att_source_byte_size row;
     att_source_body_relative_path := att_source_body_relative_path row;
     att_selected_sha256 := att_selected_sha256 row;
     att_selected_byte_size := att_selected_byte_size row;
     att_selected_body_relative_path := att_selected_body_relative_path row;
     att_selected_filename := att_selected_filename row |}.

Definition _operation_attempt_from_row (row : operation_attempt_row) : OperationAttempt :=
  {| oa_attempt_id := oa_attempt_id row;
     oa_operation_id := oa_operation_id row;
     oa_attempt_number := oa_attempt_number row;
     oa_outcome := oa_outcome row;
     oa_retryable := py_bool (oa_retryable row);
     oa_error_code := oa_error_code row;
     oa_started_at_utc := oa_started_at_utc row;
     oa_finished_at_utc := oa_finished_at_utc row |}.

Definition _operation_state_from_row (row : operation_row) : OperationState :=
  {| os_operation_id := os_operation_id row;
     os_target_id := os_target_id row;
     os_operation := os_operation row;
     os_requested := py_bool (os_requested row);
     os_request_mode := os_request_mode row;
     os_selected := py_bool (os_selected row);
     os_source_request_id := os_source_request_id row;
     os_input_ordinal := os_input_ordinal row;
     os_input_role := os_input_role row;
     os_support_status := os_support_status row;
     os_support_reason := os_support_reason row;
     os_capability_id := os_capability_id row;
     os_capability_version := os_capability_version row;
     os_handler_id := os_handler_id row;
     os_handler_version := os_handler_version row;
     os_output_kind := os_output_kind row;
     os_status := os_status row;
     os_retryable := py_bool (os_retryable row);
     os_attempt_count := os_attempt_count row;
     os_last_attempt_id := os_last_attempt_id row;
     os_error_code := os_error_code row |}.

(** The booleans written with [int(flag)] are read back unchanged. *)
Lemma py_bool_int b : py_bool (py_int b) = b.
Proof. by destruct b. Qed.

Lemma py_int_01 b : py_int b = 0%Z ∨ py_int b = 1%Z.
Proof. destruct b; auto. Qed.
