(* ===== verification/RunLock.v ===== *)
(** * The run lock: [run_state/locks.py]

    A [RunLock] is taken by creating the lock file with O_CREAT|O_EXCL, or, when the file
    is left over from a dead process of the same host, by the recovery protocol of
    [_recover_existing].  [action] is one system call of one [RunLock] object, with the
    phases of the object between its system calls; [step] interleaves any number of
    objects in any number of processes, which may also die at any point.  The theorems
    are about every interleaving. *)
From stdpp Require Import functions.
From S2P Require Import Prelude RunStateModels.

(** ** Files

    A lock file is identified by the object whose [os.open] created it (its inode: a
    writer keeps writing to its own file after the path was unlinked) and has no content
    until the payload is flushed; before that it is not valid JSON. *)
Record lock_file := mkFile { inode : string; content : option pyobj }.

Record filesystem := mkFs { lock : option lock_file; recovery : option lock_file }.

Record RunLock := mkLock {
  path_confirmed : bool;        (* stale_local_lock_confirmed *)
  token : string;
  run_id : string;
  host : string;
  pid : Z;
  started_at_utc : string;
}.

Definition _payload (self : RunLock) : pyobj :=
  list_to_map [("run_id", VStr (run_id self)); ("host", VStr (host self));
               ("pid", VInt (pid self)); ("started_at_utc", VStr (started_at_utc self));
               ("owner_token", VStr (token self))].

(** [existing.get(name)] *)
Definition get (v : pyobj) (name : string) : pyval := default VNone (v !! name).
Definition is_str (v : pyval) : bool := match v with VStr _ => true | _ => false end.
Definition positive_int (v : pyval) : option Z :=
  match v with VInt z => if (0 <? z)%Z then Some z else None | _ => None end.

Definition _read_lock (fs : filesystem) : result pyobj :=
  file ← require (lock fs) (RunLockError "existing run lock is unreadable");
  value ← require (content file) (RunLockError "existing run lock is unreadable");
  _ ← raise_if (negb (is_str (get value "owner_token")))
        (RunLockError "existing run lock is malformed");
  Ok value.

(** [_create]: opening the file (None: [FileExistsError]) and writing the payload. *)
Definition open_exclusive (self : RunLock) (file : option lock_file) : option lock_file :=
  match file with Some _ => None | None => Some (mkFile (token self) None) end.
Definition write_payload (self : RunLock) (file : option lock_file) : option lock_file :=
  match file with
  | Some f => if bool_decide (inode f = token self)
              then Some (mkFile (inode f) (Some (_payload self))) else Some f
  | None => None
  end.

(** ** One object *)

Inductive phase :=
  | NotStarted
  | Creating                      (* __init__: _create(self.path), the open *)
  | Writing                       (* ... the write *)
  | Reading                       (* _recover_existing: _read_lock *)
  | ProbingPid (existing : pyobj)   (* _pid_is_alive *)
  | OpeningRecovery (existing : pyobj)
  | WritingRecovery (existing : pyobj)
  | Rereading (existing : pyobj)
  | Unlinking (existing : pyobj)
  | Recreating
  | Rewriting
  | RemovingRecovery (outcome : result unit)   (* finally *)
  | Held                          (* the constructor returned *)
  | ReadingToClose                (* close() *)
  | UnlinkingToClose
  | Closed
  | Failed (e : exn)
  | Dead.                         (* the process exited or was killed *)

(** The checks of [_recover_existing] on the lock it read. *)
Definition recoverable (self : RunLock) (existing : pyobj) : result Z :=
  _ ← raise_if (negb (py_eqb (get existing "run_id") (VStr (run_id self))))
        (RunLockError "existing lock belongs to a different run");
  _ ← raise_if (negb (py_eqb (get existing "host") (VStr (host self))))
        (RunLockError "remote-host locks require operator recovery");
  require (positive_int (get existing "pid"))
    (RunLockError "existing run lock has an invalid PID").

Definition failed {A} (r : result A) (next : A → phase) : phase :=
  match r with Ok a => next a | Err e => Failed e end.

(** The next system call of [self]; [pid_is_alive] answers [os.kill(pid, 0)]. *)
Definition action (self : RunLock) (pid_is_alive : Z → bool) (fs : filesystem) (p : phase) :
    filesystem * phase :=
  match p with
  | NotStarted => (fs, Creating)
  | Creating =>
      match open_exclusive self (lock fs) with
      | Some f => (mkFs (Some f) (recovery fs), Writing)
      | None => (fs, Reading)
      end
  | Writing => (mkFs (write_payload self (lock fs)) (recovery fs), Held)
  | Reading =>
      (fs, failed (existing ← _read_lock fs; _ ← recoverable self existing; Ok existing)
             ProbingPid)
  | ProbingPid existing =>
      (fs, failed
         (pid ← recoverable self existing;
          _ ← raise_if (pid_is_alive pid) (RunLockError "run is already locked");
          raise_if (negb (path_confirmed self))
            (RunLockError "stale local lock recovery requires explicit confirmation"))
         (λ _, OpeningRecovery existing))
  | OpeningRecovery existing =>
      match open_exclusive self (recovery fs) with
      | Some f => (mkFs (lock fs) (Some f), WritingRecovery existing)
      | None => (fs, Failed (RunLockError "stale-lock recovery is already active"))
      end
  | WritingRecovery existing =>
      (mkFs (lock fs) (write_payload self (recovery fs)), Rereading existing)
  | Rereading existing =>
      (fs, match (current ← _read_lock fs;
                  raise_if (negb (py_eqb (get current "owner_token")
                                         (get existing "owner_token")))
                    (RunLockError "run lock changed during stale recovery")) with
           | Ok _ => Unlinking existing
           | Err e => RemovingRecovery (Err e)
           end)
  | Unlinking existing =>
      match lock fs with
      | Some _ => (mkFs None (recovery fs), Recreating)
      | None => (fs, RemovingRecovery (Err (RuntimeError "FileNotFoundError")))
      end
  | Recreating =>
      match open_exclusive self (lock fs) with
      | Some f => (mkFs (Some f) (recovery fs), Rewriting)
      | None =>
          (fs, RemovingRecovery (Err (RunLockError "run lock was acquired concurrently")))
      end
  | Rewriting => (mkFs (write_payload self (lock fs)) (recovery fs),
                  RemovingRecovery (Ok ()))
  | RemovingRecovery outcome => (mkFs (lock fs) None, failed outcome (λ _, Held))
  | Held => (fs, ReadingToClose)
  | ReadingToClose =>
      (fs, match _read_lock fs with
           | Ok current => if py_eqb (get current "owner_token") (VStr (token self))
                           then UnlinkingToClose else Closed
           | Err _ => Closed
           end)
  | UnlinkingToClose => (mkFs None (recovery fs), Closed)
  | Closed | Failed _ | Dead => (fs, p)
  end.

(** [__init__] without interference, to the end. *)
Fixpoint run (self : RunLock) (pid_is_alive : Z → bool) (n : nat) (fs : filesystem)
    (p : phase) : filesystem * phase :=
  match n with
  | O => (fs, p)
  | S n =>
      match p with
      | Held | Failed _ | Closed | Dead => (fs, p)
      | _ => let '(fs, p) := action self pid_is_alive fs p in run self pid_is_alive n fs p
      end
  end.
Definition acquire (self : RunLock) (pid_is_alive : Z → bool) (fs : filesystem) :
    filesystem * phase := run self pid_is_alive 11 fs Creating.
Definition close (self : RunLock) (fs : filesystem) : filesystem :=
  let '(fs1, p) := action self (λ _, true) fs ReadingToClose in
  (action self (λ _, true) fs1 p).1.

(** What the constructor does when nothing interferes, as one decision. *)
Definition acquire_spec (self : RunLock) (pid_is_alive : Z → bool) (fs : filesystem) :
    filesystem * phase :=
  let taken := mkFs (Some (mkFile (token self) (Some (_payload self)))) (recovery fs) in
  match lock fs with
  | None => (taken, Held)
  | Some _ =>
      match (existing ← _read_lock fs;
             pid ← recoverable self existing;
             _ ← raise_if (pid_is_alive pid) (RunLockError "run is already locked");
             _ ← raise_if (negb (path_confirmed self))
                   (RunLockError "stale local lock recovery requires explicit confirmation");
             raise_if (match recovery fs with Some _ => true | None => false end)
               (RunLockError "stale-lock recovery is already active")) with
      | Ok _ => (taken, Held)
      | Err e => (fs, Failed e)
      end
  end.

(** ** [inspect_run_lock]

    What the path is: nothing, a symbolic link or not a regular file, a file that is not
    a JSON object, or a file with a JSON object. *)
Inductive path_entry :=
  | Missing
  | NotPlain
  | NotJson
  | NotDict
  | Dict (value : pyobj).

Definition inspect_run_lock (entry : path_entry) (expected_run_id : option string)
    (hostname : string) (pid_is_alive : Z → bool) : result (option RunLockInfo) :=
  match entry with
  | Missing => Ok None
  | NotPlain => Err (RunLockError "run lock path is unsafe")
  | NotJson => Err (RunLockError "existing run lock is unreadable")
  | NotDict => Err (RunLockError "existing run lock is malformed")
  | Dict value =>
      match get value "host", get value "run_id", positive_int (get value "pid"),
            get value "started_at_utc", get value "owner_token" with
      | VStr host, VStr run_id, Some pid, VStr started_at_utc, VStr owner_token =>
          _ ← raise_if (existsb (λ s, bool_decide (s = ""))
                          [host; run_id; started_at_utc; owner_token])
                (RunLockError "existing run lock is malformed");
          _ ← raise_if (match expected_run_id with
                        | Some expected => negb (bool_decide (run_id = expected))
                        | None => false end)
                (RunLockError "run lock belongs to a different run");
          if bool_decide (host = hostname) && negb (pid_is_alive pid) then Ok None
          else Ok (Some (mkRunLockInfo host pid started_at_utc owner_token))
      | _, _, _, _, _ => Err (RunLockError "existing run lock is malformed")
      end
  end.

(** ** One object alone *)


Lemma read_lock_token fs existing :
  _read_lock fs = Ok existing → ∃ s, get existing "owner_token" = VStr s.
Proof.
  unfold _read_lock. intros H. inv_ok. boolprop.
  destruct (get existing "owner_token") eqn:E; try done. eauto.
Qed.

Lemma run_done self alive n fs p :
  p = Held ∨ (∃ e, p = Failed e) → run self alive n fs p = (fs, p).
Proof. by intros [-> | [e ->]]; destruct n. Qed.

Definition running (p : phase) : bool :=
  match p with Held | Failed _ | Closed | Dead => false | _ => true end.
Lemma run_step self alive n fs p fs' p' :
  running p = true → action self alive fs p = (fs', p') →
  run self alive (S n) fs p = run self alive n fs' p'.
Proof. intros Hr Ha. simpl. destruct p; try done; by rewrite Ha. Qed.
#[local] Arguments run : simpl never.

(** The decision of [_recover_existing] before it touches a file. *)
Lemma run_reading self alive n fs :
  run self alive (S (S n)) fs Reading =
  match (existing ← _read_lock fs;
         pid ← recoverable self existing;
         _ ← raise_if (alive pid) (RunLockError "run is already locked");
         _ ← raise_if (negb (path_confirmed self))
               (RunLockError "stale local lock recovery requires explicit confirmation");
         Ok existing) with
  | Ok existing => run self alive n fs (OpeningRecovery existing)
  | Err e => (fs, Failed e)
  end.
Proof.
  erewrite run_step by done. simpl action.
  destruct (_read_lock fs) as [e|] eqn:Er; [|simpl; by apply run_done; eauto]. simpl.
  destruct (recoverable self e) as [z|] eqn:Ez; [|simpl; by apply run_done; eauto]. simpl.
  erewrite run_step by done. simpl action. rewrite Ez. simpl. destruct (alive z); [simpl; by apply run_done; eauto|]. simpl.
  destruct (path_confirmed self); simpl; [done|by apply run_done; eauto].
Qed.

(** The recovery proper. *)
Lemma run_recovery self alive n f e :
  _read_lock (mkFs (Some f) None) = Ok e →
  run self alive (7 + n) (mkFs (Some f) None) (OpeningRecovery e) =
  (mkFs (Some (mkFile (token self) (Some (_payload self)))) None, Held).
Proof.
  intros Hr. destruct (read_lock_token _ _ Hr) as [s Hs].
  assert (Hr' : ∀ r, _read_lock (mkFs (Some f) r) = Ok e) by done.
  cbn [Nat.add]. do 2 (erewrite run_step by done; simpl action).
  erewrite run_step by done. simpl action. rewrite Hr'. simpl.
  rewrite Hs, (proj2 (py_eqb_str (VStr s) s)) by done. simpl.
  rewrite bool_decide_true by done. do 4 (erewrite run_step by done; simpl action).
  simpl. rewrite bool_decide_true by done. apply run_done. auto.
Qed.

Lemma acquire_decision self pid_is_alive fs :
  acquire self pid_is_alive fs = acquire_spec self pid_is_alive fs.
Proof.
  unfold acquire, acquire_spec. destruct fs as [[f|] r].
  - erewrite run_step by done. rewrite run_reading. simpl lock. cbv iota.
    destruct (_read_lock _) as [e|] eqn:Er; [|done].
    cbn [mbind result_bind]. destruct (recoverable self e) as [z|]; [|done].
    cbn [mbind result_bind]. destruct (pid_is_alive z); [done|].
    destruct (path_confirmed self); [|done].
    destruct r as [g|]; [done|]. by apply run_recovery.
  - do 2 (erewrite run_step by done). rewrite run_done by auto.
    simpl. by rewrite bool_decide_true.
Qed.

(** Closing what was acquired leaves no lock file. *)
Lemma close_acquired self pid_is_alive fs fs' :
  acquire self pid_is_alive fs = (fs', Held) → close self fs' = mkFs None (recovery fs).
Proof.
  rewrite acquire_decision. unfold acquire_spec, close.
  assert (Hread : ∀ r, _read_lock (mkFs (Some (mkFile (token self) (Some (_payload self)))) r)
    = Ok (_payload self)) by done.
  assert (Hc : close self (mkFs (Some (mkFile (token self) (Some (_payload self)))) (recovery fs))
    = mkFs None (recovery fs)).
  { unfold close. simpl. rewrite Hread. 
    assert (get (_payload self) "owner_token" = VStr (token self)) as -> by done.
    by rewrite (proj2 (py_eqb_str (VStr (token self)) (token self))) by done. }
  destruct (lock fs); [destruct (_ ≫= _)|]; intros [= <-]; done.
Qed.

(** C37: without interference the constructor terminates and is the decision
    [acquire_spec]: it takes a free lock, refuses a lock it may not recover leaving the
    files as they were, and replaces a confirmed stale one; closing an acquired lock
    removes the lock file and nothing else. *)
Theorem acquire_alone self pid_is_alive fs :
  acquire self pid_is_alive fs = acquire_spec self pid_is_alive fs ∧
  ∀ fs', acquire self pid_is_alive fs = (fs', Held) → close self fs' = mkFs None (recovery fs).
Proof. split; [apply acquire_decision|]. intros fs'. apply close_acquired. Qed.

(** ** Any number of objects

    An object is named by its token ([uuid4]: no two are equal). *)
Record world := mkWorld { files : filesystem; phases : string → phase }.

Definition started (p : phase) : Prop := p ≠ NotStarted ∧ p ≠ Dead.

Section protocol.
Context (objects : string → RunLock) (Htoken : ∀ i, token (objects i) = i).

(** [os.kill] never reports a process dead that still runs one of the objects; a pid
    may be reused, so that a dead object's process seems alive. *)
Definition probe_ok (w : world) (pid_is_alive : string → Z → bool) : Prop :=
  ∀ i, started (phases w i) →
    pid_is_alive (host (objects i)) (pid (objects i)) = true.

Inductive step : world → world → Prop :=
  | step_action w i pid_is_alive fs p :
      phases w i ≠ Dead →
      probe_ok w pid_is_alive →
      action (objects i) (pid_is_alive (host (objects i))) (files w) (phases w i) = (fs, p) →
      step w (mkWorld fs (<[i := p]> (phases w)))
  | step_exit w i :
      phases w i ≠ NotStarted →
      step w (mkWorld (files w) (<[i := Dead]> (phases w))).

(** Nobody has touched the lock path yet. *)
Definition initial : world := mkWorld (mkFs None None) (λ _, NotStarted).
Definition reachable (w : world) : Prop := rtc step initial w.

(** The object believes it holds the lock: its constructor returned and [close] has
    not removed the file. *)
Definition holds_lock (p : phase) : Prop :=
  p = Held ∨ p = ReadingToClose ∨ p = UnlinkingToClose.

(** ** The invariant *)

Definition payload_of (i : string) : pyobj := _payload (objects i).
Definition recovering (w : world) (i : string) : Prop :=
  inode <$> recovery (files w) = Some i.
Definition from_dead (w : world) (existing : pyobj) : Prop :=
  ∃ j, existing = payload_of j ∧ phases w j = Dead.
Definition owns (w : world) (i : string) (c : option pyobj) : Prop :=
  lock (files w) = Some (mkFile i c).

(** What an object in a phase knows, and keeps knowing whatever the others do. *)
Definition phase_ok (w : world) (i : string) (p : phase) : Prop :=
  match p with
  | Writing => owns w i None
  | Held | ReadingToClose | UnlinkingToClose => owns w i (Some (payload_of i))
  | ProbingPid existing => ∃ j, existing = payload_of j ∧ phases w j ≠ NotStarted
  | OpeningRecovery existing => from_dead w existing
  | WritingRecovery existing | Rereading existing =>
      from_dead w existing ∧ recovering w i
  | Unlinking existing =>
      (∃ j, phases w j = Dead ∧ owns w j (Some existing)) ∧ recovering w i
  | Recreating | RemovingRecovery (Err _) => recovering w i
  | Rewriting => recovering w i ∧ owns w i None
  | RemovingRecovery (Ok _) => recovering w i ∧ owns w i (Some (payload_of i))
  | _ => True
  end.

Definition lock_ok (w : world) : Prop :=
  ∀ f, lock (files w) = Some f →
    phases w (inode f) ≠ NotStarted ∧
    (content f = None ∨ content f = Some (payload_of (inode f))).

Definition world_ok (w : world) : Prop := lock_ok w ∧ ∀ i, phase_ok w i (phases w i).

Lemma get_payload i :
  get (payload_of i) "run_id" = VStr (run_id (objects i)) ∧
  get (payload_of i) "host" = VStr (host (objects i)) ∧
  get (payload_of i) "pid" = VInt (pid (objects i)) ∧
  get (payload_of i) "started_at_utc" = VStr (started_at_utc (objects i)) ∧
  get (payload_of i) "owner_token" = VStr i.
Proof.
  split_and!; try reflexivity.
  transitivity (VStr (token (objects i))); [reflexivity|]. by rewrite Htoken.
Qed.

Lemma payload_inj i j :
  py_eqb (get (payload_of i) "owner_token") (get (payload_of j) "owner_token") = true →
  i = j.
Proof.
  destruct (get_payload i) as (_ & _ & _ & _ & ->).
  destruct (get_payload j) as (_ & _ & _ & _ & ->).
  intros H%py_eqb_str. by injection H.
Qed.

(** What one action may change: the lock file only when there is none, when it is the
    actor's own or when the actor recovers it from a dead object; the recovery file
    only when there is none or when it is the actor's own. *)
Definition interference (w w' : world) (i : string) : Prop :=
  (lock (files w') = lock (files w) ∨
   ∀ f, lock (files w) = Some f →
     inode f = i ∨ (phases w (inode f) = Dead ∧ recovering w i)) ∧
  (inode <$> recovery (files w') = inode <$> recovery (files w) ∨
   recovery (files w) = None ∨ recovering w i) ∧
  phases w i ≠ Dead ∧
  (∀ j, j ≠ i → phases w' j = phases w j) ∧ phases w' i ≠ NotStarted.

Lemma phase_stable w w' i k :
  interference w w' i → k ≠ i → phase_ok w k (phases w k) → phase_ok w' k (phases w' k).
Proof.
  intros (Hl & Hr & Hi & Hj & Hn) Hk. rewrite (Hj k Hk).
  assert (Hrec : recovering w k → recovering w' k).
  { unfold recovering. intros H. destruct Hr as [->|[Hr|Hr]]; [done| |].
    - by rewrite Hr in H.
    - unfold recovering in Hr. congruence. }
  assert (Hown : ∀ c, phases w k ≠ Dead → owns w k c → owns w' k c).
  { unfold owns. intros c Hd H. destruct Hl as [->|Hl]; [done|].
    destruct (Hl _ H) as [?|[? _]]; done. }
  assert (Hdead : ∀ j, phases w j = Dead → phases w' j = Dead)
    by (intros j Hd; rewrite Hj; congruence).
  assert (Hfrom : ∀ e, from_dead w e → from_dead w' e)
    by (intros e (j & ? & ?); exists j; auto).
  destruct (phases w k) as [| | | |e|e|e|e|e| | |[|]| | | | | |] eqn:Ep; simpl;
    try (assert (∀ c, owns w k c → owns w' k c) by (by intros; apply Hown)); clear Hown;
    try solve [done | intros; destruct_and?; split_and?; auto].
  - intros (j & -> & Hs). exists j. split; [done|].
    destruct (decide (j = i)) as [->|]; [done|]. by rewrite Hj.
  - intros [(j & Hd & Ho) Hk']. split; [|auto]. exists j. split; [auto|].
    unfold owns in *. destruct Hl as [->|Hl]; [done|].
    destruct (Hl _ Ho) as [<-|[_ Hi']]; [done|]. unfold recovering in *. congruence.
Qed.

Lemma read_lock_payload w existing :
  lock_ok w → _read_lock (files w) = Ok existing →
  ∃ j, existing = payload_of j ∧ owns w j (Some existing) ∧ phases w j ≠ NotStarted.
Proof.
  unfold _read_lock, owns. intros Hl H. inv_ok. destruct x as [j c]. simpl in *.
  destruct (Hl _ H) as [Hj Hc]. simpl in *. subst c.
  destruct Hc as [|[= ->]]; [done|]. by exists j.
Qed.

Lemma recoverable_Ok i j z :
  recoverable (objects i) (payload_of j) = Ok z →
  run_id (objects j) = run_id (objects i) ∧ host (objects j) = host (objects i) ∧
  pid (objects j) = z ∧ (0 < z)%Z.
Proof.
  unfold recoverable. destruct (get_payload j) as (-> & -> & -> & _).
  unfold positive_int. intros H. inv_ok. boolprop.
  repeat match goal with H : py_eqb _ _ = true |- _ => apply py_eqb_str in H end.
  destruct (0 <? _)%Z eqn:Ez in *; [|done]. boolprop. simplify_eq. done.
Qed.

(** An object whose pid is probed dead is dead. *)
Lemma probe_dead w alive i j :
  probe_ok w alive → phases w j ≠ NotStarted → host (objects j) = host (objects i) →
  alive (host (objects i)) (pid (objects j)) = false → phases w j = Dead.
Proof.
  intros Hp Hn Hh Ha. destruct (phases w j) eqn:E; try done; exfalso;
    rewrite <- Hh, Hp in Ha by (split; rewrite E; done); done.
Qed.

Lemma failed_not_started {A} (r : result A) next :
  (∀ a, next a ≠ NotStarted) → failed r next ≠ NotStarted.
Proof. destruct r; simpl; auto. Qed.

Lemma action_started self alive fs0 p0 fs p :
  action self alive fs0 p0 = (fs, p) → p ≠ NotStarted.
Proof.
  destruct p0; simpl; repeat case_match; intros [= <- <-]; subst;
    try apply failed_not_started; done.
Qed.

Lemma insert_started w i p j :
  p ≠ NotStarted → phases w j ≠ NotStarted → (<[i:=p]> (phases w)) j ≠ NotStarted.
Proof. intros ??. destruct (decide (j = i)) as [->|];
  rewrite ?fn_lookup_insert, ?fn_lookup_insert_ne; done. Qed.

Lemma write_own i c :
  write_payload (objects i) (Some (mkFile i c)) = Some (mkFile i (Some (payload_of i))).
Proof. unfold write_payload. simpl. by rewrite bool_decide_true by (by rewrite Htoken). Qed.
Lemma open_own i file f : open_exclusive (objects i) file = Some f → file = None ∧ f = mkFile i None.
Proof. destruct file; [done|]. simpl. rewrite Htoken. by intros [= <-]. Qed.
Lemma write_inode i file : inode <$> write_payload (objects i) file = inode <$> file.
Proof. destruct file as [f|]; [|done]. simpl. by case_bool_decide. Qed.

(** The effects of an action on the lock file and on the recovery file. *)
Inductive lock_effect (w : world) (i : string) : option lock_file → Prop :=
  | lock_kept : lock_effect w i (lock (files w))
  | lock_created : lock (files w) = None → lock_effect w i (Some (mkFile i None))
  | lock_written : owns w i None → lock_effect w i (Some (mkFile i (Some (payload_of i))))
  | lock_removed j c :
      owns w j c → j = i ∨ phases w j = Dead ∧ recovering w i → lock_effect w i None.

Inductive recovery_effect (w : world) (i : string) : option lock_file → Prop :=
  | recovery_kept file :
      inode <$> file = inode <$> recovery (files w) → recovery_effect w i file
  | recovery_created : recovery (files w) = None → recovery_effect w i (Some (mkFile i None))
  | recovery_removed : recovering w i → recovery_effect w i None.

Lemma action_effects w i alive fs p :
  phase_ok w i (phases w i) → action (objects i) alive (files w) (phases w i) = (fs, p) →
  lock_effect w i (lock fs) ∧ recovery_effect w i (recovery fs).
Proof.
  intros Hok Ha.
  destruct (phases w i) as [| | | |e|e|e|e|e| | |[[]|]| | | | | |] eqn:Ep; simpl in Ha, Hok;
    destruct_and?; try (destruct (open_exclusive _ _) as [f|] eqn:Eo;
      [apply open_own in Eo as [? ->]|]);
    try match goal with H : owns _ _ _ |- _ => rewrite H, ?write_own in Ha end;
    try match goal with H : ∃ _, _ |- _ =>
          destruct H as (j & ? & Hown); rewrite Hown in Ha end;
    injection Ha as <- <-; simpl; split;
    try (constructor; by rewrite write_inode); try (by constructor);
    try first [ by apply lock_kept | by apply lock_created | by apply lock_written
              | by eapply lock_removed; eauto
              | match goal with H : owns _ _ _ |- _ => rewrite <- H; apply lock_kept end ].
Qed.

Lemma effects_interfere w i p fs :
  phases w i ≠ Dead → p ≠ NotStarted →
  lock_effect w i (lock fs) → recovery_effect w i (recovery fs) →
  interference w (mkWorld fs (<[i:=p]> (phases w))) i.
Proof.
  unfold interference, owns. intros Hd Hp Hl Hr. simpl. split_and!; [| |done| |].
  - inversion Hl as [E|Hn E|Ho E|j c Ho Hj E]; [by left|..]; right; intros f Hf.
    + congruence.
    + unfold owns in Ho. left. by simplify_eq.
    + unfold owns in Ho. simplify_eq. naive_solver.
  - inversion Hr; auto.
  - intros j Hj. by rewrite fn_lookup_insert_ne.
  - by rewrite fn_lookup_insert.
Qed.

Lemma effects_lock_ok w i p fs :
  lock_ok w → p ≠ NotStarted → lock_effect w i (lock fs) →
  lock_ok (mkWorld fs (<[i:=p]> (phases w))).
Proof.
  intros Hw Hp Hl f Hf. simpl in *.
  inversion Hl as [E|Hn E|Ho E|j c Ho Hj E]; simplify_eq; try congruence.
  - rewrite <- E in Hf. destruct (Hw _ Hf). auto using insert_started.
  - rewrite <- E in Hf. simplify_eq/=. by rewrite fn_lookup_insert; auto.
  - rewrite <- E in Hf. simplify_eq/=. by rewrite fn_lookup_insert; auto.
Qed.

Lemma dead_kept w i p j :
  phases w i ≠ Dead → phases w j = Dead → (<[i:=p]> (phases w)) j = Dead.
Proof.
  intros Hd Hj. rewrite fn_lookup_insert_ne; [done|]. congruence.
Qed.
Lemma from_dead_kept w fs i p e :
  phases w i ≠ Dead → from_dead w e → from_dead (mkWorld fs (<[i:=p]> (phases w))) e.
Proof. intros Hd (j & -> & Hj). exists j. split; [done|]. by apply dead_kept. Qed.

Lemma reading_ok w i p e :
  lock_ok w → _read_lock (files w) = Ok e → p ≠ NotStarted →
  phase_ok (mkWorld (files w) (<[i:=p]> (phases w))) i (ProbingPid e).
Proof.
  intros Hl H Hp. destruct (read_lock_payload _ _ Hl H) as (j & -> & _ & Hj).
  exists j. split; [done|]. by apply insert_started.
Qed.

Lemma probing_ok w i e alive z :
  probe_ok w alive → phase_ok w i (ProbingPid e) → recoverable (objects i) e = Ok z →
  alive (host (objects i)) z = false → from_dead w e.
Proof.
  intros Hp (j & -> & Hj) Hr Ha. apply recoverable_Ok in Hr as (_ & Hh & <- & _).
  exists j. split; [done|]. by apply (probe_dead w alive i).
Qed.

Lemma rereading_ok w i e e' p :
  lock_ok w → phases w i ≠ Dead → from_dead w e → _read_lock (files w) = Ok e' →
  py_eqb (get e' "owner_token") (get e "owner_token") = true →
  let w' := mkWorld (files w) (<[i:=p]> (phases w)) in
  ∃ j, phases w' j = Dead ∧ owns w' j (Some e).
Proof.
  intros Hl Hd (j & -> & Hj) H Ht. destruct (read_lock_payload _ _ Hl H) as (k & -> & Ho & _).
  apply payload_inj in Ht as ->. exists j. split; [by apply dead_kept|done].
Qed.

(** What the actor itself knows after its action. *)
Lemma action_phase_ok w i alive fs p :
  lock_ok w → phase_ok w i (phases w i) → probe_ok w alive →
  action (objects i) (alive (host (objects i))) (files w) (phases w i) = (fs, p) →
  phases w i ≠ Dead → phase_ok (mkWorld fs (<[i:=p]> (phases w))) i p.
Proof.
  intros Hl Hok Hp Ha Hd.
  pose proof (action_started _ _ _ _ _ _ Ha) as Hs.
  assert (Hd' : phases w i ≠ Dead) by done.
  destruct (phases w i) as [| | | |e|e|e|e|e| | |[[]|]| | | | | |] eqn:Ep; simpl in Ha, Hok;
    try (destruct (open_exclusive _ _) as [f|] eqn:Eo;
      [apply open_own in Eo as [? ->]|]).
  5: destruct (_read_lock (files w)) as [e|] eqn:Er; simpl in Ha; [|by simplify_eq];
     destruct (recoverable (objects i) e) as [z|] eqn:Ez; simpl in Ha; [|by simplify_eq];
     injection Ha as <- <-; by apply reading_ok.
  5: destruct (recoverable (objects i) e) as [z|] eqn:Ez; simpl in Ha; [|by simplify_eq];
     destruct (alive _ z) eqn:Ea; simpl in Ha; [by simplify_eq|];
     destruct (path_confirmed _); simpl in Ha; simplify_eq; [|done];
     apply from_dead_kept; [congruence|];
     by apply (probing_ok w i e (λ h, alive h) z).
  8: destruct (_read_lock (files w)) as [e'|] eqn:Er; simpl in Ha;
     [destruct (py_eqb _ _) eqn:Et; simpl in Ha|]; injection Ha as <- <-; try apply Hok;
     split; [|apply Hok]; apply (rereading_ok w i e e'); (congruence || apply Hok || done).
  all: destruct_and?; try match goal with H : ∃ _, _ |- _ =>
          destruct H as (j & ? & Hown); rewrite Hown in Ha end.
  all: try match goal with H : owns _ _ _ |- _ => rewrite H, ?write_own in Ha end.
  all: injection Ha as <- <-.
  all: try done.
  - split; [|done]. apply from_dead_kept; [congruence|done].
  - split; [apply from_dead_kept; [congruence|done]|].
    unfold recovering. simpl. by rewrite write_inode.
  - destruct (_read_lock _) as [v|]; [|done]. by destruct (py_eqb _ _).
Qed.

Lemma step_ok w w' : world_ok w → step w w' → world_ok w'.
Proof.
  intros Hok Hstep. revert Hok.
  destruct Hstep as [w0 i alive fs p Hd Hp Ha|w0 i Hn]; intros [Hl Hall].
  - destruct (action_effects _ _ _ _ _ (Hall i) Ha) as [Hel Her].
    pose proof (action_started _ _ _ _ _ _ Ha) as Hs.
    pose proof (effects_interfere w0 i p fs Hd Hs Hel Her) as Hint.
    split; [by apply effects_lock_ok|]. intros k.
    destruct (decide (k = i)) as [->|Hk].
    + simpl. rewrite fn_lookup_insert. by apply (action_phase_ok w0 i alive).
    + by apply (phase_stable w0 _ i k).
  - split.
    + intros f Hf. destruct (Hl f Hf). simpl. by auto using insert_started.
    + intros k. simpl. destruct (decide (k = i)) as [->|Hk].
      { by rewrite fn_lookup_insert. }
      rewrite fn_lookup_insert_ne by done. specialize (Hall k).
      assert (Hdead : ∀ j, phases w0 j = Dead → <[i:=Dead]> (phases w0) j = Dead).
      { intros j Hj. by destruct (decide (j = i)) as [->|];
          [rewrite fn_lookup_insert|rewrite fn_lookup_insert_ne]. }
      assert (Hfrom : ∀ e, from_dead w0 e →
        from_dead (mkWorld (files w0) (<[i:=Dead]> (phases w0))) e)
        by (intros e (j & ? & ?); exists j; split; [done|by apply Hdead]).
      destruct (phases w0 k) as [| | | |e|e|e|e|e| | |[|]| | | | | |]; simpl in *;
        destruct_and?; auto.
      * destruct Hall as (j & -> & Hj). exists j. split; [done|].
        by apply insert_started.
      * split; [|done]. destruct H as (j & Hj & Ho). exists j. split; [by apply Hdead|done].
Qed.

Lemma reachable_ok w : reachable w → world_ok w.
Proof.
  intros Hw. assert (Hi : world_ok initial) by done. unfold reachable in Hw.
  induction Hw; eauto using step_ok.
Qed.

(** C1: at most one live object holds the run lock, in every interleaving of any number
    of acquisitions, stale-lock recoveries, closes and crashes. *)
Theorem run_lock_mutual_exclusion w i j :
  reachable w → holds_lock (phases w i) → holds_lock (phases w j) → i = j.
Proof.
  intros Hw Hi Hj. destruct (reachable_ok w Hw) as [_ Hall].
  pose proof (Hall i) as Oi. pose proof (Hall j) as Oj.
  assert (Hown : ∀ k, holds_lock (phases w k) → phase_ok w k (phases w k) →
    owns w k (Some (payload_of k))) by (intros k [-> | [-> | ->]]; done).
  apply Hown in Oi, Oj; [|done..]. unfold owns in *. congruence.
Qed.

(** While an object holds the lock the lock file carries its payload, so that
    [inspect_run_lock] reports it as the active lock of its run. *)
Theorem held_lock_is_reported w i pid_is_alive :
  reachable w → holds_lock (phases w i) → probe_ok w pid_is_alive →
  (0 < pid (objects i))%Z →
  host (objects i) ≠ "" → run_id (objects i) ≠ "" → started_at_utc (objects i) ≠ "" → i ≠ "" →
  ∃ f value, lock (files w) = Some f ∧ content f = Some value ∧
    inspect_run_lock (Dict value) (Some (run_id (objects i))) (host (objects i))
      (pid_is_alive (host (objects i))) =
    Ok (Some (mkRunLockInfo (host (objects i)) (pid (objects i))
                (started_at_utc (objects i)) i)).
Proof.
  intros Hw Hi Hp Hpid Hh Hr Hs Ht. destruct (reachable_ok w Hw) as [_ Hall].
  specialize (Hall i). exists (mkFile i (Some (payload_of i))), (payload_of i).
  split_and!; [by destruct Hi as [E|[E|E]]; rewrite E in Hall|done|].
  unfold inspect_run_lock. destruct (get_payload i) as (-> & -> & -> & -> & ->).
  unfold positive_int. rewrite (proj2 (Z.ltb_lt 0 (pid (objects i)))) by done.
  assert (Hne : existsb (λ s, bool_decide (s = ""))
    [host (objects i); run_id (objects i); started_at_utc (objects i); i] = false).
  { simpl. by rewrite !bool_decide_false. }
  rewrite Hne. simpl.
  rewrite bool_decide_true by done. simpl.
  rewrite bool_decide_true by done. simpl. rewrite Hp; [done|].
  by destruct Hi as [E|[E|E]]; rewrite E.
Qed.
End protocol.

(** ** One object takes the lock *)

Definition demo_object (i : string) : RunLock := mkLock true i "run" "host" 7 "2024".
Lemma demo_token i : token (demo_object i) = i.
Proof. reflexivity. Defined.

Definition demo_step (w : world) : world :=
  let '(fs, p) := action (demo_object "a") (λ _, true) (files w) (phases w "a") in
  mkWorld fs (<["a" := p]> (phases w)).
Definition demo_held : world := demo_step (demo_step (demo_step initial)).

Lemma demo_held_reachable : reachable demo_object demo_held.
Proof.
  assert (Hstep : ∀ w, phases w "a" ≠ Dead → step demo_object w (demo_step w)).
  { intros w Hw. unfold demo_step. destruct (action _ _ _ _) as [fs p] eqn:Ha.
    apply (step_action demo_object w "a" (λ _ _, true)); [done|by intros i _|done]. }
  unfold reachable, demo_held.
  do 3 (eapply rtc_r; [|apply Hstep; vm_compute; discriminate]). apply rtc_refl.
Defined.
Lemma demo_holds : holds_lock (phases demo_held "a").
Proof. left. reflexivity. Defined.

Lemma run_lock_mutual_exclusion_witness : ¬ holds_lock (phases demo_held "b").
Proof.
  intros Hb. assert ("b" = "a") as Hab; [|discriminate Hab].
  apply (run_lock_mutual_exclusion demo_object demo_token demo_held);
    [apply demo_held_reachable|exact Hb|apply demo_holds].
Defined.

Lemma held_lock_is_reported_witness :
  ∃ f value, lock (files demo_held) = Some f ∧ content f = Some value ∧
    inspect_run_lock (Dict value) (Some "run") "host" (λ _, true) =
    Ok (Some (mkRunLockInfo "host" 7 "2024" "a")).
Proof.
  apply (held_lock_is_reported demo_object demo_token demo_held "a" (λ _ _, true));
    [apply demo_held_reachable|apply demo_holds|by intros i _|reflexivity|discriminate..].
Defined.
