(* ===== verification/InventoryLock.v ===== *)
(** * The run lock of the inventory pipeline: [document_inventory/run_state/run_lock.py]

    The inventory coordinator has a lock of its own.  Unlike the lock of the acquisition
    run it neither records a start time nor checks whose lock it replaces: an operator's
    confirmation is all that recovery asks for.  Files, and the interleaving of system
    calls, are as in RunLock. *)
From stdpp Require Import functions.
From S2P Require Import Prelude RunLock.

Module InventoryRunLock.

(** A [RunLock] of this module: its token, the recorded owner, and the constructor's
    [stale_lock_confirmed]. *)
Record owner := mkOwner {
  confirmed : bool;
  owner_token : string;
  owner_pid : Z;
  owner_host : string;
}.

Definition payload (self : owner) : pyobj :=
  list_to_map [("token", VStr (owner_token self)); ("pid", VInt (owner_pid self));
               ("host", VStr (owner_host self))].

(** [_create_at]: the exclusive open (None: [FileExistsError]) and the write. *)
Definition create_open (self : owner) (file : option lock_file) : option lock_file :=
  match file with Some _ => None | None => Some (mkFile (owner_token self) None) end.
Definition create_write (self : owner) (file : option lock_file) : option lock_file :=
  match file with
  | Some f => if bool_decide (inode f = owner_token self)
              then Some (mkFile (inode f) (Some (payload self))) else Some f
  | None => None
  end.

Inductive phase :=
  | NotStarted
  | Creating                        (* self._create(payload): the open *)
  | Writing                         (* ... the write *)
  | OpeningRecovery                 (* self._create_at(recovery_path, payload) *)
  | WritingRecovery
  | Unlinking                       (* self.path.unlink(missing_ok=True) *)
  | Recreating
  | Rewriting
  | RemovingRecovery (outcome : result unit)   (* finally *)
  | Held
  | ReadingToClose                  (* close() *)
  | UnlinkingToClose
  | Closed
  | Failed (e : exn)
  | Dead.

(** What [close] finds: is the file a JSON object with this token? *)
Definition is_own (self : owner) (file : option lock_file) : bool :=
  match file with
  | Some f => match content f with
              | Some data => py_eqb (get data "token") (VStr (owner_token self))
              | None => false
              end
  | None => false
  end.

(** The next system call of [self]. *)
Definition action (self : owner) (fs : filesystem) (p : phase) : filesystem * phase :=
  match p with
  | NotStarted => (fs, Creating)
  | Creating =>
      match create_open self (lock fs) with
      | Some f => (mkFs (Some f) (recovery fs), Writing)
      | None => (fs, if confirmed self then OpeningRecovery
                     else Failed (RunLockError "run is already locked"))
      end
  | Writing => (mkFs (create_write self (lock fs)) (recovery fs), Held)
  | OpeningRecovery =>
      match create_open self (recovery fs) with
      | Some f => (mkFs (lock fs) (Some f), WritingRecovery)
      | None => (fs, Failed (RunLockError "stale-lock recovery is already active"))
      end
  | WritingRecovery => (mkFs (lock fs) (create_write self (recovery fs)), Unlinking)
  | Unlinking => (mkFs None (recovery fs), Recreating)
  | Recreating =>
      match create_open self (lock fs) with
      | Some f => (mkFs (Some f) (recovery fs), Rewriting)
      | None =>
          (fs, RemovingRecovery (Err (RunLockError "run lock was acquired concurrently")))
      end
  | Rewriting => (mkFs (create_write self (lock fs)) (recovery fs), RemovingRecovery (Ok ()))
  | RemovingRecovery outcome =>
      (mkFs (lock fs) None, match outcome with Ok _ => Held | Err e => Failed e end)
  | Held => (fs, ReadingToClose)
  | ReadingToClose => (fs, if is_own self (lock fs) then UnlinkingToClose else Closed)
  | UnlinkingToClose => (mkFs None (recovery fs), Closed)
  | Closed | Failed _ | Dead => (fs, p)
  end.

(** [__init__] without interference. *)
Fixpoint run (self : owner) (n : nat) (fs : filesystem) (p : phase) : filesystem * phase :=
  match n with
  | O => (fs, p)
  | S n =>
      match p with
      | Held | Failed _ | Closed | Dead => (fs, p)
      | _ => let '(fs, p) := action self fs p in run self n fs p
      end
  end.
Definition acquire (self : owner) (fs : filesystem) : filesystem * phase :=
  run self 8 fs Creating.

(** What the constructor does when nothing interferes. *)
Definition acquire_spec (self : owner) (fs : filesystem) : filesystem * phase :=
  let own := Some (mkFile (owner_token self) (Some (payload self))) in
  match lock fs, confirmed self, recovery fs with
  | None, _, _ => (mkFs own (recovery fs), Held)
  | Some _, false, _ => (fs, Failed (RunLockError "run is already locked"))
  | Some _, true, Some _ => (fs, Failed (RunLockError "stale-lock recovery is already active"))
  | Some _, true, None => (mkFs own None, Held)
  end.

(** ** Any number of objects, named by their tokens *)

Record world := mkWorld { files : filesystem; phases : string → phase }.
Definition initial : world := mkWorld (mkFs None None) (λ _, NotStarted).
Definition holds_lock (p : phase) : Prop :=
  p = Held ∨ p = ReadingToClose ∨ p = UnlinkingToClose.

Section protocol.
Context (objects : string → owner) (Htoken : ∀ i, owner_token (objects i) = i).

Inductive step : world → world → Prop :=
  | step_action w i fs p :
      phases w i ≠ Dead → action (objects i) (files w) (phases w i) = (fs, p) →
      step w (mkWorld fs (<[i := p]> (phases w)))
  | step_exit w i :
      phases w i ≠ NotStarted → step w (mkWorld (files w) (<[i := Dead]> (phases w))).
Definition reachable (w : world) : Prop := rtc step initial w.

(** Without any confirmed recovery: who is past the exclusive open owns the file. *)
Definition owns (w : world) (i : string) : Prop := inode <$> lock (files w) = Some i.
Definition phase_ok (w : world) (i : string) : Prop :=
  match phases w i with
  | NotStarted | Creating | Closed | Failed _ | Dead => True
  | Writing | Held | ReadingToClose | UnlinkingToClose => owns w i
  | _ => False
  end.
Definition world_ok (w : world) : Prop := ∀ i, phase_ok w i.

Lemma create_open_owned w i j :
  owns w j → create_open (objects i) (lock (files w)) = None.
Proof. unfold owns. by destruct (lock (files w)). Qed.
Lemma create_write_inode self f : inode <$> create_write self f = inode <$> f.
Proof. unfold create_write. destruct f; [|done]. by case_bool_decide. Qed.

(** An action of [i] leaves the file of another owner alone. *)
Lemma action_owns w i j fs p :
  (∀ k, confirmed (objects k) = false) → phase_ok w i → i ≠ j → owns w j →
  action (objects i) (files w) (phases w i) = (fs, p) → inode <$> lock fs = Some j.
Proof.
  unfold phase_ok, owns. intros Hc Hi Hij Hj.
  destruct (phases w i) eqn:E; simpl; try done; try (intros [= <- <-]); try done.
  - rewrite (create_open_owned w i j) by done. by intros [= <- <-].
  - simpl. rewrite create_write_inode. congruence.
  - congruence.
Qed.

(** The actor's own knowledge after its action. *)
Lemma inventory_action_ok w i fs p :
  (∀ k, confirmed (objects k) = false) → phase_ok w i →
  action (objects i) (files w) (phases w i) = (fs, p) →
  phase_ok (mkWorld fs (<[i := p]> (phases w))) i.
Proof.
  unfold phase_ok, owns. intros Hc Hi. cbn [phases files]. rewrite fn_lookup_insert.
  destruct (phases w i) eqn:E; simpl; try done; try (by intros [= <- <-]).
  - unfold create_open. destruct (lock (files w)) eqn:El; intros [= <- <-]; [by rewrite Hc|].
    simpl. by rewrite Htoken.
  - intros [= <- <-]. simpl. by rewrite create_write_inode.
  - intros [= <- <-]. by destruct (is_own _ _).
Qed.

Lemma inventory_step_ok w w' :
  (∀ k, confirmed (objects k) = false) → world_ok w → step w w' → world_ok w'.
Proof.
  intros Hc Hw Hs j. destruct Hs as [w i fs p Hd Ha | w i Hn].
  - destruct (decide (i = j)) as [->|Hij]; [by eapply inventory_action_ok|].
    pose proof (Hw j) as Hj. unfold phase_ok in *. simpl. rewrite fn_lookup_insert_ne by done.
    destruct (phases w j) eqn:E; try done; by eapply action_owns.
  - unfold phase_ok, owns in *. simpl. destruct (decide (i = j)) as [->|Hij].
    + by rewrite fn_lookup_insert.
    + rewrite fn_lookup_insert_ne by done. apply Hw.
Qed.

(** As long as no recovery is confirmed, at most one live object holds the
    inventory lock, in every interleaving of acquisitions, closes and crashes. *)
Theorem unconfirmed_exclusion w i j :
  (∀ k, confirmed (objects k) = false) →
  reachable w → holds_lock (phases w i) → holds_lock (phases w j) → i = j.
Proof.
  intros Hc Hw Hi Hj. assert (Hok : world_ok w).
  { assert (H0 : world_ok initial) by done. unfold reachable in Hw.
    induction Hw; eauto using inventory_step_ok. }
  assert (Hown : ∀ k, holds_lock (phases w k) → owns w k).
  { intros k Hk. pose proof (Hok k) as H. unfold phase_ok in H.
    by destruct Hk as [E|[E|E]]; rewrite E in H. }
  apply Hown in Hi, Hj. unfold owns in *. congruence.
Qed.
End protocol.

Lemma create_write_fresh self :
  create_write self (Some (mkFile (owner_token self) None)) =
  Some (mkFile (owner_token self) (Some (payload self))).
Proof. unfold create_write. simpl. by rewrite bool_decide_true. Qed.

(** Without interference the constructor terminates and is the decision
    [acquire_spec]: a free lock is taken, an existing one is refused leaving the files
    as they were, or replaced when recovery is confirmed and not already active. *)
Theorem acquire_decides self fs : acquire self fs = acquire_spec self fs.
Proof.
  unfold acquire, acquire_spec.
  destruct fs as [[l|] [r|]], self as [[] t n h];
    cbn [run action create_open lock recovery confirmed]; rewrite ?create_write_fresh; reflexivity.
Qed.

(** ** Recovery is not exclusive *)

Definition racer (i : string) : owner := mkOwner true i 7 "host".
Definition act (w : world) (i : string) : world :=
  let '(fs, p) := action (racer i) (files w) (phases w i) in mkWorld fs (<[i := p]> (phases w)).
Definition exit (w : world) (i : string) : world :=
  mkWorld (files w) (<[i := Dead]> (phases w)).

(** ["c"] takes the lock and dies; ["a"] and ["b"] both see its file; ["a"] recovers and
    holds the lock; ["b"] goes on with its own recovery and removes the lock of ["a"]. *)
Definition orphaned : world := exit (foldl act initial ["c"; "c"; "c"]) "c".
Definition both_see_it : world := foldl act orphaned ["a"; "b"; "a"; "b"].
Definition raced : world :=
  foldl act (foldl act both_see_it (replicate 6 "a")) (replicate 6 "b").

Lemma act_steps l w :
  (∀ n i, l !! n = Some i → phases (foldl act w (take n l)) i ≠ Dead) →
  rtc (step racer) w (foldl act w l).
Proof.
  revert w; induction l as [|i l IH]; intros w H; [done|]. simpl.
  apply rtc_l with (act w i).
  - unfold act. destruct (action _ _ _) as [fs p] eqn:Ha.
    apply (step_action racer w i); [by apply (H 0%nat i)|done].
  - apply IH. intros n j Hj. exact (H (S n) j Hj).
Qed.

(** Two confirmed recoveries of the same stale lock can both succeed: although the
    owner of the lock is dead when the operators confirm, two live objects end up
    holding the lock at the same time. *)
Theorem stale_recovery_race :
  reachable racer raced ∧ phases raced "a" = Held ∧ phases raced "b" = Held ∧
  phases both_see_it "c" = Dead ∧
  inode <$> lock (files both_see_it) = Some "c".
Proof.
  split_and!; try (vm_compute; reflexivity). unfold reachable, raced.
  assert (Hlive : ∀ w l, forallb (λ n, match l !! n with
      | Some i => match phases (foldl act w (take n l)) i with Dead => false | _ => true end
      | None => true end) (seq 0 (length l)) = true → rtc (step racer) w (foldl act w l)).
  { intros w l H. apply act_steps. intros n i Hi Hd.
    rewrite forallb_forall in H. specialize (H n). rewrite Hi, Hd in H.
    apply lookup_lt_Some in Hi. discriminate H. apply in_seq. lia. }
  transitivity (foldl act initial ["c"; "c"; "c"]); [by apply Hlive|].
  transitivity orphaned; [by apply rtc_once, step_exit|].
  transitivity both_see_it; [by apply Hlive|].
  transitivity (foldl act both_see_it (replicate 6 "a")); by apply Hlive.
Qed.

(** ** Witness *)

Definition unconfirmed_object (i : string) : owner := mkOwner false i 7 "host".
Lemma unconfirmed_exclusion_witness :
  ∃ w, reachable unconfirmed_object w ∧ phases w "a" = Held ∧ ¬ holds_lock (phases w "b").
Proof.
  set (w1 := mkWorld (mkFs None None) (<["a" := Creating]> (phases initial))).
  set (w2 := mkWorld (mkFs (Some (mkFile "a" None)) None) (<["a" := Writing]> (phases w1))).
  set (w3 := mkWorld (mkFs (Some (mkFile "a" (Some (payload (unconfirmed_object "a"))))) None)
               (<["a" := Held]> (phases w2))).
  assert (Hw : reachable unconfirmed_object w3).
  { apply rtc_l with w1; [by apply step_action|]. apply rtc_l with w2; [by apply step_action|].
    apply rtc_once. by apply step_action. }
  exists w3. split; [exact Hw|]. split; [reflexivity|]. intros Hb.
  assert ("b" = "a") as Hab; [|discriminate Hab].
  apply (unconfirmed_exclusion unconfirmed_object (λ i, eq_refl) w3);
    [by intros|exact Hw|exact Hb|by left].
Defined.
End InventoryRunLock.
