(* ===== verification/RunStateSchema.v ===== *)
(** * The run-state database: tables, constraints, row primitives

    [_SCHEMA] of [run_state/store.py] and [run_state/operations.py]: the five tables,
    each a finite map from its PRIMARY KEY to its row, the CHECK constraints as lists of
    three-valued conditions in the order of the schema, and the INSERT and UPDATE
    statements, which raise [IntegrityError] when a CHECK, PRIMARY KEY, UNIQUE or
    REFERENCES constraint would be violated.  The append-only triggers are modelled by
    the absence of any UPDATE or DELETE primitive on the three history tables, which is
    what the code relies on. *)
From S2P Require Import Prelude Sql RunStateModels.

Open Scope sql_scope.

Record resolution_row := mkResolutionRow {
  rr_resolution_id : string;
  rr_resolution_schema_version : string;
  rr_target_id : string;
  rr_selector : string;
  rr_expected_statutory_type : string;
  rr_initial_sequence : option Z;
  rr_screen_kind : string;
  rr_screen_result : string;
  rr_evaluator_version : option string;
  rr_initial_body_sha256 : string;
  rr_index_attempt_id : option string;
  rr_index_response_sha256 : option string;
  rr_index_parser_version : option string;
  rr_matching_entry_ids_json : string;
  rr_selected_sequence : option Z;
  rr_selected_retrieval_mode : option string;
  rr_selected_url : option string;
  rr_result : string;
  rr_recorded_at_utc : string;
}.

Record tables := mkTables {
  target_state : gmap string target_row;
  attempts : gmap string attempt_row;
  target_slot_resolutions : gmap string resolution_row;
  operation_state : gmap string operation_row;
  operation_attempts : gmap string operation_attempt_row;
}.

Definition empty_tables : tables := mkTables ∅ ∅ ∅ ∅ ∅.

(** ** CHECK constraints *)

Definition bit (z : Z) : tri := sql_in (Some z) [0; 1]%Z.
Definition nonneg_or_null (z : option Z) : tri := is_null z OR sql_ge z 0.
Definition text_in (s : string) (l : list string) : tri := sql_in (Some s) l.
Definition int_is (z n : Z) : tri := sql_eq (Some z) (Some n).
Definition text_is (s t : string) : tri := sql_eq (Some s) (Some t).
Definition text_isnt (s t : string) : tri := sql_ne (Some s) (Some t).

Definition target_state_checks (r : target_row) : list tri :=
  [ bit (ts_executable r);
    text_in (ts_outcome r) ["pending"; "skipped"; "acquired"; "not_filed";
                            "required_missing"; "ambiguous"; "failed"];
    is_null (ts_source r) OR sql_in (ts_source r) ["live_sec"; "fixture_replay"];
    bit (ts_retryable r);
    sql_ge (Some (ts_attempt_count r)) 0;
    nonneg_or_null (ts_source_byte_size r);
    nonneg_or_null (ts_selected_byte_size r);
    int_is (ts_executable r) 1 AND is_null (ts_skip_reason r)
      OR int_is (ts_executable r) 0 AND not_null (ts_skip_reason r);
    text_is (ts_outcome r) "skipped" AND int_is (ts_executable r) 0
      OR text_isnt (ts_outcome r) "skipped" AND int_is (ts_executable r) 1;
    text_is (ts_outcome r) "failed" OR int_is (ts_retryable r) 0 ].

Definition attempts_checks (r : attempt_row) : list tri :=
  [ sql_gt (Some (att_attempt_number r)) 0;
    text_in (att_outcome r) ["acquired"; "not_filed"; "required_missing"; "ambiguous";
                             "failed"];
    text_in (att_attempt_kind r) ["document_body"; "lazy_index"];
    text_in (att_source r) ["live_sec"; "fixture_replay"];
    bit (att_retryable r);
    nonneg_or_null (att_source_byte_size r);
    nonneg_or_null (att_selected_byte_size r);
    text_is (att_outcome r) "failed" OR int_is (att_retryable r) 0 ].

Definition resolutions_checks (r : resolution_row) : list tri :=
  [ text_in (rr_selector r) ["submitted_primary"; "exact_form_with_lazy_index";
                             "sgml_bundle_scan"];
    is_null (rr_initial_sequence r) OR sql_eq (rr_initial_sequence r) (Some 1%Z);
    text_in (rr_screen_kind r) ["none"; "sgml_type"; "html_cover"];
    text_in (rr_screen_result r) ["not_run"; "form_match"; "type_mismatch";
                                  "unverifiable"];
    is_null (rr_selected_sequence r) OR sql_gt (rr_selected_sequence r) 0;
    is_null (rr_selected_retrieval_mode r)
      OR sql_in (rr_selected_retrieval_mode r) ["direct_url"; "bundle_sequence";
                                                "bundle_scan"];
    text_in (rr_result r) ["accepted_sequence_1"; "recovered"; "selected_in_bundle";
                           "not_filed"; "required_missing"; "ambiguous"; "failed"] ].

Definition operation_state_checks (r : operation_row) : list tri :=
  let requested := os_requested r in
  let selected := os_selected r in
  let mode := os_request_mode r in
  let support := os_support_status r in
  let status := os_status r in
  [ bit requested;
    text_in mode ["mandatory_raw"; "profile"; "default_candidate"; "not_requested"];
    bit selected;
    is_null (os_input_ordinal r) OR sql_eq (os_input_ordinal r) (Some 0%Z);
    text_in support ["supported"; "unsupported"; "not_evaluated"];
    text_in status ["pending"; "not_requested"; "unsupported"; "not_selected"; "blocked";
                    "succeeded"; "failed"];
    bit (os_retryable r);
    sql_ge (Some (os_attempt_count r)) 0;
    int_is requested 0 AND text_is mode "not_requested" AND int_is selected 0
        AND text_is support "not_evaluated" AND text_is status "not_requested"
      OR int_is requested 1 AND text_is mode "default_candidate" AND int_is selected 0
        AND text_in support ["supported"; "unsupported"] AND text_is status "not_selected"
      OR int_is requested 1 AND text_isnt mode "default_candidate"
        AND text_is support "unsupported" AND int_is selected 0
        AND text_is status "unsupported"
      OR int_is requested 1 AND text_isnt mode "default_candidate"
        AND text_is support "supported" AND int_is selected 0
        AND text_is status "not_selected"
      OR int_is requested 1 AND text_isnt mode "not_requested"
        AND text_is support "supported" AND int_is selected 1
        AND text_in status ["pending"; "blocked"; "succeeded"; "failed"];
    is_null (os_source_request_id r) AND is_null (os_input_ordinal r)
        AND is_null (os_input_role r)
      OR not_null (os_source_request_id r) AND sql_eq (os_input_ordinal r) (Some 0%Z)
        AND sql_eq (os_input_role r) (Some "selected_target_body");
    text_is support "supported" AND is_null (os_support_reason r)
        AND not_null (os_capability_id r) AND not_null (os_capability_version r)
        AND not_null (os_handler_id r) AND not_null (os_handler_version r)
        AND not_null (os_output_kind r)
      OR text_is support "unsupported" AND not_null (os_support_reason r)
        AND is_null (os_capability_id r) AND is_null (os_capability_version r)
        AND is_null (os_handler_id r) AND is_null (os_handler_version r)
        AND is_null (os_output_kind r)
      OR text_is support "not_evaluated" AND is_null (os_support_reason r)
        AND is_null (os_capability_id r) AND is_null (os_capability_version r)
        AND is_null (os_handler_id r) AND is_null (os_handler_version r)
        AND is_null (os_output_kind r);
    int_is selected 0 OR text_is support "supported";
    text_in status ["blocked"; "unsupported"; "failed"] OR is_null (os_error_code r);
    text_is status "failed" OR int_is (os_retryable r) 0 ].

Definition operation_attempts_checks (r : operation_attempt_row) : list tri :=
  [ sql_gt (Some (oa_attempt_number r)) 0;
    text_in (oa_outcome r) ["succeeded"; "failed"];
    bit (oa_retryable r);
    text_is (oa_outcome r) "failed" OR int_is (oa_retryable r) 0 ].

(** ** Statements *)

Definition check_row (l : list tri) : result unit :=
  raise_if (negb (checks_pass l)) IntegrityError.

Definition present {A} (m : gmap string A) (k : string) : bool :=
  match m !! k with Some _ => true | None => false end.

Definition with_target_state (t : tables) (m : gmap string target_row) : tables :=
  mkTables m (attempts t) (target_slot_resolutions t) (operation_state t)
    (operation_attempts t).
Definition with_attempts (t : tables) (m : gmap string attempt_row) : tables :=
  mkTables (target_state t) m (target_slot_resolutions t) (operation_state t)
    (operation_attempts t).
Definition with_resolutions (t : tables) (m : gmap string resolution_row) : tables :=
  mkTables (target_state t) (attempts t) m (operation_state t) (operation_attempts t).
Definition with_operation_state (t : tables) (m : gmap string operation_row) : tables :=
  mkTables (target_state t) (attempts t) (target_slot_resolutions t) m
    (operation_attempts t).
Definition with_operation_attempts (t : tables) (m : gmap string operation_attempt_row) :
    tables :=
  mkTables (target_state t) (attempts t) (target_slot_resolutions t) (operation_state t) m.

(** [_INSERT_TARGET]: the columns it leaves out take their DEFAULT or NULL. *)
Definition insert_target (t : tables) (seed : string * Z * option string * string) :
    result tables :=
  let '(target_id, executable, skip_reason, outcome) := seed in
  let row := mkTargetState target_id executable skip_reason outcome None 0%Z 0%Z None None
               None None None None None None in
  _ ← check_row (target_state_checks row);
  _ ← raise_if (present (target_state t) target_id) IntegrityError;
  Ok (with_target_state t (<[target_id := row]> (target_state t))).

(** [_UPDATE_TARGET]: the new tables and [cursor.rowcount]. *)
Definition update_target (t : tables) (target_id : string) (f : target_row → target_row) :
    result (tables * nat) :=
  match target_state t !! target_id with
  | Some row =>
      if (ts_executable row =? 1)%Z then
        _ ← check_row (target_state_checks (f row));
        Ok (with_target_state t (<[target_id := f row]> (target_state t)), 1)
      else Ok (t, 0)
  | None => Ok (t, 0)
  end.

(** [_INSERT_ATTEMPT]. *)
Definition insert_attempt (t : tables) (row : attempt_row) : result tables :=
  _ ← check_row (attempts_checks row);
  _ ← raise_if (present (attempts t) (att_attempt_id row)) IntegrityError;
  _ ← raise_if (bool_decide (map_Exists (λ _ r, att_target_id r = att_target_id row ∧
                  att_attempt_number r = att_attempt_number row) (attempts t)))
        IntegrityError;
  _ ← raise_if (negb (present (target_state t) (att_target_id row))) IntegrityError;
  Ok (with_attempts t (<[att_attempt_id row := row]> (attempts t))).

(** [_INSERT_RESOLUTION]. *)
Definition insert_resolution (t : tables) (row : resolution_row) : result tables :=
  _ ← check_row (resolutions_checks row);
  _ ← raise_if (present (target_slot_resolutions t) (rr_resolution_id row)) IntegrityError;
  _ ← raise_if (negb (present (target_state t) (rr_target_id row))) IntegrityError;
  _ ← raise_if (match rr_index_attempt_id row with
                | Some a => negb (present (attempts t) a) | None => false end)
        IntegrityError;
  Ok (with_resolutions t (<[rr_resolution_id row := row]> (target_slot_resolutions t))).

(** The INSERT of [seed_operation_state]. *)
Definition insert_operation (t : tables) (row : operation_row) : result tables :=
  _ ← check_row (operation_state_checks row);
  _ ← raise_if (present (operation_state t) (os_operation_id row)) IntegrityError;
  _ ← raise_if (negb (present (target_state t) (os_target_id row))) IntegrityError;
  Ok (with_operation_state t (<[os_operation_id row := row]> (operation_state t))).

(** UPDATE operation_state ... WHERE operation_id = ?: the new tables and the count. *)
Definition update_operation (t : tables) (operation_id : string)
    (where_ : operation_row → bool) (f : operation_row → operation_row) :
    result (tables * nat) :=
  match operation_state t !! operation_id with
  | Some row =>
      if where_ row then
        _ ← check_row (operation_state_checks (f row));
        Ok (with_operation_state t (<[operation_id := f row]> (operation_state t)), 1)
      else Ok (t, 0)
  | None => Ok (t, 0)
  end.

(** INSERT INTO operation_attempts. *)
Definition insert_operation_attempt (t : tables) (row : operation_attempt_row) :
    result tables :=
  _ ← check_row (operation_attempts_checks row);
  _ ← raise_if (present (operation_attempts t) (oa_attempt_id row)) IntegrityError;
  _ ← raise_if (bool_decide (map_Exists (λ _ r,
                  oa_operation_id r = oa_operation_id row ∧
                  oa_attempt_number r = oa_attempt_number row) (operation_attempts t)))
        IntegrityError;
  _ ← raise_if (negb (present (operation_state t) (oa_operation_id row))) IntegrityError;
  Ok (with_operation_attempts t
        (<[oa_attempt_id row := row]> (operation_attempts t))).

(** ** What the database guarantees *)

(** The constraints of the schema, on a whole database: keys agree with the rows'
    key columns, every CHECK passes, references resolve, UNIQUE pairs are unique. *)
Record constraints_hold (t : tables) : Prop := {
  ch_target k r : target_state t !! k = Some r →
    ts_target_id r = k ∧ checks_pass (target_state_checks r) = true;
  ch_attempt k r : attempts t !! k = Some r →
    att_attempt_id r = k ∧ checks_pass (attempts_checks r) = true ∧
    is_Some (target_state t !! att_target_id r);
  ch_attempt_unique k1 k2 r1 r2 :
    attempts t !! k1 = Some r1 → attempts t !! k2 = Some r2 →
    att_target_id r1 = att_target_id r2 → att_attempt_number r1 = att_attempt_number r2 →
    k1 = k2;
  ch_resolution k r : target_slot_resolutions t !! k = Some r →
    rr_resolution_id r = k ∧ checks_pass (resolutions_checks r) = true ∧
    is_Some (target_state t !! rr_target_id r) ∧
    (∀ a, rr_index_attempt_id r = Some a → is_Some (attempts t !! a));
  ch_operation k r : operation_state t !! k = Some r →
    os_operation_id r = k ∧ checks_pass (operation_state_checks r) = true ∧
    is_Some (target_state t !! os_target_id r);
  ch_operation_attempt k r : operation_attempts t !! k = Some r →
    oa_attempt_id r = k ∧ checks_pass (operation_attempts_checks r) = true ∧
    is_Some (operation_state t !! oa_operation_id r);
  ch_operation_attempt_unique k1 k2 r1 r2 :
    operation_attempts t !! k1 = Some r1 → operation_attempts t !! k2 = Some r2 →
    oa_operation_id r1 = oa_operation_id r2 →
    oa_attempt_number r1 = oa_attempt_number r2 → k1 = k2;
}.

Lemma present_true {A} (m : gmap string A) k : present m k = true ↔ is_Some (m !! k).
Proof. unfold present. destruct (m !! k); split; intros H; try done; by destruct H. Qed.
Lemma present_false {A} (m : gmap string A) k : present m k = false ↔ m !! k = None.
Proof. unfold present. by destruct (m !! k). Qed.
Lemma check_row_Ok l u : check_row l = Ok u ↔ checks_pass l = true.
Proof. unfold check_row. rewrite raise_if_Ok. by boolprop. Qed.

#[export] Hint Rewrite @present_true @present_false : boolprop.

Lemma empty_constraints : constraints_hold empty_tables.
Proof. split; intros *; simpl; rewrite !lookup_empty; done. Qed.

(** Inverting a statement: what held for it to succeed, and what it wrote. *)
Lemma insert_target_inv t seed t' :
  insert_target t seed = Ok t' →
  ∃ row, row = (let '(id, x, s, o) := seed in
                mkTargetState id x s o None 0%Z 0%Z None None None None None None None None) ∧
    checks_pass (target_state_checks row) = true ∧
    target_state t !! ts_target_id row = None ∧
    t' = with_target_state t (<[ts_target_id row := row]> (target_state t)).
Proof.
  destruct seed as [[[id x] s] o]. cbn [insert_target]. intros H. inv_ok.
  rewrite check_row_Ok, present_false in *. eauto 10.
Qed.

Lemma update_target_inv t k f t' n :
  update_target t k f = Ok (t', n) →
  (n = 0 ∧ t' = t) ∨
  (n = 1 ∧ ∃ row, target_state t !! k = Some row ∧ ts_executable row = 1%Z ∧
    checks_pass (target_state_checks (f row)) = true ∧
    t' = with_target_state t (<[k := f row]> (target_state t))).
Proof.
  unfold update_target. intros H. destruct (target_state t !! k) as [row|] eqn:E.
  - destruct (ts_executable row =? 1)%Z eqn:Ex; inv_ok; [right | by left].
    boolprop. rewrite check_row_Ok in *. split; [done|]. by exists row.
  - inv_ok. by left.
Qed.

Lemma insert_attempt_inv t row t' :
  insert_attempt t row = Ok t' →
  checks_pass (attempts_checks row) = true ∧ attempts t !! att_attempt_id row = None ∧
  ¬ map_Exists (λ _ r, att_target_id r = att_target_id row ∧
                  att_attempt_number r = att_attempt_number row) (attempts t) ∧
  is_Some (target_state t !! att_target_id row) ∧
  t' = with_attempts t (<[att_attempt_id row := row]> (attempts t)).
Proof.
  unfold insert_attempt. intros H. inv_ok. rewrite check_row_Ok in *. boolprop.
  repeat split; done.
Qed.

Lemma insert_resolution_inv t row t' :
  insert_resolution t row = Ok t' →
  checks_pass (resolutions_checks row) = true ∧
  target_slot_resolutions t !! rr_resolution_id row = None ∧
  is_Some (target_state t !! rr_target_id row) ∧
  (∀ a, rr_index_attempt_id row = Some a → is_Some (attempts t !! a)) ∧
  t' = with_resolutions t (<[rr_resolution_id row := row]> (target_slot_resolutions t)).
Proof.
  unfold insert_resolution. intros H. inv_ok. rewrite check_row_Ok in *. boolprop.
  repeat split; try done. intros a Ha. rewrite Ha in *. by boolprop.
Qed.

Lemma insert_operation_inv t row t' :
  insert_operation t row = Ok t' →
  checks_pass (operation_state_checks row) = true ∧
  operation_state t !! os_operation_id row = None ∧
  is_Some (target_state t !! os_target_id row) ∧
  t' = with_operation_state t (<[os_operation_id row := row]> (operation_state t)).
Proof.
  unfold insert_operation. intros H. inv_ok. rewrite check_row_Ok in *. boolprop.
  repeat split; done.
Qed.

Lemma update_operation_inv t k w f t' n :
  update_operation t k w f = Ok (t', n) →
  (n = 0 ∧ t' = t) ∨
  (n = 1 ∧ ∃ row, operation_state t !! k = Some row ∧ w row = true ∧
    checks_pass (operation_state_checks (f row)) = true ∧
    t' = with_operation_state t (<[k := f row]> (operation_state t))).
Proof.
  unfold update_operation. intros H. destruct (operation_state t !! k) as [row|] eqn:E.
  - destruct (w row) eqn:Ew; inv_ok; [right | by left].
    rewrite check_row_Ok in *. split; [done|]. by exists row.
  - inv_ok. by left.
Qed.

Lemma insert_operation_attempt_inv t row t' :
  insert_operation_attempt t row = Ok t' →
  checks_pass (operation_attempts_checks row) = true ∧
  operation_attempts t !! oa_attempt_id row = None ∧
  ¬ map_Exists (λ _ r, oa_operation_id r = oa_operation_id row ∧
                  oa_attempt_number r = oa_attempt_number row) (operation_attempts t) ∧
  is_Some (operation_state t !! oa_operation_id row) ∧
  t' = with_operation_attempts t (<[oa_attempt_id row := row]> (operation_attempts t)).
Proof.
  unfold insert_operation_attempt. intros H. inv_ok. rewrite check_row_Ok in *. boolprop.
  repeat split; done.
Qed.

(** Case analysis on a lookup in an updated table. *)
Ltac lookup_cases :=
  repeat match goal with
  | H : <[_:=_]> _ !! _ = Some _ |- _ =>
      apply lookup_insert_Some in H; destruct H as [[? ?]|[? H]]; subst
  end.

Lemma is_Some_insert {A} (m : gmap string A) k x j :
  is_Some (m !! j) → is_Some (<[k := x]> m !! j).
Proof. rewrite lookup_insert_is_Some'. by right. Qed.
#[export] Hint Resolve is_Some_insert : core.

(** The constraints of a database updated in one table follow from the old ones:
    [old_rows Ht] brings in what they say of every row looked up, and [constraints Ht]
    closes the fields of [constraints_hold] the update touches or leaves alone. *)
Ltac old_rows Ht :=
  repeat match goal with
  | H : target_state _ !! _ = Some _ |- _ =>
      apply (ch_target _ Ht) in H as ?; revert H
  | H : attempts _ !! _ = Some _ |- _ =>
      apply (ch_attempt _ Ht) in H as ?; revert H
  | H : target_slot_resolutions _ !! _ = Some _ |- _ =>
      apply (ch_resolution _ Ht) in H as ?; revert H
  | H : operation_state _ !! _ = Some _ |- _ =>
      apply (ch_operation _ Ht) in H as ?; revert H
  | H : operation_attempts _ !! _ = Some _ |- _ =>
      apply (ch_operation_attempt _ Ht) in H as ?; revert H
  end; intros; destruct_and?.
Ltac no_such_pair :=
  exfalso;
  match goal with H : ¬ map_Exists _ _ |- _ => apply H end;
  eexists _, _; split; [eassumption|]; split; congruence.
Ltac constraints Ht :=
  split; simpl; intros; lookup_cases; try congruence;
  try (eapply (ch_attempt_unique _ Ht); eassumption);
  try (eapply (ch_operation_attempt_unique _ Ht); eassumption);
  try no_such_pair;
  old_rows Ht; repeat split; eauto using is_Some_insert with congruence.

Lemma insert_target_constraints t seed t' :
  constraints_hold t → insert_target t seed = Ok t' → constraints_hold t'.
Proof. intros Ht (row & _ & Hc & Hn & ->)%insert_target_inv. constraints Ht. Qed.

Lemma update_target_constraints t k f t' n :
  (∀ r, ts_target_id (f r) = ts_target_id r) →
  constraints_hold t → update_target t k f = Ok (t', n) → constraints_hold t'.
Proof.
  intros Hf Ht [[-> ->]|(-> & row & Hrow & _ & Hc & ->)]%update_target_inv; [done|].
  specialize (Hf row).
  constraints Ht.
Qed.

Lemma insert_attempt_constraints t row t' :
  constraints_hold t → insert_attempt t row = Ok t' → constraints_hold t'.
Proof. intros Ht (Hc & Hn & Hu & Hf & ->)%insert_attempt_inv. constraints Ht. Qed.

Lemma insert_resolution_constraints t row t' :
  constraints_hold t → insert_resolution t row = Ok t' → constraints_hold t'.
Proof. intros Ht (Hc & Hn & Hr & Ha & ->)%insert_resolution_inv. constraints Ht. Qed.

Lemma insert_operation_constraints t row t' :
  constraints_hold t → insert_operation t row = Ok t' → constraints_hold t'.
Proof. intros Ht (Hc & Hn & Hr & ->)%insert_operation_inv. constraints Ht. Qed.

Lemma update_operation_constraints t k w f t' n :
  (∀ r, os_operation_id (f r) = os_operation_id r) →
  (∀ r, os_target_id (f r) = os_target_id r) →
  constraints_hold t → update_operation t k w f = Ok (t', n) → constraints_hold t'.
Proof.
  intros Hf Hg Ht [[-> ->]|(-> & row & Hrow & _ & Hc & ->)]%update_operation_inv;
    [done|].
  specialize (Hf row); specialize (Hg row).
  constraints Ht.
Qed.

Lemma insert_operation_attempt_constraints t row t' :
  constraints_hold t → insert_operation_attempt t row = Ok t' → constraints_hold t'.
Proof.
  intros Ht (Hc & Hn & Hu & Hf & ->)%insert_operation_attempt_inv. constraints Ht.
Qed.

Create HintDb constraints.
#[export] Hint Resolve insert_target_constraints insert_attempt_constraints
  insert_resolution_constraints insert_operation_constraints
  insert_operation_attempt_constraints : constraints.
