(* ===== verification/RunStateOperations.v ===== *)
(** * Operation state of an acquisition run: [run_state/operations.py]

    Seeding, the attempt log of an operation, its readiness, and the audit
    [validate_operation_state].  Every function runs inside the caller's transaction:
    it takes the tables and returns the new ones or raises. *)
From S2P Require Import Prelude Sql Serialization RunStateModels RunStateSchema.

Section operations.
Context (sha256_hexdigest : string → string).

Definition operation_identity (target_id name : string) : string :=
  canonical_hash sha256_hexdigest (JArr [JStr target_id; JStr name]).

Definition _field (operation : pyobj) (name : string) : result pyval :=
  require (operation !! name) (KeyError name).

(** How sqlite3 binds a Python value to a TEXT or an INTEGER column. *)
Definition bind_text (v : pyval) : result (option string) :=
  match v with
  | VNone => Ok None
  | VStr s => Ok (Some s)
  | VInt z => Ok (Some (pretty z))
  | VBool b => Ok (Some (if b then "1" else "0"))
  | VObj _ => Err InterfaceError
  end.
Definition bind_int (v : pyval) : result (option Z) :=
  match v with
  | VNone => Ok None
  | VInt z => Ok (Some z)
  | VBool b => Ok (Some (Z.b2z b))
  | _ => Err InterfaceError
  end.
Definition str_of (v : pyval) : string := match v with VStr s => s | _ => "" end.

(** The initial status and its error code. *)
Definition seed_status (requested selected : bool) (request_mode support_status : pyval) :
    string :=
  if negb requested then "not_requested"
  else if bool_decide (request_mode = VStr "default_candidate") && negb selected
    then "not_selected"
  else if bool_decide (support_status = VStr "unsupported") then "unsupported"
  else if negb selected then "not_selected"
  else "blocked".

Definition seed_error_code (status : string) (support_reason : pyval) : option string :=
  if bool_decide (status = "unsupported")
    then Some ("unsupported:" +:+ str_of support_reason)
  else if bool_decide (status = "blocked")
    then Some "blocked:acquisition_not_ready"
  else None.

(** The sixteen fields of a seed, still untyped. *)
Record WorkOrderOperationSeed := mkSeed {
  seed_operation_id : pyval;
  seed_target_id : pyval;
  seed_operation : pyval;
  seed_requested : pyval;
  seed_request_mode : pyval;
  seed_selected : pyval;
  seed_source_request_id : pyval;
  seed_input_ordinal : pyval;
  seed_input_role : pyval;
  seed_support_status : pyval;
  seed_support_reason : pyval;
  seed_capability_id : pyval;
  seed_capability_version : pyval;
  seed_handler_id : pyval;
  seed_handler_version : pyval;
  seed_output_kind : pyval;
}.

Definition seed_values (operation : pyobj) : result WorkOrderOperationSeed :=
  operation_id ← _field operation "operation_id";
  target_id ← _field operation "target_id";
  name ← _field operation "operation";
  requested ← _field operation "requested";
  request_mode ← _field operation "request_mode";
  selected ← _field operation "selected";
  source_request_id ← _field operation "source_request_id";
  input_ordinal ← _field operation "input_ordinal";
  input_role ← _field operation "input_role";
  support_status ← _field operation "support_status";
  support_reason ← _field operation "support_reason";
  capability_id ← _field operation "capability_id";
  capability_version ← _field operation "capability_version";
  handler_id ← _field operation "handler_id";
  handler_version ← _field operation "handler_version";
  output_kind ← _field operation "output_kind";
  Ok (mkSeed operation_id target_id name requested request_mode selected
        source_request_id input_ordinal input_role support_status support_reason
        capability_id capability_version handler_id handler_version output_kind).

Definition seed_pins (v : WorkOrderOperationSeed) : list pyval :=
  [seed_capability_id v; seed_capability_version v; seed_handler_id v;
   seed_handler_version v; seed_output_kind v].

Definition seed_checks (v : WorkOrderOperationSeed) : result unit :=
  _ ← raise_if (negb (forallb is_nonempty_str [(seed_operation_id v); (seed_target_id v); (seed_operation v)]))
        (ValueError "work-order operation identity must be non-empty");
  _ ← raise_if (negb (py_in (seed_operation v) (VStr <$> ["raw"; "render_to_txt"; "render_to_xml"]))
        || negb (bool_decide ((seed_operation_id v) =
                  VStr (operation_identity (str_of (seed_target_id v)) (str_of (seed_operation v))))))
        (ValueError "work-order operation ID does not match its identity");
  _ ← raise_if (negb (is_bool (seed_requested v)) || negb (is_bool (seed_selected v)))
        (ValueError "work-order operation flags must be boolean");
  _ ← raise_if (negb (py_in (seed_request_mode v) (VStr <$>
          ["mandatory_raw"; "profile"; "default_candidate"; "not_requested"])))
        (ValueError "work-order operation request mode is invalid");
  _ ← raise_if (bool_decide ((seed_operation v) = VStr "raw")
        && (negb (truthy (seed_requested v)) || bool_decide ((seed_request_mode v) ≠ VStr "mandatory_raw")))
        (ValueError "raw operation intent is not mandatory");
  _ ← raise_if (bool_decide ((seed_operation v) ≠ VStr "raw")
        && (truthy (seed_requested v)
              && negb (py_in (seed_request_mode v) (VStr <$> ["profile"; "default_candidate"]))
            || negb (truthy (seed_requested v))
              && bool_decide ((seed_request_mode v) ≠ VStr "not_requested")))
        (ValueError "operation request mode disagrees with requested flag");
  _ ← raise_if (negb (py_in (seed_support_status v) (VStr <$>
          ["supported"; "unsupported"; "not_evaluated"])))
        (ValueError "resolved operation support status is invalid");
  _ ← raise_if (bool_decide ((seed_support_status v) = VStr "supported")
        && (existsb (λ v, negb (is_nonempty_str v)) (seed_pins v) || negb (is_none (seed_support_reason v))))
        (ValueError "supported operation does not contain complete pins");
  _ ← raise_if (bool_decide ((seed_support_status v) = VStr "unsupported")
        && (existsb (λ v, negb (is_none v)) (seed_pins v) || negb (is_nonempty_str (seed_support_reason v))))
        (ValueError "unsupported operation does not contain a reason");
  _ ← raise_if (bool_decide ((seed_support_status v) = VStr "not_evaluated")
        && (truthy (seed_requested v) || existsb (λ v, negb (is_none v)) (seed_pins v)
            || negb (is_none (seed_support_reason v))))
        (ValueError "unevaluated operation has resolved pins");
  _ ← raise_if (truthy (seed_selected v)
        && (negb (truthy (seed_requested v)) || bool_decide ((seed_support_status v) ≠ VStr "supported")))
        (ValueError "unrequested or unsupported operation was selected");
  _ ← raise_if (xorb (is_none (seed_source_request_id v)) (is_none (seed_input_ordinal v))
        || xorb (is_none (seed_source_request_id v)) (is_none (seed_input_role v)))
        (ValueError "resolved operation input references are incomplete");
  raise_if (negb (is_none (seed_input_ordinal v))
        && (negb (py_eqb (seed_input_ordinal v) (VInt 0))
            || negb (bool_decide ((seed_input_role v) = VStr "selected_target_body"))))
        (ValueError "resolved operation input reference is invalid").

Definition seed_row (v : WorkOrderOperationSeed) : result operation_row :=
  let status := seed_status (truthy (seed_requested v)) (truthy (seed_selected v)) (seed_request_mode v)
                  (seed_support_status v) in
  let error_code := seed_error_code status (seed_support_reason v) in
  source_request_id' ← bind_text (seed_source_request_id v);
  input_ordinal' ← bind_int (seed_input_ordinal v);
  input_role' ← bind_text (seed_input_role v);
  support_reason' ← bind_text (seed_support_reason v);
  capability_id' ← bind_text (seed_capability_id v);
  capability_version' ← bind_text (seed_capability_version v);
  handler_id' ← bind_text (seed_handler_id v);
  handler_version' ← bind_text (seed_handler_version v);
  output_kind' ← bind_text (seed_output_kind v);
  Ok (mkOperationState (str_of (seed_operation_id v)) (str_of (seed_target_id v)) (str_of (seed_operation v))
        (py_int (truthy (seed_requested v))) (str_of (seed_request_mode v)) (py_int (truthy (seed_selected v)))
        source_request_id' input_ordinal' input_role' (str_of (seed_support_status v))
        support_reason' capability_id' capability_version' handler_id' handler_version'
        output_kind' status 0%Z 0%Z None error_code).

Definition _operation_seed (operation : pyobj) : result operation_row :=
  values ← seed_values operation;
  _ ← seed_checks values;
  seed_row values.

(** [executemany] over the generator of seeds. *)
Definition seed_operation_state (t : tables) (operations : list pyobj) : result tables :=
  foldr_m (λ t operation, row ← _operation_seed operation; insert_operation t row)
    t operations.

Definition operation_attempt_id (operation_id : string) (attempt_number : Z) :
    result string :=
  _ ← raise_if (bool_decide (operation_id = "") || (attempt_number <? 1)%Z)
        (ValueError "operation attempt identity is invalid");
  Ok (canonical_hash sha256_hexdigest (JArr [JStr operation_id; JInt attempt_number])).

(** [append_operation_attempt]: the checks before the transaction ... *)
Definition operation_attempt_fields_ok (attempt : OperationAttempt) : result unit :=
  _ ← raise_if (oa_attempt_number attempt <? 1)%Z
        (ValueError "operation attempt identity or fields are invalid");
  expected ← operation_attempt_id (oa_operation_id attempt) (oa_attempt_number attempt);
  raise_if (negb (bool_decide (oa_attempt_id attempt = expected))
            || bool_decide (oa_started_at_utc attempt = "")
            || bool_decide (oa_finished_at_utc attempt = "")
            || negb (existsb (λ s, bool_decide (oa_outcome attempt = s))
                       ["succeeded"; "failed"])
            || bool_decide (oa_outcome attempt = "succeeded") && oa_retryable attempt)
    (ValueError "operation attempt identity or fields are invalid").

(** ... and the transaction. *)
Definition append_operation_attempt (t : tables) (attempt : OperationAttempt) :
    result tables :=
  _ ← operation_attempt_fields_ok attempt;
  current ← require (operation_state t !! oa_operation_id attempt)
              (RunStateError "operation is missing or unrequested");
  _ ← raise_if (negb (os_requested current =? 1)%Z || negb (os_selected current =? 1)%Z
                || negb (bool_decide (os_support_status current = "supported")))
        (RunStateError "operation is missing or unrequested");
  _ ← raise_if (negb (oa_attempt_number attempt =? os_attempt_count current + 1)%Z)
        (RunStateError "operation attempt number is not the next attempt");
  _ ← raise_if (negb (bool_decide (os_status current = "pending"))
                && negb (bool_decide (os_status current = "failed")
                         && (os_retryable current =? 1)%Z))
        (RunStateError "operation status is not eligible for an attempt");
  t ← insert_operation_attempt t
        (mkOperationAttempt (oa_attempt_id attempt) (oa_operation_id attempt)
           (oa_attempt_number attempt) (oa_outcome attempt)
           (py_int (oa_retryable attempt)) (oa_error_code attempt)
           (oa_started_at_utc attempt) (oa_finished_at_utc attempt));
  '(t, _) ← update_operation t (oa_operation_id attempt) (λ _, true) (λ row,
        mkOperationState (os_operation_id row) (os_target_id row) (os_operation row)
          (os_requested row) (os_request_mode row) (os_selected row)
          (os_source_request_id row) (os_input_ordinal row) (os_input_role row)
          (os_support_status row) (os_support_reason row) (os_capability_id row)
          (os_capability_version row) (os_handler_id row) (os_handler_version row)
          (os_output_kind row)
          (if bool_decide (oa_outcome attempt = "succeeded") then "succeeded" else "failed")
          (py_int (oa_retryable attempt)) (oa_attempt_number attempt)
          (Some (oa_attempt_id attempt)) (oa_error_code attempt));
  Ok t.

(** UPDATE operation_state SET status, retryable = 0, error_code *)
Definition set_readiness (status : string) (error_code : option string)
    (row : operation_row) : operation_row :=
  mkOperationState (os_operation_id row) (os_target_id row) (os_operation row)
    (os_requested row) (os_request_mode row) (os_selected row)
    (os_source_request_id row) (os_input_ordinal row) (os_input_role row)
    (os_support_status row) (os_support_reason row) (os_capability_id row)
    (os_capability_version row) (os_handler_id row) (os_handler_version row)
    (os_output_kind row) status 0%Z (os_attempt_count row) (os_last_attempt_id row)
    error_code.

(** The SELECT: the operations of the target that wait for its body. *)
Definition unattempted_operations (t : tables) (target_id : string) : list string :=
  (filter (λ kv : string * operation_row,
     os_target_id kv.2 = target_id ∧ os_requested kv.2 = 1%Z ∧ os_selected kv.2 = 1%Z ∧
     os_support_status kv.2 = "supported" ∧ os_attempt_count kv.2 = 0%Z)
    (map_to_list (operation_state t))).*1.

Definition target_ready (target : target_row) : bool :=
  bool_decide (ts_outcome target = "acquired")
  && match ts_selected_body_relative_path target with Some _ => true | None => false end.

Definition refresh_operation_readiness (t : tables) (target_id : string) :
    result (tables * nat) :=
  match target_state t !! target_id with
  | None => Ok (t, 0)
  | Some target =>
      let ready := target_ready target in
      let status := if ready then "pending" else "blocked" in
      let error_code := if ready then None else Some "blocked:acquisition_not_ready" in
      foldr_m (λ '(t, changed) operation_id,
          '(t, n) ← update_operation t operation_id
            (λ row, bool_decide (os_status row = "pending")
                    || bool_decide (os_status row = "blocked"))
            (set_readiness status error_code);
          Ok (t, changed + n))
        (t, 0) (unattempted_operations t target_id)
  end.

Definition get_operation_state (t : tables) (operation_id : string) :
    option OperationState :=
  _operation_state_from_row <$> operation_state t !! operation_id.

(** ORDER BY attempt_number *)
Definition attempt_number_le (x y : operation_attempt_row) : Prop :=
  (oa_attempt_number x ≤ oa_attempt_number y)%Z.
#[global] Instance attempt_number_le_dec : RelDecision attempt_number_le.
Proof. unfold attempt_number_le. intros x y. apply _. Defined.

Definition history_of (t : tables) (operation_id : string) :
    list operation_attempt_row :=
  filter (λ r, oa_operation_id r = operation_id) (map_to_list (operation_attempts t)).*2.

Definition list_operation_attempts (t : tables) (operation_id : string) :
    list OperationAttempt :=
  _operation_attempt_from_row <$>
    merge_sort attempt_number_le (history_of t operation_id).

(** ORDER BY target_id, operation *)
Definition operation_order (x y : operation_row) : Prop :=
  if decide (os_target_id x = os_target_id y)
  then String.le (os_operation x) (os_operation y)
  else String.le (os_target_id x) (os_target_id y).
#[global] Instance operation_order_dec : RelDecision operation_order.
Proof. unfold operation_order. intros x y. case_decide; apply _. Defined.

Definition iter_operation_states (t : tables) (target_id : option string) :
    list OperationState :=
  let rows := (map_to_list (operation_state t)).*2 in
  let rows := match target_id with
              | Some target_id => filter (λ r, os_target_id r = target_id) rows
              | None => rows
              end in
  _operation_state_from_row <$> merge_sort operation_order rows.

(** ** [validate_operation_state]

    The query joins every operation with its target, with the aggregate of its
    attempts ([history]) and with the attempt numbered like its count ([latest]). *)
Definition sql_min (l : list Z) : option Z :=
  foldr (λ z o, Some (match o with Some m => Z.min z m | None => z end)) None l.
Definition sql_max (l : list Z) : option Z :=
  foldr (λ z o, Some (match o with Some m => Z.max z m | None => z end)) None l.

Definition expected_status (state : operation_row) (target : target_row) : string :=
  if (os_requested state =? 0)%Z then "not_requested"
  else if bool_decide (os_request_mode state = "default_candidate")
          && (os_selected state =? 0)%Z then "not_selected"
  else if bool_decide (os_support_status state = "unsupported") then "unsupported"
  else if (os_selected state =? 0)%Z then "not_selected"
  else if target_ready target then "pending"
  else "blocked".

Definition expected_error (state : operation_row) : option string :=
  if bool_decide (os_status state = "blocked") then Some "blocked:acquisition_not_ready"
  else if bool_decide (os_status state = "unsupported")
    then (λ r, "unsupported:" +:+ r) <$> os_support_reason state
  else None.

Definition operation_mismatch (t : tables) (state : operation_row) (target : target_row) :
    tri :=
  let numbers := oa_attempt_number <$> history_of t (os_operation_id state) in
  let latest := head (filter (λ a, oa_attempt_number a = os_attempt_count state)
                        (history_of t (os_operation_id state))) in
  let count := os_attempt_count state in
  (sql_ne (Some count) (Some (Z.of_nat (length numbers)))
   OR int_is count 0 AND
        (not_null (os_last_attempt_id state) OR sql_ne (Some (os_retryable state)) (Some 0%Z)
         OR text_isnt (os_status state) (expected_status state target)
         OR is_not (os_error_code state) (expected_error state))
   OR sql_gt (Some count) 0 AND
        (sql_ne (sql_min numbers) (Some 1%Z) OR sql_ne (sql_max numbers) (Some count)
         OR sql_ne (Some (os_requested state)) (Some 1%Z)
         OR sql_ne (Some (os_selected state)) (Some 1%Z)
         OR text_isnt (os_support_status state) "supported"
         OR is_not (oa_attempt_id <$> latest) (os_last_attempt_id state)
         OR is_not (latest ≫= oa_error_code) (os_error_code state)
         OR sql_ne (oa_retryable <$> latest) (Some (os_retryable state))
         OR sql_ne (oa_outcome <$> latest) (Some (os_status state))))%sql.

Definition validate_operation_state (t : tables) : result unit :=
  let rows := (map_to_list (operation_state t)).*2 in
  _ ← raise_if (existsb (λ state, match target_state t !! os_target_id state with
                  | Some target => where_holds (operation_mismatch t state target)
                  | None => false
                  end) rows)
        (RunStateError "operation state does not match its attempt history");
  raise_if (existsb (λ state, negb (bool_decide (os_operation_id state =
              operation_identity (os_target_id state) (os_operation state)))) rows)
    (RunStateError "operation state identity is invalid").

(** ** Seeds *)

(** What an accepted seed says: which operation, whether it was requested, how its
    support was resolved, and the initial projection. *)
Definition support_shape (row : operation_row) : Prop :=
  let pins := [os_capability_id row; os_capability_version row; os_handler_id row;
               os_handler_version row; os_output_kind row] in
  (os_support_status row = "supported" ∧ Forall is_Some pins ∧
     os_support_reason row = None) ∨
  (os_support_status row = "unsupported" ∧ Forall (.= None) pins ∧
     is_Some (os_support_reason row)) ∨
  (os_support_status row = "not_evaluated" ∧ Forall (.= None) pins ∧
     os_support_reason row = None ∧ os_requested row = 0%Z).

Definition intent_shape (row : operation_row) : Prop :=
  (os_requested row = 0%Z ∧ os_operation row ≠ "raw" ∧ os_selected row = 0%Z ∧
     os_request_mode row = "not_requested") ∨
  (os_requested row = 1%Z ∧
     (os_operation row = "raw" ∧ os_request_mode row = "mandatory_raw" ∨
      os_operation row ≠ "raw" ∧ os_request_mode row ∈ ["profile"; "default_candidate"]) ∧
     (os_selected row = 0%Z ∨
      os_selected row = 1%Z ∧ os_support_status row = "supported")).

Definition input_shape (row : operation_row) : Prop :=
  (os_source_request_id row = None ∧ os_input_ordinal row = None ∧
     os_input_role row = None) ∨
  (is_Some (os_source_request_id row) ∧ os_input_ordinal row = Some 0%Z ∧
     os_input_role row = Some "selected_target_body").

(** The status of a fresh seed: as the audit expects it before acquisition. *)
Definition initial_status (row : operation_row) : string :=
  if (os_requested row =? 0)%Z then "not_requested"
  else if bool_decide (os_request_mode row = "default_candidate")
          && (os_selected row =? 0)%Z then "not_selected"
  else if bool_decide (os_support_status row = "unsupported") then "unsupported"
  else if (os_selected row =? 0)%Z then "not_selected"
  else "blocked".

Record accepted_seed (row : operation_row) : Prop := {
  as_identity :
    os_operation_id row = operation_identity (os_target_id row) (os_operation row);
  as_operation : os_operation row ∈ ["raw"; "render_to_txt"; "render_to_xml"];
  as_intent : intent_shape row;
  as_support : support_shape row;
  as_input : input_shape row;
  as_status : os_status row = initial_status row;
  as_error : os_error_code row = expected_error row;
  as_fresh : os_retryable row = 0%Z ∧ os_attempt_count row = 0%Z ∧
    os_last_attempt_id row = None;
}.

Ltac split_guards :=
  repeat match goal with
  | H : _ || _ = false |- _ => apply orb_false_iff in H; destruct H
  | H : negb _ = false |- _ => apply negb_false_iff in H
  | H : forallb _ (_ :: _) = true |- _ => cbn [forallb] in H
  | H : _ && _ = true |- _ => apply andb_true_iff in H; destruct H
  | H : is_bool ?x = true |- _ => destruct x; try discriminate H; clear H
  | H : bool_decide (_ = _) = true |- _ => apply bool_decide_eq_true in H
  end.
Ltac nonempty_strs :=
  repeat match goal with
  | H : is_nonempty_str ?x = true |- _ => apply is_nonempty_str_true in H as (? & -> & ?)
  end.
(** [x in {...}] over string literals, case by case. *)
Ltac in_literals x :=
  match goal with
  | H : negb (py_in x _) = false |- _ => apply negb_false_iff in H; in_literals x
  | H : py_in x _ = true |- _ =>
      unfold py_in in H; cbn in H;
      repeat (apply orb_true_iff in H; destruct H as [H|H]; [apply py_eqb_str in H|]);
      try discriminate H; subst x
  end.

Lemma bind_text_str v o : is_nonempty_str v = true → bind_text v = Ok o → o = Some (str_of v).
Proof. intros (s & -> & _)%is_nonempty_str_true. by intros [= <-]. Qed.
Lemma bind_text_nonempty v o :
  is_nonempty_str v = true → bind_text v = Ok o → is_Some o.
Proof. intros Hv Ho. rewrite (bind_text_str v o Hv Ho). eauto. Qed.
Lemma bind_text_none v o : is_none v = true → bind_text v = Ok o → o = None.
Proof. destruct v; try done. by intros _ [= <-]. Qed.
Lemma bind_int_eq0 v o : py_eqb v (VInt 0) = true → bind_int v = Ok o → o = Some 0%Z.
Proof.
  destruct v as [|[]|z| |]; try done; cbn; [by intros _ [= <-]|].
  boolprop. intros ->. by intros [= <-].
Qed.
Lemma bind_text_some v o : is_none v = false → bind_text v = Ok o → is_Some o.
Proof. destruct v; simpl; naive_solver. Qed.

Lemma seed_input_shape source ordinal role source' ordinal' role' :
  xorb (is_none source) (is_none ordinal) = false →
  xorb (is_none source) (is_none role) = false →
  negb (is_none ordinal) && (negb (py_eqb ordinal (VInt 0))
    || negb (bool_decide (role = VStr "selected_target_body"))) = false →
  bind_text source = Ok source' → bind_int ordinal = Ok ordinal' →
  bind_text role = Ok role' →
  (source' = None ∧ ordinal' = None ∧ role' = None) ∨
  (is_Some source' ∧ ordinal' = Some 0%Z ∧ role' = Some "selected_target_body").
Proof.
  intros H1 H2 H3 Hs Ho Hr. destruct (is_none source) eqn:Es;
    destruct (is_none ordinal) eqn:Eo; try discriminate H1;
    destruct (is_none role) eqn:Er; try discriminate H2.
  - left. split_and!; eauto using bind_text_none. destruct ordinal; try done.
    by injection Ho.
  - right. simpl in H3. split_guards. subst role. injection Hr as <-.
    eauto using bind_int_eq0, bind_text_some.
Qed.

Lemma bound_pins (test : pyval → bool) (P : option string → Prop) pins pins' :
  (∀ v o, test v = true → bind_text v = Ok o → P o) →
  existsb (λ v, negb (test v)) pins = false →
  Forall2 (λ v o, bind_text v = Ok o) pins pins' → Forall P pins'.
Proof.
  intros Ht He Hb. induction Hb as [|v o pins pins' Hv Hb IH]; [done|].
  simpl in He. split_guards. constructor; eauto.
Qed.

Ltac open_seed v :=
  destruct v as [opid tid name requested mode selected source ordinal role support reason
                 p1 p2 p3 p4 p5];
  unfold seed_checks, seed_row, seed_pins; cbn -[py_in bind_text fmap];
  intros Hc Hr; inv_ok; cbn -[py_in bind_text seed_status fmap] in *.

Ltac pins := nonempty_strs; split_and!; try done; repeat (apply Forall_cons_2 || apply Forall_nil_2);
  repeat match goal with H : bind_text (VStr _) = Ok _ |- _ => injection H as <- end;
  eauto 3 using bind_text_none.

Ltac literals := cbn in *; autorewrite with literals in *; cbn in *.

(** The guards on support status, pins and reason leave three shapes. *)
Lemma seed_support_shape v row :
  seed_checks v = Ok () → seed_row v = Ok row → support_shape row.
Proof.
  unfold support_shape. open_seed v. in_literals support; literals; split_guards.
  - left. pins.
  - right; left. pins.
  - right; right. pins. by destruct b0.
Qed.

Lemma seed_intent_shape v row :
  seed_checks v = Ok () → seed_row v = Ok row → intent_shape row.
Proof.
  unfold intent_shape. open_seed v. split_guards.
  repeat match goal with
  | H : context [p1] |- _ => clear H | H : context [source] |- _ => clear H
  | H : context [reason] |- _ => clear H | H : context [ordinal] |- _ => clear H
  end.
  assert (Hsup : b = true → b0 = true ∧ support = VStr "supported").
  { intros ->. cbn in *. split_guards. by boolprop; split; [|apply dec_stable]. }
  clear H18. in_literals name; in_literals mode; literals; destruct b, b0; literals;
    try discriminate; try (destruct Hsup as [? ->]; [done|]); try discriminate;
    first [ by left
          | right; split_and!;
            [ done | first [by left | right; split; [done | set_solver]]
            | first [by left | by right] ] ].
Qed.

Lemma seed_input_ok v row :
  seed_checks v = Ok () → seed_row v = Ok row → input_shape row.
Proof. 
  unfold input_shape. open_seed v. split_guards. eapply (seed_input_shape source ordinal role); eassumption.
Qed.

Ltac split_elem_in H :=
  repeat (apply elem_of_cons in H; destruct H as [->|H]); [..|by apply not_elem_of_nil in H].

Lemma seed_status_initial row b0 b :
  os_requested row = py_int b0 → os_selected row = py_int b →
  seed_status b0 b (VStr (os_request_mode row)) (VStr (os_support_status row)) =
  initial_status row.
Proof.
  unfold seed_status, initial_status. intros -> ->. autorewrite with literals.
  by destruct b0, b.
Qed.

(** The guards that fix the identity, the flags and the literals. *)
Lemma seed_literals v row :
  seed_checks v = Ok () → seed_row v = Ok row →
  os_operation_id row = operation_identity (os_target_id row) (os_operation row) ∧
  os_operation row ∈ ["raw"; "render_to_txt"; "render_to_xml"] ∧
  (∃ b0 b, seed_requested v = VBool b0 ∧ seed_selected v = VBool b) ∧
  seed_request_mode v = VStr (os_request_mode row) ∧
  seed_support_status v = VStr (os_support_status row) ∧
  bind_text (seed_support_reason v) = Ok (os_support_reason row) ∧
  (os_support_status row = "unsupported" →
     seed_support_reason v = VStr (str_of (seed_support_reason v))).
Proof.
  open_seed v. split_guards. nonempty_strs.
  repeat match goal with
  | H : py_in ?x (VStr <$> _) = true |- _ =>
      apply py_in_strs in H; destruct H as (? & H & ?); simplify_eq
  end.
  cbn in *. split_and!; eauto. intros ->. autorewrite with literals in *.
  cbn in *. split_guards. by nonempty_strs.
Qed.

Lemma seed_expected_error row reason :
  bind_text reason = Ok (os_support_reason row) →
  (os_status row = "unsupported" → reason = VStr (str_of reason)) →
  seed_error_code (os_status row) reason = expected_error row.
Proof.
  intros Hb Hr. unfold seed_error_code, expected_error. repeat case_bool_decide; try congruence.
  rewrite (Hr H) in Hb. injection Hb as <-. done.
Qed.

(** Every operation that [_operation_seed] lets through. *)
Lemma operation_seed_accepted operation row :
  _operation_seed operation = Ok row → accepted_seed row.
Proof.
  unfold _operation_seed. intros H. inv_ok.
  match goal with H : seed_checks ?v = Ok ?u, Hr : seed_row ?v = _ |- _ => destruct u;
    destruct (seed_literals v _ H Hr) as (? & ? & (b0 & b & Hq & Hs) & Hm & Hp & Hb & Hu);
    pose proof (seed_support_shape v _ H Hr); pose proof (seed_intent_shape v _ H Hr);
    pose proof (seed_input_ok v _ H Hr); clear H; unfold seed_row in Hr end.
  inv_ok. rewrite Hq, Hs, Hm, Hp in *. cbn -[seed_status] in *.
  split; try done.
  - match goal with |- os_status ?r = _ =>
      exact (seed_status_initial r b0 b eq_refl eq_refl) end.
  - match goal with |- os_error_code ?r = _ => apply (seed_expected_error r) end; [done|]. intros Hst. apply Hu. cbn in Hst.
    unfold seed_status in Hst. repeat case_match; try discriminate Hst. by boolprop; simplify_eq.
Qed.

(** The row of an accepted seed satisfies every CHECK of [operation_state], except that
    an operation nobody requested must also be unevaluated. *)
Lemma accepted_seed_checks row :
  accepted_seed row →
  checks_pass (operation_state_checks row) =
    (os_requested row =? 1)%Z || bool_decide (os_support_status row = "not_evaluated").
Proof.
  destruct row as [opid tid op requested mode selected source ordinal role support reason
                   p1 p2 p3 p4 p5 status retryable count last error].
  intros [_ _ Hi Hs Hin Hst He (Hr & Hc & Hl)].
  unfold intent_shape, support_shape, input_shape, expected_error, initial_status in *.
  cbn in *. subst retryable count last. rewrite !Forall_cons, Forall_nil in Hs.
  destruct Hin as [(-> & -> & ->)|([src ->] & -> & ->)];
  destruct Hs as [(-> & ([? ->] & [? ->] & [? ->] & [? ->] & [? ->] & _) & ->)
                 |[(-> & (-> & -> & -> & -> & -> & _) & [? ->])
                  |(-> & (-> & -> & -> & -> & -> & _) & -> & ->)]];
  destruct Hi as [(Hq & Hop & -> & ->)|(Hq & [[-> ->]|[Hop Hm]] & [->|[-> Hsup]])];
  try discriminate; try subst requested; try (split_elem_in Hm);
  cbn in Hst; subst status; cbn in He; subst error; reflexivity.
Qed.
End operations.
