(* ===== verification/RunStateStore.v ===== *)
(** * The run-state store: [run_state/store.py]

    Creating the database, recording attempts with the projection of their target, the
    selections a runner iterates over, and the status report.  [tables] and its
    statements come from RunStateSchema, the operation table from RunStateOperations. *)
From S2P Require Import Prelude Sql Serialization Url.
From S2P Require Import RunStateModels RunLock RunStateSchema RunStateOperations.

Definition SCHEMA_VERSION : Z := 6.
Definition _OUTCOMES : list string :=
  ["pending"; "skipped"; "acquired"; "not_filed"; "required_missing"; "ambiguous"; "failed"].

(** A database file: PRAGMA user_version, the tables of [_SCHEMA] once they were created,
    and how many other tables there are.  A file that does not exist yet is the empty
    database. *)
Record database := mkDatabase {
  user_version : Z;
  schema : option tables;
  other_tables : nat;
}.
Definition empty_database : database := mkDatabase 0 None 0.

(** BEGIN IMMEDIATE; body; COMMIT, and ROLLBACK when the body raises. *)
Definition transaction (db : database) (body : database → result database) :
    database * result unit :=
  match body db with
  | Ok db' => (db', Ok ())
  | Err e => (db, Err e)
  end.

Definition _require_schema (db : database) : result unit :=
  raise_if (negb (user_version db =? SCHEMA_VERSION)%Z)
    (RunStateError "unsupported run-state schema version").

(** A statement on the tables: "no such table" when they were never created. *)
Definition on_tables (db : database) (f : tables → result tables) : result database :=
  t ← require (schema db) OperationalError;
  t' ← f t;
  Ok (mkDatabase (user_version db) (Some t') (other_tables db)).

Section store.
Context (sha256_hexdigest : string → string).
Abbreviation seed_operation_state := (seed_operation_state sha256_hexdigest).
Abbreviation validate_operation_state := (validate_operation_state sha256_hexdigest).

Definition _target_seed (target : pyobj) : result (string * Z * option string * string) :=
  target_id ← require (target !! "target_id") (KeyError "target_id");
  executable ← require (target !! "executable") (KeyError "executable");
  skip_reason ← require (target !! "skip_reason") (KeyError "skip_reason");
  _ ← raise_if (negb (is_nonempty_str target_id))
        (ValueError "work-order target ID must be a non-empty string");
  _ ← raise_if (negb (is_bool executable))
        (ValueError "work-order executable flag must be boolean");
  _ ← raise_if (truthy executable && negb (is_none skip_reason))
        (ValueError "executable work-order targets cannot have a skip reason");
  _ ← raise_if (negb (truthy executable) && negb (is_nonempty_str skip_reason))
        (ValueError "skipped work-order targets require a skip reason");
  Ok (str_of target_id, py_int (truthy executable),
      match skip_reason with VStr s => Some s | _ => None end,
      if truthy executable then "pending" else "skipped").

Definition initialize_body (targets operations : list pyobj) (db : database) :
    result database :=
  db ← (if (user_version db =? 0)%Z && match schema db with None => true | _ => false end
           && (other_tables db =? 0)%nat
        then Ok (mkDatabase SCHEMA_VERSION (Some empty_tables) 0)
        else _ ← _require_schema db; Ok db);
  db ← foldr_m (λ db target, seed ← _target_seed target;
                             on_tables db (λ t, insert_target t seed)) db targets;
  on_tables db (λ t, seed_operation_state t operations).

Definition initialize_run_state (db : database) (targets operations : list pyobj) :
    database * result unit :=
  transaction db (initialize_body targets operations).

(** [_attempt_values]: the row of an attempt. *)
Definition _attempt_values (attempt : AcquisitionAttempt) : result attempt_row :=
  requested_url ← _url_value (Some (att_requested_url attempt)) "requested_url" true;
  final_url ← _url_value (att_final_url attempt) "final_url" false;
  Ok (mkAttempt (att_attempt_id attempt) (att_target_id attempt)
        (att_attempt_number attempt) (att_attempt_kind attempt) (att_source attempt)
        (default "" requested_url) (att_outcome attempt) (py_int (att_retryable attempt))
        (att_error_code attempt) (att_http_status attempt) final_url
        (att_started_at_utc attempt) (att_finished_at_utc attempt)
        (att_source_sha256 attempt) (att_source_byte_size attempt)
        (att_source_body_relative_path attempt) (att_selected_sha256 attempt)
        (att_selected_byte_size attempt) (att_selected_body_relative_path attempt)
        (att_selected_filename attempt)).

(** The parameters of [_UPDATE_TARGET], applied to the row. *)
Definition project (outcome : AcquisitionOutcome) (row : target_row) : target_row :=
  mkTargetState (ts_target_id row) (ts_executable row) (ts_skip_reason row)
    (out_status outcome) (out_source outcome) (py_int (out_retryable outcome))
    (out_attempt_count outcome) (out_last_attempt_id outcome) (out_error_code outcome)
    (out_source_sha256 outcome) (out_source_byte_size outcome)
    (out_source_body_relative_path outcome) (out_selected_sha256 outcome)
    (out_selected_byte_size outcome) (out_selected_body_relative_path outcome).

(** The end of both writers: the projection and the readiness of its operations. *)
Definition update_projection (t : tables) (outcome : AcquisitionOutcome) : result tables :=
  '(t, rowcount) ← update_target t (out_target_id outcome) (project outcome);
  _ ← raise_if (negb (rowcount =? 1)%nat)
        (RunStateError "target projection update did not match one target");
  '(t, _) ← refresh_operation_readiness t (out_target_id outcome);
  Ok t.

(** The SELECT and the checks on the current row: the target must be executable. *)
Definition current_target (t : tables) (target_id : string) : result target_row :=
  current ← require (target_state t !! target_id)
              (RunStateError "attempt target is missing or not executable");
  _ ← raise_if (negb (ts_executable current =? 1)%Z)
        (RunStateError "attempt target is missing or not executable");
  Ok current.
Definition eligible (current : target_row) : bool :=
  bool_decide (ts_outcome current = "pending")
  || bool_decide (ts_outcome current = "failed") && (ts_retryable current =? 1)%Z.

(** [append_attempt_and_update_target] *)
Definition append_checks (attempt : AcquisitionAttempt) (outcome : AcquisitionOutcome) :
    result attempt_row :=
  values ← _attempt_values attempt;
  _ ← raise_if (negb (bool_decide (att_target_id attempt = out_target_id outcome)))
        (ValueError "attempt and outcome target IDs differ");
  _ ← raise_if (negb (bool_decide (att_outcome attempt = out_status outcome)))
        (ValueError "attempt and target outcome differ");
  _ ← raise_if (negb (bool_decide (Some (att_source attempt) = out_source outcome))
                || negb (bool_decide (att_retryable attempt = out_retryable outcome)))
        (ValueError "attempt and target source/retry state differ");
  _ ← raise_if (negb (bool_decide (
          (att_error_code attempt, att_source_sha256 attempt,
           att_source_byte_size attempt, att_source_body_relative_path attempt,
           att_selected_sha256 attempt, att_selected_byte_size attempt,
           att_selected_body_relative_path attempt) =
          (out_error_code outcome, out_source_sha256 outcome,
           out_source_byte_size outcome, out_source_body_relative_path outcome,
           out_selected_sha256 outcome, out_selected_byte_size outcome,
           out_selected_body_relative_path outcome))))
        (ValueError "attempt and target evidence differ");
  Ok values.

Definition append_tables (values : attempt_row) (attempt : AcquisitionAttempt)
    (outcome : AcquisitionOutcome) (t : tables) : result tables :=
  current ← current_target t (att_target_id attempt);
  _ ← raise_if (negb (att_attempt_number attempt =? ts_attempt_count current + 1)%Z)
        (RunStateError "attempt number is not the next target attempt");
  _ ← raise_if (negb (eligible current))
        (RunStateError "target outcome is not eligible for an attempt");
  _ ← raise_if (negb (out_attempt_count outcome =? att_attempt_number attempt)%Z
        || negb (bool_decide (out_last_attempt_id outcome = Some (att_attempt_id attempt))))
        (ValueError "outcome attempt projection is inconsistent");
  t ← insert_attempt t values;
  update_projection t outcome.

Definition append_attempt_and_update_target (db : database)
    (attempt : AcquisitionAttempt) (outcome : AcquisitionOutcome) :
    database * result unit :=
  match (values ← append_checks attempt outcome; _ ← _require_schema db; Ok values) with
  | Err e => (db, Err e)
  | Ok values =>
      transaction db (λ db, on_tables db (append_tables values attempt outcome))
  end.

(** [commit_attempts_and_update_target] *)
Definition resolution_status (result_ : string) : option string :=
  (list_to_map [("accepted_sequence_1", "acquired"); ("recovered", "acquired");
     ("selected_in_bundle", "acquired"); ("not_filed", "not_filed");
     ("required_missing", "required_missing"); ("ambiguous", "ambiguous");
     ("failed", "failed")] : gmap string string) !! result_.

Definition resolution_checks (resolution : TargetSlotResolution)
    (recorded_at_utc : option string) (outcome : AcquisitionOutcome) : result unit :=
  _ ← raise_if (negb (bool_decide (res_target_id resolution = out_target_id outcome)))
        (ValueError "resolution and outcome target IDs differ");
  _ ← (if bool_decide (res_selector resolution = "sgml_bundle_scan")
       then raise_if (bool_decide (res_index_attempt_id resolution ≠ None))
              (ValueError "bundle-scan resolution must not reference an index attempt")
       else raise_if (bool_decide (res_index_attempt_id resolution = None))
              (ValueError "resolution must reference its lazy-index attempt"));
  _ ← raise_if (bool_decide (recorded_at_utc = None) || bool_decide (recorded_at_utc = Some ""))
        (ValueError "recorded_at_utc is required with a resolution");
  expected_status ← require (resolution_status (res_result resolution))
                      (KeyError (res_result resolution));
  let expected_status :=
    if bool_decide (out_status outcome = "acquired")
       && bool_decide (res_selected_url resolution = None)
       && existsb (λ s, bool_decide (res_result resolution = s))
            ["not_filed"; "required_missing"; "ambiguous"; "failed"]
    then "acquired" else expected_status in
  raise_if (negb (bool_decide (out_status outcome = expected_status)))
    (ValueError "resolution result and target outcome differ").

(** json.dumps(list(...), ensure_ascii=False, separators=(",", ":")) *)
Definition matching_entry_ids_json (ids : list string) : string :=
  dumps escape_char_unicode (JArr (JStr <$> ids)).

Definition resolution_values (resolution : TargetSlotResolution) (selected_url : option string)
    (recorded_at_utc : string) : resolution_row :=
  mkResolutionRow (res_resolution_id resolution) (res_resolution_schema_version resolution)
    (res_target_id resolution) (res_selector resolution)
    (res_expected_statutory_type resolution) (res_initial_sequence resolution)
    (res_screen_kind resolution) (res_screen_result resolution)
    (res_evaluator_version resolution) (res_initial_body_sha256 resolution)
    (res_index_attempt_id resolution) (res_index_response_sha256 resolution)
    (res_index_parser_version resolution)
    (matching_entry_ids_json (res_matching_entry_ids resolution))
    (res_selected_sequence resolution) (res_selected_retrieval_mode resolution)
    selected_url (res_result resolution) recorded_at_utc.

Definition insert_attempts (t : tables) (values : list attempt_row) : result tables :=
  foldr_m insert_attempt t values.

(** The part of the commit that writes the resolution. *)
Definition commit_resolution (t : tables) (resolution : TargetSlotResolution)
    (recorded_at_utc : option string) (outcome : AcquisitionOutcome) : result tables :=
  _ ← match res_index_attempt_id resolution with
      | None => Ok ()
      | Some index_attempt_id =>
          raise_if (negb (bool_decide (
              (λ r, (att_target_id r, att_attempt_kind r)) <$> attempts t !! index_attempt_id
              = Some (out_target_id outcome, "lazy_index"))))
            (ValueError "resolution index attempt is missing or mismatched")
      end;
  selected_url ← _url_value (res_selected_url resolution) "selected_url" false;
  insert_resolution t
    (resolution_values resolution selected_url (default "" recorded_at_utc)).

Definition commit_tables (values : list attempt_row) (attempts : list AcquisitionAttempt)
    (outcome : AcquisitionOutcome) (resolution : option TargetSlotResolution)
    (recorded_at_utc : option string) (t : tables) : result tables :=
  current ← current_target t (out_target_id outcome);
  _ ← raise_if (negb (eligible current))
        (RunStateError "target outcome is not eligible for an attempt");
  _ ← raise_if (negb (bool_decide (att_attempt_number <$> attempts =
                  seqZ (ts_attempt_count current + 1) (Z.of_nat (length attempts)))))
        (RunStateError "attempt numbers are not contiguous for the target");
  final_attempt ← require (last attempts)
                    (ValueError "at least one acquisition attempt is required");
  _ ← raise_if (negb (out_attempt_count outcome =? att_attempt_number final_attempt)%Z
        || negb (bool_decide (out_last_attempt_id outcome
                              = Some (att_attempt_id final_attempt))))
        (ValueError "outcome attempt projection is inconsistent");
  _ ← raise_if (negb (bool_decide (out_source outcome = Some (att_source final_attempt)))
        || negb (bool_decide (out_retryable outcome = att_retryable final_attempt)))
        (ValueError "outcome source/retry state differs from final attempt");
  t ← insert_attempts t values;
  t ← match resolution with
      | None => Ok t
      | Some resolution => commit_resolution t resolution recorded_at_utc outcome
      end;
  update_projection t outcome.

Definition commit_checks (attempts : list AcquisitionAttempt) (outcome : AcquisitionOutcome)
    (resolution : option TargetSlotResolution) (recorded_at_utc : option string) :
    result (list attempt_row) :=
  _ ← raise_if (bool_decide (attempts = []))
        (ValueError "at least one acquisition attempt is required");
  _ ← raise_if (existsb (λ attempt,
                  negb (bool_decide (att_target_id attempt = out_target_id outcome))) attempts)
        (ValueError "attempts and outcome target IDs differ");
  values ← mapr _attempt_values attempts;
  _ ← match resolution with
      | None => Ok ()
      | Some resolution => resolution_checks resolution recorded_at_utc outcome
      end;
  Ok values.

Definition commit_attempts_and_update_target (db : database)
    (attempts : list AcquisitionAttempt) (outcome : AcquisitionOutcome)
    (resolution : option TargetSlotResolution) (recorded_at_utc : option string) :
    database * result unit :=
  match (values ← commit_checks attempts outcome resolution recorded_at_utc;
         _ ← _require_schema db; Ok values) with
  | Err e => (db, Err e)
  | Ok values =>
      transaction db (λ db,
        on_tables db (commit_tables values attempts outcome resolution recorded_at_utc))
  end.

Definition append_target_slot_resolution (db : database)
    (resolution : TargetSlotResolution) (recorded_at_utc : string) :
    database * result unit :=
  match (_ ← raise_if (bool_decide (recorded_at_utc = ""))
               (ValueError "recorded_at_utc is required");
         selected_url ← _url_value (res_selected_url resolution) "selected_url" false;
         _ ← _require_schema db;
         Ok (resolution_values resolution selected_url recorded_at_utc)) with
  | Err e => (db, Err e)
  | Ok values =>
      transaction db (λ db, on_tables db (λ t, insert_resolution t values))
  end.

(** [append_operation_attempt] of operations.py opens the database itself. *)
Definition append_operation_attempt_to (db : database) (attempt : OperationAttempt) :
    database * result unit :=
  match (_ ← operation_attempt_fields_ok sha256_hexdigest attempt;
         raise_if (negb (user_version db =? SCHEMA_VERSION)%Z)
           (RuntimeError "unsupported run-state schema version")) with
  | Err e => (db, Err e)
  | Ok _ =>
      transaction db (λ db,
        on_tables db (λ t, append_operation_attempt sha256_hexdigest t attempt))
  end.

(** ** Queries *)

(** A read-only connection to a database of this schema. *)
Definition readonly {A} (db : database) (f : tables → result A) : result A :=
  _ ← _require_schema db;
  t ← require (schema db) OperationalError;
  f t.

Definition selected (retry_failures : bool) (row : target_row) : bool :=
  bool_decide (ts_outcome row = "pending")
  || retry_failures && bool_decide (ts_outcome row = "failed") && (ts_retryable row =? 1)%Z.

Definition iter_selected_target_states (db : database) (retry_failures : bool) :
    result (list TargetState) :=
  readonly db (λ t, Ok (_target_state_from_row <$>
    order_by ts_target_id
      (filter (λ row, selected retry_failures row) (map_to_list (target_state t)).*2))).

Definition get_attempt (db : database) (target_id attempt_id : string) :
    result (option AcquisitionAttempt) :=
  readonly db (λ t, Ok (
    row ← attempts t !! attempt_id;
    if bool_decide (att_target_id row = target_id)
    then Some (_acquisition_attempt_from_row row) else None)).

Definition get_target_state (db : database) (target_id : string) :
    result (option TargetState) :=
  readonly db (λ t, Ok (_target_state_from_row <$> target_state t !! target_id)).

(** [str(target["target_id"])] *)
Definition target_key (target : pyobj) : result string :=
  v ← require (target !! "target_id") (KeyError "target_id");
  match v with
  | VStr s => Ok s
  | VInt z => Ok (pretty z)
  | VBool b => Ok (if b then "True" else "False")
  | VNone => Ok "None"
  | VObj n => Err (TypeError "str of an unmodelled object")
  end.
Definition iter_target_state_pairs (db : database) (targets : list pyobj) :
    result (list (pyobj * option TargetState)) :=
  readonly db (λ t, mapr (λ target,
    target_id ← target_key target;
    Ok (target, _target_state_from_row <$> target_state t !! target_id)) targets).

(** PRAGMA integrity_check and foreign_key_check answer for the file on disk, which
    the model does not see: [intact] is their answer. *)
Definition _validate_readonly (intact : bool) (t : tables) : result unit :=
  _ ← raise_if (negb intact) (RunStateError "integrity_check");
  validate_operation_state t.

Definition count_rows (p : target_row → bool) (t : tables) : Z :=
  Z.of_nat (length (filter (λ row, p row) (map_to_list (target_state t)).*2)).

(** SELECT outcome, COUNT( * ) ... GROUP BY outcome, into the zero-initialised dict. *)
Definition count_outcomes (t : tables) : gmap string Z :=
  foldr (λ row counts, <[ts_outcome row := (default 0 (counts !! ts_outcome row) + 1)%Z]> counts)
    (list_to_map ((λ status, (status, 0%Z)) <$> _OUTCOMES))
    (map_to_list (target_state t)).*2.

Definition summarize_target_state (intact : bool) (db : database) :
    result AcquisitionStatusCounts :=
  readonly db (λ t,
    _ ← _validate_readonly intact t;
    Ok (mkCounts (count_outcomes t)
          (count_rows (λ row, bool_decide (ts_outcome row = "failed")
                              && (ts_retryable row =? 1)%Z) t)
          (count_rows (λ row, bool_decide (ts_outcome row = "failed")
                              && (ts_retryable row =? 0)%Z) t))).

Definition validate_run_state (intact : bool) (db : database) : result unit :=
  readonly db (_validate_readonly intact).

Definition count_attempted (db : database) : result Z :=
  readonly db (λ t, Ok (count_rows (λ row, (0 <? ts_attempt_count row)%Z) t)).

Definition run_status (active_lock : option RunLockInfo) (counts : AcquisitionStatusCounts)
    (attempted_count : Z) : string :=
  let count status := default 0%Z (asc_target_counts counts !! status) in
  match active_lock with
  | Some _ => "running"
  | None =>
      if negb (count "pending" =? 0)%Z && negb (attempted_count =? 0)%Z then "interrupted"
      else if negb (asc_retryable_failure_count counts =? 0)%Z then "needs_retry"
      else if negb (asc_non_retryable_failure_count counts =? 0)%Z
              || negb (count "required_missing" =? 0)%Z then "complete_with_errors"
      else if (attempted_count =? 0)%Z then "ready"
      else "complete"
  end.

(** [inspect_run_state]: [inspected] is what [inspect_run_lock] returned. *)
Definition inspect_run_state (run_id : string) (inspected : result (option RunLockInfo))
    (intact : bool) (db : database) : AcquisitionStatusReport :=
  let invalid active_lock e :=
    mkReport run_id "invalid" (list_to_map ((λ status, (status, 0%Z)) <$> _OUTCOMES))
      0 0 active_lock (Some e) in
  match inspected with
  | Err e => invalid None e
  | Ok active_lock =>
      match (counts ← summarize_target_state intact db;
             attempted_count ← count_attempted db;
             Ok (counts, attempted_count)) with
      | Err e => invalid active_lock e
      | Ok (counts, attempted_count) =>
          mkReport run_id (run_status active_lock counts attempted_count)
            (asc_target_counts counts) (asc_retryable_failure_count counts)
            (asc_non_retryable_failure_count counts) active_lock None
      end
  end.
End store.
