(* ===== verification/RunStateConsistency.v ===== *)
(** * Consistency of the run state

    What every run-state database reached by the writers of [run_state/store.py] and
    [run_state/operations.py] satisfies: the constraints of the schema, an attempt log
    per target and per operation numbered 1, 2, ... without gaps, and projections that
    agree with the last attempt; so that the audit [validate_operation_state] passes. *)
From S2P Require Import Prelude Sql Serialization Url.
From S2P Require Import RunStateModels RunStateSchema RunStateOperations RunStateStore.

(** ** Rows of a table *)

Definition rows {A} (m : gmap string A) : list A := (map_to_list m).*2.

Lemma elem_of_rows {A} (m : gmap string A) x : x ∈ rows m ↔ ∃ k, m !! k = Some x.
Proof.
  unfold rows. rewrite list_elem_of_fmap. setoid_rewrite <- elem_of_map_to_list.
  split; [intros ([k y] & -> & H); by exists k | intros [k H]; by exists (k, x)].
Qed.

Lemma rows_insert {A} (m : gmap string A) k x :
  m !! k = None → rows (<[k:=x]> m) ≡ₚ x :: rows m.
Proof. intros H. unfold rows. by rewrite (map_to_list_insert m k x H). Qed.

Section sql_extrema.
Implicit Types l : list Z.
Lemma sql_min_Some l r : sql_min l = Some r → r ∈ l ∧ ∀ x, x ∈ l → (r ≤ x)%Z.
Proof.
  revert r; induction l as [|z l IH]; intros r; simpl; [done|].
  fold (sql_min l). destruct (sql_min l) as [m|] eqn:E.
  - destruct (IH m eq_refl) as [Hm Hle]. intros [= <-]. split.
    + destruct (Z.min_spec z m) as [[_ ->]|[_ ->]]; [left|by right].
    + intros x [->|Hx]%elem_of_cons; [|specialize (Hle x Hx)]; lia.
  - destruct l; [|done]. intros [= <-]. split; [by left|].
    intros x ->%list_elem_of_singleton. lia.
Qed.
Lemma sql_max_Some l r : sql_max l = Some r → r ∈ l ∧ ∀ x, x ∈ l → (x ≤ r)%Z.
Proof.
  revert r; induction l as [|z l IH]; intros r; simpl; [done|].
  fold (sql_max l). destruct (sql_max l) as [m|] eqn:E.
  - destruct (IH m eq_refl) as [Hm Hle]. intros [= <-]. split.
    + destruct (Z.max_spec z m) as [[_ ->]|[_ ->]]; [by right|left].
    + intros x [->|Hx]%elem_of_cons; [|specialize (Hle x Hx)]; lia.
  - destruct l; [|done]. intros [= <-]. split; [by left|].
    intros x ->%list_elem_of_singleton. lia.
Qed.

Lemma numbers_extrema l n :
  (0 < n)%Z → l ≡ₚ seqZ 1 n → sql_min l = Some 1%Z ∧ sql_max l = Some n.
Proof.
  intros Hn Hl.
  assert (Hin : ∀ x, x ∈ l ↔ (1 ≤ x ≤ n)%Z)
    by (intros x; rewrite Hl, elem_of_seqZ; lia).
  destruct l as [|z l]; [exfalso; apply (f_equal length) in Hl || apply Permutation_length in Hl;
    rewrite length_seqZ in Hl; simpl in Hl; lia|].
  destruct (sql_min (z :: l)) as [r|] eqn:Er; [|done].
  destruct (sql_max (z :: l)) as [s|] eqn:Es; [|done].
  apply sql_min_Some in Er as [Hr Hrle]. apply sql_max_Some in Es as [Hs Hsle].
  rewrite Hin in Hr, Hs.
  pose proof (Hrle 1%Z (proj2 (Hin 1%Z) ltac:(lia))).
  pose proof (Hsle n (proj2 (Hin n) ltac:(lia))).
  split; f_equal; lia.
Qed.
End sql_extrema.

(** ** Operation rows that pass their CHECKs *)

(** [selected] is a bit, and a selected operation was requested and is supported. *)
Lemma operation_intent op :
  checks_pass (operation_state_checks op) = true →
  os_requested op = 0%Z ∨ (os_requested op = 1%Z ∧ os_selected op = 0%Z) ∨
  (os_requested op = 1%Z ∧ os_selected op = 1%Z ∧ os_support_status op = "supported" ∧
   os_request_mode op ≠ "not_requested").
Proof.
  unfold checks_pass, operation_state_checks. cbn [forallb].
  rewrite !andb_true_iff. intros (Hq & _ & Hs & _ & _ & _ & _ & _ & Hshape & _).
  unfold bit, sql_in in Hq, Hs. simpl in Hq, Hs.
  destruct (decide (os_requested op = 0%Z)) as [Hq0|Hq0]; [by left|right].
  rewrite (bool_decide_false (os_requested op = 0%Z)) in Hq by done. simpl in Hq.
  destruct (decide (os_requested op = 1%Z)) as [Hq1|Hq1];
    [|by rewrite bool_decide_false in Hq].
  destruct (decide (os_selected op = 0%Z)) as [Hs0|Hs0]; [by left|right].
  rewrite (bool_decide_false (os_selected op = 0%Z)) in Hs by done. simpl in Hs.
  destruct (decide (os_selected op = 1%Z)) as [Hs1|Hs1];
    [|by rewrite bool_decide_false in Hs].
  clear Hq Hs. rewrite Hq1, Hs1 in Hshape.
  unfold int_is, text_is, text_isnt, text_in, sql_ne in Hshape.
  autorewrite with tri in Hshape. cbn [existsb] in Hshape.
  rewrite !(bool_decide_false (1 = 0)%Z) in Hshape by done.
  rewrite !andb_false_r, !orb_false_l in Hshape. boolprop.
  by destruct Hshape as ((((_ & Hm) & Hp) & _) & _).
Qed.

Ltac split_checks :=
  lazymatch goal with
  | |- check_passes _ && _ = true => apply andb_true_iff; split; [|split_checks]
  | _ => idtac
  end.

(** The readiness projection of a selected operation passes the CHECKs again. *)
Lemma set_readiness_checks op ready :
  checks_pass (operation_state_checks op) = true →
  os_requested op = 1%Z → os_selected op = 1%Z → os_support_status op = "supported" →
  checks_pass (operation_state_checks
    (set_readiness (if ready : bool then "pending" else "blocked")
       (if ready then None else Some "blocked:acquisition_not_ready") op)) = true.
Proof.
  intros Hc Hq Hs Hp.
  assert (Hm : os_request_mode op ≠ "not_requested").
  { destruct (operation_intent op Hc) as [?|[[_ ?]|(_ & _ & _ & ?)]]; congruence. }
  unfold checks_pass, operation_state_checks in *. cbn [forallb] in *.
  rewrite !andb_true_iff in Hc.
  destruct Hc as (H1 & H2 & H3 & H4 & H5 & _ & _ & H8 & _ & H10 & H11 & H12 & _ & _ & _).
  split_checks; try assumption; try (destruct ready; reflexivity).
  apply check_passes_or_true. right. unfold set_readiness. cbn.
  rewrite Hq, Hs, Hp. unfold int_is, text_is, text_isnt, text_in, sql_ne.
  autorewrite with tri. rewrite (bool_decide_false _ Hm). by destruct ready.
Qed.

(** ** [refresh_operation_readiness], as one map over the table *)

Definition waiting (op : operation_row) : bool :=
  bool_decide (os_status op = "pending") || bool_decide (os_status op = "blocked").
Definition unattempted (target_id : string) (op : operation_row) : Prop :=
  os_target_id op = target_id ∧ os_requested op = 1%Z ∧ os_selected op = 1%Z ∧
  os_support_status op = "supported" ∧ os_attempt_count op = 0%Z.
#[export] Instance unattempted_dec target_id op : Decision (unattempted target_id op).
Proof. unfold unattempted. apply _. Defined.

Definition readiness (target : target_row) (op : operation_row) : operation_row :=
  if waiting op then
    set_readiness (if target_ready target then "pending" else "blocked")
      (if target_ready target then None else Some "blocked:acquisition_not_ready") op
  else op.
Definition refreshed (target : target_row) (op : operation_row) : operation_row :=
  if decide (unattempted (ts_target_id target) op) then readiness target op else op.

Lemma with_operation_state_same t : with_operation_state t (operation_state t) = t.
Proof. by destruct t. Qed.

Lemma update_readiness t m id op target :
  m !! id = Some op → checks_pass (operation_state_checks op) = true →
  unattempted (ts_target_id target) op →
  ∃ n, update_operation (with_operation_state t m) id waiting
         (set_readiness (if target_ready target then "pending" else "blocked")
           (if target_ready target then None else Some "blocked:acquisition_not_ready"))
       = Ok (with_operation_state t (<[id := readiness target op]> m), n).
Proof.
  intros Hm Hc (_ & Hq & Hs & Hp & _). unfold update_operation, readiness. simpl. rewrite Hm.
  destruct (waiting op).
  - rewrite (proj2 (check_row_Ok _ ())) by (by apply set_readiness_checks). simpl. eauto.
  - exists 0. by rewrite insert_id.
Qed.

Lemma refresh_loop t target ids m c :
  NoDup ids →
  (∀ id, id ∈ ids → ∃ op, m !! id = Some op ∧
     checks_pass (operation_state_checks op) = true ∧ unattempted (ts_target_id target) op) →
  ∃ m' n,
    foldr_m (λ '(t, changed) operation_id,
        '(t, n) ← update_operation t operation_id waiting
          (set_readiness (if target_ready target then "pending" else "blocked")
             (if target_ready target then None else Some "blocked:acquisition_not_ready"));
        Ok (t, changed + n)) (with_operation_state t m, c) ids
    = Ok (with_operation_state t m', n) ∧
    ∀ k, m' !! k = (λ op, if decide (k ∈ ids) then readiness target op else op) <$> m !! k.
Proof.
  revert m c; induction ids as [|id ids IH]; intros m c Hnd Hids; simpl.
  { exists m, c. split; [done|]. intros k. by destruct (m !! k). }
  apply NoDup_cons in Hnd as [Hid Hnd].
  destruct (Hids id) as (op & Hop & Hc & Hu); [by left|].
  destruct (update_readiness t m id op target Hop Hc Hu) as [n Hn]. rewrite Hn. simpl.
  destruct (IH (<[id:=readiness target op]> m) (c + n) Hnd) as (m' & n' & -> & Hm').
  { intros k Hk. rewrite lookup_insert_ne by (by intros ->). apply Hids. by right. }
  exists m', n'. split; [done|]. intros k. rewrite Hm'.
  destruct (decide (k = id)) as [->|Hne].
  - rewrite lookup_insert_eq, Hop. simpl. f_equal. rewrite decide_False by done.
    by rewrite decide_True by left.
  - rewrite lookup_insert_ne by done. destruct (m !! k); [|done]. simpl. f_equal.
    apply decide_ext. rewrite elem_of_cons. naive_solver.
Qed.

Lemma refresh_as_map t target_id target :
  constraints_hold t → target_state t !! target_id = Some target →
  ∃ n, refresh_operation_readiness t target_id =
       Ok (with_operation_state t (refreshed target <$> operation_state t), n).
Proof.
  intros Hc Ht. unfold refresh_operation_readiness. rewrite Ht.
  destruct (ch_target _ Hc _ _ Ht) as [Hid _].
  assert (Helem : ∀ k, k ∈ unattempted_operations t target_id ↔
    ∃ op, operation_state t !! k = Some op ∧ unattempted (ts_target_id target) op).
  { intros k. unfold unattempted_operations, unattempted. rewrite Hid, list_elem_of_fmap.
    setoid_rewrite list_elem_of_filter. setoid_rewrite <- elem_of_map_to_list.
    split; [intros ([j op] & -> & ? & ?); eauto | intros (op & ? & ?); by exists (k, op)]. }
  destruct (refresh_loop t target (unattempted_operations t target_id) (operation_state t) 0)
    as (m' & n & Hf & Hm').
  - apply NoDup_fmap_fst; [|apply NoDup_filter, NoDup_map_to_list].
    intros k x y Hx Hy. apply list_elem_of_filter in Hx as [_ Hx], Hy as [_ Hy].
    apply elem_of_map_to_list in Hx, Hy. congruence.
  - intros k (op & Hk & Hu)%Helem. exists op. split_and!; [done| |done].
    apply (ch_operation _ Hc _ _ Hk).
  - rewrite with_operation_state_same in Hf. exists n.
    replace (refreshed target <$> operation_state t) with m'; [exact Hf|].
    apply map_eq. intros k. rewrite Hm', lookup_fmap.
    destruct (operation_state t !! k) as [op|] eqn:Hk; [|done]. simpl. f_equal.
    unfold refreshed. apply decide_ext. rewrite Helem. naive_solver.
Qed.

(** For an existing target the refresh succeeds, touches no other table, and rewrites
    exactly the requested, selected, supported and never attempted operations of the
    target that wait for its body, each to what the target's readiness calls for. *)
Theorem refresh_operation_readiness_spec t target_id target :
  constraints_hold t → target_state t !! target_id = Some target →
  ∃ t' n, refresh_operation_readiness t target_id = Ok (t', n) ∧
    target_state t' = target_state t ∧ attempts t' = attempts t ∧
    operation_attempts t' = operation_attempts t ∧
    ∀ k, operation_state t' !! k = refreshed target <$> operation_state t !! k.
Proof.
  intros Hc Ht. destruct (refresh_as_map t target_id target Hc Ht) as [n Hn].
  eexists _, n. split; [exact Hn|]. split_and!; [done..|]. intros k. apply lookup_fmap.
Qed.

Section consistency.
Context (sha256_hexdigest : string → string).
Abbreviation identity := (operation_identity sha256_hexdigest).

(** ** The invariant *)

(** [timely]: every call of [initialize_run_state] came before the first acquisition, as
    those of the projector do, which initialises a new file once. *)
Context (timely : bool).

Definition numbers_ok (numbers : list Z) (count : Z) : Prop :=
  (0 ≤ count)%Z ∧ numbers ≡ₚ seqZ 1 count.

Definition attempts_of (t : tables) (target_id : string) : list attempt_row :=
  filter (λ r, att_target_id r = target_id) (rows (attempts t)).

(** A target: its log has no gaps and its projection is that of its last attempt. *)
Record target_ok (t : tables) (row : target_row) : Prop := {
  to_numbers : numbers_ok (att_attempt_number <$> attempts_of t (ts_target_id row))
                 (ts_attempt_count row);
  to_fresh : ts_attempt_count row = 0%Z →
    ts_last_attempt_id row = None ∧ ts_outcome row ∈ ["pending"; "skipped"];
  to_last : (0 < ts_attempt_count row)%Z → ∃ id a,
    ts_last_attempt_id row = Some id ∧ attempts t !! id = Some a ∧
    att_target_id a = ts_target_id row ∧ att_attempt_number a = ts_attempt_count row ∧
    ts_source row = Some (att_source a) ∧ ts_retryable row = att_retryable a;
}.

(** An operation that was seeded after its target had become ready: the seed is blocked,
    and no later projection update of the target may come to release it. *)
Definition seeded_late (t : tables) (op : operation_row) : Prop :=
  os_attempt_count op = 0%Z ∧ os_status op = "blocked" ∧
  ∃ target, target_state t !! os_target_id op = Some target ∧ expected_status op target = "pending".

(** An operation: likewise, and before its first attempt its error is that of its status,
    and its status the one its target's readiness calls for, unless it was seeded late. *)
Record operation_ok (t : tables) (op : operation_row) : Prop := {
  oo_identity : os_operation_id op = identity (os_target_id op) (os_operation op);
  oo_numbers : numbers_ok (oa_attempt_number <$> history_of t (os_operation_id op))
                 (os_attempt_count op);
  oo_fresh : os_attempt_count op = 0%Z →
    os_last_attempt_id op = None ∧ os_retryable op = 0%Z ∧
    (∀ target, target_state t !! os_target_id op = Some target →
       os_status op = expected_status op target ∨
       timely = false ∧ os_status op = "blocked" ∧ expected_status op target = "pending") ∧
    os_error_code op = expected_error op;
  oo_last : (0 < os_attempt_count op)%Z →
    os_requested op = 1%Z ∧ os_selected op = 1%Z ∧ os_support_status op = "supported" ∧
    ∃ id a, os_last_attempt_id op = Some id ∧ operation_attempts t !! id = Some a ∧
      oa_operation_id a = os_operation_id op ∧
      oa_attempt_number a = os_attempt_count op ∧ oa_outcome a = os_status op ∧
      oa_retryable a = os_retryable op ∧ oa_error_code a = os_error_code op;
}.

Record run_ok (t : tables) : Prop := {
  ro_constraints : constraints_hold t;
  ro_targets k row : target_state t !! k = Some row → target_ok t row;
  ro_operations k op : operation_state t !! k = Some op → operation_ok t op;
}.

(** ** The audit accepts consistent operations *)

Lemma latest_attempt t op :
  constraints_hold t → operation_ok t op → (0 < os_attempt_count op)%Z →
  ∃ a, head (filter (λ a, oa_attempt_number a = os_attempt_count op)
               (history_of t (os_operation_id op))) = Some a ∧
    os_last_attempt_id op = Some (oa_attempt_id a) ∧ oa_outcome a = os_status op ∧
    oa_retryable a = os_retryable op ∧ oa_error_code a = os_error_code op.
Proof.
  intros Hc Hop Hpos.
  destruct (oo_last _ _ Hop Hpos) as (_ & _ & _ & id & a & Hid & Ha & Hopid & Hn & Ho & Hr & He).
  destruct (ch_operation_attempt _ Hc _ _ Ha) as [Hkey _].
  exists a. split_and!; [|congruence|done..].
  assert (Hin : a ∈ filter (λ a, oa_attempt_number a = os_attempt_count op)
            (history_of t (os_operation_id op))).
  { unfold history_of. rewrite !list_elem_of_filter. split_and!; [done..|].
    apply elem_of_rows. eauto. }
  destruct (filter _ _) as [|b l] eqn:El; [by apply not_elem_of_nil in Hin|].
  assert (Hb : b ∈ b :: l) by left. rewrite <- El in Hb. unfold history_of in Hb.
  rewrite !list_elem_of_filter in Hb. destruct Hb as (Hbn & Hbo & [k Hk]%elem_of_rows).
  assert (k = id) by (eapply (ch_operation_attempt_unique _ Hc); [done..|congruence|congruence]).
  subst k. simpl. rewrite <- Hk. done.
Qed.

Lemma where_or a b : where_holds (tri_or a b) = where_holds a || where_holds b.
Proof. by destruct a as [[]|], b as [[]|]. Qed.
Lemma where_and_false a b : where_holds a = false → where_holds (tri_and a b) = false.
Proof. by destruct a as [[]|], b as [[]|]. Qed.
Lemma where_and a b : where_holds (tri_and a b) = where_holds a && where_holds b.
Proof. by destruct a as [[]|], b as [[]|]. Qed.
Lemma where_ne_same {A} `{EqDecision A} (x : option A) : where_holds (sql_ne x x) = false.
Proof. destruct x; simpl; [by rewrite bool_decide_true|done]. Qed.
Lemma where_is_not_same {A} `{EqDecision A} (x : option A) :
  where_holds (is_not x x) = false.
Proof. unfold is_not. by rewrite bool_decide_false by (by intros []). Qed.

Lemma operation_ok_matches t op target :
  constraints_hold t → operation_ok t op → ¬ seeded_late t op →
  target_state t !! os_target_id op = Some target →
  where_holds (operation_mismatch t op target) = false.
Proof.
  intros Hc Hop Hlate Ht. destruct (oo_numbers _ _ Hop) as [Hge Hnum].
  unfold operation_mismatch. rewrite !where_or, !where_and.
  assert (Hlen : Z.of_nat (length (oa_attempt_number <$> history_of t (os_operation_id op)))
    = os_attempt_count op) by (rewrite Hnum, length_seqZ; lia).
  rewrite Hlen, where_ne_same. simpl.
  destruct (decide (os_attempt_count op = 0%Z)) as [H0|H0].
  - destruct (oo_fresh _ _ Hop H0) as (Hl & Hr & Hs & He).
    destruct (Hs _ Ht) as [Hst|(_ & Hb & Hp)]; [|by destruct Hlate; split_and!; eauto].
    rewrite H0, Hl, Hr, <- Hst, <- He. unfold text_isnt.
    by rewrite !where_or, !where_ne_same, where_is_not_same.
  - assert (Hpos : (0 < os_attempt_count op)%Z) by lia.
    destruct (oo_last _ _ Hop Hpos) as (Hq & Hs & Hp & _).
    destruct (latest_attempt t op Hc Hop Hpos) as (a & Ha & Hl & Ho & Hr & He).
    destruct (numbers_extrema _ _ Hpos Hnum) as [Hmin Hmax].
    rewrite Ha, Hmin, Hmax, Hq, Hs, Hp, Hl. unfold text_isnt.
    cbn [fmap option_fmap option_map mbind option_bind]. rewrite Ho, Hr, He.
    rewrite !where_or, !where_ne_same, !where_is_not_same, andb_false_r, orb_false_r.
    simpl. by rewrite (bool_decide_false (os_attempt_count op = 0%Z)).
Qed.

Lemma seeded_late_mismatch t op target :
  seeded_late t op → target_state t !! os_target_id op = Some target →
  where_holds (operation_mismatch t op target) = true.
Proof.
  intros (H0 & Hb & target' & Ht' & Hp) Ht. simplify_eq. unfold operation_mismatch.
  rewrite !where_or, H0. apply orb_true_iff; left. apply orb_true_iff; right.
  rewrite where_and, !where_or, Hb, Hp. by rewrite orb_true_r.
Qed.

Lemma timely_not_late t : run_ok t → timely = true →
  ∀ k op, operation_state t !! k = Some op → ¬ seeded_late t op.
Proof.
  intros [_ _ Hops] Htm k op Hk (H0 & Hb & target & Ht & Hp).
  destruct (oo_fresh _ _ (Hops _ _ Hk) H0) as (_ & _ & Hs & _).
  destruct (Hs _ Ht) as [Hst|[Hf _]]; [|congruence]. by rewrite Hst, Hp in Hb.
Qed.

(** The audit accepts consistent tables unless an operation was seeded late. *)
Lemma validate_ok t :
  run_ok t →
  validate_operation_state sha256_hexdigest t = Ok () ↔
  ∀ k op, operation_state t !! k = Some op → ¬ seeded_late t op.
Proof.
  intros [Hc _ Hops]. unfold validate_operation_state. fold (rows (operation_state t)).
  rewrite bind_Ok. setoid_rewrite raise_if_Ok. setoid_rewrite <- not_true_iff_false. split.
  - intros (_ & Hm & _) k op Hk Hlate. apply Hm, existsb_exists. exists op.
    split; [apply list_elem_of_In, elem_of_rows; eauto|].
    destruct (ch_operation _ Hc _ _ Hk) as (_ & _ & [target Ht]). rewrite Ht.
    by apply seeded_late_mismatch.
  - intros Hlate. exists (). split;
      intros (op & [k Hk]%list_elem_of_In%elem_of_rows & Hm)%existsb_exists.
    + destruct (target_state t !! os_target_id op) as [target|] eqn:Et; [|done].
      by rewrite (operation_ok_matches t op target Hc (Hops _ _ Hk) (Hlate _ _ Hk) Et) in Hm.
    + by rewrite bool_decide_true in Hm by apply (oo_identity _ _ (Hops _ _ Hk)).
Qed.

(** ** Readiness after a projection update *)

Lemma expected_status_selected op target :
  os_requested op = 1%Z → os_selected op = 1%Z → os_support_status op = "supported" →
  expected_status op target = if target_ready target then "pending" else "blocked".
Proof.
  intros Hq Hs Hp. unfold expected_status. rewrite Hq, Hs, Hp. simpl.
  by rewrite andb_false_r.
Qed.
Lemma expected_status_unselected op target1 target2 :
  os_requested op = 0%Z ∨ os_selected op = 0%Z →
  expected_status op target1 = expected_status op target2.
Proof.
  unfold expected_status. intros [-> | ->]; [done|]. by repeat case_match.
Qed.

Lemma refreshed_target target op : os_target_id (refreshed target op) = os_target_id op.
Proof. unfold refreshed, readiness. by repeat case_match. Qed.
Lemma refreshed_id target op : os_operation_id (refreshed target op) = os_operation_id op.
Proof. unfold refreshed, readiness. by repeat case_match. Qed.

(** A selected operation that was never attempted is waiting, and after the refresh
    it has the status and the error its target now calls for. *)
Lemma refreshed_selected_ok t t' op target :
  operation_ok t op → is_Some (target_state t !! os_target_id op) →
  operation_attempts t' = operation_attempts t →
  target_state t' !! ts_target_id target = Some target →
  unattempted (ts_target_id target) op →
  operation_ok t' (refreshed target op).
Proof.
  intros Hop [old Hold] Hat Hnew Hu. pose proof Hu as (Htid & Hq & Hs & Hp & Hcount).
  destruct (oo_fresh _ _ Hop Hcount) as (Hl & Hr & Hst & He). specialize (Hst _ Hold).
  rewrite expected_status_selected in Hst by done.
  unfold refreshed, readiness. rewrite decide_True by done.
  assert (waiting op = true) as ->.
  { unfold waiting. destruct Hst as [->|(_ & -> & _)]; [by destruct (target_ready old)|done]. }
  split; cbn; [apply Hop| | |lia].
  - unfold history_of. rewrite Hat. apply Hop.
  - intros _. split_and!; [done..| |].
    + intros target' Ht'.
      assert (Some target' = Some target) as [= ->] by (rewrite <- Ht', Htid; exact Hnew).
      left. by rewrite expected_status_selected.
    + unfold expected_error. by destruct (target_ready target).
Qed.

Lemma refreshed_ok t t' k op target :
  constraints_hold t → operation_state t !! k = Some op → operation_ok t op →
  operation_attempts t' = operation_attempts t →
  target_state t' = <[ts_target_id target := target]> (target_state t) →
  operation_ok t' (refreshed target op).
Proof.
  intros Hc Hk Hop Hat Hts. destruct (ch_operation _ Hc _ _ Hk) as (_ & Hck & Hfk).
  destruct (decide (unattempted (ts_target_id target) op)) as [Hu|Hu].
  { apply (refreshed_selected_ok t); [done..| |done]. rewrite Hts. apply lookup_insert_eq. }
  unfold refreshed. rewrite decide_False by done.
  destruct Hop as [Hid Hnum Hfresh Hlast]. split; [done| | |].
  - unfold history_of. by rewrite Hat.
  - intros H0. destruct (Hfresh H0) as (Hl & Hr & Hst & He). split_and!; [done..| |done].
    intros target' Ht'. rewrite Hts in Ht'. apply lookup_insert_Some in Ht' as [[Htid <-]|[_ Ht']];
      [|by apply Hst].
    destruct Hfk as [old Hold].
    assert (Hun : os_requested op = 0%Z ∨ os_selected op = 0%Z).
    { destruct (operation_intent _ Hck) as [?|[[_ ?]|(? & ? & ? & _)]]; [by left|by right|].
      exfalso. by apply Hu; split_and!. }
    rewrite <- (expected_status_unselected op old) by done. by apply Hst.
  - by rewrite Hat.
Qed.

(** What [update_projection] writes. *)
Lemma update_projection_inv t outcome t' :
  constraints_hold t → update_projection t outcome = Ok t' →
  ∃ row, target_state t !! out_target_id outcome = Some row ∧ ts_executable row = 1%Z ∧
    checks_pass (target_state_checks (project outcome row)) = true ∧
    t' = with_operation_state
           (with_target_state t
              (<[out_target_id outcome := project outcome row]> (target_state t)))
           (refreshed (project outcome row) <$> operation_state t).
Proof.
  intros Hc H. unfold update_projection in H. inv_ok. boolprop.
  destruct (update_target_inv _ _ _ _ _ H) as [[-> ->]|(-> & row & Hrow & Hex & Hck & ->)];
    [apply Nat.eqb_neq in H0 || apply Nat.eqb_eq in H0; done|].
  exists row. split_and!; [done..|].
  edestruct (refresh_as_map
    (with_target_state t (<[out_target_id outcome:=project outcome row]> (target_state t))))
    as [m Hm].
  - eapply update_target_constraints; [|done|exact H]. done.
  - simpl. by rewrite lookup_insert_eq.
  - rewrite Hm in H1. by injection H1 as <- _.
Qed.

Lemma refresh_constraints t target_id t' n :
  constraints_hold t → refresh_operation_readiness t target_id = Ok (t', n) →
  constraints_hold t'.
Proof.
  unfold refresh_operation_readiness. intros Hc H.
  destruct (target_state t !! target_id) as [target|]; [|by injection H as <- _].
  eapply (foldr_m_inv (λ s : tables * nat, constraints_hold s.1)) in H; [exact H| |done].
  intros [t1 c] id [t2 c'] Hc1 _ H1. inv_ok.
  eapply update_operation_constraints; [| |exact Hc1|eassumption]; done.
Qed.

Lemma update_projection_constraints t outcome t' :
  constraints_hold t → update_projection t outcome = Ok t' → constraints_hold t'.
Proof.
  unfold update_projection. intros Hc H. inv_ok.
  eapply refresh_constraints; [|eassumption].
  eapply update_target_constraints; [|exact Hc|eassumption]. done.
Qed.

(** ** Appending attempts *)

Definition values_of (vs : list attempt_row) (k : string) : list attempt_row :=
  filter (λ r, att_target_id r = k) vs.

(** What a batch of INSERTs leaves: only new rows, each under its own key. *)
Record appended (t : tables) (vs : list attempt_row) (t' : tables) : Prop := {
  ap_constraints : constraints_hold t';
  ap_frame : t' = with_attempts t (attempts t');
  ap_rows k : attempts_of t' k ≡ₚ values_of vs k ++ attempts_of t k;
  ap_old k r : attempts t !! k = Some r → attempts t' !! k = Some r;
  ap_new v : v ∈ vs → attempts t' !! att_attempt_id v = Some v;
}.

Lemma insert_attempts_appended t vs t' :
  constraints_hold t → insert_attempts t vs = Ok t' → appended t vs t'.
Proof.
  revert t; induction vs as [|v vs IH]; intros t Hc; simpl.
  { unfold insert_attempts. simpl. intros [= <-]. split; try done.
    - by destruct t.
    - intros v Hv. by apply not_elem_of_nil in Hv. }
  unfold insert_attempts. simpl. intros (t1 & H1 & H2)%bind_Ok.
  pose proof (insert_attempt_constraints _ _ _ Hc H1) as Hc1.
  apply insert_attempt_inv in H1 as (_ & Hn & _ & _ & ->).
  destruct (IH _ Hc1 H2) as [Hc' Hf Hr Ho Hnew]. split; [done| | | |].
  - rewrite Hf. done.
  - intros k. rewrite Hr. unfold attempts_of. simpl. rewrite rows_insert by done.
    unfold values_of. rewrite !filter_cons. case_decide; [|done].
    symmetry. apply Permutation_middle.
  - intros k r Hk. apply Ho. simpl. rewrite lookup_insert_ne; [done|]. congruence.
  - intros w [->|Hw]%elem_of_cons; [|by apply Hnew].
    apply Ho. simpl. apply lookup_insert_eq.
Qed.

Lemma seqZ_app_count c n :
  (0 ≤ c)%Z → (0 ≤ n)%Z → seqZ (c + 1) n ++ seqZ 1 c ≡ₚ seqZ 1 (c + n).
Proof.
  intros Hc Hn. rewrite (seqZ_app 1 c n) by done.
  rewrite Permutation_app_comm. by rewrite (Z.add_comm c 1).
Qed.

(** Targets other than the one written keep their log and projection. *)
Lemma target_ok_frame t t' row :
  attempts_of t' (ts_target_id row) ≡ₚ attempts_of t (ts_target_id row) →
  (∀ k r, attempts t !! k = Some r → attempts t' !! k = Some r) →
  target_ok t row → target_ok t' row.
Proof.
  intros Hr Ho [[Hge Hn] Hf Hl]. split; [|done|].
  - split; [done|]. by rewrite Hr.
  - intros Hpos. destruct (Hl Hpos) as (id & a & ? & ? & ?). exists id, a. auto.
Qed.

(** The target written: its log grows by the batch and its projection is the last
    attempt's. *)
Lemma target_ok_appended t vs t' row row' final :
  target_ok t row → appended t vs t' → ts_target_id row' = ts_target_id row →
  (∀ v, v ∈ vs → att_target_id v = ts_target_id row) →
  att_attempt_number <$> vs = seqZ (ts_attempt_count row + 1) (Z.of_nat (length vs)) →
  last vs = Some final → ts_attempt_count row' = att_attempt_number final →
  ts_last_attempt_id row' = Some (att_attempt_id final) →
  ts_source row' = Some (att_source final) → ts_retryable row' = att_retryable final →
  target_ok t' row'.
Proof.
  intros [[Hge Hn] _ _] Ha Hid Hvs Hnum Hlast Hcount Hl Hs Hr.
  assert (Hin : final ∈ vs) by (apply last_Some in Hlast as [l ->]; set_solver).
  assert (Hfinal : att_attempt_number final =
            (ts_attempt_count row + Z.of_nat (length vs))%Z).
  { apply (f_equal last) in Hnum. rewrite fmap_last, Hlast in Hnum. simpl in Hnum.
    rewrite last_lookup, length_seqZ in Hnum.
    symmetry in Hnum. apply lookup_seqZ in Hnum as [-> _].
    destruct vs; [by apply not_elem_of_nil in Hin|simpl; lia]. }
  assert (Hlen : (0 < length vs)%nat) by (destruct vs; [by apply not_elem_of_nil in Hin|simpl; lia]).
  split.
  - rewrite Hid. split; [lia|]. rewrite (ap_rows _ _ _ Ha), fmap_app, Hn.
    replace (values_of vs (ts_target_id row)) with vs
      by (symmetry; by apply filter_all).
    rewrite Hnum, Hcount, Hfinal. apply seqZ_app_count; lia.
  - intros H0. lia.
  - intros _. exists (att_attempt_id final), final.
    rewrite Hid. split_and!; eauto using ap_new. 
Qed.

(** Everything an attempt writer does after its checks keeps the run consistent. *)
Lemma recorded_ok t vs t1 t2 outcome t' row final :
  run_ok t → appended t vs t1 → constraints_hold t2 →
  target_state t2 = target_state t → attempts t2 = attempts t1 →
  operation_state t2 = operation_state t → operation_attempts t2 = operation_attempts t →
  target_state t !! out_target_id outcome = Some row →
  (∀ v, v ∈ vs → att_target_id v = out_target_id outcome) →
  att_attempt_number <$> vs = seqZ (ts_attempt_count row + 1) (Z.of_nat (length vs)) →
  last vs = Some final → out_attempt_count outcome = att_attempt_number final →
  out_last_attempt_id outcome = Some (att_attempt_id final) →
  out_source outcome = Some (att_source final) →
  py_int (out_retryable outcome) = att_retryable final →
  update_projection t2 outcome = Ok t' → run_ok t'.
Proof.
  intros [Hc Hts Hops] Ha Hc2 Et Ea Eo Eoa Hrow Hvs Hnum Hlast Hcnt Hl Hs Hr Hu.
  pose proof (update_projection_constraints _ _ _ Hc2 Hu) as Hc'.
  destruct (update_projection_inv _ _ _ Hc2 Hu) as (row2 & Hrow2 & _ & _ & ->).
  rewrite Et, Hrow in Hrow2. injection Hrow2 as <-.
  destruct (ch_target _ Hc _ _ Hrow) as [Hid _].
  split; [done| |].
  - intros k r Hk. simpl in Hk. rewrite Et in Hk.
    apply lookup_insert_Some in Hk as [[<- <-]|[Hne Hk]].
    + apply (target_ok_frame t1); [by unfold attempts_of; simpl; rewrite Ea| |].
      { simpl. by rewrite Ea. }
      apply (target_ok_appended t vs t1 row _ final); eauto.
      intros v Hv. rewrite Hid. auto.
    + destruct (ch_target _ Hc _ _ Hk) as [Hkid _].
      apply (target_ok_frame t); [| |by eapply Hts].
      * unfold attempts_of at 1. simpl. rewrite Ea. fold (attempts_of t1 (ts_target_id r)).
        rewrite (ap_rows _ _ _ Ha). unfold values_of.
        rewrite list_filter_none; [done|]. intros v Hv. rewrite (Hvs v Hv). congruence.
      * simpl. rewrite Ea. apply (ap_old _ _ _ Ha).
  - intros k op Hk. simpl in Hk. rewrite Eo, lookup_fmap in Hk.
    destruct (operation_state t !! k) as [op0|] eqn:E0; [|done].
    injection Hk as <-. apply (refreshed_ok t _ k); simpl; eauto.
    rewrite Et. f_equal; simpl; congruence.
Qed.

Lemma attempt_values_fields attempt row :
  _attempt_values attempt = Ok row →
  att_attempt_id row = att_attempt_id attempt ∧ att_target_id row = att_target_id attempt ∧
  att_attempt_number row = att_attempt_number attempt ∧
  att_source row = att_source attempt ∧ att_retryable row = py_int (att_retryable attempt).
Proof. unfold _attempt_values. intros H. by inv_ok. Qed.

Lemma commit_checks_inv attempts outcome resolution recorded_at_utc values :
  commit_checks attempts outcome resolution recorded_at_utc = Ok values →
  (∀ a, a ∈ attempts → att_target_id a = out_target_id outcome) ∧
  Forall2 (λ a v, _attempt_values a = Ok v) attempts values.
Proof.
  unfold commit_checks. intros (_ & _ & H)%bind_Ok.
  apply bind_Ok in H as (_ & Hids%raise_if_Ok & H). apply bind_Ok in H as (vs & Hvs & H).
  apply bind_Ok in H as (_ & _ & [= ->]). split; [|by apply mapr_Ok].
  intros a Ha. apply dec_stable. intros Hne. apply not_true_iff_false in Hids. apply Hids.
  apply existsb_exists. exists a. split; [by apply list_elem_of_In|].
  by rewrite bool_decide_false.
Qed.

(** What the transaction of a commit checked and wrote. *)
Record committed (values : list attempt_row) (attempts : list AcquisitionAttempt)
    (outcome : AcquisitionOutcome) (t t' : tables) (row : target_row)
    (final : AcquisitionAttempt) (t1 t2 : tables) : Prop := {
  co_row : target_state t !! out_target_id outcome = Some row;
  co_executable : ts_executable row = 1%Z;
  co_eligible : eligible row = true;
  co_numbers : att_attempt_number <$> attempts =
    seqZ (ts_attempt_count row + 1) (Z.of_nat (length attempts));
  co_final : last attempts = Some final;
  co_count : out_attempt_count outcome = att_attempt_number final;
  co_last : out_last_attempt_id outcome = Some (att_attempt_id final);
  co_source : out_source outcome = Some (att_source final);
  co_retryable : out_retryable outcome = att_retryable final;
  co_insert : insert_attempts t values = Ok t1;
  co_resolution : t2 = t1 ∨ ∃ rr, insert_resolution t1 rr = Ok t2;
  co_update : update_projection t2 outcome = Ok t';
}.

Lemma current_target_Ok t target_id row :
  current_target t target_id = Ok row ↔
  target_state t !! target_id = Some row ∧ ts_executable row = 1%Z.
Proof.
  unfold current_target. rewrite bind_Ok. setoid_rewrite require_Ok.
  setoid_rewrite bind_Ok. setoid_rewrite raise_if_Ok. split.
  - intros (r & Hr & _ & He & [= ->]). by boolprop.
  - intros [Hr He]. exists row. split; [done|]. exists (). by rewrite He.
Qed.

Lemma commit_tables_inv values attempts outcome resolution recorded_at_utc t t' :
  commit_tables values attempts outcome resolution recorded_at_utc t = Ok t' →
  ∃ row final t1 t2, committed values attempts outcome t t' row final t1 t2.
Proof.
  unfold commit_tables. intros (row & [Hrow Hex]%current_target_Ok & H)%bind_Ok.
  apply bind_Ok in H as (_ & He%raise_if_Ok & H). apply bind_Ok in H as (_ & Hn%raise_if_Ok & H).
  apply bind_Ok in H as (final & Hf%require_Ok & H).
  apply bind_Ok in H as (_ & Hp%raise_if_Ok & H). apply bind_Ok in H as (_ & Hq%raise_if_Ok & H).
  apply bind_Ok in H as (t1 & Hins & H). apply bind_Ok in H as (t2 & Hres & Hu).
  boolprop. destruct Hp as [Hp1 Hp2], Hq as [Hq1 Hq2].
  exists row, final, t1, t2. split; try done.
  destruct resolution as [r|]; [|by injection Hres as <-; left].
  right. unfold commit_resolution in Hres. apply bind_Ok in Hres as (_ & _ & Hres).
  apply bind_Ok in Hres as (url & _ & Hres). eauto.
Qed.

Lemma resolution_step t1 t2 :
  constraints_hold t1 → t2 = t1 ∨ (∃ rr, insert_resolution t1 rr = Ok t2) →
  constraints_hold t2 ∧ target_state t2 = target_state t1 ∧ attempts t2 = attempts t1 ∧
  operation_state t2 = operation_state t1 ∧ operation_attempts t2 = operation_attempts t1.
Proof.
  intros Hc [->|[rr H]]; [done|]. split; [by eapply insert_resolution_constraints|].
  by apply insert_resolution_inv in H as (_ & _ & _ & _ & ->).
Qed.

Lemma Forall2_last {A B} (R : A → B → Prop) l k x :
  Forall2 R l k → last l = Some x → ∃ y, last k = Some y ∧ R x y.
Proof.
  intros H. rewrite !last_lookup, (Forall2_length _ _ _ H). intros Hx.
  destruct (Forall2_lookup_l _ _ _ _ _ H Hx) as (y & ? & ?). eauto.
Qed.

Lemma attempt_numbers vs attempts :
  Forall2 (λ a v, _attempt_values a = Ok v) attempts vs →
  att_attempt_number <$> vs = att_attempt_number <$> attempts.
Proof.
  induction 1 as [|a v attempts vs Hav _ IH]; [done|]. simpl. f_equal; [|done].
  by apply attempt_values_fields in Hav as (_ & _ & ? & _).
Qed.

(** Committing a batch of attempts keeps the run consistent. *)
Lemma commit_tables_run_ok values attempts outcome resolution recorded_at_utc t t' :
  run_ok t → commit_checks attempts outcome resolution recorded_at_utc = Ok values →
  commit_tables values attempts outcome resolution recorded_at_utc t = Ok t' → run_ok t'.
Proof.
  intros Hrun [Hids Hvs]%commit_checks_inv (row & final & t1 & t2 & H)%commit_tables_inv.
  pose proof (insert_attempts_appended _ _ _ (ro_constraints _ Hrun) (co_insert _ _ _ _ _ _ _ _ _ H)) as Ha.
  destruct (resolution_step t1 t2 (ap_constraints _ _ _ Ha) (co_resolution _ _ _ _ _ _ _ _ _ H))
    as (Hc2 & Et & Ea & Eo & Eoa).
  destruct (Forall2_last _ _ _ _ Hvs (co_final _ _ _ _ _ _ _ _ _ H)) as (v & Hv & Hfv).
  apply attempt_values_fields in Hfv as (F1 & F2 & F3 & F4 & F5).
  pose proof (ap_frame _ _ _ Ha) as Hfr. destruct H.
  apply (recorded_ok t values t1 t2 outcome t' row v); try done;
    try (rewrite Hfr in *; simpl in *; congruence).
  - intros w Hw. destruct (list_elem_of_lookup_1 _ _ Hw) as [i Hi].
    destruct (Forall2_lookup_r _ _ _ _ _ Hvs Hi) as (a & Hai & Haw).
    apply attempt_values_fields in Haw as (_ & -> & _).
    apply Hids. by eapply list_elem_of_lookup_2.
  - rewrite (attempt_numbers _ _ Hvs), <- (Forall2_length _ _ _ Hvs). done.
Qed.

(** Appending one attempt is committing the batch of one, without a resolution. *)
Lemma append_checks_commit attempt outcome values :
  append_checks attempt outcome = Ok values →
  commit_checks [attempt] outcome None None = Ok [values] ∧
  out_source outcome = Some (att_source attempt) ∧
  out_retryable outcome = att_retryable attempt ∧
  att_target_id attempt = out_target_id outcome.
Proof.
  unfold append_checks. intros (vs & Hvs & H)%bind_Ok.
  apply bind_Ok in H as (_ & Ht%raise_if_Ok & H). apply bind_Ok in H as (_ & _ & H).
  apply bind_Ok in H as (_ & Hs%raise_if_Ok & H). apply bind_Ok in H as (_ & _ & [= ->]).
  boolprop. destruct Hs as [Hs Hr]. split_and!; [|done..].
  unfold commit_checks. rewrite bool_decide_false by done. simpl.
  rewrite bool_decide_true by done. simpl. by rewrite Hvs.
Qed.

Lemma append_is_singleton_commit attempt outcome values t t' :
  append_checks attempt outcome = Ok values →
  append_tables values attempt outcome t = Ok t' ↔
  commit_tables [values] [attempt] outcome None None t = Ok t'.
Proof.
  intros Hchk. destruct (append_checks_commit _ _ _ Hchk) as (_ & Hs & Hr & Ht).
  unfold append_tables, commit_tables. rewrite Ht.
  destruct (current_target t (out_target_id outcome)) as [row|]; [|done]. simpl.
  assert (Hn : bool_decide ([att_attempt_number attempt] =
      seqZ (ts_attempt_count row + 1) (Z.of_nat 1)) =
    (att_attempt_number attempt =? ts_attempt_count row + 1)%Z).
  { apply eq_bool_prop_intro. rewrite bool_decide_spec, Is_true_true, Z.eqb_eq.
    change (seqZ (ts_attempt_count row + 1) (Z.of_nat 1)) with [(0 + (ts_attempt_count row + 1))%Z].
    split; [intros [= ->]; lia|intros ->; f_equal; lia]. }
  simpl in Hn. rewrite Hn.
  destruct (eligible row); simpl; [|by destruct (att_attempt_number _ =? _)%Z].
  destruct (att_attempt_number _ =? _)%Z; [|done]. simpl.
  destruct (_ || _); [done|]. simpl. rewrite Hs, Hr.
  rewrite (bool_decide_true (Some _ = _)), (bool_decide_true (_ = _)) by done. simpl.
  unfold insert_attempts. simpl. by destruct (insert_attempt t values).
Qed.

Lemma append_tables_run_ok values attempt outcome t t' :
  run_ok t → append_checks attempt outcome = Ok values →
  append_tables values attempt outcome t = Ok t' → run_ok t'.
Proof.
  intros Hrun Hchk H. eapply commit_tables_run_ok; [done| |].
  - by apply (append_checks_commit attempt outcome values).
  - by apply append_is_singleton_commit.
Qed.

Lemma insert_resolution_run_ok t rr t' :
  run_ok t → insert_resolution t rr = Ok t' → run_ok t'.
Proof.
  intros [Hc Ht Ho] H. split; [by eapply insert_resolution_constraints| |];
    apply insert_resolution_inv in H as (_ & _ & _ & _ & ->).
  - intros k row Hk. apply (target_ok_frame t); eauto.
  - intros k op Hk. specialize (Ho k op Hk). by destruct Ho; split.
Qed.

(** ** Attempts of an operation *)

Definition record_attempt (attempt : OperationAttempt) (row : operation_row) : operation_row :=
  mkOperationState (os_operation_id row) (os_target_id row) (os_operation row)
    (os_requested row) (os_request_mode row) (os_selected row)
    (os_source_request_id row) (os_input_ordinal row) (os_input_role row)
    (os_support_status row) (os_support_reason row) (os_capability_id row)
    (os_capability_version row) (os_handler_id row) (os_handler_version row)
    (os_output_kind row)
    (if bool_decide (oa_outcome attempt = "succeeded") then "succeeded" else "failed")
    (py_int (oa_retryable attempt)) (oa_attempt_number attempt)
    (Some (oa_attempt_id attempt)) (oa_error_code attempt).
Definition attempt_row_of (attempt : OperationAttempt) : operation_attempt_row :=
  mkOperationAttempt (oa_attempt_id attempt) (oa_operation_id attempt)
    (oa_attempt_number attempt) (oa_outcome attempt) (py_int (oa_retryable attempt))
    (oa_error_code attempt) (oa_started_at_utc attempt) (oa_finished_at_utc attempt).

Definition logged (t : tables) (attempt : OperationAttempt) : tables :=
  with_operation_attempts t
    (<[oa_attempt_id attempt := attempt_row_of attempt]> (operation_attempts t)).

(** What [append_operation_attempt] checked and wrote. *)
Lemma append_operation_attempt_inv t attempt t' :
  append_operation_attempt sha256_hexdigest t attempt = Ok t' →
  ∃ op, operation_state t !! oa_operation_id attempt = Some op ∧
    os_requested op = 1%Z ∧ os_selected op = 1%Z ∧ os_support_status op = "supported" ∧
    oa_attempt_number attempt = (os_attempt_count op + 1)%Z ∧
    (os_status op = "pending" ∨ os_status op = "failed" ∧ os_retryable op = 1%Z) ∧
    oa_outcome attempt ∈ ["succeeded"; "failed"] ∧
    insert_operation_attempt t (attempt_row_of attempt) = Ok (logged t attempt) ∧
    update_operation (logged t attempt) (oa_operation_id attempt) (λ _, true)
      (record_attempt attempt) = Ok (t', 1) ∧
    t' = with_operation_state (logged t attempt)
           (<[oa_operation_id attempt := record_attempt attempt op]> (operation_state t)).
Proof.
  unfold append_operation_attempt. intros ([] & Hf & H)%bind_Ok.
  apply bind_Ok in H as (op & Hop%require_Ok & H). apply bind_Ok in H as (_ & H1%raise_if_Ok & H).
  apply bind_Ok in H as (_ & H2%raise_if_Ok & H). apply bind_Ok in H as (_ & H3%raise_if_Ok & H).
  apply bind_Ok in H as (t1 & Hins & H). apply bind_Ok in H as ([t2 n] & Hupd & [= <-]).
  fold (record_attempt attempt) in Hupd. fold (attempt_row_of attempt) in Hins.
  pose proof Hins as Hins0.
  apply insert_operation_attempt_inv in Hins as (_ & Hn & _ & _ & ->). simpl in *.
  pose proof Hupd as Hupd0.
  apply update_operation_inv in Hupd as [[-> ->]|(-> & op' & Hop' & _ & _ & ->)].
  { unfold update_operation in Hupd0. simpl in Hupd0. rewrite Hop in Hupd0.
    by apply bind_Ok in Hupd0 as (_ & _ & ?). }
  simpl in *. rewrite Hop in Hop'. injection Hop' as <-. exists op.
  apply orb_false_iff in H1 as [H1 Hs]. apply orb_false_iff in H1 as [Hq Hsel].
  boolprop. split_and!; try done.
  - unfold operation_attempt_fields_ok in Hf. inv_ok. boolprop.
    destruct H1 as [[_ H1] _]. apply existsb_exists in H1 as (s & Hs' & Hs2%bool_decide_eq_true).
    rewrite Hs2. by apply list_elem_of_In.
Qed.

Lemma history_insert t row k :
  operation_attempts t !! oa_attempt_id row = None →
  history_of (with_operation_attempts t (<[oa_attempt_id row := row]> (operation_attempts t))) k
  ≡ₚ if decide (oa_operation_id row = k) then row :: history_of t k else history_of t k.
Proof.
  intros Hn. unfold history_of. fold (rows (operation_attempts t)). simpl.
  fold (rows (<[oa_attempt_id row := row]> (operation_attempts t))).
  rewrite rows_insert, filter_cons by done. by case_decide.
Qed.

Lemma append_operation_attempt_run_ok t attempt t' :
  run_ok t → append_operation_attempt sha256_hexdigest t attempt = Ok t' → run_ok t'.
Proof.
  intros [Hc Ht Ho] H.
  destruct (append_operation_attempt_inv _ _ _ H)
    as (op & Hop & Hq & Hs & Hp & Hnum & _ & Hout & Hins & Hupd & ->).
  pose proof (insert_operation_attempt_constraints _ _ _ Hc Hins) as Hc1.
  pose proof Hins as Hins'. apply insert_operation_attempt_inv in Hins' as (_ & Hn & _).
  destruct (ch_operation _ Hc _ _ Hop) as [Hid _].
  assert (Hhist : ∀ k m, history_of (with_operation_state (logged t attempt) m) k
    ≡ₚ if decide (oa_operation_id attempt = k) then attempt_row_of attempt :: history_of t k
       else history_of t k)
    by (intros k m; by apply (history_insert t (attempt_row_of attempt))).
  split; [by eapply (update_operation_constraints _ _ _ (record_attempt attempt))| |].
  { intros k row Hk. apply (target_ok_frame t); eauto. }
  intros k op' Hk. simpl in Hk. apply lookup_insert_Some in Hk as [[<- <-]|[Hne Hk]].
  - destruct (Ho _ _ Hop) as [Hi [Hge Hnn] _ _]. split; simpl; [done| |lia|].
    + split; [lia|]. rewrite Hhist, Hid, decide_True by done.
      rewrite Hid in Hnn. rewrite fmap_cons, Hnn. simpl. rewrite Hnum.
      rewrite <- seqZ_app_count by lia. done.
    + intros _. split_and!; [done..|]. exists (oa_attempt_id attempt), (attempt_row_of attempt).
      rewrite lookup_insert_eq. split_and!; try done. simpl.
      by apply elem_of_cons in Hout as [->| ->%list_elem_of_singleton].
  - destruct (Ho _ _ Hk) as [Hi [Hge Hnn] Hf Hl].
    destruct (ch_operation _ Hc _ _ Hk) as [Hkid _]. split; simpl; [done| |done|].
    + split; [done|]. rewrite Hhist, decide_False by congruence. done.
    + intros Hpos. destruct (Hl Hpos) as (? & ? & ? & id & a & ? & Ha & ?).
      split_and!; [done..|]. exists id, a. split; [done|]. split; [|done].
      rewrite lookup_insert_ne; [done|]. intros <-. simpl in Hn. congruence.
Qed.

(** ** Initialisation *)

Lemma empty_run_ok : run_ok empty_tables.
Proof. split; [apply empty_constraints|done..]. Qed.

Lemma attempts_of_none t target_id :
  constraints_hold t → target_state t !! target_id = None → attempts_of t target_id = [].
Proof.
  intros Hc Hn. apply list_filter_none. intros a [k Hk]%elem_of_rows <-.
  destruct (ch_attempt _ Hc _ _ Hk) as (_ & _ & [r Hr]). congruence.
Qed.
Lemma history_none t operation_id :
  constraints_hold t → operation_state t !! operation_id = None →
  history_of t operation_id = [].
Proof.
  intros Hc Hn. apply list_filter_none. intros a [k Hk]%elem_of_rows <-.
  destruct (ch_operation_attempt _ Hc _ _ Hk) as (_ & _ & [r Hr]). congruence.
Qed.

Lemma target_seed_outcome target id executable skip outcome :
  _target_seed target = Ok (id, executable, skip, outcome) →
  outcome ∈ ["pending"; "skipped"].
Proof. unfold _target_seed. intros H. inv_ok. destruct (truthy _); set_solver. Qed.

Lemma insert_target_run_ok t target seed t' :
  run_ok t → _target_seed target = Ok seed → insert_target t seed = Ok t' → run_ok t'.
Proof.
  intros [Hc Ht Ho] Hseed H. pose proof (insert_target_constraints _ _ _ Hc H) as Hc'.
  destruct seed as [[[id ex] skip] outcome]. apply target_seed_outcome in Hseed.
  apply insert_target_inv in H as (row & -> & _ & Hn & ->). simpl in *. split; [done| |].
  - intros k row Hk. simpl in Hk. apply lookup_insert_Some in Hk as [[<- <-]|[Hne Hk]].
    + split; simpl; [|done|lia]. split; [done|].
      change (attempts_of (with_target_state t _) ?i) with (attempts_of t i).
      by rewrite attempts_of_none.
    + apply (target_ok_frame t); eauto.
  - intros k op Hk. simpl in Hk. destruct (Ho _ _ Hk) as [Hi Hnum Hf Hl]. split; try done.
    intros H0. destruct (Hf H0) as (? & ? & Hst & ?). split_and!; try done.
    intros target' Htt. simpl in Htt. apply lookup_insert_Some in Htt as [[He _]|[_ Htt]];
      [|by apply Hst].
    destruct (ch_operation _ Hc _ _ Hk) as (_ & _ & [r Hr]). congruence.
Qed.

Lemma insert_operation_run_ok t op t' :
  run_ok t → accepted_seed sha256_hexdigest op →
  (timely = true → ∀ target, target_state t !! os_target_id op = Some target →
     target_ready target = false) →
  insert_operation t op = Ok t' → run_ok t'.
Proof.
  intros [Hc Ht Ho] Hseed Hready H. pose proof (insert_operation_constraints _ _ _ Hc H) as Hc'.
  apply insert_operation_inv in H as (_ & Hn & _ & ->). split; [done| |].
  - intros k row Hk. apply (target_ok_frame t); eauto.
  - intros k op' Hk. simpl in Hk. apply lookup_insert_Some in Hk as [[<- <-]|[Hne Hk]].
    + destruct Hseed as [Hid _ _ _ _ Hst He (Hr & Hcount & Hl)].
      split; [done| |intros _; split_and!; try done|rewrite Hcount; lia].
      * rewrite Hcount. split; [done|].
        change (history_of (with_operation_state t _) ?i) with (history_of t i).
        by rewrite history_none.
      * intros target Htt. rewrite Hst. unfold initial_status, expected_status.
        destruct timely; [rewrite (Hready eq_refl target Htt)|]; repeat case_match; auto.
    + specialize (Ho _ _ Hk). by destruct Ho; split.
Qed.

Definition none_ready (t : tables) : Prop :=
  ∀ k target, target_state t !! k = Some target → target_ready target = false.

Lemma seed_operations_run_ok t operations t' :
  run_ok t → (timely = true → none_ready t) →
  seed_operation_state sha256_hexdigest t operations = Ok t' → run_ok t'.
Proof.
  intros Hrun Hready H.
  cut (run_ok t' ∧ target_state t' = target_state t); [by intros []|].
  unfold seed_operation_state in H.
  eapply (foldr_m_inv (λ t', run_ok t' ∧ target_state t' = target_state t)) in H;
    [exact H| |done].
  clear H t'. intros t1 operation t2 [Hr1 Ht1] _ H. apply bind_Ok in H as (op & Hop & H).
  apply operation_seed_accepted in Hop. split.
  - eapply insert_operation_run_ok; [exact Hr1|exact Hop| |exact H].
    intros Htm target Htt. rewrite Ht1 in Htt. by eapply Hready.
  - by apply insert_operation_inv in H as (_ & _ & _ & ->).
Qed.

Lemma insert_target_none_ready t target seed t' :
  none_ready t → _target_seed target = Ok seed → insert_target t seed = Ok t' → none_ready t'.
Proof.
  intros Hready Hseed H. destruct seed as [[[id ex] skip] outcome].
  apply target_seed_outcome in Hseed.
  apply insert_target_inv in H as (row & -> & _ & _ & ->). intros k r Hk. simpl in Hk.
  apply lookup_insert_Some in Hk as [[<- <-]|[_ Hk]]; [|by eapply Hready].
  by apply elem_of_cons in Hseed as [->| ->%list_elem_of_singleton].
Qed.

(** ** Databases *)

(** A database no writer has initialised yet, or one of this schema. *)
Definition database_ok (db : database) : Prop :=
  db = empty_database ∨
  ∃ t, db = mkDatabase SCHEMA_VERSION (Some t) 0 ∧ run_ok t.

Lemma on_tables_ok db f db' :
  (∀ t t', run_ok t → f t = Ok t' → run_ok t') →
  database_ok db → on_tables db f = Ok db' → database_ok db'.
Proof.
  intros Hf [->|(t & -> & Ht)] H; [done|]. apply bind_Ok in H as (t0 & [= <-] & H).
  apply bind_Ok in H as (t' & Ht' & [= <-]). right. exists t'. split; [done|]. by eapply Hf.
Qed.

Lemma transaction_ok db body :
  (∀ db', body db = Ok db' → database_ok db') →
  database_ok db → database_ok (transaction db body).1.
Proof. unfold transaction. destruct (body db); eauto. Qed.

(** A transaction that raises leaves the database as it was. *)
Lemma transaction_rollback db body e : (transaction db body).2 = Err e → (transaction db body).1 = db.
Proof. unfold transaction. by destruct (body db). Qed.

Lemma insert_targets_ok targets t db' :
  run_ok t → (timely = true → none_ready t) →
  foldr_m (λ db target, seed ← _target_seed target; on_tables db (λ t, insert_target t seed))
    (mkDatabase SCHEMA_VERSION (Some t) 0) targets = Ok db' →
  ∃ t', db' = mkDatabase SCHEMA_VERSION (Some t') 0 ∧ run_ok t' ∧ (timely = true → none_ready t').
Proof.
  intros Hrun Hready H.
  eapply (foldr_m_inv (λ db, ∃ t', db = mkDatabase SCHEMA_VERSION (Some t') 0 ∧ run_ok t' ∧ (timely = true → none_ready t')))
    in H; [exact H| |eauto].
  intros db1 target db2 (t1 & -> & Hr & Hn) _ H1. apply bind_Ok in H1 as (seed & Hseed & H1).
  apply bind_Ok in H1 as (t0 & [= <-] & H1). apply bind_Ok in H1 as (t2 & Ht2 & [= <-]).
  exists t2. split_and!; [done| |]; eauto using insert_target_run_ok, insert_target_none_ready.
Qed.

(** The targets already known are not yet acquired: true of a new database. *)
Definition not_acquired (db : database) : Prop :=
  match schema db with Some t => none_ready t | None => True end.

Lemma initialize_ok db targets operations :
  database_ok db → (timely = true → not_acquired db) →
  database_ok (initialize_run_state sha256_hexdigest db targets operations).1.
Proof.
  intros Hdb Hready. apply transaction_ok; [|done]. intros db' H.
  unfold initialize_body in H. apply bind_Ok in H as (db1 & H1 & H).
  apply bind_Ok in H as (db2 & H2 & H).
  assert (∃ t, db1 = mkDatabase SCHEMA_VERSION (Some t) 0 ∧ run_ok t ∧ (timely = true → none_ready t))
    as (t & -> & Ht & Hn).
  { destruct Hdb as [->|(t & -> & Ht)]; simpl in H1; injection H1 as <-; [|by exists t].
    exists empty_tables. split_and!; [done|apply empty_run_ok|done]. }
  destruct (insert_targets_ok _ _ _ Ht Hn H2) as (t2 & -> & Ht2 & Hn2).
  apply bind_Ok in H as (t0 & [= <-] & H). apply bind_Ok in H as (t3 & Ht3 & [= <-]).
  right. exists t3. split; [done|]. by eapply seed_operations_run_ok.
Qed.

(** One call of a writer, whether it succeeds or raises. *)
Inductive run_step : database → database → Prop :=
  | step_initialize db targets operations :
      (timely = true → not_acquired db) →
      run_step db (initialize_run_state sha256_hexdigest db targets operations).1
  | step_append db attempt outcome :
      run_step db (append_attempt_and_update_target db attempt outcome).1
  | step_commit db attempts outcome resolution recorded_at_utc :
      run_step db (commit_attempts_and_update_target db attempts outcome resolution
                     recorded_at_utc).1
  | step_resolution db resolution recorded_at_utc :
      run_step db (append_target_slot_resolution db resolution recorded_at_utc).1
  | step_operation db attempt :
      run_step db (append_operation_attempt_to sha256_hexdigest db attempt).1.

Lemma run_step_ok db db' : database_ok db → run_step db db' → database_ok db'.
Proof.
  intros Hdb Hs. destruct Hs.
  - by apply initialize_ok.
  - unfold append_attempt_and_update_target.
    destruct (_ ≫= _) as [values|] eqn:E; [|done].
    apply bind_Ok in E as (vs & Hvs & E). apply bind_Ok in E as (_ & _ & [= ->]).
    apply transaction_ok; [|done]. intros db' H. eapply on_tables_ok; [|exact Hdb|exact H].
    intros. by eapply append_tables_run_ok.
  - unfold commit_attempts_and_update_target.
    destruct (_ ≫= _) as [values|] eqn:E; [|done].
    apply bind_Ok in E as (vs & Hvs & E). apply bind_Ok in E as (_ & _ & [= ->]).
    apply transaction_ok; [|done]. intros db' H. eapply on_tables_ok; [|exact Hdb|exact H].
    intros. by eapply commit_tables_run_ok.
  - unfold append_target_slot_resolution.
    destruct (_ ≫= _) as [values|]; [|done].
    apply transaction_ok; [|done]. intros db' H. eapply on_tables_ok; [|exact Hdb|exact H].
    intros t t' Ht Hi. by apply (insert_resolution_run_ok t values).
  - unfold append_operation_attempt_to.
    destruct (_ ≫= _) as [values|]; [|done].
    apply transaction_ok; [|done]. intros db' H. eapply on_tables_ok; [|exact Hdb|exact H].
    intros t t' Ht Hi. by apply (append_operation_attempt_run_ok t attempt).
Qed.

Lemma reachable_database_ok db : rtc run_step empty_database db → database_ok db.
Proof.
  intros H0. assert (Hi : database_ok empty_database) by (by left).
  induction H0; eauto using run_step_ok.
Qed.
Lemma reachable_run_ok db t :
  rtc run_step empty_database db → schema db = Some t → run_ok t.
Proof.
  intros Hdb%reachable_database_ok Ht.
  by destruct Hdb as [->|(t0 & -> & ?)]; simplify_eq/=.
Qed.

(** C2: whatever sequence of writer calls made the database, constraints, gapless attempt
    logs and projections that agree with the last attempt are an invariant, and an intact
    initialised database passes validate_run_state exactly when no operation was seeded
    late, that is as blocked on a target that had already been acquired.  When
    initialize_run_state is only called before acquisitions, it always passes. *)
Theorem reachable_run_validates db t :
  rtc run_step empty_database db → schema db = Some t →
  run_ok t ∧
  (validate_run_state sha256_hexdigest true db = Ok () ↔
   ∀ k op, operation_state t !! k = Some op → ¬ seeded_late t op) ∧
  (timely = true → validate_run_state sha256_hexdigest true db = Ok ()).
Proof.
  intros Hdb%reachable_database_ok Ht.
  destruct Hdb as [->|(t0 & -> & Hrun)]; [done|]. injection Ht as ->.
  change (validate_run_state sha256_hexdigest true (mkDatabase SCHEMA_VERSION (Some t) 0))
    with (validate_operation_state sha256_hexdigest t).
  pose proof (validate_ok t Hrun) as Hval. split_and!; [done..|].
  intros Htm. apply Hval. intros k op Hk. by apply (timely_not_late t Hrun Htm k).
Qed.
End consistency.
