(* ===== verification/RunStateProperties.v ===== *)
(** * What the run-state store guarantees its callers

    Consequences of the invariant of RunStateConsistency: histories only grow, settled
    targets are never attempted again, what was written is read back, the work list is
    exactly the targets that may be attempted, and the run's status means what it says. *)
From S2P Require Import Prelude Sql Serialization Url.
From S2P Require Import RunStateModels RunLock RunStateSchema RunStateOperations.
From S2P Require Import RunStateStore RunStateConsistency.

Section properties.
Context (sha256_hexdigest : string → string) (timely : bool).
Abbreviation run_step := (run_step sha256_hexdigest timely).
Abbreviation run_ok := (run_ok sha256_hexdigest timely).

(** ** Histories only grow *)

(** Every record of the three append-only tables is kept, unchanged. *)
Definition keeps_history (t t' : tables) : Prop :=
  attempts t ⊆ attempts t' ∧
  target_slot_resolutions t ⊆ target_slot_resolutions t' ∧
  operation_attempts t ⊆ operation_attempts t' ∧
  dom (target_state t) ⊆ dom (target_state t').
#[local] Instance keeps_history_preorder : PreOrder keeps_history.
Proof.
  split; [by intros t|]. intros t1 t2 t3 (? & ? & ? & ?) (? & ? & ? & ?).
  by split_and!; etrans.
Qed.

Lemma insert_target_keeps t seed t' : insert_target t seed = Ok t' → keeps_history t t'.
Proof.
  intros (row & _ & _ & Hn & ->)%insert_target_inv. split_and!; simpl; [done..|].
  rewrite dom_insert. set_solver.
Qed.
Lemma insert_attempt_keeps t row t' : insert_attempt t row = Ok t' → keeps_history t t'.
Proof.
  intros (_ & Hn & _ & _ & ->)%insert_attempt_inv. split_and!; simpl; [|done..].
  by apply insert_subseteq.
Qed.
Lemma insert_resolution_keeps t row t' :
  insert_resolution t row = Ok t' → keeps_history t t'.
Proof.
  intros (_ & Hn & _ & _ & ->)%insert_resolution_inv. split_and!; simpl; [done| |done..].
  by apply insert_subseteq.
Qed.
Lemma insert_operation_keeps t row t' : insert_operation t row = Ok t' → keeps_history t t'.
Proof. by intros (_ & _ & _ & ->)%insert_operation_inv. Qed.
Lemma insert_operation_attempt_keeps t row t' :
  insert_operation_attempt t row = Ok t' → keeps_history t t'.
Proof.
  intros (_ & Hn & _ & _ & ->)%insert_operation_attempt_inv.
  split_and!; simpl; [done..| |done]. by apply insert_subseteq.
Qed.
Lemma update_target_keeps t k f t' n : update_target t k f = Ok (t', n) → keeps_history t t'.
Proof.
  intros [[_ ->]|(_ & row & Hrow & _ & _ & ->)]%update_target_inv; [done|].
  split_and!; simpl; [done..|]. rewrite dom_insert. set_solver.
Qed.
Lemma update_operation_keeps t k w f t' n :
  update_operation t k w f = Ok (t', n) → keeps_history t t'.
Proof. by intros [[_ ->]|(_ & row & _ & _ & _ & ->)]%update_operation_inv. Qed.

Lemma loop_keeps {A} (f : tables → A → result tables) t l t' :
  (∀ t x t', f t x = Ok t' → keeps_history t t') →
  foldr_m f t l = Ok t' → keeps_history t t'.
Proof.
  intros Hf. apply (foldr_m_inv (keeps_history t)); [|done].
  intros s x s' Hs _ H. etrans; [exact Hs|by eapply Hf].
Qed.

Lemma refresh_keeps t k t' n :
  refresh_operation_readiness t k = Ok (t', n) → keeps_history t t'.
Proof.
  unfold refresh_operation_readiness. case_match; [|by intros [= <- _]]. intros H1.
  apply (foldr_m_inv (λ s : tables * nat, keeps_history t s.1)) in H1; [exact H1| |done].
  intros [t1 c] id [t2 c'] Hk _ H2. inv_ok. etrans; [exact Hk|by eapply update_operation_keeps].
Qed.

Lemma update_projection_keeps t outcome t' :
  update_projection t outcome = Ok t' → keeps_history t t'.
Proof.
  unfold update_projection. intros H. inv_ok. etrans; [by eapply update_target_keeps|].
  by eapply refresh_keeps.
Qed.

Lemma commit_tables_keeps values attempts outcome resolution recorded_at_utc t t' :
  commit_tables values attempts outcome resolution recorded_at_utc t = Ok t' →
  keeps_history t t'.
Proof.
  intros (row & final & t1 & t2 & H)%commit_tables_inv.
  transitivity t1; [eapply loop_keeps; [apply insert_attempt_keeps|apply (co_insert _ _ _ _ _ _ _ _ _ H)]|].
  transitivity t2; [|by eapply update_projection_keeps, H].
  destruct (co_resolution _ _ _ _ _ _ _ _ _ H) as [->|[rr Hr]]; [done|].
  by eapply insert_resolution_keeps.
Qed.

Lemma seed_operations_keeps t operations t' :
  seed_operation_state sha256_hexdigest t operations = Ok t' → keeps_history t t'.
Proof.
  apply loop_keeps. intros t1 op t2 H. inv_ok. by eapply insert_operation_keeps.
Qed.

Lemma append_operation_attempt_keeps t attempt t' :
  append_operation_attempt sha256_hexdigest t attempt = Ok t' → keeps_history t t'.
Proof.
  intros (op & _ & _ & _ & _ & _ & _ & _ & Hins & Hupd & _)%append_operation_attempt_inv.
  etrans; [by eapply insert_operation_attempt_keeps|by eapply update_operation_keeps].
Qed.

(** On databases: an initialised database stays initialised. *)
Definition database_keeps (db db' : database) : Prop :=
  ∀ t, schema db = Some t → ∃ t', schema db' = Some t' ∧ keeps_history t t'.

Lemma on_tables_keeps db f db' :
  (∀ t t', f t = Ok t' → keeps_history t t') →
  on_tables db f = Ok db' → database_keeps db db'.
Proof.
  intros Hf H t Ht. unfold on_tables in H. rewrite Ht in H. simpl in H.
  apply bind_Ok in H as (t' & Ht' & [= <-]). eauto.
Qed.
Lemma transaction_keeps db body :
  (∀ db', body db = Ok db' → database_keeps db db') →
  database_keeps db (transaction db body).1.
Proof.
  unfold transaction. intros H. destruct (body db); [by apply H|]. intros t Ht. by exists t.
Qed.
Lemma database_keeps_refl db : database_keeps db db.
Proof. intros t Ht. by exists t. Qed.
Lemma database_keeps_trans db1 db2 db3 :
  database_keeps db1 db2 → database_keeps db2 db3 → database_keeps db1 db3.
Proof.
  intros H12 H23 t Ht. destruct (H12 t Ht) as (t2 & Ht2 & Hk).
  destruct (H23 t2 Ht2) as (t3 & Ht3 & Hk'). exists t3. split; [done|]. by etrans.
Qed.

Lemma initialize_keeps db targets operations :
  database_keeps db (initialize_run_state sha256_hexdigest db targets operations).1.
Proof.
  apply transaction_keeps. intros db' H. unfold initialize_body in H.
  apply bind_Ok in H as (db1 & H1 & H). apply bind_Ok in H as (db2 & H2 & H).
  eapply database_keeps_trans; [|eapply on_tables_keeps; [|exact H];
    intros t t'; apply seed_operations_keeps].
  apply (database_keeps_trans db db1).
  - intros t Ht. rewrite Ht, andb_false_r in H1. simpl in H1.
    apply bind_Ok in H1 as (_ & _ & [= <-]). by exists t.
  - eapply (foldr_m_inv (database_keeps db1)) in H2; [exact H2| |apply database_keeps_refl].
    intros d1 target d2 Hd _ Hi. apply bind_Ok in Hi as (seed & _ & Hi).
    eapply database_keeps_trans; [exact Hd|eapply on_tables_keeps; [|exact Hi]].
    intros t t'. apply insert_target_keeps.
Qed.

Lemma run_step_keeps db db' : run_step db db' → database_keeps db db'.
Proof.
  intros Hs. destruct Hs.
  - apply initialize_keeps.
  - unfold append_attempt_and_update_target.
    destruct (_ ≫= _) as [values|] eqn:E; [|apply database_keeps_refl].
    apply bind_Ok in E as (vs & Hvs & E). apply bind_Ok in E as (_ & _ & [= ->]).
    apply transaction_keeps. intros db'. apply on_tables_keeps. intros t t' H.
    eapply commit_tables_keeps, append_is_singleton_commit; [exact Hvs|exact H].
  - unfold commit_attempts_and_update_target.
    destruct (_ ≫= _) as [values|]; [|apply database_keeps_refl].
    apply transaction_keeps. intros db'. apply on_tables_keeps. intros t t'.
    apply commit_tables_keeps.
  - unfold append_target_slot_resolution.
    destruct (_ ≫= _) as [values|]; [|apply database_keeps_refl].
    apply transaction_keeps. intros db'. apply on_tables_keeps. intros t t'.
    apply insert_resolution_keeps.
  - unfold append_operation_attempt_to.
    destruct (_ ≫= _) as [values|]; [|apply database_keeps_refl].
    apply transaction_keeps. intros db'. apply on_tables_keeps. intros t t'.
    apply append_operation_attempt_keeps.
Qed.

(** Whatever the writers do, no attempt, resolution or operation attempt ever
    changes or disappears, and no target is forgotten. *)
Theorem history_append_only db db' t :
  rtc run_step db db' → schema db = Some t →
  ∃ t', schema db' = Some t' ∧ keeps_history t t'.
Proof.
  intros Hr. revert t. induction Hr as [db|db1 db2 db3 H12 _ IH]; intros t Ht; [by exists t|].
  destruct (run_step_keeps _ _ H12 t Ht) as (t2 & Ht2 & Hk).
  destruct (IH t2 Ht2) as (t3 & Ht3 & Hk'). exists t3. split; [done|]. by etrans.
Qed.

(** ** Settled targets *)

(** Nothing happens any more to a target that may not be attempted. *)
Definition target_kept (k : string) (t t' : tables) : Prop :=
  target_state t' !! k = target_state t !! k ∧ attempts_of t' k ≡ₚ attempts_of t k.
Definition settled (t : tables) (k : string) : Prop :=
  ∃ row, target_state t !! k = Some row ∧ eligible row = false.

Lemma commit_tables_settled values attempts outcome resolution recorded_at_utc t t' k :
  run_ok t → settled t k → commit_checks attempts outcome resolution recorded_at_utc = Ok values →
  commit_tables values attempts outcome resolution recorded_at_utc t = Ok t' →
  target_kept k t t'.
Proof.
  intros Hrun (row & Hrow & Hel) [Hids Hvs]%commit_checks_inv
    (row' & final & t1 & t2 & H)%commit_tables_inv.
  pose proof (insert_attempts_appended _ _ _ (ro_constraints _ _ _ Hrun)
    (co_insert _ _ _ _ _ _ _ _ _ H)) as Ha.
  destruct (resolution_step t1 t2 (ap_constraints _ _ _ Ha) (co_resolution _ _ _ _ _ _ _ _ _ H))
    as (Hc2 & Et & Ea & _).
  assert (Hne : out_target_id outcome ≠ k).
  { intros <-. pose proof (co_row _ _ _ _ _ _ _ _ _ H) as Hr.
    pose proof (co_eligible _ _ _ _ _ _ _ _ _ H) as He. congruence. }
  pose proof (f_equal target_state (ap_frame _ _ _ Ha)) as Hf. simpl in Hf.
  destruct (update_projection_inv _ _ _ Hc2 (co_update _ _ _ _ _ _ _ _ _ H))
    as (r & _ & _ & _ & ->).
  split; simpl; [rewrite lookup_insert_ne by done; congruence|].
  unfold attempts_of at 1. simpl. rewrite Ea. fold (attempts_of t1 k).
  rewrite (ap_rows _ _ _ Ha). unfold values_of. rewrite list_filter_none; [done|].
  intros v Hv. destruct (list_elem_of_lookup_1 _ _ Hv) as [i Hi].
  destruct (Forall2_lookup_r _ _ _ _ _ Hvs Hi) as (a & Hai & Haw).
  apply attempt_values_fields in Haw as (_ & -> & _).
  rewrite (Hids a) by (by eapply list_elem_of_lookup_2). done.
Qed.

Lemma insert_target_kept t seed t' k :
  is_Some (target_state t !! k) → insert_target t seed = Ok t' → target_kept k t t'.
Proof.
  intros [r Hr] (row & _ & _ & Hn & ->)%insert_target_inv. split; simpl; [|done].
  rewrite lookup_insert_ne; [done|]. congruence.
Qed.

Lemma seed_operations_kept t operations t' k :
  seed_operation_state sha256_hexdigest t operations = Ok t' → target_kept k t t'.
Proof.
  intros H. unfold seed_operation_state in H.
  eapply (foldr_m_inv (λ t', target_kept k t t')) in H; [exact H| |done].
  intros t1 op t2 [Hk1 Hk2] _ H1. inv_ok.
  match goal with H : insert_operation _ _ = _ |- _ =>
    apply insert_operation_inv in H as (_ & _ & _ & ->) end. done.
Qed.

Definition database_kept (k : string) (db db' : database) : Prop :=
  ∀ t, schema db = Some t → ∃ t', schema db' = Some t' ∧ target_kept k t t'.

Lemma on_tables_kept k db f db' :
  (∀ t t', schema db = Some t → f t = Ok t' → target_kept k t t') →
  on_tables db f = Ok db' → database_kept k db db'.
Proof.
  intros Hf H t Ht. unfold on_tables in H. rewrite Ht in H. simpl in H.
  apply bind_Ok in H as (t' & Ht' & [= <-]). eauto.
Qed.
Lemma transaction_kept k db body :
  (∀ db', body db = Ok db' → database_kept k db db') →
  database_kept k db (transaction db body).1.
Proof.
  unfold transaction. intros H. destruct (body db); [by apply H|]. intros t Ht. by exists t.
Qed.

Lemma initialize_kept db targets operations k t :
  schema db = Some t → is_Some (target_state t !! k) →
  database_kept k db (initialize_run_state sha256_hexdigest db targets operations).1.
Proof.
  intros Ht Hk. apply transaction_kept. intros db' H. unfold initialize_body in H.
  rewrite Ht, andb_false_r in H. cbn [andb] in H.
  apply bind_Ok in H as (db1 & H1 & H). apply bind_Ok in H as (db2 & H2 & H).
  apply bind_Ok in H1 as (_ & _ & [= <-]).
  assert (∃ t2, schema db2 = Some t2 ∧ target_kept k t t2) as (t2 & Ht2 & Hk1 & Hk2).
  { eapply (foldr_m_inv (λ d, ∃ t2, schema d = Some t2 ∧ target_kept k t t2)) in H2;
      [exact H2| |by exists t].
    intros d1 target d2 (t1 & Hd1 & Hk1 & Hk2) _ Hi. apply bind_Ok in Hi as (seed & _ & Hi).
    unfold on_tables in Hi. rewrite Hd1 in Hi. simpl in Hi. apply bind_Ok in Hi as (t2 & Hi & [= <-]).
    exists t2. split; [done|]. apply insert_target_kept with (k := k) in Hi as [E1 E2];
      [|by rewrite Hk1]. split; [congruence|by rewrite E2]. }
  unfold on_tables in H. rewrite Ht2 in H. simpl in H. apply bind_Ok in H as (t3 & H & [= <-]).
  apply seed_operations_kept with (k := k) in H as [E1 E2].
  intros t0 Ht0. rewrite Ht in Ht0. injection Ht0 as <-. exists t3.
  split; [done|]. split; [congruence|by rewrite E2].
Qed.

Lemma run_step_settled db db' t k :
  database_ok sha256_hexdigest timely db → schema db = Some t → settled t k → run_step db db' →
  ∃ t', schema db' = Some t' ∧ target_kept k t t'.
Proof.
  intros Hdb Ht Hset Hs.
  assert (Hrun : run_ok t) by (by destruct Hdb as [->|(t0 & -> & ?)]; simplify_eq/=).
  assert (Hsame : ∃ t', schema db = Some t' ∧ target_kept k t t') by (by exists t).
  revert t Ht Hset Hrun Hsame. destruct Hs as [db targets operations Hn| | | |];
    intros t Ht Hset Hrun Hsame.
  - eapply initialize_kept; [exact Ht| |exact Ht]. by destruct Hset as (r & -> & _).
  - unfold append_attempt_and_update_target.
    destruct (_ ≫= _) as [values|] eqn:E; [|done].
    apply bind_Ok in E as (vs & Hvs & E). apply bind_Ok in E as (_ & _ & [= ->]).
    apply (transaction_kept k db); [|done]. intros db'. apply on_tables_kept.
    intros t1 t2 Ht1 H. rewrite Ht in Ht1. injection Ht1 as <-.
    eapply commit_tables_settled; [done..| |].
    + by apply (append_checks_commit attempt outcome values).
    + by apply append_is_singleton_commit.
  - unfold commit_attempts_and_update_target.
    destruct (_ ≫= _) as [values|] eqn:E; [|done].
    apply bind_Ok in E as (vs & Hvs & E). apply bind_Ok in E as (_ & _ & [= ->]).
    apply (transaction_kept k db); [|done]. intros db'. apply on_tables_kept.
    intros t1 t2 Ht1 H. rewrite Ht in Ht1. injection Ht1 as <-.
    by eapply commit_tables_settled.
  - unfold append_target_slot_resolution. destruct (_ ≫= _) as [values|]; [|done].
    apply (transaction_kept k db); [|done]. intros db'. apply on_tables_kept.
    by intros t1 t2 _ (_ & _ & _ & _ & ->)%insert_resolution_inv.
  - unfold append_operation_attempt_to. destruct (_ ≫= _) as [values|]; [|done].
    apply (transaction_kept k db); [|done]. intros db'. apply on_tables_kept.
    intros t1 t2 _ H. by apply append_operation_attempt_inv
      in H as (op & _ & _ & _ & _ & _ & _ & _ & _ & _ & ->).
Qed.

(** C36: a target that is acquired, skipped or finally failed stays exactly as it is,
    with its attempts, through every later sequence of writer calls. *)
Theorem settled_target_final db db' t k :
  rtc run_step empty_database db → schema db = Some t → settled t k → rtc run_step db db' →
  ∃ t', schema db' = Some t' ∧ target_kept k t t'.
Proof.
  intros H0 Ht Hset Hr.
  apply reachable_database_ok in H0 as Hdb. clear H0. revert t Ht Hset. induction Hr as [db|db1 db2 db3 H12 _ IH]; intros t Ht Hset;
    [by exists t|].
  destruct (run_step_settled _ _ _ _ Hdb Ht Hset H12) as (t2 & Ht2 & Hk1 & Hk2).
  destruct (IH (run_step_ok _ _ _ _ Hdb H12) t2 Ht2) as (t3 & Ht3 & Hk3 & Hk4).
  { destruct Hset as (r & Hr1 & Hr2). exists r. by rewrite Hk1. }
  exists t3. split; [done|]. split; [congruence|by rewrite Hk4].
Qed.

(** ** Failures *)

(** A writer call on [db], given by the database it leaves and what it returns. *)
Definition unchanged_on_error (db : database) (call : database * result unit) : Prop :=
  ∀ e, call.2 = Err e → call.1 = db.

(** A writer that raises leaves the database exactly as it found it. *)
Theorem failed_writer_changes_nothing db :
  (∀ targets operations,
     unchanged_on_error db (initialize_run_state sha256_hexdigest db targets operations)) ∧
  (∀ attempt outcome,
     unchanged_on_error db (append_attempt_and_update_target db attempt outcome)) ∧
  (∀ attempts outcome resolution recorded, unchanged_on_error db
     (commit_attempts_and_update_target db attempts outcome resolution recorded)) ∧
  (∀ resolution recorded,
     unchanged_on_error db (append_target_slot_resolution db resolution recorded)) ∧
  (∀ attempt,
     unchanged_on_error db (append_operation_attempt_to sha256_hexdigest db attempt)).
Proof.
  unfold unchanged_on_error, append_attempt_and_update_target,
    commit_attempts_and_update_target, append_target_slot_resolution, append_operation_attempt_to.
  split_and!; intros *; repeat case_match; try done; apply transaction_rollback.
Qed.

(** ** Reading back *)

Lemma attempt_values_read attempt values :
  _attempt_values attempt = Ok values → _acquisition_attempt_from_row values = attempt.
Proof.
  unfold _attempt_values. intros (req & Hreq%url_value_same & H)%bind_Ok.
  apply bind_Ok in H as (fin & Hfin%url_value_same & [= <-]). subst.
  destruct attempt. unfold _acquisition_attempt_from_row. simpl. by rewrite py_bool_int.
Qed.

Lemma transaction_tables db f db' :
  transaction db (λ db, on_tables db f) = (db', Ok ()) →
  ∃ t t', schema db = Some t ∧ f t = Ok t' ∧ schema db' = Some t' ∧
    user_version db' = user_version db.
Proof.
  unfold transaction. destruct (on_tables db f) as [d|] eqn:E; [|done]. intros [= <-].
  apply bind_Ok in E as (t & Ht%require_Ok & E). apply bind_Ok in E as (t' & Ht' & [= <-]).
  by exists t, t'.
Qed.

Lemma readonly_Ok {A} db t (f : tables → result A) :
  user_version db = SCHEMA_VERSION → schema db = Some t → readonly db f = f t.
Proof. unfold readonly, _require_schema. by intros -> ->. Qed.

Lemma append_checks_fields attempt outcome values :
  append_checks attempt outcome = Ok values →
  _attempt_values attempt = Ok values ∧ out_status outcome = att_outcome attempt ∧
  out_selected_body_relative_path outcome = att_selected_body_relative_path attempt.
Proof.
  unfold append_checks. intros (vs & Hvs & H)%bind_Ok.
  apply bind_Ok in H as (_ & _ & H). apply bind_Ok in H as (_ & Ho%raise_if_Ok & H).
  apply bind_Ok in H as (_ & _ & H). apply bind_Ok in H as (_ & He%raise_if_Ok & [= ->]).
  boolprop. by injection He.
Qed.

(** The state of a target after an attempt. *)
Definition reports (state : TargetState) (attempt : AcquisitionAttempt) : Prop :=
  ts_target_id state = att_target_id attempt ∧ ts_outcome state = att_outcome attempt ∧
  ts_source state = Some (att_source attempt) ∧
  ts_retryable state = att_retryable attempt ∧
  ts_attempt_count state = att_attempt_number attempt ∧
  ts_last_attempt_id state = Some (att_attempt_id attempt) ∧
  ts_selected_body_relative_path state = att_selected_body_relative_path attempt.

(** After a successful append the attempt is read back as it was given, and the
    target's state reports it. *)
Theorem append_read_back db attempt outcome db' :
  rtc run_step empty_database db →
  append_attempt_and_update_target db attempt outcome = (db', Ok ()) →
  get_attempt db' (att_target_id attempt) (att_attempt_id attempt) = Ok (Some attempt) ∧
  ∃ state, get_target_state db' (att_target_id attempt) = Ok (Some state) ∧
    reports state attempt.
Proof.
  intros Hdb%reachable_database_ok H. unfold append_attempt_and_update_target in H.
  destruct (_ ≫= _) as [values|] eqn:E; [|done].
  apply bind_Ok in E as (vs & Hvs & E). apply bind_Ok in E as ([] & Hver & [= ->]).
  apply transaction_tables in H as (t & t' & Ht & Happ & Ht' & Hv').
  assert (Hrun : run_ok t) by (by destruct Hdb as [->|(t0 & -> & ?)]; simplify_eq/=).
  unfold _require_schema in Hver. apply raise_if_Ok in Hver. boolprop.
  unfold get_attempt, get_target_state. rewrite !(readonly_Ok db' t') by congruence.
  pose proof Hvs as Hchk. apply append_checks_commit in Hchk as (Hchk & Hs & Hret & Htid).
  pose proof Happ as Hcommit. eapply append_is_singleton_commit in Hcommit; [|exact Hvs].
  apply commit_tables_inv in Hcommit as (row & final & t1 & t2 & Hc).
  pose proof (insert_attempts_appended _ _ _ (ro_constraints _ _ _ Hrun)
    (co_insert _ _ _ _ _ _ _ _ _ Hc)) as Ha.
  destruct (resolution_step t1 t2 (ap_constraints _ _ _ Ha) (co_resolution _ _ _ _ _ _ _ _ _ Hc))
    as (Hc2 & Et & Ea & _).
  destruct (update_projection_inv _ _ _ Hc2 (co_update _ _ _ _ _ _ _ _ _ Hc))
    as (r & Hr & _ & _ & ->).
  apply append_checks_fields in Hvs as (Hvs & Hst & Hpath).
  pose proof (attempt_values_fields _ _ Hvs) as (F1 & F2 & _).
  split.
  - simpl. rewrite Ea, <- F1, (ap_new _ _ _ Ha) by left. simpl.
    rewrite F2, bool_decide_true by done. by rewrite (attempt_values_read _ _ Hvs).
  - eexists. simpl. rewrite Htid, lookup_insert_eq. split; [done|]. simpl.
    destruct (ch_target _ Hc2 _ _ Hr) as [Hid _]. unfold reports. simpl. rewrite py_bool_int.
    pose proof (co_final _ _ _ _ _ _ _ _ _ Hc) as [= <-].
    split_and!; [congruence|done|done|done| | |done]; apply Hc.
Qed.

(** ** The work list *)

(** A row that is not skipped is executable. *)
Lemma not_skipped_executable row :
  checks_pass (target_state_checks row) = true → ts_outcome row ≠ "skipped" →
  ts_executable row = 1%Z.
Proof.
  unfold checks_pass, target_state_checks. cbn [forallb]. rewrite !andb_true_iff.
  intros (_ & _ & _ & _ & _ & _ & _ & _ & H & _) Hne.
  unfold text_is, text_isnt, int_is, sql_ne in H. autorewrite with tri in H.
  rewrite (bool_decide_false _ Hne) in H. simpl in H. by boolprop.
Qed.

Lemma eligible_not_skipped row : eligible row = true → ts_outcome row ≠ "skipped".
Proof. unfold eligible. boolprop. intros [->|[-> _]]; done. Qed.

Lemma selected_targets t retry_failures state :
  constraints_hold t →
  state ∈ _target_state_from_row <$> order_by ts_target_id
    (filter (λ row, selected retry_failures row) (map_to_list (target_state t)).*2) ↔
  ∃ row, target_state t !! ts_target_id state = Some row ∧
    selected retry_failures row = true ∧ state = _target_state_from_row row.
Proof.
  intros Hc. rewrite list_elem_of_fmap. fold (rows (target_state t)). split.
  - intros (row & -> & Hin). rewrite elem_of_order_by, list_elem_of_filter in Hin.
    destruct Hin as [Hs [k Hk]%elem_of_rows]. exists row.
    destruct (ch_target _ Hc _ _ Hk) as [Hid _]. simpl. rewrite Hid.
    split_and!; [done|by apply Is_true_true|done].
  - intros (row & Hrow & Hs & He). exists row. split; [done|].
    rewrite elem_of_order_by, list_elem_of_filter. split; [by apply Is_true_true|].
    apply elem_of_rows. eauto.
Qed.

Lemma row_ids t :
  constraints_hold t → ts_target_id <$> rows (target_state t) = (map_to_list (target_state t)).*1.
Proof.
  intros Hc. unfold rows. rewrite <- list_fmap_compose. apply list_fmap_ext.
  intros i [k r] Hi%list_elem_of_lookup_2%elem_of_map_to_list.
  by destruct (ch_target _ Hc _ _ Hi) as [Hid _].
Qed.

(** The attempt writers accept a target that passes their checks of the current row. *)
Definition attemptable (t : tables) (k : string) : Prop :=
  ∃ row, current_target t k = Ok row ∧ eligible row = true.

(** With retries, the work list is sorted by target ID without duplicates and holds
    exactly the targets that the attempt writers accept. *)
Theorem work_list_is_eligible db t :
  rtc run_step empty_database db → schema db = Some t →
  ∃ l, iter_selected_target_states db true = Ok l ∧
    StronglySorted String.le (ts_target_id <$> l) ∧ NoDup (ts_target_id <$> l) ∧
    ∀ k, k ∈ ts_target_id <$> l ↔ attemptable t k.
Proof.
  intros Hdb%reachable_database_ok Ht.
  destruct Hdb as [->|(t0 & -> & Hrun)]; [done|]. injection Ht as ->.
  pose proof (ro_constraints _ _ _ Hrun) as Hc.
  unfold iter_selected_target_states. rewrite (readonly_Ok _ t) by done.
  eexists. split; [done|].
  set (l := filter _ _).
  assert (Hids : ts_target_id <$> (_target_state_from_row <$> order_by ts_target_id l) =
                 ts_target_id <$> order_by ts_target_id l)
    by (rewrite <- list_fmap_compose; apply list_fmap_ext; by intros).
  split_and!.
  - rewrite Hids. apply order_by_keys_sorted.
  - rewrite Hids. apply NoDup_order_by. subst l.
    eapply sublist_NoDup; [|apply fmap_sublist, sublist_filter].
    fold (rows (target_state t)). rewrite (row_ids t Hc). apply NoDup_fst_map_to_list.
  - intros k. unfold attemptable. rewrite list_elem_of_fmap. setoid_rewrite current_target_Ok. split.
    + intros (state & -> & (row & Hrow & Hs & ->)%(selected_targets t true)); [|done]. exists row. split; [|done].
      split; [done|]. apply not_skipped_executable; [apply (ch_target _ Hc _ _ Hrow)|].
      by apply eligible_not_skipped.
    + intros (row & [Hrow Hex] & Hel). exists (_target_state_from_row row).
      destruct (ch_target _ Hc _ _ Hrow) as [Hid _]. split; [by simpl|].
      apply (selected_targets t true); [done|]. exists row. simpl. by rewrite Hid.
Qed.

(** ** The status of a run *)

Definition some_target (p : target_row → bool) (t : tables) : bool :=
  existsb p (rows (target_state t)).
Definition has_outcome (outcome : string) (row : target_row) : bool :=
  bool_decide (ts_outcome row = outcome).

(** What the status is meant to say about the run. *)
Definition run_status_spec (t : tables) : string :=
  if bool_decide (attempts t = ∅) then "ready"
  else if some_target (has_outcome "pending") t then "interrupted"
  else if some_target (λ row, has_outcome "failed" row && (ts_retryable row =? 1)%Z) t
    then "needs_retry"
  else if some_target (λ row, has_outcome "failed" row && (ts_retryable row =? 0)%Z) t
          || some_target (has_outcome "required_missing") t
    then "complete_with_errors"
  else "complete".

Lemma count_rows_some p t : negb (count_rows p t =? 0)%Z = some_target p t.
Proof.
  unfold count_rows, some_target. fold (rows (target_state t)).
  induction (rows (target_state t)) as [|r l IH]; [done|]. simpl.
  destruct (p r) eqn:E.
  - rewrite filter_cons_True by (apply Is_true_true; exact E). done.
  - rewrite filter_cons_False by (rewrite Is_true_true, E; done). exact IH.
Qed.

Lemma count_outcomes_some t outcome :
  outcome ∈ _OUTCOMES →
  count_outcomes t !! outcome = Some (count_rows (has_outcome outcome) t).
Proof.
  intros Ho. unfold count_outcomes, count_rows. fold (rows (target_state t)).
  induction (rows (target_state t)) as [|r l IH].
  - unfold _OUTCOMES in Ho.
    repeat (apply elem_of_cons in Ho as [->|Ho]; [reflexivity|]).
    by apply not_elem_of_nil in Ho.
  - cbn [foldr]. destruct (decide (ts_outcome r = outcome)) as [He|Hne].
    + rewrite filter_cons_True by (unfold has_outcome; by rewrite bool_decide_true).
      rewrite He, lookup_insert_eq, IH. cbn [from_option id length]. f_equal. lia.
    + rewrite filter_cons_False
        by (unfold has_outcome; rewrite bool_decide_false by done; by intros []).
      by rewrite lookup_insert_ne.
Qed.

Lemma some_target_true p t : some_target p t = true ↔ ∃ k row, target_state t !! k = Some row ∧ p row = true.
Proof.
  unfold some_target. rewrite existsb_exists. setoid_rewrite <- list_elem_of_In.
  setoid_rewrite elem_of_rows. naive_solver.
Qed.

Lemma target_attempted t k row :
  run_ok t → target_state t !! k = Some row → (0 < ts_attempt_count row)%Z ∨
  (ts_attempt_count row = 0%Z ∧ ts_outcome row ∈ ["pending"; "skipped"]).
Proof.
  intros Hrun Hk. pose proof (ro_targets _ _ _ Hrun _ _ Hk) as Hok.
  destruct (to_numbers _ _ Hok) as [Hge _].
  destruct (decide (ts_attempt_count row = 0%Z)) as [H0|]; [|left; lia].
  right. split; [done|]. by apply (to_fresh _ _ Hok).
Qed.

Lemma attempted_iff t :
  run_ok t → some_target (λ row, (0 <? ts_attempt_count row)%Z) t =
             negb (bool_decide (attempts t = ∅)).
Proof.
  intros Hrun. apply eq_true_iff_eq. rewrite some_target_true, negb_true_iff, bool_decide_eq_false.
  split.
  - intros (k & row & Hk & Hpos%Z.ltb_lt) Hempty.
    destruct (to_last _ _ (ro_targets _ _ _ Hrun _ _ Hk) Hpos) as (id & a & _ & Ha & _).
    by rewrite Hempty, lookup_empty in Ha.
  - intros (id & a & Ha)%map_choose. destruct (ch_attempt _ (ro_constraints _ _ _ Hrun) _ _ Ha)
      as (_ & _ & [row Hrow]). exists (att_target_id a), row. split; [done|].
    destruct (to_numbers _ _ (ro_targets _ _ _ Hrun _ _ Hrow)) as [Hge Hnum].
    destruct (ch_target _ (ro_constraints _ _ _ Hrun) _ _ Hrow) as [Hid _].
    assert (Hin : a ∈ attempts_of t (ts_target_id row)).
    { unfold attempts_of. rewrite list_elem_of_filter, elem_of_rows. eauto. }
    apply (list_elem_of_fmap_2 att_attempt_number) in Hin. rewrite Hnum, elem_of_seqZ in Hin.
    apply Z.ltb_lt. lia.
Qed.

(** Failures and missing documents are results of attempts. *)
Lemma no_attempts_no_failures t p :
  run_ok t → attempts t = ∅ → (∀ row, p row = true → ts_outcome row ∉ ["pending"; "skipped"]) →
  some_target p t = false.
Proof.
  intros Hrun He Hp. apply not_true_iff_false. rewrite some_target_true. intros (k & row & Hk & Hr).
  destruct (target_attempted t k row Hrun Hk) as [Hpos|[_ Hin]]; [|by apply (Hp row)].
  pose proof (attempted_iff t Hrun) as Ha. rewrite He, bool_decide_true in Ha by done.
  apply not_true_iff_false in Ha. apply Ha, some_target_true. exists k, row.
  split; [done|]. by apply Z.ltb_lt.
Qed.

Lemma has_outcome_not outcome (l : list string) row :
  has_outcome outcome row = true → bool_decide (outcome ∈ l) = false → ts_outcome row ∉ l.
Proof. unfold has_outcome. boolprop. by intros ->. Qed.

(** Without an active lock, the status reported for an intact run is the one its
    attempt log and its targets' outcomes call for. *)
Theorem inspect_run_state_status db t run_id :
  rtc run_step empty_database db → schema db = Some t →
  (∀ k op, operation_state t !! k = Some op → ¬ seeded_late t op) →
  rep_state (inspect_run_state sha256_hexdigest run_id (Ok None) true db) = run_status_spec t.
Proof.
  intros Hdb%reachable_database_ok Ht Hlate.
  destruct Hdb as [->|(t0 & -> & Hrun)]; [done|]. injection Ht as ->.
  unfold inspect_run_state, summarize_target_state, count_attempted.
  rewrite !(readonly_Ok _ t) by done. unfold _validate_readonly.
  cbn [negb raise_if mbind result_bind]. rewrite (proj2 (validate_ok _ _ t Hrun) Hlate).
  cbn [mbind result_bind rep_state]. unfold run_status. cbn [asc_target_counts
    asc_retryable_failure_count asc_non_retryable_failure_count].
  rewrite !count_outcomes_some by (unfold _OUTCOMES; set_solver). cbn [from_option id].
  rewrite !count_rows_some, (attempted_iff t Hrun).
  rewrite <- (negb_involutive (_ =? 0)%Z), count_rows_some, (attempted_iff t Hrun), negb_involutive.
  unfold run_status_spec. fold (has_outcome "failed").
  destruct (decide (attempts t = ∅)) as [He|He].
  - rewrite (bool_decide_true _ He), andb_false_r.
    assert (Hno : ∀ outcome q, bool_decide (outcome ∈ ["pending"; "skipped"]) = false →
      some_target (λ row, has_outcome outcome row && q row) t = false).
    { intros outcome q Ho. apply no_attempts_no_failures; [done..|].
      intros row [Hr _]%andb_true_iff. by eapply has_outcome_not. }
    rewrite !(Hno "failed") by done.
    rewrite (no_attempts_no_failures t) by (done || (intros; by eapply has_outcome_not)).
    done.
  - by rewrite (bool_decide_false _ He), andb_true_r.
Qed.
End properties.

(** ** A run

    One executable target with its mandatory raw operation, acquired at the first
    attempt: the hypotheses of the theorems hold of a database the code can make. *)
Definition demo_hash (s : string) : string := s.
Definition demo_target : pyobj :=
  list_to_map [("target_id", VStr "t1"); ("executable", VBool true); ("skip_reason", VNone)].
Definition demo_operation : pyobj :=
  list_to_map [("operation_id", VStr (operation_identity demo_hash "t1" "raw"));
    ("target_id", VStr "t1"); ("operation", VStr "raw"); ("requested", VBool true);
    ("request_mode", VStr "mandatory_raw"); ("selected", VBool true);
    ("source_request_id", VNone); ("input_ordinal", VNone); ("input_role", VNone);
    ("support_status", VStr "supported"); ("support_reason", VNone);
    ("capability_id", VStr "c"); ("capability_version", VStr "1");
    ("handler_id", VStr "h"); ("handler_version", VStr "1"); ("output_kind", VStr "raw")].
Definition demo_initial : database :=
  (initialize_run_state demo_hash empty_database [demo_target] [demo_operation]).1.
Definition demo_attempt : AcquisitionAttempt :=
  mkAttempt "a1" "t1" 1 "document_body" "live_sec" "https://www.sec.gov/Archives/x.txt"
    "acquired" false None (Some 200%Z) None "2024-01-01T00:00:00Z" "2024-01-01T00:00:01Z"
    (Some "00") (Some 2%Z) (Some "x") (Some "00") (Some 2%Z) (Some "bodies/x") None.
Definition demo_outcome : AcquisitionOutcome :=
  mkOutcome "t1" (Some "live_sec") "acquired" 1 (Some "a1") None false
    (Some "00") (Some 2%Z) (Some "x") (Some "00") (Some 2%Z) None (Some "bodies/x").
Definition demo_acquired : database :=
  (append_attempt_and_update_target demo_initial demo_attempt demo_outcome).1.
Definition tables_of (db : database) : tables := default empty_tables (schema db).

Lemma demo_reach_initial : rtc (run_step demo_hash true) empty_database demo_initial.
Proof. apply rtc_once. apply (step_initialize demo_hash true empty_database [demo_target] [demo_operation]). done. Defined.
Lemma demo_step : run_step demo_hash true demo_initial demo_acquired.
Proof. apply (step_append demo_hash true demo_initial demo_attempt demo_outcome). Defined.
Lemma demo_reach_acquired : rtc (run_step demo_hash true) empty_database demo_acquired.
Proof. eapply rtc_r; [apply demo_reach_initial|apply demo_step]. Defined.
Lemma demo_initial_tables : schema demo_initial = Some (tables_of demo_initial).
Proof. vm_compute. reflexivity. Defined.
Lemma demo_acquired_tables : schema demo_acquired = Some (tables_of demo_acquired).
Proof. vm_compute. reflexivity. Defined.

Example demo_raw_pending :
  os_status <$> (map_to_list (operation_state (tables_of demo_acquired))).*2 = ["pending"].
Proof. vm_compute. reflexivity. Qed.
Example demo_status :
  rep_state (inspect_run_state demo_hash "run" (Ok None) true demo_acquired) = "complete".
Proof. vm_compute. reflexivity. Qed.

(** A second call of [initialize_run_state] that seeds a rendition of the acquired target:
    it succeeds, and the operation stays blocked where the audit expects it pending. *)
Definition demo_rendition : pyobj :=
  list_to_map [("operation_id", VStr (operation_identity demo_hash "t1" "render_to_txt"));
    ("target_id", VStr "t1"); ("operation", VStr "render_to_txt"); ("requested", VBool true);
    ("request_mode", VStr "profile"); ("selected", VBool true);
    ("source_request_id", VNone); ("input_ordinal", VNone); ("input_role", VNone);
    ("support_status", VStr "supported"); ("support_reason", VNone);
    ("capability_id", VStr "c"); ("capability_version", VStr "1");
    ("handler_id", VStr "h"); ("handler_version", VStr "1"); ("output_kind", VStr "txt")].
Definition demo_late : database :=
  (initialize_run_state demo_hash demo_acquired [] [demo_rendition]).1.
Lemma demo_step_initial : run_step demo_hash false empty_database demo_initial.
Proof. by apply (step_initialize demo_hash false empty_database [demo_target] [demo_operation]). Qed.
Lemma demo_step_acquired : run_step demo_hash false demo_initial demo_acquired.
Proof. apply (step_append demo_hash false demo_initial demo_attempt demo_outcome). Qed.
Lemma demo_step_late : run_step demo_hash false demo_acquired demo_late.
Proof. apply (step_initialize demo_hash false demo_acquired [] [demo_rendition]). intros H. discriminate H. Qed.
Lemma demo_reach_late : rtc (run_step demo_hash false) empty_database demo_late.
Proof. exact (rtc_l _ _ _ _ demo_step_initial (rtc_l _ _ _ _ demo_step_acquired (rtc_once _ _ demo_step_late))). Qed.
Example demo_late_rejected :
  (initialize_run_state demo_hash demo_acquired [] [demo_rendition]).2 = Ok () ∧
  validate_run_state demo_hash true demo_late =
    Err (RunStateError "operation state does not match its attempt history").
Proof. vm_compute. by split. Qed.
Lemma demo_late_tables : schema demo_late = Some (tables_of demo_late).
Proof. vm_compute. reflexivity. Qed.

Lemma reachable_run_validates_witness :
  validate_run_state demo_hash true demo_acquired = Ok () ∧
  ¬ (∀ k op, operation_state (tables_of demo_late) !! k = Some op → ¬ seeded_late (tables_of demo_late) op).
Proof.
  split.
  - apply (reachable_run_validates demo_hash true demo_acquired (tables_of demo_acquired));
      [apply demo_reach_acquired|apply demo_acquired_tables|reflexivity].
  - intros Hlate.
    apply (reachable_run_validates demo_hash false demo_late (tables_of demo_late) demo_reach_late
      demo_late_tables) in Hlate.
    rewrite (proj2 demo_late_rejected) in Hlate. discriminate Hlate.
Defined.

Lemma history_append_only_witness :
  ∃ t', schema demo_acquired = Some t' ∧ keeps_history (tables_of demo_initial) t'.
Proof.
  apply (history_append_only demo_hash true demo_initial demo_acquired (tables_of demo_initial));
    [apply rtc_once, demo_step|apply demo_initial_tables].
Defined.

Lemma demo_settled : settled (tables_of demo_acquired) "t1".
Proof.
  exists (project demo_outcome (mkTargetState "t1" 1%Z None "pending" None 0%Z 0%Z None None None
    None None None None None)).
  split; vm_compute; reflexivity.
Defined.
Lemma settled_target_final_witness :
  ∃ t', schema (append_attempt_and_update_target demo_acquired demo_attempt demo_outcome).1
        = Some t' ∧ target_kept "t1" (tables_of demo_acquired) t'.
Proof.
  apply (settled_target_final demo_hash true demo_acquired _ (tables_of demo_acquired) "t1");
    [apply demo_reach_acquired|apply demo_acquired_tables|apply demo_settled|].
  apply rtc_once, (step_append demo_hash true demo_acquired demo_attempt demo_outcome).
Defined.

Lemma append_read_back_witness :
  get_attempt demo_acquired "t1" "a1" = Ok (Some demo_attempt).
Proof.
  refine (proj1 (append_read_back demo_hash true demo_initial demo_attempt demo_outcome demo_acquired
    demo_reach_initial _)).
  vm_compute. reflexivity.
Defined.

Lemma work_list_is_eligible_witness :
  ∃ l, iter_selected_target_states demo_initial true = Ok l ∧
    "t1" ∈ ts_target_id <$> l.
Proof.
  destruct (work_list_is_eligible demo_hash true demo_initial (tables_of demo_initial)
    demo_reach_initial demo_initial_tables) as (l & Hl & _ & _ & Hin).
  exists l. split; [exact Hl|]. apply Hin.
  exists (mkTargetState "t1" 1%Z None "pending" None 0%Z 0%Z None None None None None None None None).
  split; vm_compute; reflexivity.
Defined.

Lemma inspect_run_state_status_witness :
  rep_state (inspect_run_state demo_hash "run" (Ok None) true demo_acquired) =
  run_status_spec (tables_of demo_acquired).
Proof.
  apply (inspect_run_state_status demo_hash true demo_acquired);
    [apply demo_reach_acquired|apply demo_acquired_tables|].
  intros k op Hk. by eapply (timely_not_late demo_hash true), Hk;
    [eapply reachable_run_ok; [apply demo_reach_acquired|apply demo_acquired_tables]|].
Defined.

Lemma refresh_operation_readiness_spec_witness :
  ∃ t' n, refresh_operation_readiness (tables_of demo_acquired) "t1" = Ok (t', n) ∧
    target_state t' = target_state (tables_of demo_acquired).
Proof.
  destruct (refresh_operation_readiness_spec (tables_of demo_acquired) "t1"
    (project demo_outcome (mkTargetState "t1" 1%Z None "pending" None 0%Z 0%Z
                None None None None None None None None))) as (t' & n & Hr & Ht & _).
  - exact (ro_constraints _ _ _ (reachable_run_ok demo_hash true demo_acquired _
      demo_reach_acquired demo_acquired_tables)).
  - vm_compute. reflexivity.
  - exists t', n. split; [exact Hr|exact Ht].
Defined.
