(* ===== verification/WorkOrder.v ===== *)
(** * Work orders of the inventory pipeline: [document_inventory/run_state/run_manifest.py]

    A work order is a Parquet file of accessions to observe, sorted and unique; its
    identity is a digest of its rows, and it is processed in chunks of consecutive rows
    with identities of their own.  The hash function, the batches a Parquet reader
    yields and the two settings are parameters. *)
From S2P Require Import Prelude Numerals Serialization Hashing.
From S2P Require Import ParquetWriter Identity.
From Stdlib Require Import Ascii.

Definition WORK_ORDER_VERSION : string := "4".

(** A row of the work order; an [IndexWorkItem] has the same fields, its accession being
    a validated [AccessionNumber]. *)
Record IndexWorkItem := mkItem {
  wi_accession : string;
  wi_index_url : string;
  wi_vehicle : string;
  wi_archive_cik : option string;
  wi_primary_document : option string;
  wi_is_inline_xbrl : bool;
  wi_form : option string;
}.

#[global] Instance IndexWorkItem_eq_dec : EqDecision IndexWorkItem.
Proof. solve_decision. Defined.

Definition WORK_ORDER_SCHEMA : schema_of_file :=
  [("accession", "string"); ("index_url", "string"); ("vehicle", "string");
   ("archive_cik", "string"); ("primary_document", "string"); ("is_inline_xbrl", "bool");
   ("form", "string")].

Record ChunkIdentity := mkChunk {
  chunk_id : string;
  ordinal : nat;
  chunk_membership_digest : string;
  membership_count : nat;
  chunk_work_order_version : string;
}.
Record WorkOrderIdentity := mkIdentity { digest : string; row_count_ : Z }.

(** ** Batches *)

Fixpoint batches_of {A} (fuel n : nat) (l : list A) : list (list A) :=
  match fuel, l with
  | S fuel, _ :: _ => take n l :: batches_of fuel n (drop n l)
  | _, _ => []
  end.
(** Consecutive blocks of [n] elements, the last one possibly shorter: the slices
    [l[start : start + n] for start in range(0, len(l), n)]. *)
Definition batches {A} (n : nat) (l : list A) : list (list A) := batches_of (length l) n l.

(** [ParquetFile.iter_batches(batch_size=n)], as pyarrow documents it. *)
Class ParquetReader := {
  iter_batches {A} : nat → list A → list (list A);
  iter_batches_blocks A n (l : list A) : (0 < n)%nat → iter_batches n l = batches n l;
}.

(** ** The digest of the rows *)

(** [n.to_bytes(k, "big")] of a number that fits. *)
Fixpoint be_bytes (k : nat) (n : N) : string :=
  match k with
  | O => ""
  | S k => be_bytes k (n / 256) +:+ String (ascii_of_N (n mod 256)) ""
  end.
Definition to_bytes_8 (n : nat) : result string :=
  if (N.of_nat n <? 2 ^ 64)%N then Ok (be_bytes 8 (N.of_nat n)) else Err OverflowError.

Definition row_values (row : IndexWorkItem) : list string :=
  [wi_accession row; wi_index_url row; wi_vehicle row; default "" (wi_archive_cik row);
   default "" (wi_primary_document row); if wi_is_inline_xbrl row then "1" else "0";
   default "" (wi_form row)].

(** The hasher is the bytes it was fed. *)
Definition hash_value (hasher value : string) : result string :=
  let encoded := utf8 value in
  length_bytes ← to_bytes_8 (String.length encoded);
  Ok (hasher +:+ length_bytes +:+ encoded).
Definition _row_digest_update (hasher : string) (row : IndexWorkItem) : result string :=
  foldr_m hash_value hasher (row_values row).

(** [value or default] of the two batch-size settings. *)
Definition resolve_batch_size (setting : Z) (value : option Z) : result Z :=
  match value with
  | Some n => _ ← raise_if (n <? 1)%Z (ValueError "batch_size must be positive"); Ok n
  | None => Ok setting
  end.

Section work_order.
Context (sha256_hexdigest : string → string) (read_batch_size parquet_read_batch_size : Z).
Context {reader : ParquetReader}.

(** ** Identities *)

Definition compute_chunk_id (work_order_version : string) (ordinal : nat)
    (membership_digest : string) (membership_count : nat) : string :=
  let digest := sha256_text sha256_hexdigest
    (work_order_version +:+ ":" +:+ pretty (Z.of_nat ordinal) +:+ ":" +:+ membership_digest
     +:+ ":" +:+ pretty (Z.of_nat membership_count)) in
  "chunk-" +:+ zero_padded 6 (Z.of_nat ordinal) +:+ "-" +:+ str_take 8 digest.

Definition membership_digest (accessions : list string) : string :=
  sha256_text sha256_hexdigest
    (canonical_json (JArr (JStr <$> merge_sort String.le accessions))).

Definition chunk_identity (work_order_version : string) (ordinal : nat)
    (members : list IndexWorkItem) : ChunkIdentity :=
  let digest := membership_digest (wi_accession <$> members) in
  mkChunk (compute_chunk_id work_order_version ordinal digest (length members)) ordinal digest
    (length members) work_order_version.

Definition partition_into_chunks (work_items : list IndexWorkItem) (chunk_size : Z)
    (work_order_version : string) : result (list (string * list IndexWorkItem)) :=
  _ ← raise_if (chunk_size <? 1)%Z (ValueError "chunk_size must be >= 1");
  let ordered := order_by wi_accession work_items in
  Ok (imap (λ ordinal members,
              (chunk_id (chunk_identity work_order_version ordinal members), members))
        (batches (Z.to_nat chunk_size) ordered)).

(** ** Validation *)

Record scan := mkScan { previous : option string; hashed : string; count : Z }.

Definition check_work_row (s : scan) (row : IndexWorkItem) : result scan :=
  accession ← match accession_from_any (wi_accession row) with
              | Ok accession => Ok accession
              | Err _ => Err (ManifestMismatchError "work order contains an invalid accession")
              end;
  _ ← raise_if (negb (bool_decide (wi_accession row = accession)))
        (ManifestMismatchError "work-order accessions must be normalized");
  _ ← raise_if (bool_decide (wi_index_url row = ""))
        (ManifestMismatchError "work order contains an empty index URL");
  _ ← raise_if (negb (bool_decide (wi_vehicle row ∈ ["index"; "summary"])))
        (ManifestMismatchError "work order contains an unknown vehicle");
  _ ← raise_if (match previous s with
                | Some p => bool_decide (String.le accession p)
                | None => false end)
        (ManifestMismatchError "work-order accessions must be sorted and unique");
  hashed ← _row_digest_update (hashed s) row;
  Ok (mkScan (Some accession) hashed (count s + 1)).

(** [None]: a file that is missing or not Parquet. *)
Definition validate_work_order (work_order : option (parquet IndexWorkItem))
    (batch_rows : option Z) : result WorkOrderIdentity :=
  batch_rows ← resolve_batch_size parquet_read_batch_size batch_rows;
  _ ← raise_if (batch_rows <? 1)%Z (ValueError "batch_rows must be positive");
  file ← require work_order (ManifestMismatchError "work order is not readable Parquet");
  _ ← raise_if (negb (bool_decide (schema file = WORK_ORDER_SCHEMA)))
        (ManifestMismatchError "work-order schema mismatch");
  s ← foldr_m (λ s batch, foldr_m check_work_row s batch) (mkScan None "" 0)
        (iter_batches (Z.to_nat batch_rows) (prows file));
  _ ← raise_if (negb (count s =? Z.of_nat (length (prows file)))%Z)
        (ManifestMismatchError "work-order Parquet row count changed while reading");
  Ok (mkIdentity (sha256_hexdigest (hashed s)) (count s)).

(** ** Writing *)

(** The files, the writer, [buffered], [previous] and [count]. *)
Record progress := mkProgress {
  disk : staging IndexWorkItem;
  file_writer : writer IndexWorkItem;
  buffered : list IndexWorkItem;
  last_accession : option string;
  written : Z;
}.

Definition flush (p : progress) : progress * result unit :=
  match buffered p with
  | [] => (p, Ok ())
  | rows =>
      let '(fs, w, r) := write_batch (disk p) (file_writer p) rows in
      match r with
      | Ok _ => (mkProgress fs w [] (last_accession p) (written p), Ok ())
      | Err e => (mkProgress fs w rows (last_accession p) (written p), Err e)
      end
  end.

Definition write_item (batch_rows : Z) (p : progress) (item : IndexWorkItem) :
    progress * result unit :=
  match
    (_ ← raise_if (match last_accession p with
                   | Some previous => bool_decide (String.le (wi_accession item) previous)
                   | None => false end)
           (ValueError "work items must be sorted by unique accession");
     raise_if (bool_decide (wi_index_url item = "")) (ValueError "work item has an empty index URL"))
  with
  | Err e => (p, Err e)
  | Ok _ =>
      let p := mkProgress (disk p) (file_writer p) (buffered p ++ [item])
                 (Some (wi_accession item)) (written p + 1) in
      if (batch_rows <=? Z.of_nat (length (buffered p)))%Z then flush p else (p, Ok ())
  end.

Fixpoint write_items (batch_rows : Z) (p : progress) (items : list IndexWorkItem) :
    progress * result unit :=
  match items with
  | [] => flush p
  | item :: items =>
      match write_item batch_rows p item with
      | (p, Ok _) => write_items batch_rows p items
      | (p, Err e) => (p, Err e)
      end
  end.

Definition write_work_order (fs : staging IndexWorkItem) (work_items : list IndexWorkItem)
    (batch_rows : option Z) : staging IndexWorkItem * result WorkOrderIdentity :=
  match (batch_rows ← resolve_batch_size read_batch_size batch_rows;
         _ ← raise_if (batch_rows <? 1)%Z (ValueError "batch_rows must be positive");
         Ok batch_rows) with
  | Err e => (fs, Err e)
  | Ok batch_rows =>
      let p := mkProgress fs (StagedParquetWriter WORK_ORDER_SCHEMA None) [] None 0 in
      match write_items batch_rows p work_items with
      | (p, Err e) => ((reset (disk p) (file_writer p)).1, Err e)
      | (p, Ok _) =>
          match commit (disk p) (file_writer p) (Some (written p)) with
          | (fs, w, Err e) => ((reset fs w).1, Err e)
          | (fs, w, Ok _) => (fs, validate_work_order (final fs) (Some batch_rows))
          end
      end
  end.

(** ** Chunks *)

Definition iter_work_order_chunks (work_order : option (parquet IndexWorkItem))
    (chunk_size : Z) (work_order_version : string) :
    result (list (ChunkIdentity * list IndexWorkItem)) :=
  _ ← raise_if (chunk_size <? 1)%Z (ValueError "chunk_size must be >= 1");
  file ← require work_order FileNotFoundError;
  _ ← raise_if (negb (bool_decide ((schema file).*1 = WORK_ORDER_SCHEMA.*1)))
        (ManifestMismatchError "work-order schema mismatch");
  mapr (λ '(ordinal, rows),
          members ← mapr (λ row,
              accession ← AccessionNumber (wi_accession row);
              Ok (mkItem accession (wi_index_url row) (wi_vehicle row) (wi_archive_cik row)
                    (wi_primary_document row) (wi_is_inline_xbrl row) (wi_form row))) rows;
          Ok (chunk_identity work_order_version ordinal members, members))
    (imap pair (iter_batches (Z.to_nat chunk_size) (prows file))).
End work_order.

(** ** Batches are consecutive blocks *)

Section batches.
Context {A : Type}.
Implicit Types (l : list A) (n : nat).

Lemma batches_of_join fuel n l : (0 < n)%nat → (length l ≤ fuel)%nat → mjoin (batches_of fuel n l) = l.
Proof.
  intros Hn. revert l; induction fuel as [|fuel IH]; intros [|x l] Hl; simpl in *; try done; [lia|].
  rewrite IH; [by rewrite take_drop|]. rewrite length_drop. simpl. lia.
Qed.
Lemma batches_join n l : (0 < n)%nat → mjoin (batches n l) = l.
Proof. intros Hn. by apply batches_of_join. Qed.

Lemma batches_of_lookup fuel n l i b :
  (0 < n)%nat → batches_of fuel n l !! i = Some b →
  b = take n (drop (i * n) l) ∧ b ≠ [].
Proof.
  intros Hn. revert l i; induction fuel as [|fuel IH]; intros [|x l] [|i]; simpl; try done.
  - intros [= <-]. split; [done|]. destruct n; [lia|done].
  - intros H. apply IH in H as [-> Hb]. split; [|done]. by rewrite drop_drop.
Qed.
Lemma batches_lookup n l i b :
  (0 < n)%nat → batches n l !! i = Some b → b = take n (drop (i * n) l) ∧ b ≠ [].
Proof. apply batches_of_lookup. Qed.
End batches.

Lemma foldr_m_join {A S} (f : S → A → result S) s (ls : list (list A)) :
  foldr_m (λ s l, foldr_m f s l) s ls = foldr_m f s (mjoin ls).
Proof.
  revert s; induction ls as [|l ls IH]; intros s; simpl; [done|].
  rewrite foldr_m_app. by destruct (foldr_m f s l); simpl.
Qed.

(** ** The digest's encoding is unambiguous *)

Lemma append_inj_length s t r r' :
  String.length s = String.length t → s +:+ r = t +:+ r' → s = t ∧ r = r'.
Proof.
  revert t; induction s as [|c s IH]; intros [|d t] Hl; try done; simpl in Hl.
  rewrite !append_cons. intros H. injection H as -> H. injection Hl as Hl.
  by destruct (IH t Hl H) as [-> ->].
Qed.

Lemma be_bytes_length k n : String.length (be_bytes k n) = k.
Proof.
  revert n; induction k as [|k IH]; intros n; simpl; [done|].
  rewrite length_append, IH. simpl. lia.
Qed.
Lemma be_bytes_inj k n m :
  (n < 256 ^ N.of_nat k)%N → (m < 256 ^ N.of_nat k)%N → be_bytes k n = be_bytes k m → n = m.
Proof.
  revert n m; induction k as [|k IH]; intros n m Hn Hm H; [simpl in Hn, Hm; lia|].
  cbn [be_bytes] in H. rewrite Nat2N.inj_succ, N.pow_succ_r' in Hn, Hm.
  apply append_inj_length in H as [H1 H2]; [|by rewrite !be_bytes_length].
  injection H2 as H2. apply (f_equal N_of_ascii) in H2.
  rewrite !N_ascii_embedding in H2 by (apply N.mod_lt; done).
  apply IH in H1; [|apply N.Div0.div_lt_upper_bound; lia..].
  rewrite (N.div_mod n 256), (N.div_mod m 256) by done. congruence.
Qed.

Definition fits (value : string) : Prop := (N.of_nat (String.length (utf8 value)) < 2 ^ 64)%N.
Definition field (value : string) : string :=
  be_bytes 8 (N.of_nat (String.length (utf8 value))) +:+ utf8 value.
Fixpoint fields (values : list string) : string :=
  match values with [] => "" | v :: values => field v +:+ fields values end.

Lemma field_inj v w r r' : fits v → fits w → field v +:+ r = field w +:+ r' → v = w ∧ r = r'.
Proof.
  unfold fits, field. intros Hv Hw H. rewrite !append_assoc in H.
  apply append_inj_length in H as [Hl H]; [|by rewrite !be_bytes_length].
  apply be_bytes_inj in Hl; [|done..]. apply Nat2N.inj in Hl.
  apply append_inj_length in H as [He ->]; [|done]. by apply (inj utf8) in He.
Qed.
Lemma fields_app l k : fields (l ++ k) = fields l +:+ fields k.
Proof. induction l as [|v l IH]; simpl; rewrite ?append_nil; [done|]. by rewrite IH, append_assoc. Qed.
Lemma fields_inj n l k r r' :
  length l = n → length k = n → Forall fits l → Forall fits k →
  fields l +:+ r = fields k +:+ r' → l = k ∧ r = r'.
Proof.
  revert l k; induction n as [|n IH]; intros [|v l] [|w k] Hl Hk Fl Fk; try done.
  simpl in *. rewrite !append_assoc. apply Forall_cons in Fl as [Fv Fl], Fk as [Fw Fk].
  intros [-> H]%field_inj; [|done..]. apply IH in H as [-> ->]; [done|lia|lia|done..].
Qed.

Lemma hash_value_Ok hasher value hasher' :
  hash_value hasher value = Ok hasher' ↔ fits value ∧ hasher' = hasher +:+ field value.
Proof.
  unfold hash_value, to_bytes_8, fits, field.
  destruct (N.ltb_spec (N.of_nat (String.length (utf8 value))) (2 ^ 64)) as [Hv|Hv];
    cbn [mbind result_bind]; naive_solver lia.
Qed.
Lemma row_digest_update_Ok hasher row hasher' :
  _row_digest_update hasher row = Ok hasher' ↔
  Forall fits (row_values row) ∧ hasher' = hasher +:+ fields (row_values row).
Proof.
  unfold _row_digest_update. generalize (row_values row) as values. intros values.
  revert hasher; induction values as [|v values IH]; intros hasher; cbn [foldr_m fields].
  { rewrite append_nil_r. split; [by intros [= ->]|]. by intros [_ ->]. }
  rewrite bind_Ok, Forall_cons. setoid_rewrite hash_value_Ok. setoid_rewrite IH. split.
  - intros (h & [Hv ->] & [Hvs ->]). by rewrite append_assoc.
  - intros [[Hv Hvs] ->]. exists (hasher +:+ field v). by rewrite append_assoc.
Qed.

(** The bytes a list of rows feeds to the hash. *)
Definition rows_bytes (rows : list IndexWorkItem) : string := fields (rows ≫= row_values).
Definition encodable (rows : list IndexWorkItem) : Prop :=
  Forall (λ row, Forall fits (row_values row)) rows.
Definition same_row (a b : IndexWorkItem) : Prop := row_values a = row_values b.

Lemma rows_bytes_cons row l : rows_bytes (row :: l) = fields (row_values row) +:+ rows_bytes l.
Proof. unfold rows_bytes. by rewrite bind_cons, fields_app. Qed.
Lemma rows_bytes_nonempty row l : rows_bytes (row :: l) ≠ "".
Proof.
  rewrite rows_bytes_cons. intros H%(f_equal String.length). revert H. unfold row_values.
  cbn [fields]. unfold field at 1. rewrite !length_append, be_bytes_length. simpl. lia.
Qed.
Lemma rows_bytes_inj l k :
  encodable l → encodable k → rows_bytes l = rows_bytes k → Forall2 same_row l k.
Proof.
  unfold encodable. revert k; induction l as [|a l IH]; intros [|b k] Hl Hk H.
  - by constructor.
  - symmetry in H. by apply rows_bytes_nonempty in H.
  - by apply rows_bytes_nonempty in H.
  - rewrite !rows_bytes_cons in H. apply Forall_cons in Hl as [Ha Hl], Hk as [Hb Hk].
    apply (fields_inj 7) in H as [Hab H]; [|done..]. constructor; [done|]. by apply IH.
Qed.

Lemma rows_bytes_same l k : Forall2 same_row l k → rows_bytes l = rows_bytes k.
Proof. induction 1 as [|a b l k Hab _ IH]; [done|]. rewrite !rows_bytes_cons, IH. by rewrite Hab. Qed.

(** ** What validation accepts *)

Definition valid_row (row : IndexWorkItem) : Prop :=
  accession_from_any (wi_accession row) = Ok (wi_accession row) ∧ wi_index_url row ≠ "" ∧
  wi_vehicle row ∈ ["index"; "summary"].

(** Accessions strictly ascend, from what came before. *)
Fixpoint ascending (prev : option string) (rows : list IndexWorkItem) : Prop :=
  match rows with
  | [] => True
  | row :: rows =>
      match prev with Some p => strict String.le p (wi_accession row) | None => True end ∧
      ascending (Some (wi_accession row)) rows
  end.

Lemma not_le_strict a p : bool_decide (String.le a p) = false ↔ strict String.le p a.
Proof.
  rewrite bool_decide_eq_false. unfold strict. split; [|tauto].
  intros H. split; [|done]. by destruct (total String.le p a).
Qed.

Lemma ascending_sorted rows :
  ascending None rows ↔ StronglySorted (strict String.le) (wi_accession <$> rows).
Proof.
  assert (H : ∀ rows p, ascending (Some p) rows ↔
    StronglySorted (strict String.le) (p :: (wi_accession <$> rows))).
  { clear. intros rows. induction rows as [|row rows IH]; intros p; simpl.
    - split; [intros _; repeat constructor|done].
    - rewrite IH. split.
      + intros [Hp Hs]. constructor; [done|]. constructor; [done|].
        inversion Hs as [|? ? ? Hall]; subst. eapply Forall_impl; [exact Hall|].
        intros x Hx. by transitivity (wi_accession row).
      + inversion 1 as [|? ? Hs Hall]; subst. by inversion Hall. }
  destruct rows as [|row rows]; simpl; [split; [constructor|done]|]. rewrite H. naive_solver.
Qed.

Definition scanned (s : scan) (rows : list IndexWorkItem) : scan :=
  mkScan (match last rows with Some row => Some (wi_accession row) | None => previous s end)
    (hashed s +:+ rows_bytes rows) (count s + Z.of_nat (length rows)).

Lemma check_work_row_Ok s row s' :
  check_work_row s row = Ok s' ↔
  valid_row row ∧ ascending (previous s) [row] ∧ Forall fits (row_values row) ∧
  s' = mkScan (Some (wi_accession row)) (hashed s +:+ fields (row_values row)) (count s + 1).
Proof.
  unfold check_work_row, valid_row. simpl. split.
  - intros (acc & Ha & H)%bind_Ok. inv_ok. boolprop. subst.
    match goal with H : _row_digest_update _ _ = _ |- _ => apply row_digest_update_Ok in H as [? ->] end.
    destruct (accession_from_any _) as [a|]; [injection Ha as ->|done].
    split_and!; try done. destruct (previous s); [|done]. by apply not_le_strict.
  - intros ((-> & Hu & Hv) & [Hp _] & Hf & ->). cbn [mbind result_bind].
    rewrite (bool_decide_true (wi_accession row = wi_accession row)) by done.
    rewrite (bool_decide_false (wi_index_url row = "")), (bool_decide_true (wi_vehicle row ∈ _)) by done.
    assert (match previous s with Some p => bool_decide (String.le (wi_accession row) p)
            | None => false end = false) as ->.
    { destruct (previous s); [|done]. by apply not_le_strict. }
    cbn [negb raise_if mbind result_bind].
    by rewrite (proj2 (row_digest_update_Ok (hashed s) row _) (conj Hf eq_refl)).
Qed.

Lemma check_work_rows_Ok s rows s' :
  foldr_m check_work_row s rows = Ok s' ↔
  Forall valid_row rows ∧ ascending (previous s) rows ∧ encodable rows ∧ s' = scanned s rows.
Proof.
  revert s; induction rows as [|row rows IH]; intros s; cbn [foldr_m].
  - unfold scanned, encodable, rows_bytes. simpl. rewrite append_nil_r, Z.add_0_r. destruct s. simpl.
    split; [intros [= <-]; split_and!; constructor|by intros (_ & _ & _ & ->)].
  - rewrite bind_Ok. setoid_rewrite IH. setoid_rewrite check_work_row_Ok. unfold encodable.
    rewrite !Forall_cons. simpl. unfold scanned. rewrite rows_bytes_cons, last_cons. split.
    + intros (s1 & (Hv & [Hp _] & Hf & ->) & Hvs & Ha & He & ->). simpl in *.
      split_and!; try done. f_equal; [by destruct (last rows)|by rewrite !append_assoc|lia].
    + intros ([Hv Hvs] & [Hp Ha] & [Hf He] & ->).
      exists (mkScan (Some (wi_accession row)) (hashed s +:+ fields (row_values row)) (count s + 1)).
      split_and!; try done. simpl. f_equal; [by destruct (last rows)|by rewrite !append_assoc|lia].
Qed.

(** ** Memberships *)

(** Two texts with one digest. *)
Definition collision (sha256_hexdigest : string → string) : Prop :=
  ∃ x y, x ≠ y ∧ sha256_hexdigest x = sha256_hexdigest y.

Lemma merge_sort_unique (l k : list string) :
  l ≡ₚ k → merge_sort String.le l = merge_sort String.le k.
Proof.
  intros H. eapply (StronglySorted_unique String.le);
    [apply (StronglySorted_merge_sort _); apply _..|].
  by rewrite !merge_sort_Permutation.
Qed.

Lemma membership_digest_Permutation sha l k :
  l ≡ₚ k → membership_digest sha l = membership_digest sha k.
Proof. intros H. unfold membership_digest. by rewrite (merge_sort_unique l k). Qed.

#[global] Instance JStr_inj : Inj (=) (=) JStr.
Proof. by intros s t [= ->]. Qed.
Lemma sort_keys_strings l : sort_keys (JArr (JStr <$> l)) = JArr (JStr <$> l).
Proof.
  change (JArr (sort_keys <$> (JStr <$> l)) = JArr (JStr <$> l)). f_equal.
  rewrite <- list_fmap_compose. by apply list_fmap_ext.
Qed.

(** A membership digest identifies the set of members, unless a collision was found. *)
Lemma membership_digest_identifies sha l k :
  membership_digest sha l = membership_digest sha k → l ≡ₚ k ∨ collision sha.
Proof.
  unfold membership_digest. intros H.
  set (x := canonical_json (JArr (JStr <$> merge_sort String.le l))) in *.
  set (y := canonical_json (JArr (JStr <$> merge_sort String.le k))) in *.
  assert (Hxy : sha (utf8 x) = sha (utf8 y)).
  { revert H. unfold sha256_text. by repeat case_match; rewrite ?sliced_bytes_all. }
  destruct (decide (x = y)) as [He|He]; [left|right].
  - apply canonical_json_inj in He. rewrite !sort_keys_strings in He. injection He as He.
    apply (list_fmap_eq_inj JStr JStr_inj) in He.
    by rewrite <- (merge_sort_Permutation String.le l), He, merge_sort_Permutation.
  - exists (utf8 x), (utf8 y). split; [|done]. by intros ?%(inj utf8).
Qed.

Section work_order_theorems.
Context (sha256_hexdigest : string → string) (read_batch_size parquet_read_batch_size : Z).
Context {reader : ParquetReader}.
Abbreviation validate_work_order := (validate_work_order sha256_hexdigest parquet_read_batch_size).
Abbreviation write_work_order :=
  (write_work_order sha256_hexdigest read_batch_size parquet_read_batch_size).
Abbreviation iter_work_order_chunks := (iter_work_order_chunks sha256_hexdigest).
Abbreviation partition_into_chunks := (partition_into_chunks sha256_hexdigest).

Definition acceptable (f : parquet IndexWorkItem) : Prop :=
  schema f = WORK_ORDER_SCHEMA ∧ Forall valid_row (prows f) ∧
  StronglySorted (strict String.le) (wi_accession <$> prows f) ∧ encodable (prows f).
Definition identity_of (f : parquet IndexWorkItem) : WorkOrderIdentity :=
  mkIdentity (sha256_hexdigest (rows_bytes (prows f))) (Z.of_nat (length (prows f))).

Lemma validate_work_order_Ok file n id :
  validate_work_order file (Some n) = Ok id ↔
  (1 ≤ n)%Z ∧ ∃ f, file = Some f ∧ acceptable f ∧ id = identity_of f.
Proof.
  unfold WorkOrder.validate_work_order, acceptable, identity_of. simpl.
  destruct (Z.ltb_spec n 1) as [Hn|Hn]; simpl; [split; [done|]; intros []; lia|].
  rewrite (proj2 (Z.ltb_ge n 1)) by lia. simpl.
  rewrite bind_Ok. setoid_rewrite require_Ok. split.
  - intros (f & Hf & Hb). apply bind_Ok in Hb as ([] & Hs%raise_if_Ok & Hb). boolprop.
    rewrite iter_batches_blocks in Hb by lia. rewrite foldr_m_join, batches_join in Hb by lia.
    apply bind_Ok in Hb as (s & Hr & Hb). apply check_work_rows_Ok in Hr as (Hv & Ha & He & ->).
    apply bind_Ok in Hb as (_ & _ & Hb). injection Hb as <-. apply ascending_sorted in Ha.
    split; [lia|]. exists f. by split_and!.
  - intros (_ & f & Hf & (Hs & Hv & Ha & He) & ->). exists f. split; [done|].
    rewrite bool_decide_true by done. simpl.
    rewrite iter_batches_blocks by lia. rewrite foldr_m_join, batches_join by lia.
    apply ascending_sorted in Ha.
    rewrite (proj2 (check_work_rows_Ok (mkScan None "" 0) (prows f) _) (conj Hv (conj Ha (conj He eq_refl)))).
    simpl. by rewrite Z.eqb_refl.
Qed.

(** Validation accepts exactly the readable files of the schema whose rows are valid
    and strictly ascending by accession, whatever the batch size; the identity is the
    digest of the rows' encoding and their number. *)
Theorem validate_work_order_accepts file n id :
  validate_work_order file (Some n) = Ok id ↔
  (1 ≤ n)%Z ∧ ∃ f, file = Some f ∧ acceptable f ∧ id = identity_of f.
Proof. apply validate_work_order_Ok. Qed.

(** C39: the digest of an accepted work order is the hash of bytes that identify its rows.
    Two accepted files feed the hash the same bytes exactly when their rows are the same, in
    the same order, an absent optional field counting as an empty one; so the same rows have
    the same digest, and equal digests mean the same rows unless these two byte strings
    are themselves a collision of the hash. *)
Theorem work_order_digest_identifies f g n m id id' :
  validate_work_order (Some f) (Some n) = Ok id → validate_work_order (Some g) (Some m) = Ok id' →
  let fed h := rows_bytes (prows h) in
  digest id = sha256_hexdigest (fed f) ∧ digest id' = sha256_hexdigest (fed g) ∧
  (fed f = fed g ↔ Forall2 same_row (prows f) (prows g)) ∧
  (digest id = digest id' ↔
     Forall2 same_row (prows f) (prows g) ∨ fed f ≠ fed g ∧ sha256_hexdigest (fed f) = sha256_hexdigest (fed g)).
Proof.
  intros (_ & ? & [= <-] & (_ & _ & _ & Hf) & ->)%validate_work_order_Ok.
  intros (_ & ? & [= <-] & (_ & _ & _ & Hg) & ->)%validate_work_order_Ok. simpl.
  assert (rows_bytes (prows f) = rows_bytes (prows g) ↔ Forall2 same_row (prows f) (prows g)) as Hiff
    by (split; [by apply rows_bytes_inj|apply rows_bytes_same]).
  split_and!; [done..|exact Hiff|]. rewrite <- Hiff.
  destruct (decide (rows_bytes (prows f) = rows_bytes (prows g))) as [->|He]; [tauto|]. naive_solver.
Qed.
(** ** Writing *)

(** What the writer checks of the items, from what came before. *)
Definition writable (prev : option string) (items : list IndexWorkItem) : Prop :=
  ascending prev items ∧ Forall (λ item, wi_index_url item ≠ "") items.

#[local] Instance ascending_dec items prev : Decision (ascending prev items).
Proof.
  revert prev; induction items as [|item items IH]; intros prev; simpl; [apply _|].
  destruct prev; apply _.
Defined.
#[local] Instance writable_dec prev items : Decision (writable prev items).
Proof. unfold writable. apply _. Defined.

(** Between two items: what was seen is staged or buffered, and nothing is final yet. *)
Record in_progress (fs : staging IndexWorkItem) (seen : list IndexWorkItem) (p : progress) : Prop := {
  ip_final : final (disk p) = final fs;
  ip_schema : w_schema (file_writer p) = WORK_ORDER_SCHEMA;
  ip_rows : ∃ rows, writing (file_writer p) rows ∧ rows ++ buffered p = seen;
  ip_fresh : open_writer (file_writer p) = None → buffered p = seen ∧ disk p = fs ∧
             file_writer p = StagedParquetWriter WORK_ORDER_SCHEMA None;
  ip_last : last_accession p = wi_accession <$> last seen;
  ip_written : written p = Z.of_nat (length seen);
}.

Lemma flush_progress fs seen p :
  in_progress fs seen p →
  ∃ p', flush p = (p', Ok ()) ∧ in_progress fs seen p' ∧ buffered p' = [].
Proof.
  intros H. unfold flush. destruct (buffered p) as [|x b] eqn:Eb; [by exists p|].
  destruct (ip_rows _ _ _ H) as (rows & Hw & Hr). rewrite Eb in Hr.
  destruct (write_batch_writing (disk p) (file_writer p) rows (x :: b) Hw)
    as (w' & -> & Hw' & [l Hl] & Hs). eexists. split; [done|]. split; [|done].
  destruct H. constructor; simpl; try done; [congruence| |by rewrite Hl].
  exists seen. rewrite app_nil_r. by rewrite Hr in Hw'.
Qed.

Lemma write_item_progress fs seen p n item :
  in_progress fs seen p →
  (writable (last_accession p) [item] →
    ∃ p', write_item n p item = (p', Ok ()) ∧ in_progress fs (seen ++ [item]) p') ∧
  (¬ writable (last_accession p) [item] → ∃ e, write_item n p item = (p, Err e)).
Proof.
  intros H. unfold write_item, writable. rewrite Forall_singleton. simpl.
  set (late := match last_accession p with Some previous => _ | None => false end).
  assert (Hlate : late = false ↔ ascending (last_accession p) [item]).
  { subst late. simpl. destruct (last_accession p); [rewrite not_le_strict|]; tauto. }
  simpl in Hlate. rewrite <- Hlate. clear Hlate. split.
  - intros [Hl Hu]. rewrite Hl, bool_decide_false by done. cbn [raise_if mbind result_bind].
    set (p1 := mkProgress _ _ _ _ _). assert (H1 : in_progress fs (seen ++ [item]) p1).
    { destruct H as [Hf Hs (rows & Hw & Hr) Hn Hla Hwr]. constructor; simpl; try done.
      - exists rows. by rewrite app_assoc, Hr.
      - intros Ho. destruct (Hn Ho) as (-> & ? & ?). done.
      - by rewrite last_snoc.
      - rewrite length_app. simpl. lia. }
    case_match; [|by exists p1]. destruct (flush_progress _ _ _ H1) as (p' & -> & ? & _). eauto.
  - intros Hn. destruct late; [eexists; reflexivity|]. simpl.
    rewrite bool_decide_true; [eexists; reflexivity|]. destruct (decide (wi_index_url item = "")); tauto.
Qed.

Lemma writable_cons prev item items :
  writable prev (item :: items) ↔ writable prev [item] ∧ writable (Some (wi_accession item)) items.
Proof. unfold writable. rewrite Forall_cons, Forall_singleton. simpl. tauto. Qed.

Lemma write_items_progress fs seen p n items :
  in_progress fs seen p →
  (writable (last_accession p) items →
    ∃ p', write_items n p items = (p', Ok ()) ∧ in_progress fs (seen ++ items) p' ∧
          buffered p' = []) ∧
  (¬ writable (last_accession p) items →
    ∃ p' e, write_items n p items = (p', Err e) ∧ final (disk p') = final fs).
Proof.
  revert seen p; induction items as [|item items IH]; intros seen p H; cbn [write_items].
  - rewrite app_nil_r. destruct (flush_progress _ _ _ H) as (p' & -> & H' & Hb). split; [eauto|].
    intros Hn. destruct Hn. by split; [|constructor].
  - destruct (write_item_progress fs seen p n item H) as [Hok Herr]. rewrite writable_cons.
    destruct (decide (writable (last_accession p) [item])) as [Hw|Hw].
    + destruct (Hok Hw) as (p1 & -> & H1). pose proof (ip_last _ _ _ H1) as E.
      rewrite last_snoc in E. apply IH in H1 as [Hok1 Herr1]. simpl in E. rewrite E in *. rewrite <- app_assoc in Hok1. split; [intros [_ ?]; auto|]. intros Hn.
      apply Herr1. tauto.
    + split; [tauto|]. intros _. destruct (Herr Hw) as (e & ->). exists p, e.
      split; [done|]. apply H.
Qed.

(** A work order is written atomically: sorted items with index URLs become exactly
    the rows of the final file, whose identity is returned when they are valid; anything
    else is refused, the final file is as it was, and no stage is left either way. *)
Theorem write_work_order_result fs items n :
  (1 ≤ n)%Z → tmp fs = None ∨ items ≠ [] →
  let '(fs', r) := write_work_order fs items (Some n) in
  tmp fs' = None ∧
  (writable None items → final fs' = Some (mkParquet WORK_ORDER_SCHEMA items) ∧
     (acceptable (mkParquet WORK_ORDER_SCHEMA items) →
      r = Ok (identity_of (mkParquet WORK_ORDER_SCHEMA items)))) ∧
  (¬ writable None items → final fs' = final fs ∧ ∃ e, r = Err e).
Proof.
  intros Hn Hfresh. unfold WorkOrder.write_work_order. simpl.
  rewrite (proj2 (Z.ltb_ge n 1)) by lia. simpl. rewrite (proj2 (Z.ltb_ge n 1)) by lia. simpl.
  set (p := mkProgress _ _ _ _ _). assert (Hp : in_progress fs [] p).
  { constructor; try done. by exists []. }
  destruct (write_items_progress fs [] p n items Hp) as [Hok Herr].
  destruct (decide (writable None items)) as [Hw|Hw].
  - destruct (Hok Hw) as (p' & -> & Hp' & Hb). destruct (ip_rows _ _ _ Hp') as (rows & Hwr & Hr).
    rewrite Hb, app_nil_r in Hr. simpl in Hr. subst rows.
    assert (∃ w', commit (disk p') (file_writer p') (Some (written p')) =
      (mkStaging (Some (mkParquet WORK_ORDER_SCHEMA items)) None, w', Ok (Z.of_nat (length items))))
      as (w' & ->).
    { destruct (open_writer (file_writer p')) eqn:Eo.
      - rewrite <- (ip_schema _ _ _ Hp').
        destruct (commit_writing (disk p') (file_writer p') items (Some (written p')))
          as (w' & -> & _); [done|by rewrite Eo|by apply Hp'|eauto].
      - destruct (ip_fresh _ _ _ Hp' Eo) as (Hbs & Hd & Hfw). rewrite Hb in Hbs. simpl in Hbs.
        subst items. destruct Hfresh as [Ht|]; [|done].
        rewrite Hd, Hfw, (ip_written _ _ _ Hp'). destruct fs as [f t]. simpl in Ht. subst t.
        eexists. reflexivity. }
    split; [done|]. split; [|done]. intros _. split; [done|]. intros Hacc.
    apply validate_work_order_Ok. eauto.
  - destruct (Herr Hw) as (p' & e & -> & Hf). simpl. split; [done|]. split; [done|]. eauto.
Qed.

(** ** Chunks *)

Lemma chunk_identity_id version i members :
  chunk_id (chunk_identity sha256_hexdigest version i members) =
  compute_chunk_id sha256_hexdigest version i
    (membership_digest sha256_hexdigest (wi_accession <$> members)) (length members).
Proof. done. Qed.

Lemma digits_dash_inj s t r r' :
  string_forallb is_digit s = true → string_forallb is_digit t = true →
  s +:+ "-" +:+ r = t +:+ "-" +:+ r' → s = t.
Proof.
  revert t; induction s as [|c s IH]; intros [|d t]; simpl; try done.
  - rewrite append_nil, append_cons. intros _ [Hd _]%andb_true_iff H. injection H as <- _. done.
  - rewrite append_nil, append_cons. intros [Hc _]%andb_true_iff _ H. injection H as -> _. done.
  - rewrite !append_cons. intros [_ Hs]%andb_true_iff [_ Ht]%andb_true_iff H.
    injection H as -> H. f_equal. by apply IH.
Qed.

Lemma compute_chunk_id_inj version i j d d' n n' :
  compute_chunk_id sha256_hexdigest version i d n =
  compute_chunk_id sha256_hexdigest version j d' n' → i = j.
Proof.
  unfold compute_chunk_id. intros H. apply append_inj_length in H as [_ H]; [|done].
  apply digits_dash_inj in H; [|apply zero_padded_digits; lia..].
  apply zero_padded_inj in H; lia.
Qed.

Lemma valid_members rows :
  Forall valid_row rows →
  mapr (λ row,
    accession ← AccessionNumber (wi_accession row);
    Ok (mkItem accession (wi_index_url row) (wi_vehicle row) (wi_archive_cik row)
          (wi_primary_document row) (wi_is_inline_xbrl row) (wi_form row))) rows = Ok rows.
Proof.
  intros Hv. apply mapr_Ok, Forall2_same_length_lookup_2; [done|].
  intros i row row' Hi Hi'. simplify_eq. rewrite Forall_lookup in Hv.
  destruct (Hv _ _ Hi) as (Ha & _). apply accession_from_any_hyphenated in Ha.
  rewrite AccessionNumber_hyphenated by done. by destruct row.
Qed.

Lemma sorted_items_ordered items :
  StronglySorted (strict String.le) (wi_accession <$> items) →
  order_by wi_accession items = items.
Proof.
  intros Hs. apply order_by_id.
  - induction items as [|item items IH]; [constructor|]. inversion Hs as [|? ? Hs' Hall]; subst.
    constructor; [by apply IH|]. rewrite Forall_fmap in Hall.
    eapply Forall_impl; [exact Hall|]. by intros x [Hx _].
  - induction items as [|item items IH]; [constructor|]. inversion Hs as [|? ? Hs' Hall]; subst.
    constructor; [|by apply IH]. intros Hin. rewrite Forall_forall in Hall.
    apply Hall in Hin as [_ Hn]. by apply Hn.
Qed.

Lemma chunks_Ok f n version :
  (1 ≤ n)%Z → acceptable f →
  iter_work_order_chunks (Some f) n version =
  Ok (imap (λ i members, (chunk_identity sha256_hexdigest version i members, members))
        (batches (Z.to_nat n) (prows f))).
Proof.
  intros Hn (Hs & Hv & _). unfold WorkOrder.iter_work_order_chunks.
  rewrite (proj2 (Z.ltb_ge n 1)) by lia. simpl. rewrite Hs, bool_decide_true by done. simpl.
  rewrite iter_batches_blocks by lia. set (bs := batches _ _).
  assert (Hbs : ∀ b, b ∈ bs → Forall valid_row b).
  { intros b [i Hi]%list_elem_of_lookup. apply batches_lookup in Hi as [-> _]; [|lia].
    by apply Forall_take, Forall_drop. }
  clearbody bs. apply mapr_Ok, Forall2_same_length_lookup_2; [by rewrite !length_imap|].
  intros i [j rows] c. rewrite !list_lookup_imap, !fmap_Some. intros (b & Hb & [= -> ->]) (b' & Hb' & ->).
  simplify_eq. rewrite valid_members; [done|]. by eapply Hbs, list_elem_of_lookup_2.
Qed.

(** Iterating over an acceptable work order yields the chunks [partition_into_chunks]
    computes from its items: non-empty blocks of consecutive rows, at most [n] long, that
    together are the rows, with distinct identities. *)
Theorem work_order_chunks f n version :
  (1 ≤ n)%Z → acceptable f →
  ∃ chunks, iter_work_order_chunks (Some f) n version = Ok chunks ∧
    partition_into_chunks (prows f) n version = Ok ((λ c, (chunk_id c.1, c.2)) <$> chunks) ∧
    mjoin chunks.*2 = prows f ∧ NoDup (chunk_id <$> chunks.*1) ∧
    ∀ c members, (c, members) ∈ chunks →
      members ≠ [] ∧ (Z.of_nat (length members) ≤ n)%Z ∧
      c = chunk_identity sha256_hexdigest version (ordinal c) members.
Proof.
  intros Hn Ha. rewrite chunks_Ok by done. eexists. split; [done|].
  unfold WorkOrder.partition_into_chunks. rewrite (proj2 (Z.ltb_ge n 1)) by lia. simpl.
  destruct Ha as (_ & _ & Hs & _). rewrite sorted_items_ordered by done. split_and!.
  - by rewrite fmap_imap.
  - rewrite fmap_imap. simpl. transitivity (mjoin (batches (Z.to_nat n) (prows f)));
      [|apply batches_join; lia]. f_equal. apply list_eq. intros i. rewrite list_lookup_imap.
    by destruct (_ !! i).
  - rewrite <- list_fmap_compose, fmap_imap. apply NoDup_alt. intros i j x.
    rewrite !list_lookup_imap, !fmap_Some. intros (b & _ & ->) (b' & _ & He).
    simpl in He. by apply compute_chunk_id_inj in He.
  - intros c members Hc. apply elem_of_lookup_imap in Hc as (i & b & [= -> ->] & Hb).
    apply batches_lookup in Hb as [-> Hne]; [|lia]. split; [done|]. split; [|done].
    rewrite length_take. lia.
Qed.
End work_order_theorems.

(** ** Witnesses *)

#[local] Instance block_reader : ParquetReader := {|
  iter_batches A n l := batches n l;
  iter_batches_blocks A n l _ := eq_refl
|}.
Definition demo_rows : list IndexWorkItem :=
  [mkItem "0000320193-23-000106" "https://www.sec.gov/a" "index" None None false None;
   mkItem "0000320193-23-000107" "https://www.sec.gov/b" "summary" (Some "320193")
     (Some "a.htm") true (Some "10-K");
   mkItem "0000320193-24-000001" "https://www.sec.gov/c" "index" None None false None].
Definition demo_order : parquet IndexWorkItem := mkParquet WORK_ORDER_SCHEMA demo_rows.
Definition demo_digest (s : string) : string := s.

Lemma demo_acceptable : acceptable demo_order.
Proof.
  assert (is_ok (validate_work_order demo_digest 2 (Some demo_order) (Some 2%Z)) = true) as H
    by (vm_compute; reflexivity).
  destruct (validate_work_order demo_digest 2 (Some demo_order) (Some 2%Z)) as [id|] eqn:E; [|done].
  apply validate_work_order_Ok in E as (_ & f & [= <-] & Ha & _). exact Ha.
Defined.

Lemma write_work_order_result_witness :
  (write_work_order demo_digest 2 2 (mkStaging None None) demo_rows (Some 2%Z)).2 =
  Ok (identity_of demo_digest demo_order).
Proof.
  pose proof (write_work_order_result demo_digest 2 2 (mkStaging None None) demo_rows 2
    ltac:(lia) (or_introl eq_refl)) as H.
  destruct (write_work_order demo_digest 2 2 (mkStaging None None) demo_rows (Some 2%Z)) as [fs r].
  destruct H as (_ & H & _). apply H; [|exact demo_acceptable].
  destruct demo_acceptable as (_ & Hv & Hs & _). split; [by apply ascending_sorted|].
  eapply Forall_impl; [exact Hv|]. by intros row (_ & Hu & _).
Defined.

(** The same rows, with an empty field where the first is absent. *)
Definition demo_order' : parquet IndexWorkItem :=
  mkParquet WORK_ORDER_SCHEMA
    (mkItem "0000320193-23-000106" "https://www.sec.gov/a" "index" (Some "") None false None :: tail demo_rows).
Lemma demo_order_validated order :
  order = demo_order ∨ order = demo_order' →
  validate_work_order demo_digest 2 (Some order) (Some 2%Z) = Ok (identity_of demo_digest order).
Proof. intros [-> | ->]; vm_compute; reflexivity. Qed.
Lemma work_order_digest_identifies_witness :
  digest (identity_of demo_digest demo_order) = digest (identity_of demo_digest demo_order').
Proof.
  destruct (work_order_digest_identifies demo_digest 2 demo_order demo_order' 2 2 _ _
    (demo_order_validated _ (or_introl eq_refl)) (demo_order_validated _ (or_intror eq_refl))) as (_ & _ & _ & H).
  apply H. left. repeat constructor.
Defined.

Lemma work_order_chunks_witness :
  ∃ chunks, iter_work_order_chunks demo_digest (Some demo_order) 2 "4" = Ok chunks ∧
    mjoin chunks.*2 = demo_rows.
Proof.
  destruct (work_order_chunks demo_digest demo_order 2 "4" ltac:(lia) demo_acceptable)
    as (chunks & H & _ & Hj & _). exists chunks. split; [exact H|exact Hj].
Defined.
