(* ===== verification/RunManifest.v ===== *)
(** * Run manifests of the inventory pipeline: [document_inventory/run_state/run_manifest.py]

    The manifest pins what a run was started for.  It is written once as canonical JSON,
    read back on resume and compared field by field with what the resuming caller asks
    for and with the work order on disk. *)
From S2P Require Import Prelude Numerals Serialization PyJson.
From S2P Require Import ParquetWriter WorkOrder.

Definition OUTCOME_SCHEMA_VERSION : Z := 2.
Definition PROGRESS_SCHEMA_VERSION : Z := 2.
Definition ENTRY_SCHEMA_VERSION : Z := 1.
Definition _REFRESH_MODES : list string := ["normal"; "force"].
Definition _FETCH_MODES : list string := ["live"; "force_refresh"].

Record InventoryRunManifest := mkManifest {
  run_id : string;
  parent_snapshot_id : string;
  canonical_cohort_id : string;
  source_identity : string;
  parser_version : string;
  outcome_schema_version : Z;
  entry_schema_version : Z;
  progress_schema_version : Z;
  work_order_version : string;
  work_order_digest : string;
  work_order_rows : Z;
  chunk_size : Z;
  refresh_mode : string;
  fetch_mode : string;
  fixture_id : option string;
  created_at : string;
  settings_snapshot : json;
}.

Definition json_option (o : option string) : json :=
  match o with Some s => JStr s | None => JNull end.

Definition to_dict (m : InventoryRunManifest) : json :=
  JObj [("run_id", JStr (run_id m)); ("parent_snapshot_id", JStr (parent_snapshot_id m));
        ("canonical_cohort_id", JStr (canonical_cohort_id m));
        ("source_identity", JStr (source_identity m));
        ("parser_version", JStr (parser_version m));
        ("outcome_schema_version", JInt (outcome_schema_version m));
        ("entry_schema_version", JInt (entry_schema_version m));
        ("progress_schema_version", JInt (progress_schema_version m));
        ("work_order_version", JStr (work_order_version m));
        ("work_order_digest", JStr (work_order_digest m));
        ("work_order_rows", JInt (work_order_rows m)); ("chunk_size", JInt (chunk_size m));
        ("refresh_mode", JStr (refresh_mode m)); ("fetch_mode", JStr (fetch_mode m));
        ("fixture_id", json_option (fixture_id m)); ("created_at", JStr (created_at m));
        ("settings_snapshot", settings_snapshot m)].

(** [str(data[k])] and [int(data[k])] *)
Definition str_item (data : json) (k : string) : result string := str_of_json <$> getitem data k.
Definition int_item (data : json) (k : string) : result Z := v ← getitem data k; int_of_json v.

Definition from_dict (data : json) : result InventoryRunManifest :=
  fixture_id ← get_or_none data "fixture_id";
  run_id ← str_item data "run_id";
  parent_snapshot_id ← str_item data "parent_snapshot_id";
  canonical_cohort_id ← str_item data "canonical_cohort_id";
  source_identity ← str_item data "source_identity";
  parser_version ← str_item data "parser_version";
  outcome_schema_version ← int_item data "outcome_schema_version";
  entry_schema_version ← int_item data "entry_schema_version";
  progress_schema_version ← int_item data "progress_schema_version";
  work_order_version ← str_item data "work_order_version";
  work_order_digest ← str_item data "work_order_digest";
  work_order_rows ← int_item data "work_order_rows";
  chunk_size ← int_item data "chunk_size";
  refresh_mode ← str_item data "refresh_mode";
  fetch_mode ← str_item data "fetch_mode";
  created_at ← str_item data "created_at";
  let settings_snapshot :=
    match data with JObj l => default (JObj []) (assoc "settings_snapshot" l) | _ => JObj [] end in
  Ok (mkManifest run_id parent_snapshot_id canonical_cohort_id source_identity parser_version
        outcome_schema_version entry_schema_version progress_schema_version work_order_version
        work_order_digest work_order_rows chunk_size refresh_mode fetch_mode
        (if json_truthy fixture_id then Some (str_of_json fixture_id) else None)
        created_at settings_snapshot).

(** What a caller pins: the keyword arguments shared by [write_run_manifest] and
    [validate_run_manifest], with the run ID of the paths. *)
Record request := mkRequest {
  req_run_id : string;
  req_parent_snapshot_id : string;
  req_canonical_cohort_id : string;
  req_source_identity : string;
  req_parser_version : string;
  req_chunk_size : Z;
  req_refresh_mode : string;
  req_fetch_mode : string;
  req_fixture_id : option string;
  req_work_order_version : string;
}.

Section manifest.
Context (sha256_hexdigest : string → string) (parquet_read_batch_size : Z).
Context {reader : ParquetReader}.
Abbreviation validate_work_order := (validate_work_order sha256_hexdigest parquet_read_batch_size).

(** [settings] are the resolved settings kept in the manifest, [now] the current time.
    Returns the manifest file and the manifest. *)
Definition write_run_manifest (file : json_file) (r : request)
    (work_order : option (parquet IndexWorkItem)) (settings : json) (now : string) :
    json_file * result InventoryRunManifest :=
  match
    (_ ← raise_if (negb (bool_decide (req_refresh_mode r ∈ _REFRESH_MODES)))
           (ValueError "invalid refresh_mode");
     _ ← raise_if (negb (bool_decide (req_fetch_mode r ∈ _FETCH_MODES)))
           (ValueError "invalid fetch_mode");
     _ ← raise_if (req_chunk_size r <? 1)%Z (ValueError "chunk_size must be >= 1");
     identity ← validate_work_order work_order None;
     Ok (mkManifest (req_run_id r) (req_parent_snapshot_id r) (req_canonical_cohort_id r)
           (req_source_identity r) (req_parser_version r) OUTCOME_SCHEMA_VERSION
           ENTRY_SCHEMA_VERSION PROGRESS_SCHEMA_VERSION (req_work_order_version r)
           (digest identity) (row_count_ identity) (req_chunk_size r) (req_refresh_mode r)
           (req_fetch_mode r) (req_fixture_id r) now settings))
  with
  | Ok manifest => (write_json (to_dict manifest), Ok manifest)
  | Err e => (file, Err e)
  end.

Definition read_run_manifest (file : json_file) : result (option InventoryRunManifest) :=
  match file with
  | NoFile => Ok None
  | NotJsonText => Err (ValueError "JSONDecodeError")
  | JsonText data => Some <$> from_dict data
  end.

(** The entries of [expected] whose values differ, in order. *)
Definition mismatches (m : InventoryRunManifest) (r : request) (work_order : WorkOrderIdentity) :
    list string :=
  (λ p, p.1) <$> filter (λ p, p.2 = false)
    [("run_id", bool_decide (run_id m = req_run_id r));
     ("parent_snapshot_id", bool_decide (parent_snapshot_id m = req_parent_snapshot_id r));
     ("canonical_cohort_id", bool_decide (canonical_cohort_id m = req_canonical_cohort_id r));
     ("source_identity", bool_decide (source_identity m = req_source_identity r));
     ("parser_version", bool_decide (parser_version m = req_parser_version r));
     ("chunk_size", bool_decide (chunk_size m = req_chunk_size r));
     ("refresh_mode", bool_decide (refresh_mode m = req_refresh_mode r));
     ("fetch_mode", bool_decide (fetch_mode m = req_fetch_mode r));
     ("fixture_id", bool_decide (fixture_id m = req_fixture_id r));
     ("work_order_version", bool_decide (work_order_version m = req_work_order_version r));
     ("work_order_digest", bool_decide (work_order_digest m = digest work_order));
     ("work_order_rows", bool_decide (work_order_rows m = row_count_ work_order));
     ("outcome_schema_version", bool_decide (outcome_schema_version m = OUTCOME_SCHEMA_VERSION));
     ("entry_schema_version", bool_decide (entry_schema_version m = ENTRY_SCHEMA_VERSION));
     ("progress_schema_version", bool_decide (progress_schema_version m = PROGRESS_SCHEMA_VERSION))].

Definition validate_run_manifest (existing : option InventoryRunManifest) (r : request)
    (work_order : option (parquet IndexWorkItem)) : result InventoryRunManifest :=
  existing ← require existing (ManifestMismatchError "run manifest missing");
  identity ← validate_work_order work_order None;
  _ ← raise_if (negb (bool_decide (mismatches existing r identity = [])))
        (ManifestMismatchError "run manifest mismatch");
  Ok existing.

(** ** Resuming a run *)

(** The manifest pins the request and the work order. *)
Definition pins (m : InventoryRunManifest) (r : request) (id : WorkOrderIdentity) : Prop :=
  mkRequest (run_id m) (parent_snapshot_id m) (canonical_cohort_id m) (source_identity m)
    (parser_version m) (chunk_size m) (refresh_mode m) (fetch_mode m) (fixture_id m)
    (work_order_version m) = r ∧
  mkIdentity (work_order_digest m) (work_order_rows m) = id ∧
  (outcome_schema_version m, entry_schema_version m, progress_schema_version m) =
    (OUTCOME_SCHEMA_VERSION, ENTRY_SCHEMA_VERSION, PROGRESS_SCHEMA_VERSION).

Lemma mismatches_nil m r id : mismatches m r id = [] ↔ pins m r id.
Proof.
  unfold mismatches, pins. destruct m, r, id. simpl. split.
  - intros H%fmap_nil_inv.
    repeat (rewrite filter_cons in H; simpl in H; case_bool_decide; simpl in H;
      [subst|discriminate H]). done.
  - intros (He & Hi & Hv). injection He as <- <- <- <- <- <- <- <- <- <-. simplify_eq.
    rewrite !bool_decide_true by done. reflexivity.
Qed.

(** A manifest is accepted exactly when it exists, the work order is valid and the
    manifest pins what is asked for and the work order's identity. *)
Theorem validate_run_manifest_accepts existing r work_order m :
  validate_run_manifest existing r work_order = Ok m ↔
  existing = Some m ∧ ∃ id, validate_work_order work_order None = Ok id ∧ pins m r id.
Proof.
  unfold validate_run_manifest. split.
  - intros (m' & ->%require_Ok & Hb)%bind_Ok. apply bind_Ok in Hb as (id & Hid & Hb).
    apply bind_Ok in Hb as (_ & Hm%raise_if_Ok & [= ->]). boolprop.
    split; [done|]. exists id. split; [done|]. by apply mismatches_nil.
  - intros (-> & id & Hid & Hm%mismatches_nil). simpl. rewrite Hid. simpl.
    by rewrite bool_decide_true.
Qed.

(** The manifest as it is read back: the settings have sorted keys. *)
Definition stored (m : InventoryRunManifest) : InventoryRunManifest :=
  mkManifest (run_id m) (parent_snapshot_id m) (canonical_cohort_id m) (source_identity m)
    (parser_version m) (outcome_schema_version m) (entry_schema_version m)
    (progress_schema_version m) (work_order_version m) (work_order_digest m)
    (work_order_rows m) (chunk_size m) (refresh_mode m) (fetch_mode m) (fixture_id m)
    (created_at m) (sort_keys (settings_snapshot m)).

Lemma from_to_dict m : fixture_id m ≠ Some "" → from_dict (sort_keys (to_dict m)) = Ok (stored m).
Proof.
  intros Hf. destruct m as [a b c d e f g h i j k l n o [s|] q t]; simpl in Hf; cycle 1.
  { reflexivity. }
  transitivity (Ok (stored (mkManifest a b c d e f g h i j k l n o
    (if bool_decide (s ≠ "") then Some s else None) q t))); [reflexivity|].
  by rewrite bool_decide_true by congruence.
Qed.

(** A manifest that was written is read back and accepted when the run is resumed
    with the same request and work order; a request that differs in any pinned field is
    refused. *)
Theorem run_manifest_resumes file r work_order settings now file' m :
  req_fixture_id r ≠ Some "" →
  write_run_manifest file r work_order settings now = (file', Ok m) →
  read_run_manifest file' = Ok (Some (stored m)) ∧
  ∀ r', validate_run_manifest (Some (stored m)) r' work_order = Ok (stored m) ↔ r' = r.
Proof.
  intros Hfix. unfold write_run_manifest. destruct (_ ≫= _) as [m'|] eqn:E; intros [= <- ->].
  apply bind_Ok in E as (_ & _ & E). apply bind_Ok in E as (_ & _ & E).
  apply bind_Ok in E as (_ & _ & E). apply bind_Ok in E as (id & Hid & [= <-]). split.
  - unfold read_run_manifest, write_json. by rewrite from_to_dict.
  - intros r'. unfold validate_run_manifest. simpl. rewrite Hid. simpl. split.
    + intros (_ & Hm%raise_if_Ok & _)%bind_Ok. boolprop. apply mismatches_nil in Hm as [Hm _].
      simpl in Hm. by destruct r.
    + intros ->. rewrite bool_decide_true; [done|]. apply mismatches_nil.
      by destruct r, id.
Qed.
End manifest.

Definition demo_request : request :=
  mkRequest "run" "" "cohort" "filing-catalog-plan:p" "1" 100 "normal" "live" None "4".
Lemma run_manifest_resumes_witness :
  validate_run_manifest (reader := block_reader) demo_digest 2
    (Some (stored (mkManifest "run" "" "cohort" "filing-catalog-plan:p" "1" 2 1 2 "4"
       (demo_digest (rows_bytes demo_rows)) 3 100 "normal" "live" None "now" JNull)))
    demo_request (Some demo_order) =
  Ok (stored (mkManifest "run" "" "cohort" "filing-catalog-plan:p" "1" 2 1 2 "4"
       (demo_digest (rows_bytes demo_rows)) 3 100 "normal" "live" None "now" JNull)).
Proof.
  refine (proj2 (proj2 (run_manifest_resumes (reader := block_reader) demo_digest 2 NoFile demo_request
    (Some demo_order) JNull "now" _ _ _ _) demo_request) eq_refl).
  - discriminate.
  - vm_compute. reflexivity.
Defined.
