(* ===== verification/Outcomes.v ===== *)
(** * Results of inventory workers and the rows they become

    The typed results of [domain/document_inventory/models.py], [broker.py] and
    [worker.py], and their projection by [outcome_row] and [entry_rows] of
    [document_inventory/checkpoint.py].  Accessions are strings, [str(result.accession)]. *)
From S2P Require Import Prelude Serialization ParquetWriter.

(** ** Typed results *)

Record InventoryEntry := mkEntry {
  entry_id : string;
  entry_accession : string;
  table_kind : string;
  row_ordinal : Z;
  sequence : option Z;
  document_type : option string;
  document_label : option string;
  description : option string;
  filename : option string;
  href : option string;
  archive_url : option string;
  byte_size : option Z;
}.

Record ParserDiagnostic := mkDiagnostic {
  code : string;
  row_key : option (string * Z);
  detail : string;
}.
Record ParserDiagnostics := mkDiagnostics {
  items : list ParserDiagnostic;
  suppressed_count : Z;
}.

Inductive worker_result :=
  | ParsedIndexPage (accession source_url page_sha256 : string)
      (entries : list InventoryEntry) (bundle_url : option string) (bundle_size : option Z)
      (xbrl_candidate_url : option string) (diagnostics : ParserDiagnostics)
  | UnrecognizedIndexPage (accession source_url page_sha256 : string)
      (diagnostics : ParserDiagnostics)
  | IndexParseFailure (accession source_url page_sha256 : string) (diagnostic : ParserDiagnostic)
  | EnumeratedDocuments (accession source_url vehicle page_sha256 : string)
      (entries : list InventoryEntry) (bundle_url : option string)
      (diagnostics : ParserDiagnostics)
  | UnrecognizedEnumeration (accession source_url vehicle page_sha256 : string)
      (diagnostics : ParserDiagnostics)
  | EnumerationFailure (accession source_url vehicle page_sha256 : string)
      (diagnostic : ParserDiagnostic)
  | IndexFetchFailure (accession code detail : string) (status_code : option Z)
      (vehicle : string)
  | IndexWorkerFailure (accession code detail vehicle : string).

Definition result_accession (r : worker_result) : string :=
  match r with
  | ParsedIndexPage a _ _ _ _ _ _ _ | UnrecognizedIndexPage a _ _ _ | IndexParseFailure a _ _ _
  | EnumeratedDocuments a _ _ _ _ _ _ | UnrecognizedEnumeration a _ _ _ _
  | EnumerationFailure a _ _ _ _ | IndexFetchFailure a _ _ _ _ | IndexWorkerFailure a _ _ _ => a
  end.

(** ** Statuses *)

Definition STATUS_PARSED : string := "parsed".
Definition STATUS_PARSED_EMPTY : string := "parsed_empty".
Definition STATUS_UNRECOGNIZED : string := "unrecognized".
Definition STATUS_PARSE_FAILURE : string := "parse_failure".
Definition STATUS_FETCH_FAILED : string := "fetch_failed".
Definition STATUS_WORKER_ERROR : string := "worker_error".

Definition RETRYABLE_STATUSES : list string := [STATUS_FETCH_FAILED; STATUS_WORKER_ERROR].
Definition PARSER_REFUSAL_STATUSES : list string := [STATUS_UNRECOGNIZED; STATUS_PARSE_FAILURE].
Definition REFUSAL_STATUSES : list string := RETRYABLE_STATUSES ++ PARSER_REFUSAL_STATUSES.
Definition ALL_STATUSES : list string :=
  [STATUS_PARSED; STATUS_PARSED_EMPTY; STATUS_UNRECOGNIZED; STATUS_PARSE_FAILURE;
   STATUS_FETCH_FAILED; STATUS_WORKER_ERROR].

(** ** Rows of outcomes.parquet *)

Record outcome := mkOutcome {
  o_accession : string;
  o_status : string;
  o_index_url : string;
  o_page_sha256 : option string;
  o_response_size : option Z;
  o_entry_count : Z;
  o_xbrl_candidate_url : option string;
  o_bundle_url : option string;
  o_bundle_size : option Z;
  o_diagnostics_json : string;
  o_error_code : option string;
  o_error_detail : option string;
  o_vehicle : option string;
  o_source_url : option string;
}.

Definition OUTCOME_SCHEMA : schema_of_file :=
  [("accession", "string"); ("status", "string"); ("index_url", "string");
   ("page_sha256", "string"); ("response_size", "int64"); ("entry_count", "int32");
   ("xbrl_candidate_url", "string"); ("bundle_url", "string"); ("bundle_size", "int64");
   ("diagnostics_json", "string"); ("error_code", "string"); ("error_detail", "string");
   ("vehicle", "string"); ("source_url", "string")].
Definition ENTRY_SCHEMA : schema_of_file :=
  [("entry_id", "string"); ("accession", "string"); ("table_kind", "string");
   ("row_ordinal", "int32"); ("sequence", "int32"); ("document_type", "string");
   ("document_label", "string"); ("description", "string"); ("filename", "string");
   ("href", "string"); ("archive_url", "string"); ("byte_size", "int64")].

Definition _diagnostics_json (diagnostics : option ParserDiagnostics) : string :=
  match diagnostics with
  | None => ""
  | Some diagnostics =>
      canonical_json (JObj
        [("items", JArr ((λ item,
            JObj [("code", JStr (code item));
                  ("row_key", match row_key item with
                              | Some (kind, n) => JArr [JStr kind; JInt n]
                              | None => JNull end);
                  ("detail", JStr (detail item))]) <$> items diagnostics));
         ("suppressed_count", JInt (suppressed_count diagnostics))])
  end.

Definition _empty_outcome (accession index_url status : string) : outcome :=
  mkOutcome accession status index_url None None 0 None None None "" None None None None.

(** [source_url.endswith("/index.json")] *)
Definition ends_with (suffix s : string) : bool :=
  (String.length suffix <=? String.length s)%nat &&
  String.eqb (str_drop (String.length s - String.length suffix) s) suffix.
Definition _index_vehicle (source_url : string) : string :=
  if bool_decide (source_url ≠ "") && ends_with "/index.json" source_url
  then "index_json" else "index".

Definition parsed_status (entries : list InventoryEntry) : string :=
  match entries with [] => STATUS_PARSED_EMPTY | _ => STATUS_PARSED end.

(** [row.update(...)] of the empty outcome, one case per result type. *)
Definition outcome_row (r : worker_result) (index_url : string) (response_size : option Z) :
    outcome :=
  match r with
  | ParsedIndexPage accession source_url page_sha256 entries bundle_url bundle_size
      xbrl_candidate_url diagnostics =>
      mkOutcome accession (parsed_status entries) index_url (Some page_sha256) response_size
        (Z.of_nat (length entries)) xbrl_candidate_url bundle_url bundle_size
        (_diagnostics_json (Some diagnostics)) None None (Some (_index_vehicle source_url))
        (Some source_url)
  | EnumeratedDocuments accession source_url vehicle page_sha256 entries bundle_url diagnostics =>
      mkOutcome accession (parsed_status entries) index_url (Some page_sha256) response_size
        (Z.of_nat (length entries)) None bundle_url None (_diagnostics_json (Some diagnostics))
        None None (Some vehicle) (Some source_url)
  | UnrecognizedIndexPage accession source_url page_sha256 diagnostics =>
      mkOutcome accession STATUS_UNRECOGNIZED index_url (Some page_sha256) response_size 0 None
        None None (_diagnostics_json (Some diagnostics)) None None
        (Some (_index_vehicle source_url)) (Some source_url)
  | UnrecognizedEnumeration accession source_url vehicle page_sha256 diagnostics =>
      mkOutcome accession STATUS_UNRECOGNIZED index_url (Some page_sha256) response_size 0 None
        None None (_diagnostics_json (Some diagnostics)) None None (Some vehicle) (Some source_url)
  | IndexParseFailure accession source_url page_sha256 diagnostic =>
      mkOutcome accession STATUS_PARSE_FAILURE index_url (Some page_sha256) response_size 0 None
        None None (_diagnostics_json (Some (mkDiagnostics [diagnostic] 0)))
        (Some (code diagnostic)) (Some (detail diagnostic)) (Some (_index_vehicle source_url))
        (Some source_url)
  | EnumerationFailure accession source_url vehicle page_sha256 diagnostic =>
      mkOutcome accession STATUS_PARSE_FAILURE index_url (Some page_sha256) response_size 0 None
        None None (_diagnostics_json (Some (mkDiagnostics [diagnostic] 0)))
        (Some (code diagnostic)) (Some (detail diagnostic)) (Some vehicle) (Some source_url)
  | IndexFetchFailure accession code detail _ vehicle =>
      mkOutcome accession STATUS_FETCH_FAILED index_url None None 0 None None None ""
        (Some code) (Some detail) (Some vehicle) None
  | IndexWorkerFailure accession code detail vehicle =>
      mkOutcome accession code index_url None None 0 None None None ""
        (Some code) (Some detail) (Some vehicle) None
  end.

(** An entry row has the fields of the entry. *)
Definition entry_rows (r : worker_result) : list InventoryEntry :=
  match r with
  | ParsedIndexPage _ _ _ entries _ _ _ _ | EnumeratedDocuments _ _ _ _ entries _ _ => entries
  | _ => []
  end.

(** [_columnar] of rows already typed is the identity; [split_retryable]: *)
Definition retryable (row : outcome) : bool := bool_decide (o_status row ∈ RETRYABLE_STATUSES).
Definition refusal (row : outcome) : bool := bool_decide (o_status row ∈ REFUSAL_STATUSES).
Definition split_retryable (rows : list outcome) : list outcome * gset string :=
  (filter (λ row, negb (retryable row) = true) rows,
   list_to_set (o_accession <$> filter (λ row, retryable row = true) rows)).

(** ** What the projection keeps *)

(** The literal code of an [IndexWorkerFailure]. *)
Definition well_typed (r : worker_result) : Prop :=
  match r with
  | IndexWorkerFailure _ code _ _ => code = "worker_error"
  | IndexFetchFailure _ code _ _ _ => code = "fetch_failed"
  | _ => True
  end.

(** Every result becomes an outcome of its own accession with a known status and as
    many entries as it lists; it is retried exactly when the fetch or the worker failed,
    and refuses publication exactly when no listing was recognised. *)
Theorem outcome_row_status r index_url response_size :
  well_typed r →
  let row := outcome_row r index_url response_size in
  o_accession row = result_accession r ∧ o_status row ∈ ALL_STATUSES ∧
  o_entry_count row = Z.of_nat (length (entry_rows r)) ∧
  (retryable row = true ↔ match r with IndexFetchFailure _ _ _ _ _ | IndexWorkerFailure _ _ _ _ => True
                          | _ => False end) ∧
  (refusal row = false ↔ match r with ParsedIndexPage _ _ _ _ _ _ _ _
                         | EnumeratedDocuments _ _ _ _ _ _ _ => True | _ => False end) ∧
  (o_status row = STATUS_PARSED_EMPTY → entry_rows r = []).
Proof.
  intros Hr. unfold retryable, refusal.
  destruct r as [? ? ? [|x l]| | |? ? ? ? [|x l]| | | |]; simpl in *; subst;
    (split_and!; [reflexivity|set_solver|reflexivity|..]);
    rewrite ?bool_decide_eq_true, ?bool_decide_eq_false; unfold REFUSAL_STATUSES; set_solver.
Qed.

(** Splitting an attempt's rows loses none: every row is carried forward or its
    accession is retried, carried rows are final, and no carried accession is retried
    when accessions are unique. *)
Theorem split_retryable_partition rows :
  NoDup (o_accession <$> rows) →
  let '(carry, retry) := split_retryable rows in
  (∀ row, row ∈ rows ↔ row ∈ carry ∨ ((o_accession row ∈ retry) ∧ row ∈ rows)) ∧
  (∀ row, row ∈ carry → (o_status row ∉ RETRYABLE_STATUSES) ∧ (o_accession row ∉ retry)) ∧
  sublist carry rows.
Proof.
  intros Hnd. simpl. unfold retryable.
  assert (Hin : ∀ row, row ∈ rows → o_status row ∉ RETRYABLE_STATUSES →
    o_accession row ∉@{gset string} (list_to_set (o_accession <$>
      filter (λ row, bool_decide (o_status row ∈ RETRYABLE_STATUSES) = true) rows))).
  { intros row Hrow Hs. rewrite elem_of_list_to_set, list_elem_of_fmap.
    intros (row' & He & [Hr' Hrow']%list_elem_of_filter). rewrite bool_decide_eq_true in Hr'.
    assert (row = row') as ->; [|done].
    apply list_elem_of_lookup in Hrow as [i Hi], Hrow' as [j Hj].
    assert (i = j) as ->; [|congruence].
    eapply NoDup_lookup; [exact Hnd|..]; rewrite list_lookup_fmap, ?Hi, ?Hj; simpl; by rewrite ?He. }
  split_and!.
  - intros row. rewrite list_elem_of_filter, negb_true_iff, bool_decide_eq_false.
    split; [|tauto]. intros Hrow. destruct (decide (o_status row ∈ RETRYABLE_STATUSES)); [right|left; done].
    split; [|done]. rewrite elem_of_list_to_set, list_elem_of_fmap. exists row. split; [done|].
    apply list_elem_of_filter. by rewrite bool_decide_true.
  - intros row. rewrite list_elem_of_filter, negb_true_iff, bool_decide_eq_false. intros [Hs Hrow].
    auto.
  - apply sublist_filter.
Qed.

Lemma outcome_row_status_witness :
  retryable (outcome_row (IndexFetchFailure "a" "fetch_failed" "404" (Some 404%Z) "index") "u" None) = true.
Proof.
  apply (outcome_row_status (IndexFetchFailure "a" "fetch_failed" "404" (Some 404%Z) "index") "u" None);
    reflexivity.
Defined.
Lemma split_retryable_partition_witness :
  o_accession (_empty_outcome "b" "u" STATUS_PARSED) ∉
    (split_retryable [_empty_outcome "a" "u" STATUS_FETCH_FAILED; _empty_outcome "b" "u" STATUS_PARSED]).2.
Proof.
  apply (split_retryable_partition [_empty_outcome "a" "u" STATUS_FETCH_FAILED;
    _empty_outcome "b" "u" STATUS_PARSED]).
  - vm_compute. repeat constructor; set_solver.
  - vm_compute. by left.
Defined.
