(* ===== verification/Checkpoint.v ===== *)
(** * Chunk attempts and their commit: [document_inventory/checkpoint.py]

    A chunk directory holds one directory per attempt, each with two Parquet files and a
    manifest, and a pointer file that names the committed attempt.  [AttemptWriters]
    streams the rows of an attempt; [finalize_attempt] checks the files and writes the
    manifest and then the pointer; [validate_committed_chunk] decides on resume whether the
    pointed attempt may be reused.  Calls that change files are computations of [Durable],
    whose intermediate states are the ones a crash can leave. *)
From S2P Require Import Prelude Serialization PyJson Durable.
From S2P Require Import ParquetWriter WorkOrder RunManifest Outcomes.
From Stdlib Require Import Ascii.

Definition ATTEMPT_MANIFEST_VERSION : Z := 1.

(** ** Path components: [foundation/runtime/paths.py] *)

(** [c.isalnum()] for a code point up to U+00FF. *)
Definition is_alnum (c : ascii) : bool :=
  let n := nat_of_ascii c in
  let within lo hi := ((lo <=? n) && (n <=? hi))%nat in
  within 48 57 || within 65 90 || within 97 122 || bool_decide (n ∈ [170; 178; 179; 181; 185; 186])
  || within 188 190 || within 192 214 || within 216 246 || within 248 255.

Definition validate_safe_id (value : string) (min_len : nat) (max_len : option nat) : result string :=
  _ ← raise_if (bool_decide (value ∈ [""; "."; ".."])) (ValueError "invalid identifier");
  _ ← raise_if (String.length value <? min_len)%nat (ValueError "identifier too short");
  _ ← raise_if (match max_len with Some n => (n <? String.length value)%nat | None => false end)
        (ValueError "identifier too long");
  _ ← raise_if (negb (string_forallb (λ c, is_alnum c || char_in "_.-" c) value))
        (ValueError "invalid identifier");
  Ok value.
Definition _validate_id (value : string) : result string := validate_safe_id value 1 None.

(** The directory of an attempt inside the chunk's, by attempt ID. *)
Definition attempt_dir (chunk_id attempt_id : string) : result string :=
  safe_attempt ← _validate_id attempt_id;
  _ ← _validate_id chunk_id;
  Ok safe_attempt.

(** ** The files of a chunk *)

Record attempt := mkAttempt {
  outcomes_file : staging outcome;
  entries_file : staging InventoryEntry;
  manifest_file : json_file;
}.
Definition no_attempt : attempt := mkAttempt (mkStaging None None) (mkStaging None None) NoFile.

Record chunk_dir := mkChunkDir {
  pointer : json_file;
  attempts : gmap string attempt;
}.
Definition attempt_at (d : chunk_dir) (attempt_id : string) : attempt :=
  default no_attempt (attempts d !! attempt_id).
Definition set_attempt (attempt_id : string) (a : attempt) (d : chunk_dir) : chunk_dir :=
  mkChunkDir (pointer d) (<[attempt_id := a]> (attempts d)).

(** ** [AttemptManifest] *)

Record AttemptManifest := mkAttemptManifest {
  version : Z;
  am_chunk_id : string;
  am_attempt_id : string;
  am_run_id : string;
  am_work_order_version : string;
  am_parser_version : string;
  am_outcome_schema_version : Z;
  am_entry_schema_version : Z;
  membership : list string;
  am_membership_digest : string;
  outcomes_rows : Z;
  outcomes_sha256 : string;
  entries_rows : Z;
  entries_sha256 : string;
  am_created_at : string;
}.

Definition attempt_to_dict (m : AttemptManifest) : json :=
  JObj [("version", JInt (version m)); ("chunk_id", JStr (am_chunk_id m));
        ("attempt_id", JStr (am_attempt_id m)); ("run_id", JStr (am_run_id m));
        ("work_order_version", JStr (am_work_order_version m));
        ("parser_version", JStr (am_parser_version m));
        ("outcome_schema_version", JInt (am_outcome_schema_version m));
        ("entry_schema_version", JInt (am_entry_schema_version m));
        ("membership", JArr (JStr <$> membership m));
        ("membership_digest", JStr (am_membership_digest m));
        ("outcomes_rows", JInt (outcomes_rows m)); ("outcomes_sha256", JStr (outcomes_sha256 m));
        ("entries_rows", JInt (entries_rows m)); ("entries_sha256", JStr (entries_sha256 m));
        ("created_at", JStr (am_created_at m))].

Definition attempt_from_dict (data : json) : result AttemptManifest :=
  membership ← getitem data "membership";
  membership ← match membership with
               | JArr l => Ok l
               | _ => Err (AttemptValidationError "manifest membership is not a list")
               end;
  version ← int_item data "version";
  chunk_id ← str_item data "chunk_id";
  attempt_id ← str_item data "attempt_id";
  run_id ← str_item data "run_id";
  work_order_version ← str_item data "work_order_version";
  parser_version ← str_item data "parser_version";
  outcome_schema_version ← int_item data "outcome_schema_version";
  entry_schema_version ← int_item data "entry_schema_version";
  membership_digest ← str_item data "membership_digest";
  outcomes_rows ← int_item data "outcomes_rows";
  outcomes_sha256 ← str_item data "outcomes_sha256";
  entries_rows ← int_item data "entries_rows";
  entries_sha256 ← str_item data "entries_sha256";
  created_at ← str_item data "created_at";
  Ok (mkAttemptManifest version chunk_id attempt_id run_id work_order_version parser_version
        outcome_schema_version entry_schema_version (str_of_json <$> membership) membership_digest
        outcomes_rows outcomes_sha256 entries_rows entries_sha256 created_at).

Record ChunkValidation := mkValidation {
  valid : bool;
  v_attempt_id : option string;
  reason : string;
  v_manifest : option AttemptManifest;
}.
Definition invalid (attempt_id : option string) (reason : string) : ChunkValidation :=
  mkValidation false attempt_id reason None.

(** ** [AttemptWriters] *)

Record attempt_writers := mkWriters {
  _outcomes : writer outcome;
  _entries : writer InventoryEntry;
  _outcome_buffer : list outcome;
  _entry_buffer : list InventoryEntry;
  _closed : bool;
}.
Definition _FLUSH_ROWS : nat := 256.

(** What the methods work on: the two staged files and the writers object. *)
Record desk := mkDesk {
  outcomes_disk : staging outcome;
  entries_disk : staging InventoryEntry;
  writers : attempt_writers;
}.

Definition AttemptWriters (chunk_id attempt_id : string) : result attempt_writers :=
  _ ← attempt_dir chunk_id attempt_id;
  Ok (mkWriters (StagedParquetWriter OUTCOME_SCHEMA None) (StagedParquetWriter ENTRY_SCHEMA None)
        [] [] false).

(** [write_batch] and [commit] with their intermediate states: [commit] opens the stage if
    nothing was written, closes it, and renames it. *)
Definition batch_io {A} (batch : list A) : io (staging A * writer A) Z := λ '(fs, w),
  let '(fs, w, r) := write_batch fs w batch in ([(fs, w)], r).
Definition commit_io {A} : io (staging A * writer A) Z := λ '(fs, w),
  let '(fs1, w1) := if closed w then (fs, w) else prepare_commit fs w in
  let '(fs2, w2, r) := commit fs w None in
  ([(fs1, w1); (close_writer fs1 w1, w1); (fs2, w2)], r).

Definition set_outcomes (p : staging outcome * writer outcome) (d : desk) : desk :=
  let w := writers d in
  mkDesk p.1 (entries_disk d)
    (mkWriters p.2 (_entries w) (_outcome_buffer w) (_entry_buffer w) (_closed w)).
Definition set_entries (p : staging InventoryEntry * writer InventoryEntry) (d : desk) : desk :=
  let w := writers d in
  mkDesk (outcomes_disk d) p.1
    (mkWriters (_outcomes w) p.2 (_outcome_buffer w) (_entry_buffer w) (_closed w)).
Definition on_outcomes {A} : io (staging outcome * writer outcome) A → io desk A :=
  zoom (λ d, (outcomes_disk d, _outcomes (writers d))) set_outcomes.
Definition on_entries {A} : io (staging InventoryEntry * writer InventoryEntry) A → io desk A :=
  zoom (λ d, (entries_disk d, _entries (writers d))) set_entries.

Definition set_buffers (o : list outcome) (e : list InventoryEntry) (d : desk) : desk :=
  let w := writers d in
  mkDesk (outcomes_disk d) (entries_disk d) (mkWriters (_outcomes w) (_entries w) o e (_closed w)).
Definition set_closed (d : desk) : desk :=
  let w := writers d in
  mkDesk (outcomes_disk d) (entries_disk d)
    (mkWriters (_outcomes w) (_entries w) (_outcome_buffer w) (_entry_buffer w) true).

Open Scope io_scope.

(** [_columnar] only turns the buffered rows into columns. *)
Definition _flush : io desk unit :=
  d <- read Ok;
  (match _outcome_buffer (writers d) with
   | [] => ret_io ()
   | rows => on_outcomes (batch_io rows);;
             write (λ d, set_buffers [] (_entry_buffer (writers d)) d)
   end);;
  match _entry_buffer (writers d) with
  | [] => ret_io ()
  | rows => on_entries (batch_io rows);;
            write (λ d, set_buffers (_outcome_buffer (writers d)) [] d)
  end.

Definition add (row : outcome) (entries : list InventoryEntry) : io desk unit :=
  d <- read Ok;
  if _closed (writers d) then raise_io (RuntimeError "cannot write to a closed attempt")
  else
    write (λ d, set_buffers (_outcome_buffer (writers d) ++ [row])
                            (_entry_buffer (writers d) ++ entries) d);;
    d <- read Ok;
    if (_FLUSH_ROWS <=? length (_outcome_buffer (writers d)))%nat then _flush else ret_io ().

Definition write_outcome_batch (batch : list outcome) : io desk unit :=
  _flush;; on_outcomes (batch_io batch);; ret_io ().
Definition write_entry_batch (batch : list InventoryEntry) : io desk unit :=
  _flush;; on_entries (batch_io batch);; ret_io ().

Definition close : io desk unit :=
  d <- read Ok;
  if _closed (writers d) then ret_io ()
  else _flush;; on_outcomes commit_io;; on_entries commit_io;; write set_closed.
Close Scope io_scope.

(** ** Finalizing and validating an attempt *)

Definition set_manifest (attempt_id : string) (manifest : json_file) (d : chunk_dir) : chunk_dir :=
  let a := attempt_at d attempt_id in
  set_attempt attempt_id (mkAttempt (outcomes_file a) (entries_file a) manifest) d.
Definition set_pointer (p : json_file) (d : chunk_dir) : chunk_dir := mkChunkDir p (attempts d).

Definition advance_pointer (chunk_id attempt_id pointed_at : string) : io chunk_dir unit :=
  (_ <- read (λ _, _validate_id chunk_id);
   write (set_pointer (write_json
     (JObj [("chunk_id", JStr chunk_id); ("attempt_id", JStr attempt_id);
            ("pointed_at", JStr pointed_at)]))))%io.

(** The SQL checks on the accessions of the two files. *)
Definition _validate_membership (outcomes : list outcome) (entries : list InventoryEntry)
    (membership : list string) : result unit :=
  let actual := o_accession <$> outcomes in
  let outside l k := existsb (λ a, bool_decide (a ∉ k)) l in
  _ ← raise_if (negb (bool_decide (NoDup actual)))
        (AttemptValidationError "outcome accessions are not unique");
  _ ← raise_if (outside actual membership || outside membership actual)
        (AttemptValidationError "outcome accessions do not exactly match chunk membership");
  raise_if (outside (entry_accession <$> entries) membership)
    (AttemptValidationError "entry accessions fall outside chunk membership").

Section checkpoint.
Context (sha256_hexdigest : string → string).
(** The digest of a file's bytes. *)
Context (file_sha256 : ∀ A, parquet A → string).

(** What [finalize_attempt] does before it writes. *)
Definition check_attempt (d : chunk_dir) (chunk_id attempt_id : string)
    (members : list string) (run : InventoryRunManifest) (created_at : string) :
    result AttemptManifest :=
  id ← attempt_dir chunk_id attempt_id;
  outcomes ← require (final (outcomes_file (attempt_at d id))) FileNotFoundError;
  _ ← raise_if (negb (bool_decide (schema outcomes = OUTCOME_SCHEMA)))
        (AttemptValidationError "outcomes schema mismatch");
  entries ← require (final (entries_file (attempt_at d id))) FileNotFoundError;
  _ ← raise_if (negb (bool_decide (schema entries = ENTRY_SCHEMA)))
        (AttemptValidationError "entries schema mismatch");
  let ordered := merge_sort String.le members in
  _ ← _validate_membership (prows outcomes) (prows entries) ordered;
  Ok (mkAttemptManifest ATTEMPT_MANIFEST_VERSION chunk_id attempt_id (run_id run)
        (work_order_version run) (parser_version run) OUTCOME_SCHEMA_VERSION ENTRY_SCHEMA_VERSION
        ordered (membership_digest sha256_hexdigest ordered)
        (Z.of_nat (length (prows outcomes))) (file_sha256 _ outcomes)
        (Z.of_nat (length (prows entries))) (file_sha256 _ entries) created_at).

Definition finalize_attempt (chunk_id attempt_id : string) (members : list string)
    (run : InventoryRunManifest) (created_at pointed_at : string) :
    io chunk_dir AttemptManifest :=
  (manifest <- read (λ d, check_attempt d chunk_id attempt_id members run created_at);
   write (set_manifest attempt_id (write_json (attempt_to_dict manifest)));;
   advance_pointer chunk_id attempt_id pointed_at;;
   ret_io manifest)%io.

(** [except (OSError, json.JSONDecodeError, KeyError, TypeError, ValueError)] *)
Definition malformed (e : exn) : bool :=
  match e with FileNotFoundError | KeyError _ | TypeError _ | ValueError _ => true | _ => false end.

Definition read_attempt_manifest (d : chunk_dir) (chunk_id attempt_id : string) :
    result (option AttemptManifest) :=
  id ← attempt_dir chunk_id attempt_id;
  match manifest_file (attempt_at d id) with
  | NoFile | NotJsonText => Ok None
  | JsonText (JObj l) =>
      match attempt_from_dict (JObj l) with
      | Ok m => Ok (Some m)
      | Err e => if malformed e then Ok None else Err e
      end
  | JsonText _ => Ok None
  end.

Definition _read_pointer (d : chunk_dir) (chunk_id : string) : result (option (list (string * json))) :=
  _ ← _validate_id chunk_id;
  Ok match pointer d with JsonText (JObj l) => Some l | _ => None end.

Definition _validate_files (a : attempt) (m : AttemptManifest) : result unit :=
  outcomes ← require (final (outcomes_file a)) (AttemptValidationError "attempt Parquet files are missing");
  entries ← require (final (entries_file a)) (AttemptValidationError "attempt Parquet files are missing");
  _ ← raise_if (negb (bool_decide (schema outcomes = OUTCOME_SCHEMA)))
        (AttemptValidationError "outcomes schema mismatch");
  _ ← raise_if (negb (bool_decide (schema entries = ENTRY_SCHEMA)))
        (AttemptValidationError "entries schema mismatch");
  _ ← raise_if (negb (Z.of_nat (length (prows outcomes)) =? outcomes_rows m)%Z)
        (AttemptValidationError "outcome row count does not match manifest");
  _ ← raise_if (negb (Z.of_nat (length (prows entries)) =? entries_rows m)%Z)
        (AttemptValidationError "entry row count does not match manifest");
  _ ← raise_if (negb (bool_decide (file_sha256 _ outcomes = outcomes_sha256 m)))
        (AttemptValidationError "outcomes file digest does not match manifest");
  _ ← raise_if (negb (bool_decide (file_sha256 _ entries = entries_sha256 m)))
        (AttemptValidationError "entries file digest does not match manifest");
  _validate_membership (prows outcomes) (prows entries) (membership m).

(** [str(exc)] of the exceptions [_validate_files] raises. *)
Definition message (e : exn) : string :=
  match e with AttemptValidationError msg => msg | _ => "" end.

(** The first of the named checks that fails. *)
Fixpoint first_failure (checks : list (bool * string)) : option string :=
  match checks with
  | [] => None
  | (ok, reason) :: checks => if ok then first_failure checks else Some reason
  end.

Definition identity_checks (m : AttemptManifest) (run : InventoryRunManifest)
    (chunk : ChunkIdentity) : list (bool * string) :=
  [(bool_decide (am_run_id m = run_id run), "run_id mismatch");
   (bool_decide (am_work_order_version m = work_order_version run), "work_order_version mismatch");
   (bool_decide (am_parser_version m = parser_version run), "parser_version mismatch");
   (am_outcome_schema_version m =? OUTCOME_SCHEMA_VERSION, "outcome schema version mismatch");
   (am_entry_schema_version m =? ENTRY_SCHEMA_VERSION, "entry schema version mismatch");
   (bool_decide (am_membership_digest m = chunk_membership_digest chunk), "membership digest mismatch");
   (bool_decide (length (membership m) = membership_count chunk), "membership count mismatch");
   (bool_decide (membership_digest sha256_hexdigest (membership m) = am_membership_digest m),
     "stored membership is corrupt")]%Z.

Definition validate_committed_chunk (d : chunk_dir) (chunk_id : string)
    (run : InventoryRunManifest) (chunk : ChunkIdentity) : result ChunkValidation :=
  p ← _read_pointer d chunk_id;
  match p with
  | None => Ok (invalid None "no chunk pointer")
  | Some l =>
      match assoc "attempt_id" l with
      | Some (JStr attempt_id) =>
          if bool_decide (attempt_id = "") then Ok (invalid None "pointer names no attempt")
          else
            manifest ← match read_attempt_manifest d chunk_id attempt_id with
                       | Err (ValueError _) => Ok None
                       | r => r
                       end;
            match manifest with
            | None => Ok (invalid (Some attempt_id) "attempt manifest missing or malformed")
            | Some m =>
                match first_failure (identity_checks m run chunk) with
                | Some reason => Ok (invalid (Some attempt_id) reason)
                | None =>
                    match _validate_files (attempt_at d attempt_id) m with
                    | Err e => Ok (invalid (Some attempt_id) (message e))
                    | Ok _ => Ok (mkValidation true (Some attempt_id) "" (Some m))
                    end
                end
            end
      | _ => Ok (invalid None "pointer names no attempt")
      end
  end.

(** ** Lemmas on the checks *)

Lemma outside_false (l k : list string) :
  existsb (λ a, bool_decide (a ∉ k)) l = false ↔ (∀ a, a ∈ l → a ∈ k).
Proof.
  clear sha256_hexdigest file_sha256. induction l as [|x l IH]; simpl; [set_solver|].
  rewrite orb_false_iff, bool_decide_eq_false, IH. split.
  - intros [Hx Hl] a [->|Ha]%elem_of_cons; [|auto]. by destruct (decide (x ∈ k)).
  - intros H. split; [|set_solver]. intros Hx. apply Hx, H. by left.
Qed.

(** What the membership checks accept: one outcome per member, entries of members only. *)
Definition covers (outcomes : list outcome) (entries : list InventoryEntry)
    (members : list string) : Prop :=
  NoDup (o_accession <$> outcomes) ∧
  (∀ a, a ∈ o_accession <$> outcomes ↔ a ∈ members) ∧
  (∀ a, a ∈ entry_accession <$> entries → a ∈ members).

Lemma validate_membership_Ok outcomes entries members u :
  _validate_membership outcomes entries members = Ok u ↔ covers outcomes entries members.
Proof.
  clear sha256_hexdigest file_sha256. unfold _validate_membership, covers. destruct u. split.
  - intros H. inv_ok. boolprop. rewrite !outside_false in *. naive_solver.
  - intros (Hnd & Hm & He). rewrite bool_decide_true by done. simpl.
    rewrite !(proj2 (outside_false _ _)) by naive_solver. done.
Qed.

Lemma covers_Permutation outcomes entries l k :
  l ≡ₚ k → covers outcomes entries l ↔ covers outcomes entries k.
Proof. intros H. unfold covers. by setoid_rewrite H. Qed.

Lemma validate_id_Ok value id : _validate_id value = Ok id → id = value ∧ value ≠ "".
Proof.
  clear sha256_hexdigest file_sha256. unfold _validate_id, validate_safe_id. intros H. inv_ok. boolprop. set_solver.
Qed.
Lemma attempt_dir_Ok chunk_id attempt_id id :
  attempt_dir chunk_id attempt_id = Ok id →
  id = attempt_id ∧ attempt_id ≠ "" ∧ _validate_id chunk_id = Ok chunk_id.
Proof.
  unfold attempt_dir. intros (? & [-> Hne]%validate_id_Ok & H)%bind_Ok.
  apply bind_Ok in H as (c & Hc & [= <-]). by destruct (validate_id_Ok _ _ Hc) as [-> _].
Qed.

Lemma first_failure_None checks :
  first_failure checks = None ↔ Forall (λ c, c.1 = true) checks.
Proof.
  clear sha256_hexdigest file_sha256. induction checks as [|[ok r] checks IH]; simpl; [done|].
  rewrite Forall_cons. simpl. destruct ok; naive_solver.
Qed.

(** ** The manifest on disk *)

Lemma attempt_from_to_dict m : attempt_from_dict (sort_keys (attempt_to_dict m)) = Ok m.
Proof.
  destruct m as [a b c d e f g h l i j k n o p].
  transitivity (Ok (mkAttemptManifest a b c d e f g h
    (str_of_json <$> (sort_keys <$> (JStr <$> l))) i j k n o p)); [reflexivity|].
  do 2 f_equal. rewrite <- !list_fmap_compose. by apply list_fmap_id.
Qed.

Lemma write_attempt_manifest m :
  ∃ l, write_json (attempt_to_dict m) = JsonText (JObj l) ∧ attempt_from_dict (JObj l) = Ok m.
Proof. eexists. split; [reflexivity|]. exact (attempt_from_to_dict m). Qed.

(** ** The states of [finalize_attempt] *)

(** The chunk directory once the manifest, and once the pointer, is written. *)
Definition with_manifest (m : AttemptManifest) : chunk_dir → chunk_dir :=
  set_manifest (am_attempt_id m) (write_json (attempt_to_dict m)).
Definition committed (m : AttemptManifest) (chunk_id pointed_at : string) (d : chunk_dir) : chunk_dir :=
  set_pointer (write_json
    (JObj [("chunk_id", JStr chunk_id); ("attempt_id", JStr (am_attempt_id m));
           ("pointed_at", JStr pointed_at)])) (with_manifest m d).

Lemma committed_pointer m chunk_id pointed_at d :
  ∃ l, pointer (committed m chunk_id pointed_at d) = JsonText (JObj l) ∧
       assoc "attempt_id" l = Some (JStr (am_attempt_id m)).
Proof. eexists. split; reflexivity. Qed.

Lemma check_attempt_Ok d chunk_id attempt_id members run created_at m :
  check_attempt d chunk_id attempt_id members run created_at = Ok m →
  am_attempt_id m = attempt_id ∧ attempt_id ≠ "" ∧ attempt_dir chunk_id attempt_id = Ok attempt_id ∧
  ∃ outcomes entries,
    final (outcomes_file (attempt_at d attempt_id)) = Some outcomes ∧
    final (entries_file (attempt_at d attempt_id)) = Some entries ∧
    schema outcomes = OUTCOME_SCHEMA ∧ schema entries = ENTRY_SCHEMA ∧
    covers (prows outcomes) (prows entries) members ∧
    m = mkAttemptManifest ATTEMPT_MANIFEST_VERSION chunk_id attempt_id (run_id run)
          (work_order_version run) (parser_version run) OUTCOME_SCHEMA_VERSION ENTRY_SCHEMA_VERSION
          (merge_sort String.le members)
          (membership_digest sha256_hexdigest (merge_sort String.le members))
          (Z.of_nat (length (prows outcomes))) (file_sha256 _ outcomes)
          (Z.of_nat (length (prows entries))) (file_sha256 _ entries) created_at.
Proof.
  unfold check_attempt. intros (id & Hid & H)%bind_Ok.
  destruct (attempt_dir_Ok _ _ _ Hid) as (-> & Hne & _).
  apply bind_Ok in H as (outcomes & Ho%require_Ok & H).
  apply bind_Ok in H as (_ & Hso%raise_if_Ok & H). apply bind_Ok in H as (entries & He%require_Ok & H).
  apply bind_Ok in H as (_ & Hse%raise_if_Ok & H).
  apply bind_Ok in H as (u & Hm%validate_membership_Ok & H). injection H as <-. boolprop.
  rewrite (covers_Permutation _ _ _ members) in Hm by apply merge_sort_Permutation.
  split_and!; [done..|]. by exists outcomes, entries.
Qed.

(** A successful call goes through exactly two states; a failing one changes nothing. *)
Lemma finalize_attempt_trace d chunk_id attempt_id members run created_at pointed_at :
  finalize_attempt chunk_id attempt_id members run created_at pointed_at d =
  match check_attempt d chunk_id attempt_id members run created_at with
  | Ok m => ([with_manifest m d; committed m chunk_id pointed_at d], Ok m)
  | Err e => ([], Err e)
  end.
Proof.
  unfold finalize_attempt, advance_pointer, bind_io, read.
  destruct (check_attempt _ _ _ _ _ _) as [m|e] eqn:Hm; [|done].
  destruct (check_attempt_Ok _ _ _ _ _ _ _ Hm) as (<- & _ & Hdir & _).
  destruct (attempt_dir_Ok _ _ _ Hdir) as (_ & _ & Hc). simpl. rewrite Hc. reflexivity.
Qed.

(** ** Commit and resume *)

Lemma attempt_at_with_manifest m d id :
  attempt_at (with_manifest m d) id =
  if decide (id = am_attempt_id m)
  then mkAttempt (outcomes_file (attempt_at d id)) (entries_file (attempt_at d id))
         (write_json (attempt_to_dict m))
  else attempt_at d id.
Proof.
  unfold with_manifest, set_manifest, set_attempt, attempt_at. simpl. case_decide.
  - subst. by rewrite lookup_insert_eq.
  - by rewrite lookup_insert_ne.
Qed.

(** The attempt the pointer names. *)
Definition pointed_attempt (d : chunk_dir) : option string :=
  match pointer d with
  | JsonText (JObj l) => match assoc "attempt_id" l with Some (JStr id) => Some id | _ => None end
  | _ => None
  end.

Lemma read_attempt_manifest_ext d d' chunk_id id :
  attempt_at d id = attempt_at d' id →
  read_attempt_manifest d chunk_id id = read_attempt_manifest d' chunk_id id.
Proof.
  intros H. unfold read_attempt_manifest. destruct (attempt_dir chunk_id id) eqn:E; [|done].
  destruct (attempt_dir_Ok _ _ _ E) as [-> _]. cbn [mbind result_bind]. by rewrite H.
Qed.

(** Validation looks only at the pointer and the pointed attempt. *)
Lemma validate_committed_chunk_ext d d' chunk_id run chunk :
  pointer d = pointer d' →
  (∀ id, pointed_attempt d = Some id → attempt_at d id = attempt_at d' id) →
  validate_committed_chunk d chunk_id run chunk = validate_committed_chunk d' chunk_id run chunk.
Proof.
  intros Hp Ha. unfold validate_committed_chunk, _read_pointer, pointed_attempt in *.
  rewrite <- Hp. destruct (_validate_id chunk_id); [|done]. simpl.
  destruct (pointer d) as [| |[| | | | |l]]; try done. simpl.
  destruct (assoc "attempt_id" l) as [[| | |id| |]|]; try done.
  specialize (Ha id eq_refl). by rewrite (read_attempt_manifest_ext d d' _ _ Ha), Ha.
Qed.

Lemma finalized_files_valid m run d chunk_id attempt_id members created_at :
  check_attempt d chunk_id attempt_id members run created_at = Ok m →
  _validate_files (attempt_at (with_manifest m d) attempt_id) m = Ok ().
Proof.
  intros Hm. apply check_attempt_Ok in Hm
    as (Hid & _ & _ & outcomes & entries & Ho & He & Hso & Hse & Hc & Heq).
  rewrite attempt_at_with_manifest, decide_True by done.
  rewrite (covers_Permutation _ _ _ (membership m)) in Hc
    by (subst m; simpl; by rewrite merge_sort_Permutation).
  apply (validate_membership_Ok _ _ _ ()) in Hc. subst m. simpl in *.
  unfold _validate_files. cbn [outcomes_file entries_file]. rewrite Ho, He. cbn [require mbind result_bind].
  rewrite !bool_decide_true by done. simpl. by rewrite !Z.eqb_refl.
Qed.

(** An attempt that was finalized is accepted on resume, by the run and for the chunk
    it was finalized for. *)
Theorem finalized_attempt_is_valid d chunk_id attempt_id members run created_at pointed_at m chunk :
  chunk_membership_digest chunk = membership_digest sha256_hexdigest members →
  membership_count chunk = length members →
  outcome_of (finalize_attempt chunk_id attempt_id members run created_at pointed_at) d = Ok m →
  validate_committed_chunk
    (final_state (finalize_attempt chunk_id attempt_id members run created_at pointed_at) d)
    chunk_id run chunk =
  Ok (mkValidation true (Some attempt_id) "" (Some m)).
Proof.
  intros Hdig Hcount Hm. unfold outcome_of, final_state in *.
  rewrite finalize_attempt_trace in *.
  destruct (check_attempt _ _ _ _ _ _) as [m'|] eqn:E; simpl in *; [|done]. injection Hm as ->.
  pose proof (finalized_files_valid _ _ _ _ _ _ _ E) as Hfiles.
  apply check_attempt_Ok in E as (Hid & Hne & Hdir & outcomes & entries & _ & _ & _ & _ & _ & Heq).
  destruct (attempt_dir_Ok _ _ _ Hdir) as (_ & _ & Hc). destruct (write_attempt_manifest m) as (l & Hl & Hfd).
  destruct (committed_pointer m chunk_id pointed_at d) as (lp & Hlp & Hassoc).
  change (default d (last [with_manifest m d; committed m chunk_id pointed_at d]))
    with (committed m chunk_id pointed_at d).
  unfold validate_committed_chunk, _read_pointer. rewrite Hc, Hlp. cbn [mbind result_bind].
  rewrite Hassoc, Hid, bool_decide_false by done.
  assert (Hread : read_attempt_manifest (committed m chunk_id pointed_at d) chunk_id attempt_id = Ok (Some m)).
  { rewrite (read_attempt_manifest_ext _ (with_manifest m d)) by done.
    unfold read_attempt_manifest. rewrite Hdir. cbn [mbind result_bind].
    rewrite attempt_at_with_manifest, decide_True by done. cbn [manifest_file]. by rewrite Hl, Hfd. }
  rewrite Hread. cbn [mbind result_bind].
  assert (Hperm : membership_digest sha256_hexdigest (merge_sort String.le members) =
    membership_digest sha256_hexdigest members)
    by (apply membership_digest_Permutation, merge_sort_Permutation).
  rewrite (proj2 (first_failure_None _)).
  - change (attempt_at (committed m chunk_id pointed_at d)) with (attempt_at (with_manifest m d)).
    by rewrite Hfiles.
  - subst m. unfold identity_checks. rewrite Hdig, Hcount.
    repeat (apply Forall_cons_2; [first [reflexivity | apply bool_decide_true]|]); [done..| | | | done].
    + done.
    + apply (Permutation_length (merge_sort_Permutation String.le members)).
    + cbn [membership am_membership_digest]. by rewrite !Hperm.
Qed.

(** C40: finalizing is atomic.  While it runs, a resume sees what it saw before, until the
    last write; a call that raises has written nothing.  So a crash never loses the attempt
    committed before. *)
Theorem finalize_attempt_atomic d chunk_id attempt_id members run created_at pointed_at :
  pointed_attempt d ≠ Some attempt_id →
  let finalize := finalize_attempt chunk_id attempt_id members run created_at pointed_at in
  always (λ d', (∀ run' chunk, validate_committed_chunk d' chunk_id run' chunk =
                               validate_committed_chunk d chunk_id run' chunk) ∨
                d' = final_state finalize d) finalize d ∧
  (is_ok (outcome_of finalize d) = false → final_state finalize d = d).
Proof.
  intros Hp. unfold always, outcome_of, final_state. cbn zeta. rewrite finalize_attempt_trace.
  destruct (check_attempt _ _ _ _ _ _) as [m|] eqn:E; simpl; [|done].
  split; [|done]. constructor; [left|by repeat constructor; right].
  intros run' chunk. apply validate_committed_chunk_ext; [done|].
  intros id Hid. rewrite attempt_at_with_manifest, decide_False; [done|].
  apply check_attempt_Ok in E as (<- & _). intros ->. done.
Qed.

(** ** What a valid chunk holds *)

Lemma validate_files_Ok a m u :
  _validate_files a m = Ok u →
  ∃ outcomes entries,
    final (outcomes_file a) = Some outcomes ∧ final (entries_file a) = Some entries ∧
    schema outcomes = OUTCOME_SCHEMA ∧ schema entries = ENTRY_SCHEMA ∧
    covers (prows outcomes) (prows entries) (membership m).
Proof.
  unfold _validate_files. intros (outcomes & Ho%require_Ok & H)%bind_Ok.
  apply bind_Ok in H as (entries & He%require_Ok & H).
  apply bind_Ok in H as (_ & Hso%raise_if_Ok & H). apply bind_Ok in H as (_ & Hse%raise_if_Ok & H).
  do 4 apply bind_Ok in H as (_ & _ & H). apply validate_membership_Ok in H. boolprop.
  exists outcomes, entries. done.
Qed.

Lemma valid_chunk d chunk_id run chunk v :
  validate_committed_chunk d chunk_id run chunk = Ok v → valid v = true →
  ∃ id m, v = mkValidation true (Some id) "" (Some m) ∧ pointed_attempt d = Some id ∧ id ≠ "" ∧
    Forall (λ c, c.1 = true) (identity_checks m run chunk) ∧
    _validate_files (attempt_at d id) m = Ok ().
Proof.
  unfold validate_committed_chunk, _read_pointer, pointed_attempt.
  destruct (_validate_id chunk_id); [|done]. cbn [mbind result_bind].
  destruct (pointer d) as [| |[| | | | |l]]; try (by intros [= <-]).
  destruct (assoc "attempt_id" l) as [[| | |id| |]|]; try (by intros [= <-]).
  case_bool_decide as Hid; [by intros [= <-]|].
  intros (om & _ & H)%bind_Ok. destruct om as [m|]; [|by injection H as <-].
  destruct (first_failure _) eqn:Hf; [by injection H as <-|]. apply first_failure_None in Hf.
  destruct (_validate_files _ _) as [[]|] eqn:Hv; injection H as <-; [|done].
  intros _. by exists id, m.
Qed.

(** A chunk that validates has, in the attempt its pointer names, exactly one outcome
    for every member of the chunk and entries of members only — or two texts with the same
    digest have been found. *)
Theorem valid_chunk_covers_members d chunk_id run chunk v members :
  chunk_membership_digest chunk = membership_digest sha256_hexdigest members →
  validate_committed_chunk d chunk_id run chunk = Ok v → valid v = true →
  ∃ id outcomes entries, v_attempt_id v = Some id ∧ pointed_attempt d = Some id ∧
    final (outcomes_file (attempt_at d id)) = Some outcomes ∧
    final (entries_file (attempt_at d id)) = Some entries ∧
    (covers (prows outcomes) (prows entries) members ∨ collision sha256_hexdigest).
Proof.
  intros Hdig Hv Hval. destruct (valid_chunk _ _ _ _ _ Hv Hval) as (id & m & -> & Hp & _ & Hid & Hf).
  destruct (validate_files_Ok _ _ _ Hf) as (outcomes & entries & Ho & He & _ & _ & Hc).
  exists id, outcomes, entries. split_and!; [done..|].
  unfold identity_checks in Hid. repeat (apply Forall_cons in Hid as [? Hid]). simpl in *. boolprop.
  assert (Hm : membership_digest sha256_hexdigest (membership m) =
    membership_digest sha256_hexdigest members) by congruence.
  apply membership_digest_identifies in Hm as [Hm|]; [left|by right].
  by rewrite <- (covers_Permutation _ _ _ _ Hm).
Qed.

(** A manifest whose membership is not a list is malformed, yet neither reading it nor
    validating the chunk reports that: [AttemptValidationError] is no [ValueError] and
    escapes both. *)
Theorem malformed_membership_escapes d chunk_id run chunk id p l v :
  attempt_dir chunk_id id = Ok id →
  pointer d = JsonText (JObj p) → assoc "attempt_id" p = Some (JStr id) →
  manifest_file (attempt_at d id) = JsonText (JObj l) → assoc "membership" l = Some v →
  (∀ k, v ≠ JArr k) →
  let e := AttemptValidationError "manifest membership is not a list" in
  read_attempt_manifest d chunk_id id = Err e ∧
  validate_committed_chunk d chunk_id run chunk = Err e.
Proof.
  intros Hdir Hp Hid Hm Hl Hv. cbn zeta.
  assert (Hread : read_attempt_manifest d chunk_id id =
    Err (AttemptValidationError "manifest membership is not a list")).
  { unfold read_attempt_manifest. rewrite Hdir. cbn [mbind result_bind]. rewrite Hm.
    unfold attempt_from_dict, getitem. rewrite Hl. cbn [require mbind result_bind].
    destruct v; try reflexivity. by destruct (Hv l0). }
  split; [done|]. destruct (attempt_dir_Ok _ _ _ Hdir) as (_ & Hne & Hc).
  unfold validate_committed_chunk, _read_pointer. rewrite Hc, Hp. cbn [mbind result_bind].
  by rewrite Hid, bool_decide_false, Hread.
Qed.
End checkpoint.

(** ** What the writers publish *)

Section writing_files.
Context {A : Type}.
Implicit Types (fs : staging A) (w : writer A).

(** A writer that has staged [rows] over the files it found, [t] being an older stage. *)
Definition holds (sch : schema_of_file) (t : option (stage A)) (rows : list A)
    (p : staging A * writer A) : Prop :=
  writing p.2 rows ∧ w_schema p.2 = sch ∧ preloaded p.2 = None ∧
  (open_writer p.2 = None → rows = [] ∧ tmp p.1 = t).

Lemma holds_new fs sch : holds sch (tmp fs) [] (fs, StagedParquetWriter sch None).
Proof. done. Qed.

Lemma batch_io_holds sch t rows batch p :
  holds sch t rows p → runs (batch_io batch) p (λ _, holds sch t (rows ++ batch)).
Proof.
  destruct p as [fs w]. intros (Hw & Hs & Hp & _). simpl in *.
  destruct (write_batch_writing fs w rows batch Hw) as (w' & Hb & Hw' & Ho & Hs').
  exists (Z.of_nat (length batch)). unfold outcome_of, final_state, batch_io. rewrite Hb.
  split; [done|]. unfold holds. simpl. split_and!; [done|congruence| |].
  - revert Hb. unfold write_batch, _ensure_writer. rewrite Hp. destruct (closed w); [by destruct Hw|].
    destruct (open_writer w); intros H;
      apply (f_equal (λ x, preloaded x.1.2)) in H; simpl in H; congruence.
  - intros Hn. rewrite Hn in Ho. by destruct Ho.
Qed.

Lemma commit_io_holds sch t rows p :
  holds sch t rows p → rows ≠ [] ∨ t = None →
  runs commit_io p (λ _ p', p'.1 = mkStaging (Some (mkParquet sch rows)) None).
Proof.
  destruct p as [fs w]. intros (Hw & Hs & Hp & Ht) Hr. simpl in *.
  assert (∃ w', commit fs w None = (mkStaging (Some (mkParquet sch rows)) None, w',
    Ok (Z.of_nat (length rows)))) as (w' & Hc).
  { destruct (open_writer w) eqn:Ho.
    - destruct (commit_writing fs w rows None Hw) as (w' & Hc & _); [by rewrite Ho|done|].
      exists w'. by rewrite Hc, Hs.
    - destruct Ht as [-> Ht]; [done|]. destruct Hr as [|Hr]; [done|]. rewrite Hr in Ht.
      destruct fs as [f t'], w as [s i o n c pl]. destruct Hw as (Hc & _). simpl in *. subst.
      eexists. reflexivity. }
  exists (Z.of_nat (length rows)). unfold outcome_of, final_state, commit_io. rewrite Hc.
  by destruct (if closed w then _ else _).
Qed.
End writing_files.

(** A writers object that was given these outcomes and entries, over the stages it found. *)
Record given (t_o : option (stage outcome)) (t_e : option (stage InventoryEntry))
    (outcomes : list outcome) (entries : list InventoryEntry) (d : desk) : Prop := {
  given_open : _closed (writers d) = false;
  given_outcomes : ∃ rows, holds OUTCOME_SCHEMA t_o rows (outcomes_disk d, _outcomes (writers d)) ∧
    rows ++ _outcome_buffer (writers d) = outcomes;
  given_entries : ∃ rows, holds ENTRY_SCHEMA t_e rows (entries_disk d, _entries (writers d)) ∧
    rows ++ _entry_buffer (writers d) = entries;
}.

Section desk_methods.
Context (t_o : option (stage outcome)) (t_e : option (stage InventoryEntry)).
Abbreviation given := (given t_o t_e).
Implicit Types (d : desk).

Definition new_desk (o : staging outcome) (e : staging InventoryEntry) : desk :=
  mkDesk o e (mkWriters (StagedParquetWriter OUTCOME_SCHEMA None)
                (StagedParquetWriter ENTRY_SCHEMA None) [] [] false).
Lemma given_new o e : tmp o = t_o → tmp e = t_e → given [] [] (new_desk o e).
Proof. intros <- <-. split; [done| |]; exists []; split; auto using holds_new. Qed.

Lemma flush_outcomes d outcomes entries :
  given outcomes entries d →
  runs (match _outcome_buffer (writers d) with
        | [] => ret_io ()
        | rows => bind_io (on_outcomes (batch_io rows))
                    (λ _, write (λ d, set_buffers [] (_entry_buffer (writers d)) d))
        end) d
    (λ _ d', given outcomes entries d' ∧ _outcome_buffer (writers d') = [] ∧
             _entry_buffer (writers d') = _entry_buffer (writers d)).
Proof.
  intros [Hc (ro & Ho & Hro) He]. destruct (_outcome_buffer (writers d)) as [|row rows] eqn:Hb.
  { apply runs_ret. split_and!; [|done..]. split; [done| |done]. exists ro. by rewrite Hb. }
  eapply runs_bind.
  { apply runs_zoom; [by destruct d as [? ? []]|]. simpl.
    eapply runs_mono; [by apply batch_io_holds|]. intros n p Hp.
    instantiate (1 := λ _ d', ∃ p, d' = set_outcomes p d ∧
      holds OUTCOME_SCHEMA t_o (ro ++ row :: rows) p).
    by exists p. }
  intros _ d' ([fs w] & -> & Hp). apply runs_write. split_and!; [|done..].
  split; [done| |done]. exists outcomes. rewrite <- Hro at 1. split; [done|]. apply app_nil_r.
Qed.

Lemma flush_entries d outcomes entries :
  given outcomes entries d →
  runs (match _entry_buffer (writers d) with
        | [] => ret_io ()
        | rows => bind_io (on_entries (batch_io rows))
                    (λ _, write (λ d, set_buffers (_outcome_buffer (writers d)) [] d))
        end) d
    (λ _ d', given outcomes entries d' ∧ _entry_buffer (writers d') = [] ∧
             _outcome_buffer (writers d') = _outcome_buffer (writers d)).
Proof.
  intros [Hc Ho (re & He & Hre)]. destruct (_entry_buffer (writers d)) as [|row rows] eqn:Hb.
  { apply runs_ret. split_and!; [|done..]. split; [done|done|]. exists re. by rewrite Hb. }
  eapply runs_bind.
  { apply runs_zoom; [by destruct d as [? ? []]|]. simpl.
    eapply runs_mono; [by apply batch_io_holds|]. intros n p Hp.
    instantiate (1 := λ _ d', ∃ p, d' = set_entries p d ∧
      holds ENTRY_SCHEMA t_e (re ++ row :: rows) p).
    by exists p. }
  intros _ d' ([fs w] & -> & Hp). apply runs_write. split_and!; [|done..].
  split; [done|done|]. exists entries. rewrite <- Hre at 1. split; [done|]. apply app_nil_r.
Qed.

Lemma flush_given d outcomes entries :
  given outcomes entries d →
  runs _flush d (λ _ d', given outcomes entries d' ∧ _outcome_buffer (writers d') = [] ∧
                         _entry_buffer (writers d') = []).
Proof.
  intros Hd. unfold _flush. eapply runs_bind; [by apply (runs_read _ _ d (λ a s, a = d ∧ s = d))|].
  intros _ _ [-> ->]. eapply runs_bind; [by apply (flush_outcomes d outcomes entries)|].
  simpl. intros _ d' (Hd' & Hb & He). rewrite <- He.
  eapply runs_mono; [by apply (flush_entries d' outcomes entries)|].
  simpl. intros _ d'' (Hd'' & -> & ->). done.
Qed.

Lemma add_given d outcomes entries row rows :
  given outcomes entries d → runs (add row rows) d (λ _, given (outcomes ++ [row]) (entries ++ rows)).
Proof.
  intros Hd. unfold add. eapply runs_bind; [by apply (runs_read _ _ d (λ a s, a = d ∧ s = d))|].
  intros _ _ [-> ->]. rewrite (given_open _ _ _ _ _ Hd).
  set (d1 := set_buffers (_outcome_buffer (writers d) ++ [row]) (_entry_buffer (writers d) ++ rows) d).
  assert (Hd1 : given (outcomes ++ [row]) (entries ++ rows) d1).
  { destruct Hd as [Hc (ro & Ho & <-) (re & He & <-)].
    split; [done|exists ro|exists re]; simpl; by rewrite app_assoc. }
  eapply runs_bind; [by apply (runs_write _ _ (λ _ s, s = d1))|]. intros _ _ ->.
  eapply runs_bind; [by apply (runs_read _ _ d1 (λ a s, a = d1 ∧ s = d1))|].
  intros _ _ [-> ->]. destruct (_ <=? _)%nat; [|by apply runs_ret].
  eapply runs_mono; [by apply flush_given|]. by intros _ d' [Hd' _].
Qed.

Lemma write_outcome_batch_given d outcomes entries batch :
  given outcomes entries d →
  runs (write_outcome_batch batch) d (λ _, given (outcomes ++ batch) entries).
Proof.
  intros Hd. unfold write_outcome_batch. eapply runs_bind; [by apply flush_given|].
  intros _ d' ([Hc (ro & Ho & Hro) He] & Hb & _). rewrite Hb, app_nil_r in Hro. subst ro.
  eapply (runs_bind _ _ _ (λ _, given (outcomes ++ batch) entries)).
  - apply runs_zoom; [by destruct d' as [? ? []]|].
    eapply runs_mono; [by apply batch_io_holds|]. intros _ [fs w] Hp.
    split; [done| |done]. exists (outcomes ++ batch). split; [done|]. simpl. by rewrite Hb, app_nil_r.
  - intros _ d'' Hd''. by apply runs_ret.
Qed.

Lemma write_entry_batch_given d outcomes entries batch :
  given outcomes entries d →
  runs (write_entry_batch batch) d (λ _, given outcomes (entries ++ batch)).
Proof.
  intros Hd. unfold write_entry_batch. eapply runs_bind; [by apply flush_given|].
  intros _ d' ([Hc Ho (re & He & Hre)] & _ & Hb). rewrite Hb, app_nil_r in Hre. subst re.
  eapply (runs_bind _ _ _ (λ _, given outcomes (entries ++ batch))).
  - apply runs_zoom; [by destruct d' as [? ? []]|].
    eapply runs_mono; [by apply batch_io_holds|]. intros _ [fs w] Hp.
    split; [done|done|]. exists (entries ++ batch). split; [done|]. simpl. by rewrite Hb, app_nil_r.
  - intros _ d'' Hd''. by apply runs_ret.
Qed.

(** The two files as [close] leaves them. *)
Definition published (outcomes : list outcome) (entries : list InventoryEntry) (d : desk) : Prop :=
  outcomes_disk d = mkStaging (Some (mkParquet OUTCOME_SCHEMA outcomes)) None ∧
  entries_disk d = mkStaging (Some (mkParquet ENTRY_SCHEMA entries)) None.

Lemma close_given d outcomes entries :
  given outcomes entries d → outcomes ≠ [] ∨ t_o = None → entries ≠ [] ∨ t_e = None →
  runs close d (λ _, published outcomes entries).
Proof.
  intros Hd Hto Hte. unfold close.
  eapply runs_bind; [by apply (runs_read _ _ d (λ a s, a = d ∧ s = d))|].
  intros _ _ [-> ->]. rewrite (given_open _ _ _ _ _ Hd).
  eapply runs_bind; [by apply flush_given|]. simpl.
  intros _ d' ([_ (ro & Ho & Hro) (re & He & Hre)] & Hbo & Hbe).
  rewrite Hbo, app_nil_r in Hro. rewrite Hbe, app_nil_r in Hre. subst ro re.
  eapply (runs_bind _ _ _ (λ _ s, ∃ p, s = set_outcomes p d' ∧
    p.1 = mkStaging (Some (mkParquet OUTCOME_SCHEMA outcomes)) None)).
  { apply runs_zoom; [by destruct d' as [? ? []]|]. simpl.
    eapply runs_mono; [by apply (commit_io_holds OUTCOME_SCHEMA t_o outcomes)|]. eauto. }
  intros _ _ (p & -> & Hp).
  eapply (runs_bind _ _ _ (λ _, published outcomes entries)).
  { apply runs_zoom; [by destruct d' as [? ? []]|].
    eapply runs_mono; [by apply (commit_io_holds ENTRY_SCHEMA t_e entries)|]. intros n q Hq. by split. }
  intros _ d'' Hd''. by apply runs_write.
Qed.

(** *** A writer for entries that is never used *)

Definition unused (e : staging InventoryEntry) (d : desk) : Prop :=
  entries_disk d = e ∧ _entries (writers d) = StagedParquetWriter ENTRY_SCHEMA None ∧
  _entry_buffer (writers d) = [].

Lemma unused_on_outcomes {A} e (m : io (staging outcome * writer outcome) A) d :
  unused e d → always (unused e) (on_outcomes m) d.
Proof. intros Hd. apply always_zoom, Forall_true. done. Qed.

Lemma unused_flush e d : unused e d → always (unused e) _flush d.
Proof.
  intros Hd. unfold _flush. apply always_bind; [apply always_read|]. intros d0 [= <-].
  change (final_state (read Ok) d) with d.
  destruct Hd as (He & Hw & Hb). rewrite Hb. apply always_bind; [|by intros; apply always_ret].
  destruct (_outcome_buffer (writers d)); [apply always_ret|].
  assert (Hd : unused e d) by done.
  apply always_bind; [by apply unused_on_outcomes|]. intros n _. apply always_write.
  pose proof (final_state_always _ _ _ Hd (unused_on_outcomes e (batch_io (o :: l)) d Hd)) as (? & ? & ?).
  done.
Qed.

Lemma unused_outcome_batch e batch d : unused e d → always (unused e) (write_outcome_batch batch) d.
Proof.
  intros Hd. unfold write_outcome_batch. apply always_bind; [by apply unused_flush|]. intros [] _.
  apply always_bind; [|intros; apply always_ret].
  by apply unused_on_outcomes, final_state_always, unused_flush.
Qed.

(** The stage of such a writer is never reopened: one that a crash has torn cannot be
    counted, and [close] raises. *)
Lemma close_torn e d outcomes entries :
  given outcomes entries d → outcomes ≠ [] ∨ t_o = None → unused e d → tmp e = Some Torn →
  raises close d ArrowInvalid (λ d', entries_disk d' = e).
Proof.
  intros Hd Hto Hu He. unfold close.
  eapply raises_after; [by apply (runs_read _ _ d (λ a s, a = d ∧ s = d))|].
  intros _ _ [-> ->]. rewrite (given_open _ _ _ _ _ Hd).
  eapply raises_after.
  { destruct (flush_given d outcomes entries Hd) as (u & Hu1 & Hu2). exists u. split; [exact Hu1|].
    instantiate (1 := λ _ d', given outcomes entries d' ∧ _outcome_buffer (writers d') = [] ∧ unused e d').
    split_and!; [apply Hu2..|]. by apply final_state_always, unused_flush. }
  simpl. intros _ d' ([_ (ro & Ho & Hro) _] & Hbo & Hu'). rewrite Hbo, app_nil_r in Hro. subst ro.
  eapply (raises_after _ _ _ _ (λ _, unused e)).
  { apply runs_zoom; [by destruct d' as [? ? []]|]. simpl.
    eapply runs_mono; [by apply (commit_io_holds OUTCOME_SCHEMA t_o outcomes)|]. done. }
  intros _ d2 (Hd2 & Hw & Hb). apply raises_bind, raises_zoom. rewrite Hd2, Hw.
  destruct e as [f t]. simpl in He. subst t. done.
Qed.
End desk_methods.

(** A writers object publishes exactly the rows it was given, in order, however they are
    buffered and flushed; no stage is left. *)
Theorem attempt_writers_publish o e rows :
  tmp o = None → tmp e = None →
  runs (bind_io (each (λ '(row, entries), add row entries) rows) (λ _, close)) (new_desk o e)
    (λ _, published rows.*1 (mjoin rows.*2)).
Proof.
  intros Ho He. apply (runs_bind _ _ _ (λ _, given None None rows.*1 (mjoin rows.*2))).
  - apply (runs_each (λ done, given None None done.*1 (mjoin done.*2)) _ rows) with (done := []);
      [|by apply given_new].
    intros done [row entries] d Hd _. rewrite !fmap_app, join_app. simpl.
    rewrite app_nil_r. by apply add_given.
  - intros _ d Hd. eapply close_given; [exact Hd|by right..].
Qed.

(** ** A small chunk *)

Definition demo_members : list string := ["0000000001-24-000001"; "0000000001-24-000002"].
Definition demo_outcomes : list outcome :=
  [_empty_outcome "0000000001-24-000002" "u2" STATUS_FETCH_FAILED;
   _empty_outcome "0000000001-24-000001" "u1" STATUS_PARSED_EMPTY].
Definition demo_attempt : attempt :=
  mkAttempt (mkStaging (Some (mkParquet OUTCOME_SCHEMA demo_outcomes)) None)
    (mkStaging (Some (mkParquet ENTRY_SCHEMA [])) None) NoFile.
Definition demo_dir : chunk_dir := mkChunkDir NoFile {["a1" := demo_attempt]}.
Definition demo_run : InventoryRunManifest :=
  mkManifest "run" "" "cohort" "filing-catalog-plan:p" "1" 2 1 2 "4" "digest" 3 100 "normal"
    "live" None "now" JNull.
Definition demo_chunk : ChunkIdentity :=
  mkChunk "chunk-1" 0 (membership_digest demo_digest demo_members) 2 "4".
Definition demo_file_digest (A : Type) (f : parquet A) : string := "sha".
Definition demo_finalize : io chunk_dir AttemptManifest :=
  finalize_attempt demo_digest demo_file_digest "chunk-1" "a1" demo_members demo_run "t0" "t1".

Definition demo_committed : chunk_dir := final_state demo_finalize demo_dir.

Lemma finalized_attempt_is_valid_witness :
  valid <$> validate_committed_chunk demo_digest demo_file_digest demo_committed "chunk-1" demo_run
    demo_chunk = Ok true.
Proof.
  destruct (outcome_of demo_finalize demo_dir) as [m|e] eqn:E; [|vm_compute in E; discriminate].
  unfold demo_committed, demo_finalize.
  rewrite (finalized_attempt_is_valid demo_digest demo_file_digest demo_dir "chunk-1" "a1" demo_members
    demo_run "t0" "t1" m demo_chunk eq_refl eq_refl E).
  reflexivity.
Defined.

Lemma finalize_attempt_atomic_witness :
  length (demo_finalize demo_dir).1 = 2 ∧
  always (λ d', (∀ run' chunk, validate_committed_chunk demo_digest demo_file_digest d' "chunk-1" run' chunk =
                  validate_committed_chunk demo_digest demo_file_digest demo_dir "chunk-1" run' chunk) ∨
                d' = demo_committed) demo_finalize demo_dir.
Proof.
  split; [vm_compute; reflexivity|].
  apply (finalize_attempt_atomic demo_digest demo_file_digest demo_dir "chunk-1" "a1" demo_members
    demo_run "t0" "t1"). discriminate.
Defined.

Lemma valid_chunk_covers_members_witness :
  ∃ id outcomes entries,
    final (outcomes_file (attempt_at demo_committed id)) = Some outcomes ∧
    (covers (prows outcomes) entries demo_members ∨ collision demo_digest).
Proof.
  destruct (validate_committed_chunk demo_digest demo_file_digest demo_committed "chunk-1" demo_run
    demo_chunk) as [v|e] eqn:E; [|vm_compute in E; discriminate].
  destruct (valid_chunk_covers_members demo_digest demo_file_digest demo_committed "chunk-1" demo_run
    demo_chunk v demo_members) as (id & o & e & _ & _ & Ho & _ & Hc); [reflexivity|exact E| |].
  - vm_compute in E. injection E as <-. reflexivity.
  - exists id, o, (prows e). split; assumption.
Defined.

Definition damaged_dir : chunk_dir :=
  mkChunkDir (JsonText (JObj [("attempt_id", JStr "a1")]))
    {["a1" := mkAttempt (mkStaging None None) (mkStaging None None)
                (JsonText (JObj [("membership", JStr "a")]))]}.
Lemma malformed_membership_escapes_witness :
  is_ok (validate_committed_chunk demo_digest demo_file_digest damaged_dir "chunk-1" demo_run demo_chunk)
  = false.
Proof.
  destruct (malformed_membership_escapes demo_digest demo_file_digest damaged_dir "chunk-1" demo_run
    demo_chunk "a1" [("attempt_id", JStr "a1")] [("membership", JStr "a")] (JStr "a")) as [_ ->];
    try reflexivity. intros k [=].
Defined.

Lemma attempt_writers_publish_witness :
  runs (bind_io (each (λ '(row, entries), add row entries) [(_empty_outcome "a" "u" "parsed", [])])
         (λ _, close)) (new_desk (mkStaging None None) (mkStaging None None))
    (λ _, published [_empty_outcome "a" "u" "parsed"] []).
Proof.
  apply (attempt_writers_publish (mkStaging None None) (mkStaging None None)
    [(_empty_outcome "a" "u" "parsed", [])]); reflexivity.
Defined.
