(* ===== verification/Progress.v ===== *)
(** * The progress journal of a chunk: [document_inventory/progress.py]

    While a chunk is processed every finished accession is recorded in a DuckDB database by
    one transaction; a pointer file names the database of the attempt in progress.  A run
    that was interrupted reopens the journal if its metadata is that of the request, and
    starts a new one otherwise.  A database is its tables; transactions are single states. *)
From S2P Require Import Prelude Serialization PyJson Durable.
From S2P Require Import ParquetWriter WorkOrder RunManifest Outcomes.
From S2P Require Import Checkpoint.

(** ** Tables *)

(** [outcomes] and [completed] have the accession as primary key. *)
Record tables := mkTables {
  progress_metadata : list json;
  outcomes : gmap string outcome;
  entries : list InventoryEntry;
  completed : gset string;
}.

(** A database file whose tables are still being created cannot be reopened. *)
Inductive database :=
  | Incomplete
  | Database (t : tables).

Record progress_dir := mkProgressDir {
  progress_pointer : json_file;
  databases : gmap string database;     (* progress-<attempt ID>.duckdb *)
}.

(** Values of the integer columns. *)
Definition is_integer (z : Z) : bool := ((- 2 ^ 31 <=? z) && (z <? 2 ^ 31))%Z.
Definition is_bigint (z : Z) : bool := ((- 2 ^ 63 <=? z) && (z <? 2 ^ 63))%Z.
Definition null_or (p : Z → bool) (o : option Z) : bool :=
  match o with Some z => p z | None => true end.

Definition outcome_fits (row : outcome) : bool :=
  null_or is_bigint (o_response_size row) && is_integer (o_entry_count row)
  && null_or is_bigint (o_bundle_size row).
Definition entry_fits (row : InventoryEntry) : bool :=
  is_integer (row_ordinal row) && null_or is_integer (sequence row)
  && null_or is_bigint (byte_size row).

(** [_OUTCOME_INSERT], [_ENTRY_INSERT] and the insert into [completed]. *)
Definition insert_outcome (t : tables) (row : outcome) : result tables :=
  _ ← raise_if (negb (outcome_fits row)) ConversionException;
  _ ← raise_if (bool_decide (is_Some (outcomes t !! o_accession row))) ConstraintException;
  Ok (mkTables (progress_metadata t) (<[o_accession row := row]> (outcomes t)) (entries t)
        (completed t)).
Definition insert_entry (t : tables) (row : InventoryEntry) : result tables :=
  _ ← raise_if (negb (entry_fits row)) ConversionException;
  Ok (mkTables (progress_metadata t) (outcomes t) (entries t ++ [row]) (completed t)).
Definition insert_completed (t : tables) (accession : string) : result tables :=
  _ ← raise_if (bool_decide (accession ∈ completed t)) ConstraintException;
  Ok (mkTables (progress_metadata t) (outcomes t) (entries t) ({[accession]} ∪ completed t)).

(** ** [ProgressStore] *)

(** The request a journal belongs to. *)
Record purpose_of := mkPurpose { purpose : string; source_attempt_id : option string }.

Definition metadata (chunk : ChunkIdentity) (run : InventoryRunManifest) (attempt_id : string)
    (p : purpose_of) : json :=
  JObj [("run_id", JStr (run_id run)); ("chunk_id", JStr (chunk_id chunk));
        ("attempt_id", JStr attempt_id); ("work_order_version", JStr (work_order_version run));
        ("membership_digest", JStr (chunk_membership_digest chunk));
        ("membership_count", JInt (Z.of_nat (membership_count chunk)));
        ("parser_version", JStr (parser_version run));
        ("outcome_schema_version", JInt (outcome_schema_version run));
        ("entry_schema_version", JInt (entry_schema_version run));
        ("progress_version", JInt PROGRESS_SCHEMA_VERSION);
        ("purpose", JStr (purpose p));
        ("source_attempt_id", json_option (source_attempt_id p))].

(** [_create]: the metadata is stored as canonical JSON, read back by [json.loads]. *)
Definition _create (m : json) : tables := mkTables [sort_keys m] ∅ [] ∅.

Definition _validate (t : tables) (m : json) : result unit :=
  _ ← raise_if (negb match progress_metadata t with [p] => json_equal p m | _ => false end)
        (ValueError "progress metadata mismatch");
  let without (k : gset string) (l : list string) := length (filter (λ a, a ∉ k) l) in
  raise_if (negb (size (completed t) =? size (outcomes t))%nat
            || negb (without (completed t) (map_to_list (outcomes t)).*1 =? 0)%nat
            || negb (without (dom (outcomes t)) (elements (completed t)) =? 0)%nat
            || negb (without (completed t) (entry_accession <$> entries t) =? 0)%nat)
    (ValueError "progress relations are inconsistent").

Definition completed_accessions (t : tables) (members : list string) : result (list string) :=
  let outside l := length (filter (λ a, a ∉ members) l) in
  let invalid := outside (map_to_list (outcomes t)).*1 + outside (entry_accession <$> entries t) in
  _ ← raise_if (negb (invalid =? 0)%nat) (ValueError "progress rows fall outside chunk membership");
  Ok (merge_sort String.le (filter (λ a, a ∉ completed t) members)).

Definition has_completed (t : tables) (accession : string) : bool :=
  bool_decide (accession ∈ completed t).

(** [GROUP BY status ORDER BY status] *)
Definition outcome_status_counts (t : tables) : list (string * nat) :=
  let statuses := (λ kv, o_status kv.2) <$> map_to_list (outcomes t) in
  (λ s, (s, length (filter (λ s', s' = s) statuses))) <$>
    merge_sort String.le (remove_dups statuses).

Definition counts (t : tables) : nat * nat * nat :=
  let rows := (map_to_list (outcomes t)).*2 in
  (length rows,
   length (filter (λ row, o_status row ∈ ["unrecognized"; "parse_failure"; "fetch_failed"; "worker_error"]) rows),
   length (entries t)).

(** The body of one transaction; a failed one is rolled back. *)
Definition insert_accession (t : tables) (row : outcome) (rows : list InventoryEntry) : result tables :=
  t ← insert_outcome t row;
  t ← foldr_m insert_entry t rows;
  insert_completed t (o_accession row).
Definition transaction {A} (t : tables) (r : result tables) (a : A) : tables * result A :=
  match r with Ok t' => (t', Ok a) | Err e => (t, Err e) end.

Definition record (t : tables) (r : worker_result) (index_url : string) : tables * result string :=
  let row := outcome_row r index_url None in
  transaction t (insert_accession t row (entry_rows r)) (o_status row).

Definition import_accession (t : tables) (row : outcome) (rows : list InventoryEntry) :
    tables * result unit :=
  transaction t (insert_accession t row rows) ().

(** [arrow_reader] yields the rows of a query in batches. *)
Section progress.
Context (arrow_reader : ∀ A, list A → list (list A)).

Definition outcomes_query (t : tables) : list outcome :=
  order_by o_accession (map_to_list (outcomes t)).*2.
(** [ORDER BY accession, entry_id] *)
Definition entries_query (t : tables) : list InventoryEntry :=
  order_by entry_accession (order_by entry_id (entries t)).

Definition export (t : tables) : io desk unit :=
  (each write_outcome_batch (arrow_reader _ (outcomes_query t));;
   each write_entry_batch (arrow_reader _ (entries_query t)))%io.

(** The rows of the source attempt are read in the order of their accessions. *)
Definition carry_row (source_entries : list InventoryEntry) (row : outcome) : io tables unit :=
  (t <- read Ok;
   if retryable row then ret_io ()
   else if has_completed t (o_accession row) then ret_io ()
   else λ t,
     let rows := order_by entry_id (filter (λ e, entry_accession e = o_accession row) source_entries) in
     match import_accession t row rows with
     | (t', Ok _) => ([t'], Ok ())
     | (_, Err e) => ([], Err e)
     end)%io.
Definition seed_carry (source_outcomes : list outcome) (source_entries : list InventoryEntry) :
    io tables unit :=
  each (carry_row source_entries) (order_by o_accession source_outcomes).
End progress.

(** ** [open_progress] *)

Definition set_database (attempt_id : string) (db : database) (d : progress_dir) : progress_dir :=
  mkProgressDir (progress_pointer d) (<[attempt_id := db]> (databases d)).

(** The attempt of a journal that can be continued; any exception of the [try] is [None]. *)
Definition resumable (d : progress_dir) (chunk : ChunkIdentity) (run : InventoryRunManifest)
    (p : purpose_of) : option string :=
  match progress_pointer d with
  | JsonText data =>
      match (attempt_id ← str_item data "attempt_id";
             attempt_id ← _validate_id attempt_id;
             pointed_chunk ← get_or_none data "chunk_id";
             _ ← raise_if (negb (json_equal pointed_chunk (JStr (chunk_id chunk))))
                   (ValueError "progress pointer is invalid");
             db ← require (databases d !! attempt_id) (ValueError "progress pointer is invalid");
             t ← match db with Database t => Ok t | Incomplete => Err CatalogException end;
             _ ← _validate t (metadata chunk run attempt_id p);
             Ok attempt_id)
      with
      | Ok attempt_id => Some attempt_id
      | Err _ => None
      end
  | _ => None
  end.

(** [new_attempt_id] is the ID [new_attempt_id()] returns. *)
Definition open_progress (chunk : ChunkIdentity) (run : InventoryRunManifest) (p : purpose_of)
    (force_new : bool) (new_attempt_id : string) : io progress_dir string :=
  (_ <- read (λ _, _validate_id (chunk_id chunk));
   d <- read Ok;
   match (if force_new then None else resumable d chunk run p) with
   | Some attempt_id => ret_io attempt_id
   | None =>
       attempt_id <- read (λ _, _validate_id new_attempt_id);
       _ <- read (λ d, raise_if (bool_decide (is_Some (databases d !! attempt_id))) CatalogException);
       write (set_database attempt_id Incomplete);;
       write (set_database attempt_id (Database (_create (metadata chunk run attempt_id p))));;
       write (λ d, mkProgressDir
         (write_json (JObj [("chunk_id", JStr (chunk_id chunk)); ("attempt_id", JStr attempt_id)]))
         (databases d));;
       ret_io attempt_id
   end)%io.

(** ** One transaction *)

Definition all_fit (row : outcome) (rows : list InventoryEntry) : bool :=
  outcome_fits row && forallb entry_fits rows.
Definition recorded (t : tables) (row : outcome) (rows : list InventoryEntry) : tables :=
  mkTables (progress_metadata t) (<[o_accession row := row]> (outcomes t)) (entries t ++ rows)
    ({[o_accession row]} ∪ completed t).

Lemma insert_entries_eq rows t :
  foldr_m insert_entry t rows =
  if forallb entry_fits rows
  then Ok (mkTables (progress_metadata t) (outcomes t) (entries t ++ rows) (completed t))
  else Err ConversionException.
Proof.
  revert t; induction rows as [|row rows IH]; intros t; simpl.
  { rewrite app_nil_r. by destruct t. }
  assert (insert_entry t row = if entry_fits row
    then Ok (mkTables (progress_metadata t) (outcomes t) (entries t ++ [row]) (completed t))
    else Err ConversionException) as -> by (unfold insert_entry; by destruct (entry_fits row)).
  destruct (entry_fits row); simpl; [|done]. rewrite IH. simpl. by rewrite <- app_assoc.
Qed.

Lemma insert_accession_eq t row rows :
  insert_accession t row rows =
  if negb (outcome_fits row) then Err ConversionException
  else if bool_decide (is_Some (outcomes t !! o_accession row)) then Err ConstraintException
  else if negb (forallb entry_fits rows) then Err ConversionException
  else if bool_decide (o_accession row ∈ completed t) then Err ConstraintException
  else Ok (recorded t row rows).
Proof.
  unfold insert_accession, insert_outcome. destruct (outcome_fits row); simpl; [|done].
  case_bool_decide; simpl; [done|]. rewrite insert_entries_eq. simpl.
  destruct (forallb entry_fits rows); simpl; [|done]. unfold insert_completed. simpl.
  by case_bool_decide.
Qed.

Lemma insert_accession_Ok t row rows t' :
  insert_accession t row rows = Ok t' ↔
  all_fit row rows = true ∧ outcomes t !! o_accession row = None ∧ (o_accession row ∉ completed t) ∧
  t' = recorded t row rows.
Proof.
  rewrite insert_accession_eq. unfold all_fit. rewrite andb_true_iff.
  destruct (outcome_fits row); simpl; [|naive_solver].
  case_bool_decide as Hn; [split; [done|]; intros (_ & Ho & _); rewrite Ho in Hn; by destruct Hn|].
  rewrite <- eq_None_not_Some in Hn.
  destruct (forallb entry_fits rows); simpl; [|naive_solver].
  case_bool_decide; (split; [intros [= <-]; by split_and!|]).
  - by intros (_ & _ & ? & _).
  - by intros (_ & _ & _ & ->).
Qed.

(** ** The invariant of a journal *)

Record consistent (t : tables) : Prop := {
  keys : ∀ a row, outcomes t !! a = Some row → o_accession row = a;
  completed_all : completed t = dom (outcomes t);
  entries_completed : ∀ e, e ∈ entries t → entry_accession e ∈ completed t;
}.

Definition own_entries (a : string) (rows : list InventoryEntry) : Prop :=
  ∀ e, e ∈ rows → entry_accession e = a.

Lemma consistent_create m : consistent (_create m).
Proof. split; simpl; [done|by rewrite dom_empty_L|set_solver]. Qed.

Lemma consistent_recorded t row rows :
  consistent t → own_entries (o_accession row) rows → consistent (recorded t row rows).
Proof.
  intros [Hk Hc He] Hown. split; simpl.
  - intros a r. rewrite lookup_insert_Some. naive_solver.
  - by rewrite dom_insert_L, Hc.
  - intros e [H|H]%elem_of_app; [|rewrite (Hown e H)]; set_solver.
Qed.

Lemma consistent_new t a : consistent t → a ∉ completed t ↔ outcomes t !! a = None.
Proof. intros [_ -> _]. by rewrite not_elem_of_dom. Qed.

Lemma json_equal_metadata chunk run id p chunk' run' id' p' :
  json_equal (sort_keys (metadata chunk run id p)) (metadata chunk' run' id' p') = true →
  id = id' ∧ p = p' ∧ run_id run = run_id run' ∧ chunk_id chunk = chunk_id chunk' ∧
  chunk_membership_digest chunk = chunk_membership_digest chunk'.
Proof.
  unfold json_equal. intros H%String.eqb_eq%canonical_json_inj.
  destruct p as [pu [s|]], p' as [pu' [s'|]]; cbn in H; injection H; intros; subst; by split_and!.
Qed.

Lemma json_equal_metadata_refl chunk run id p :
  json_equal (sort_keys (metadata chunk run id p)) (metadata chunk run id p) = true.
Proof. unfold json_equal. apply String.eqb_eq. by destruct p as [pu [s|]]. Qed.

Lemma filter_length_zero {A} (P : A → Prop) `{∀ x, Decision (P x)} (l : list A) :
  length (filter P l) = 0 ↔ ∀ x, x ∈ l → ¬ P x.
Proof.
  rewrite length_zero_iff_nil. split.
  - intros Hf x Hx HP. by apply (filter_nil_not_elem_of P l x) in Hf.
  - apply list_filter_none.
Qed.

(** Reopening checks the metadata and nothing else, when the journal is consistent. *)
Lemma validate_consistent t m m' :
  consistent t → progress_metadata t = [m] →
  _validate t m' = if json_equal m m' then Ok () else Err (ValueError "progress metadata mismatch").
Proof.
  intros [Hk Hc He] Hm. unfold _validate. rewrite Hm. destruct (json_equal m m'); [|done].
  simpl. rewrite Hc, size_dom, Nat.eqb_refl. simpl.
  assert (Hz : ∀ k l, (∀ a : string, a ∈ l → a ∈@{gset string} k) →
    negb (length (filter (λ a, a ∉ k) l) =? 0)%nat = false).
  { intros k l H. rewrite negb_false_iff, Nat.eqb_eq. apply filter_length_zero. naive_solver. }
  rewrite !Hz; [done|..].
  - intros a [e [-> Hin]]%list_elem_of_fmap. rewrite <- Hc. auto.
  - intros a. by rewrite elem_of_elements.
  - intros a [[a' r] [-> Hin]]%list_elem_of_fmap. apply elem_of_map_to_list in Hin.
    simpl. by apply elem_of_dom_2 in Hin.
Qed.

(** Recording a result is all or nothing.  A new accession whose numbers fit their
    32- and 64-bit columns is stored with all its entries; otherwise DuckDB raises and the
    journal is as before: an entry count or a row ordinal of 2^31, or a size of 2^63, is
    refused, never truncated. *)
Theorem record_all_or_nothing t r index_url :
  consistent t →
  let row := outcome_row r index_url None in
  (all_fit row (entry_rows r) = true → o_accession row ∉ completed t →
     record t r index_url = (recorded t row (entry_rows r), Ok (o_status row))) ∧
  (all_fit row (entry_rows r) = false ∨ o_accession row ∈ completed t →
     ∃ e, record t r index_url = (t, Err e) ∧ (e = ConversionException ∨ e = ConstraintException)) ∧
  (all_fit row (entry_rows r) = true →
     (o_entry_count row < 2 ^ 31)%Z ∧ ∀ e n, e ∈ entry_rows r → byte_size e = Some n → (n < 2 ^ 63)%Z).
Proof.
  intros Ht row. unfold record, transaction. fold row. split_and!.
  - intros Hfit Hnew. rewrite (proj2 (insert_accession_Ok _ _ _ (recorded t row (entry_rows r)))); [done|].
    split_and!; [done| |done..]. by apply consistent_new.
  - intros Hbad. destruct (insert_accession t row (entry_rows r)) as [t'|e] eqn:E.
    + apply insert_accession_Ok in E as (Hfit & _ & Hnew & _). destruct Hbad; [congruence|done].
    + exists e. split; [done|]. rewrite insert_accession_eq in E.
      repeat case_match; simplify_eq; auto.
  - unfold all_fit, outcome_fits, entry_fits, is_integer. intros H. boolprop.
    destruct H as [[[_ [_ Hc]] _] He]. split; [lia|].
    intros e n Hin Hn. rewrite forallb_forall in He. specialize (He e).
    rewrite <- list_elem_of_In, Hn in He. apply He in Hin. unfold is_bigint in Hin. simpl in Hin.
    boolprop. lia.
Qed.

(** ** Interrupted journals *)

(** One call on an open journal; a failing call is a step too. *)
Inductive journal_step (t : tables) : tables → Prop :=
  | step_record r index_url :
      own_entries (result_accession r) (entry_rows r) →
      journal_step t (record t r index_url).1
  | step_import row rows :
      own_entries (o_accession row) rows → journal_step t (import_accession t row rows).1.

Lemma outcome_row_accession r url n : o_accession (outcome_row r url n) = result_accession r.
Proof. by destruct r. Qed.

Lemma transaction_consistent {A} t row rows (a : A) :
  consistent t → own_entries (o_accession row) rows →
  let t' := (transaction t (insert_accession t row rows) a).1 in
  consistent t' ∧ progress_metadata t' = progress_metadata t.
Proof.
  intros Ht Hown. unfold transaction. destruct (insert_accession t row rows) eqn:E; [|done].
  apply insert_accession_Ok in E as (_ & _ & _ & ->). split; [|done]. by apply consistent_recorded.
Qed.

Lemma journal_step_consistent t t' :
  journal_step t t' → consistent t → consistent t' ∧ progress_metadata t' = progress_metadata t.
Proof.
  intros [r url Hown|row rows Hown] Ht; apply transaction_consistent; try done.
  by rewrite outcome_row_accession.
Qed.

Lemma journal_consistent m t :
  rtc journal_step (_create m) t → consistent t ∧ progress_metadata t = [sort_keys m].
Proof.
  revert t. apply (rtc_ind_r (λ t, consistent t ∧ progress_metadata t = [sort_keys m])).
  - split; [apply consistent_create|done].
  - intros t t' _ Hstep [Ht Hm]. apply journal_step_consistent in Hstep as [Ht' ->]; [|done]. done.
Qed.

(** Wherever an interruption leaves a journal, reopening it for the same request
    succeeds, and reopening it for another attempt, run, chunk, purpose or source is refused. *)
Theorem interrupted_journal_resumes chunk run id p t :
  rtc journal_step (_create (metadata chunk run id p)) t →
  _validate t (metadata chunk run id p) = Ok () ∧
  ∀ chunk' run' id' p', _validate t (metadata chunk' run' id' p') = Ok () →
    id' = id ∧ p' = p ∧ run_id run' = run_id run ∧ chunk_id chunk' = chunk_id chunk ∧
    chunk_membership_digest chunk' = chunk_membership_digest chunk.
Proof.
  intros [Ht Hm]%journal_consistent. split.
  - rewrite (validate_consistent _ _ _ Ht Hm). by rewrite json_equal_metadata_refl.
  - intros chunk' run' id' p'. rewrite (validate_consistent _ _ _ Ht Hm).
    destruct (json_equal _ _) eqn:E; [|done]. intros _.
    destruct (json_equal_metadata _ _ _ _ _ _ _ _ E) as (-> & -> & -> & -> & ->). done.
Qed.

(** ** Carrying the final outcomes of an earlier attempt *)

(** *** Many transactions *)

(** Rows with their entries, stored one transaction after the other. *)
Definition store_all (t : tables) (l : list (outcome * list InventoryEntry)) : tables :=
  foldl (λ t p, recorded t p.1 p.2) t l.
Definition own_pair (p : outcome * list InventoryEntry) : Prop := own_entries (o_accession p.1) p.2.
Definition accessions_of (l : list (outcome * list InventoryEntry)) : list string :=
  o_accession ∘ fst <$> l.

Lemma store_all_metadata t l : progress_metadata (store_all t l) = progress_metadata t.
Proof. revert t; induction l as [|p l IH]; intros t; [done|]. exact (IH (recorded t p.1 p.2)). Qed.

Lemma store_all_completed t l :
  completed (store_all t l) = completed t ∪ list_to_set (accessions_of l).
Proof.
  revert t; induction l as [|p l IH]; intros t; unfold store_all, accessions_of in *; simpl; [set_solver|].
  rewrite IH. simpl. set_solver.
Qed.

Lemma store_all_consistent t l : consistent t → Forall own_pair l → consistent (store_all t l).
Proof.
  intros Ht Hl. revert t Ht; induction Hl as [|p l Hp _ IH]; intros t Ht; [done|].
  by apply IH, consistent_recorded.
Qed.

Lemma store_all_other t l a :
  Forall own_pair l → a ∉ accessions_of l →
  outcomes (store_all t l) !! a = outcomes t !! a ∧
  filter (λ e, entry_accession e = a) (entries (store_all t l)) =
    filter (λ e, entry_accession e = a) (entries t).
Proof.
  intros Hl. revert t; induction Hl as [|p l Hp _ IH]; intros t Ha; [done|].
  unfold accessions_of in *. rewrite fmap_cons, not_elem_of_cons in Ha. destruct Ha as [Hne Ha].
  change (store_all t (p :: l)) with (store_all (recorded t p.1 p.2) l).
  destruct (IH (recorded t p.1 p.2) Ha) as [-> ->]. simpl in *.
  rewrite lookup_insert_ne by done. split; [done|]. rewrite filter_app.
  rewrite (list_filter_none _ p.2), app_nil_r; [done|]. intros e He. by rewrite (Hp e He).
Qed.

Lemma store_all_stored t l p :
  consistent t → Forall own_pair l → NoDup (accessions_of l) → p ∈ l → o_accession p.1 ∉ completed t →
  outcomes (store_all t l) !! o_accession p.1 = Some p.1 ∧
  filter (λ e, entry_accession e = o_accession p.1) (entries (store_all t l)) = p.2.
Proof.
  intros Ht Hl. revert t Ht; induction Hl as [|q l Hq Hl IH]; intros t Ht Hnd Hin Hnew; [set_solver|].
  unfold accessions_of in *. rewrite fmap_cons in Hnd. apply NoDup_cons in Hnd as [Hr Hnd].
  change (store_all t (q :: l)) with (store_all (recorded t q.1 q.2) l).
  apply elem_of_cons in Hin as [->|Hin].
  - destruct (store_all_other (recorded t q.1 q.2) l (o_accession q.1) Hl Hr) as [-> ->]. simpl.
    rewrite lookup_insert_eq, filter_app, (list_filter_none _ (entries t)), (filter_all _ q.2);
      [done|exact Hq|].
    intros e He Heq. apply Hnew. rewrite <- Heq. by apply (entries_completed t Ht).
  - apply IH; [by apply consistent_recorded|done..|]. simpl.
    assert (o_accession p.1 ≠ o_accession q.1); [|set_solver].
    intros Heq. apply Hr. simpl. rewrite <- Heq. apply list_elem_of_fmap. by exists p.
Qed.

Section carry.
Context (source_entries : list InventoryEntry).
Definition rows_of (row : outcome) : list InventoryEntry :=
  order_by entry_id (filter (λ e, entry_accession e = o_accession row) source_entries).
Definition with_entries (rows : list outcome) : list (outcome * list InventoryEntry) :=
  (λ row, (row, rows_of row)) <$> rows.
Definition carry_all (t : tables) (rows : list outcome) : tables := store_all t (with_entries rows).

(** The rows still to be carried. *)
Definition to_carry (t : tables) (rows : list outcome) : list outcome :=
  filter (λ row, retryable row = false ∧ o_accession row ∉ completed t) rows.

Lemma own_rows_of row : own_entries (o_accession row) (rows_of row).
Proof. intros e. unfold rows_of. rewrite elem_of_order_by, list_elem_of_filter. by intros [? _]. Qed.
Lemma own_with_entries rows : Forall own_pair (with_entries rows).
Proof. apply Forall_fmap, Forall_true. intros row. apply own_rows_of. Qed.
Lemma accessions_with_entries rows : accessions_of (with_entries rows) = o_accession <$> rows.
Proof. unfold accessions_of, with_entries. by rewrite <- list_fmap_compose. Qed.

Lemma carry_all_completed t rows :
  completed (carry_all t rows) = completed t ∪ list_to_set (o_accession <$> rows).
Proof. unfold carry_all. by rewrite store_all_completed, accessions_with_entries. Qed.

Lemma carry_all_consistent t rows : consistent t → consistent (carry_all t rows).
Proof. intros Ht. by apply store_all_consistent; [|apply own_with_entries]. Qed.

Lemma carry_all_carried t rows row :
  consistent t → NoDup (o_accession <$> rows) → row ∈ rows → o_accession row ∉ completed t →
  outcomes (carry_all t rows) !! o_accession row = Some row ∧
  filter (λ e, entry_accession e = o_accession row) (entries (carry_all t rows)) = rows_of row.
Proof.
  intros Ht Hnd Hin Hnew.
  apply (store_all_stored t (with_entries rows) (row, rows_of row)); try done.
  - apply own_with_entries.
  - by rewrite accessions_with_entries.
  - apply list_elem_of_fmap. by exists row.
Qed.

(** Every state of the loop is the journal with some more rows carried. *)
Lemma carry_loop rows t t0 done :
  t = carry_all t0 (to_carry t0 done) → consistent t0 → NoDup (o_accession <$> done ++ rows) →
  (∀ row, row ∈ rows → retryable row = false → all_fit row (rows_of row) = true) →
  let m := each (carry_row source_entries) rows in
  runs m t (λ _ t', t' = carry_all t0 (to_carry t0 (done ++ rows))) ∧
  always (λ t', consistent t' ∧ progress_metadata t' = progress_metadata t0) m t.
Proof.
  intros -> Ht0. revert done. induction rows as [|row rows IH]; intros done Hnd Hfit m.
  { split; [apply runs_ret; by rewrite app_nil_r|constructor]. }
  set (t := carry_all t0 (to_carry t0 done)).
  assert (Hmeta : ∀ rows, progress_metadata (carry_all t0 rows) = progress_metadata t0).
  { intros l. apply store_all_metadata. }
  assert (Hcons : ∀ rows, consistent (carry_all t0 rows)) by (intros; by apply carry_all_consistent).
  assert (Hstep : ∃ trace, carry_row source_entries row t = (trace, Ok ()) ∧
    default t (last trace) = carry_all t0 (to_carry t0 (done ++ [row])) ∧
    Forall (λ t', consistent t' ∧ progress_metadata t' = progress_metadata t0) trace).
  { unfold carry_row, bind_io, read. simpl. unfold to_carry. rewrite filter_app, filter_cons, filter_nil.
    destruct (retryable row) eqn:Hretry.
    { exists []. rewrite decide_False by naive_solver. by rewrite app_nil_r. }
    unfold has_completed. case_bool_decide as Hdone.
    { exists []. rewrite decide_False, app_nil_r; [done|]. intros [_ Hn]. apply Hn.
      subst t. rewrite carry_all_completed in Hdone. apply elem_of_union in Hdone as [|Hin]; [done|].
      apply elem_of_list_to_set, list_elem_of_fmap in Hin as (r & Heq & Hr).
      apply list_elem_of_filter in Hr as [_ Hr].
      rewrite fmap_app, fmap_cons, NoDup_app in Hnd. destruct Hnd as (_ & Hnd & _).
      destruct (Hnd (o_accession r)); [by apply list_elem_of_fmap_2|rewrite <- Heq; by left]. }
    assert (Hins : import_accession t row (rows_of row) = (recorded t row (rows_of row), Ok ())).
    { unfold import_accession, transaction.
      rewrite (proj2 (insert_accession_Ok _ _ _ (recorded t row (rows_of row)))); [done|].
      split_and!; [apply Hfit; [by left|done]| |done..]. by apply consistent_new; [apply Hcons|]. }
    exists [recorded t row (rows_of row)].
    fold (rows_of row). rewrite Hins. split; [done|]. rewrite decide_True.
    2: { split; [done|]. intros Hn. apply Hdone. subst t. rewrite carry_all_completed. set_solver. }
    assert (Heq : recorded t row (rows_of row) = carry_all t0 (to_carry t0 done ++ [row]))
      by (unfold carry_all, with_entries, store_all; by rewrite fmap_app, foldl_app).
    split; [by rewrite Heq|]. rewrite Heq. apply Forall_singleton. auto. }
  destruct Hstep as (trace & Hrow & Hlast & Hall).
  assert (Hf : final_state (carry_row source_entries row) t = carry_all t0 (to_carry t0 (done ++ [row])))
    by (unfold final_state; by rewrite Hrow).
  destruct (IH (done ++ [row])) as [Hruns Halw].
  { by rewrite <- app_assoc. }
  { intros r Hr. apply Hfit. by right. }
  replace (done ++ row :: rows) with ((done ++ [row]) ++ rows) by (by rewrite <- app_assoc).
  split.
  - eapply (runs_bind _ _ _ (λ _ t', t' = carry_all t0 (to_carry t0 (done ++ [row])))).
    + exists (). unfold outcome_of. by rewrite Hrow.
    + intros _ _ ->. exact Hruns.
  - apply always_bind; [unfold always; by rewrite Hrow|]. intros _ _. by rewrite Hf.
Qed.
End carry.

(** Retrying carries every final outcome forward unchanged.  After [seed_carry] the
    journal holds, besides what it held before, exactly the rows of the source attempt that
    are not retryable, each with its entries; it is consistent at every point an
    interruption may stop at, so that the rest is carried when it is reopened. *)
Theorem seed_carry_carries t rows source_entries :
  consistent t → NoDup (o_accession <$> rows) →
  (∀ row, row ∈ rows → retryable row = false → all_fit row (rows_of source_entries row) = true) →
  let carried row := row ∈ rows ∧ retryable row = false ∧ o_accession row ∉ completed t in
  runs (seed_carry rows source_entries) t (λ _ t',
    (∀ a, a ∈ completed t' ↔ a ∈ completed t ∨ ∃ row, carried row ∧ a = o_accession row) ∧
    (∀ row, carried row → outcomes t' !! o_accession row = Some row ∧
       filter (λ e, entry_accession e = o_accession row) (entries t') =
       rows_of source_entries row) ∧
    (∀ a, a ∈ completed t → outcomes t' !! a = outcomes t !! a)) ∧
  always (λ t', consistent t' ∧ progress_metadata t' = progress_metadata t)
    (seed_carry rows source_entries) t.
Proof.
  intros Ht Hnd Hfit carried.
  assert (Hcarry : ∀ row, row ∈ to_carry t (order_by o_accession rows) ↔ carried row).
  { intros row. unfold to_carry. rewrite list_elem_of_filter, elem_of_order_by. unfold carried. tauto. }
  assert (Hnd' : NoDup (o_accession <$> to_carry t (order_by o_accession rows))).
  { eapply sublist_NoDup; [by apply (NoDup_order_by o_accession rows)|].
    apply fmap_sublist, sublist_filter. }
  destruct (carry_loop source_entries (order_by o_accession rows) t t []) as [Hruns Halw];
    [done|done|by apply NoDup_order_by| |].
  { intros row. rewrite elem_of_order_by. apply Hfit. }
  split; [|exact Halw]. eapply runs_mono; [exact Hruns|]. intros _ t' ->. simpl. split_and!.
  - intros a. rewrite carry_all_completed, elem_of_union, elem_of_list_to_set, list_elem_of_fmap.
    setoid_rewrite Hcarry. naive_solver.
  - intros row Hrow. apply carry_all_carried; [done..|by apply Hcarry|apply Hrow].
  - intros a Ha. apply store_all_other; [apply own_with_entries|].
    rewrite accessions_with_entries. intros (row & -> & Hr)%list_elem_of_fmap. apply Hcarry in Hr as (_ & _ & Hn). done.
Qed.

(** ** Opening a journal *)

(** Every journal has the metadata of the attempt its file is named after, and never
    continues an attempt from itself. *)
Definition journals_ok (d : progress_dir) : Prop :=
  ∀ id t, databases d !! id = Some (Database t) →
    consistent t ∧ ∃ chunk run p,
      progress_metadata t = [sort_keys (metadata chunk run id p)] ∧ source_attempt_id p ≠ Some id.

Lemma resumable_Some d chunk run p id :
  resumable d chunk run p = Some id →
  ∃ t, databases d !! id = Some (Database t) ∧ _validate t (metadata chunk run id p) = Ok ().
Proof.
  unfold resumable. destruct (progress_pointer d) as [| |data]; [done..|].
  destruct (_ ≫= _) as [i|] eqn:E; [|done]. intros [= ->].
  apply bind_Ok in E as (a & _ & E). apply bind_Ok in E as (a' & [-> _]%validate_id_Ok & E).
  apply bind_Ok in E as (c & _ & E). apply bind_Ok in E as (_ & _ & E).
  apply bind_Ok in E as (db & Hdb%require_Ok & E). apply bind_Ok in E as (t & Ht & E).
  apply bind_Ok in E as ([] & Hv & [= ->]). destruct db; [done|]. injection Ht as ->. by exists t.
Qed.

Lemma resumable_created d chunk run p id databases_ :
  _validate_id id = Ok id →
  databases_ !! id = Some (Database (_create (metadata chunk run id p))) →
  progress_pointer d =
    write_json (JObj [("chunk_id", JStr (chunk_id chunk)); ("attempt_id", JStr id)]) →
  databases d = databases_ →
  resumable d chunk run p = Some id.
Proof.
  intros Hid Hdb Hp <-. unfold resumable. rewrite Hp.
  change (write_json _) with
    (JsonText (JObj [("attempt_id", JStr id); ("chunk_id", JStr (chunk_id chunk))])).
  cbn [str_item getitem assoc String.eqb Ascii.eqb Bool.eqb require fmap result_fmap mbind result_bind
       str_of_json get_or_none default from_option].
  rewrite Hid. cbn [mbind result_bind]. rewrite json_equal_refl. cbn [negb raise_if mbind result_bind].
  rewrite Hdb. cbn [require mbind result_bind].
  rewrite (validate_consistent _ (sort_keys (metadata chunk run id p)));
    [|apply consistent_create|done].
  by rewrite json_equal_metadata_refl.
Qed.

(** The states [open_progress] goes through when it starts a journal. *)
Definition started (chunk : ChunkIdentity) (run : InventoryRunManifest) (p : purpose_of)
    (id : string) (d : progress_dir) : list progress_dir :=
  let d1 := set_database id Incomplete d in
  let d2 := set_database id (Database (_create (metadata chunk run id p))) d1 in
  [d1; d2; mkProgressDir
     (write_json (JObj [("chunk_id", JStr (chunk_id chunk)); ("attempt_id", JStr id)])) (databases d2)].

Lemma open_progress_eq chunk run p force_new new d :
  _validate_id (chunk_id chunk) = Ok (chunk_id chunk) → _validate_id new = Ok new →
  databases d !! new = None →
  open_progress chunk run p force_new new d =
  match (if force_new then None else resumable d chunk run p) with
  | Some id => ([], Ok id)
  | None => (started chunk run p new d, Ok new)
  end.
Proof.
  intros Hc Hn Hfresh. unfold open_progress, bind_io, read. simpl. rewrite Hc. simpl.
  destruct (if force_new then _ else _); [done|]. simpl. rewrite Hn, Hfresh. done.
Qed.

Lemma journals_ok_set d id db :
  journals_ok d →
  match db with
  | Database t => consistent t ∧ ∃ chunk run p,
      progress_metadata t = [sort_keys (metadata chunk run id p)] ∧ source_attempt_id p ≠ Some id
  | Incomplete => True
  end → journals_ok (set_database id db d).
Proof.
  intros Hd Hdb i t. simpl. rewrite lookup_insert_Some. intros [[<- ->]|[_ Hi]]; [done|by apply Hd].
Qed.

Lemma started_ok chunk run p id d :
  journals_ok d → source_attempt_id p ≠ Some id → Forall journals_ok (started chunk run p id d).
Proof.
  intros Hd Hs.
  assert (H1 : journals_ok (set_database id Incomplete d)) by (by apply journals_ok_set).
  assert (H2 : journals_ok (set_database id (Database (_create (metadata chunk run id p)))
    (set_database id Incomplete d))).
  { apply journals_ok_set; [done|]. split; [apply consistent_create|]. by exists chunk, run, p. }
  apply Forall_cons_2; [done|]. apply Forall_cons_2; [done|]. apply Forall_singleton. exact H2.
Qed.

(** Opening the journal of a chunk succeeds and yields a consistent journal of exactly
    this request: the one in progress if there is one and it is not to be replaced, or an
    empty one under the new ID.  A crash while a new one is started leaves the old pointer
    or the finished journal, and an attempt never carries from itself. *)
Theorem open_progress_opens d chunk run p force_new new :
  journals_ok d → _validate_id (chunk_id chunk) = Ok (chunk_id chunk) → _validate_id new = Ok new →
  databases d !! new = None → source_attempt_id p ≠ Some new →
  let m := open_progress chunk run p force_new new in
  runs m d (λ id d', source_attempt_id p ≠ Some id ∧ ∃ t,
    databases d' !! id = Some (Database t) ∧ consistent t ∧
    _validate t (metadata chunk run id p) = Ok () ∧
    (d' = d ∧ force_new = false ∧ resumable d chunk run p = Some id ∨
     id = new ∧ t = _create (metadata chunk run new p) ∧ resumable d' chunk run p = Some new)) ∧
  always (λ d', journals_ok d' ∧ (progress_pointer d' = progress_pointer d ∨
                                  resumable d' chunk run p = Some new)) m d.
Proof.
  intros Hd Hc Hn Hfresh Hs m. unfold m, runs, always, outcome_of, final_state.
  rewrite open_progress_eq by done.
  assert (Hstarted : ∀ d', databases d' = databases (set_database new
      (Database (_create (metadata chunk run new p))) (set_database new Incomplete d)) →
    progress_pointer d' = write_json
      (JObj [("chunk_id", JStr (chunk_id chunk)); ("attempt_id", JStr new)]) →
    resumable d' chunk run p = Some new).
  { intros d' Hdb Hp. eapply resumable_created; [done| |exact Hp|exact Hdb]. apply lookup_insert_eq. }
  destruct (if force_new then None else resumable d chunk run p) as [id|] eqn:E; simpl.
  - destruct force_new; [done|]. split; [|constructor]. exists id. split; [done|].
    destruct (resumable_Some _ _ _ _ _ E) as (t & Ht & Hv).
    destruct (Hd id t Ht) as (Hcons & chunk' & run' & p' & Hm & Hs'). split.
    + revert Hv. rewrite (validate_consistent _ _ _ Hcons Hm).
      destruct (json_equal _ _) eqn:Ej; [|done]. intros _.
      by apply json_equal_metadata in Ej as (_ & <- & _).
    + exists t. split_and!; [done..|]. by left.
  - split.
    + exists new. split; [done|]. split; [done|]. exists (_create (metadata chunk run new p)).
      split_and!; [apply lookup_insert_eq|apply consistent_create| |].
      * rewrite (validate_consistent _ (sort_keys (metadata chunk run new p)));
          [|apply consistent_create|done]. by rewrite json_equal_metadata_refl.
      * right. split_and!; [done..|]. by apply Hstarted.
    + pose proof (started_ok chunk run p new d Hd Hs) as Hok.
      unfold started in *. inversion Hok as [|? ? H1 Hok']; subst.
      inversion Hok' as [|? ? H2 Hok'']; subst. inversion Hok'' as [|? ? H3 _]; subst.
      repeat apply Forall_cons_2; [split; [done|by left]..|split; [done|by right; apply Hstarted]|constructor].
Qed.

(** ** Reading a journal *)

Lemma completed_accessions_Ok t members missing :
  completed_accessions t members = Ok missing ↔
  (∀ a, is_Some (outcomes t !! a) → a ∈ members) ∧
  (∀ e, e ∈ entries t → entry_accession e ∈ members) ∧
  missing = merge_sort String.le (filter (λ a, a ∉ completed t) members).
Proof.
  unfold completed_accessions. cbn zeta.
  set (n1 := length _). set (n2 := length _).
  assert (H1 : n1 = 0 ↔ ∀ a, is_Some (outcomes t !! a) → a ∈ members).
  { unfold n1. rewrite filter_length_zero. split.
    - intros H a [row Hrow]. destruct (decide (a ∈ members)) as [|Hn]; [done|].
      edestruct H; [|exact Hn]. apply list_elem_of_fmap. exists (a, row). split; [done|].
      by apply elem_of_map_to_list.
    - intros H a [[a' row] [-> Hin%elem_of_map_to_list]]%list_elem_of_fmap Hn. apply Hn, H. by exists row. }
  assert (H2 : n2 = 0 ↔ ∀ e, e ∈ entries t → entry_accession e ∈ members).
  { unfold n2. rewrite filter_length_zero. split.
    - intros H e He. destruct (decide (entry_accession e ∈ members)) as [|Hn]; [done|].
      edestruct H; [|exact Hn]. by apply list_elem_of_fmap_2.
    - intros H a [e [-> He]]%list_elem_of_fmap Hn. apply Hn, H, He. }
  rewrite <- H1, <- H2. destruct (n1 + n2 =? 0)%nat eqn:E; simpl.
  - apply Nat.eqb_eq in E. split; [intros [= <-]; split_and!; [lia..|done]|]. by intros (_ & _ & ->).
  - apply Nat.eqb_neq in E. split; [done|]. lia.
Qed.

(** Nothing is missing exactly when every member is completed. *)
Lemma missing_nil t members missing :
  completed_accessions t members = Ok missing →
  missing = [] ↔ ∀ a, a ∈ members → a ∈ completed t.
Proof.
  intros (_ & _ & ->)%completed_accessions_Ok. split.
  - intros Hnil a Ha. destruct (decide (a ∈ completed t)) as [|Hn]; [done|].
    assert (a ∈ filter (λ a, a ∉ completed t) members) as Hin by by apply list_elem_of_filter.
    rewrite <- (merge_sort_Permutation String.le), Hnil in Hin. by apply not_elem_of_nil in Hin.
  - intros H. rewrite list_filter_none; [done|]. intros a Ha Hn. by apply Hn, H.
Qed.

Lemma outcomes_query_Permutation t : outcomes_query t ≡ₚ (map_to_list (outcomes t)).*2.
Proof. apply order_by_Permutation. Qed.
Lemma entries_query_Permutation t : entries_query t ≡ₚ entries t.
Proof. unfold entries_query. by rewrite !order_by_Permutation. Qed.

Lemma elem_of_outcomes_query t row :
  consistent t → row ∈ outcomes_query t ↔ outcomes t !! o_accession row = Some row.
Proof.
  intros Ht. rewrite outcomes_query_Permutation, list_elem_of_fmap. split.
  - intros [[a r] [-> Hin%elem_of_map_to_list]]. simpl. by rewrite (keys t Ht _ _ Hin).
  - intros H. exists (o_accession row, row). split; [done|]. by apply elem_of_map_to_list.
Qed.

Lemma outcomes_query_keys t :
  consistent t → o_accession <$> outcomes_query t ≡ₚ elements (completed t).
Proof.
  intros Ht. rewrite outcomes_query_Permutation.
  assert (Hkeys : o_accession <$> (map_to_list (outcomes t)).*2 = (map_to_list (outcomes t)).*1).
  { rewrite <- list_fmap_compose. apply Forall_fmap_ext, Forall_forall. intros [a r] Hi. simpl.
    apply elem_of_map_to_list in Hi. exact (keys t Ht _ _ Hi). }
  rewrite Hkeys. apply NoDup_Permutation; [apply NoDup_fst_map_to_list|apply NoDup_elements|].
  intros a. rewrite elem_of_elements, (completed_all t Ht), elem_of_dom, list_elem_of_fmap. split.
  - intros [[a' r] [-> Hin%elem_of_map_to_list]]. by exists r.
  - intros [r Hr]. exists (a, r). split; [done|]. by apply elem_of_map_to_list.
Qed.

(** A finished journal is a complete attempt. *)
Lemma finished_covers t members :
  consistent t → NoDup members → completed_accessions t members = Ok [] →
  covers (outcomes_query t) (entries_query t) members.
Proof.
  intros Ht Hnd Hok. pose proof (proj1 (missing_nil _ _ _ Hok) eq_refl) as Hall.
  apply completed_accessions_Ok in Hok as (Ho & He & _). split_and!.
  - rewrite (outcomes_query_keys t Ht). apply NoDup_elements.
  - intros a. rewrite (outcomes_query_keys t Ht), elem_of_elements. split; [|apply Hall].
    rewrite (completed_all t Ht), elem_of_dom. apply Ho.
  - intros a [e [-> Hin]]%list_elem_of_fmap. rewrite entries_query_Permutation in Hin. by apply He.
Qed.

Section exporting.
Context (arrow_reader : ∀ A, list A → list (list A)).
Context (batches_join : ∀ A (l : list A), mjoin (arrow_reader A l) = l).

Lemma export_given t_o t_e t d :
  given t_o t_e [] [] d →
  runs (export arrow_reader t) d (λ _, given t_o t_e (outcomes_query t) (entries_query t)).
Proof.
  intros Hd. unfold export. apply (runs_bind _ _ _ (λ _, given t_o t_e (outcomes_query t) [])).
  - generalize (batches_join _ (outcomes_query t)). generalize (arrow_reader _ (outcomes_query t)).
    intros batches <-.
    apply (runs_each (λ done, given t_o t_e (mjoin done) []) write_outcome_batch) with (done := []); [|done].
    intros done batch d' Hd' _. rewrite join_app. simpl. rewrite app_nil_r.
    by apply write_outcome_batch_given.
  - intros _ d' Hd'.
    generalize (batches_join _ (entries_query t)). generalize (arrow_reader _ (entries_query t)).
    intros batches <-.
    apply (runs_each (λ done, given t_o t_e (outcomes_query t) (mjoin done)) write_entry_batch)
      with (done := []); [|done].
    intros done batch d'' Hd'' _. rewrite join_app. simpl. rewrite app_nil_r.
    by apply write_entry_batch_given.
Qed.
End exporting.

(** ** A small journal *)

Definition demo_fresh : purpose_of := mkPurpose "fresh" None.
Definition demo_retry : purpose_of := mkPurpose "retry" (Some "a1").
Definition demo_journal : tables := _create (metadata demo_chunk demo_run "a1" demo_fresh).
Definition demo_failure : worker_result :=
  IndexFetchFailure "0000000001-24-000001" "fetch_failed" "HTTP 503" (Some 503%Z) "index".
Definition demo_journals : progress_dir := mkProgressDir NoFile ∅.

Lemma record_all_or_nothing_witness :
  record demo_journal demo_failure "u" =
    (recorded demo_journal (outcome_row demo_failure "u" None) [], Ok "fetch_failed").
Proof.
  apply (record_all_or_nothing demo_journal demo_failure "u" (consistent_create _));
    [reflexivity|apply not_elem_of_empty].
Defined.

Lemma interrupted_journal_resumes_witness :
  _validate (record demo_journal demo_failure "u").1 (metadata demo_chunk demo_run "a1" demo_fresh) = Ok ().
Proof.
  apply (interrupted_journal_resumes demo_chunk demo_run "a1" demo_fresh).
  eapply rtc_once. apply step_record. intros e He. by apply not_elem_of_nil in He.
Defined.

Lemma seed_carry_carries_witness :
  runs (seed_carry demo_outcomes []) demo_journal (λ _ t,
    ∀ a, a ∈ completed t ↔ a ∈ completed demo_journal ∨ ∃ row,
      (row ∈ demo_outcomes ∧ retryable row = false ∧ o_accession row ∉ completed demo_journal) ∧
      a = o_accession row).
Proof.
  assert (Hnd : NoDup (o_accession <$> demo_outcomes)).
  { apply (bool_decide_unpack _). vm_compute. reflexivity. }
  assert (Hfit : ∀ row, row ∈ demo_outcomes → retryable row = false →
    all_fit row (rows_of [] row) = true).
  { intros row Hrow _. unfold demo_outcomes in Hrow.
    apply elem_of_cons in Hrow as [->|[->|[]%not_elem_of_nil]%elem_of_cons]; reflexivity. }
  destruct (seed_carry_carries demo_journal demo_outcomes [] (consistent_create _) Hnd Hfit) as [H _].
  destruct H as (a & Ha & Hcompleted & _). exists a. split; assumption.
Defined.

Lemma open_progress_opens_witness :
  runs (open_progress demo_chunk demo_run demo_retry false "a2") demo_journals (λ id d',
    demo_retry.(source_attempt_id) ≠ Some id ∧ is_Some (databases d' !! id)).
Proof.
  destruct (open_progress_opens demo_journals demo_chunk demo_run demo_retry false "a2") as [H _].
  - intros id t Ht. discriminate Ht.
  - reflexivity.
  - reflexivity.
  - reflexivity.
  - intros [=].
  - destruct H as (id & Hid & Hs & t & Ht & _). exists id. split; [assumption|].
    split; [assumption|]. exists (Database t). assumption.
Defined.
