(* ===== verification/Scheduler.v ===== *)
(** * Bounded scheduling of a chunk: [_bounded_results] of [document_inventory/coordinator.py]

    The generator submits work items to a process pool, keeps at most [workers] futures in
    flight and yields one typed result per item in completion order.  It is a step relation:
    which futures are done, whether a submission or a future fails, and when a stop is
    requested is up to the environment. *)
From S2P Require Import Prelude WorkOrder Outcomes.

(** Where the generator is. *)
Inductive phase :=
  | Filling (n : nat)                  (* for _ in range(max(1, workers)) *)
  | Failing (detail : string)          (* broken_pool_failures *)
  | Waiting                            (* while in_flight *)
  | Draining (done : list IndexWorkItem) (n : nat)   (* for future in done; n = len(done) *)
  | Refilling (n : nat)                (* for _ in range(len(done)) *)
  | Sequential                         (* pool is None *)
  | Finished.

(** A future is identified with its item; items of a chunk are distinct. *)
Record scheduler := mkScheduler {
  at_phase : phase;
  source : list IndexWorkItem;
  in_flight : list IndexWorkItem;
  stop_requested : bool;
  yielded : list worker_result;
}.

Definition worker_failure (item : IndexWorkItem) (detail : string) : worker_result :=
  IndexWorkerFailure (wi_accession item) "worker_error" detail "index".

Definition go (p : phase) (s : scheduler) : scheduler :=
  mkScheduler p (source s) (in_flight s) (stop_requested s) (yielded s).
Definition yield_result (r : worker_result) (s : scheduler) : scheduler :=
  mkScheduler (at_phase s) (source s) (in_flight s) (stop_requested s) (yielded s ++ [r]).

(** [submit_next()], then [if exhausted: break] or the next iteration [k].  [submitted] is
    the exception of [pool.submit], if it raises. *)
Definition submit_next (submitted : option string) (k : phase) (s : scheduler) : scheduler :=
  match source s with
  | [] => go Waiting s
  | item :: rest =>
      match submitted with
      | None => mkScheduler k rest (in_flight s ++ [item]) (stop_requested s) (yielded s)
      | Some detail =>
          mkScheduler (Failing detail) rest (in_flight s) (stop_requested s)
            (yielded s ++ [worker_failure item detail])
      end
  end.

(** An iteration of one of the two submitting loops. *)
Definition iteration (submitted : option string) (k : phase) (s : scheduler) : scheduler :=
  if stop_requested s then go Waiting s else submit_next submitted k s.

(** The rest of the source after a failed submission; a stop drops the item just taken. *)
Definition fail_next (detail : string) (s : scheduler) : scheduler :=
  match source s with
  | [] => go Waiting s
  | item :: rest =>
      if stop_requested s then mkScheduler Waiting rest (in_flight s) (stop_requested s) (yielded s)
      else mkScheduler (Failing detail) rest (in_flight s) (stop_requested s)
             (yielded s ++ [worker_failure item detail])
  end.

Section scheduling.
(** The results [_run_task] can return for an item. *)
Context (run_task : IndexWorkItem → worker_result → Prop).

(** The outcome of one future: its result or its exception. *)
Definition result_of (item : IndexWorkItem) (r : worker_result) : Prop :=
  run_task item r ∨ ∃ detail, r = worker_failure item detail.

Inductive step (s : scheduler) : scheduler → Prop :=
  | stop : stop_requested s = false →
      step s (mkScheduler (at_phase s) (source s) (in_flight s) true (yielded s))
  | fill n submitted : at_phase s = Filling (S n) → step s (iteration submitted (Filling n) s)
  | filled : at_phase s = Filling 0 → step s (go Waiting s)
  | fail detail : at_phase s = Failing detail → step s (fail_next detail s)
  | wait_some done : at_phase s = Waiting → done ≠ [] → NoDup done → done ⊆ in_flight s →
      step s (go (Draining done (length done)) s)
  | wait_none : at_phase s = Waiting → in_flight s = [] → step s (go Finished s)
  | drain item done n r : at_phase s = Draining (item :: done) n → result_of item r →
      step s (mkScheduler (Draining done n) (source s)
                (filter (λ i, i ≠ item) (in_flight s)) (stop_requested s) (yielded s ++ [r]))
  | drained n : at_phase s = Draining [] n → step s (go (Refilling n) s)
  | refill n submitted : at_phase s = Refilling (S n) →
      step s (iteration submitted (Refilling n) s)
  | refilled : at_phase s = Refilling 0 → step s (go Waiting s)
  | sequential_stop : at_phase s = Sequential → (source s = [] ∨ stop_requested s = true) →
      step s (go Finished s)
  | sequential item rest r : at_phase s = Sequential → source s = item :: rest →
      stop_requested s = false → run_task item r →
      step s (mkScheduler Sequential rest (in_flight s) (stop_requested s) (yielded s ++ [r])).

(** [_bounded_results(items, ..., workers, ..., pool)] when it is first advanced; [stopped]
    tells whether a stop had been requested before. *)
Definition _bounded_results (items : list IndexWorkItem) (workers : nat) (pool stopped : bool) :
    scheduler :=
  mkScheduler (if pool then Filling (Nat.max 1 workers) else Sequential) items [] stopped [].
End scheduling.

Section scheduling_theorems.
Context (run_task : IndexWorkItem → worker_result → Prop).
Abbreviation step := (step run_task).
Abbreviation result_of := (result_of run_task).
Context (items : list IndexWorkItem) (workers : nat) (pool stopped : bool).
Context (distinct : NoDup items).
Implicit Types (s : scheduler).

Definition bound : nat := Nat.max 1 workers.

(** How many futures may still be in flight in each phase. *)
Definition slots (s : scheduler) : Prop :=
  match at_phase s with
  | Filling n | Refilling n => length (in_flight s) + n ≤ bound
  | Draining done n => length (in_flight s) + n ≤ bound + length done ∧ length done ≤ n ∧ NoDup done ∧ done ⊆ in_flight s
  | Sequential => in_flight s = []
  | _ => length (in_flight s) ≤ bound
  end.

(** Without a stop, the generator does not wait for nothing while items are left. *)
Definition live (s : scheduler) : Prop :=
  match at_phase s with
  | Filling n | Refilling n => in_flight s = [] → source s = [] ∨ 0 < n
  | Draining _ n => 0 < n
  | Waiting => in_flight s = [] → source s = []
  | Finished => in_flight s = [] ∧ source s = []
  | Sequential | Failing _ => True
  end.

(** Every item is accounted for: its result was yielded, it is in flight, or it is still in
    the source; only a stop drops items. *)
Record accounted (s : scheduler) : Prop := {
  within : slots s;
  alive : stop_requested s = false → live s;
  no_loss : ∃ done, Forall2 result_of done (yielded s) ∧
    done ++ in_flight s ++ source s ⊆+ items ∧
    (stop_requested s = false → done ++ in_flight s ++ source s ≡ₚ items);
}.

Lemma accounted_initial : accounted (_bounded_results items workers pool stopped).
Proof.
  unfold _bounded_results. split.
  - unfold slots. destruct pool; simpl; unfold bound; lia || done.
  - intros _. unfold live. destruct pool; simpl; [|done]. intros _. right. lia.
  - exists []. simpl. split_and!; [constructor|done|done].
Qed.

Lemma accounted_go p s :
  accounted s → slots (go p s) → (stop_requested s = false → live (go p s)) → accounted (go p s).
Proof. by intros [_ _ Hn]. Qed.

Lemma NoDup_in_flight s : accounted s → NoDup (in_flight s).
Proof.
  intros [_ _ (done & _ & [k Hk]%submseteq_Permutation & _)].
  rewrite Hk in distinct. apply NoDup_app in distinct as (H & _ & _).
  apply NoDup_app in H as (_ & _ & H). by apply NoDup_app in H as (H & _ & _).
Qed.

Lemma accounted_iteration submitted k n s :
  accounted s → at_phase s = k (S n) → (k = Filling ∨ k = Refilling) →
  accounted (iteration submitted (k n) s).
Proof.
  intros Hs Hp Hk. pose proof Hs as [Hw Hl Hn]. unfold iteration, submit_next.
  assert (Hslots : length (in_flight s) + S n ≤ bound)
    by (unfold slots in Hw; rewrite Hp in Hw; by destruct Hk as [-> | ->]).
  destruct (stop_requested s) eqn:Hstop.
  { apply accounted_go; [done|unfold slots; simpl; lia|by rewrite Hstop]. }
  destruct (source s) as [|item rest] eqn:Hsrc.
  { apply accounted_go; [done|unfold slots; simpl; lia|by intros _ _]. }
  destruct Hn as (done & Hf & Hsub & Hperm).
  destruct submitted as [detail|]; split.
  - unfold slots. simpl. lia.
  - done.
  - exists (done ++ [item]). simpl.
    assert ((done ++ [item]) ++ in_flight s ++ rest ≡ₚ done ++ in_flight s ++ item :: rest) as ->
      by (by rewrite <- app_assoc, <- (Permutation_middle (in_flight s))).
    split_and!; [|done..]. apply Forall2_app; [done|]. constructor; [|done]. right. by exists detail.
  - destruct Hk as [-> | ->]; unfold slots; simpl; rewrite length_app; simpl; lia.
  - intros _. destruct Hk as [-> | ->]; unfold live; simpl; intros Hnil; by apply app_nil in Hnil as [_ ?].
  - exists done. simpl. rewrite <- !app_assoc. done.
Qed.

Lemma accounted_fail detail s :
  accounted s → at_phase s = Failing detail → accounted (fail_next detail s).
Proof.
  intros Hs Hp. pose proof Hs as [Hw Hl (done & Hf & Hsub & Hperm)]. unfold fail_next.
  assert (Hb : length (in_flight s) ≤ bound) by (unfold slots in Hw; by rewrite Hp in Hw).
  destruct (source s) as [|item rest] eqn:Hsrc.
  { apply accounted_go; [done|done|by intros _ _]. }
  destruct (stop_requested s) eqn:Hstop; split; try done.
  - exists done. simpl. split_and!; [done| |done]. etrans; [|exact Hsub].
    by apply submseteq_skips_l, submseteq_skips_l, submseteq_cons.
  - exists (done ++ [item]). simpl.
    assert ((done ++ [item]) ++ in_flight s ++ rest ≡ₚ done ++ in_flight s ++ item :: rest) as ->
      by (by rewrite <- app_assoc, <- (Permutation_middle (in_flight s))).
    split_and!; [|done..]. apply Forall2_app; [done|]. constructor; [|done]. right. by exists detail.
Qed.

Lemma filter_one (item : IndexWorkItem) l :
  NoDup l → item ∈ l → l ≡ₚ item :: filter (λ i, i ≠ item) l.
Proof.
  intros Hl Hin. apply NoDup_Permutation; [done| |].
  - apply NoDup_cons. split; [|by apply NoDup_filter]. rewrite list_elem_of_filter. naive_solver.
  - intros i. rewrite elem_of_cons, list_elem_of_filter. destruct (decide (i = item)); naive_solver.
Qed.

Lemma accounted_drain item done n r s :
  accounted s → at_phase s = Draining (item :: done) n → result_of item r →
  accounted (mkScheduler (Draining done n) (source s) (filter (λ i, i ≠ item) (in_flight s))
               (stop_requested s) (yielded s ++ [r])).
Proof.
  intros Hs Hp Hr. pose proof (NoDup_in_flight s Hs) as Hnd.
  destruct Hs as [Hw Hl (finished & Hf & Hsub & Hperm)]. unfold slots, live in Hw, Hl. rewrite Hp in Hw, Hl.
  destruct Hw as (Hb & Hlen' & [Hitem Hdone]%NoDup_cons & Hincl).
  assert (Hone : in_flight s ≡ₚ item :: filter (λ i, i ≠ item) (in_flight s))
    by (apply filter_one; [done|apply Hincl; by left]).
  pose proof (Permutation_length Hone) as Hlen. simpl in *. split.
  - unfold slots. simpl. split_and!; [lia|lia|done|]. intros i Hi. apply list_elem_of_filter.
    split; [intros ->; done|]. apply Hincl. by right.
  - exact Hl.
  - exists (finished ++ [item]). simpl.
    assert ((finished ++ [item]) ++ filter (λ i, i ≠ item) (in_flight s) ++ source s ≡ₚ
      finished ++ in_flight s ++ source s) as ->.
    { rewrite <- app_assoc. apply Permutation_app_head. simpl. by rewrite app_comm_cons, <- Hone. }
    split_and!; [|done..]. apply Forall2_app; [done|]. by constructor.
Qed.

Lemma accounted_step s s' : accounted s → step s s' → accounted s'.
Proof.
  intros Hs Hstep. pose proof Hs as [Hw Hl Hn].
  inversion Hstep as [Hstop|n sub Hp|Hp|detail Hp|done Hp Hne Hnd Hin|Hp Hnil|item done n r Hp Hr|n Hp
    |n sub Hp|Hp|Hp Hend|item rest r Hp Hsrc Hstop Hr]; subst; unfold slots, live in Hw, Hl;
    try rewrite Hp in Hw, Hl.
  - split; [done|done|]. destruct Hn as (done & Hf & Hsub & _). by exists done.
  - apply accounted_iteration; auto.
  - apply accounted_go; [done|unfold slots; simpl; lia|]. intros Hst Hnil. destruct (Hl Hst Hnil); [done|lia].
  - by apply accounted_fail.
  - apply accounted_go; [done|unfold slots; simpl; split_and!; [lia|done..]|]. intros _. simpl.
    destruct done; [done|unfold live; simpl; lia].
  - apply accounted_go; [done|done|]. intros Hst. split; [done|]. by apply Hl.
  - by apply accounted_drain with (done := done).
  - destruct Hw as (Hb & _). apply accounted_go; [done|unfold slots; simpl in *; lia|].
    intros Hst _. right. by apply Hl.
  - apply accounted_iteration; auto.
  - apply accounted_go; [done|unfold slots; simpl; lia|]. intros Hst Hnil. destruct (Hl Hst Hnil); [done|lia].
  - apply accounted_go; [done|unfold slots; simpl; rewrite Hw; simpl; lia|].
    intros Hst. split; [done|]. destruct Hend as [|Hend]; [done|congruence].
  - split; [done|done|]. destruct Hn as (done & Hf & Hsub & Hperm). exists (done ++ [item]).
    rewrite Hw, Hsrc in *. simpl in *. rewrite <- !app_assoc. simpl.
    split_and!; [|done..]. apply Forall2_app; [done|]. constructor; [by left|done].
Qed.

Lemma reachable_accounted s :
  rtc step (_bounded_results items workers pool stopped) s → accounted s.
Proof.
  revert s. apply rtc_ind_r; [apply accounted_initial|]. intros s s' _ Hstep Hs.
  by apply (accounted_step s).
Qed.

(** ** Termination *)

Definition phase_weight (p : phase) : nat :=
  match p with
  | Draining [] _ => 5
  | Filling _ | Refilling _ | Failing _ => 4
  | Waiting => 3
  | Draining _ _ => 2
  | Sequential => 1
  | Finished => 0
  end.
(** Work left; a submission moves an item to a cheaper place. *)
Definition work (s : scheduler) : nat :=
  8 * (2 * length (source s) + length (in_flight s)) + phase_weight (at_phase s)
  + if stop_requested s then 0 else 1.

Lemma work_iteration submitted k n s :
  at_phase s = k (S n) → (k = Filling ∨ k = Refilling) →
  work (iteration submitted (k n) s) < work s.
Proof.
  destruct s as [p src fl st ys]. simpl. intros -> Hk. unfold iteration, submit_next, work. simpl.
  assert (phase_weight (k (S n)) = 4 ∧ phase_weight (k n) = 4) as [-> Hkn] by (by destruct Hk as [-> | ->]).
  destruct st, src as [|item rest], submitted; simpl;
    rewrite ?length_app, ?Hkn; simpl; lia.
Qed.

Lemma work_step s s' : accounted s → step s s' → work s' < work s.
Proof.
  intros Hs Hstep. pose proof Hs as [Hw _ _].
  inversion Hstep as [Hstop|n sub Hp|Hp|detail Hp|done Hp Hne Hnd Hin|Hp Hnil|item done n r Hp Hr|n Hp
    |n sub Hp|Hp|Hp Hend|item rest r Hp Hsrc Hstop Hr]; subst;
    try (apply work_iteration; by auto); unfold work, fail_next; rewrite ?Hp; simpl.
  - rewrite Hstop. lia.
  - lia.
  - destruct s as [p [|item rest] fl [] ys]; simpl in *; subst; simpl; lia.
  - destruct done; [done|]. lia.
  - lia.
  - unfold slots in Hw. rewrite Hp in Hw. destruct Hw as (_ & _ & _ & Hin).
    rewrite (Permutation_length (filter_one item (in_flight s) (NoDup_in_flight s Hs)
      (Hin item (list_elem_of_here _ _)))).
    simpl. destruct done; lia.
  - lia.
  - lia.
  - lia.
  - rewrite Hsrc. simpl. lia.
Qed.

(** C10: the generator terminates.  From every state it can reach there is no endless
    sequence of steps, and it is never stuck before it has finished. *)
Theorem bounded_results_terminates s :
  (∀ item, ∃ r, run_task item r) →
  rtc step (_bounded_results items workers pool stopped) s →
  Acc (λ s2 s1, step s1 s2) s ∧ (at_phase s ≠ Finished → ∃ s', step s s').
Proof.
  intros Htask Hs%reachable_accounted. split.
  - remember (work s) as n eqn:Hn. revert s Hn Hs. induction n as [n IH] using lt_wf_ind.
    intros s -> Hs. constructor. intros s' Hstep.
    apply (IH (work s')); [by apply work_step|done|by apply (accounted_step s)].
  - intros Hf. destruct (at_phase s) as [[|n]|detail| |[|item futures] n|[|n]| |] eqn:Hp; [..|done].
    + eexists. by apply filled.
    + eexists. by apply (fill _ s n None).
    + eexists. by apply fail with (detail := detail).
    + destruct (in_flight s) as [|item l] eqn:Hi; [eexists; by apply wait_none|].
      eexists. apply wait_some with (done := [item]); [done|done|apply NoDup_singleton|].
      rewrite Hi. set_solver.
    + eexists. by apply drained with (n := n).
    + destruct (Htask item) as [r Hr]. eexists. eapply drain; [exact Hp|by left].
    + eexists. by apply refilled.
    + eexists. by apply (refill _ s n None).
    + destruct (source s) as [|item rest] eqn:Hsrc; [eexists; apply sequential_stop; auto|].
      destruct (stop_requested s) eqn:Hstop; [eexists; apply sequential_stop; auto|].
      destruct (Htask item) as [r Hr]. eexists. by eapply sequential.
Qed.

(** C11: one result per item, within the bound.  At most [max(1, workers)] futures are ever
    in flight; when the generator has finished it has yielded, in some order, for distinct
    items one result each, a typed failure if the task or the pool failed, and without a
    stop it has done so for every item. *)
Theorem bounded_results_complete s :
  rtc step (_bounded_results items workers pool stopped) s →
  length (in_flight s) ≤ Nat.max 1 workers ∧
  (at_phase s = Finished → ∃ done, Forall2 result_of done (yielded s) ∧ done ⊆+ items ∧
    (stop_requested s = false → done ≡ₚ items)).
Proof.
  intros [Hw Hl (done & Hf & Hsub & Hperm)]%reachable_accounted. split.
  - unfold slots in Hw. change (length (in_flight s) ≤ bound).
    destruct (at_phase s); try lia. rewrite Hw. simpl. unfold bound. lia.
  - intros Hp. unfold live in Hl. rewrite Hp in Hl. exists done. split; [done|]. split.
    + etrans; [|exact Hsub]. by apply submseteq_inserts_r.
    + intros Hst. destruct (Hl Hst) as [Hi Hsrc]. specialize (Hperm Hst). by rewrite Hi, Hsrc, app_nil_r in Hperm.
Qed.
End scheduling_theorems.

(** One item, two workers: it is submitted, its future fails, and nothing is left. *)
Definition demo_item : IndexWorkItem := mkItem "0000000001-24-000001" "u" "index" None None false None.
Definition demo_task (item : IndexWorkItem) (r : worker_result) : Prop :=
  r = worker_failure item "timeout".
Definition demo_finished : scheduler :=
  mkScheduler Finished [] [] false [worker_failure demo_item "timeout"].

Lemma demo_run_finishes :
  rtc (step demo_task) (_bounded_results [demo_item] 2 true false) demo_finished.
Proof.
  eapply rtc_l; [apply (fill demo_task _ 1 None); reflexivity|].
  eapply rtc_l; [apply (fill demo_task _ 0 None); reflexivity|].
  eapply rtc_l; [apply (wait_some demo_task _ [demo_item]); [reflexivity|discriminate|apply NoDup_singleton|set_solver]|].
  eapply rtc_l; [eapply (drain demo_task); [reflexivity|by left]|].
  eapply rtc_l; [apply (drained demo_task) with (n := 1); reflexivity|].
  eapply rtc_l; [apply (refill demo_task _ 0 None); reflexivity|].
  eapply rtc_l; [apply (wait_none demo_task); reflexivity|]. apply rtc_refl.
Qed.

Lemma bounded_results_terminates_witness :
  Acc (λ s2 s1, step demo_task s1 s2) (_bounded_results [demo_item] 2 true false).
Proof.
  apply (bounded_results_terminates demo_task [demo_item] 2 true false (NoDup_singleton _)).
  - intros item. exists (worker_failure item "timeout"). reflexivity.
  - apply rtc_refl.
Defined.

Lemma bounded_results_complete_witness :
  ∃ done, Forall2 (result_of demo_task) done (yielded demo_finished) ∧ done ≡ₚ [demo_item].
Proof.
  destruct (bounded_results_complete demo_task [demo_item] 2 true false (NoDup_singleton _)
    demo_finished demo_run_finishes) as [_ H].
  destruct (H eq_refl) as (done & Hf & _ & Hp). exists done. split; [exact Hf|apply Hp; reflexivity].
Defined.
