(* ===== verification/Coordinator.v ===== *)
(** * Processing the chunks of a run: [document_inventory/coordinator.py]

    Each chunk is reused if its committed attempt is valid, retried if some of its outcomes
    may be retried and the caller asks for it, and recomputed otherwise.  Results are
    recorded one by one in the chunk's progress journal; a complete journal is exported to
    the attempt's files, which are then finalized.  A chunk is its directory of attempts and
    its directory of journals. *)
From S2P Require Import Prelude Serialization PyJson Durable.
From S2P Require Import ParquetWriter WorkOrder RunManifest Outcomes.
From S2P Require Import Checkpoint Progress Scheduler.

Record ChunkOutcome := mkChunkOutcome {
  co_chunk_id : string;
  co_attempt_id : string;
  resumed : bool;
  outcome_count : Z;
  entry_count : Z;
  refusal_count : Z;
}.

Record chunk_state := mkChunkState { checkpoint : chunk_dir; journal : progress_dir }.
Definition no_chunk : chunk_state := mkChunkState (mkChunkDir NoFile ∅) (mkProgressDir NoFile ∅).

(** The chunks of a run by chunk ID. *)
Abbreviation run_chunks := (gmap string chunk_state).

(** ** Parts of a chunk *)

Definition on_checkpoint {A} : io chunk_dir A → io chunk_state A :=
  zoom checkpoint (λ d s, mkChunkState d (journal s)).
Definition on_journal {A} : io progress_dir A → io chunk_state A :=
  zoom journal (λ d s, mkChunkState (checkpoint s) d).

(** The two files of an attempt, worked on by a writers object. *)
Definition desk_at (attempt_id : string) (w : attempt_writers) (d : chunk_dir) : desk :=
  mkDesk (outcomes_file (attempt_at d attempt_id)) (entries_file (attempt_at d attempt_id)) w.
Definition put_desk (attempt_id : string) (k : desk) (d : chunk_dir) : chunk_dir :=
  set_attempt attempt_id
    (mkAttempt (outcomes_disk k) (entries_disk k) (manifest_file (attempt_at d attempt_id))) d.
Definition on_desk {A} (attempt_id : string) (w : attempt_writers) : io desk A → io chunk_dir A :=
  zoom (desk_at attempt_id w) (put_desk attempt_id).

(** The open journal of an attempt. *)
Definition tables_at (d : progress_dir) (attempt_id : string) : tables :=
  match databases d !! attempt_id with
  | Some (Database t) => t
  | _ => mkTables [] ∅ [] ∅
  end.
Definition on_tables {A} (attempt_id : string) : io tables A → io chunk_state A := λ m,
  on_journal (zoom (λ d, tables_at d attempt_id) (λ t, set_database attempt_id (Database t)) m).

(** [urls]: the last member with an accession gives its URL. *)
Definition _url_index (members : list IndexWorkItem) : gmap string string :=
  foldl (λ urls item, <[wi_accession item := wi_index_url item]> urls) ∅ members.
Definition _membership_of (members : list IndexWorkItem) : list string := wi_accession <$> members.

Definition record_result (urls : gmap string string) (r : worker_result) : io tables unit :=
  (index_url <- read (λ _, require (urls !! result_accession r) (KeyError (result_accession r)));
   λ t, match record t r index_url with
        | (t', Ok _) => ([t'], Ok ())
        | (_, Err e) => ([], Err e)
        end)%io.

(** The members whose accessions are missing from the journal. *)
Definition still_missing (missing : list string) (members : list IndexWorkItem) : list IndexWorkItem :=
  filter (λ item, wi_accession item ∈ missing) members.

Section coordinator.
Context (sha256_hexdigest : string → string) (file_sha256 : ∀ A, parquet A → string).
Context (arrow_reader : ∀ A, list A → list (list A)).
Abbreviation finalize_attempt := (finalize_attempt sha256_hexdigest file_sha256).
Abbreviation validate_committed_chunk := (validate_committed_chunk sha256_hexdigest file_sha256).
Abbreviation export := (export arrow_reader).

(** What the environment decides while one chunk is processed: the ID and the times it
    provides, and the results the scheduler yields for the items it is given. *)
Record environment := mkEnvironment {
  new_attempt_id : string;
  created_now : string;
  pointed_now : string;
  scheduled : list IndexWorkItem → list worker_result;
}.

Definition _export_progress (run : InventoryRunManifest) (chunk : ChunkIdentity)
    (members : list IndexWorkItem) (attempt_id : string) (t : tables) (env : environment) :
    io chunk_dir ChunkOutcome :=
  (w <- read (λ _, AttemptWriters (chunk_id chunk) attempt_id);
   _ <- on_desk attempt_id w (finally (export t) close);
   m <- finalize_attempt (chunk_id chunk) attempt_id (_membership_of members) run
          (created_now env) (pointed_now env);
   ret_io (mkChunkOutcome (chunk_id chunk) attempt_id false (outcomes_rows m) (entries_rows m)
             (Z.of_nat (counts t).1.2)))%io.

(** From the first [completed_accessions] to the export, shared by the two drivers. *)
Definition complete_chunk (run : InventoryRunManifest) (chunk : ChunkIdentity)
    (members : list IndexWorkItem) (attempt_id : string) (env : environment) :
    io chunk_state (option ChunkOutcome) :=
  (missing <- on_tables attempt_id (read (λ t, completed_accessions t (_membership_of members)));
   _ <- on_tables attempt_id
     (each (record_result (_url_index members)) (scheduled env (still_missing missing members)));
   missing <- on_tables attempt_id (read (λ t, completed_accessions t (_membership_of members)));
   match missing with
   | [] =>
       t <- on_tables attempt_id (read Ok);
       outcome <- on_checkpoint (_export_progress run chunk members attempt_id t env);
       ret_io (Some outcome)
   | _ => ret_io None
   end)%io.

Definition _process_chunk_fresh (run : InventoryRunManifest) (chunk : ChunkIdentity)
    (members : list IndexWorkItem) (force_new_progress : bool) (env : environment) :
    io chunk_state (option ChunkOutcome) :=
  (attempt_id <- on_journal (open_progress chunk run (mkPurpose "fresh" None) force_new_progress
                               (new_attempt_id env));
   complete_chunk run chunk members attempt_id env)%io.

(** The two files of the attempt that is carried from. *)
Definition source_files (d : chunk_dir) (chunk_id attempt_id : string) :
    result (list outcome * list InventoryEntry) :=
  id ← attempt_dir chunk_id attempt_id;
  outcomes ← require (final (outcomes_file (attempt_at d id))) FileNotFoundError;
  entries ← require (final (entries_file (attempt_at d id))) FileNotFoundError;
  Ok (prows outcomes, prows entries).

Definition _process_chunk_retry (run : InventoryRunManifest) (chunk : ChunkIdentity)
    (members : list IndexWorkItem) (prior_attempt_id : string) (env : environment) :
    io chunk_state (option ChunkOutcome) :=
  (attempt_id <- on_journal (open_progress chunk run (mkPurpose "retry" (Some prior_attempt_id)) false
                               (new_attempt_id env));
   source <- read (λ s, source_files (checkpoint s) (chunk_id chunk) prior_attempt_id);
   _ <- on_tables attempt_id (seed_carry source.1 source.2);
   complete_chunk run chunk members attempt_id env)%io.

(** ** The decision about a chunk *)

Definition _reuse_outcome (chunk_id attempt_id : string) (m : AttemptManifest)
    (refusal_count : nat) : ChunkOutcome :=
  mkChunkOutcome chunk_id attempt_id true (outcomes_rows m) (entries_rows m) (Z.of_nat refusal_count).

(** [status_counts[status] = status_counts.get(status, 0) + 1] *)
Fixpoint count_status (status : string) (counts : list (string * nat)) : list (string * nat) :=
  match counts with
  | [] => [(status, 1)]
  | (s, n) :: counts => if String.eqb s status then (s, S n) :: counts else (s, n) :: count_status status counts
  end.

Definition _decide_chunk (s : chunk_state) (run : InventoryRunManifest) (chunk : ChunkIdentity)
    (retry_failures : bool) :
    result (string * option string * option ChunkOutcome * list (string * nat)) :=
  validation ← validate_committed_chunk (checkpoint s) (chunk_id chunk) run chunk;
  let recompute :=
    Ok (match pointer (checkpoint s) with NoFile => "fresh" | _ => "fresh_reset" end, None, None, []) in
  match validation with
  | mkValidation true (Some attempt_id) _ (Some m) =>
      if bool_decide (attempt_id = "") then recompute
      else
        outcomes ← require (final (outcomes_file (attempt_at (checkpoint s) attempt_id))) FileNotFoundError;
        let rows := prows outcomes in
        let status_counts := foldl (λ counts row, count_status (o_status row) counts) [] rows in
        let retry_count := length (filter (λ row, retryable row = true) rows) in
        let refusal_count := length (filter (λ row, refusal row = true) rows) in
        if negb (retry_count =? 0)%nat && retry_failures
        then Ok ("retry", Some attempt_id, None, status_counts)
        else Ok ("skip", None, Some (_reuse_outcome (chunk_id chunk) attempt_id m refusal_count),
                 status_counts)
  | _ => recompute
  end.

(** ** Summaries *)

Definition MAX_SUMMARY_CHUNKS : nat := 128.

Record RunSummary := mkSummary {
  rs_run_id : string;
  chunks : list ChunkOutcome;
  resumed_count : Z;
  committed_count : Z;
  rs_refusal_count : Z;
  chunk_count : Z;
  chunks_truncated : bool;
  cancelled : bool;
}.
Definition status (r : RunSummary) : string := if cancelled r then "cancelled" else "completed".

(** [_RunSummaryCollector]: the counters of a summary being collected. *)
Definition collector (run_id : string) : RunSummary := mkSummary run_id [] 0 0 0 0 false false.
Definition collect (c : RunSummary) (o : ChunkOutcome) : RunSummary :=
  mkSummary (rs_run_id c)
    (if (length (chunks c) <? MAX_SUMMARY_CHUNKS)%nat then chunks c ++ [o] else chunks c)
    (resumed_count c + Z.b2z (resumed o)) (committed_count c + Z.b2z (negb (resumed o)))
    (rs_refusal_count c + refusal_count o) (chunk_count c + 1) (chunks_truncated c) (cancelled c).
Definition finish (c : RunSummary) : RunSummary :=
  mkSummary (rs_run_id c) (chunks c) (resumed_count c) (committed_count c) (rs_refusal_count c)
    (chunk_count c) (Z.of_nat (length (chunks c)) <? chunk_count c)%Z (cancelled c).

(** ** The run *)

Definition on_chunk {A} (chunk_id : string) : io chunk_state A → io run_chunks A :=
  zoom (λ r, default no_chunk (r !! chunk_id)) (λ s, <[chunk_id := s]>).

Definition decide_and_process (manifest : InventoryRunManifest) (retry_failures : bool)
    (chunk : ChunkIdentity) (members : list IndexWorkItem) (env : environment) :
    io chunk_state (option ChunkOutcome) :=
  (decision <- read (λ s, _decide_chunk s manifest chunk retry_failures);
   match decision with
   | (_, _, Some ready, _) => ret_io (Some ready)
   | (mode, prior_id, None, _) =>
       match prior_id with
       | Some prior_id =>
           if String.eqb mode "retry"
           then _process_chunk_retry manifest chunk members prior_id env
           else _process_chunk_fresh manifest chunk members (String.eqb mode "fresh_reset") env
       | None => _process_chunk_fresh manifest chunk members (String.eqb mode "fresh_reset") env
       end
   end)%io.

(** One iteration of the loop of [_run_pending]: [None] breaks it. *)
Definition process_chunk (manifest : InventoryRunManifest) (retry_failures : bool)
    (chunk : ChunkIdentity) (members : list IndexWorkItem) (env : environment) :
    io run_chunks (option ChunkOutcome) :=
  on_chunk (chunk_id chunk) (decide_and_process manifest retry_failures chunk members env).

(** The boolean tells, for each chunk, whether a stop is requested when the loop reaches it. *)
Fixpoint run_loop (manifest : InventoryRunManifest) (retry_failures : bool)
    (pending : list (ChunkIdentity * list IndexWorkItem * (bool * environment)))
    (summary : RunSummary) : io run_chunks RunSummary :=
  match pending with
  | [] => ret_io summary
  | (chunk, members, (stopped, env)) :: pending =>
      if stopped then ret_io summary
      else
        (outcome <- process_chunk manifest retry_failures chunk members env;
         match outcome with
         | None => ret_io summary
         | Some outcome => run_loop manifest retry_failures pending (collect summary outcome)
         end)%io
  end.

Definition _run_pending (manifest : InventoryRunManifest) (retry_failures : bool)
    (pending : list (ChunkIdentity * list IndexWorkItem * (bool * environment)))
    (stop_requested : bool) : io run_chunks RunSummary :=
  (summary <- run_loop manifest retry_failures pending (collector (run_id manifest));
   let s := finish summary in
   ret_io (mkSummary (rs_run_id s) (chunks s) (resumed_count s) (committed_count s)
             (rs_refusal_count s) (chunk_count s) (chunks_truncated s) stop_requested))%io.
End coordinator.

(** ** The environment of a chunk *)

(** What parsing guarantees of a result: entries of its own accession, numbers that fit. *)
Definition good_result (r : worker_result) : Prop :=
  own_entries (result_accession r) (entry_rows r) ∧
  ∀ url, all_fit (outcome_row r url None) (entry_rows r) = true.

Lemma worker_failure_good item detail : good_result (worker_failure item detail).
Proof. split; [by intros e He%elem_of_nil|done]. Qed.

(** The results of a scheduler that has finished without a stop. *)
Definition finished_run (run_task : IndexWorkItem → worker_result → Prop) (workers : nat)
    (pool : bool) (items : list IndexWorkItem) (results : list worker_result) : Prop :=
  ∃ s, rtc (Scheduler.step run_task) (_bounded_results items workers pool false) s ∧
       at_phase s = Finished ∧ stop_requested s = false ∧ yielded s = results.

Definition task_ok (run_task : IndexWorkItem → worker_result → Prop) : Prop :=
  ∀ item r, run_task item r → result_accession r = wi_accession item ∧ good_result r.

(** Such results are exactly one good result for every item. *)
Lemma finished_run_results run_task workers pool items results :
  task_ok run_task → NoDup items → finished_run run_task workers pool items results →
  result_accession <$> results ≡ₚ wi_accession <$> items ∧ Forall good_result results.
Proof.
  intros Htask Hnd (s & Hs & Hf & Hst & <-).
  apply (reachable_accounted run_task items workers pool false Hnd) in Hs as [_ Hl (done & Hres & _ & Hperm)].
  specialize (Hl Hst). specialize (Hperm Hst). unfold live in Hl. rewrite Hf in Hl.
  destruct Hl as [Hi Hsrc].
  rewrite Hi, Hsrc, !app_nil_r in Hperm. rewrite <- Hperm.
  clear -Hres Htask. induction Hres as [|item r done results Hr _ [IH1 IH2]]; [done|].
  assert (Hok : result_accession r = wi_accession item ∧ good_result r).
  { destruct Hr as [Hr|[detail ->]]; [by apply Htask|]. split; [done|apply worker_failure_good]. }
  destruct Hok as [Ha Hg]. split; [|by constructor]. rewrite !fmap_cons, Ha. by constructor.
Qed.

(** ** Recording the results *)

Definition stored_pair (urls : gmap string string) (r : worker_result) :
    outcome * list InventoryEntry :=
  (outcome_row r (default "" (urls !! result_accession r)) None, entry_rows r).

Lemma accessions_of_results urls rs :
  accessions_of (stored_pair urls <$> rs) = result_accession <$> rs.
Proof.
  unfold accessions_of. rewrite <- list_fmap_compose. apply list_fmap_ext. intros i r _.
  apply outcome_row_accession.
Qed.
Lemma own_results urls rs : Forall good_result rs → Forall own_pair (stored_pair urls <$> rs).
Proof.
  intros H. apply Forall_fmap. eapply Forall_impl; [exact H|]. intros r [Hown _].
  unfold own_pair. simpl. by rewrite outcome_row_accession.
Qed.

Lemma record_result_eq urls r t url :
  consistent t → good_result r → urls !! result_accession r = Some url →
  result_accession r ∉ completed t →
  record_result urls r t =
    ([recorded t (stored_pair urls r).1 (stored_pair urls r).2], Ok ()).
Proof.
  intros Ht [_ Hfit] Hurl Hnew. unfold record_result, bind_io, read, stored_pair. rewrite Hurl. simpl.
  unfold record, transaction.
  rewrite (proj2 (insert_accession_Ok _ _ _ (recorded t (outcome_row r url None) (entry_rows r)))); [done|].
  rewrite outcome_row_accession. split_and!; [apply Hfit| |done..]. by apply consistent_new.
Qed.

Lemma record_results urls rs t :
  consistent t → Forall good_result rs → NoDup (result_accession <$> rs) →
  (∀ r, r ∈ rs → is_Some (urls !! result_accession r) ∧ result_accession r ∉ completed t) →
  runs (each (record_result urls) rs) t (λ _ t', t' = store_all t (stored_pair urls <$> rs)).
Proof.
  revert t; induction rs as [|r rs IH]; intros t Ht Hg Hnd Hr; [by apply runs_ret|].
  rewrite fmap_cons in Hnd. apply NoDup_cons in Hnd as [Hn Hnd]. apply Forall_cons in Hg as [Hgr Hg].
  destruct (Hr r) as [[url Hurl] Hnew]; [by left|].
  simpl. eapply runs_bind.
  { exists (). unfold outcome_of, final_state. rewrite (record_result_eq urls r t url) by done.
    split; [done|]. instantiate (1 := λ _ t', t' = recorded t (stored_pair urls r).1 (stored_pair urls r).2).
    done. }
  intros _ _ ->. apply IH; [|done..|].
  - apply consistent_recorded; [done|]. simpl. rewrite outcome_row_accession. apply Hgr.
  - intros r' Hr'. destruct (Hr r') as [Hu Hc]; [by right|]. split; [done|]. simpl.
    rewrite outcome_row_accession. apply not_elem_of_union. split; [|done].
    apply not_elem_of_singleton. intros He. apply Hn. rewrite <- He. by apply list_elem_of_fmap_2.
Qed.

Lemma url_index_is_Some members a : a ∈ wi_accession <$> members → is_Some (_url_index members !! a).
Proof.
  unfold _url_index. assert (∀ urls : gmap string string, is_Some (urls !! a) ∨ a ∈ wi_accession <$> members →
    is_Some (foldl (λ urls item, <[wi_accession item := wi_index_url item]> urls) urls members !! a)); [|by auto].
  induction members as [|item members IH]; intros urls H; simpl; [by destruct H as [|[]%elem_of_nil]|].
  apply IH. destruct (decide (wi_accession item = a)) as [<-|Hne].
  - left. by rewrite lookup_insert_eq.
  - rewrite lookup_insert_ne by done. destruct H as [|[]%elem_of_cons]; [by left|by subst|by right].
Qed.

Section chunk_theorems.
Context (sha256_hexdigest : string → string) (file_sha256 : ∀ A, parquet A → string).
Context (arrow_reader : ∀ A, list A → list (list A)).
Abbreviation finalize_attempt := (finalize_attempt sha256_hexdigest file_sha256).
Abbreviation check_attempt := (check_attempt sha256_hexdigest file_sha256).
Abbreviation validate_committed_chunk := (validate_committed_chunk sha256_hexdigest file_sha256).
Abbreviation export := (export arrow_reader).
Abbreviation _export_progress := (_export_progress sha256_hexdigest file_sha256 arrow_reader).
Abbreviation complete_chunk := (complete_chunk sha256_hexdigest file_sha256 arrow_reader).
Abbreviation _process_chunk_fresh := (_process_chunk_fresh sha256_hexdigest file_sha256 arrow_reader).
Abbreviation _process_chunk_retry := (_process_chunk_retry sha256_hexdigest file_sha256 arrow_reader).
Context (run : InventoryRunManifest) (chunk : ChunkIdentity) (members : list IndexWorkItem).

(** The chunk identity is that of the members. *)
Definition identifies_members : Prop :=
  chunk_membership_digest chunk = membership_digest sha256_hexdigest (_membership_of members) ∧
  membership_count chunk = length (_membership_of members).

(** The chunk is committed: a resume would accept it. *)
Definition accepted (d : chunk_dir) : Prop :=
  ∃ v, validate_committed_chunk d (chunk_id chunk) run chunk = Ok v ∧ valid v = true.

Lemma accepted_ext d d' :
  pointer d = pointer d' →
  (∀ id, pointed_attempt d = Some id → attempt_at d id = attempt_at d' id) →
  accepted d → accepted d'.
Proof.
  intros Hp Ha (v & Hv & Hval). exists v. split; [|done]. rewrite <- Hv. symmetry.
  by apply validate_committed_chunk_ext.
Qed.

Lemma accepted_committed d id created_at pointed_at m :
  identifies_members →
  check_attempt d (chunk_id chunk) id (_membership_of members) run created_at = Ok m →
  validate_committed_chunk (committed m (chunk_id chunk) pointed_at d) (chunk_id chunk) run chunk =
    Ok (mkValidation true (Some id) "" (Some m)).
Proof.
  intros [Hdig Hcount] Hm.
  pose proof (finalized_attempt_is_valid sha256_hexdigest file_sha256 d (chunk_id chunk) id
    (_membership_of members) run created_at pointed_at m chunk Hdig Hcount) as H.
  unfold outcome_of, final_state in H. rewrite finalize_attempt_trace, Hm in H. by apply H.
Qed.

(** ** A commit is not lost while another attempt is made *)

Lemma attempt_at_put_desk id id' k d :
  id' ≠ id → attempt_at (put_desk id k d) id' = attempt_at d id'.
Proof. intros Hne. unfold put_desk, set_attempt, attempt_at. simpl. by rewrite lookup_insert_ne. Qed.

Lemma export_keeps_commit id t env d :
  identifies_members → pointed_attempt d ≠ Some id → accepted d →
  always accepted (_export_progress run chunk members id t env) d.
Proof.
  intros Hm Hp Hd. unfold _export_progress. apply always_bind; [apply always_read|]. intros w _.
  change (final_state _ d) with d.
  assert (Hput : ∀ k, accepted (put_desk id k d) ∧ pointed_attempt (put_desk id k d) ≠ Some id).
  { intros k. split; [|done]. apply (accepted_ext d); [done| |done].
    intros id' Hid'. symmetry. apply attempt_at_put_desk. congruence. }
  assert (Hdesk : always (λ d', accepted d' ∧ pointed_attempt d' ≠ Some id)
    (on_desk id w (finally (export t) close)) d).
  { apply always_zoom, Forall_true. intros k. apply Hput. }
  apply always_bind; [by eapply always_mono; [|exact Hdesk]; intros ? []|]. intros [] _.
  apply final_state_always in Hdesk as [Hd' Hp']; [|done].
  set (d' := final_state (on_desk id w (finally (export t) close)) d) in *. clearbody d'. clear d Hd Hp w Hput.
  apply always_bind; [|intros m _; apply always_ret].
  unfold always. rewrite finalize_attempt_trace. destruct (check_attempt _ _ _ _ _ _) as [m|] eqn:E; [|constructor].
  apply Forall_cons_2; [|apply Forall_singleton].
  - apply (accepted_ext d'); [done| |done]. intros id' Hid'. rewrite attempt_at_with_manifest, decide_False; [done|].
    apply check_attempt_Ok in E as (-> & _). congruence.
  - eexists. split; [by eapply accepted_committed|done].
Qed.

(** Work on the journal leaves the attempts alone. *)
Lemma on_journal_keeps {A} (P : chunk_dir → Prop) (m : io progress_dir A) s :
  P (checkpoint s) → always (λ s', P (checkpoint s')) (on_journal m) s.
Proof. intros H. apply always_zoom, Forall_true. done. Qed.

Lemma complete_chunk_keeps_commit id env s d :
  identifies_members → pointed_attempt d ≠ Some id → accepted d → checkpoint s = d →
  always (λ s', accepted (checkpoint s')) (complete_chunk run chunk members id env) s.
Proof.
  intros Hm Hp Hd Hs.
  assert (Hstep : ∀ A B (m : io tables A) (k : A → io chunk_state B) s, checkpoint s = d →
    (∀ a s', checkpoint s' = d → always (λ s', accepted (checkpoint s')) (k a) s') →
    always (λ s', accepted (checkpoint s')) (bind_io (on_tables id m) k) s).
  { intros A B m k s0 Hs0 Hk.
    assert (Hj : always (λ s', checkpoint s' = d) (on_tables id m) s0)
      by (by apply (on_journal_keeps (λ c, c = d))).
    apply always_bind.
    - eapply always_mono; [|exact Hj]. by intros s' ->.
    - intros a _. apply Hk. by apply (final_state_always (λ s', checkpoint s' = d)). }
  unfold complete_chunk. do 3 (apply Hstep; [done|]; clear s Hs; intros ? s Hs).
  destruct a1 as [|x missing]; [|apply always_ret].
  apply Hstep; [done|]. clear s Hs. intros t s Hs.
  apply always_bind; [|intros o _; apply always_ret].
  apply always_zoom. simpl. rewrite Hs. by apply export_keeps_commit.
Qed.

(** C4: a retry never loses the commit it starts from.  Whatever results it records and
    wherever it stops, raises or is killed, a resume accepts the chunk: the old attempt
    until the last write, the new one after it. *)
Theorem retry_keeps_chunk_committed prior env s :
  identifies_members → journals_ok (journal s) →
  _validate_id (chunk_id chunk) = Ok (chunk_id chunk) →
  _validate_id (new_attempt_id env) = Ok (new_attempt_id env) →
  databases (journal s) !! new_attempt_id env = None → new_attempt_id env ≠ prior →
  accepted (checkpoint s) → pointed_attempt (checkpoint s) = Some prior →
  always (λ s', accepted (checkpoint s')) (_process_chunk_retry run chunk members prior env) s.
Proof.
  intros Hm Hj Hc Hn Hfresh Hne Hd Hp. unfold _process_chunk_retry.
  set (p := mkPurpose "retry" (Some prior)).
  assert (Hsrc : source_attempt_id p ≠ Some (new_attempt_id env)) by (simpl; congruence).
  apply always_bind; [by apply (on_journal_keeps accepted)|]. intros id Hid.
  assert (Hnot : pointed_attempt (checkpoint s) ≠ Some id).
  { unfold on_journal in Hid. rewrite outcome_of_zoom in Hid.
    destruct (open_progress_opens (journal s) chunk run p false (new_attempt_id env) Hj Hc Hn Hfresh Hsrc)
      as [(id' & Hid' & Hs & _) _].
    assert (id = id') as -> by congruence. simpl in Hs. congruence. }
  assert (Hs' : checkpoint (final_state (on_journal (open_progress chunk run p false (new_attempt_id env))) s)
    = checkpoint s).
  { apply (final_state_always (λ s', checkpoint s' = checkpoint s)); [done|].
    by apply (on_journal_keeps (λ c, c = checkpoint s)). }
  revert Hs'. generalize (final_state (on_journal (open_progress chunk run p false (new_attempt_id env))) s).
  intros s1 Hs1. apply always_bind; [apply always_read|]. intros [rows entries] _.
  change (final_state _ s1) with s1.
  assert (Hkeep : always (λ s', checkpoint s' = checkpoint s) (on_tables id (seed_carry rows entries)) s1)
    by (by apply (on_journal_keeps (λ c, c = checkpoint s))).
  apply always_bind; [eapply always_mono; [|exact Hkeep]; by intros ? ->|]. intros [] _.
  eapply complete_chunk_keeps_commit; [done|exact Hnot|done|].
  by apply (final_state_always (λ s', checkpoint s' = checkpoint s)).
Qed.

(** ** A finished chunk is committed *)

Context (batches_join : ∀ A (l : list A), mjoin (arrow_reader A l) = l).

(** No stage was left in the attempt's directory that a new export would not truncate: that
    of the entries, which an attempt may have none of, and, of a chunk without members, that
    of the outcomes. *)
Definition clean (d : chunk_dir) (id : string) : Prop :=
  (members = [] → tmp (outcomes_file (attempt_at d id)) = None) ∧
  tmp (entries_file (attempt_at d id)) = None.

(** The files of attempt [id] are these rows. *)
Definition attempt_holds (d : chunk_dir) (id : string) (outcomes : list outcome)
    (entries : list InventoryEntry) : Prop :=
  final (outcomes_file (attempt_at d id)) = Some (mkParquet OUTCOME_SCHEMA outcomes) ∧
  final (entries_file (attempt_at d id)) = Some (mkParquet ENTRY_SCHEMA entries).

Definition refusals (rows : list outcome) : nat := length (filter (λ row, refusal row = true) rows).

Lemma counts_refusals t : (counts t).1.2 = refusals (outcomes_query t).
Proof.
  unfold counts, refusals. simpl. rewrite outcomes_query_Permutation. f_equal.
  apply list_filter_iff. intros row. unfold refusal. rewrite bool_decide_eq_true. set_solver.
Qed.

Lemma export_commits id t env d :
  identifies_members → attempt_dir (chunk_id chunk) id = Ok id → clean d id →
  covers (outcomes_query t) (entries_query t) (_membership_of members) →
  runs (_export_progress run chunk members id t env) d (λ out d',
    attempt_holds d' id (outcomes_query t) (entries_query t) ∧
    out = mkChunkOutcome (chunk_id chunk) id false (Z.of_nat (length (outcomes_query t)))
            (Z.of_nat (length (entries_query t))) (Z.of_nat (refusals (outcomes_query t))) ∧
    ∃ m, validate_committed_chunk d' (chunk_id chunk) run chunk =
         Ok (mkValidation true (Some id) "" (Some m))).
Proof.
  intros Hm Hdir [Hto Hte] Hcov. unfold _export_progress.
  set (w := mkWriters (StagedParquetWriter OUTCOME_SCHEMA None) (StagedParquetWriter ENTRY_SCHEMA None)
    [] [] false).
  apply (runs_bind _ _ _ (λ a d', a = w ∧ d' = d)).
  { apply (runs_read _ _ w); [|done]. unfold AttemptWriters. by rewrite Hdir. }
  intros _ _ [-> ->].
  apply (runs_bind _ _ _ (λ _ d', attempt_holds d' id (outcomes_query t) (entries_query t))).
  { apply runs_zoom_lazy.
    eapply runs_finally; [apply (export_given arrow_reader batches_join
      (tmp (outcomes_file (attempt_at d id))) None t)|].
    { by apply given_new. }
    assert (Hsome : outcomes_query t ≠ [] ∨ tmp (outcomes_file (attempt_at d id)) = None).
    { destruct members as [|item items]; [right; by apply Hto|]. left. intros He.
      destruct Hcov as (_ & Hin & _). specialize (Hin (wi_accession item)). rewrite He in Hin.
      apply not_elem_of_nil with (wi_accession item). apply Hin. by left. }
    intros [] k Hk. eapply runs_mono; [eapply close_given; [exact Hk|exact Hsome|by right]|].
    intros [] k' [Ho He]. split.
    - unfold attempt_holds, put_desk, set_attempt, attempt_at. simpl. rewrite lookup_insert_eq. simpl.
      by rewrite Ho, He.
    - intros ->. unfold desk_at in Ho, He. simpl in Ho, He. unfold attempt_holds. by rewrite Ho, He. }
  intros [] d1 [Ho He].
  assert (∃ m, check_attempt d1 (chunk_id chunk) id (_membership_of members) run (created_now env) = Ok m ∧
    outcomes_rows m = Z.of_nat (length (outcomes_query t)) ∧
    entries_rows m = Z.of_nat (length (entries_query t))) as (m & Hok & Hor & Her).
  { unfold Checkpoint.check_attempt. rewrite Hdir. cbn [mbind result_bind]. rewrite Ho. cbn [require mbind result_bind].
    rewrite bool_decide_true by done. cbn [negb raise_if mbind result_bind]. rewrite He.
    cbn [require mbind result_bind]. rewrite bool_decide_true by done. cbn [negb raise_if mbind result_bind].
    rewrite (proj2 (validate_membership_Ok _ _ _ ())); [|by rewrite covers_Permutation; [exact Hcov|apply merge_sort_Permutation]].
    eexists. split; [reflexivity|]. done. }
  apply (runs_bind _ _ _ (λ a d', a = m ∧ d' = committed m (chunk_id chunk) (pointed_now env) d1)).
  { exists m. unfold outcome_of, final_state. by rewrite finalize_attempt_trace, Hok. }
  intros _ _ [-> ->]. apply runs_ret. split_and!.
  - unfold attempt_holds, committed. change (attempt_at (set_pointer _ ?d) id) with (attempt_at d id).
    rewrite attempt_at_with_manifest. by case_decide.
  - by rewrite Hor, Her, counts_refusals.
  - exists m. by apply (accepted_committed d1 id (created_now env)).
Qed.

Lemma runs_on_tables {A} id (m : io tables A) s t Q :
  databases (journal s) !! id = Some (Database t) → runs m t Q →
  runs (on_tables id m) s (λ a s', ∃ t', Q a t' ∧
    databases (journal s') !! id = Some (Database t') ∧ checkpoint s' = checkpoint s).
Proof.
  intros Hdb Hm. unfold on_tables, on_journal.
  assert (Ht : tables_at (journal s) id = t) by (unfold tables_at; by rewrite Hdb).
  apply runs_zoom_lazy, runs_zoom_lazy. simpl. rewrite Ht. eapply runs_mono; [exact Hm|].
  intros a t' HQ. simpl. split_and!.
  - exists t'. split_and!; [done|apply lookup_insert_eq|done].
  - intros Heq. exists t'. split_and!; [done| |done].
    apply (f_equal (λ d, databases d !! id)) in Heq. simpl in Heq. by rewrite lookup_insert_eq in Heq.
  - intros ->. split; [by exists t|]. intros _. by exists t.
Qed.

Lemma still_missing_accessions t missing :
  completed_accessions t (_membership_of members) = Ok missing →
  ∀ a, a ∈ wi_accession <$> still_missing missing members ↔ a ∈ _membership_of members ∧ a ∉ completed t.
Proof.
  intros (_ & _ & ->)%completed_accessions_Ok a. unfold still_missing, _membership_of.
  rewrite !list_elem_of_fmap. setoid_rewrite list_elem_of_filter.
  setoid_rewrite merge_sort_Permutation. setoid_rewrite list_elem_of_filter.
  setoid_rewrite list_elem_of_fmap. naive_solver.
Qed.

(** The scheduler's results for whatever items it is given: one good result each. *)
Definition complete_results (env : environment) : Prop :=
  ∀ items, NoDup items → items ⊆+ members →
    result_accession <$> scheduled env items ≡ₚ wi_accession <$> items ∧
    Forall good_result (scheduled env items).

(** The journal once every missing member has been processed. *)
Definition finished_journal (t : tables) (env : environment) : tables :=
  let missing := merge_sort String.le (filter (λ a, a ∉ completed t) (_membership_of members)) in
  store_all t (stored_pair (_url_index members) <$> scheduled env (still_missing missing members)).

Definition within_members (t : tables) : Prop :=
  consistent t ∧ ∀ a, a ∈ completed t → a ∈ _membership_of members.

Lemma completed_accessions_within t :
  within_members t →
  completed_accessions t (_membership_of members) =
  Ok (merge_sort String.le (filter (λ a, a ∉ completed t) (_membership_of members))).
Proof.
  intros [Ht Hin]. apply completed_accessions_Ok.
  split_and!; [|by intros e He; apply Hin, entries_completed|done].
  intros a Ha. apply Hin. rewrite (completed_all t Ht). by apply elem_of_dom.
Qed.

(** What the scheduler is given and yields for a journal. *)
Definition missing_of (t : tables) : list string :=
  merge_sort String.le (filter (λ a, a ∉ completed t) (_membership_of members)).
Definition results_of (t : tables) (env : environment) : list worker_result :=
  scheduled env (still_missing (missing_of t) members).

Lemma results_ok t env :
  within_members t → NoDup (_membership_of members) → complete_results env →
  Forall good_result (results_of t env) ∧ NoDup (result_accession <$> results_of t env) ∧
  ∀ a, a ∈ result_accession <$> results_of t env ↔ a ∈ _membership_of members ∧ a ∉ completed t.
Proof.
  intros Ht Hnd Hres.
  pose proof (still_missing_accessions t _ (completed_accessions_within t Ht)) as Hpend.
  destruct (Hres (still_missing (missing_of t) members)) as [Hacc Hgood].
  { apply NoDup_filter. eapply NoDup_fmap_1, Hnd. }
  { apply sublist_submseteq, sublist_filter. }
  unfold results_of. split_and!; [done| |].
  - rewrite Hacc. eapply sublist_NoDup; [exact Hnd|]. apply fmap_sublist, sublist_filter.
  - intros a. rewrite Hacc. apply Hpend.
Qed.

Lemma finished_journal_ok t env :
  within_members t → NoDup (_membership_of members) → complete_results env →
  let t' := finished_journal t env in
  within_members t' ∧ completed_accessions t' (_membership_of members) = Ok [] ∧
  covers (outcomes_query t') (entries_query t') (_membership_of members).
Proof.
  intros Ht Hnd Hres t'. destruct (results_ok t env Ht Hnd Hres) as (Hgood & Hndrs & Hrs).
  assert (Ht' : consistent t') by (apply store_all_consistent; [apply Ht|by apply own_results]).
  assert (Hcomp : ∀ a, a ∈ completed t' ↔ a ∈ _membership_of members).
  { intros a. unfold t', finished_journal. fold (missing_of t). fold (results_of t env).
    rewrite store_all_completed, accessions_of_results, elem_of_union, elem_of_list_to_set, Hrs.
    destruct Ht as [_ Hin]. destruct (decide (a ∈ completed t)); naive_solver. }
  assert (Hw : within_members t') by (split; [done|]; intros a; apply Hcomp).
  assert (Hdone : completed_accessions t' (_membership_of members) = Ok []).
  { rewrite (completed_accessions_within t' Hw). rewrite list_filter_none; [done|].
    intros a Ha Hn. by apply Hn, Hcomp. }
  split_and!; [done..|]. by apply finished_covers.
Qed.

(** The finished journal holds each result, and otherwise what the journal held. *)
Lemma finished_journal_new t env r :
  within_members t → NoDup (_membership_of members) → complete_results env → r ∈ results_of t env →
  Progress.outcomes (finished_journal t env) !! result_accession r =
    Some (stored_pair (_url_index members) r).1.
Proof.
  intros Ht Hnd Hres Hr. destruct (results_ok t env Ht Hnd Hres) as (Hgood & Hndrs & Hrs).
  pose proof (store_all_stored t _ (stored_pair (_url_index members) r) (proj1 Ht)
    (own_results (_url_index members) _ Hgood)) as Hst.
  simpl in Hst. rewrite outcome_row_accession in Hst. apply Hst.
  - by rewrite accessions_of_results.
  - by apply list_elem_of_fmap_2.
  - apply (Hrs (result_accession r)). by apply list_elem_of_fmap_2.
Qed.

Lemma finished_journal_old t env a :
  within_members t → NoDup (_membership_of members) → complete_results env →
  a ∉ result_accession <$> results_of t env →
  Progress.outcomes (finished_journal t env) !! a = Progress.outcomes t !! a ∧
  filter (λ e, entry_accession e = a) (Progress.entries (finished_journal t env)) =
    filter (λ e, entry_accession e = a) (Progress.entries t).
Proof.
  intros Ht Hnd Hres Ha. destruct (results_ok t env Ht Hnd Hres) as (Hgood & _ & _).
  apply store_all_other; [by apply own_results|by rewrite accessions_of_results].
Qed.

(** The outcomes of a finished journal: those it held and one per new result. *)
Lemma finished_rows t env row :
  within_members t → NoDup (_membership_of members) → complete_results env →
  row ∈ outcomes_query (finished_journal t env) ↔
  Progress.outcomes t !! o_accession row = Some row ∨
  ∃ r, r ∈ results_of t env ∧ row = (stored_pair (_url_index members) r).1.
Proof.
  intros Ht Hnd Hres. destruct (results_ok t env Ht Hnd Hres) as (Hgood & Hndrs & Hrs).
  destruct (finished_journal_ok t env Ht Hnd Hres) as ([Ht' _] & _ & _).
  rewrite elem_of_outcomes_query by done. split.
  - intros Hrow. destruct (decide (o_accession row ∈ result_accession <$> results_of t env)) as [Hin|Hn].
    + right. apply list_elem_of_fmap in Hin as (r & Ha & Hr). exists r. split; [done|].
      pose proof (finished_journal_new t env r Ht Hnd Hres Hr) as Hnew.
      rewrite <- Ha, Hrow in Hnew. by injection Hnew.
    + left. rewrite <- Hrow. symmetry. by apply finished_journal_old.
  - intros [Hrow|(r & Hr & ->)].
    + etrans; [|exact Hrow]. apply finished_journal_old; [done..|]. intros [_ Hn]%Hrs. apply Hn.
      rewrite (completed_all t (proj1 Ht)). by apply elem_of_dom_2 in Hrow.
    + simpl. rewrite outcome_row_accession. by apply finished_journal_new.
Qed.

Lemma complete_chunk_runs id t env s :
  identifies_members → attempt_dir (chunk_id chunk) id = Ok id → clean (checkpoint s) id →
  databases (journal s) !! id = Some (Database t) → within_members t →
  NoDup (_membership_of members) → complete_results env →
  let t' := finished_journal t env in
  runs (complete_chunk run chunk members id env) s (λ o s',
    attempt_holds (checkpoint s') id (outcomes_query t') (entries_query t') ∧
    o = Some (mkChunkOutcome (chunk_id chunk) id false (Z.of_nat (length (outcomes_query t')))
                (Z.of_nat (length (entries_query t'))) (Z.of_nat (refusals (outcomes_query t')))) ∧
    ∃ m, validate_committed_chunk (checkpoint s') (chunk_id chunk) run chunk =
         Ok (mkValidation true (Some id) "" (Some m))).
Proof.
  intros Hm Hdir Hclean Hdb Ht Hnd Hres t'.
  destruct (results_ok t env Ht Hnd Hres) as (Hgood & Hndrs & Hrs).
  destruct (finished_journal_ok t env Ht Hnd Hres) as (_ & Hdone & Hcov). fold t' in Hdone, Hcov.
  unfold complete_chunk.
  eapply runs_bind; [apply (runs_on_tables id _ s t (λ a t0, a = missing_of t ∧ t0 = t) Hdb);
    by apply (runs_read _ _ (missing_of t)); [apply completed_accessions_within|]|].
  intros _ s1 (_ & [-> ->] & Hdb1 & Hs1).
  eapply runs_bind; [apply (runs_on_tables id _ s1 t (λ _ t0, t0 = t') Hdb1)|].
  { apply record_results; [apply Ht|done..|]. intros r Hr.
    apply (list_elem_of_fmap_2 result_accession), Hrs in Hr as [Hr Hn]. split; [|done].
    by apply url_index_is_Some. }
  simpl. intros _ s2 (_ & -> & Hdb2 & Hs2).
  eapply runs_bind; [apply (runs_on_tables id _ s2 t' (λ a t0, a = [] ∧ t0 = t') Hdb2);
    by apply (runs_read _ _ [])|].
  intros _ s3 (_ & [-> ->] & Hdb3 & Hs3).
  eapply runs_bind; [apply (runs_on_tables id _ s3 t' (λ a t0, a = t' ∧ t0 = t') Hdb3);
    by apply (runs_read _ _ t')|].
  intros _ s4 (_ & [-> ->] & _ & Hs4).
  assert (Hs : checkpoint s4 = checkpoint s) by congruence.
  eapply runs_bind.
  { apply runs_zoom_lazy. rewrite Hs.
    eapply runs_mono; [by apply (export_commits id t' env)|]. intros out d Hout.
    instantiate (1 := λ out s', _ out (checkpoint s')). split; [exact Hout|]. simpl.
    intros ->. by rewrite Hs. }
  simpl. intros out s5 (Hh & -> & Hv). by apply runs_ret.
Qed.

(** ** Whole chunks *)

Definition scheduled_by (run_task : IndexWorkItem → worker_result → Prop) (workers : nat)
    (pool : bool) (env : environment) : Prop :=
  ∀ items, NoDup items → finished_run run_task workers pool items (scheduled env items).

Lemma scheduled_complete run_task workers pool env :
  task_ok run_task → scheduled_by run_task workers pool env → complete_results env.
Proof.
  intros Htask Hsched items Hnd _. by eapply finished_run_results; [exact Htask| |apply Hsched].
Qed.

(** The journals of the chunk are consistent and about its members. *)
Definition chunk_ok (s : chunk_state) : Prop :=
  journals_ok (journal s) ∧
  ∀ id t, databases (journal s) !! id = Some (Database t) → within_members t.

(** What the environment provides for a new attempt. *)
Definition fresh_ids (s : chunk_state) (env : environment) : Prop :=
  _validate_id (chunk_id chunk) = Ok (chunk_id chunk) ∧
  _validate_id (new_attempt_id env) = Ok (new_attempt_id env) ∧
  databases (journal s) !! new_attempt_id env = None.

(** The journal an attempt starts from: an interrupted one, or an empty one. *)
Definition starts_from (s : chunk_state) (p : purpose_of) (force_new : bool) (env : environment)
    (id : string) (t : tables) : Prop :=
  if force_new then id = new_attempt_id env ∧ t = _create (metadata chunk run id p)
  else match resumable (journal s) chunk run p with
       | Some id' => id' = id ∧ databases (journal s) !! id = Some (Database t)
       | None => id = new_attempt_id env ∧ t = _create (metadata chunk run id p)
       end.

Lemma open_runs s p force_new env :
  chunk_ok s → fresh_ids s env → source_attempt_id p ≠ Some (new_attempt_id env) →
  ∃ id t, starts_from s p force_new env id t ∧ attempt_dir (chunk_id chunk) id = Ok id ∧
    within_members t ∧ source_attempt_id p ≠ Some id ∧
    runs (on_journal (open_progress chunk run p force_new (new_attempt_id env))) s (λ i s', i = id ∧
      databases (journal s') !! id = Some (Database t) ∧ checkpoint s' = checkpoint s).
Proof.
  intros [Hj Hw] (Hc & Hn & Hfresh) Hsrc.
  assert (Hempty : ∀ m, within_members (_create m)) by (intros m; split; [apply consistent_create|set_solver]).
  assert (Hdir : ∀ id, _validate_id id = Ok id → attempt_dir (chunk_id chunk) id = Ok id)
    by (intros id Hid; unfold attempt_dir; by rewrite Hid; simpl; rewrite Hc).
  destruct (open_progress_opens (journal s) chunk run p force_new (new_attempt_id env) Hj Hc Hn Hfresh Hsrc)
    as [(id & Hid & Hs & t & Hdb & _ & _ & Hcase) _].
  exists id, t. unfold starts_from.
  assert (Hstart : (if force_new then None else resumable (journal s) chunk run p) = Some id ∧
    databases (journal s) !! id = Some (Database t) ∨
    (if force_new then None else resumable (journal s) chunk run p) = None ∧
    id = new_attempt_id env ∧ t = _create (metadata chunk run id p)).
  { unfold outcome_of, final_state in Hid, Hdb, Hcase. rewrite open_progress_eq in Hid, Hdb, Hcase by done.
    destruct (if force_new then None else resumable (journal s) chunk run p) as [i|] eqn:E; simpl in *.
    - injection Hid as ->. by left.
    - right. injection Hid as <-. split_and!; [done..|].
      destruct Hcase as [(_ & -> & Hr)|(_ & -> & _)]; [congruence|done]. }
  split_and!; [| | |done|].
  - destruct force_new; [by destruct Hstart as [[]|(_ & ?)]|].
    by destruct Hstart as [[-> ?]|[-> ?]].
  - destruct Hstart as [[Hr _]|(_ & -> & _)]; [|by apply Hdir]. destruct force_new; [done|].
    apply Hdir. revert Hr. unfold resumable. destruct (progress_pointer _); [done..|].
    destruct (_ ≫= _) as [i|] eqn:E; [|done]. intros [= ->].
    apply bind_Ok in E as (a & _ & E). apply bind_Ok in E as (a' & Ha & E).
    do 5 apply bind_Ok in E as (? & _ & E). injection E as ->.
    by destruct (validate_id_Ok _ _ Ha) as [-> _].
  - destruct Hstart as [[_ Ht]|(_ & _ & ->)]; [by eapply Hw|apply Hempty].
  - exists id. unfold on_journal. rewrite outcome_of_zoom. split; [done|].
    rewrite final_state_zoom by (by destruct s). done.
Qed.

Context (run_task : IndexWorkItem → worker_result → Prop) (workers : nat) (pool : bool).

(** A chunk that is processed without a stop is committed.  From any interrupted or new
    journal, with a bounded pool whose tasks return results of their own items, the attempt
    is exported, finalized and accepted on resume; it has exactly one outcome per member:
    the rows recorded before the interruption and one row per new result. *)
Theorem fresh_chunk_commits force_new env s :
  identifies_members → NoDup (_membership_of members) → chunk_ok s → fresh_ids s env →
  (∀ id, clean (checkpoint s) id) → task_ok run_task → scheduled_by run_task workers pool env →
  ∃ id t, starts_from s (mkPurpose "fresh" None) force_new env id t ∧
  runs (_process_chunk_fresh run chunk members force_new env) s (λ o s', ∃ rows entries,
    attempt_holds (checkpoint s') id rows entries ∧ covers rows entries (_membership_of members) ∧
    (∀ row, row ∈ rows ↔ Progress.outcomes t !! o_accession row = Some row ∨
       ∃ r, r ∈ results_of t env ∧ row = (stored_pair (_url_index members) r).1) ∧
    o = Some (mkChunkOutcome (chunk_id chunk) id false (Z.of_nat (length rows))
                (Z.of_nat (length entries)) (Z.of_nat (refusals rows))) ∧
    accepted (checkpoint s')).
Proof.
  intros Hm Hnd Hok Hids Hclean Htask Hsched.
  pose proof (scheduled_complete _ _ _ _ Htask Hsched) as Hres.
  destruct (open_runs s (mkPurpose "fresh" None) force_new env Hok Hids) as
    (id & t & Hstart & Hdir & Ht & _ & Hopen); [done|].
  exists id, t. split; [done|]. unfold _process_chunk_fresh.
  eapply runs_bind; [exact Hopen|]. intros _ s1 (-> & Hdb & Hs1).
  eapply runs_mono; [apply (complete_chunk_runs id t env s1); try done; by rewrite Hs1|].
  simpl. intros o s' (Hh & -> & m & Hv).
  destruct (finished_journal_ok t env Ht Hnd Hres) as (_ & _ & Hcov).
  exists (outcomes_query (finished_journal t env)), (entries_query (finished_journal t env)).
  split_and!; [done..|intros row; by apply finished_rows|done|by eexists].
Qed.

(** Every final outcome of the source that the journal already holds is the source's. *)
Definition carried_so_far (t : tables) (rows : list outcome) (source_entries : list InventoryEntry) : Prop :=
  ∀ row, row ∈ rows → retryable row = false → o_accession row ∈ completed t →
    Progress.outcomes t !! o_accession row = Some row ∧
    filter (λ e, entry_accession e = o_accession row) (Progress.entries t) =
      rows_of source_entries row.

Lemma carried_all t rows source_entries row :
  consistent t → NoDup (o_accession <$> rows) → carried_so_far t rows source_entries →
  row ∈ rows → retryable row = false →
  let t1 := carry_all source_entries t (to_carry t (order_by o_accession rows)) in
  o_accession row ∈ completed t1 ∧ Progress.outcomes t1 !! o_accession row = Some row ∧
  filter (λ e, entry_accession e = o_accession row) (Progress.entries t1) = rows_of source_entries row.
Proof.
  intros Ht Hnd Hsofar Hrow Hfinal t1.
  assert (Hnd' : NoDup (o_accession <$> to_carry t (order_by o_accession rows))).
  { eapply sublist_NoDup; [by apply (NoDup_order_by o_accession rows)|].
    apply fmap_sublist, sublist_filter. }
  assert (Hc : o_accession row ∈ completed t1 ∧ (o_accession row ∈ completed t ∨
    row ∈ to_carry t (order_by o_accession rows) ∧ o_accession row ∉ completed t)).
  { unfold t1. rewrite carry_all_completed, elem_of_union, elem_of_list_to_set.
    destruct (decide (o_accession row ∈ completed t)); [auto|].
    assert (row ∈ to_carry t (order_by o_accession rows)) as Hin.
    { unfold to_carry. apply list_elem_of_filter. by rewrite elem_of_order_by. }
    split; [right; by apply list_elem_of_fmap_2|by right]. }
  destruct Hc as [Hin [Hold|[Hnew Hn]]]; (split; [done|]).
  - destruct (Hsofar row Hrow Hfinal Hold) as [<- <-].
    apply store_all_other; [apply own_with_entries|]. rewrite accessions_with_entries.
    intros (row' & He & [[_ Hn] _]%list_elem_of_filter)%list_elem_of_fmap. congruence.
  - by apply carry_all_carried.
Qed.

(** *** What an interrupted retry may leave in a journal *)

(** The journals that a retry of [prior] would continue hold, of its final outcomes, only
    rows of [prior]. *)
Definition journals_carry (prior : string) (rows : list outcome) (source_entries : list InventoryEntry)
    (d : progress_dir) : Prop :=
  ∀ id t, databases d !! id = Some (Database t) →
    _validate t (metadata chunk run id (mkPurpose "retry" (Some prior))) = Ok () →
    carried_so_far t rows source_entries.

Lemma journals_carry_set prior rows source_entries id db d :
  journals_carry prior rows source_entries d →
  match db with Database t => carried_so_far t rows source_entries | Incomplete => True end →
  journals_carry prior rows source_entries (set_database id db d).
Proof.
  intros Hd Hdb i t. simpl. rewrite lookup_insert_Some. intros [[<- ->]|[_ Hi]]; [done|by apply Hd].
Qed.

(** One more row: the source's own, or one of an accession that is not final. *)
Lemma carried_recorded t rows source_entries row es :
  consistent t → own_entries (o_accession row) es → o_accession row ∉ completed t →
  (∀ row', row' ∈ rows → retryable row' = false → o_accession row' = o_accession row →
     row' = row ∧ es = rows_of source_entries row) →
  carried_so_far t rows source_entries → carried_so_far (recorded t row es) rows source_entries.
Proof.
  intros Ht Hes Hn Hrow Hc row' Hin Hfinal. simpl. rewrite filter_app.
  destruct (decide (o_accession row' = o_accession row)) as [He|He]; intros Hin'.
  - destruct (Hrow row' Hin Hfinal He) as [-> ->]. rewrite lookup_insert_eq.
    rewrite list_filter_none, (filter_all _ (rows_of source_entries row)); [done|exact Hes|].
    intros e Hent Heq. apply Hn. rewrite <- Heq. by apply (entries_completed t Ht).
  - rewrite lookup_insert_ne by done. rewrite (list_filter_none _ es).
    + rewrite app_nil_r. apply Hc; [done..|]. set_solver.
    + intros e Hent Heq. apply He. rewrite <- Heq. by apply Hes.
Qed.

Lemma carry_keeps t rows source_entries :
  consistent t → NoDup (o_accession <$> rows) → carried_so_far t rows source_entries →
  always (λ t', consistent t' ∧ carried_so_far t' rows source_entries) (seed_carry rows source_entries) t.
Proof.
  intros Ht Hnd Hc. apply always_each; [done|]. intros row t1 Hrow [Ht1 Hc1].
  apply elem_of_order_by in Hrow. unfold carry_row. apply always_bind; [apply always_read|].
  intros t' [= <-]. change (final_state _ t1) with t1.
  destruct (retryable row); [apply always_ret|]. destruct (has_completed _ _); [apply always_ret|].
  unfold always. cbv beta zeta. fold (rows_of source_entries row). unfold import_accession, transaction.
  destruct (insert_accession t1 row (rows_of source_entries row)) as [t2|] eqn:E; [|constructor].
  apply insert_accession_Ok in E as (_ & _ & Hn & ->). apply Forall_singleton. split.
  - apply consistent_recorded; [done|]. apply own_rows_of.
  - apply carried_recorded; [done|apply own_rows_of|done| |done].
    intros row' Hin _ He. assert (row' = row) as -> by (by eapply (NoDup_key_inj o_accession rows)). done.
Qed.

Lemma record_keeps t rows source_entries urls rs :
  consistent t → Forall good_result rs → carried_so_far t rows source_entries →
  (∀ row, row ∈ rows → retryable row = false → o_accession row ∈ completed t) →
  always (λ t', carried_so_far t' rows source_entries) (each (record_result urls) rs) t.
Proof.
  intros Ht Hg Hc Hdone.
  eapply always_mono; [|apply (always_each (λ t', consistent t' ∧ carried_so_far t' rows source_entries ∧
    ∀ row, row ∈ rows → retryable row = false → o_accession row ∈ completed t')); [done|]].
  { by intros t' (_ & ? & _). }
  intros r t1 Hr (Ht1 & Hc1 & Hd1). rewrite Forall_forall in Hg. destruct (Hg r Hr) as [Hown _].
  unfold record_result. apply always_bind; [apply always_read|]. intros url _.
  change (final_state _ t1) with t1. unfold record, transaction.
  unfold always. cbv beta zeta. destruct (insert_accession t1 (outcome_row r url None) (entry_rows r)) as [t2|] eqn:E; [|constructor].
  apply insert_accession_Ok in E as (_ & _ & Hn & ->). apply Forall_singleton.
  assert (Hes : own_entries (o_accession (outcome_row r url None)) (entry_rows r))
    by (by rewrite outcome_row_accession).
  split_and!; [by apply consistent_recorded| |].
  - apply carried_recorded; [done..| |done]. intros row' Hin Hf He. destruct Hn. rewrite <- He. auto.
  - intros row Hin Hf. simpl. apply elem_of_union_r. auto.
Qed.

Lemma on_tables_carries {A} id (m : io tables A) prior rows source_entries s t :
  databases (journal s) !! id = Some (Database t) → journals_carry prior rows source_entries (journal s) →
  always (λ t', carried_so_far t' rows source_entries) m t →
  always (λ s', journals_carry prior rows source_entries (journal s')) (on_tables id m) s.
Proof.
  intros Hdb Hs Hm. apply always_zoom, always_zoom.
  assert (tables_at (journal s) id = t) as -> by (unfold tables_at; by rewrite Hdb).
  eapply always_mono; [|exact Hm]. intros t' Ht'. by apply journals_carry_set.
Qed.

(** Completing a chunk after the carry records results of other accessions only. *)
Lemma completing_keeps_journals prior rows source_entries id env s t :
  NoDup (_membership_of members) → complete_results env → within_members t →
  databases (journal s) !! id = Some (Database t) → journals_carry prior rows source_entries (journal s) →
  carried_so_far t rows source_entries →
  (∀ row, row ∈ rows → retryable row = false → o_accession row ∈ completed t) →
  always (λ s', journals_carry prior rows source_entries (journal s')) (complete_chunk run chunk members id env) s.
Proof.
  intros Hnd Hres Ht Hdb Hj Hc Hdone.
  set (P := λ s', journals_carry prior rows source_entries (journal s')).
  assert (Hread : ∀ A (f : tables → result A) s, always P (on_tables id (read f)) s ∧
    final_state (on_tables id (read f)) s = s) by (intros; split; [constructor|done]).
  unfold complete_chunk. apply always_bind; [apply Hread|].
  intros missing Hmiss. rewrite (proj2 (Hread _ _ s)). unfold on_tables, on_journal in Hmiss. rewrite !outcome_of_zoom in Hmiss.
  assert (Htab : tables_at (journal s) id = t) by (unfold tables_at; by rewrite Hdb).
  unfold outcome_of, read in Hmiss. cbn [snd] in Hmiss. rewrite Htab in Hmiss.
  rewrite (completed_accessions_within t Ht) in Hmiss. injection Hmiss as <-.
  change (scheduled env _) with (results_of t env).
  destruct (results_ok t env Ht Hnd Hres) as (Hgood & _ & _).
  assert (Hal : always P (on_tables id (each (record_result (_url_index members)) (results_of t env))) s).
  { apply (on_tables_carries id _ prior rows source_entries s t Hdb Hj).
    by apply record_keeps; [apply Ht|..]. }
  apply always_bind; [exact Hal|]. intros [] _.
  apply final_state_always in Hal as Hj1; [|done]. revert Hj1.
  generalize (final_state (on_tables id (each (record_result (_url_index members)) (results_of t env))) s).
  intros s1 Hj1. apply always_bind; [apply Hread|].
  intros [|x l] _; [|apply always_ret]. rewrite (proj2 (Hread _ _ s1)). apply always_bind; [apply Hread|].
  intros t' _. rewrite (proj2 (Hread _ _ s1)). apply always_bind; [|intros o _; apply always_ret].
  apply always_zoom, Forall_true. by intros d.
Qed.

Section a_retry.
Context (prior : string) (rows : list outcome) (source_entries : list InventoryEntry).
Context (env : environment) (s : chunk_state).
Abbreviation retry := (mkPurpose "retry" (Some prior)).

(** The attempt to retry: its files hold one outcome per member, of numbers that fit. *)
Record source_ok : Prop := {
  so_id : attempt_dir (chunk_id chunk) prior = Ok prior;
  so_files : attempt_holds (checkpoint s) prior rows source_entries;
  so_covers : covers rows source_entries (_membership_of members);
  so_fit row : row ∈ rows → retryable row = false → all_fit row (rows_of source_entries row) = true;
  so_new : new_attempt_id env ≠ prior;
}.
Context (members_identified : identifies_members) (members_distinct : NoDup (_membership_of members)).
Context (chunk_fine : chunk_ok s) (ids_fresh : fresh_ids s env) (source_fine : source_ok).
Context (results_complete : complete_results env).

(** The journal once the source's final outcomes have been carried. *)
Definition carried_journal (t : tables) : tables :=
  carry_all source_entries t (to_carry t (order_by o_accession rows)).
(** The members that are fetched again: those whose outcome may be retried and that no
    interrupted retry has recorded yet. *)
Definition fetched_again (t : tables) : list IndexWorkItem :=
  filter (λ item, wi_accession item ∈ o_accession <$> filter (λ row, retryable row = true) rows ∧
                  wi_accession item ∉ completed t) members.

Lemma carried_completed t a :
  a ∈ completed (carried_journal t) ↔
  a ∈ completed t ∨ ∃ row, row ∈ rows ∧ retryable row = false ∧ o_accession row = a.
Proof.
  unfold carried_journal. rewrite carry_all_completed, elem_of_union, elem_of_list_to_set, list_elem_of_fmap.
  assert (Hin : ∀ row, row ∈ to_carry t (order_by o_accession rows) ↔
    (retryable row = false ∧ o_accession row ∉ completed t) ∧ row ∈ rows)
    by (intros row; unfold to_carry; by rewrite list_elem_of_filter, elem_of_order_by).
  setoid_rewrite Hin. destruct (decide (a ∈ completed t)); naive_solver.
Qed.

Lemma carried_within t : within_members t → within_members (carried_journal t).
Proof.
  intros Ht. split; [by apply carry_all_consistent, Ht|]. intros a.
  rewrite carried_completed. intros [Ha|(row & Hr & _ & <-)]; [by apply Ht|].
  apply (proj1 (proj2 (so_covers source_fine))). by apply list_elem_of_fmap_2.
Qed.

(** After the carry exactly the retryable members are missing. *)
Lemma carried_missing t :
  within_members t → still_missing (missing_of (carried_journal t)) members = fetched_again t.
Proof.
  intros Ht. unfold still_missing, fetched_again. apply filter_ext_in. intros item Hitem.
  pose proof (proj1 (so_covers source_fine)) as Hnd.
  destruct (so_covers source_fine) as (_ & Hcov & _).
  assert (Hm : wi_accession item ∈ _membership_of members) by by apply list_elem_of_fmap_2.
  unfold missing_of. rewrite merge_sort_Permutation, list_elem_of_filter, carried_completed, list_elem_of_fmap.
  setoid_rewrite list_elem_of_filter.
  apply Hcov in Hm as Hr. apply list_elem_of_fmap in Hr as (row & Ha & Hrow).
  assert (Hsame : ∀ row', row' ∈ rows → o_accession row' = wi_accession item → row' = row)
    by (intros row' Hin He; apply (NoDup_key_inj o_accession rows); [done..|congruence]).
  split.
  - intros [Hn _]. destruct (retryable row) eqn:E; [|naive_solver]. split; [naive_solver|tauto].
  - intros [(row' & He & Hret & Hin) Hn]. split; [|done]. intros [?|(row2 & Hin2 & Hf & He2)]; [done|].
    rewrite (Hsame row2), <- (Hsame row') in Hf by done. congruence.
Qed.

Lemma source_read : source_files (checkpoint s) (chunk_id chunk) prior = Ok (rows, source_entries).
Proof.
  unfold source_files. rewrite (so_id source_fine). simpl.
  destruct (so_files source_fine) as [-> ->]. done.
Qed.

Lemma seed_carry_runs t :
  within_members t →
  runs (seed_carry rows source_entries) t (λ _ t', t' = carried_journal t).
Proof.
  intros Ht. destruct (carry_loop source_entries (order_by o_accession rows) t t []) as [Hruns _];
    [done|apply Ht|apply NoDup_order_by, (so_covers source_fine)| |exact Hruns].
  intros row. rewrite elem_of_order_by. apply (so_fit source_fine).
Qed.

(** What a retry leaves when it is not interrupted, whatever its journal held before. *)
Lemma retry_runs :
  (∀ id, clean (checkpoint s) id) →
  ∃ id t, starts_from s retry false env id t ∧ id ≠ prior ∧ within_members t ∧
  let t' := finished_journal (carried_journal t) env in
  runs (_process_chunk_retry run chunk members prior env) s (λ o s',
    attempt_holds (checkpoint s') id (outcomes_query t') (entries_query t') ∧
    o = Some (mkChunkOutcome (chunk_id chunk) id false (Z.of_nat (length (outcomes_query t')))
                (Z.of_nat (length (entries_query t'))) (Z.of_nat (refusals (outcomes_query t')))) ∧
    accepted (checkpoint s')).
Proof.
  intros Hclean.
  destruct (open_runs s retry false env chunk_fine ids_fresh) as (id & t & Hstart & Hdir & Ht & Hs & Hopen).
  { simpl. intros [= He]. by destruct (so_new source_fine). }
  exists id, t. split_and!; [done|simpl in Hs; congruence|done|].
  unfold _process_chunk_retry. eapply runs_bind; [exact Hopen|]. intros _ s1 (-> & Hdb & Hs1).
  eapply runs_bind.
  { apply (runs_read _ _ (rows, source_entries) (λ a s2, a = (rows, source_entries) ∧ s2 = s1)); [|done].
    rewrite Hs1. apply source_read. }
  intros _ _ [-> ->]. eapply runs_bind.
  { apply (runs_on_tables id _ s1 t (λ _ t0, t0 = carried_journal t) Hdb). by apply seed_carry_runs. }
  intros _ s2 (_ & -> & Hdb2 & Hs2).
  eapply runs_mono; [apply (complete_chunk_runs id (carried_journal t) env s2); try done|].
  - by rewrite Hs2, Hs1.
  - by apply carried_within.
  - simpl. intros o s' (Hh & -> & m & Hv). split_and!; [done..|by eexists].
Qed.

Lemma opened_carries id t :
  journals_carry prior rows source_entries (journal s) → starts_from s retry false env id t →
  carried_so_far t rows source_entries.
Proof using Type.
  intros Hj. unfold starts_from. destruct (resumable _ _ _ _) as [i|] eqn:E.
  - intros [<- Hdb]. apply resumable_Some in E as (t' & Ht' & Hv).
    apply (Hj i t' Ht') in Hv. by simplify_eq.
  - intros [_ ->] row _ _ Hin. by apply not_elem_of_empty in Hin.
Qed.

(** At every point where a retry may be killed, the journals are as it needs them. *)
Lemma retry_keeps_journals :
  journals_carry prior rows source_entries (journal s) →
  always (λ s', journals_carry prior rows source_entries (journal s'))
    (_process_chunk_retry run chunk members prior env) s.
Proof.
  intros Hj.
  assert (Hsrc : source_attempt_id retry ≠ Some (new_attempt_id env))
    by (simpl; intros [= He]; by destruct (so_new source_fine)).
  destruct (open_runs s retry false env chunk_fine ids_fresh Hsrc)
    as (id & t & Hstart & Hdir & Ht & _ & (id' & Ho & -> & Hdb & Hck)).
  pose proof (opened_carries id t Hj Hstart) as Hc.
  assert (Hopen : always (λ s', journals_carry prior rows source_entries (journal s'))
    (on_journal (open_progress chunk run retry false (new_attempt_id env))) s).
  { apply always_zoom. destruct ids_fresh as (Hcid & Hn & Hf). unfold always.
    rewrite open_progress_eq by done. destruct (resumable _ _ _ _); [constructor|].
    assert (Hnew : ∀ m, carried_so_far (_create m) rows source_entries)
      by (intros m row _ _ Hin; by apply not_elem_of_empty in Hin).
    assert (H1 : journals_carry prior rows source_entries (set_database (new_attempt_id env) Incomplete (journal s)))
      by by apply journals_carry_set.
    assert (H2 := journals_carry_set prior rows source_entries (new_attempt_id env)
      (Database (_create (metadata chunk run (new_attempt_id env) retry))) _ H1 (Hnew _)).
    repeat apply Forall_cons_2; [exact H1|exact H2|exact H2|constructor]. }
  unfold _process_chunk_retry. apply always_bind; [exact Hopen|]. intros i Hi.
  assert (i = id) as -> by congruence.
  apply final_state_always in Hopen as Hj1; [|done]. revert Hj1 Hdb Hck. clear Ho Hi.
  generalize (final_state (on_journal (open_progress chunk run retry false (new_attempt_id env))) s).
  intros s1 Hj1 Hdb Hck. apply always_bind; [apply always_read|].
  intros src Hread. change (final_state _ s1) with s1.
  unfold outcome_of, read in Hread. cbn [snd] in Hread. rewrite Hck, source_read in Hread. injection Hread as <-.
  cbn [fst snd]. pose proof (carry_keeps t rows source_entries (proj1 Ht) (proj1 (so_covers source_fine)) Hc) as Hcarry.
  assert (Hal : always (λ s', journals_carry prior rows source_entries (journal s'))
    (on_tables id (seed_carry rows source_entries)) s1).
  { eapply on_tables_carries; [done..|]. eapply always_mono; [|exact Hcarry]. by intros ? []. }
  apply always_bind; [exact Hal|]. intros [] _.
  apply final_state_always in Hal as Hj2; [|done].
  destruct (runs_on_tables id _ s1 t (λ _ t0, t0 = carried_journal t) Hdb (seed_carry_runs t Ht))
    as ([] & _ & t' & -> & Hdb2 & _).
  assert (Hc2 : carried_so_far (carried_journal t) rows source_entries).
  { destruct (seed_carry_runs t Ht) as ([] & _ & <-).
    apply final_state_always in Hcarry as [_ H]; [done|]. by split; [apply Ht|]. }
  revert Hj2 Hdb2. generalize (final_state (on_tables id (seed_carry rows source_entries)) s1).
  intros s2 Hj2 Hdb2. apply (completing_keeps_journals _ _ _ _ _ _ (carried_journal t)); try done.
  - by apply carried_within.
  - intros row Hr Hf. apply carried_completed. right. by exists row.
Qed.
End a_retry.

(** The outcomes of the journal after the carry. *)
Lemma carried_rows prior rows source_entries env s t row :
  source_ok prior rows source_entries env s → consistent t → carried_so_far t rows source_entries →
  Progress.outcomes (carried_journal rows source_entries t) !! o_accession row = Some row ↔
  row ∈ rows ∧ retryable row = false ∨ Progress.outcomes t !! o_accession row = Some row.
Proof.
  intros Hsrc Ht Hc. pose proof (proj1 (so_covers _ _ _ _ _ Hsrc)) as Hnd.
  set (l := to_carry t (order_by o_accession rows)).
  assert (Hl : ∀ r, r ∈ l ↔ (retryable r = false ∧ o_accession r ∉ completed t) ∧ r ∈ rows)
    by (intros r; unfold l, to_carry; by rewrite list_elem_of_filter, elem_of_order_by).
  split.
  - intros Hrow. destruct (decide (o_accession row ∈ o_accession <$> l)) as [Hin|Hn].
    + apply list_elem_of_fmap in Hin as (r & Ha & [[Hf _] Hr]%Hl). left.
      destruct (carried_all t rows source_entries r Ht Hnd Hc Hr Hf) as (_ & Hout & _).
      rewrite <- Ha in Hout. unfold carried_journal in Hrow. rewrite Hrow in Hout. by injection Hout as ->.
    + right. rewrite <- Hrow. symmetry. apply store_all_other; [apply own_with_entries|].
      by rewrite accessions_with_entries.
  - intros [[Hr Hf]|Hrow]; [by apply carried_all|].
    etrans; [|exact Hrow]. apply store_all_other; [apply own_with_entries|]. rewrite accessions_with_entries.
    intros (r & Ha & [[_ Hn] _]%Hl)%list_elem_of_fmap. apply Hn. rewrite <- Ha.
    rewrite (completed_all t Ht). by apply elem_of_dom_2 in Hrow.
Qed.

(** C5: a retry of a committed attempt that covers the chunk's members, with consistent
    journals, no entries stage left by a kill and the scheduler of Scheduler.v not stopped,
    commits a new attempt.  Its rows are exactly the final outcomes of the committed one,
    unchanged and with their entries, the rows an interrupted retry had recorded, and the
    results of fetching again exactly the members whose outcome was retryable and that the
    interrupted retry had not recorded.  That journals of interrupted retries hold, of the final
    outcomes, only the source's, which it starts from, is kept at every point where it may
    be killed. *)
Theorem retry_carries_final_outcomes prior rows source_entries env s :
  identifies_members → NoDup (_membership_of members) → chunk_ok s → fresh_ids s env →
  source_ok prior rows source_entries env s → (∀ id, clean (checkpoint s) id) →
  journals_carry prior rows source_entries (journal s) →
  task_ok run_task → scheduled_by run_task workers pool env →
  always (λ s', journals_carry prior rows source_entries (journal s'))
    (_process_chunk_retry run chunk members prior env) s ∧
  ∃ id t, starts_from s (mkPurpose "retry" (Some prior)) false env id t ∧ id ≠ prior ∧
  runs (_process_chunk_retry run chunk members prior env) s (λ o s', ∃ new_rows new_entries,
    attempt_holds (checkpoint s') id new_rows new_entries ∧
    covers new_rows new_entries (_membership_of members) ∧
    (∀ row, row ∈ new_rows ↔ row ∈ rows ∧ retryable row = false ∨
       Progress.outcomes t !! o_accession row = Some row ∨
       ∃ r, r ∈ scheduled env (fetched_again rows t) ∧ row = (stored_pair (_url_index members) r).1) ∧
    (∀ row, row ∈ rows → retryable row = false →
       filter (λ e, entry_accession e = o_accession row) new_entries ≡ₚ
       filter (λ e, entry_accession e = o_accession row) source_entries) ∧
    o = Some (mkChunkOutcome (chunk_id chunk) id false (Z.of_nat (length new_rows))
                (Z.of_nat (length new_entries)) (Z.of_nat (refusals new_rows))) ∧
    accepted (checkpoint s')).
Proof.
  intros Hm Hnd Hok Hids Hsrc Hclean Hj Htask Hsched.
  pose proof (scheduled_complete _ _ _ _ Htask Hsched) as Hres.
  split; [by apply retry_keeps_journals|].
  destruct (retry_runs prior rows source_entries env s Hm Hnd Hok Hids Hsrc Hres Hclean)
    as (id & t & Hstart & Hne & Ht & Hruns).
  pose proof (opened_carries prior rows source_entries env s id t Hj Hstart) as Hc.
  pose proof (carried_within prior rows source_entries env s Hsrc t Ht) as Ht1.
  set (t1 := carried_journal rows source_entries t) in *.
  destruct (finished_journal_ok t1 env Ht1 Hnd Hres) as (_ & _ & Hcov).
  destruct (results_ok t1 env Ht1 Hnd Hres) as (_ & _ & Hrs).
  exists id, t. split_and!; [done..|]. eapply runs_mono; [exact Hruns|]. intros o s' (Hh & Ho & Ha).
  exists (outcomes_query (finished_journal t1 env)), (entries_query (finished_journal t1 env)).
  split_and!; [done..| | |done|done].
  - intros row. rewrite finished_rows by done. unfold results_of.
    pose proof (carried_missing prior rows source_entries env s Hsrc t Ht) as Hmiss.
    pose proof (carried_rows prior rows source_entries env s t row Hsrc (proj1 Ht) Hc) as Hrows.
    fold t1 in Hmiss, Hrows. rewrite Hmiss, Hrows. tauto.
  - intros row Hrow Hf.
    destruct (carried_all t rows source_entries row (proj1 Ht) (proj1 (so_covers _ _ _ _ _ Hsrc)) Hc Hrow Hf)
      as (Hin & _ & Hent).
    destruct (finished_journal_old t1 env (o_accession row) Ht1 Hnd Hres) as [_ He].
    { intros [_ Hn]%Hrs. by apply Hn. }
    rewrite entries_query_Permutation, He. unfold t1, carried_journal. rewrite Hent. apply order_by_Permutation.
Qed.

(** ** An interrupted export of an attempt without entries *)

Context (no_batches : arrow_reader InventoryEntry [] = []).

(** A finished journal without entries, whose export was killed after the stage of the
    entries file was opened and before it was closed. *)
Definition blocked (id : string) (t : tables) (s : chunk_state) : Prop :=
  resumable (journal s) chunk run (mkPurpose "fresh" None) = Some id ∧
  databases (journal s) !! id = Some (Database t) ∧ attempt_dir (chunk_id chunk) id = Ok id ∧
  within_members t ∧ completed_accessions t (_membership_of members) = Ok [] ∧
  Progress.entries t = [] ∧ outcomes_query t ≠ [] ∧
  tmp (entries_file (attempt_at (checkpoint s) id)) = Some Torn.

Lemma export_blocked id t env d :
  attempt_dir (chunk_id chunk) id = Ok id → Progress.entries t = [] → outcomes_query t ≠ [] →
  tmp (entries_file (attempt_at d id)) = Some Torn →
  raises (_export_progress run chunk members id t env) d ArrowInvalid
    (λ d', tmp (entries_file (attempt_at d' id)) = Some Torn ∧ pointer d' = pointer d).
Proof.
  intros Hdir He Ho Ht. unfold _export_progress.
  set (w := mkWriters (StagedParquetWriter OUTCOME_SCHEMA None) (StagedParquetWriter ENTRY_SCHEMA None)
    [] [] false).
  apply (raises_after _ _ _ _ (λ a d', a = w ∧ d' = d)).
  { apply (runs_read _ _ w); [|done]. unfold AttemptWriters. by rewrite Hdir. }
  intros _ _ [-> ->]. apply raises_bind, raises_zoom.
  set (k := desk_at id w d). set (e := entries_disk k).
  assert (Hk : unused e k) by done.
  assert (Hexp : runs (export t) k (λ _ k', given (tmp (outcomes_disk k)) (tmp e) (outcomes_query t) [] k' ∧
    unused e k')).
  { destruct (export_given arrow_reader batches_join (tmp (outcomes_disk k)) (tmp e) t k) as (u & Hu & Hg);
      [by apply given_new|].
    exists u. split; [done|]. unfold entries_query in Hg. rewrite He in Hg. split; [done|].
    apply final_state_always; [done|]. unfold Progress.export. apply always_bind.
    - apply always_each; [done|]. intros batch k' _. apply unused_outcome_batch.
    - intros [] _. unfold entries_query. rewrite He. change (order_by _ (order_by _ [])) with (@nil InventoryEntry).
      rewrite no_batches. apply always_ret. }
  eapply raises_finally; [exact Hexp|]. intros [] k' [Hg Hu].
  destruct (close_torn (tmp (outcomes_disk k)) (tmp e) e k' (outcomes_query t) []) as [Hc Hd]; [done|by left|done|done|].
  split; [exact Hc|]. revert Hd. generalize (final_state close k'). intros k2 Hd. split.
  - split; [|done]. unfold put_desk, set_attempt, attempt_at. simpl. rewrite lookup_insert_eq. simpl. by rewrite Hd.
  - intros _. done.
Qed.

(** Such an interruption is not recovered from.  Every later run of the chunk resumes
    the journal, raises [ArrowInvalid] while it counts the torn stage, and leaves the chunk
    as blocked as it was: the attempt can only be freed by deleting the stage by hand. *)
Theorem torn_stage_blocks_chunk id t env s :
  blocked id t s → NoDup (_membership_of members) → task_ok run_task →
  scheduled_by run_task workers pool env →
  _validate_id (chunk_id chunk) = Ok (chunk_id chunk) →
  raises (_process_chunk_fresh run chunk members false env) s ArrowInvalid
    (λ s', blocked id t s' ∧ pointer (checkpoint s') = pointer (checkpoint s)).
Proof.
  intros Hb Hnd Htask Hsched Hc. pose proof Hb as (Hr & Hdb & Hdir & Ht & Hdone & He & Ho & Htorn).
  assert (Hempty : scheduled env (still_missing [] members) = []).
  { unfold still_missing. rewrite list_filter_none by (intros x _; apply not_elem_of_nil).
    destruct (finished_run_results run_task workers pool [] (scheduled env [])) as [H _];
      [done|constructor|apply Hsched; constructor|].
    by apply Permutation_nil_r, fmap_nil_inv in H. }
  unfold _process_chunk_fresh. eapply raises_after.
  { apply runs_zoom_lazy. exists id. unfold outcome_of, final_state, open_progress, bind_io, read. simpl.
    rewrite Hc. simpl. rewrite Hr. simpl. split; [done|].
    instantiate (1 := λ i s', i = id ∧ s' = s). simpl. split; [|done]. by destruct s. }
  intros _ _ [-> ->]. unfold complete_chunk.
  assert (Hread : ∀ A (f : tables → result A) a, f t = Ok a →
    runs (on_tables id (read f)) s (λ a' s', a' = a ∧ s' = s)).
  { intros A f a Hf. exists a. unfold outcome_of, final_state, on_tables, on_journal, zoom, read, tables_at.
    rewrite Hdb. simpl. by rewrite Hf. }
  eapply raises_after; [by apply (Hread _ _ [])|]. intros _ _ [-> ->]. rewrite Hempty.
  eapply raises_after.
  { instantiate (1 := λ _ s', s' = s). exists (). by destruct s. }
  intros _ _ ->.
  eapply raises_after; [by apply (Hread _ _ [])|]. intros _ _ [-> ->].
  eapply raises_after; [by apply (Hread _ _ t)|]. intros _ _ [-> ->].
  apply raises_bind, raises_zoom.
  destruct (export_blocked id t env (checkpoint s) Hdir He Ho Htorn) as [Hout Hst].
  split; [done|]. revert Hst. generalize (final_state (_export_progress run chunk members id t env) (checkpoint s)).
  intros d [Hd Hp]. split; [|by intros ->]. by split_and!.
Qed.
End chunk_theorems.

(** ** A whole run *)

Section run_theorems.
Context (sha256_hexdigest : string → string) (file_sha256 : ∀ A, parquet A → string).
Context (arrow_reader : ∀ A, list A → list (list A)).
Context (batches_join : ∀ A (l : list A), mjoin (arrow_reader A l) = l).
Context (run : InventoryRunManifest).
Abbreviation accepted := (accepted sha256_hexdigest file_sha256 run).
Abbreviation process_chunk := (process_chunk sha256_hexdigest file_sha256 arrow_reader run).
Abbreviation run_loop := (run_loop sha256_hexdigest file_sha256 arrow_reader run).
Abbreviation _run_pending := (_run_pending sha256_hexdigest file_sha256 arrow_reader run).

Definition state_of (r : run_chunks) (chunk : ChunkIdentity) : chunk_state :=
  default no_chunk (r !! chunk_id chunk).

(** A chunk that can be processed: its journals are its own, no stage of entries is left of
    a killed export, the files it points to can be read, and its environment provides a new
    ID and one good result per item.  To retry failures, the numbers of the committed rows
    fit the journal's columns. *)
Record ready (retry_failures : bool) (r : run_chunks) (chunk : ChunkIdentity) (members : list IndexWorkItem)
    (env : environment) : Prop := {
  ready_identity : identifies_members sha256_hexdigest chunk members;
  ready_distinct : NoDup (_membership_of members);
  ready_journals : chunk_ok members (state_of r chunk);
  ready_ids : fresh_ids chunk (state_of r chunk) env;
  ready_clean : ∀ id, clean members (checkpoint (state_of r chunk)) id;
  ready_results : complete_results members env;
  ready_validation : is_ok (validate_committed_chunk sha256_hexdigest file_sha256
    (checkpoint (state_of r chunk)) (chunk_id chunk) run chunk) = true;
  ready_source : retry_failures = true → ∀ prior rows source_entries,
    pointed_attempt (checkpoint (state_of r chunk)) = Some prior →
    attempt_holds (checkpoint (state_of r chunk)) prior rows source_entries →
    source_ok chunk members prior rows source_entries env (state_of r chunk);
}.

Lemma fresh_chunk_accepted chunk members force_new env s :
  identifies_members sha256_hexdigest chunk members → NoDup (_membership_of members) →
  chunk_ok members s → fresh_ids chunk s env → (∀ id, clean members (checkpoint s) id) →
  complete_results members env →
  runs (_process_chunk_fresh sha256_hexdigest file_sha256 arrow_reader run chunk members force_new env) s
    (λ o s', is_Some o ∧ accepted chunk (checkpoint s')).
Proof.
  intros Hm Hnd Hok Hids Hclean Hres.
  destruct (open_runs run chunk members s (mkPurpose "fresh" None) force_new env Hok Hids) as
    (id & t & _ & Hdir & Ht & _ & Hopen); [done|].
  unfold Coordinator._process_chunk_fresh. eapply runs_bind; [exact Hopen|]. intros _ s1 (-> & Hdb & Hs1).
  eapply runs_mono.
  { apply (complete_chunk_runs sha256_hexdigest file_sha256 arrow_reader run chunk members batches_join
      id t env s1); try done. by rewrite Hs1. }
  simpl. intros o s' (_ & -> & m & Hv). split; [done|]. by eexists.
Qed.

(** An accepted chunk is reused or, when asked for, retried from its attempt; any other is
    recomputed. *)
Lemma decide_ready s chunk retry_failures :
  is_ok (validate_committed_chunk sha256_hexdigest file_sha256 (checkpoint s) (chunk_id chunk) run chunk)
    = true →
  (∃ out counts, _decide_chunk sha256_hexdigest file_sha256 s run chunk retry_failures =
     Ok ("skip", None, Some out, counts) ∧ accepted chunk (checkpoint s)) ∨
  (∃ prior counts rows source_entries, retry_failures = true ∧
     _decide_chunk sha256_hexdigest file_sha256 s run chunk retry_failures =
       Ok ("retry", Some prior, None, counts) ∧
     pointed_attempt (checkpoint s) = Some prior ∧
     attempt_holds (checkpoint s) prior rows source_entries) ∨
  ∃ mode, _decide_chunk sha256_hexdigest file_sha256 s run chunk retry_failures = Ok (mode, None, None, []).
Proof.
  unfold _decide_chunk. destruct (validate_committed_chunk _ _ _ _ _ _) as [v|] eqn:Ev; [|done]. intros _.
  cbn [mbind result_bind]. destruct v as [[] [id|] reason [m|]]; try (right; right; by eexists).
  destruct (valid_chunk _ _ _ _ _ _ _ Ev eq_refl) as (id' & m' & Hv & Hp & Hne & _ & Hf).
  injection Hv as -> -> ->. rewrite bool_decide_false by done.
  destruct (validate_files_Ok _ _ _ _ Hf) as ([so rows] & [se source_entries] & Ho & He & Hso & Hse & _).
  simpl in Hso, Hse. subst so se. rewrite Ho. cbn [require mbind result_bind].
  destruct (_ && retry_failures) eqn:Er.
  - right; left. apply andb_true_iff in Er as [_ ->].
    eexists id', _, rows, source_entries. split_and!; [done..|by split].
  - left. eexists _, _. split; [done|]. by eexists.
Qed.

Lemma decided_chunk_accepts retry_failures r chunk members env :
  ready retry_failures r chunk members env →
  runs (decide_and_process sha256_hexdigest file_sha256 arrow_reader run retry_failures chunk members env)
    (state_of r chunk) (λ o s', is_Some o ∧ accepted chunk (checkpoint s')).
Proof.
  intros [Hm Hnd Hok Hids Hclean Hres Hval Hsrc]. revert Hok Hids Hclean Hval Hsrc.
  generalize (state_of r chunk). intros s Hok Hids Hclean Hval Hsrc. unfold decide_and_process.
  destruct (decide_ready s chunk retry_failures Hval) as
    [(out & counts & Hd & Ha)|[(prior & counts & rows & es & Hr & Hd & Hp & Hh)|[mode Hd]]].
  - eapply runs_bind; [by apply (runs_read _ _ ("skip", None, Some out, counts) (λ a s0, a = ("skip", None, Some out, counts) ∧ s0 = s))|].
    intros _ _ [-> ->]. by apply runs_ret.
  - eapply runs_bind; [by apply (runs_read _ _ ("retry", Some prior, None, counts) (λ a s0, a = ("retry", Some prior, None, counts) ∧ s0 = s))|].
    intros _ _ [-> ->]. cbn [String.eqb Ascii.eqb Bool.eqb].
    destruct (retry_runs sha256_hexdigest file_sha256 arrow_reader run chunk members batches_join prior rows es
      env s Hm Hnd Hok Hids (Hsrc Hr prior rows es Hp Hh) Hres Hclean) as (id & t & _ & _ & _ & Hruns).
    eapply runs_mono; [exact Hruns|]. simpl. intros o s' (_ & -> & Ha). by split.
  - eapply runs_bind; [by apply (runs_read _ _ (mode, None, None, []) (λ a s0, a = (mode, None, None, []) ∧ s0 = s))|].
    intros _ _ [-> ->]. by apply fresh_chunk_accepted.
Qed.

Lemma process_chunk_accepts retry_failures r chunk members env :
  ready retry_failures r chunk members env →
  runs (process_chunk retry_failures chunk members env) r (λ o r',
    is_Some o ∧ accepted chunk (checkpoint (state_of r' chunk)) ∧
    ∀ k, k ≠ chunk_id chunk → r' !! k = r !! k).
Proof.
  intros Hready. unfold Coordinator.process_chunk, on_chunk. apply runs_zoom_lazy.
  eapply runs_mono; [by apply decided_chunk_accepts|].
  intros o s [Ho Ha]. cbv beta. split.
  - split; [done|]. split; [|intros k Hk; by rewrite lookup_insert_ne].
    unfold state_of. by rewrite lookup_insert_eq.
  - intros ->. done.
Qed.

Lemma ready_other retry_failures r r' chunk members env :
  r' !! chunk_id chunk = r !! chunk_id chunk →
  ready retry_failures r chunk members env → ready retry_failures r' chunk members env.
Proof.
  intros He [Hm Hnd Hok Hids Hclean Hres Hval Hsrc].
  assert (Hs : state_of r' chunk = state_of r chunk) by (unfold state_of; by rewrite He).
  split; rewrite ?Hs; done.
Qed.

Definition chunk_ids (pending : list (ChunkIdentity * list IndexWorkItem * (bool * environment))) :
    list string := (λ p, chunk_id p.1.1) <$> pending.

Lemma run_loop_accepts retry_failures pending r summary :
  NoDup (chunk_ids pending) →
  (∀ chunk members stopped env, (chunk, members, (stopped, env)) ∈ pending →
     stopped = false ∧ ready retry_failures r chunk members env) →
  runs (run_loop retry_failures pending summary) r (λ summary' r',
    (∀ chunk members e, (chunk, members, e) ∈ pending → accepted chunk (checkpoint (state_of r' chunk))) ∧
    (∀ k, k ∉ chunk_ids pending → r' !! k = r !! k) ∧
    chunk_count summary' = (chunk_count summary + Z.of_nat (length pending))%Z).
Proof.
  revert r summary; induction pending as [|[[chunk members] [stopped env]] pending IH];
    intros r summary Hnd Hready.
  { apply runs_ret. split_and!; [set_solver|done|simpl; lia]. }
  destruct (Hready chunk members stopped env) as [-> Hr]; [by left|].
  unfold chunk_ids in Hnd. rewrite fmap_cons in Hnd. apply NoDup_cons in Hnd as [Hn Hnd]. simpl in Hn.
  change (run_loop retry_failures ((chunk, members, (false, env)) :: pending) summary) with
    (bind_io (process_chunk retry_failures chunk members env) (λ outcome,
       match outcome with
       | None => ret_io summary
       | Some outcome => run_loop retry_failures pending (collect summary outcome)
       end)).
  eapply runs_bind; [by apply process_chunk_accepts|]. intros o r1 ([out ->] & Ha & Hother). simpl.
  assert (Hdiff : ∀ c m e, (c, m, e) ∈ pending → chunk_id c ≠ chunk_id chunk).
  { intros c m e Hin Heq. apply Hn. rewrite <- Heq. apply list_elem_of_fmap. by exists (c, m, e). }
  eapply runs_mono.
  { apply (IH r1 (collect summary out) Hnd). intros c m b e Hin. destruct (Hready c m b e) as [-> Hc]; [by right|].
    split; [done|]. eapply ready_other; [|exact Hc]. apply Hother. by eapply Hdiff. }
  simpl. intros s r' (Hall & Hrest & Hcount). split_and!.
  - intros c m e [Heq|Hin]%elem_of_cons; [|by eapply Hall]. injection Heq as -> -> _.
    unfold state_of in *. by rewrite Hrest.
  - intros k Hk. apply not_elem_of_cons in Hk as [Hk Hk'].
    by rewrite Hrest, Hother.
  - rewrite Hcount. simpl. lia.
Qed.

(** C3: a run that is not stopped commits every chunk of its work order that is [ready], whether
    it retries failures or not: each is accepted on resume when the run returns, and the summary
    counts them all.  A chunk is ready when its digest and count are those of its members, which
    are distinct, its journals are consistent and about them, its new attempt id is valid and
    unused, the validation of its committed attempt does not raise, no entries stage of an attempt
    (and, without members, no outcomes stage) was left by a kill (else
    [torn_stage_blocks_chunk]), its scheduler yields a result per item, as that of Scheduler.v
    does, and, if failures are retried, the committed attempt covers the members with rows the
    journal admits. *)
Theorem run_commits_every_chunk retry_failures pending r stopped :
  NoDup (chunk_ids pending) →
  (∀ chunk members stop env, (chunk, members, (stop, env)) ∈ pending →
     stop = false ∧ ready retry_failures r chunk members env) →
  runs (_run_pending retry_failures pending stopped) r (λ summary r',
    (∀ chunk members e, (chunk, members, e) ∈ pending → accepted chunk (checkpoint (state_of r' chunk))) ∧
    chunk_count summary = Z.of_nat (length pending) ∧
    status summary = (if stopped then "cancelled" else "completed")).
Proof.
  intros Hnd Hready. unfold Coordinator._run_pending. eapply runs_bind; [by apply run_loop_accepts|].
  simpl. intros summary r' (Hall & _ & Hcount). apply runs_ret. simpl. split_and!; [done|exact Hcount|done].
Qed.
End run_theorems.

(** ** Summaries *)

(** The summary counts every chunk it was given once, as resumed or as committed, sums
    their refusals, and keeps the first 128 of them, saying when it dropped others. *)
Theorem summary_counts run_id outcomes :
  let s := finish (foldl collect (collector run_id) outcomes) in
  chunk_count s = Z.of_nat (length outcomes) ∧
  (resumed_count s + committed_count s = chunk_count s)%Z ∧
  resumed_count s = Z.of_nat (length (filter (λ o, resumed o = true) outcomes)) ∧
  rs_refusal_count s = foldr Z.add 0%Z (refusal_count <$> outcomes) ∧
  chunks s = take MAX_SUMMARY_CHUNKS outcomes ∧
  (chunks_truncated s = true ↔ MAX_SUMMARY_CHUNKS < length outcomes).
Proof.
  cbn zeta. induction outcomes as [|o outcomes (Hn & Hs & Hr & Hf & Hc & _)] using rev_ind.
  { unfold MAX_SUMMARY_CHUNKS. simpl. repeat split; done || lia. }
  rewrite foldl_app. set (c := foldl collect (collector run_id) outcomes) in *. simpl in *.
  rewrite filter_app, !length_app, fmap_app, foldr_app, Hf, Hc. simpl.
  assert (Hsum : ∀ l x, foldr Z.add x l = (foldr Z.add 0 l + x)%Z)
    by (intros l x; induction l as [|y l IH]; simpl; [lia|rewrite IH; lia]).
  assert (Hone : length (filter (λ o, resumed o = true) [o]) = Z.to_nat (Z.b2z (resumed o))).
  { rewrite filter_cons, filter_nil. by destruct (resumed o); case_decide. }
  assert (Hchunks : (if (length (take MAX_SUMMARY_CHUNKS outcomes) <? MAX_SUMMARY_CHUNKS)%nat
    then take MAX_SUMMARY_CHUNKS outcomes ++ [o] else take MAX_SUMMARY_CHUNKS outcomes) =
    take MAX_SUMMARY_CHUNKS (outcomes ++ [o])).
  { rewrite length_take, take_app. destruct (Nat.ltb_spec (Nat.min MAX_SUMMARY_CHUNKS (length outcomes)) MAX_SUMMARY_CHUNKS) as [Hl|Hl].
    - rewrite (take_ge [o]); [done|]. simpl. lia.
    - replace (MAX_SUMMARY_CHUNKS - length outcomes) with 0 by lia. by rewrite app_nil_r. }
  rewrite Hchunks, Hone, Hn. clear -Hs Hr Hsum Hn. clearbody c.
  split_and!; [lia|destruct (resumed o); simpl; lia|destruct (resumed o); simpl; lia| |done|].
  - rewrite (Hsum _ (refusal_count o + 0)%Z). lia.
  - rewrite length_take, length_app, Z.ltb_lt. cbn [length]. generalize MAX_SUMMARY_CHUNKS. intros m. lia.
Qed.

(** ** A small run *)

Definition demo_items : list IndexWorkItem :=
  [mkItem "0000000001-24-000001" "u1" "index" None None false None;
   mkItem "0000000001-24-000002" "u2" "index" None None false None].
Definition demo_env (id : string) : environment :=
  mkEnvironment id "t0" "t1" (fmap (λ item, worker_failure item "timeout")).
Definition demo_reader (A : Type) (l : list A) : list (list A) :=
  match l with [] => [] | _ => [l] end.

Lemma demo_reader_join A (l : list A) : mjoin (demo_reader A l) = l.
Proof. destruct l; simpl; [done|]. by rewrite app_nil_r. Qed.

Lemma demo_task_ok : task_ok demo_task.
Proof. intros item r ->. split; [done|]. apply worker_failure_good. Qed.

Lemma demo_scheduled id : scheduled_by demo_task 1 false (demo_env id).
Proof.
  intros items _.
  assert (∀ ys, rtc (Scheduler.step demo_task) (mkScheduler Sequential items [] false ys)
    (mkScheduler Finished [] [] false (ys ++ ((λ item, worker_failure item "timeout") <$> items)))) as H.
  { induction items as [|item items IH]; intros ys; simpl.
    - rewrite app_nil_r. apply rtc_once. apply (sequential_stop demo_task (mkScheduler Sequential [] [] false ys));
        [done|by left].
    - eapply rtc_l; [by eapply (sequential demo_task (mkScheduler Sequential (item :: items) [] false ys))|].
      specialize (IH (ys ++ [worker_failure item "timeout"])). by rewrite <- app_assoc in IH. }
  eexists. split; [apply (H [])|]. done.
Qed.

Lemma demo_identifies : identifies_members demo_digest demo_chunk demo_items.
Proof. split; vm_compute; reflexivity. Qed.
Lemma demo_distinct : NoDup (_membership_of demo_items).
Proof. apply (bool_decide_unpack _). vm_compute. reflexivity. Qed.

Lemma no_chunk_ok : chunk_ok demo_items no_chunk.
Proof. split; intros id t H; discriminate H. Qed.
Lemma no_chunk_clean id : clean demo_items (checkpoint no_chunk) id.
Proof. split; reflexivity. Qed.

Lemma fresh_chunk_commits_witness :
  ∃ id, runs (_process_chunk_fresh demo_digest demo_file_digest demo_reader demo_run demo_chunk demo_items
    false (demo_env "a1")) no_chunk
    (λ o s', ∃ rows entries, attempt_holds (checkpoint s') id rows entries ∧
       covers rows entries (_membership_of demo_items) ∧ is_Some o).
Proof.
  destruct (fresh_chunk_commits demo_digest demo_file_digest demo_reader demo_run demo_chunk demo_items
    demo_reader_join demo_task 1 false false (demo_env "a1") no_chunk demo_identifies demo_distinct
    no_chunk_ok (conj eq_refl (conj eq_refl eq_refl)) no_chunk_clean demo_task_ok (demo_scheduled "a1"))
    as (id & t & _ & o & Ho & rows & entries & Hh & Hc & _ & Hsome & _).
  exists id, o. split; [exact Ho|]. exists rows, entries.
  split; [exact Hh|]. split; [exact Hc|]. rewrite Hsome. eexists. reflexivity.
Defined.

(** The chunk of [demo_committed], whose journal was removed. *)
Definition demo_chunk_state : chunk_state := mkChunkState demo_committed (mkProgressDir NoFile ∅).

Lemma demo_committed_clean id : clean demo_items (checkpoint demo_chunk_state) id.
Proof.
  change (checkpoint demo_chunk_state) with demo_committed.
  assert (H : ∃ a, attempts demo_committed = {["a1" := a]} ∧ tmp (outcomes_file a) = None ∧
    tmp (entries_file a) = None).
  { exists (attempt_at demo_committed "a1"). split_and!; vm_compute; reflexivity. }
  destruct H as (a & H & Ho & He). unfold clean, attempt_at. rewrite H. destruct (decide (id = "a1")) as [->|Hne].
  - rewrite lookup_singleton_eq. split; [intros _; exact Ho|exact He].
  - by rewrite lookup_singleton_ne by congruence.
Qed.

Lemma demo_source_ok :
  source_ok demo_chunk demo_items "a1" demo_outcomes [] (demo_env "a2") demo_chunk_state.
Proof.
  split.
  - reflexivity.
  - split; vm_compute; reflexivity.
  - apply (validate_membership_Ok _ _ _ ()). vm_compute. reflexivity.
  - intros row Hrow _. unfold demo_outcomes in Hrow.
    apply elem_of_cons in Hrow as [->|[->|[]%not_elem_of_nil]%elem_of_cons]; reflexivity.
  - discriminate.
Qed.
Lemma demo_validated :
  ∃ v, validate_committed_chunk demo_digest demo_file_digest demo_committed "chunk-1" demo_run demo_chunk
    = Ok v ∧ valid v = true.
Proof.
  destruct (validate_committed_chunk demo_digest demo_file_digest demo_committed "chunk-1" demo_run
    demo_chunk) as [v|e] eqn:E; [|vm_compute in E; discriminate].
  exists v. split; [reflexivity|]. vm_compute in E. injection E as <-. reflexivity.
Qed.
Lemma demo_chunk_state_ok : chunk_ok demo_items demo_chunk_state.
Proof. split; intros id t H; discriminate H. Qed.

(** The committed chunk of which one fetch failed, ready to be retried. *)
Definition demo_chunks : run_chunks := {["chunk-1" := demo_chunk_state]}.
Lemma demo_ready :
  ready demo_digest demo_file_digest demo_run true demo_chunks demo_chunk demo_items (demo_env "a2").
Proof.
  change (state_of demo_chunks demo_chunk) with demo_chunk_state.
  assert (Hs : state_of demo_chunks demo_chunk = demo_chunk_state) by reflexivity.
  split; rewrite ?Hs.
  - exact demo_identifies.
  - exact demo_distinct.
  - exact demo_chunk_state_ok.
  - repeat split.
  - exact demo_committed_clean.
  - apply (scheduled_complete demo_items demo_task 1 false); [exact demo_task_ok|exact (demo_scheduled "a2")].
  - destruct demo_validated as (v & Hv & _). change (checkpoint demo_chunk_state) with demo_committed.
    change (chunk_id demo_chunk) with "chunk-1". rewrite Hv. reflexivity.
  - intros _ prior rows es Hp [Ho He].
    assert (prior = "a1") as -> by (vm_compute in Hp; congruence).
    destruct (so_files _ _ _ _ _ _ _ demo_source_ok) as [Ho' He'].
    assert (rows = demo_outcomes ∧ es = []) as [-> ->] by (split; congruence).
    exact demo_source_ok.
Qed.

Lemma run_commits_every_chunk_witness :
  runs (_run_pending demo_digest demo_file_digest demo_reader demo_run true
    [(demo_chunk, demo_items, (false, demo_env "a2"))] false) demo_chunks (λ summary r,
    accepted demo_digest demo_file_digest demo_run demo_chunk (checkpoint (state_of r demo_chunk)) ∧
    chunk_count summary = 1%Z).
Proof.
  destruct (run_commits_every_chunk demo_digest demo_file_digest demo_reader demo_reader_join demo_run true
    [(demo_chunk, demo_items, (false, demo_env "a2"))] demo_chunks false) as (s & Hs & Hall & Hcount & _).
  - apply NoDup_singleton.
  - intros chunk members stopped env Hin. apply list_elem_of_singleton in Hin. injection Hin as -> -> -> ->.
    split; [reflexivity|exact demo_ready].
  - exists s. split; [exact Hs|]. split; [|exact Hcount]. apply (Hall demo_chunk demo_items (false, demo_env "a2")).
    left.
Defined.

Lemma retry_keeps_chunk_committed_witness :
  always (λ s', accepted demo_digest demo_file_digest demo_run demo_chunk (checkpoint s'))
    (_process_chunk_retry demo_digest demo_file_digest demo_reader demo_run demo_chunk demo_items "a1"
       (demo_env "a2")) demo_chunk_state.
Proof.
  apply retry_keeps_chunk_committed; try reflexivity.
  - exact demo_identifies.
  - intros id t H. discriminate H.
  - discriminate.
  - destruct (validate_committed_chunk demo_digest demo_file_digest demo_committed "chunk-1" demo_run
      demo_chunk) as [v|e] eqn:E; [|vm_compute in E; discriminate].
    exists v. split; [exact E|]. vm_compute in E. injection E as <-. reflexivity.
Defined.

(** The fetch that failed is made again, the parsed outcome carried. *)
Lemma retry_carries_final_outcomes_witness :
  runs (_process_chunk_retry demo_digest demo_file_digest demo_reader demo_run demo_chunk demo_items "a1"
       (demo_env "a2")) demo_chunk_state (λ _ s', ∃ id new_rows new_entries,
    attempt_holds (checkpoint s') id new_rows new_entries ∧
    _empty_outcome "0000000001-24-000001" "u1" STATUS_PARSED_EMPTY ∈ new_rows).
Proof.
  destruct (retry_carries_final_outcomes demo_digest demo_file_digest demo_reader demo_run demo_chunk
    demo_items demo_reader_join demo_task 1 false "a1" demo_outcomes [] (demo_env "a2") demo_chunk_state)
    as (_ & id & t & _ & _ & o & Ho & rows & entries & Hh & _ & Hrows & _).
  - exact demo_identifies.
  - exact demo_distinct.
  - exact demo_chunk_state_ok.
  - repeat split.
  - exact demo_source_ok.
  - exact demo_committed_clean.
  - intros id t H. discriminate H.
  - exact demo_task_ok.
  - exact (demo_scheduled "a2").
  - exists o. split; [exact Ho|]. exists id, rows, entries. split; [exact Hh|].
    apply Hrows. left. split; [|reflexivity]. right. left.
Defined.
Example demo_fetched_again :
  wi_accession <$> fetched_again demo_items demo_outcomes (_create JNull) = ["0000000001-24-000002"].
Proof. vm_compute. reflexivity. Qed.

(** The export of a first run, killed while it opens the stage of the empty entries file. *)
Definition demo_trace : list chunk_state :=
  (_process_chunk_fresh demo_digest demo_file_digest demo_reader demo_run demo_chunk demo_items
     false (demo_env "a1") no_chunk).1.
Definition demo_killed : chunk_state := default no_chunk (demo_trace !! 9).
Definition demo_tables : tables := tables_at (journal demo_killed) "a1".

Lemma demo_killed_reachable : demo_killed ∈ demo_trace.
Proof.
  unfold demo_killed. destruct (demo_trace !! 9) as [s|] eqn:E.
  - by eapply list_elem_of_lookup_2.
  - apply lookup_ge_None in E. vm_compute in E. lia.
Qed.

Lemma demo_tables_within : within_members demo_items demo_tables.
Proof.
  split; [split|].
  - apply (bool_decide_unpack (map_Forall (λ a row, o_accession row = a) (Progress.outcomes demo_tables))).
    vm_compute. reflexivity.
  - apply (bool_decide_unpack _). vm_compute. reflexivity.
  - intros e He. vm_compute in He. by apply not_elem_of_nil in He.
  - intros a Ha. apply elem_of_elements in Ha. revert a Ha. apply Forall_forall.
    apply (bool_decide_unpack _). vm_compute. reflexivity.
Qed.

Lemma demo_blocked : blocked demo_run demo_chunk demo_items "a1" demo_tables demo_killed.
Proof.
  repeat split; try (vm_compute; reflexivity); try apply demo_tables_within.
  intros H. apply (f_equal length) in H. vm_compute in H. discriminate H.
Qed.

Lemma torn_stage_blocks_chunk_witness :
  demo_killed ∈ demo_trace ∧
  outcome_of (_process_chunk_fresh demo_digest demo_file_digest demo_reader demo_run demo_chunk
    demo_items false (demo_env "a2")) demo_killed = Err ArrowInvalid.
Proof.
  split; [exact demo_killed_reachable|].
  apply (torn_stage_blocks_chunk demo_digest demo_file_digest demo_reader demo_run demo_chunk demo_items
    demo_reader_join demo_task 1 false eq_refl "a1" demo_tables (demo_env "a2") demo_killed demo_blocked
    demo_distinct demo_task_ok (demo_scheduled "a2") eq_refl).
Defined.
