(* ===== verification/Automaton.v ===== *)
(** * Token-level Aho-Corasick matching: [foundation/text/automaton.py]

    [tokenize], the trie of token chains, the breadth-first construction of its failure
    links, and the scan.  States are numbered as the code numbers them; [transitions],
    [fail] and [outputs] are the three parallel lists.  A dictionary is an association
    list in insertion order.  Text has code points up to U+00FF, of which only '-' is
    one of the translated dashes. *)
From Stdlib Require Import Ascii.
From S2P Require Import Prelude.

(** ** Tokens *)

Record Token := mkToken { surface : string; folded : string; tok_start : nat; tok_end : nat }.

Definition in_range (lo hi c : Ascii.ascii) : bool :=
  let n := Ascii.nat_of_ascii in (n lo <=? n c)%nat && (n c <=? n hi)%nat.
Definition apostrophe : Ascii.ascii := Ascii.ascii_of_nat 39.
(** [_TOKEN_RE], and [str.translate(_DASH_TRANSLATION)] of one character. *)
Definition is_token_char (c : Ascii.ascii) : bool :=
  in_range "A"%char "Z"%char c || in_range "a"%char "z"%char c || in_range "0"%char "9"%char c || Ascii.eqb c apostrophe
  || Ascii.eqb c "-"%char.
Definition translate_dash (c : Ascii.ascii) : Ascii.ascii := if Ascii.eqb c "-"%char then " "%char else c.

Definition token_of (s : string) (tok_start tok_end : nat) : Token :=
  mkToken s (string_map lower_ascii s) tok_start tok_end.

(** [_TOKEN_RE.finditer(translated)] from position [pos]; [word] is the run being read,
    [start] where it began. *)
Fixpoint find_tokens (translated : string) (pos start : nat) (word : string) : list Token :=
  match translated with
  | "" => if String.eqb word "" then [] else [token_of word start pos]
  | String c rest =>
      if is_token_char c then
        find_tokens rest (S pos) (if String.eqb word "" then pos else start)
          (word +:+ String c "")
      else
        (if String.eqb word "" then [] else [token_of word start pos])
        ++ find_tokens rest (S pos) 0 ""
  end.
Definition tokenize (text : string) : list Token :=
  find_tokens (string_map translate_dash text) 0 0 "".

(** [str.islower()] on ASCII. *)
Fixpoint has_lower (s : string) : bool :=
  match s with "" => false | String c s => in_range "a"%char "z"%char c || has_lower s end.
Definition islower (s : string) : bool :=
  string_forallb (λ c, negb (in_range "A"%char "Z"%char c)) s && has_lower s.

(** ** Payloads *)

Record MatchPayload := mkPayload {
  family : string;
  tier_name : string;
  term : string;
  value : Z;
  is_support : bool;
  is_exclusion : bool;
  min_distinct_hits : Z;
  token_length : nat;
  case_mode : string;
}.

(** ** The machine *)

Abbreviation edges := (list (string * nat)).
Fixpoint target (tok : string) (es : edges) : option nat :=
  match es with
  | [] => None
  | (t, s) :: es => if String.eqb t tok then Some s else target tok es
  end.

Record MultiPatternAutomaton := mkAutomaton {
  transitions : list edges;
  fail : list nat;
  outputs : list (list MatchPayload);
}.
Definition empty_automaton : MultiPatternAutomaton := mkAutomaton [[]] [0] [[]].

(** One token of the loop of [_add_token_chain]: the state it leads to, new if need be. *)
Definition chain_step (mc : MultiPatternAutomaton * nat) (tok : string) : MultiPatternAutomaton * nat :=
  let '(m, curr) := mc in
  match target tok (transitions m !!! curr) with
  | Some next => (m, next)
  | None =>
      let new_state := length (transitions m) in
      (mkAutomaton (alter (λ es, es ++ [(tok, new_state)]) curr (transitions m ++ [[]]))
         (fail m ++ [0]) (outputs m ++ [[]]), new_state)
  end.
Definition _add_token_chain (m : MultiPatternAutomaton) (tokens : list string)
    (payload : MatchPayload) : MultiPatternAutomaton :=
  let '(m, curr) := foldl chain_step (m, 0) tokens in
  mkAutomaton (transitions m) (fail m) (alter (λ out, out ++ [payload]) curr (outputs m)).

(** [while v != 0 and tok not in transitions[v]: v = fail[v]] *)
Fixpoint follow (fuel : nat) (m : MultiPatternAutomaton) (tok : string) (v : nat) : nat :=
  match fuel with
  | O => v
  | S fuel =>
      match target tok (transitions m !!! v) with
      | Some _ => v
      | None => if (v =? 0)%nat then v else follow fuel m tok (fail m !!! v)
      end
  end.
(** [transitions[v].get(tok, 0)] after that loop. *)
Definition goto (m : MultiPatternAutomaton) (tok : string) (v : nat) : nat :=
  default 0 (target tok (transitions m !!! follow (length (transitions m)) m tok v)).

(** The loop body of [_link_failures] for one edge of [r]. *)
Definition link_child (r : nat) (m : MultiPatternAutomaton) (edge : string * nat) :
    MultiPatternAutomaton :=
  let '(tok, u) := edge in
  let f := goto m tok (fail m !!! r) in
  mkAutomaton (transitions m) (<[u := f]> (fail m))
    (alter (λ out, out ++ (outputs m !!! f)) u (outputs m)).
(** [while queue], one turn per state. *)
Fixpoint link_loop (fuel : nat) (m : MultiPatternAutomaton) (queue : list nat) : MultiPatternAutomaton :=
  match fuel, queue with
  | S fuel, r :: queue =>
      let children := transitions m !!! r in
      link_loop fuel (foldl (link_child r) m children) (queue ++ children.*2)
  | _, _ => m
  end.
Definition link_root (m : MultiPatternAutomaton) : MultiPatternAutomaton :=
  mkAutomaton (transitions m)
    (foldl (λ fs next_state, <[next_state := 0]> fs) (fail m) (transitions m !!! 0).*2) (outputs m).
Definition _link_failures (m : MultiPatternAutomaton) : MultiPatternAutomaton :=
  link_loop (length (transitions m)) (link_root m) (transitions m !!! 0).*2.

(** ** Scanning *)

Definition joined (l : list string) : string := String.concat " " l.

(** The guards on a payload found at position [pos]. *)
Definition accepts (tokens : list Token) (pos : nat) (payload : MatchPayload) : bool :=
  let start_pos := (Z.of_nat pos - Z.of_nat (token_length payload) + 1)%Z in
  if (start_pos <? 0)%Z then false
  else
    let window := take (S pos - Z.to_nat start_pos) (drop (Z.to_nat start_pos) tokens) in
    if String.eqb (case_mode payload) "exact" then String.eqb (joined (surface <$> window)) (term payload)
    else if String.eqb (case_mode payload) "lowercase" then forallb (λ t, islower (surface t)) window
    else true.

(** The payloads output at each position, with the state before it. *)
Fixpoint scan_from (m : MultiPatternAutomaton) (rest : list Token) (pos curr : nat) :
    list (nat * MatchPayload) :=
  match rest with
  | [] => []
  | tok :: rest =>
      let curr := goto m (folded tok) curr in
      ((pos,.) <$> outputs m !!! curr) ++ scan_from m rest (S pos) curr
  end.
Definition scan_tokens (m : MultiPatternAutomaton) (tokens : list Token) : list (nat * MatchPayload) :=
  filter (λ hit, accepts tokens hit.1 hit.2 = true) (scan_from m tokens 0 0).

(** The automaton of a list of token chains with their payloads. *)
Definition compile (patterns : list (list string * MatchPayload)) : MultiPatternAutomaton :=
  _link_failures (foldl (λ m p, _add_token_chain m p.1 p.2) empty_automaton patterns).

Example tokenize_demo :
  folded <$> tokenize "Form 10-K Annual Report" = ["form"; "10"; "k"; "annual"; "report"].
Proof. reflexivity. Qed.

(** ** The trie *)

(** The state a token chain leads to. *)
Definition walk (tr : list edges) (w : list string) : option nat :=
  foldl (λ s tok, s ≫= λ s, target tok (tr !!! s)) (Some 0) w.

Lemma walk_snoc tr w tok : walk tr (w ++ [tok]) = walk tr w ≫= λ s, target tok (tr !!! s).
Proof. unfold walk. by rewrite foldl_app. Qed.

Lemma walk_snoc_Some tr w tok u :
  walk tr (w ++ [tok]) = Some u ↔ ∃ s, walk tr w = Some s ∧ target tok (tr !!! s) = Some u.
Proof. rewrite walk_snoc, bind_Some. done. Qed.

(** Every state is reached by exactly one chain; states are numbered parents first. *)
Record trie_ok (tr : list edges) : Prop := {
  tr_nonempty : 0 < length tr;
  tr_bound w s : walk tr w = Some s → s < length tr;
  tr_reach s : s < length tr → ∃ w, walk tr w = Some s;
  tr_unique w w' s : walk tr w = Some s → walk tr w' = Some s → w = w';
  tr_above w s : walk tr w = Some s → length w ≤ s;
  tr_keys s : NoDup ((tr !!! s).*1);
}.

Lemma target_Some tok es s : target tok es = Some s → (tok, s) ∈ es.
Proof.
  induction es as [|[t s'] es IH]; simpl; [done|].
  destruct (String.eqb_spec t tok) as [->|]; [intros [= ->]; by left|]. intros H. right. by apply IH.
Qed.
Lemma elem_target tok es s : NoDup es.*1 → (tok, s) ∈ es → target tok es = Some s.
Proof.
  induction es as [|[t s'] es IH]; simpl; intros Hnd Hin; [set_solver|].
  apply NoDup_cons in Hnd as [Hn Hnd]. apply elem_of_cons in Hin as [[= -> ->]|Hin].
  - by rewrite String.eqb_refl.
  - destruct (String.eqb_spec t tok) as [->|]; [|by apply IH].
    destruct Hn. apply list_elem_of_fmap. by exists (tok, s).
Qed.
Lemma target_None tok es : target tok es = None ↔ tok ∉ es.*1.
Proof.
  induction es as [|[t s'] es IH]; simpl; [set_solver|].
  destruct (String.eqb_spec t tok) as [->|Hne]; [set_solver|]. rewrite IH. set_solver.
Qed.
Lemma target_app tok es es' :
  target tok (es ++ es') = match target tok es with Some s => Some s | None => target tok es' end.
Proof. induction es as [|[t s'] es IH]; simpl; [done|]. by destruct (String.eqb t tok). Qed.

Lemma empty_trie_ok : trie_ok [[]].
Proof.
  assert (H0 : ∀ w s, walk [[]] w = Some s → w = [] ∧ s = 0).
  { intros w. induction w as [|tok w IH] using rev_ind; intros s; [by intros [= <-]|].
    rewrite walk_snoc_Some. intros (s' & [-> ->]%IH & H). done. }
  split; simpl.
  - lia.
  - intros w s [-> ->]%H0. lia.
  - intros s Hs. exists []. unfold walk. simpl in *. f_equal. lia.
  - by intros w w' s [-> _]%H0 [-> _]%H0.
  - by intros w s [-> ->]%H0.
  - intros [|s]; simpl; constructor.
Qed.

(** Adding an edge to a new state adds one chain. *)
Section new_state.
Context (tr : list edges) (w0 : list string) (curr : nat) (tok : string).
Context (Htr : trie_ok tr) (Hw0 : walk tr w0 = Some curr) (Hnew : target tok (tr !!! curr) = None).
Definition extended : list edges :=
  alter (λ es, es ++ [(tok, length tr)]) curr (tr ++ [[]]).

Lemma curr_bound : curr < length tr.
Proof. by eapply tr_bound. Qed.

Lemma extended_curr : extended !!! curr = (tr !!! curr) ++ [(tok, length tr)].
Proof.
  pose proof curr_bound. unfold extended. rewrite list_lookup_total_alter_eq; [|rewrite length_app; simpl; lia].
  by rewrite lookup_total_app_l.
Qed.
Lemma extended_other s : s ≠ curr → extended !!! s = tr !!! s.
Proof.
  intros Hs. unfold extended. rewrite list_lookup_total_alter_ne by done.
  destruct (decide (s < length tr)); [by rewrite lookup_total_app_l|].
  rewrite lookup_total_app_r by lia. rewrite (list_lookup_total_alt tr), lookup_ge_None_2 by lia.
  by destruct (s - length tr) as [|[]].
Qed.

Lemma walk_extended w s :
  walk extended w = Some s ↔ walk tr w = Some s ∨ w = w0 ++ [tok] ∧ s = length tr.
Proof.
  pose proof curr_bound as Hb. revert s. induction w as [|t w IH] using rev_ind; intros s.
  { simpl. split; [by left|intros [?|[H _]]; [done|by destruct w0]]. }
  rewrite !walk_snoc_Some. split.
  - intros (s' & [Hs'|[-> ->]]%IH & Ht).
    + destruct (decide (s' = curr)) as [->|Hne].
      * rewrite extended_curr, target_app in Ht. destruct (target t (tr !!! curr)) eqn:E.
        { left. exists curr. by rewrite E. }
        simpl in Ht. destruct (String.eqb_spec tok t) as [<-|]; [|done]. injection Ht as <-.
        right. split; [|done]. f_equal. by eapply tr_unique.
      * rewrite extended_other in Ht by done. left. by exists s'.
    + rewrite extended_other in Ht by lia. exfalso.
      rewrite list_lookup_total_alt, lookup_ge_None_2 in Ht by lia. done.
  - intros [(s' & Hs' & Ht)|[[-> ->]%app_inj_tail ->]].
    + exists s'. split; [apply IH; by left|]. destruct (decide (s' = curr)) as [->|Hne].
      * rewrite extended_curr, target_app. by rewrite Ht.
      * by rewrite extended_other.
    + exists curr. split; [apply IH; by left|]. rewrite extended_curr, target_app, Hnew. simpl.
      by rewrite String.eqb_refl.
Qed.

Lemma length_extended : length extended = S (length tr).
Proof. unfold extended. rewrite length_alter, length_app. simpl. lia. Qed.

Lemma extended_ok : trie_ok extended.
Proof.
  pose proof curr_bound as Hb. split.
  - rewrite length_extended. lia.
  - intros w s [Hs|[_ ->]]%walk_extended; rewrite length_extended; [|lia].
    apply tr_bound in Hs; [lia|done].
  - intros s. rewrite length_extended. intros Hs. destruct (decide (s = length tr)) as [->|].
    + exists (w0 ++ [tok]). apply walk_extended. by right.
    + destruct (tr_reach tr Htr s) as [w Hw]; [lia|]. exists w. apply walk_extended. by left.
  - intros w w' s [Hs|[-> ->]]%walk_extended [Hs'|[-> Hl]]%walk_extended; [by eapply tr_unique| | |done].
    + subst s. apply tr_bound in Hs; [lia|done].
    + apply tr_bound in Hs'; [lia|done].
  - intros w s [Hs|[-> ->]]%walk_extended; [by eapply tr_above|].
    rewrite length_app. simpl. pose proof (tr_above tr Htr _ _ Hw0). lia.
  - intros s. destruct (decide (s = curr)) as [->|Hne]; [|by rewrite extended_other; [apply tr_keys|]].
    rewrite extended_curr, fmap_app. apply NoDup_app. split_and!; [by apply tr_keys| |apply NoDup_singleton].
    intros t Ht ->%list_elem_of_singleton. by apply target_None in Hnew.
Qed.
End new_state.

(** ** Building the trie *)

(** [f] gives the payloads of each chain. *)
Record built (m : MultiPatternAutomaton) (f : list string → list MatchPayload) : Prop := {
  bu_trie : trie_ok (transitions m);
  bu_fail : length (fail m) = length (transitions m);
  bu_outputs : length (outputs m) = length (transitions m);
  bu_labels w s : walk (transitions m) w = Some s → outputs m !!! s = f w;
  bu_within w : walk (transitions m) w = None → f w = [];
}.

Lemma built_empty : built empty_automaton (λ _, []).
Proof.
  split; simpl; [apply empty_trie_ok|done|done| |done].
  intros w s Hw. apply tr_bound in Hw; [|apply empty_trie_ok]. simpl in Hw. by destruct s; [|lia].
Qed.

Lemma built_chain_step m f w curr tok m' next :
  built m f → walk (transitions m) w = Some curr → chain_step (m, curr) tok = (m', next) →
  built m' f ∧ walk (transitions m') (w ++ [tok]) = Some next.
Proof.
  intros [Ht Hf Ho Hl Hw] Hc. unfold chain_step. destruct (target tok _) as [s|] eqn:E.
  { intros [= <- <-]. split; [by split|]. apply walk_snoc_Some. by exists curr. }
  intros [= <- <-].
  change (alter _ _ _) with (extended (transitions m) curr tok). split.
  - split; simpl.
    + by eapply extended_ok.
    + rewrite length_extended, length_app. simpl. lia.
    + rewrite length_extended, length_app. simpl. lia.
    + intros v s [Hs|[-> ->]]%(walk_extended _ w _ _ Ht Hc E).
      * rewrite lookup_total_app_l; [by apply Hl|]. rewrite Ho. by eapply tr_bound.
      * rewrite lookup_total_app_r, Ho, Nat.sub_diag by lia. symmetry. apply Hw.
        rewrite walk_snoc, Hc. done.
    + intros v Hv. apply Hw. destruct (walk (transitions m) v) as [s|] eqn:Es; [|done].
      assert (walk (extended (transitions m) curr tok) v = Some s)
        by (apply (walk_extended _ w _ _ Ht Hc E); by left).
      congruence.
  - apply (walk_extended _ w _ _ Ht Hc E). by right.
Qed.

Lemma built_chain m f w curr tokens m' next :
  built m f → walk (transitions m) w = Some curr → foldl chain_step (m, curr) tokens = (m', next) →
  built m' f ∧ walk (transitions m') (w ++ tokens) = Some next.
Proof.
  revert m w curr; induction tokens as [|tok tokens IH]; intros m w curr Hb Hw Heq.
  { injection Heq as <- <-. by rewrite app_nil_r. }
  cbn [foldl] in Heq. destruct (chain_step (m, curr) tok) as [m1 next1] eqn:E.
  apply (built_chain_step m f w) in E as [Hb1 Hw1]; [|done..].
  apply (IH m1 (w ++ [tok]) next1) in Heq; [|done..]. by rewrite <- app_assoc in Heq.
Qed.

(** The payloads of the patterns that are exactly [w], in the order they were added. *)
Definition own (patterns : list (list string * MatchPayload)) (w : list string) : list MatchPayload :=
  (filter (λ p, p.1 = w) patterns).*2.

Lemma own_snoc patterns p w :
  own (patterns ++ [p]) w = own patterns w ++ (if decide (p.1 = w) then [p.2] else []).
Proof.
  unfold own. rewrite filter_app, fmap_app, filter_cons, filter_nil. by case_decide.
Qed.

Lemma built_add m patterns p :
  built m (own patterns) → built (_add_token_chain m p.1 p.2) (own (patterns ++ [p])).
Proof.
  intros Hm. unfold _add_token_chain. destruct (foldl chain_step (m, 0) p.1) as [m' curr] eqn:E.
  apply (built_chain m (own patterns) [] 0) in E as [[Ht Hf Ho Hl Hw] Hc]; [|done|done]. simpl in Hc.
  split; simpl; [done..|by rewrite length_alter| |].
  - intros w s Hs. rewrite own_snoc. destruct (decide (p.1 = w)) as [<-|Hne].
    + assert (s = curr) as -> by congruence.
      rewrite list_lookup_total_alter_eq; [by rewrite (Hl p.1)|]. rewrite Ho. by eapply tr_bound.
    + rewrite app_nil_r. rewrite list_lookup_total_alter_ne; [by apply Hl|]. intros ->.
      apply Hne. by eapply tr_unique.
  - intros w Hn. rewrite own_snoc, (Hw w Hn). destruct (decide (p.1 = w)) as [<-|]; [congruence|done].
Qed.

Lemma built_patterns patterns :
  built (foldl (λ m p, _add_token_chain m p.1 p.2) empty_automaton patterns) (own patterns).
Proof.
  induction patterns as [|p patterns IH] using rev_ind; [exact built_empty|].
  rewrite foldl_app. simpl. by apply built_add.
Qed.

(** ** The longest suffix in the trie *)

Fixpoint suffixes (w : list string) : list (list string) :=
  w :: match w with [] => [] | _ :: w => suffixes w end.
(** The payloads of all suffixes of [w], longest first. *)
Definition matching (f : list string → list MatchPayload) (w : list string) : list MatchPayload :=
  suffixes w ≫= f.

Fixpoint longest (tr : list edges) (w : list string) : list string :=
  match walk tr w with
  | Some _ => w
  | None => match w with [] => [] | _ :: w => longest tr w end
  end.
Definition state_of (tr : list edges) (w : list string) : nat := default 0 (walk tr (longest tr w)).

Lemma longest_walk tr w s : walk tr w = Some s → longest tr w = w.
Proof. intros H. destruct w; simpl; [done|by rewrite H]. Qed.
Lemma longest_cons tr a w : walk tr (a :: w) = None → longest tr (a :: w) = longest tr w.
Proof. intros H. simpl. by rewrite H. Qed.
Lemma walk_longest tr w : walk tr (longest tr w) = Some (state_of tr w).
Proof.
  unfold state_of. induction w as [|a w IH]; [done|].
  destruct (walk tr (a :: w)) as [s|] eqn:E; [by rewrite (longest_walk _ _ _ E), E|].
  by rewrite (longest_cons _ _ _ E).
Qed.
Lemma state_of_walk tr w s : walk tr w = Some s → state_of tr w = s.
Proof. intros H. unfold state_of. by rewrite (longest_walk _ _ _ H), H. Qed.
Lemma state_of_cons tr a w : walk tr (a :: w) = None → state_of tr (a :: w) = state_of tr w.
Proof. intros H. unfold state_of. by rewrite longest_cons. Qed.
Lemma length_longest tr w : length (longest tr w) ≤ length w.
Proof. induction w as [|a w IH]; simpl; [done|]. case_match; simpl; lia. Qed.

Lemma walk_prefix tr w a : walk tr w = None → walk tr (w ++ [a]) = None.
Proof. intros H. by rewrite walk_snoc, H. Qed.

Lemma state_of_longest tr w a : state_of tr (longest tr w ++ [a]) = state_of tr (w ++ [a]).
Proof.
  induction w as [|b w IH]; [done|].
  destruct (walk tr (b :: w)) as [s|] eqn:E; [by rewrite (longest_walk _ _ _ E)|].
  rewrite (longest_cons _ _ _ E), IH. symmetry. apply state_of_cons, (walk_prefix _ (b :: w)), E.
Qed.

Lemma matching_longest tr f w :
  (∀ w, walk tr w = None → f w = []) → matching f (longest tr w) = matching f w.
Proof.
  intros Hf. induction w as [|a w IH]; [done|].
  destruct (walk tr (a :: w)) as [s|] eqn:E; [by rewrite (longest_walk _ _ _ E)|].
  rewrite (longest_cons _ _ _ E), IH. unfold matching. simpl. by rewrite (Hf _ E).
Qed.

(** ** Failure links *)

Section linking.
Context (tr : list edges) (f : list string → list MatchPayload).
Context (Htr : trie_ok tr) (Hwithin : ∀ w, walk tr w = None → f w = []) (Hroot : f [] = []).

(** The link and the outputs of the state of [w] are final. *)
Definition linked (m : MultiPatternAutomaton) (w : list string) : Prop :=
  ∀ s, walk tr w = Some s →
    outputs m !!! s = matching f w ∧ (w ≠ [] → fail m !!! s = state_of tr (tail w)).
Definition linked_to (m : MultiPatternAutomaton) (n : nat) : Prop :=
  ∀ w, length w ≤ n → linked m w.

Lemma target_root_cons a w s : walk tr (a :: w) = Some s → s ≠ 0.
Proof. intros H ->. apply (tr_above tr Htr) in H. simpl in H. lia. Qed.

Lemma goto_longest m n w a :
  transitions m = tr → linked_to m n → length w ≤ n →
  ∀ s, walk tr w = Some s → goto m a s = state_of tr (w ++ [a]).
Proof.
  intros Hm Hn Hw s Hs. unfold goto. rewrite Hm.
  assert (Hfuel : length w < length tr).
  { pose proof (tr_above tr Htr _ _ Hs). pose proof (tr_bound tr Htr _ _ Hs). lia. }
  revert w s Hw Hs Hfuel. generalize (length tr) as fuel. induction fuel as [|fuel IH]; intros w s Hw Hs Hfuel; [lia|].
  simpl. rewrite Hm. destruct (target a (tr !!! s)) as [u|] eqn:E.
  { rewrite E. simpl. symmetry. apply state_of_walk, walk_snoc_Some. by exists s. }
  assert (Hnone : walk tr (w ++ [a]) = None) by (by rewrite walk_snoc, Hs).
  destruct w as [|b w].
  { injection Hs as <-. simpl. rewrite E. simpl. rewrite state_of_cons by done. done. }
  destruct (Nat.eqb_spec s 0) as [->|_]; [by apply target_root_cons in Hs|].
  destruct (Hn (b :: w) Hw s Hs) as [_ Hfail]. rewrite Hfail by done. simpl tail.
  pose proof (length_longest tr w) as Hlen. simpl in Hw, Hfuel.
  rewrite (IH (longest tr w) (state_of tr w)); [|lia|apply walk_longest|lia].
  rewrite state_of_longest. symmetry. by apply state_of_cons.
Qed.

(** A linked state stays linked when others are changed. *)
Lemma linked_other m m' w s :
  walk tr w = Some s → outputs m' !!! s = outputs m !!! s → fail m' !!! s = fail m !!! s →
  linked m w → linked m' w.
Proof. intros Hs Ho Hf Hl s' Hs'. assert (s' = s) as -> by congruence. rewrite Ho, Hf. by apply Hl. Qed.

(** What the loop has done so far: [E] are the states it has linked. *)
Record linking (m : MultiPatternAutomaton) (E : list nat) : Prop := {
  li_transitions : transitions m = tr;
  li_fail : length (fail m) = length tr;
  li_outputs : length (outputs m) = length tr;
  li_linked w s : walk tr w = Some s → s ∈ E → linked m w;
  li_raw w s : walk tr w = Some s → s ∉ E → outputs m !!! s = f w;
}.

Lemma state_of_pos_linked m E n w :
  linking m E → (∀ w s, walk tr w = Some s → length w ≤ n → w ≠ [] → s ∈ E) → 0 ∉ E →
  length w ≤ n → linked m w.
Proof.
  intros Hm Hall H0 Hw s Hs. destruct w as [|a w].
  - split; [|done]. injection Hs as <-. rewrite (li_raw _ _ Hm []); [|done..].
    unfold matching. simpl. by rewrite app_nil_r.
  - by eapply (li_linked _ _ Hm); [|by eapply Hall|].
Qed.

Lemma linking_child m E r w a u :
  linking m E → walk tr w = Some r → w ≠ [] → target a (tr !!! r) = Some u → u ∉ E →
  linked_to m (length w) → linking (link_child r m (a, u)) (u :: E).
Proof.
  intros Hm Hr Hne Ht Hu Hall. pose proof Hm as [Htrans Hf Ho Hl Hraw].
  assert (Hwu : walk tr (w ++ [a]) = Some u) by (apply walk_snoc_Some; by exists r).
  pose proof (tr_bound tr Htr _ _ Hwu) as Hb.
  destruct w as [|b w]; [done|]. destruct (Hall (b :: w) (Nat.le_refl _) r Hr) as [_ Hfail].
  specialize (Hfail Hne). simpl in Hfail.
  assert (Hgoto : goto m a (fail m !!! r) = state_of tr (w ++ [a])).
  { rewrite Hfail, <- state_of_longest. pose proof (length_longest tr w).
    eapply goto_longest; [done|exact Hall|simpl; lia|apply walk_longest]. }
  assert (Hout : outputs m !!! state_of tr (w ++ [a]) = matching f (w ++ [a])).
  { rewrite <- (matching_longest tr) by done. pose proof (length_longest tr (w ++ [a])) as Hlen.
    rewrite length_app in Hlen. simpl in Hlen.
    destruct (Hall (longest tr (w ++ [a]))  ltac:(simpl; lia) _ (walk_longest _ _)) as [Ho' _]. done. }
  unfold link_child. rewrite Hgoto, Hout. split; simpl; [done|by rewrite length_insert|by rewrite length_alter| |].
  - intros v s Hs Hin. destruct (decide (s = u)) as [->|Hsu].
    + assert (v = (b :: w) ++ [a]) as -> by (by eapply tr_unique).
      intros s Hs'. assert (s = u) as -> by congruence. simpl. split.
      * rewrite list_lookup_total_alter_eq by congruence. by rewrite (Hraw _ _ Hwu Hu).
      * intros _. rewrite list_lookup_total_insert_eq by congruence. done.
    + apply elem_of_cons in Hin as [|Hin]; [done|]. eapply linked_other; [exact Hs|..|by eapply Hl].
      * simpl. by rewrite list_lookup_total_alter_ne.
      * simpl. by rewrite list_lookup_total_insert_ne.
  - intros v s Hs [Hsu Hin]%not_elem_of_cons. rewrite list_lookup_total_alter_ne by done. by apply Hraw.
Qed.

Lemma linking_ext m E E' : (∀ s, s ∈ E ↔ s ∈ E') → linking m E → linking m E'.
Proof.
  intros Heq [Ht Hf Ho Hl Hr]. split; [done..| |].
  - intros w s Hs Hin. apply Heq in Hin. by eapply Hl.
  - intros w s Hs Hin. apply (Hr w); [done|]. by rewrite Heq.
Qed.

Lemma NoDup_targets w r : walk tr w = Some r → NoDup (tr !!! r).*2.
Proof.
  intros Hr. pose proof (tr_keys tr Htr r) as Hk.
  assert (Hin : ∀ a u, (a, u) ∈ tr !!! r → walk tr (w ++ [a]) = Some u).
  { intros a u Hin. apply walk_snoc_Some. exists r. split; [done|]. by apply elem_target. }
  induction (tr !!! r) as [|[a u] es IH]; simpl in *; [constructor|].
  apply NoDup_cons in Hk as [Ha Hk]. apply NoDup_cons. split.
  - intros ([a' u'] & -> & Hin')%list_elem_of_fmap. apply Ha. simpl.
    assert (w ++ [a] = w ++ [a']) as [_ ->]%app_inj_tail.
    { eapply tr_unique; [done|apply Hin; by left|apply Hin; by right]. }
    apply list_elem_of_fmap. by exists (a', u').
  - apply IH; [done|]. intros a' u' Hin'. apply Hin. by right.
Qed.

Definition covers (E : list nat) (n : nat) : Prop :=
  ∀ w s, walk tr w = Some s → length w ≤ n → w ≠ [] → s ∈ E.

Lemma linking_children m E r w es :
  linking m E → walk tr w = Some r → w ≠ [] → covers E (length w) → 0 ∉ E →
  (∀ e, e ∈ es → target e.1 (tr !!! r) = Some e.2) → NoDup es.*2 → (∀ u, u ∈ es.*2 → u ∉ E) →
  linking (foldl (link_child r) m es) (E ++ es.*2).
Proof.
  intros Hm Hr Hw Hc H0 Hes Hnd Hout. revert m E Hm Hc H0 Hout.
  induction es as [|[a u] es IH]; intros m E Hm Hc H0 Hout; simpl; [by rewrite app_nil_r|].
  simpl in Hnd. apply NoDup_cons in Hnd as [Hu Hnd].
  assert (Ht : target a (tr !!! r) = Some u) by apply (Hes (a, u) ltac:(by left)).
  assert (Hu0 : u ≠ 0).
  { assert (Hwu : walk tr (w ++ [a]) = Some u) by (apply walk_snoc_Some; by exists r).
    intros ->. apply (tr_above tr Htr) in Hwu. rewrite length_app in Hwu. simpl in Hwu. lia. }
  apply (linking_ext _ ((u :: E) ++ es.*2)); [intros s; rewrite !elem_of_app, !elem_of_cons; tauto|].
  apply IH; [intros e He; apply Hes; by right|done| | |set_solver|].
  - eapply linking_child; [done..|apply Hout; by left|]. intros v Hv. by eapply state_of_pos_linked.
  - intros v s Hs Hv Hne. right. by eapply Hc.
  - intros v Hv. apply not_elem_of_cons. split; [intros ->; done|]. apply Hout. by right.
Qed.

(** The queue holds states of one depth, then of the next. *)
Definition at_depth (n : nat) (s : nat) : Prop := ∃ w, walk tr w = Some s ∧ length w = n.
Definition levels (queue : list nat) : Prop :=
  ∃ n q1 q2, queue = q1 ++ q2 ∧ Forall (at_depth n) q1 ∧ Forall (at_depth (S n)) q2.

Lemma levels_pop r queue children :
  levels (r :: queue) → (∀ n, at_depth n r → Forall (at_depth (S n)) children) →
  ∃ n, at_depth n r ∧ Forall (λ s, at_depth n s ∨ at_depth (S n) s) (r :: queue) ∧
    levels (queue ++ children).
Proof.
  intros (n & [|r' q1] & q2 & Heq & H1 & H2) Hch; simpl in Heq.
  - subst q2. exists (S n). pose proof H2 as [Hr Hq]%Forall_cons. split_and!; [done| |].
    + apply (Forall_impl _ _ _ H2). by left.
    + exists (S n), queue, children. split_and!; [done|done|by apply Hch].
  - injection Heq as <- ->. pose proof H1 as [Hr Hq]%Forall_cons. exists n. split_and!; [done| |].
    + rewrite app_comm_cons. apply Forall_app. split; [apply (Forall_impl _ _ _ H1); by left|].
      apply (Forall_impl _ _ _ H2). by right.
    + exists n, q1, (q2 ++ children). rewrite app_assoc. split_and!; [done|done|].
      apply Forall_app. split; [done|by apply Hch].
Qed.

(** The breadth-first search: [seen] were taken from the queue. *)
Record searching (m : MultiPatternAutomaton) (seen queue : list nat) : Prop := {
  se_linking : linking m (seen ++ queue);
  se_root : 0 ∉ seen ++ queue;
  se_distinct : NoDup (seen ++ queue);
  se_bound s : s ∈ seen ++ queue → s < length tr;
  se_closed s a u : target a (tr !!! s) = Some u → s < length tr →
    (u ∈ seen ++ queue ↔ s = 0 ∨ s ∈ seen);
  se_levels : levels queue;
}.

Lemma searching_missing m seen queue w s :
  searching m seen queue → walk tr w = Some s → w ≠ [] → s ∉ seen ++ queue →
  ∃ v r, walk tr v = Some r ∧ r ∈ queue ∧ length v < length w.
Proof.
  intros Hs. revert s. induction w as [|a w IH] using rev_ind; intros s Hw Hne Hout; [done|].
  apply walk_snoc_Some in Hw as (r & Hr & Ht). pose proof (tr_bound tr Htr _ _ Hr) as Hb.
  rewrite (se_closed _ _ _ Hs _ _ _ Ht Hb) in Hout. rewrite length_app. simpl.
  destruct (decide (r ∈ queue)) as [Hq|Hq]; [exists w, r; split_and!; [done|done|lia]|].
  destruct (IH r Hr) as (v & r' & Hv & Hin & Hlen).
  - intros ->. injection Hr as <-. tauto.
  - rewrite elem_of_app. tauto.
  - exists v, r'. split_and!; [done|done|lia].
Qed.

Lemma at_depth_walk n s w : at_depth n s → walk tr w = Some s → length w = n.
Proof. intros (v & Hv & <-) Hw. f_equal. by eapply tr_unique. Qed.

Lemma searching_step m seen r queue :
  searching m seen (r :: queue) →
  searching (foldl (link_child r) m (tr !!! r)) (seen ++ [r]) (queue ++ (tr !!! r).*2).
Proof.
  intros Hs. pose proof Hs as [Hl H0 Hnd Hb Hcl Hlev].
  assert (Hrl : r < length tr) by (apply Hb; set_solver).
  destruct (tr_reach tr Htr r Hrl) as [w Hw].
  assert (Hedge : ∀ e, e ∈ tr !!! r → target e.1 (tr !!! r) = Some e.2)
    by (intros [a u] He; apply elem_target; [apply tr_keys, Htr|done]).
  assert (Hchild : ∀ u, u ∈ (tr !!! r).*2 → ∃ a, target a (tr !!! r) = Some u)
    by (intros u ([a u'] & -> & He)%list_elem_of_fmap; exists a; by apply (Hedge (a, u'))).
  assert (Hr0 : r ≠ 0) by (intros ->; apply H0; set_solver).
  assert (Hne : w ≠ []) by (intros ->; injection Hw as <-; done).
  assert (Hrs : r ∉ seen).
  { intros Hin. apply NoDup_app in Hnd as (_ & Hd & _). apply (Hd r Hin). by left. }
  assert (Hnew : ∀ u, u ∈ (tr !!! r).*2 → u ∉ seen ++ r :: queue).
  { intros u [a Ha]%Hchild. rewrite (Hcl _ _ _ Ha Hrl). tauto. }
  destruct (levels_pop r queue (tr !!! r).*2 Hlev) as (n & Hn & Hall & Hlev').
  { intros n Hn. apply Forall_forall. intros u [a Ha]%Hchild. exists (w ++ [a]). split.
    - apply walk_snoc_Some. by exists r.
    - rewrite length_app, (at_depth_walk n r w Hn Hw). simpl. lia. }
  pose proof (at_depth_walk n r w Hn Hw) as Hwn.
  assert (Hcov : covers (seen ++ r :: queue) (length w)).
  { intros v s Hv Hlen Hvne. destruct (decide (s ∈ seen ++ r :: queue)) as [|Hout]; [done|exfalso].
    destruct (searching_missing m seen (r :: queue) v s Hs Hv Hvne Hout) as (v' & r' & Hv' & Hin & Hlt).
    rewrite Forall_forall in Hall. destruct (Hall r' Hin) as [Hd|Hd];
      pose proof (at_depth_walk _ _ _ Hd Hv'); lia. }
  assert (Heq : (seen ++ [r]) ++ queue ++ (tr !!! r).*2 = (seen ++ r :: queue) ++ (tr !!! r).*2)
    by (by rewrite <- !app_assoc).
  split; rewrite ?Heq.
  - by eapply linking_children; [..|eapply NoDup_targets|].
  - apply not_elem_of_app. split; [done|]. intros [a Ha]%Hchild.
    assert (Hw0 : walk tr (w ++ [a]) = Some 0) by (apply walk_snoc_Some; by exists r).
    apply (tr_above tr Htr) in Hw0. rewrite length_app in Hw0. simpl in Hw0. lia.
  - apply NoDup_app. split_and!; [done| |by eapply NoDup_targets]. intros u Hu Hu'. by apply (Hnew u Hu').
  - intros s [?|[a Ha]%Hchild]%elem_of_app; [by apply Hb|].
    apply (tr_bound tr Htr (w ++ [a])). apply walk_snoc_Some. by exists r.
  - intros s a u Ht Hsl. rewrite !(elem_of_app _ _ u), elem_of_app, list_elem_of_singleton.
    rewrite <- elem_of_app, (Hcl _ _ _ Ht Hsl). split; [|intros [?|[?| ->]]; [tauto|tauto|]].
    + intros [?|[a' Ha']%Hchild]; [tauto|]. right; right.
      destruct (tr_reach tr Htr s Hsl) as [v Hv].
      assert (v ++ [a] = w ++ [a']) as [-> _]%app_inj_tail.
      { eapply tr_unique; [done|apply walk_snoc_Some; by exists s|apply walk_snoc_Some; by exists r]. }
      congruence.
    + right. apply list_elem_of_fmap. exists (a, u). split; [done|]. by apply target_Some.
  - done.
Qed.

Lemma searching_end m seen w s : searching m seen [] → walk tr w = Some s → w ≠ [] → s ∈ seen.
Proof.
  intros Hs Hw Hne. destruct (decide (s ∈ seen ++ [])) as [H|H]; [by rewrite app_nil_r in H|].
  destruct (searching_missing m seen [] w s Hs Hw Hne H) as (v & r & _ & Hin & _). set_solver.
Qed.

Lemma searching_short m seen queue : searching m seen queue → length (seen ++ queue) < length tr.
Proof.
  intros [_ H0 Hnd Hb _ _].
  assert (Hsub : 0 :: seen ++ queue ⊆+ seq 0 (length tr)).
  { apply NoDup_submseteq; [by apply NoDup_cons|]. intros s [->|Hs]%elem_of_cons; apply elem_of_seq.
    - pose proof (tr_nonempty tr Htr). lia.
    - specialize (Hb s Hs). lia. }
  apply submseteq_length in Hsub. rewrite length_seq in Hsub. simpl in Hsub. lia.
Qed.

Lemma link_loop_linked fuel m seen queue :
  searching m seen queue → length tr ≤ fuel + length seen →
  transitions (link_loop fuel m queue) = tr ∧ ∀ w, linked (link_loop fuel m queue) w.
Proof.
  revert m seen queue; induction fuel as [|fuel IH]; intros m seen queue Hs Hfuel.
  { apply searching_short in Hs. rewrite length_app in Hs. lia. }
  destruct queue as [|r queue]; simpl.
  - split; [apply (se_linking _ _ _ Hs)|]. intros w s Hw.
    apply (state_of_pos_linked m (seen ++ []) (length w)); [apply Hs| |apply Hs|done|done].
    intros v s' Hv _ Hne. rewrite app_nil_r. by eapply searching_end.
  - rewrite (li_transitions _ _ (se_linking _ _ _ Hs)). apply (IH _ (seen ++ [r])); [by apply searching_step|].
    rewrite length_app. simpl. lia.
Qed.
End linking.

Lemma link_root_fail (fs l : list nat) s :
  foldl (λ (fs : list nat) next_state, <[next_state := 0]> fs) fs l !!! s = (if decide (s ∈ l) then 0 else fs !!! s) ∨
  length fs ≤ s.
Proof.
  revert fs; induction l as [|x l IH]; intros fs; simpl; [by left|].
  destruct (IH (<[x:=0]> fs)) as [->|H]; [|right; by rewrite length_insert in H].
  destruct (decide (length fs ≤ s)) as [|Hs]; [by right|left].
  case_decide as H1; case_decide as H2; try done; [set_solver|..].
  - assert (s = x) as -> by set_solver. by rewrite list_lookup_total_insert_eq by lia.
  - by rewrite list_lookup_total_insert_ne by set_solver.
Qed.
Lemma length_link_root (fs l : list nat) :
  length (foldl (λ (fs : list nat) next_state, <[next_state := 0]> fs) fs l) = length fs.
Proof. revert fs; induction l as [|x l IH]; intros fs; simpl; [done|]. by rewrite IH, length_insert. Qed.

Lemma searching_start m f :
  built m f → f [] = [] →
  searching (transitions m) f (link_root m) [] (transitions m !!! 0).*2.
Proof.
  intros [Ht Hf Ho Hl Hw] Hroot.
  assert (Hchild : ∀ u, u ∈ (transitions m !!! 0).*2 →
    ∃ a, target a (transitions m !!! 0) = Some u ∧ walk (transitions m) [a] = Some u).
  { intros u ([a u'] & -> & He)%list_elem_of_fmap. exists a.
    assert (target a (transitions m !!! 0) = Some u') by (apply elem_target; [by apply tr_keys|done]).
    split; [done|].
    apply (walk_snoc_Some _ [] a). exists 0. split; [done|]. done. }
  split; simpl.
  - split; simpl; [done|by rewrite length_link_root|done| |by intros w s Hs _; apply Hl].
    intros w s Hs (a & Ha & Hwa)%Hchild s' Hs'. assert (s' = s) as -> by congruence.
    assert (w = [a]) as -> by (by eapply tr_unique). simpl. split.
    + rewrite (Hl _ _ Hwa). unfold matching. simpl. rewrite Hroot. simpl. by rewrite app_nil_r.
    + intros _. destruct (link_root_fail (fail m) (transitions m !!! 0).*2 s) as [->|Hlen].
      * by case_decide; [|destruct H; apply list_elem_of_fmap; exists (a, s); split; [|apply target_Some]].
      * apply tr_bound in Hwa; [lia|done].
  - intros (a & _ & Ha)%Hchild. apply tr_above in Ha; [|done]. simpl in Ha. lia.
  - by eapply (NoDup_targets _ Ht []).
  - intros s (a & _ & Ha)%Hchild. by eapply tr_bound.
  - intros s a u Hu Hs. split.
    + intros (a' & _ & Ha')%Hchild. left. destruct (tr_reach _ Ht s Hs) as [v Hv].
      assert (v ++ [a] = [] ++ [a']) as [-> _]%app_inj_tail.
      { eapply tr_unique; [done|apply walk_snoc_Some; by exists s|done]. }
      by injection Hv as <-.
    + intros [->|Hin]; [|set_solver]. apply list_elem_of_fmap. exists (a, u). split; [done|].
      by apply target_Some.
  - exists 1, (transitions m !!! 0).*2, []. split_and!; [by rewrite app_nil_r| |constructor].
    apply Forall_forall. intros u (a & _ & Ha)%Hchild. exists [a]. done.
Qed.

(** ** The machine finds exactly the patterns *)

(** The naive matcher: at each position, the patterns that are a suffix of the tokens read
    so far, longest first, patterns of equal tokens in the order they were added. *)
Definition reference_scan (patterns : list (list string * MatchPayload)) (tokens : list Token) :
    list (nat * MatchPayload) :=
  filter (λ hit, accepts tokens hit.1 hit.2 = true)
    (mjoin (imap (λ pos _, (pos,.) <$> matching (own patterns) (take (S pos) (folded <$> tokens))) tokens)).

Definition all_nonempty (patterns : list (list string * MatchPayload)) : Prop :=
  Forall (λ p, p.1 ≠ []) patterns.

Lemma own_nil patterns : all_nonempty patterns → own patterns [] = [].
Proof.
  intros Hne. unfold own. rewrite list_filter_none; [done|]. intros p Hp.
  unfold all_nonempty in Hne. rewrite Forall_forall in Hne. by apply Hne.
Qed.

Record compiled_for (m : MultiPatternAutomaton) (patterns : list (list string * MatchPayload)) : Prop := {
  cf_trie : trie_ok (transitions m);
  cf_within w : walk (transitions m) w = None → own patterns w = [];
  cf_linked w : linked (transitions m) (own patterns) m w;
}.

Lemma compile_compiled patterns : all_nonempty patterns → compiled_for (compile patterns) patterns.
Proof.
  intros Hne. pose proof (built_patterns patterns) as Hb. pose proof (own_nil patterns Hne) as Hnil.
  unfold compile, _link_failures. set (m := foldl _ _ _) in *.
  destruct (link_loop_linked (transitions m) (own patterns) (bu_trie _ _ Hb) (bu_within _ _ Hb) Hnil
    (length (transitions m)) (link_root m) [] (transitions m !!! 0).*2) as [Ht Hl].
  - by apply searching_start.
  - simpl. lia.
  - split; rewrite ?Ht; [apply Hb|apply Hb|exact Hl].
Qed.

Lemma goto_state m patterns w a :
  compiled_for m patterns → goto m a (state_of (transitions m) w) = state_of (transitions m) (w ++ [a]).
Proof.
  intros [Ht Hw Hl]. rewrite <- state_of_longest.
  eapply (goto_longest _ (own patterns)); [done|done| |reflexivity|apply walk_longest].
  intros v _. apply Hl.
Qed.
Lemma outputs_state m patterns w :
  compiled_for m patterns → outputs m !!! state_of (transitions m) w = matching (own patterns) w.
Proof.
  intros [Ht Hw Hl]. rewrite <- (matching_longest (transitions m)) by done.
  by destruct (Hl (longest (transitions m) w) _ (walk_longest _ _)) as [-> _].
Qed.

Lemma scan_from_reference m patterns rest w :
  compiled_for m patterns →
  scan_from m rest (length w) (state_of (transitions m) w) =
  mjoin (imap (λ i _, (length w + i,.) <$> matching (own patterns) (w ++ take (S i) (folded <$> rest))) rest).
Proof.
  intros Hm. revert w; induction rest as [|tok rest IH]; intros w; [done|].
  cbn [scan_from imap]. rewrite (goto_state m patterns) by done. rewrite (outputs_state m patterns) by done.
  replace (S (length w)) with (length (w ++ [folded tok])) by (rewrite length_app; simpl; lia).
  rewrite IH. simpl. rewrite Nat.add_0_r, take_0. f_equal. f_equal. apply imap_ext. intros i x _. simpl.
  rewrite length_app, <- app_assoc. simpl. by rewrite <- Nat.add_assoc.
Qed.

Lemma elem_of_suffixes w v : v ∈ suffixes w ↔ ∃ u, w = u ++ v.
Proof.
  induction w as [|a w IH]; simpl.
  - rewrite list_elem_of_singleton. split; [intros ->; by exists []|]. intros (u & Hu).
    symmetry in Hu. by apply app_nil in Hu as [_ ->].
  - rewrite elem_of_cons, IH. split.
    + intros [->|[u ->]]; [by exists []|by exists (a :: u)].
    + intros [[|b u] Hu]; [by left|]. injection Hu as -> ->. right. by exists u.
Qed.
Lemma elem_of_own patterns w p : p ∈ own patterns w ↔ (w, p) ∈ patterns.
Proof.
  unfold own. rewrite list_elem_of_fmap. split.
  - intros ([w' p'] & -> & [Heq Hin]%list_elem_of_filter). simpl in *. by subst.
  - intros Hin. exists (w, p). split; [done|]. by apply list_elem_of_filter.
Qed.
Lemma elem_of_matching patterns w p :
  p ∈ matching (own patterns) w ↔ ∃ u v, w = u ++ v ∧ (v, p) ∈ patterns.
Proof.
  unfold matching. rewrite list_elem_of_bind. setoid_rewrite elem_of_own.
  setoid_rewrite elem_of_suffixes. naive_solver.
Qed.

Lemma scan_tokens_reference patterns tokens :
  all_nonempty patterns → scan_tokens (compile patterns) tokens = reference_scan patterns tokens.
Proof.
  intros Hne%compile_compiled. unfold scan_tokens, reference_scan.
  pose proof (scan_from_reference _ _ tokens [] Hne) as Hs. simpl in Hs. by rewrite <- Hs.
Qed.

Lemma elem_of_scan_from patterns tokens pos p :
  all_nonempty patterns →
  (pos, p) ∈ scan_from (compile patterns) tokens 0 0 ↔
  pos < length tokens ∧ ∃ u v, take (S pos) (folded <$> tokens) = u ++ v ∧ (v, p) ∈ patterns.
Proof.
  intros Hne%compile_compiled. pose proof (scan_from_reference _ _ tokens [] Hne) as Hs.
  change (state_of _ []) with 0 in Hs. simpl in Hs. rewrite Hs, list_elem_of_join. split.
  - intros (l & Hp & (i & tok & Hl & Htok)%elem_of_lookup_imap). subst l.
    apply list_elem_of_fmap in Hp as (p' & [= -> ->] & Hp). apply lookup_lt_Some in Htok.
    by apply elem_of_matching in Hp.
  - intros (Hpos & Hin). apply lookup_lt_is_Some in Hpos as [tok Htok].
    eexists. split; [|apply elem_of_lookup_imap; by exists pos, tok].
    apply list_elem_of_fmap. exists p. split; [done|]. by apply elem_of_matching.
Qed.

(** A payload is reported at a position exactly when one of its chains ends there. *)
Lemma elem_of_scan patterns tokens pos p :
  all_nonempty patterns →
  (pos, p) ∈ scan_tokens (compile patterns) tokens ↔
  accepts tokens pos p = true ∧ pos < length tokens ∧
  ∃ u v, take (S pos) (folded <$> tokens) = u ++ v ∧ (v, p) ∈ patterns.
Proof.
  intros Hne. unfold scan_tokens. rewrite list_elem_of_filter, elem_of_scan_from by done. done.
Qed.

(** C12: the Aho-Corasick machine is the naive matcher.  For any token chains, its scan
    returns, position by position, exactly the accepted payloads of the chains that end
    there, longest chain first and chains with the same tokens in the order they were added. *)
Theorem scan_tokens_is_naive patterns tokens :
  Forall (λ p, p.1 ≠ []) patterns →
  scan_tokens (compile patterns) tokens = reference_scan patterns tokens.
Proof. apply scan_tokens_reference. Qed.

Definition demo_payload (term : string) : MatchPayload :=
  mkPayload "f" "t" term 3 false false 1 (length (tokenize term)) "fold".
Definition demo_patterns : list (list string * MatchPayload) :=
  (λ term, (folded <$> tokenize term, demo_payload term)) <$>
    ["annual report"; "report"; "report on form"; "annual report on paper"].

Lemma scan_tokens_is_naive_witness :
  (λ h, (h.1, term h.2)) <$> scan_tokens (compile demo_patterns) (tokenize "The Annual Report on Form 10-K") =
  [(2, "annual report"); (2, "report"); (4, "report on form")].
Proof.
  rewrite scan_tokens_is_naive; [reflexivity|]. repeat constructor; discriminate.
Defined.
