(* ===== verification/Matcher.v ===== *)
(** * Lexical matching: [LexicalMatcher] of [foundation/text/automaton.py]

    Categories of phrases compiled into one automaton, and the three questions asked of a
    text: whether any phrase occurs, which occur where, and which category the text
    belongs to.  A confidence is a float with four decimals, the nearest double to its
    decimal value; it is represented by that value in ten-thousandths, an order embedding.
    [set(...)] of strings iterates in an unspecified order, which is an argument. *)
From S2P Require Import Prelude Automaton.

(** ** Dictionaries in insertion order *)

Section dict.
Context {A : Type}.
Fixpoint dict_get (key : string) (d : list (string * A)) : option A :=
  match d with
  | [] => None
  | (k, v) :: d => if String.eqb k key then Some v else dict_get key d
  end.
(** [d[key] = f(d.get(key))] *)
Fixpoint dict_update (key : string) (f : option A → A) (d : list (string * A)) : list (string * A) :=
  match d with
  | [] => [(key, f None)]
  | (k, v) :: d => if String.eqb k key then (k, f (Some v)) :: d else (k, v) :: dict_update key f d
  end.
End dict.

Record MatchedTerm := mkMatched {
  mt_category : string;
  mt_tier_name : string;
  mt_term : string;
  token_position : nat;
  mt_value : Z;
  mt_is_support : bool;
  mt_is_exclusion : bool;
}.

Record ClassificationMatch := mkClassification {
  category : option string;
  confidence : Z;      (* ten-thousandths *)
  score : Z;
  matched_terms : list string;
  supporting_terms : list string;
  exclusion_terms : list string;
  reason : string;
}.

(** Value, least number of distinct hits, support. *)
Abbreviation tier_info := (Z * Z * bool)%type.
Record LexicalMatcher := mkMatcher {
  automaton : MultiPatternAutomaton;
  categories : list string;
  tier_requirements : list (string * list (string * tier_info));
}.

(** [tier_confidence], in ten-thousandths. *)
Definition tier_confidence (value distinct_hits : Z) : Z :=
  if (3 <=? value)%Z then Z.min 9800 (9000 + 200 * distinct_hits)
  else if (2 <=? value)%Z then Z.min 9500 (8000 + 300 * distinct_hits)
  else Z.min 6000 (4500 + 500 * distinct_hits).

(** ** Compilation *)

Definition primary_payload (cat_name term : string) (token_length : nat) : MatchPayload :=
  mkPayload cat_name "primary" term 3 false false 1 token_length "fold".
Definition exclusion_payload (cat_name term : string) (token_length : nat) : MatchPayload :=
  mkPayload cat_name "_exclusion" term 0 false true 1 token_length "fold".

(** The body of the two loops over phrases. *)
Definition add_phrase (payload : string → nat → MatchPayload) (m : MultiPatternAutomaton)
    (phrase : string) : MultiPatternAutomaton :=
  match folded <$> tokenize phrase with
  | [] => m
  | tokens => _add_token_chain m tokens (payload (strip phrase) (length tokens))
  end.
Definition compile_lexical_matcher (cats exclusions : list (string * list string)) : LexicalMatcher :=
  let m := foldl (λ m c, foldl (add_phrase (primary_payload c.1)) m c.2) empty_automaton cats in
  let m := foldl (λ m c, foldl (add_phrase (exclusion_payload c.1)) m c.2) m exclusions in
  mkMatcher (_link_failures m) cats.*1 ((λ c, (c.1, [("primary", (3, 1, false)%Z)])) <$> cats).

(** ** Queries *)

Fixpoint has_any_from (m : MultiPatternAutomaton) (cat_filter : option (list string))
    (tokens : list Token) (curr : nat) : bool :=
  match tokens with
  | [] => false
  | tok :: tokens =>
      let curr := goto m (folded tok) curr in
      existsb (λ payload, negb (is_exclusion payload) &&
        match cat_filter with None => true | Some cats => bool_decide (family payload ∈ cats) end)
        (outputs m !!! curr)
      || has_any_from m cat_filter tokens curr
  end.
Definition has_any (matcher : LexicalMatcher) (tokens : list Token) (cats : option (list string)) : bool :=
  match tokens with [] => false | _ => has_any_from (automaton matcher) cats tokens 0 end.

Definition find_matches (matcher : LexicalMatcher) (tokens : list Token) : list MatchedTerm :=
  match tokens with
  | [] => []
  | _ =>
      (λ hit, mkMatched (family hit.2) (tier_name hit.2) (term hit.2) hit.1 (value hit.2)
                (is_support hit.2) (is_exclusion hit.2))
      <$> scan_tokens (automaton matcher) tokens
  end.

Abbreviation hits := (list (string * list (string * gset string))).
Definition add_hit (h : hits) (payload : MatchPayload) : hits :=
  dict_update (family payload) (λ tiers,
    dict_update (tier_name payload) (λ terms, {[term payload]} ∪ default ∅ terms) (default [] tiers)) h.
Definition scan_family_hits (m : MultiPatternAutomaton) (tokens : list Token) : hits :=
  foldl add_hit [] (scan_tokens m tokens).*2.

(** What the loop over the tiers of a category computes. *)
Record tally := mkTally { t_score : Z; distinct_pos_count : Z; pos_terms : list string; supp_terms : list string }.
Definition tally_tier (requirements : list (string * tier_info)) (t : tally)
    (tier : string * gset string) : tally :=
  let '(tier_name, terms) := tier in
  if String.eqb tier_name "_exclusion" then t
  else
    let '(tier_val, min_distinct, is_support) := default (2, 1, false)%Z (dict_get tier_name requirements) in
    if (min_distinct <=? Z.of_nat (size terms))%Z then
      if (is_support : bool)
      then mkTally (t_score t + 1) (distinct_pos_count t) (pos_terms t) (supp_terms t ++ elements terms)
      else mkTally (Z.max (t_score t) tier_val) (distinct_pos_count t + Z.of_nat (size terms))
             (pos_terms t ++ elements terms) (supp_terms t)
    else t.

Definition sorted (l : list string) : list string := merge_sort String.le l.
Definition no_match : ClassificationMatch := mkClassification None 0 0 [] [] [] "".

(** One turn of the loop over the allowed categories. *)
Definition consider (matcher : LexicalMatcher) (h : hits) (best : ClassificationMatch) (cat : string) :
    ClassificationMatch :=
  match dict_get cat h with
  | None => best
  | Some cat_hits =>
      if negb (bool_decide (default ∅ (dict_get "_exclusion" cat_hits) = ∅)) then best
      else
        let t := foldl (tally_tier (default [] (dict_get cat (tier_requirements matcher))))
                   (mkTally 0 0 [] []) cat_hits in
        let conf := tier_confidence (t_score t) (distinct_pos_count t) in
        if (0 <? t_score t)%Z
           && ((confidence best <? conf)%Z || (conf =? confidence best)%Z && (score best <? t_score t)%Z)
        then mkClassification (Some cat) conf (t_score t) (sorted (pos_terms t)) (sorted (supp_terms t)) []
               ("matched " +:+ cat +:+ " with score " +:+ pretty (t_score t))
        else best
  end.
(** [allowed] is the set of candidates in the order it iterates. *)
Definition classify (matcher : LexicalMatcher) (tokens : list Token) (allowed : list string) :
    ClassificationMatch :=
  match tokens with
  | [] => no_match
  | _ => foldl (consider matcher (scan_family_hits (automaton matcher) tokens))
           (mkClassification None 0 0 [] [] [] "no matching phrases") allowed
  end.

Example classify_demo :
  let matcher := compile_lexical_matcher [("annual", ["form 10-k"; "annual report"]); ("proxy", ["proxy statement"])]
                   [("annual", ["quarterly report"])] in
  (category (classify matcher (tokenize "Annual report on Form 10-K") ["annual"; "proxy"]),
   category (classify matcher (tokenize "Form 10-K with quarterly report mention") ["annual"; "proxy"]),
   has_any matcher (tokenize "a PROXY statement") None) = (Some "annual", None, true).
Proof. vm_compute. reflexivity. Qed.

(** ** Compilation as a list of patterns *)

Definition phrase_patterns (payload : string → nat → MatchPayload) (phrases : list string) :
    list (list string * MatchPayload) :=
  phrases ≫= λ phrase,
    match folded <$> tokenize phrase with
    | [] => []
    | tokens => [(tokens, payload (strip phrase) (length tokens))]
    end.
Definition patterns_of (cats exclusions : list (string * list string)) :
    list (list string * MatchPayload) :=
  (cats ≫= λ c, phrase_patterns (primary_payload c.1) c.2)
  ++ (exclusions ≫= λ c, phrase_patterns (exclusion_payload c.1) c.2).

Lemma foldl_bind {A B C} (f : C → B → C) (g : A → list B) (h : C → A → C) l m :
  (∀ m a, h m a = foldl f m (g a)) → foldl h m l = foldl f m (l ≫= g).
Proof.
  intros Hh. revert m; induction l as [|a l IH]; intros m; simpl; [done|].
  by rewrite foldl_app, IH, Hh.
Qed.

Lemma compile_lexical_matcher_patterns cats exclusions :
  automaton (compile_lexical_matcher cats exclusions) = compile (patterns_of cats exclusions).
Proof.
  unfold compile_lexical_matcher, compile, patterns_of. simpl. f_equal. rewrite foldl_app.
  assert (Hp : ∀ payload m phrases, foldl (add_phrase payload) m phrases =
    foldl (λ m p, _add_token_chain m p.1 p.2) m (phrase_patterns payload phrases)).
  { intros payload m phrases. apply foldl_bind. intros m' phrase. unfold add_phrase.
    by destruct (folded <$> tokenize phrase). }
  rewrite <- (foldl_bind _ _ _ exclusions _ (λ m c, Hp (exclusion_payload c.1) m c.2)).
  by rewrite <- (foldl_bind _ _ _ cats _ (λ m c, Hp (primary_payload c.1) m c.2)).
Qed.

Lemma elem_of_phrase_patterns payload phrases v p :
  (v, p) ∈ phrase_patterns payload phrases ↔
  ∃ phrase, phrase ∈ phrases ∧ v = folded <$> tokenize phrase ∧ v ≠ [] ∧
    p = payload (strip phrase) (length v).
Proof.
  unfold phrase_patterns. rewrite list_elem_of_bind. split.
  - intros (phrase & Hin & Hp). exists phrase. destruct (folded <$> tokenize phrase) eqn:E; [set_solver|].
    apply list_elem_of_singleton in Hin as [= -> ->]. done.
  - intros (phrase & Hp & -> & Hne & ->). exists phrase. split; [|done].
    by destruct (folded <$> tokenize phrase); [|left].
Qed.

(** ** What occurs in a text *)

(** The tokens of [phrase] occur in a row, up to case. *)
Definition occurs (phrase : string) (tokens : list Token) : Prop :=
  folded <$> tokenize phrase ≠ [] ∧
  ∃ before after, folded <$> tokens = before ++ (folded <$> tokenize phrase) ++ after.
(** [t] is a phrase of [cat], without surrounding blanks, that occurs. *)
Definition found (cats : list (string * list string)) (tokens : list Token) (cat t : string) : Prop :=
  ∃ phrases phrase, (cat, phrases) ∈ cats ∧ phrase ∈ phrases ∧ occurs phrase tokens ∧ t = strip phrase.

Lemma patterns_nonempty cats exclusions : all_nonempty (patterns_of cats exclusions).
Proof.
  apply Forall_forall. intros [v p]. unfold patterns_of.
  rewrite elem_of_app, !list_elem_of_bind.
  intros [(c & (phrase & _ & _ & Hne & _)%elem_of_phrase_patterns & _)|
          (c & (phrase & _ & _ & Hne & _)%elem_of_phrase_patterns & _)]; done.
Qed.

Lemma ends_somewhere (v w : list string) :
  v ≠ [] → (∃ pos, pos < length w ∧ ∃ u, take (S pos) w = u ++ v) ↔ ∃ before after, w = before ++ v ++ after.
Proof.
  intros Hne. split.
  - intros (pos & Hpos & u & Hu). exists u, (drop (S pos) w). by rewrite app_assoc, <- Hu, take_drop.
  - intros (u & u' & ->). exists (length u + length v - 1). destruct v as [|a v]; [done|]. split.
    + rewrite !length_app. simpl. lia.
    + exists u. rewrite app_assoc, take_app_le; rewrite ?length_app; simpl; [|lia].
      rewrite take_ge; [done|]. rewrite length_app. simpl. lia.
Qed.

Lemma accepts_pattern tokens pos p v u :
  case_mode p = "fold" → token_length p = length v → take (S pos) (folded <$> tokens) = u ++ v →
  accepts tokens pos p = true.
Proof.
  intros Hc Hl Hu. unfold accepts. rewrite Hl, Hc.
  apply (f_equal length) in Hu. rewrite length_take, length_app in Hu.
  destruct (Z.ltb_spec (Z.of_nat pos - Z.of_nat (length v) + 1) 0); [lia|]. done.
Qed.

(** A payload of the automaton is the one of a phrase. *)
Definition payload_of (cats exclusions : list (string * list string)) (phrase : string) (p : MatchPayload) : Prop :=
  (∃ c phrases, (c, phrases) ∈ cats ∧ phrase ∈ phrases ∧
     p = primary_payload c (strip phrase) (length (folded <$> tokenize phrase))) ∨
  (∃ c phrases, (c, phrases) ∈ exclusions ∧ phrase ∈ phrases ∧
     p = exclusion_payload c (strip phrase) (length (folded <$> tokenize phrase))).

Lemma elem_of_patterns cats exclusions v p :
  (v, p) ∈ patterns_of cats exclusions ↔
  ∃ phrase, v = folded <$> tokenize phrase ∧ v ≠ [] ∧ payload_of cats exclusions phrase p.
Proof.
  unfold patterns_of, payload_of. rewrite elem_of_app, !list_elem_of_bind.
  setoid_rewrite elem_of_phrase_patterns. split.
  - intros [([c phrases] & (phrase & Hp & -> & Hne & ->) & Hc)|([c phrases] & (phrase & Hp & -> & Hne & ->) & Hc)];
      exists phrase; split_and!; eauto 10.
  - intros (phrase & -> & Hne & [(c & phrases & Hc & Hp & ->)|(c & phrases & Hc & Hp & ->)]);
      [left|right]; exists (c, phrases); eauto 10.
Qed.

Lemma payload_fold cats exclusions phrase p :
  payload_of cats exclusions phrase p →
  case_mode p = "fold" ∧ token_length p = length (folded <$> tokenize phrase).
Proof. by intros [(c & phrases & _ & _ & ->)|(c & phrases & _ & _ & ->)]. Qed.

Lemma scanned_payloads cats exclusions tokens p :
  p ∈ (scan_from (compile (patterns_of cats exclusions)) tokens 0 0).*2 ↔
  ∃ phrase, occurs phrase tokens ∧ payload_of cats exclusions phrase p.
Proof.
  rewrite list_elem_of_fmap. unfold occurs. split.
  - intros ([pos p'] & -> & (Hpos & u & v & Hu & (phrase & -> & Hne & Hp)%elem_of_patterns)%elem_of_scan_from);
      [|apply patterns_nonempty].
    exists phrase. split_and!; [done| |done]. apply ends_somewhere; [done|]. exists pos.
    rewrite length_fmap. eauto.
  - intros (phrase & [Hne (pos & Hpos & u & Hu)%ends_somewhere] & Hp); [|done]. exists (pos, p). split; [done|].
    rewrite length_fmap in Hpos. apply elem_of_scan_from; [apply patterns_nonempty|]. split; [done|].
    exists u, (folded <$> tokenize phrase). split; [done|]. apply elem_of_patterns. eauto.
Qed.
Lemma accepted_payloads cats exclusions tokens p :
  p ∈ (scan_tokens (compile (patterns_of cats exclusions)) tokens).*2 ↔
  ∃ phrase, occurs phrase tokens ∧ payload_of cats exclusions phrase p.
Proof.
  rewrite <- scanned_payloads, !list_elem_of_fmap. split; intros ([pos p'] & -> & Hin); exists (pos, p').
  - split; [done|]. unfold scan_tokens in Hin. by apply list_elem_of_filter in Hin as [_ ?].
  - split; [done|]. unfold scan_tokens. apply list_elem_of_filter. split; [|done].
    apply elem_of_scan_from in Hin as (Hpos & u & v & Hu & Hp); [|apply patterns_nonempty].
    apply elem_of_patterns in Hp as (phrase & -> & _ & [Hc Hl]%payload_fold). by eapply accepts_pattern.
Qed.

(** ** [has_any] *)

Lemma has_any_from_scan m cats tokens pos curr :
  has_any_from m cats tokens curr = true ↔
  ∃ p, p ∈ (scan_from m tokens pos curr).*2 ∧ is_exclusion p = false ∧
    match cats with None => True | Some cats => family p ∈ cats end.
Proof.
  revert pos curr; induction tokens as [|tok tokens IH]; intros pos curr; simpl.
  { split; [done|]. intros (p & Hp & _). set_solver. }
  rewrite orb_true_iff, (IH (S pos)), existsb_exists. setoid_rewrite fmap_app.
  setoid_rewrite elem_of_app. rewrite <- list_fmap_compose. unfold compose. simpl. rewrite list_fmap_id.
  split.
  - intros [(p & Hp & Hok)|(p & Hp & Hok)]; exists p; [|tauto].
    apply list_elem_of_In in Hp. apply andb_true_iff in Hok as [He Hf].
    split_and!; [by left|by destruct (is_exclusion p)|]. destruct cats; [by apply bool_decide_eq_true in Hf|done].
  - intros (p & [Hp|Hp] & He & Hf); [left|right; eauto]. exists p. rewrite <- list_elem_of_In, He.
    split; [done|]. destruct cats; [by apply bool_decide_eq_true|done].
Qed.

Lemma occurs_nonempty phrase tokens : occurs phrase tokens → tokens ≠ [].
Proof.
  intros [Hne (u & v & H)] ->. simpl in H. symmetry in H. apply app_nil in H as [_ H].
  by apply app_nil in H as [H _].
Qed.

(** [has_any] tells whether a phrase of the asked categories occurs in the text, its
    tokens in a row up to case; exclusions play no part. *)
Theorem has_any_spec cats exclusions tokens asked :
  has_any (compile_lexical_matcher cats exclusions) tokens asked = true ↔
  ∃ cat t, found cats tokens cat t ∧ match asked with None => True | Some l => cat ∈ l end.
Proof.
  unfold has_any, found. destruct tokens as [|tok tokens].
  { split; [done|]. intros (cat & t & (phrases & phrase & _ & _ & Ho & _) & _).
    by apply occurs_nonempty in Ho. }
  rewrite compile_lexical_matcher_patterns, (has_any_from_scan _ _ _ 0). setoid_rewrite scanned_payloads.
  split.
  - intros (p & (phrase & Ho & [(c & phrases & Hc & Hp & ->)|(c & phrases & Hc & Hp & ->)]) & He & Hf);
      [|done].
    exists c, (strip phrase). split; [|done]. exists phrases, phrase. done.
  - intros (c & t & (phrases & phrase & Hc & Hp & Ho & ->) & Hf).
    exists (primary_payload c (strip phrase) (length (folded <$> tokenize phrase))). split; [|done].
    exists phrase. split; [done|]. left. by exists c, phrases.
Qed.

(** ** [scan_family_hits] *)

Section dict_lemmas.
Context {A : Type}.
Implicit Types (d : list (string * A)).
Lemma dict_get_update key f d key' :
  dict_get key' (dict_update key f d) =
  if decide (key = key') then Some (f (dict_get key d)) else dict_get key' d.
Proof.
  induction d as [|[k v] d IH]; simpl.
  - case_decide as H; destruct (String.eqb_spec key key'); done.
  - destruct (String.eqb_spec k key) as [->|Hk]; simpl.
    + case_decide as H; destruct (String.eqb_spec key key'); done.
    + rewrite IH. destruct (String.eqb_spec k key') as [->|]; [|done].
      case_decide; [congruence|done].
Qed.
Lemma dict_update_keys key f d x : x ∈ (dict_update key f d).*1 ↔ x = key ∨ x ∈ d.*1.
Proof.
  induction d as [|[k v] d IH]; simpl; [set_solver|].
  destruct (String.eqb_spec k key) as [->|]; simpl; set_solver.
Qed.
Lemma dict_update_distinct key f d : NoDup d.*1 → NoDup (dict_update key f d).*1.
Proof.
  induction d as [|[k v] d IH]; simpl; [intros _; apply NoDup_singleton|].
  intros [Hk Hd]%NoDup_cons. destruct (String.eqb_spec k key) as [->|Hne]; simpl; apply NoDup_cons; [done|].
  split; [|by apply IH]. rewrite dict_update_keys. intros [->|?]; done.
Qed.
Lemma dict_get_Some key d v : dict_get key d = Some v → (key, v) ∈ d.
Proof.
  induction d as [|[k v'] d IH]; simpl; [done|].
  destruct (String.eqb_spec k key) as [->|]; [intros [= ->]; by left|]. intros H. right. by apply IH.
Qed.
Lemma dict_get_None key d : dict_get key d = None ↔ key ∉ d.*1.
Proof.
  induction d as [|[k v'] d IH]; simpl; [set_solver|].
  destruct (String.eqb_spec k key) as [->|]; [set_solver|]. rewrite IH. set_solver.
Qed.
End dict_lemmas.

Definition terms_of (h : hits) (cat tier : string) : gset string :=
  default ∅ (dict_get cat h ≫= dict_get tier).

Lemma terms_of_add h p cat tier :
  terms_of (add_hit h p) cat tier =
  if decide (family p = cat ∧ tier_name p = tier) then {[term p]} ∪ terms_of h cat tier
  else terms_of h cat tier.
Proof.
  unfold terms_of, add_hit. rewrite dict_get_update.
  destruct (decide (family p = cat)) as [<-|Hf]; [|by rewrite decide_False by naive_solver]. simpl.
  rewrite dict_get_update. destruct (decide (tier_name p = tier)) as [<-|Ht].
  - rewrite decide_True by done. simpl. by destruct (dict_get (family p) h).
  - rewrite decide_False by naive_solver. by destruct (dict_get (family p) h).
Qed.

Lemma elem_of_terms ps cat tier t :
  t ∈ terms_of (foldl add_hit [] ps) cat tier ↔
  ∃ p, p ∈ ps ∧ family p = cat ∧ tier_name p = tier ∧ term p = t.
Proof.
  induction ps as [|p ps IH] using rev_ind.
  { unfold terms_of. simpl. split; [set_solver|]. intros (p & Hp & _). set_solver. }
  rewrite foldl_app. simpl. rewrite terms_of_add.
  assert (Hsplit : (∃ p', p' ∈ ps ++ [p] ∧ family p' = cat ∧ tier_name p' = tier ∧ term p' = t) ↔
    (∃ p', p' ∈ ps ∧ family p' = cat ∧ tier_name p' = tier ∧ term p' = t) ∨
    family p = cat ∧ tier_name p = tier ∧ term p = t).
  { setoid_rewrite elem_of_app. setoid_rewrite list_elem_of_singleton. split.
    - intros (p' & [Hp | ->] & H); [left; by exists p'|by right].
    - intros [(p' & Hp & H)|H]; [exists p'; tauto|exists p; tauto]. }
  rewrite Hsplit, <- IH. case_decide as Hd; [rewrite elem_of_union, elem_of_singleton|]; intuition congruence.
Qed.

(** The tiers of a category are distinct, named as the payloads' tiers, and not empty. *)
Definition hits_ok (tiers : list string) (h : hits) : Prop :=
  ∀ cat d, dict_get cat h = Some d →
    NoDup d.*1 ∧ d.*1 ⊆ tiers ∧ ∀ tier terms, dict_get tier d = Some terms → terms ≠ ∅.

Lemma hits_ok_fold tiers ps :
  (∀ p, p ∈ ps → tier_name p ∈ tiers) → hits_ok tiers (foldl add_hit [] ps).
Proof.
  induction ps as [|p ps IH] using rev_ind; intros Hps; [by intros cat d|].
  rewrite foldl_app. simpl. intros cat d. unfold add_hit. rewrite dict_get_update.
  assert (Hok : hits_ok tiers (foldl add_hit [] ps)) by (apply IH; set_solver).
  destruct (decide (family p = cat)) as [<-|]; [|apply Hok]. intros [= <-].
  assert (Hd : let d := default [] (dict_get (family p) (foldl add_hit [] ps)) in
    NoDup d.*1 ∧ d.*1 ⊆ tiers ∧ ∀ tier terms, dict_get tier d = Some terms → terms ≠ ∅).
  { destruct (dict_get (family p) _) eqn:E; simpl; [by eapply Hok|].
    split_and!; [constructor|set_solver|done]. }
  destruct Hd as (Hnd & Hsub & Hne). split_and!.
  - by apply dict_update_distinct.
  - intros x [->|Hx]%dict_update_keys; [apply Hps; set_solver|by apply Hsub].
  - intros tier terms. rewrite dict_get_update. case_decide; [|apply Hne]. intros [= <-]. set_solver.
Qed.

(** ** [classify] *)

Section classification.
Context (cats exclusions : list (string * list string)) (tokens : list Token).
Abbreviation matcher := (compile_lexical_matcher cats exclusions).
Definition text_hits : hits := scan_family_hits (automaton matcher) tokens.

Lemma found_primary cat t : t ∈ terms_of text_hits cat "primary" ↔ found cats tokens cat t.
Proof.
  unfold text_hits, scan_family_hits. rewrite elem_of_terms, compile_lexical_matcher_patterns.
  setoid_rewrite accepted_payloads. unfold found. split.
  - intros (p & (phrase & Ho & [(c & phrases & Hc & Hp & ->)|(c & phrases & Hc & Hp & ->)]) & Hf & Ht & <-);
      simpl in *; [subst c|done]. by exists phrases, phrase.
  - intros (phrases & phrase & Hc & Hp & Ho & ->).
    exists (primary_payload cat (strip phrase) (length (folded <$> tokenize phrase))).
    split; [|done]. exists phrase. split; [done|]. left. by exists cat, phrases.
Qed.
Lemma found_exclusion cat t : t ∈ terms_of text_hits cat "_exclusion" ↔ found exclusions tokens cat t.
Proof.
  unfold text_hits, scan_family_hits. rewrite elem_of_terms, compile_lexical_matcher_patterns.
  setoid_rewrite accepted_payloads. unfold found. split.
  - intros (p & (phrase & Ho & [(c & phrases & Hc & Hp & ->)|(c & phrases & Hc & Hp & ->)]) & Hf & Ht & <-);
      simpl in *; [done|subst c]. by exists phrases, phrase.
  - intros (phrases & phrase & Hc & Hp & Ho & ->).
    exists (exclusion_payload cat (strip phrase) (length (folded <$> tokenize phrase))).
    split; [|done]. exists phrase. split; [done|]. right. by exists cat, phrases.
Qed.

Lemma text_hits_ok : hits_ok ["primary"; "_exclusion"] text_hits.
Proof.
  unfold text_hits, scan_family_hits. rewrite compile_lexical_matcher_patterns. apply hits_ok_fold.
  intros p (phrase & _ & [(c & phrases & _ & _ & ->)|(c & phrases & _ & _ & ->)])%accepted_payloads; set_solver.
Qed.

Lemma requirements_of cat t :
  found cats tokens cat t → dict_get cat (tier_requirements matcher) = Some [("primary", (3, 1, false)%Z)].
Proof.
  intros (phrases & phrase & Hc & _). simpl. clear -Hc. induction cats as [|[c ps] l IH]; simpl; [set_solver|].
  destruct (String.eqb_spec c cat) as [|Hne]; [done|]. apply IH. apply elem_of_cons in Hc as [[= -> ->]|]; done.
Qed.

Definition eligible (cat : string) : Prop :=
  terms_of text_hits cat "primary" ≠ ∅ ∧ terms_of text_hits cat "_exclusion" = ∅.
#[local] Instance eligible_dec cat : Decision (eligible cat).
Proof. apply and_dec; apply _. Defined.

Definition confidence_of (cat : string) : Z :=
  tier_confidence 3 (Z.of_nat (size (terms_of text_hits cat "primary"))).
Definition won_by (cat : string) : ClassificationMatch :=
  mkClassification (Some cat) (confidence_of cat) 3 (sorted (elements (terms_of text_hits cat "primary")))
    [] [] ("matched " +:+ cat +:+ " with score " +:+ pretty 3%Z).

Lemma consider_eligible best cat :
  consider matcher text_hits best cat =
  if decide (eligible cat) then
    if (confidence best <? confidence_of cat)%Z || (confidence_of cat =? confidence best)%Z && (score best <? 3)%Z
    then won_by cat else best
  else best.
Proof.
  unfold consider. destruct (dict_get cat text_hits) as [d|] eqn:Ed.
  2: { rewrite decide_False; [done|]. intros [H _]. apply H. unfold terms_of. by rewrite Ed. }
  destruct (text_hits_ok cat d Ed) as (Hnd & Hsub & Hne).
  assert (Hex : terms_of text_hits cat "_exclusion" = default ∅ (dict_get "_exclusion" d))
    by (unfold terms_of; by rewrite Ed).
  assert (Hpr : terms_of text_hits cat "primary" = default ∅ (dict_get "primary" d))
    by (unfold terms_of; by rewrite Ed).
  case_bool_decide as Hexc; cbn [negb]; [|rewrite decide_False; [done|]; intros [_ H]; by rewrite Hex in H].
  assert (Hno : dict_get "_exclusion" d = None).
  { destruct (dict_get "_exclusion" d) as [e|] eqn:E; [|done]. simpl in Hexc. by apply Hne in E. }
  destruct d as [|[k terms] d].
  { rewrite decide_False; [done|]. intros [H _]. by rewrite Hpr in H. }
  assert (k = "primary" ∧ d = []) as [-> ->].
  { apply dict_get_None in Hno. simpl in Hnd, Hsub, Hno. apply NoDup_cons in Hnd as [Hk Hnd].
    assert (k = "primary") as -> by set_solver. split; [done|].
    destruct d as [|[k' terms'] d]; [done|]. simpl in *. exfalso.
    assert (k' = "primary") as -> by set_solver. set_solver. }
  simpl in Hpr. specialize (Hne "primary" terms eq_refl).
  destruct (set_choose_L terms Hne) as [t Ht].
  rewrite (requirements_of cat t) by (apply found_primary; by rewrite Hpr).
  rewrite decide_True by (split; [by rewrite Hpr|by rewrite Hex]).
  unfold won_by, confidence_of. rewrite Hpr. simpl.
  assert (Hsize : (1 <=? Z.of_nat (size terms))%Z = true).
  { apply Z.leb_le. destruct (size terms) eqn:E; [by apply size_empty_inv in E; set_solver|lia]. }
  rewrite Hsize. simpl. done.
Qed.

(** The best of the candidates considered so far. *)
Definition best_of (considered : list string) (r : ClassificationMatch) : Prop :=
  match category r with
  | None => confidence r = 0%Z ∧ score r = 0%Z ∧ ∀ cat, cat ∈ considered → ¬ eligible cat
  | Some c => r = won_by c ∧ c ∈ considered ∧ eligible c ∧
      ∀ cat, cat ∈ considered → eligible cat → (confidence_of cat ≤ confidence r)%Z
  end.

Lemma confidence_of_pos cat : (0 < confidence_of cat)%Z.
Proof. unfold confidence_of, tier_confidence. simpl. lia. Qed.

Lemma best_of_consider considered r cat :
  best_of considered r → best_of (considered ++ [cat]) (consider matcher text_hits r cat).
Proof.
  intros Hr. rewrite consider_eligible. destruct (decide (eligible cat)) as [He|He].
  2: { unfold best_of in *. destruct (category r) as [c|].
    - destruct Hr as (-> & Hc & Hel & Hmax). split_and!; [done|set_solver|done|]. set_solver.
    - destruct Hr as (Hc & Hs & Hno). split_and!; [done|done|]. set_solver. }
  pose proof (confidence_of_pos cat) as Hpos. destruct (Z.ltb_spec (confidence r) (confidence_of cat)) as [Hlt|Hge]; simpl.
  - unfold best_of in *. simpl. split_and!; [done|set_solver|done|].
    intros c [Hc | ->%list_elem_of_singleton]%elem_of_app Hel; [|done].
    destruct (category r); [|by destruct Hr as (_ & _ & Hno); destruct (Hno c Hc)].
    destruct Hr as (_ & _ & _ & Hmax). specialize (Hmax c Hc Hel). lia.
  - unfold best_of in *. destruct (category r) as [c|] eqn:Er; [|by destruct Hr as (Hr & _); lia].
    destruct Hr as (-> & Hc & Hel & Hmax). simpl in *. rewrite andb_false_r. simpl.
    split_and!; [done|set_solver|done|]. intros c' [Hc'| ->%list_elem_of_singleton]%elem_of_app Hel'; [by apply Hmax|lia].
Qed.

Lemma best_of_fold r considered allowed :
  best_of considered r → best_of (considered ++ allowed) (foldl (consider matcher text_hits) r allowed).
Proof.
  revert r considered; induction allowed as [|cat allowed IH]; intros r considered Hr; simpl.
  { by rewrite app_nil_r. }
  replace (considered ++ cat :: allowed) with ((considered ++ [cat]) ++ allowed) by (by rewrite <- app_assoc).
  by apply IH, best_of_consider.
Qed.
End classification.

Definition qualifies (cats exclusions : list (string * list string)) (tokens : list Token) (cat : string) : Prop :=
  (∃ t, found cats tokens cat t) ∧ ∀ t, ¬ found exclusions tokens cat t.

Lemma eligible_qualifies cats exclusions tokens cat :
  eligible cats exclusions tokens cat ↔ qualifies cats exclusions tokens cat.
Proof.
  unfold eligible, qualifies. setoid_rewrite <- (found_primary cats exclusions).
  setoid_rewrite <- (found_exclusion cats exclusions). split.
  - intros [Hp He]. split; [by apply set_choose_L|]. intros t. by rewrite He; apply not_elem_of_empty.
  - intros [[t Ht] He]. split; [set_solver|]. by apply elem_of_equiv_empty_L.
Qed.

Lemma distinct_terms_le cats exclusions tokens cat ts :
  NoDup ts → (∀ t, t ∈ ts → found cats tokens cat t) →
  length ts ≤ size (terms_of (text_hits cats exclusions tokens) cat "primary").
Proof.
  intros Hnd Hts. rewrite <- (size_list_to_set (C := gset string)) by done.
  apply subseteq_size. intros t. rewrite elem_of_list_to_set, (found_primary cats exclusions). apply Hts.
Qed.

Lemma tier_confidence_mono m n : (m ≤ n)%Z → (tier_confidence 3 m ≤ tier_confidence 3 n)%Z.
Proof. unfold tier_confidence. simpl. lia. Qed.

(** [classify] picks the best supported category.  It answers no category exactly when no
    candidate has a phrase in the text without an exclusion of its own; otherwise the answer
    is such a candidate, with its distinct phrases found, sorted, and the confidence they
    give, and no other candidate's phrases give more. *)
Theorem classify_spec cats exclusions tokens allowed :
  let r := classify (compile_lexical_matcher cats exclusions) tokens allowed in
  match category r with
  | None => ∀ cat, cat ∈ allowed → ¬ qualifies cats exclusions tokens cat
  | Some c =>
      c ∈ allowed ∧ qualifies cats exclusions tokens c ∧ score r = 3%Z ∧
      (∀ t, t ∈ matched_terms r ↔ found cats tokens c t) ∧
      NoDup (matched_terms r) ∧ StronglySorted String.le (matched_terms r) ∧
      confidence r = tier_confidence 3 (Z.of_nat (length (matched_terms r))) ∧
      ∀ cat ts, cat ∈ allowed → qualifies cats exclusions tokens cat → NoDup ts →
        (∀ t, t ∈ ts → found cats tokens cat t) →
        (tier_confidence 3 (Z.of_nat (length ts)) ≤ confidence r)%Z
  end.
Proof.
  cbn zeta. destruct (decide (tokens = [])) as [->|Hne].
  { simpl. intros cat _ [[t (phrases & phrase & _ & _ & Ho & _)] _]. by apply occurs_nonempty in Ho. }
  assert (Hb : best_of cats exclusions tokens allowed
    (classify (compile_lexical_matcher cats exclusions) tokens allowed)).
  { unfold classify. destruct tokens as [|tok l] eqn:E; [done|]. rewrite <- E.
    apply (best_of_fold cats exclusions tokens _ []). split_and!; [done|done|set_solver]. }
  unfold best_of in Hb. destruct (category _) as [c|] eqn:Ec.
  - destruct Hb as (Hr & Hc & He & Hmax). rewrite Hr. simpl in *. unfold sorted.
    assert (Hperm : merge_sort String.le (elements (terms_of (text_hits cats exclusions tokens) c "primary"))
      ≡ₚ elements (terms_of (text_hits cats exclusions tokens) c "primary")) by apply merge_sort_Permutation.
    split_and!; [done|by apply eligible_qualifies|done| | | | |].
    + intros t. by rewrite Hperm, elem_of_elements, found_primary.
    + rewrite Hperm. apply NoDup_elements.
    + apply StronglySorted_merge_sort; apply _.
    + by rewrite Hperm.
    + intros cat ts Hcat Hq%eligible_qualifies Hnd Hts. specialize (Hmax cat Hcat Hq). rewrite Hr in Hmax.
      simpl in Hmax. etrans; [|exact Hmax]. apply tier_confidence_mono.
      pose proof (distinct_terms_le cats exclusions tokens cat ts Hnd Hts). lia.
  - destruct Hb as (_ & _ & Hno). intros cat Hcat Hq%eligible_qualifies. by apply (Hno cat).
Qed.
