(* ===== verification/Evidence.v ===== *)
(** * Lexical evidence packs and their scores: [foundation/text/evidence.py]

    A pack is a list of tiers of terms; [compile_evidence_pack] checks and sorts them and
    builds the automaton of all terms ([compile_family_automaton] of
    [foundation/text/automaton.py]); [score_tokens] scans a text once and walks the tiers,
    stopping as soon as it may.  Confidences are decimals in ten-thousandths, which the
    code's doubles represent up to rounding of the last place; it only compares them with
    zero and with each other where they are apart.  The diagnostic [reason] text is a
    value of [Reason]. *)
From Stdlib Require Import Ascii.
From S2P Require Import Prelude Automaton Matcher.

Inductive CaseMode := FOLD | EXACT | LOWERCASE.
#[global] Instance CaseMode_eq_dec : EqDecision CaseMode.
Proof. solve_decision. Defined.
(** [CaseMode.value] *)
Definition mode_value (mode : CaseMode) : string :=
  match mode with FOLD => "fold" | EXACT => "exact" | LOWERCASE => "lowercase" end.

(** ** Packs *)

Record EvidenceTier := mkTier {
  et_name : string;
  et_priority : Z;
  et_value : Z;
  et_terms : list string;
  et_match_kind : string;
  et_min_distinct_hits : Z;
  et_case_mode : CaseMode;
  et_support : bool;
}.
(** [EvidenceTier.__post_init__] *)
Definition check_tier (t : EvidenceTier) : result EvidenceTier :=
  _ ← raise_if (negb (bool_decide (et_value t ∈ [1; 2; 3]%Z))) (ValueError "tier value");
  _ ← raise_if (et_support t && negb (et_value t =? 1)%Z) (ValueError "support tiers must use value=1");
  _ ← raise_if (negb (bool_decide (et_match_kind t ∈ ["unigram"; "ngram"]))) (ValueError "tier match_kind");
  _ ← raise_if (et_min_distinct_hits t <? 1)%Z (ValueError "tier min_distinct_hits must be >= 1");
  Ok t.

Record LexicalEvidencePack := mkPack {
  pk_name : string;
  pk_tiers : list EvidenceTier;
  pk_exclusion_terms : list string;
}.

Record CompiledTier := mkCompiled {
  ct_name : string;
  priority : Z;
  ct_value : Z;
  match_kind : string;
  ct_min_distinct_hits : Z;
  ct_case_mode : CaseMode;
  support : bool;
  unigrams : gset string;
  ngram_index : list (nat * gset (list string));
}.
Record CompiledEvidencePack := mkCompiledPack {
  cp_name : string;
  tiers : list CompiledTier;
  band_max_value : list Z;
  exclusions : gset string;
  cp_automaton : option MultiPatternAutomaton;
}.

(** ** Matching by windows *)

Definition token_to_key (token : Token) (mode : CaseMode) : option string :=
  match mode with
  | FOLD => Some (folded token)
  | EXACT => Some (surface token)
  | LOWERCASE => if islower (surface token) then Some (surface token) else None
  end.
Definition window_key (tokens : list Token) (start length : nat) (mode : CaseMode) : option string :=
  joined <$> mapM (λ token, token_to_key token mode) (take length (drop start tokens)).

(** [key.split(" ")] *)
Fixpoint split_spaces (word s : string) : list string :=
  match s with
  | "" => [word]
  | String c s => if Ascii.eqb c " "%char then word :: split_spaces "" s
                  else split_spaces (word +:+ String c "") s
  end.

Definition add_position {A} `{EqDecision A} (key : A) (position : nat)
    (matched : list (A * list nat)) : list (A * list nat) :=
  if decide (key ∈ matched.*1)
  then (λ e, if decide (e.1 = key) then (e.1, e.2 ++ [position]) else e) <$> matched
  else matched ++ [(key, [position])].

Definition match_unigrams (tokens : list Token) (vocab : gset string) (mode : CaseMode) :
    list (string * list nat) :=
  foldl (λ matched '(position, token),
    match token_to_key token mode with
    | Some key => if decide (key ∈ vocab) then add_position key position matched else matched
    | None => matched
    end) [] (imap pair tokens).

Definition match_ngrams (tokens : list Token) (index_by_length : list (nat * gset (list string)))
    (mode : CaseMode) : list (list string * list nat) :=
  foldl (λ matched '(len, index),
    if (length tokens <? len)%nat then matched
    else foldl (λ matched start,
      match window_key tokens start len mode with
      | Some key => if decide (split_spaces "" key ∈ index)
                    then add_position (split_spaces "" key) start matched else matched
      | None => matched
      end) matched (seq 0 (length tokens - len + 1))) [] index_by_length.

(** ** Compilation *)

(** [band_max_values] *)
Fixpoint band_max_values_from (current_priority current_max : Z) (l : list CompiledTier) : list Z :=
  match l with
  | [] => [current_max]
  | tier :: l =>
      if (priority tier =? current_priority)%Z
      then band_max_values_from current_priority (Z.max current_max (ct_value tier)) l
      else current_max :: band_max_values_from (priority tier) (ct_value tier) l
  end.
Definition band_max_values (compiled : list CompiledTier) : list Z :=
  match compiled with [] => [] | tier :: l => band_max_values_from (priority tier) (ct_value tier) l end.

Definition _validate_term_tokens (tokens : list Token) (match_kind : string) (mode : CaseMode) : result unit :=
  _ ← raise_if (String.eqb match_kind "unigram" && negb (length tokens =? 1)%nat)
        (ValueError "unigram term must tokenize to one token");
  _ ← raise_if (String.eqb match_kind "ngram" && (length tokens <? 2)%nat)
        (ValueError "ngram term must tokenize to two or more tokens");
  raise_if (bool_decide (mode = LOWERCASE) && negb (forallb (λ t, islower (surface t)) tokens))
    (ValueError "lowercase-mode term must be all lowercase").

(** One token of [_check_collision]. *)
Definition check_collision_token (mode : CaseMode) (seen : gmap string CaseMode) (token : Token) :
    result (gmap string CaseMode) :=
  _ ← raise_if (match seen !! folded token with
                | Some existing => negb (bool_decide (existing = mode))
                | None => false end)
        (ValueError "term is configured under multiple case modes");
  Ok (<[folded token := mode]> seen).
Definition _check_collision (pack : LexicalEvidencePack) : result unit :=
  _ ← foldr_m (λ seen tier,
        foldr_m (λ seen term, foldr_m (check_collision_token (et_case_mode tier)) seen (tokenize term))
          seen (et_terms tier)) ∅ (pk_tiers pack);
  Ok ().

(** [index.setdefault(len(phrase), set()).add(phrase)], kept sorted by length. *)
Fixpoint add_phrase_at (len : nat) (phrase : list string) (index : list (nat * gset (list string))) :
    list (nat * gset (list string)) :=
  match index with
  | [] => [(len, {[phrase]})]
  | (n, phrases) :: index' =>
      if (n =? len)%nat then (n, {[phrase]} ∪ phrases) :: index'
      else if (len <? n)%nat then (len, {[phrase]}) :: index
      else (n, phrases) :: add_phrase_at len phrase index'
  end.

Definition unigram_of (tier : EvidenceTier) (term : string) : result string :=
  let tokens := tokenize term in
  _ ← _validate_term_tokens tokens "unigram" (et_case_mode tier);
  match tokens with
  | t :: _ => Ok (if bool_decide (et_case_mode tier = EXACT) then surface t else folded t)
  | [] => Err (ValueError "unigram term must tokenize to one token")
  end.
Definition ngram_of (tier : EvidenceTier) (term : string) : result (list string) :=
  let tokens := tokenize term in
  _ ← _validate_term_tokens tokens "ngram" (et_case_mode tier);
  Ok (default [] (mapM (λ t, token_to_key t (et_case_mode tier)) tokens)).

Definition _build_compiled_tier (tier : EvidenceTier) : result CompiledTier :=
  _ ← raise_if (bool_decide (et_terms tier = [])) (ValueError "tier has no terms");
  if String.eqb (et_match_kind tier) "unigram" then
    words ← mapr (unigram_of tier) (et_terms tier);
    Ok (mkCompiled (et_name tier) (et_priority tier) (et_value tier) (et_match_kind tier)
          (et_min_distinct_hits tier) (et_case_mode tier) (et_support tier) (list_to_set words) [])
  else
    phrases ← mapr (ngram_of tier) (et_terms tier);
    Ok (mkCompiled (et_name tier) (et_priority tier) (et_value tier) (et_match_kind tier)
          (et_min_distinct_hits tier) (et_case_mode tier) (et_support tier) ∅
          (foldl (λ index phrase, add_phrase_at (length phrase) phrase index) [] phrases)).

(** [str.casefold()]; U+00B5, which it maps outside of U+00FF, is kept. *)
Definition casefold_char (c : ascii) : string :=
  if Ascii.eqb c (ascii_of_nat 223) then "ss"
  else if in_range (ascii_of_nat 192) (ascii_of_nat 222) c && negb (Ascii.eqb c (ascii_of_nat 215))
  then String (ascii_of_nat (nat_of_ascii c + 32)) ""
  else String (lower_ascii c) "".
Fixpoint casefold (s : string) : string :=
  match s with "" => "" | String c s => casefold_char c +:+ casefold s end.

(** [s.split()] *)
Fixpoint split_words (word s : string) : list string :=
  match s with
  | "" => if String.eqb word "" then [] else [word]
  | String c s =>
      if is_py_space c then (if String.eqb word "" then [] else [word]) ++ split_words "" s
      else split_words (word +:+ String c "") s
  end.

(** The payload of a term and of an exclusion term in [compile_family_automaton]. *)
Definition term_payload (pack_name : string) (tier : EvidenceTier) (term : string) (n : nat) : MatchPayload :=
  mkPayload pack_name (et_name tier) term (et_value tier) (et_support tier) false
    (et_min_distinct_hits tier) n (mode_value (et_case_mode tier)).
Definition veto_payload (pack_name term : string) : MatchPayload :=
  mkPayload pack_name "_exclusion" term 0 false true 1 1 "fold".
Definition add_exclusion (pack_name : string) (m : MultiPatternAutomaton) (excl : string) :
    MultiPatternAutomaton :=
  match casefold <$> split_words "" (strip excl) with
  | [] => m
  | tokens => _add_token_chain m tokens (veto_payload pack_name (joined tokens))
  end.
(** [compile_family_automaton([pack])] *)
Definition compile_family_automaton (pack : LexicalEvidencePack) : MultiPatternAutomaton :=
  let m := foldl (λ m tier, foldl (add_phrase (term_payload (pk_name pack) tier)) m (et_terms tier))
             empty_automaton (pk_tiers pack) in
  _link_failures (foldl (add_exclusion (pk_name pack)) m (pk_exclusion_terms pack)).

(** [sorted(..., key=lambda t: (-t.priority, -t.value, t.name))] *)
Definition tier_before (a b : EvidenceTier) : Prop :=
  (et_priority b < et_priority a)%Z ∨ et_priority a = et_priority b ∧
    ((et_value b < et_value a)%Z ∨ et_value a = et_value b ∧ String.le (et_name a) (et_name b)).
#[global] Instance tier_before_dec : RelDecision tier_before.
Proof. unfold tier_before. intros a b. apply _. Defined.

(** The loop over the sorted tiers. *)
Fixpoint compile_tiers (names : gset string) (l : list EvidenceTier) : result (list CompiledTier) :=
  match l with
  | [] => Ok []
  | tier :: l =>
      _ ← raise_if (bool_decide (et_name tier ∈ names)) (ValueError "duplicate tier name");
      compiled ← _build_compiled_tier tier;
      rest ← compile_tiers ({[et_name tier]} ∪ names) l;
      Ok (compiled :: rest)
  end.
Definition compile_evidence_pack (pack : LexicalEvidencePack) : result CompiledEvidencePack :=
  _ ← _check_collision pack;
  compiled ← compile_tiers ∅ (merge_sort tier_before (pk_tiers pack));
  Ok (mkCompiledPack (pk_name pack) compiled (band_max_values compiled)
        (list_to_set (pk_exclusion_terms pack ≫= λ term, folded <$> tokenize term))
        (Some (compile_family_automaton pack))).

(** ** Scoring *)

Record EvidenceContext := mkContext {
  ec_eligible : bool;
  exclusion_reason : string;
  prefix_vocab : gset string;
  min_words : Z;
}.

Record EvidenceHit := mkHit {
  hit_tier : string;
  hit_term : string;
  hit_match_kind : string;
  hit_count : nat;
  positions : list Z;
  hit_case_mode : string;
}.

Inductive Reason :=
  | Decisive (satisfied : list string)
  | Weak (satisfied : list string)
  | Partial
  | ExclusionsOnly (preview : list string)
  | Nothing (pack_name : string)
  | Ineligible (why : string)
  | TooShort (tokens : nat) (minimum : Z)
  | NoTiers (pack_name : string).
Definition build_reason (score : Z) (satisfied exclusions : list string) (pack_name : string) : Reason :=
  if (2 <=? score)%Z then Decisive satisfied
  else if (score =? 1)%Z && negb (bool_decide (satisfied = [])) then Weak satisfied
  else if (score =? 1)%Z then Partial
  else if negb (bool_decide (exclusions = [])) then ExclusionsOnly (take 5 exclusions)
  else Nothing pack_name.

Record BowScore := mkBow {
  bow_score : Z;
  classification : string;
  bow_confidence : Z;
  bow_hits : list EvidenceHit;
  bow_exclusions : list string;
  satisfied_tiers : list string;
  evaluated_tiers : list string;
  short_circuited : bool;
  novel_count : nat;
  support_score : Z;
  bow_reason : Reason;
}.

(** [matched_by_tier]: tiers, their terms and start positions, in order of appearance. *)
Abbreviation tier_matches := (list (string * list (string * list Z))).
Definition record_match (matched : tier_matches) (hit : nat * MatchPayload) : tier_matches :=
  let '(pos, payload) := hit in
  if is_exclusion payload then matched
  else
    let start_pos := (Z.of_nat pos - Z.of_nat (token_length payload) + 1)%Z in
    dict_update (tier_name payload) (λ terms,
      dict_update (term payload) (λ starts, default [] starts ++ [start_pos]) (default [] terms)) matched.
Definition matched_by_tier (m : MultiPatternAutomaton) (tokens : list Token) : tier_matches :=
  foldl record_match [] (scan_tokens m tokens).

(** [sorted(matched.items())]; phrases compare as tuples, which is how their joined text
    compares, the blank being smaller than every token character. *)
Definition sorted_items {A} (matched : list (string * A)) : list (string * A) := order_by fst matched.
Definition sorted_phrases {A} (matched : list (list string * A)) : list (list string * A) :=
  merge_sort (λ a b, String.le (joined a.1) (joined b.1)) matched.

(** [tier_hits] of one tier; [matches] is [matched_by_tier] if there is an automaton. *)
Definition tier_hits (matches : option tier_matches) (tokens : list Token) (tier : CompiledTier) :
    list EvidenceHit :=
  match matches with
  | Some by_tier =>
      (λ m, mkHit (ct_name tier) m.1 (match_kind tier) (length m.2) m.2 (mode_value (ct_case_mode tier)))
      <$> sorted_items (default [] (dict_get (ct_name tier) by_tier))
  | None =>
      if String.eqb (match_kind tier) "unigram" then
        (λ m, mkHit (ct_name tier) m.1 "unigram" (length m.2) (Z.of_nat <$> m.2) (mode_value (ct_case_mode tier)))
        <$> sorted_items (match_unigrams tokens (unigrams tier) (ct_case_mode tier))
      else
        (λ m, mkHit (ct_name tier) (joined m.1) "ngram" (length m.2) (Z.of_nat <$> m.2)
                (mode_value (ct_case_mode tier)))
        <$> sorted_phrases (match_ngrams tokens (ngram_index tier) (ct_case_mode tier))
  end.

(** The variables of the loop over the tiers. *)
Record scoring := mkScoring {
  s_hits : list EvidenceHit;
  s_evaluated : list string;
  s_satisfied : list string;
  s_score : Z;
  s_support_score : Z;
  s_support_confidence : Z;
  s_confidence : Z;
  s_partial_strong : bool;
  s_short_circuited : bool;
  s_band_priority : option Z;
  s_band_max : Z;
}.
Definition scoring_start : scoring := mkScoring [] [] [] 0 0 0 0 false false None 0.

Definition enter_tier (tier : CompiledTier) (tier_hits : list EvidenceHit) (s : scoring) : scoring :=
  let same := bool_decide (s_band_priority s = Some (priority tier)) in
  mkScoring (s_hits s ++ tier_hits) (s_evaluated s ++ [ct_name tier]) (s_satisfied s) (s_score s)
    (s_support_score s) (s_support_confidence s) (s_confidence s) (s_partial_strong s) (s_short_circuited s)
    (Some (priority tier)) (if same then s_band_max s else ct_value tier).
Definition satisfy_support (tier : CompiledTier) (distinct : Z) (s : scoring) : scoring :=
  mkScoring (s_hits s) (s_evaluated s) (s_satisfied s ++ [ct_name tier]) (s_score s)
    (s_support_score s + ct_value tier)
    (Z.max (s_support_confidence s) (tier_confidence (ct_value tier) distinct)) (s_confidence s)
    (s_partial_strong s) (s_short_circuited s) (s_band_priority s) (s_band_max s).
Definition satisfy_primary (tier : CompiledTier) (distinct : Z) (s : scoring) : scoring :=
  let better := (s_score s <? ct_value tier)%Z in
  mkScoring (s_hits s) (s_evaluated s) (s_satisfied s ++ [ct_name tier])
    (if better then ct_value tier else s_score s) (s_support_score s) (s_support_confidence s)
    (if better then tier_confidence (ct_value tier) distinct else s_confidence s)
    (s_partial_strong s) (s_short_circuited s) (s_band_priority s) (s_band_max s).
Definition note_partial (s : scoring) : scoring :=
  mkScoring (s_hits s) (s_evaluated s) (s_satisfied s) (s_score s) (s_support_score s)
    (s_support_confidence s) (s_confidence s) true (s_short_circuited s) (s_band_priority s) (s_band_max s).
(** A short circuit that counts the tiers [names] as evaluated. *)
Definition cut (names : list string) (s : scoring) : scoring :=
  mkScoring (s_hits s) (s_evaluated s ++ names) (s_satisfied s) (s_score s) (s_support_score s)
    (s_support_confidence s) (s_confidence s) (s_partial_strong s) true (s_band_priority s) (s_band_max s).

Fixpoint same_band (p : option Z) (l : list CompiledTier) : list string :=
  match l with
  | [] => []
  | later :: l => if bool_decide (p = Some (priority later)) then ct_name later :: same_band p l else []
  end.

(** The body of the loop for one tier: the new state, and whether it breaks. *)
Definition visit_tier (tier : CompiledTier) (rest : list CompiledTier) (tier_hits : list EvidenceHit)
    (s : scoring) : scoring * bool :=
  let s := enter_tier tier tier_hits s in
  let distinct := Z.of_nat (length tier_hits) in
  let '(s, stop) :=
    if (ct_min_distinct_hits tier <=? distinct)%Z then
      if support tier then (satisfy_support tier distinct s, false)
      else
        let s := satisfy_primary tier distinct s in
        if (s_score s =? s_band_max s)%Z then (cut (same_band (s_band_priority s) rest) s, true) else (s, false)
    else if negb (distinct =? 0)%Z && (2 <=? ct_value tier)%Z && negb (support tier) then (note_partial s, false)
    else (s, false) in
  if stop then (s, true)
  else if (2 <=? s_score s)%Z && negb (existsb (λ lower, s_score s <? ct_value lower)%Z rest) then (cut [] s, true)
  else (s, false).
Fixpoint score_loop (hits_of : CompiledTier → list EvidenceHit) (l : list CompiledTier) (s : scoring) : scoring :=
  match l with
  | [] => s
  | tier :: rest =>
      let '(s, stop) := visit_tier tier rest (hits_of tier) s in
      if stop then s else score_loop hits_of rest s
  end.

Definition no_score (reason : Reason) : BowScore :=
  mkBow 0 "no_match" 0 [] [] [] [] false 0 0 reason.

(** What follows the loop. *)
Definition conclude (pack_name : string) (exclusions : list string) (novel_count : nat) (s : scoring) : BowScore :=
  let score := if (s_score s =? 0)%Z && s_partial_strong s then 1%Z else s_score s in
  let total := Z.min 3 (score + s_support_score s) in
  let confidence := if (2 <=? total)%Z && (s_confidence s =? 0)%Z then s_support_confidence s else s_confidence s in
  let confidence := if (confidence =? 0)%Z && (total =? 1)%Z && bool_decide (s_satisfied s = [])
                    then 3000%Z else confidence in
  let confidence := if (confidence =? 0)%Z && (total =? 0)%Z && negb (bool_decide (exclusions = []))
                    then 2000%Z else confidence in
  mkBow total (if (2 <=? total)%Z then "matched" else if (total =? 1)%Z then "ambiguous" else "no_match")
    confidence (s_hits s) exclusions (s_satisfied s) (s_evaluated s) (s_short_circuited s) novel_count
    (s_support_score s) (build_reason total (s_satisfied s) exclusions pack_name).

Definition score_tokens (tokens : list Token) (compiled : CompiledEvidencePack) (context : EvidenceContext) :
    BowScore :=
  if negb (ec_eligible context) then
    no_score (Ineligible (if String.eqb (exclusion_reason context) "" then "unit is ineligible for scoring"
                          else exclusion_reason context))
  else if (Z.of_nat (length tokens) <? min_words context)%Z then
    no_score (TooShort (length tokens) (min_words context))
  else
    match tiers compiled with
    | [] => no_score (NoTiers (cp_name compiled))
    | _ =>
        let token_set : gset string := list_to_set (folded <$> tokens) in
        let found := sorted (elements (token_set ∩ exclusions compiled)) in
        let novel := if decide (prefix_vocab context = ∅) then 0 else size (token_set ∖ prefix_vocab context) in
        let matches := (λ m, matched_by_tier m tokens) <$> cp_automaton compiled in
        conclude (cp_name compiled) found novel
          (score_loop (tier_hits matches tokens) (tiers compiled) scoring_start)
    end.

(** [score_unit] on a pack. *)
Definition score_unit (text : string) (pack : LexicalEvidencePack) (context : EvidenceContext) : result BowScore :=
  compiled ← compile_evidence_pack pack;
  Ok (score_tokens (tokenize text) compiled context).

(** ** Stopping early does not change the score *)

Section exhaustive.
Context (hits_of : CompiledTier → list EvidenceHit).

Definition distinct_of (tier : CompiledTier) : Z := Z.of_nat (length (hits_of tier)).
Definition is_satisfied (tier : CompiledTier) : bool := (ct_min_distinct_hits tier <=? distinct_of tier)%Z.
(** The value of the best satisfied tier that is not a support tier. *)
Definition best_value (l : list CompiledTier) : Z :=
  foldr (λ tier best, if is_satisfied tier && negb (support tier) then Z.max (ct_value tier) best else best)
    0%Z l.
(** Some strong tier has hits, but fewer than it needs. *)
Definition some_partial (l : list CompiledTier) : bool :=
  existsb (λ tier, negb (is_satisfied tier) && negb (distinct_of tier =? 0)%Z && (2 <=? ct_value tier)%Z
                   && negb (support tier)) l.
Definition support_total (l : list CompiledTier) : Z :=
  foldr (λ tier total, if is_satisfied tier && support tier then ct_value tier + total else total)%Z 0%Z l.

(** A satisfied primary tier of value two or three, which decides alone. *)
Definition strong (tier : CompiledTier) : bool :=
  is_satisfied tier && negb (support tier) && (2 <=? ct_value tier)%Z.
(** The tiers up to the first such one. *)
Fixpoint counted (l : list CompiledTier) : list CompiledTier :=
  match l with
  | [] => []
  | tier :: l => if strong tier then [tier] else tier :: counted l
  end.
(** The primary score, if every tier is considered. *)
Definition primary_score (l : list CompiledTier) : Z :=
  if (best_value l =? 0)%Z then Z.b2z (some_partial l) else best_value l.

(** A value is at least one, and one for a support tier. *)
Definition valued (t : CompiledTier) : Prop := (1 ≤ ct_value t)%Z ∧ (support t = true → ct_value t = 1%Z).
(** Such tiers, no primary tier below one of smaller value. *)
Definition descending (l : list CompiledTier) : Prop :=
  StronglySorted (λ a b, support a = false → support b = false → ct_value b ≤ ct_value a)%Z l ∧
  Forall valued l.

Lemma best_value_nonneg l : (0 ≤ best_value l)%Z.
Proof. induction l as [|tier l IH]; simpl; [lia|]. case_match; lia. Qed.
Lemma best_value_le l v :
  (0 ≤ v)%Z → (∀ t, t ∈ l → support t = false → ct_value t ≤ v)%Z → (best_value l ≤ v)%Z.
Proof.
  intros Hv; induction l as [|tier l IH]; simpl; intros Hl; [lia|].
  specialize (IH ltac:(intros t Ht; apply Hl; by right)). pose proof (Hl tier ltac:(by left)).
  destruct (support tier); rewrite ?andb_false_r; [done|]. specialize (H eq_refl). case_match; lia.
Qed.

(** What one turn of the loop does to the score. *)
Lemma visit_tier_cases tier rest s s' stop :
  visit_tier tier rest (hits_of tier) s = (s', stop) →
  s_score s' = (if is_satisfied tier && negb (support tier) then Z.max (s_score s) (ct_value tier) else s_score s) ∧
  s_support_score s' = (if is_satisfied tier && support tier then s_support_score s + ct_value tier
                        else s_support_score s)%Z ∧
  s_partial_strong s' = s_partial_strong s || some_partial [tier] ∧
  s_short_circuited s' = s_short_circuited s || stop ∧
  (stop = true → is_satisfied tier = true ∧ support tier = false ∨ (2 ≤ s_score s')%Z).
Proof.
  unfold visit_tier, some_partial, is_satisfied, distinct_of. cbn [existsb]. rewrite orb_false_r.
  set (n := Z.of_nat (length (hits_of tier))).
  destruct (ct_min_distinct_hits tier <=? n)%Z, (support tier) eqn:Es; simpl.
  - case_match eqn:E; intros [= <- <-]; simpl; rewrite ?orb_true_r, ?orb_false_r; split_and!; try done; lia.
  - assert (Hmax : (if (s_score s <? ct_value tier)%Z then ct_value tier else s_score s) =
      Z.max (s_score s) (ct_value tier)) by (destruct (Z.ltb_spec (s_score s) (ct_value tier)); lia).
    rewrite Hmax. destruct (Z.max _ _ =? _)%Z; [|destruct ((2 <=? _)%Z && _) eqn:E]; intros [= <- <-]; simpl;
      rewrite ?Hmax, ?orb_true_r, ?orb_false_r; split_and!; try done; by left.
  - rewrite !andb_false_r. simpl. case_match eqn:E; intros [= <- <-]; simpl;
      rewrite ?orb_true_r, ?orb_false_r; split_and!; try done; lia.
  - rewrite !andb_true_r. destruct (negb (n =? 0)%Z && (2 <=? ct_value tier)%Z); simpl;
      case_match eqn:E; intros [= <- <-]; simpl; rewrite ?orb_true_r, ?orb_false_r; split_and!; try done; lia.
Qed.

(** With a score of two or more the loop goes on only for a tier of greater value. *)
Lemma visit_tier_goes_on tier rest s s' :
  visit_tier tier rest (hits_of tier) s = (s', false) → (2 ≤ s_score s')%Z →
  ∃ lower, lower ∈ rest ∧ (s_score s' < ct_value lower)%Z.
Proof.
  unfold visit_tier. destruct (if (_ <=? _)%Z then _ else _) as [s1 []]; [done|].
  destruct (2 <=? s_score s1)%Z eqn:E2, (existsb _ rest) eqn:Ee; intros [= <-] H2; simpl in *; try done; try lia.
  apply existsb_exists in Ee as (lower & Hin & Hlt). apply list_elem_of_In in Hin. exists lower. split; [done|lia].
Qed.

Lemma score_loop_exhaustive l s :
  descending l → (0 ≤ s_score s)%Z →
  (s_score s = 0 ∨ ∀ t, t ∈ l → support t = false → ct_value t ≤ s_score s)%Z →
  let r := score_loop hits_of l s in
  s_score r = Z.max (s_score s) (best_value l) ∧
  (s_score r = 0%Z → s_partial_strong r = s_partial_strong s || some_partial l).
Proof.
  intros [Hsort Hpos]. revert s. induction l as [|tier l IH]; intros s H0 Hs; simpl.
  { split; [lia|by rewrite orb_false_r]. }
  apply StronglySorted_inv in Hsort as [Hsort Hall]. apply Forall_cons in Hpos as [[Hv _] Hpos].
  rewrite Forall_forall in Hall. destruct (visit_tier _ _ _ _) as [s' stop] eqn:E.
  apply visit_tier_cases in E as (Hsc & Hsu & Hpa & Hsh & Hstop).
  assert (Hle : s_score s' = 0%Z ∨ ∀ t, t ∈ l → support t = false → (ct_value t ≤ s_score s')%Z).
  { rewrite Hsc. destruct (is_satisfied tier && negb (support tier)) eqn:Eb.
    - right. intros t Ht Hst. apply andb_true_iff in Eb as [_ Eb%negb_true_iff].
      specialize (Hall t Ht Eb Hst). simpl in Hall. lia.
    - destruct Hs as [Hs|Hs]; [by left|right]. intros t Ht. apply Hs. by right. }
  assert (Hge : (0 ≤ s_score s')%Z) by (rewrite Hsc; destruct (is_satisfied tier && negb (support tier)); lia).
  assert (Hmax : Z.max (s_score s') (best_value l) = Z.max (s_score s)
    (if is_satisfied tier && negb (support tier) then Z.max (ct_value tier) (best_value l) else best_value l))
    by (rewrite Hsc; destruct (is_satisfied tier && negb (support tier)); lia).
  destruct stop.
  - assert (Hz : s_score s' ≠ 0%Z).
    { destruct Hstop as [[Hsat Hsup]|?]; [done| |lia]. rewrite Hsc, Hsat, Hsup. simpl. lia. }
    destruct Hle as [?|Hle]; [done|]. pose proof (best_value_le l _ Hge Hle). split; [lia|done].
  - destruct (IH Hsort Hpos s' Hge Hle) as (IHs & IHp). cbn zeta in IHs, IHp. split.
    + by rewrite IHs.
    + intros Hz. rewrite (IHp Hz), Hpa. unfold some_partial. cbn [existsb]. by rewrite orb_false_r, orb_assoc.
Qed.

(** No support tier comes after a primary tier of value one. *)
Definition support_first (l : list CompiledTier) : Prop :=
  StronglySorted (λ a b, support a = false → ct_value a = 1%Z → support b = false) l.

Lemma support_total_none l : Forall (λ t, support t = false) l → support_total l = 0%Z.
Proof. induction 1 as [|t l Ht Hl IH]; [done|]. simpl. by rewrite Ht, andb_false_r. Qed.
Lemma counted_sub l t : t ∈ counted l → t ∈ l.
Proof.
  induction l as [|tier l IH]; simpl; [done|]. destruct (strong tier).
  - intros ->%list_elem_of_singleton. by left.
  - intros [->|?]%elem_of_cons; [by left|right; auto].
Qed.
Lemma support_total_nonneg l : Forall valued l → (0 ≤ support_total l)%Z.
Proof. induction 1 as [|t l [Ht _] _ IH]; simpl; [lia|]. case_match; lia. Qed.
(** Without a strong tier all tiers count. *)
Lemma counted_all l : Forall valued l → (best_value l < 2)%Z → counted l = l.
Proof.
  induction 1 as [|tier l Ht Hl IH]; [done|]. simpl. unfold strong.
  destruct (is_satisfied tier && negb (support tier)); simpl.
  - destruct (Z.leb_spec 2 (ct_value tier)); intros ?; [lia|]. f_equal. apply IH. lia.
  - intros ?. f_equal. by apply IH.
Qed.

(** The support that counts is that of the tiers up to the first strong one. *)
Lemma score_loop_support l s :
  descending l → support_first l → (s_score s < 2)%Z →
  s_support_score (score_loop hits_of l s) = (s_support_score s + support_total (counted l))%Z.
Proof.
  intros [Hsort Hpos] Hsf. revert s. induction l as [|tier l IH]; intros s Hs; simpl; [lia|].
  apply StronglySorted_inv in Hsort as [Hsort Hall]. apply Forall_cons in Hpos as [[Hv _] Hpos].
  apply StronglySorted_inv in Hsf as [Hsf Hsup]. rewrite Forall_forall in Hall.
  destruct (visit_tier _ _ _ _) as [s' stop] eqn:E. pose proof E as E'.
  apply visit_tier_cases in E as (Hsc & Hsu & _ & _ & Hstop). unfold strong.
  destruct (is_satisfied tier && negb (support tier)) eqn:Eb; simpl in Hsc |- *.
  - apply andb_true_iff in Eb as [Esat Eprim%negb_true_iff].
    destruct (Z.leb_spec 2 (ct_value tier)).
    + destruct stop; [simpl; rewrite Hsu, Eprim, andb_false_r; lia|].
      destruct (visit_tier_goes_on _ _ _ _ E' ltac:(lia)) as (lower & Hin & Hlt).
      rewrite Forall_forall in Hpos. destruct (Hpos lower Hin) as [_ Hone]. specialize (Hall lower Hin Eprim).
      simpl in Hall. destruct (support lower); [specialize (Hone eq_refl); lia|specialize (Hall eq_refl); lia].
    + simpl. rewrite Esat, Eprim in *. simpl in Hsu |- *. destruct stop; [|rewrite IH; [lia|done..|]; lia].
      rewrite support_total_none; [lia|]. apply Forall_forall. intros t Ht%counted_sub.
      rewrite Forall_forall in Hsup. apply (Hsup t Ht); [done|lia].
  - destruct stop.
    { destruct Hstop as [[Hsat Hprim]|?]; [done| |lia]. by rewrite Hsat, Hprim in Eb. }
    rewrite IH; [|done..|lia].
    simpl. rewrite Hsu. destruct (is_satisfied tier && support tier); lia.
Qed.
End exhaustive.

(** ** What the automaton of a pack reports *)

Definition exclusion_patterns (pack_name excl : string) : list (list string * MatchPayload) :=
  match casefold <$> split_words "" (strip excl) with
  | [] => []
  | tokens => [(tokens, veto_payload pack_name (joined tokens))]
  end.
Definition pack_patterns (pack : LexicalEvidencePack) : list (list string * MatchPayload) :=
  (pk_tiers pack ≫= λ tier, phrase_patterns (term_payload (pk_name pack) tier) (et_terms tier))
  ++ (pk_exclusion_terms pack ≫= exclusion_patterns (pk_name pack)).

Lemma add_phrase_patterns payload m phrases :
  foldl (add_phrase payload) m phrases =
  foldl (λ m p, _add_token_chain m p.1 p.2) m (phrase_patterns payload phrases).
Proof.
  apply foldl_bind. intros m' phrase. unfold add_phrase. by destruct (folded <$> tokenize phrase).
Qed.
Lemma add_exclusion_patterns pack_name m excl :
  add_exclusion pack_name m excl =
  foldl (λ m p, _add_token_chain m p.1 p.2) m (exclusion_patterns pack_name excl).
Proof. unfold add_exclusion, exclusion_patterns. by destruct (casefold <$> _). Qed.
Lemma compile_family_automaton_patterns pack :
  compile_family_automaton pack = compile (pack_patterns pack).
Proof.
  unfold compile_family_automaton, compile, pack_patterns. f_equal. rewrite foldl_app.
  rewrite <- (foldl_bind _ _ _ (pk_exclusion_terms pack) _ (add_exclusion_patterns (pk_name pack))).
  by rewrite <- (foldl_bind _ _ _ (pk_tiers pack) _
    (λ m tier, add_phrase_patterns (term_payload (pk_name pack) tier) m (et_terms tier))).
Qed.

Lemma elem_of_exclusion_patterns pack_name excl v p :
  (v, p) ∈ exclusion_patterns pack_name excl ↔
  v = casefold <$> split_words "" (strip excl) ∧ v ≠ [] ∧ p = veto_payload pack_name (joined v).
Proof.
  unfold exclusion_patterns. destruct (casefold <$> _) as [|a l].
  - split; [set_solver|]. by intros (-> & Hne & _).
  - rewrite list_elem_of_singleton. split; [by intros [= -> ->]|]. by intros (-> & _ & ->).
Qed.
Lemma elem_of_pack_patterns pack v p :
  (v, p) ∈ pack_patterns pack ↔
  (∃ tier term, tier ∈ pk_tiers pack ∧ term ∈ et_terms tier ∧ v = folded <$> tokenize term ∧ v ≠ [] ∧
     p = term_payload (pk_name pack) tier (strip term) (length v)) ∨
  (∃ excl, excl ∈ pk_exclusion_terms pack ∧ v = casefold <$> split_words "" (strip excl) ∧ v ≠ [] ∧
     p = veto_payload (pk_name pack) (joined v)).
Proof.
  unfold pack_patterns. rewrite elem_of_app, !list_elem_of_bind. setoid_rewrite elem_of_phrase_patterns.
  setoid_rewrite elem_of_exclusion_patterns. split.
  - intros [(tier & (term & Hin & -> & Hne & ->) & Ht)|(excl & (-> & Hne & ->) & He)]; [left|right]; eauto 10.
  - intros [(tier & term & Ht & Hin & -> & Hne & ->)|(excl & He & -> & Hne & ->)]; [left|right]; eauto 10.
Qed.
Lemma pack_patterns_nonempty pack : all_nonempty (pack_patterns pack).
Proof.
  apply Forall_forall. intros [v p] Hin%elem_of_pack_patterns.
  destruct Hin as [(tier & term & _ & _ & _ & Hne & _)|(excl & _ & _ & Hne & _)]; done.
Qed.

(** [term] matches the tokens from position [i] on, in its case mode. *)
Definition matches_at (tokens : list Token) (mode : CaseMode) (term : string) (i : nat) : Prop :=
  let window := take (length (tokenize term)) (drop i tokens) in
  tokenize term ≠ [] ∧ folded <$> window = folded <$> tokenize term ∧
  match mode with
  | FOLD => True
  | EXACT => joined (surface <$> window) = strip term
  | LOWERCASE => forallb (λ t, islower (surface t)) window = true
  end.

Lemma accepts_term tokens pos u pack_name tier term :
  let v := folded <$> tokenize term in
  take (S pos) (folded <$> tokens) = u ++ v → pos < length tokens → v ≠ [] →
  accepts tokens pos (term_payload pack_name tier (strip term) (length v)) = true ↔
  matches_at tokens (et_case_mode tier) term (length u).
Proof.
  cbn zeta. intros Hu Hpos Hv. unfold accepts, matches_at. cbn [token_length term_payload case_mode Automaton.term].
  set (n := length (tokenize term)).
  assert (Hlen : S pos = length u + n).
  { apply (f_equal length) in Hu. rewrite length_take, length_app, !length_fmap in Hu. unfold n. lia. }
  rewrite length_fmap. fold n.
  destruct (Z.ltb_spec (Z.of_nat pos - Z.of_nat n + 1) 0); [lia|].
  replace (Z.to_nat (Z.of_nat pos - Z.of_nat n + 1)) with (length u) by lia.
  replace (S pos - length u) with n by lia.
  assert (Hw : folded <$> take n (drop (length u) tokens) = folded <$> tokenize term).
  { rewrite fmap_take, fmap_drop. apply (f_equal (drop (length u))) in Hu. rewrite drop_app_length in Hu.
    by rewrite <- Hu, Hlen, take_drop_commute. }
  assert (Hne : tokenize term ≠ []) by (intros Heq; by rewrite Heq in Hv).
  destruct (et_case_mode tier); simpl; [tauto| |tauto]. rewrite String.eqb_eq. tauto.
Qed.

Lemma matches_at_prefix tokens mode term i :
  matches_at tokens mode term i →
  let pos := i + length (tokenize term) - 1 in
  pos < length tokens ∧ take (S pos) (folded <$> tokens) = take i (folded <$> tokens) ++ (folded <$> tokenize term) ∧
  length (take i (folded <$> tokens)) = i.
Proof.
  intros (Hne & Hw & _). cbn zeta. set (n := length (tokenize term)) in *.
  assert (0 < n) by (unfold n; destruct (tokenize term); [done|simpl; lia]).
  pose proof (f_equal length Hw) as Hl. rewrite !length_fmap, length_take, length_drop in Hl. fold n in Hl.
  split_and!; [lia| |rewrite length_take, length_fmap; lia].
  rewrite <- Hw. rewrite fmap_take, fmap_drop. replace (S (i + n - 1)) with (i + n) by lia.
  rewrite take_drop_commute.
  replace (take i (folded <$> tokens)) with (take i (take (i + n) (folded <$> tokens)))
    by (rewrite take_take; f_equal; lia).
  by rewrite take_drop.
Qed.

(** Start position and payload of what the scan reports for terms. *)
Definition start_of (hit : nat * MatchPayload) : Z :=
  (Z.of_nat hit.1 - Z.of_nat (token_length hit.2) + 1)%Z.
Definition is_hit (tier term : string) (hit : nat * MatchPayload) : Prop :=
  is_exclusion hit.2 = false ∧ tier_name hit.2 = tier ∧ Automaton.term hit.2 = term.

Lemma scanned_starts pack tokens tier t z :
  (∃ hit, hit ∈ scan_tokens (compile_family_automaton pack) tokens ∧ is_hit tier t hit ∧ start_of hit = z) ↔
  ∃ et term i, et ∈ pk_tiers pack ∧ et_name et = tier ∧ term ∈ et_terms et ∧ strip term = t ∧
    z = Z.of_nat i ∧ matches_at tokens (et_case_mode et) term i.
Proof.
  rewrite compile_family_automaton_patterns. split.
  - intros ([pos p] & Hin & (He & Htier & Hterm) & <-). simpl in *.
    apply elem_of_scan in Hin as (Hacc & Hpos & u & v & Hu & Hp); [|apply pack_patterns_nonempty].
    apply elem_of_pack_patterns in Hp as [(et & term & Het & Hin & -> & Hne & ->)|(excl & _ & _ & _ & ->)]; [|done].
    exists et, term, (length u). split_and!; [done..| |by eapply accepts_term].
    apply (f_equal length) in Hu. rewrite length_take, length_app, !length_fmap in Hu.
    unfold start_of. simpl. rewrite length_fmap. lia.
  - intros (et & term & i & Het & <- & Hin & <- & -> & Hm).
    pose proof (matches_at_prefix _ _ _ _ Hm) as (Hpos & Hu & Hlen). pose proof Hm as [Hne _].
    assert (Hv : folded <$> tokenize term ≠ []) by (destruct (tokenize term); done).
    exists (i + length (tokenize term) - 1,
      term_payload (pk_name pack) et (strip term) (length (folded <$> tokenize term))). split_and!; [|done|].
    + apply elem_of_scan; [apply pack_patterns_nonempty|]. split_and!; [|done|].
      * eapply accepts_term; [exact Hu|done|done|]. by rewrite Hlen.
      * eexists _, _. split; [exact Hu|]. apply elem_of_pack_patterns. left. eauto 10.
    + unfold start_of. simpl. rewrite length_fmap. destruct (tokenize term); [done|]. simpl. lia.
Qed.

(** ** The hits of a tier *)

#[local] Instance is_hit_dec tier t hit : Decision (is_hit tier t hit).
Proof. unfold is_hit. apply _. Defined.

Definition starts_in (m : tier_matches) (tier t : string) : list Z :=
  default [] (dict_get tier m ≫= dict_get t).

Lemma starts_in_record m hit tier t :
  starts_in (record_match m hit) tier t =
  starts_in m tier t ++ (if decide (is_hit tier t hit) then [start_of hit] else []).
Proof.
  destruct hit as [pos p]. unfold record_match, starts_in.
  destruct (decide (is_hit tier t (pos, p))) as [(He & <- & <-)|Hno]; simpl in *.
  { rewrite He, !dict_get_update, !decide_True by done. simpl. rewrite dict_get_update, decide_True by done.
    simpl. by destruct (dict_get (tier_name p) m). }
  rewrite app_nil_r. destruct (is_exclusion p) eqn:He; [done|]. rewrite dict_get_update.
  destruct (decide (tier_name p = tier)) as [<-|]; [|done]. simpl. rewrite dict_get_update, decide_False.
  - by destruct (dict_get (tier_name p) m).
  - intros <-. by apply Hno.
Qed.
Lemma starts_in_fold hits tier t :
  starts_in (foldl record_match [] hits) tier t = start_of <$> filter (is_hit tier t) hits.
Proof.
  induction hits as [|hit hits IH] using rev_ind; [done|].
  rewrite foldl_app. simpl. rewrite starts_in_record, IH, filter_app, fmap_app, filter_cons, filter_nil.
  by case_decide.
Qed.

Definition matches_ok (m : tier_matches) : Prop :=
  ∀ tier d, dict_get tier m = Some d → NoDup d.*1 ∧ ∀ t l, dict_get t d = Some l → l ≠ [].
Lemma matches_ok_record m hit : matches_ok m → matches_ok (record_match m hit).
Proof.
  destruct hit as [pos p]. unfold record_match. destruct (is_exclusion p); [done|].
  intros Hm tier d. rewrite dict_get_update. destruct (decide (tier_name p = tier)) as [<-|]; [|apply Hm].
  intros [= <-].
  assert (Hd : let d := default [] (dict_get (tier_name p) m) in
    NoDup d.*1 ∧ ∀ t l, dict_get t d = Some l → l ≠ []).
  { destruct (dict_get (tier_name p) m) eqn:E; simpl; [by eapply Hm|]. split; [constructor|done]. }
  destruct Hd as [Hnd Hne]. split; [by apply dict_update_distinct|].
  intros t l. rewrite dict_get_update. case_decide; [|apply Hne]. intros [= <-].
  by intros [_ ?]%app_nil.
Qed.
Lemma matches_ok_fold hits : matches_ok (foldl record_match [] hits).
Proof.
  induction hits as [|hit hits IH] using rev_ind; [by intros tier d|].
  rewrite foldl_app. by apply matches_ok_record.
Qed.

Lemma elem_dict_get {A} key v (d : list (string * A)) : NoDup d.*1 → (key, v) ∈ d → dict_get key d = Some v.
Proof.
  induction d as [|[k v'] d IH]; simpl; intros Hnd Hin; [set_solver|].
  apply NoDup_cons in Hnd as [Hk Hnd]. apply elem_of_cons in Hin as [[= -> ->]|Hin].
  - by rewrite String.eqb_refl.
  - destruct (String.eqb_spec k key) as [->|]; [|by apply IH].
    destruct Hk. apply list_elem_of_fmap. by exists (key, v).
Qed.

(** A hit with term [t] and positions [l] is reported exactly when [l] are the starts of [t]. *)
Lemma elem_of_tier_hits hits tokens tier t l :
  (∃ h, h ∈ tier_hits (Some (foldl record_match [] hits)) tokens tier ∧ hit_term h = t ∧ positions h = l) ↔
  l = start_of <$> filter (is_hit (ct_name tier) t) hits ∧ l ≠ [].
Proof.
  unfold tier_hits, sorted_items. setoid_rewrite list_elem_of_fmap. setoid_rewrite elem_of_order_by.
  rewrite <- starts_in_fold. unfold starts_in.
  destruct (dict_get (ct_name tier) _) as [d|] eqn:E; simpl.
  - destruct (matches_ok_fold hits _ _ E) as [Hnd Hne]. split.
    + intros (h & ([t' l'] & -> & Hin) & <- & <-). simpl. apply (elem_dict_get _ _ _ Hnd) in Hin.
      rewrite Hin. split; [done|]. by eapply Hne.
    + intros [-> Hl]. destruct (dict_get t d) as [l|] eqn:El; [|done]. simpl in *.
      exists (mkHit (ct_name tier) t (match_kind tier) (length l) l (mode_value (ct_case_mode tier))).
      split; [|done]. exists (t, l). split; [done|]. by apply dict_get_Some.
  - split; [|intros [-> Hl]; by destruct Hl]. intros (h & (m & _ & Hin) & _). set_solver.
Qed.
Lemma tier_hits_distinct hits tokens tier :
  NoDup (hit_term <$> tier_hits (Some (foldl record_match [] hits)) tokens tier).
Proof.
  unfold tier_hits, sorted_items. rewrite <- list_fmap_compose. unfold compose. simpl.
  apply (NoDup_order_by (A := string * list Z)).
  destruct (dict_get (ct_name tier) _) as [d|] eqn:E; simpl; [|constructor].
  by destruct (matches_ok_fold hits _ _ E) as [Hnd _].
Qed.

(** ** Compiled tiers *)

(** [ct] is [et], with its terms indexed. *)
Definition compiled_from (et : EvidenceTier) (ct : CompiledTier) : Prop :=
  ct_name ct = et_name et ∧ priority ct = et_priority et ∧ ct_value ct = et_value et ∧
  ct_min_distinct_hits ct = et_min_distinct_hits et ∧ ct_case_mode ct = et_case_mode et ∧
  support ct = et_support et.

Lemma build_compiled_from et ct : _build_compiled_tier et = Ok ct → compiled_from et ct.
Proof.
  unfold _build_compiled_tier. intros ([] & _ & H)%bind_Ok. destruct (String.eqb _ _);
    apply bind_Ok in H as (l & _ & [= <-]); done.
Qed.

Lemma compile_tiers_Ok names l cts :
  compile_tiers names l = Ok cts →
  Forall2 compiled_from l cts ∧ NoDup (et_name <$> l) ∧ ∀ n, n ∈ names → n ∉ et_name <$> l.
Proof.
  revert names cts; induction l as [|et l IH]; simpl; intros names cts.
  { intros [= <-]. split_and!; [constructor|constructor|set_solver]. }
  intros ([] & Hn%raise_if_Ok & (ct & Hct & (rest & Hrest & [= <-])%bind_Ok)%bind_Ok)%bind_Ok.
  apply bool_decide_eq_false in Hn. apply IH in Hrest as (Hf & Hnd & Hout). split_and!.
  - constructor; [by apply build_compiled_from|done].
  - apply NoDup_cons. split; [|done]. apply Hout. set_solver.
  - intros n Hin. apply not_elem_of_cons. split; [by intros ->|]. apply Hout. set_solver.
Qed.

#[local] Instance tier_before_total : Total tier_before.
Proof.
  intros a b. unfold tier_before. pose proof (total String.le (et_name a) (et_name b)).
  pose proof (Z.lt_trichotomy (et_priority b) (et_priority a)).
  pose proof (Z.lt_trichotomy (et_value b) (et_value a)). intuition.
Qed.
#[local] Instance tier_before_trans : Transitive tier_before.
Proof.
  intros a b c. unfold tier_before. intros [?|(? & [?|(? & Hab)])] [?|(? & [?|(? & Hbc)])];
    try (left; lia); right; (split; [lia|]); try (left; lia).
  right. split; [lia|]. by etrans.
Qed.

Lemma compile_evidence_pack_Ok pack compiled :
  compile_evidence_pack pack = Ok compiled →
  Forall2 compiled_from (merge_sort tier_before (pk_tiers pack)) (tiers compiled) ∧
  NoDup (et_name <$> pk_tiers pack) ∧ cp_automaton compiled = Some (compile_family_automaton pack).
Proof.
  unfold compile_evidence_pack. intros ([] & _ & (cts & Hcts & [= <-])%bind_Ok)%bind_Ok.
  apply compile_tiers_Ok in Hcts as (Hf & Hnd & _). simpl. split_and!; [done| |done].
  by rewrite merge_sort_Permutation in Hnd.
Qed.

(** The hits of a tier are its terms that occur.  Whatever the pack, each tier of its
    compiled form reports every one of its terms that matches the text in the tier's case
    mode, once, with exactly the positions where it matches. *)
Theorem tier_hits_spec pack compiled et ct tokens :
  compile_evidence_pack pack = Ok compiled →
  et ∈ pk_tiers pack → ct ∈ tiers compiled → ct_name ct = et_name et →
  let hits := tier_hits ((λ m, matched_by_tier m tokens) <$> cp_automaton compiled) tokens ct in
  NoDup (hit_term <$> hits) ∧
  (∀ t, t ∈ hit_term <$> hits ↔
     ∃ term i, term ∈ et_terms et ∧ strip term = t ∧ matches_at tokens (et_case_mode et) term i) ∧
  ∀ h z, h ∈ hits → z ∈ positions h ↔
     ∃ term i, term ∈ et_terms et ∧ strip term = hit_term h ∧ z = Z.of_nat i ∧
       matches_at tokens (et_case_mode et) term i.
Proof.
  intros (_ & Hnd & ->)%compile_evidence_pack_Ok Het Hct Hname hits.
  assert (Hstarts : ∀ t z, z ∈ start_of <$> filter (is_hit (ct_name ct) t)
      (scan_tokens (compile_family_automaton pack) tokens) ↔
    ∃ term i, term ∈ et_terms et ∧ strip term = t ∧ z = Z.of_nat i ∧ matches_at tokens (et_case_mode et) term i).
  { intros t z. rewrite list_elem_of_fmap. setoid_rewrite list_elem_of_filter. rewrite Hname. split.
    - intros (hit & -> & Hh & Hin).
      destruct (proj1 (scanned_starts pack tokens (et_name et) t (start_of hit)))
        as (et' & term & i & Het' & Hn & H); [by exists hit|].
      assert (et' = et) as -> by (by eapply (NoDup_key_inj et_name)). exists term, i. tauto.
    - intros (term & i & Hin & Ht & Hz & Hm).
      destruct (proj2 (scanned_starts pack tokens (et_name et) t z)) as (hit & Hin' & Hh & Hs);
        [by exists et, term, i|]. exists hit. done. }
  set (scan := scan_tokens (compile_family_automaton pack) tokens) in *.
  assert (Hhits : hits = tier_hits (Some (foldl record_match [] scan)) tokens ct) by done.
  clearbody hits. subst hits. split_and!.
  - apply (tier_hits_distinct _ tokens).
  - intros t. rewrite list_elem_of_fmap. split.
    + intros (h & -> & Hin).
      destruct (proj1 (elem_of_tier_hits scan tokens ct (hit_term h) (positions h))) as [Hl Hne]; [by exists h|].
      destruct (positions h) as [|z l] eqn:E; [done|].
      destruct (proj1 (Hstarts (hit_term h) z)) as (term & i & H); [rewrite <- Hl; by left|]. exists term, i. tauto.
    + intros (term & i & Hin & Ht & Hm).
      assert (Hz : Z.of_nat i ∈ start_of <$> filter (is_hit (ct_name ct) t) scan) by (apply Hstarts; by exists term, i).
      destruct (proj2 (elem_of_tier_hits scan tokens ct t _)
        (conj eq_refl (elem_of_not_nil _ _ Hz))) as (h & Hh & <- & _). by exists h.
  - intros h z Hin. rewrite <- Hstarts.
    by destruct (proj1 (elem_of_tier_hits scan tokens ct (hit_term h) (positions h))) as [<- _]; [by exists h|].
Qed.

(** A primary tier of higher priority never has a lower value, as in every pack of the repository. *)
Definition aligned (pack : LexicalEvidencePack) : Prop :=
  ∀ a b, a ∈ pk_tiers pack → b ∈ pk_tiers pack → et_support a = false → et_support b = false →
    (et_priority b < et_priority a)%Z → (et_value b ≤ et_value a)%Z.

Lemma check_tier_Ok t t' :
  check_tier t = Ok t' → (1 ≤ et_value t)%Z ∧ (et_support t = true → et_value t = 1%Z).
Proof.
  unfold check_tier. intros ([] & Hv%raise_if_Ok & ([] & Hs%raise_if_Ok & _)%bind_Ok)%bind_Ok.
  apply negb_false_iff, bool_decide_eq_true in Hv. split; [set_unfold in Hv; lia|].
  intros Heq. rewrite Heq in Hs. simpl in Hs. apply negb_false_iff in Hs. lia.
Qed.

(** Support comes before the primary tiers of value one, as in every pack of the repository. *)
Definition supported_first (pack : LexicalEvidencePack) : Prop :=
  ∀ a b, a ∈ pk_tiers pack → b ∈ pk_tiers pack → et_support a = false → et_value a = 1%Z →
    et_support b = true → (et_priority a < et_priority b)%Z.

(** What holds of the tiers of a pack pairwise, in their order, holds of the compiled tiers. *)
Lemma compiled_sorted pack compiled (R : CompiledTier → CompiledTier → Prop) :
  compile_evidence_pack pack = Ok compiled →
  (∀ a b ca cb, a ∈ pk_tiers pack → b ∈ pk_tiers pack → tier_before a b → compiled_from a ca →
     compiled_from b cb → R ca cb) →
  StronglySorted R (tiers compiled).
Proof.
  intros (Hf & _ & _)%compile_evidence_pack_Ok HR.
  assert (Hs : StronglySorted tier_before (merge_sort tier_before (pk_tiers pack)))
    by (apply StronglySorted_merge_sort; apply _).
  assert (Hin : ∀ t, t ∈ merge_sort tier_before (pk_tiers pack) → t ∈ pk_tiers pack)
    by (intros t; by rewrite merge_sort_Permutation).
  induction Hf as [|et ct l cts Hc Hf IH]; [constructor|]. apply StronglySorted_inv in Hs as [Hs Hall].
  constructor; [apply IH; [done|]; intros t Ht; apply Hin; by right|].
  apply Forall_forall. intros ct' Hct'.
  apply list_elem_of_lookup in Hct' as [i Hi]. destruct (Forall2_lookup_r _ _ _ _ _ Hf Hi) as (et' & Hi' & Hc').
  apply list_elem_of_lookup_2 in Hi'. rewrite Forall_forall in Hall.
  apply (HR et et'); [apply Hin; by left|apply Hin; by right|by apply Hall|done|done].
Qed.

Lemma aligned_descending pack compiled :
  compile_evidence_pack pack = Ok compiled → aligned pack →
  Forall (λ t, check_tier t = Ok t) (pk_tiers pack) → descending (tiers compiled).
Proof.
  intros Hc Hal Hok. split.
  - apply (compiled_sorted _ _ _ Hc). intros a b ca cb Ha Hb Hab (_ & _ & -> & _ & _ & ->) (_ & _ & -> & _ & _ & ->) Hsa Hsb.
    specialize (Hal a b Ha Hb Hsa Hsb). unfold tier_before in Hab. lia.
  - apply compile_evidence_pack_Ok in Hc as (Hf & _ & _).
    apply Forall_forall. intros ct Hct. apply list_elem_of_lookup in Hct as [i Hi].
    destruct (Forall2_lookup_r _ _ _ _ _ Hf Hi) as (et & Hi' & (_ & _ & Hv & _ & _ & Hs)).
    unfold valued. rewrite Hv, Hs. apply list_elem_of_lookup_2 in Hi'. rewrite merge_sort_Permutation in Hi'.
    rewrite Forall_forall in Hok. by eapply check_tier_Ok, Hok.
Qed.
Lemma supported_support_first pack compiled :
  compile_evidence_pack pack = Ok compiled → supported_first pack → support_first (tiers compiled).
Proof.
  intros Hc Hsup. apply (compiled_sorted _ _ _ Hc).
  intros a b ca cb Ha Hb Hab (_ & _ & -> & _ & _ & ->) (_ & _ & _ & _ & _ & ->) Hp Hv.
  specialize (Hsup a b Ha Hb Hp Hv). unfold tier_before in Hab. destruct (et_support b); [|done].
  specialize (Hsup eq_refl). lia.
Qed.

(** [matched], [ambiguous] or [no_match], by the score. *)
Definition decision (score : Z) : string :=
  if (2 <=? score)%Z then "matched" else if (score =? 1)%Z then "ambiguous" else "no_match".

Lemma concluded_primary hits_of l (partial : bool) :
  (best_value hits_of l = 0%Z → partial = some_partial hits_of l) →
  (if (0 `max` best_value hits_of l =? 0)%Z && partial then 1 else 0 `max` best_value hits_of l)%Z =
  primary_score hits_of l.
Proof.
  intros Hp. pose proof (best_value_nonneg hits_of l). rewrite Z.max_r by done. unfold primary_score.
  destruct (Z.eqb_spec (best_value hits_of l) 0) as [Hz|]; [|done]. rewrite Hp, Hz by done. simpl.
  by destruct (some_partial hits_of l).
Qed.
(** Leaving out the support past the first strong tier does not change the decision. *)
Lemma decision_counted hits_of l :
  Forall valued l →
  decision (Z.min 3 (primary_score hits_of l + support_total hits_of (counted hits_of l))) =
    decision (Z.min 3 (primary_score hits_of l + support_total hits_of l)) ∧
  ((primary_score hits_of l < 2)%Z → counted hits_of l = l).
Proof.
  intros Hpos.
  assert (Hall : (primary_score hits_of l < 2)%Z → counted hits_of l = l).
  { unfold primary_score. intros Hlt. apply counted_all; [done|].
    destruct (Z.eqb_spec (best_value hits_of l) 0); lia. }
  split; [|done]. destruct (Z.ltb_spec (primary_score hits_of l) 2); [by rewrite Hall|].
  pose proof (support_total_nonneg hits_of l Hpos).
  assert (0 ≤ support_total hits_of (counted hits_of l))%Z.
  { apply support_total_nonneg, Forall_forall. intros t Ht%counted_sub. rewrite Forall_forall in Hpos. by apply Hpos. }
  unfold decision. destruct (Z.leb_spec 2 (Z.min 3 (primary_score hits_of l + support_total hits_of l)));
    destruct (Z.leb_spec 2 (Z.min 3 (primary_score hits_of l + support_total hits_of (counted hits_of l)))); lia || done.
Qed.

(** C13: stopping early never changes the decision, and changes the score only by support
    past the first strong tier.  For a pack of checked tiers whose primary values do not grow as
    priorities fall and whose support tiers all come before the primary tiers of value one,
    as in every pack of the repository, and a text it is applied to: the classification is
    the one given by all tiers together, the best satisfied primary tier (or one, if there
    is none but a tier of value two or three has some hits) plus all satisfied support, at
    most three; the score is this sum too, except that once a satisfied primary tier of
    value two or three is met only the support before it counts. *)
Theorem score_tokens_exhaustive pack compiled tokens context :
  compile_evidence_pack pack = Ok compiled → aligned pack → supported_first pack →
  Forall (λ t, check_tier t = Ok t) (pk_tiers pack) → pk_tiers pack ≠ [] →
  ec_eligible context = true → (min_words context ≤ Z.of_nat (length tokens))%Z →
  let r := score_tokens tokens compiled context in
  let hits := tier_hits ((λ m, matched_by_tier m tokens) <$> cp_automaton compiled) tokens in
  let primary := primary_score hits (tiers compiled) in
  classification r = decision (Z.min 3 (primary + support_total hits (tiers compiled))) ∧
  support_score r = support_total hits (counted hits (tiers compiled)) ∧
  bow_score r = Z.min 3 (primary + support_score r) ∧
  ((primary < 2)%Z → counted hits (tiers compiled) = tiers compiled).
Proof.
  intros Hc Hal Hsup Hok Hne He Hw. cbn zeta. unfold score_tokens. rewrite He. cbn [negb].
  destruct (Z.ltb_spec (Z.of_nat (length tokens)) (min_words context)); [lia|].
  destruct (tiers compiled) as [|ct cts] eqn:E.
  { apply compile_evidence_pack_Ok in Hc as (Hf & _ & _). rewrite E in Hf. apply Forall2_nil_inv_r in Hf.
    pose proof (merge_sort_Permutation tier_before (pk_tiers pack)) as Hp. rewrite Hf in Hp.
    by apply Permutation_nil in Hp. }
  rewrite <- E. set (hits := tier_hits _ tokens). unfold conclude. cbn [bow_score support_score classification].
  pose proof (aligned_descending _ _ Hc Hal Hok) as Hd. pose proof (supported_support_first _ _ Hc Hsup) as Hsf.
  destruct (score_loop_exhaustive hits (tiers compiled) scoring_start Hd) as (Hs & Hp); [done|by left|].
  pose proof (score_loop_support hits (tiers compiled) scoring_start Hd Hsf eq_refl) as Hu.
  cbn zeta in Hs, Hp. cbn [s_score scoring_start s_partial_strong s_support_score orb] in Hs, Hp, Hu.
  rewrite Hu, Hs, Z.add_0_l, (concluded_primary hits)
    by (intros Hz; apply Hp; by rewrite Hs, Hz).
  destruct (decision_counted hits (tiers compiled)) as [Hdec Hall]; [apply Hd|]. split_and!; [exact Hdec|done..].
Qed.

(** ** A small pack *)

Definition demo_pack : LexicalEvidencePack :=
  mkPack "body"
    [mkTier "body_weak" 10 1 ["provides"; "operates"] "unigram" 2 FOLD false;
     mkTier "body_phrase" 30 3 ["market segments"; "labor union"] "ngram" 1 FOLD false;
     mkTier "body_strong" 20 2 ["founded"; "provider"; "customers"] "unigram" 2 FOLD false]
    ["registrant"].
Definition demo_tokens : list Token :=
  tokenize "The company reports distinct Market-Segments for every region.".
Definition demo_compiled : CompiledEvidencePack :=
  match compile_evidence_pack demo_pack with Ok c => c | Err _ => mkCompiledPack "" [] [] ∅ None end.
Definition demo_context : EvidenceContext := mkContext true "" ∅ 8.

Example demo_score :
  let r := score_tokens demo_tokens demo_compiled demo_context in
  (bow_score r, classification r, satisfied_tiers r, evaluated_tiers r, short_circuited r) =
  (3%Z, "matched", ["body_phrase"], ["body_phrase"], true).
Proof. vm_compute. reflexivity. Qed.

Lemma demo_compiles : compile_evidence_pack demo_pack = Ok demo_compiled.
Proof. vm_compute. reflexivity. Qed.

Definition demo_phrase_tier : EvidenceTier :=
  mkTier "body_phrase" 30 3 ["market segments"; "labor union"] "ngram" 1 FOLD false.
Definition demo_compiled_tier : CompiledTier :=
  match tiers demo_compiled with
  | ct :: _ => ct
  | [] => mkCompiled "" 0 0 "" 0 FOLD false ∅ []
  end.

Lemma tier_hits_spec_witness :
  "market segments" ∈ hit_term <$>
    tier_hits ((λ m, matched_by_tier m demo_tokens) <$> cp_automaton demo_compiled) demo_tokens demo_compiled_tier.
Proof.
  destruct (tier_hits_spec demo_pack demo_compiled demo_phrase_tier demo_compiled_tier demo_tokens demo_compiles)
    as (_ & Hin & _).
  - right; left.
  - vm_compute. left.
  - vm_compute. reflexivity.
  - apply Hin. exists "market segments", 4. split; [left|]. split; [reflexivity|].
    split; [discriminate|]. split; [reflexivity|exact I].
Defined.

(** A pack with support, of which a strong tier is met first, and one whose support the
    cut loses: its primary tier of value one is the last of its band. *)
Definition support_pack : LexicalEvidencePack :=
  mkPack "table"
    [mkTier "title" 30 2 ["market segments"] "ngram" 1 FOLD false;
     mkTier "header_support" 40 1 ["company"] "unigram" 1 FOLD true;
     mkTier "note_support" 10 1 ["region"] "unigram" 1 FOLD true] [].
Definition support_compiled : CompiledEvidencePack :=
  match compile_evidence_pack support_pack with Ok c => c | Err _ => mkCompiledPack "" [] [] ∅ None end.
Lemma support_compiles : compile_evidence_pack support_pack = Ok support_compiled.
Proof. vm_compute. reflexivity. Qed.

Definition late_support_pack : LexicalEvidencePack :=
  mkPack "table"
    [mkTier "title" 30 1 ["market segments"] "ngram" 1 FOLD false;
     mkTier "note_support" 20 1 ["region"] "unigram" 1 FOLD true] [].
(** Both tiers are satisfied, one and one, but the text stays ambiguous. *)
Example late_support_lost :
  (λ compiled, let r := score_tokens demo_tokens compiled demo_context in
     (classification r, bow_score r,
      support_total (tier_hits ((λ m, matched_by_tier m demo_tokens) <$> cp_automaton compiled) demo_tokens)
        (tiers compiled))) <$> match compile_evidence_pack late_support_pack with Ok c => Some c | Err _ => None end
  = Some ("ambiguous", 1%Z, 1%Z).
Proof. vm_compute. reflexivity. Qed.

Lemma score_tokens_exhaustive_witness :
  let r := score_tokens demo_tokens support_compiled demo_context in
  classification r = "matched" ∧ support_score r = 1%Z ∧ bow_score r = 3%Z ∧
  evaluated_tiers r = ["header_support"; "title"].
Proof.
  destruct (score_tokens_exhaustive support_pack support_compiled demo_tokens demo_context support_compiles)
    as (Hc & Hs & Hb & _).
  - intros a b Ha Hb. unfold support_pack in Ha, Hb. simpl in Ha, Hb. set_unfold in Ha. set_unfold in Hb.
    destruct Ha as [-> | [-> | [-> | []]]], Hb as [-> | [-> | [-> | []]]]; simpl; lia.
  - intros a b Ha Hb. unfold support_pack in Ha, Hb. simpl in Ha, Hb. set_unfold in Ha. set_unfold in Hb.
    destruct Ha as [-> | [-> | [-> | []]]], Hb as [-> | [-> | [-> | []]]]; simpl; intros; lia || discriminate.
  - repeat constructor.
  - discriminate.
  - reflexivity.
  - vm_compute. discriminate.
  - cbn zeta. rewrite Hc, Hb, Hs. vm_compute. split_and!; reflexivity.
Defined.
