(* ===== verification/SnapshotCatalog.v ===== *)
(** * The snapshot catalog: [infra/storage/dag/catalog.py] and [manifest.py]

    Snapshots of a dataset form a DAG: a checkpoint stands alone, a delta has parents.  The
    catalog is a SQLite database of nodes, their parents and parts, branch pointers and
    tags.  A table with a text primary key is a map; the others are lists of rows in
    insertion order.  Every method is one transaction: it returns the new catalog or
    raises and leaves it.  A JSON text column holds the value it parses to. *)
From S2P Require Import Prelude Serialization PyJson Hashing.

(** ** Manifests *)

Record ParentRef := mkParentRef { pr_snapshot_id : string; pr_manifest_sha256 : string }.
Record PartDescriptor := mkPart {
  path : string;
  sha256 : string;
  row_count : Z;
  byte_size : Z;
  key_min : option string;
  key_max : option string;
}.
Record DAGNodeManifest := mkManifest {
  snapshot_id : string;
  kind : string;
  parents : list ParentRef;
  checkpoint_anchor_id : string;
  lineage_depth : Z;
  created_at : string;
  relations : list (string * list PartDescriptor);
  logical_fingerprint : string;
  schema_versions : list (string * json);
  metadata : list (string * json);
}.

Definition parent_to_dict (p : ParentRef) : json :=
  JObj [("snapshot_id", JStr (pr_snapshot_id p)); ("manifest_sha256", JStr (pr_manifest_sha256 p))].
Definition optional_field (key : string) (v : option string) : list (string * json) :=
  match v with Some s => [(key, JStr s)] | None => [] end.
Definition part_to_dict (p : PartDescriptor) : json :=
  JObj ([("path", JStr (path p)); ("sha256", JStr (sha256 p)); ("row_count", JInt (row_count p));
         ("byte_size", JInt (byte_size p))]
        ++ optional_field "key_min" (key_min p) ++ optional_field "key_max" (key_max p)).
Definition to_dict (m : DAGNodeManifest) : json :=
  JObj [("snapshot_id", JStr (snapshot_id m)); ("kind", JStr (kind m));
    ("parents", JArr (parent_to_dict <$> parents m));
    ("checkpoint_anchor_id", JStr (checkpoint_anchor_id m));
    ("lineage_depth", JInt (lineage_depth m)); ("created_at", JStr (created_at m));
    ("relations", JObj ((λ r, (r.1, JArr (part_to_dict <$> r.2))) <$> order_by fst (relations m)));
    ("logical_fingerprint", JStr (logical_fingerprint m));
    ("schema_versions", JObj (order_by fst (schema_versions m)));
    ("metadata", JObj (order_by fst (metadata m)))].

(** [parent_snapshot_id or None] *)
Definition parent_snapshot_id (m : DAGNodeManifest) : option string :=
  match parents m with
  | p :: _ => if String.eqb (pr_snapshot_id p) "" then None else Some (pr_snapshot_id p)
  | [] => None
  end.

(** ** The tables *)

Record node_row := mkNode {
  nd_kind : string;
  nd_parent_id : option string;
  nd_anchor : string;
  nd_created_at : string;
  nd_depth : Z;
  nd_sha256 : string;
  nd_fingerprint : string;
  nd_schema : json;
  nd_metadata : json;
}.
Record parent_row := mkParent { np_snapshot : string; np_parent : string; np_order : nat; np_sha256 : string }.
Record part_row := mkPartRow { pt_snapshot : string; pt_relation : string; pt_part : PartDescriptor }.
Record tag_row := mkTag { tg_snapshot : string; tg_created_at : string; tg_message : string }.

Record catalog := mkCatalog {
  nodes : gmap string node_row;
  node_parents : list parent_row;
  parts : list part_row;
  branches : gmap string (string * string);     (* snapshot, updated_at *)
  tags : gmap string tag_row;
}.
Definition empty_catalog : catalog := mkCatalog ∅ [] [] ∅ ∅.

Definition fits_int64 (z : Z) : bool := ((- 2 ^ 63 <=? z) && (z <? 2 ^ 63))%Z.

(** The INSERT statements. *)
Definition insert_node (c : catalog) (id : string) (row : node_row) : result catalog :=
  _ ← raise_if (negb (fits_int64 (nd_depth row))) OverflowError;
  _ ← raise_if (negb (bool_decide (nd_kind row ∈ ["delta"; "checkpoint"]))
                || (nd_depth row <? 0)%Z || bool_decide (is_Some (nodes c !! id))) IntegrityError;
  Ok (mkCatalog (<[id := row]> (nodes c)) (node_parents c) (parts c) (branches c) (tags c)).
Definition insert_parent (c : catalog) (row : parent_row) : result catalog :=
  _ ← raise_if (existsb (λ r, String.eqb (np_snapshot r) (np_snapshot row)
                              && String.eqb (np_parent r) (np_parent row)) (node_parents c)) IntegrityError;
  Ok (mkCatalog (nodes c) (node_parents c ++ [row]) (parts c) (branches c) (tags c)).
Definition insert_part (c : catalog) (row : part_row) : result catalog :=
  _ ← raise_if (negb (fits_int64 (row_count (pt_part row)) && fits_int64 (byte_size (pt_part row)))) OverflowError;
  Ok (mkCatalog (nodes c) (node_parents c) (parts c ++ [row]) (branches c) (tags c)).
(** [DELETE FROM nodes], with ON DELETE CASCADE. *)
Definition delete_node (c : catalog) (id : string) : catalog :=
  mkCatalog (delete id (nodes c)) (filter (λ r, np_snapshot r ≠ id) (node_parents c))
    (filter (λ r, pt_snapshot r ≠ id) (parts c)) (branches c) (tags c).
Definition set_branch (c : catalog) (name id updated_at : string) : catalog :=
  mkCatalog (nodes c) (node_parents c) (parts c) (<[name := (id, updated_at)]> (branches c)) (tags c).
Definition set_tags (c : catalog) (t : gmap string tag_row) : catalog :=
  mkCatalog (nodes c) (node_parents c) (parts c) (branches c) t.

(** ** Recording *)

Section recording.
Context (sha256_hexdigest : string → string).

Definition manifest_digest (m : DAGNodeManifest) : string :=
  sha256_text sha256_hexdigest (canonical_json (to_dict m)).

Definition node_of (m : DAGNodeManifest) : node_row :=
  mkNode (kind m) (parent_snapshot_id m) (checkpoint_anchor_id m) (created_at m) (lineage_depth m)
    (manifest_digest m) (logical_fingerprint m) (sort_keys (JObj (schema_versions m)))
    (sort_keys (JObj (metadata m))).
Definition parents_of (m : DAGNodeManifest) : list parent_row :=
  imap (λ i p, mkParent (snapshot_id m) (pr_snapshot_id p) i (pr_manifest_sha256 p)) (parents m).
Definition parts_of (m : DAGNodeManifest) : list part_row :=
  relations m ≫= λ r, mkPartRow (snapshot_id m) r.1 <$> r.2.

Definition _insert_manifest (c : catalog) (m : DAGNodeManifest) : result catalog :=
  match nodes c !! snapshot_id m with
  | Some existing =>
      if String.eqb (nd_sha256 existing) (manifest_digest m)
         || negb (String.eqb (nd_fingerprint existing) "")
            && String.eqb (nd_fingerprint existing) (logical_fingerprint m)
      then Ok c
      else Err (ValueError "snapshot already recorded with different digest")
  | None =>
      c ← insert_node c (snapshot_id m) (node_of m);
      c ← foldr_m insert_parent c (parents_of m);
      foldr_m insert_part c (parts_of m)
  end.

Definition record_node (c : catalog) (m : DAGNodeManifest) : result catalog := _insert_manifest c m.
Definition publish_in_catalog (c : catalog) (m : DAGNodeManifest) (branch_name now_iso : string) :
    result catalog :=
  c ← _insert_manifest c m; Ok (set_branch c branch_name (snapshot_id m) now_iso).
End recording.

(** ** Reading *)

(** [rel_map.setdefault(name, []).append(part)] over the rows of the snapshot. *)
Fixpoint add_part (name : string) (p : PartDescriptor) (l : list (string * list PartDescriptor)) :
    list (string * list PartDescriptor) :=
  match l with
  | [] => [(name, [p])]
  | (n, ps) :: l => if String.eqb n name then (n, ps ++ [p]) :: l else (n, ps) :: add_part name p l
  end.
Definition obj_fields (v : json) : list (string * json) := match v with JObj l => l | _ => [] end.

(** [ORDER BY parent_order] *)
Definition parent_le (a b : parent_row) : Prop := np_order a ≤ np_order b.
#[global] Instance parent_le_dec : RelDecision parent_le.
Proof. unfold parent_le. intros a b. apply _. Defined.

Definition get_manifest (c : catalog) (id : string) : option DAGNodeManifest :=
  row ← nodes c !! id;
  Some (mkManifest id (nd_kind row)
    ((λ r, mkParentRef (np_parent r) (np_sha256 r))
       <$> merge_sort parent_le (filter (λ r, np_snapshot r = id) (node_parents c)))
    (nd_anchor row) (nd_depth row) (nd_created_at row)
    (foldl (λ l r, add_part (pt_relation r) (pt_part r) l) [] (filter (λ r, pt_snapshot r = id) (parts c)))
    (nd_fingerprint row) (obj_fields (nd_schema row)) (obj_fields (nd_metadata row))).

Definition has_snapshot (c : catalog) (id : string) : bool := bool_decide (is_Some (nodes c !! id)).
Definition get_manifest_sha256 (c : catalog) (id : string) : option string := nd_sha256 <$> nodes c !! id.
Definition read_pointer (c : catalog) (branch_name : string) : option string :=
  fst <$> branches c !! branch_name.
Definition write_pointer (c : catalog) (branch_name id now_iso : string) : catalog :=
  set_branch c branch_name id now_iso.

Definition create_tag (c : catalog) (name id message now_iso : string) : result catalog :=
  _ ← raise_if (bool_decide (is_Some (tags c !! name))) IntegrityError;
  Ok (set_tags c (<[name := mkTag id now_iso message]> (tags c))).
Definition get_tag (c : catalog) (name : string) : option tag_row := tags c !! name.
Definition delete_tag (c : catalog) (name : string) : catalog * bool :=
  (set_tags c (delete name (tags c)), bool_decide (is_Some (tags c !! name))).

(** ** [tags.py] and [publication.py]: the same with checks *)

Definition contains_slash (s : string) : bool := has_char (Ascii.ascii_of_nat 47) s.
Definition create_tag_checked (c : catalog) (tag_name id message now_iso : string) : result catalog :=
  _ ← raise_if (String.eqb tag_name "" || contains_slash tag_name) (ValueError "invalid tag name");
  _ ← raise_if (negb (has_snapshot c id)) FileNotFoundError;
  _ ← raise_if (bool_decide (is_Some (get_tag c tag_name))) FileExistsError;
  create_tag c tag_name id message now_iso.

Definition checkout_tip (c : catalog) (target branch_name now_iso : string) : result catalog :=
  _ ← raise_if (negb (has_snapshot c target)) FileNotFoundError;
  Ok (write_pointer c branch_name target now_iso).
Definition create_branch (c : catalog) (branch_name id now_iso : string) : result catalog :=
  _ ← raise_if (bool_decide (branch_name ∈ ["current"; ""])) (ValueError "branch name");
  checkout_tip c id branch_name now_iso.
Definition delete_branch (c : catalog) (branch_name : string) : result (catalog * bool) :=
  _ ← raise_if (bool_decide (branch_name ∈ ["current"; "main"; ""])) (ValueError "cannot delete protected branch");
  Ok (mkCatalog (nodes c) (node_parents c) (parts c) (delete branch_name (branches c)) (tags c),
      bool_decide (is_Some (branches c !! branch_name))).

(** [publication.publish_node] under its lock: the branch must still be where the caller
    saw it.  [staged] tells whether there is a staged directory that exists; the directories
    under the root are [dirs]. *)
Definition publish_node (sha256_hexdigest : string → string) (dirs : gset string) (c : catalog)
    (m : DAGNodeManifest) (staged : bool) (expected_parent_id : option string)
    (branch_name now_iso : string) : gset string * catalog * result unit :=
  if negb (bool_decide (read_pointer c branch_name = expected_parent_id)) then (dirs, c, Err StaleParentError)
  else
    let dirs := if staged then {[snapshot_id m]} ∪ dirs else dirs in
    match publish_in_catalog sha256_hexdigest c m branch_name now_iso with
    | Ok c' => (dirs, c', Ok ())
    | Err e => (dirs, c, Err e)
    end.

(** ** What recording does *)

Lemma insert_parents_Ok rows c c' :
  foldr_m insert_parent c rows = Ok c' →
  c' = mkCatalog (nodes c) (node_parents c ++ rows) (parts c) (branches c) (tags c).
Proof.
  revert c. induction rows as [|r rows IH]; simpl; intros c H.
  { inv_ok. by rewrite app_nil_r; destruct c'. }
  unfold insert_parent in H. inv_ok. apply IH in H0 as ->. simpl. by rewrite <- app_assoc.
Qed.
Lemma insert_parts_Ok rows c c' :
  foldr_m insert_part c rows = Ok c' →
  c' = mkCatalog (nodes c) (node_parents c) (parts c ++ rows) (branches c) (tags c).
Proof.
  revert c. induction rows as [|r rows IH]; simpl; intros c H.
  { inv_ok. by rewrite app_nil_r; destruct c'. }
  unfold insert_part in H. inv_ok. apply IH in H0 as ->. simpl. by rewrite <- app_assoc.
Qed.

(** The catalog with the rows of [m] added. *)
Definition with_manifest (sha256_hexdigest : string → string) (c : catalog) (m : DAGNodeManifest) : catalog :=
  mkCatalog (<[snapshot_id m := node_of sha256_hexdigest m]> (nodes c)) (node_parents c ++ parents_of m)
    (parts c ++ parts_of m) (branches c) (tags c).
(** [m] is there already: its manifest digest or its fingerprint is that of the node. *)
Definition already_recorded (sha256_hexdigest : string → string) (c : catalog) (m : DAGNodeManifest) : Prop :=
  ∃ row, nodes c !! snapshot_id m = Some row ∧
    (nd_sha256 row = manifest_digest sha256_hexdigest m ∨
     nd_fingerprint row ≠ "" ∧ nd_fingerprint row = logical_fingerprint m).

Lemma insert_manifest_Ok sha c m c' :
  _insert_manifest sha c m = Ok c' →
  already_recorded sha c m ∧ c' = c ∨ nodes c !! snapshot_id m = None ∧ c' = with_manifest sha c m.
Proof.
  unfold _insert_manifest. destruct (nodes c !! snapshot_id m) as [row|] eqn:Hrow; intros H.
  - left. destruct (_ || _) eqn:Hb; inv_ok. split; [|done]. exists row. split; [done|].
    apply orb_true_iff in Hb as [Hb%String.eqb_eq|[Hb1 Hb2%String.eqb_eq]%andb_true_iff]; [by left|right].
    split; [|done]. by apply negb_true_iff, String.eqb_neq in Hb1.
  - right. split; [done|]. apply bind_Ok in H as (c1 & H1 & (c2 & H2 & H3)%bind_Ok).
    unfold insert_node in H1. inv_ok. apply insert_parts_Ok in H3 as ->. by apply insert_parents_Ok in H2 as ->.
Qed.

(** ** Reading a manifest back *)

(** Every row belongs to a node: what the foreign keys enforce. *)
Definition rows_owned (c : catalog) : Prop :=
  (∀ r, r ∈ node_parents c → is_Some (nodes c !! np_snapshot r)) ∧
  (∀ r, r ∈ parts c → is_Some (nodes c !! pt_snapshot r)).

Lemma rows_owned_empty : rows_owned empty_catalog.
Proof. split; intros r Hr; inversion Hr. Qed.
Lemma elem_of_parents_of m r :
  r ∈ parents_of m ↔ ∃ i p, parents m !! i = Some p ∧ r = mkParent (snapshot_id m) (pr_snapshot_id p) i (pr_manifest_sha256 p).
Proof. unfold parents_of. rewrite elem_of_lookup_imap. naive_solver. Qed.
Lemma parts_of_snapshot m r : r ∈ parts_of m → pt_snapshot r = snapshot_id m.
Proof. unfold parts_of. intros (x & (p & -> & _)%list_elem_of_fmap & _)%list_elem_of_bind. done. Qed.
Lemma parents_of_snapshot m r : r ∈ parents_of m → np_snapshot r = snapshot_id m.
Proof. by intros (i & p & _ & ->)%elem_of_parents_of. Qed.

Lemma rows_owned_with sha c m : rows_owned c → rows_owned (with_manifest sha c m).
Proof.
  intros [Hp Ht]. unfold with_manifest. split; simpl; intros r [Hr|Hr]%elem_of_app; apply lookup_insert_is_Some';
    [right; auto|left; by rewrite (parents_of_snapshot _ _ Hr)|right; auto|left; by rewrite (parts_of_snapshot _ _ Hr)].
Qed.
Lemma rows_owned_insert sha c m c' : rows_owned c → _insert_manifest sha c m = Ok c' → rows_owned c'.
Proof. intros Hc [[_ ->]|[_ ->]]%insert_manifest_Ok; [done|by apply rows_owned_with]. Qed.
Lemma rows_owned_delete c id : rows_owned c → rows_owned (delete_node c id).
Proof.
  intros [Hp Ht]. split; simpl; intros r [Hne Hr]%list_elem_of_filter; rewrite lookup_delete_ne by done; auto.
Qed.

#[global] Instance parent_le_trans : Transitive parent_le.
Proof. intros a b c. unfold parent_le. lia. Qed.
#[global] Instance parent_le_total : Total parent_le.
Proof. intros a b. unfold parent_le. lia. Qed.

Lemma parents_of_sorted m : merge_sort parent_le (parents_of m) = parents_of m.
Proof.
  apply (StronglySorted_unique_strong parent_le).
  - intros x y Hx Hy H1 H2. rewrite merge_sort_Permutation in Hx.
    apply elem_of_parents_of in Hx as (i & p & Hi & ->), Hy as (j & q & Hj & ->).
    unfold parent_le in H1, H2. simpl in *. assert (i = j) as <- by lia. congruence.
  - apply (StronglySorted_merge_sort parent_le).
  - unfold parents_of. generalize (snapshot_id m) as id. intros id.
    assert (Hge : ∀ l n, StronglySorted parent_le
      (imap (λ i p, mkParent id (pr_snapshot_id p) (n + i) (pr_manifest_sha256 p)) l)); [|apply (Hge _ 0)].
    induction l as [|p l IH]; intros n; simpl; constructor.
    + rewrite (imap_ext _ (λ i p, mkParent id (pr_snapshot_id p) (S n + i) (pr_manifest_sha256 p))); [apply IH|].
      intros. simpl. f_equal. lia.
    + apply Forall_forall. intros r (i & q & -> & _)%elem_of_lookup_imap. unfold parent_le. simpl. lia.
  - apply merge_sort_Permutation.
Qed.
Lemma parents_of_refs m : (λ r, mkParentRef (np_parent r) (np_sha256 r)) <$> parents_of m = parents m.
Proof.
  unfold parents_of. rewrite fmap_imap. rewrite (imap_ext _ (const id)); [by rewrite imap_const, list_fmap_id|].
  by intros i [] _.
Qed.

Section relations_back.
Implicit Types l : list (string * list PartDescriptor).

Lemma add_part_new n p l : n ∉ l.*1 → add_part n p l = l ++ [(n, [p])].
Proof.
  induction l as [|[k ps] l IH]; simpl; intros Hn; [done|]. apply not_elem_of_cons in Hn as [Hk Hn].
  rewrite (proj2 (String.eqb_neq k n)) by done. by rewrite IH.
Qed.
Lemma add_part_last n p ps l : n ∉ l.*1 → add_part n p (l ++ [(n, ps)]) = l ++ [(n, ps ++ [p])].
Proof.
  induction l as [|[k qs] l IH]; simpl; intros Hn; [by rewrite String.eqb_refl|].
  apply not_elem_of_cons in Hn as [Hk Hn]. rewrite (proj2 (String.eqb_neq k n)) by done. by rewrite IH.
Qed.

Definition add_row (l : list (string * list PartDescriptor)) (r : part_row) :=
  add_part (pt_relation r) (pt_part r) l.

Lemma add_relation id n ps l :
  n ∉ l.*1 → foldl add_row l (mkPartRow id n <$> ps) = l ++ (if decide (ps = []) then [] else [(n, ps)]).
Proof.
  intros Hn. destruct ps as [|p ps]; simpl; [by rewrite app_nil_r|]. unfold add_row at 2. simpl.
  rewrite add_part_new by done. change (?l ++ [(n, p :: ps)]) with (l ++ [(n, [p] ++ ps)]).
  generalize [p] as qs. induction ps as [|q ps IH]; intros qs; simpl; [by rewrite app_nil_r|].
  unfold add_row at 2. simpl. rewrite add_part_last by done. rewrite IH. by rewrite <- app_assoc.
Qed.
Lemma add_relations id l acc :
  NoDup (acc.*1 ++ l.*1) →
  foldl add_row acc (l ≫= λ r, mkPartRow id r.1 <$> r.2) = acc ++ filter (λ r, r.2 ≠ []) l.
Proof.
  revert acc. induction l as [|[n ps] l IH]; intros acc Hnd; simpl; [by rewrite app_nil_r|].
  simpl in Hnd. assert (Hn : n ∉ acc.*1).
  { apply NoDup_app in Hnd as (_ & Hd & _). intros Hin. apply (Hd _ Hin). left. }
  rewrite foldl_app, add_relation by done. rewrite IH.
  - rewrite <- app_assoc. f_equal. rewrite filter_cons. simpl. by repeat case_decide.
  - case_decide; [rewrite app_nil_r|].
    + apply NoDup_app. apply NoDup_app in Hnd as (H1 & H2 & [_ H3]%NoDup_cons). split_and!; [done| |done].
      intros x Hx Hin. apply (H2 x Hx). by right.
    + rewrite fmap_app. simpl. by rewrite <- app_assoc.
Qed.
End relations_back.
