(* ===== verification/SnapshotLineage.v ===== *)
(** * Lineages of snapshots: [walk_lineage] of [infra/storage/dag]

    The recursive query of [catalog.py] follows parents from a tip back to checkpoints and
    orders the snapshots by their longest distance from the tip; [traversal.py] adds the
    checks that make a lineage usable.  The query's result is computed level by level: the
    rows at depth [d + 1] are the parents of those at depth [d], and it ends when a level is
    empty; [None] is a query that does not end.  Snapshots of equal depth come in an order
    the query leaves open, [order_of]. *)
From S2P Require Import Prelude Serialization SnapshotCatalog.

(** ** The recursive query *)

Definition is_checkpoint (c : catalog) (id : string) : bool :=
  match nodes c !! id with Some row => String.eqb (nd_kind row) "checkpoint" | None => false end.

(** The rows the recursive step adds for the rows of one depth. *)
Definition next_level (c : catalog) (level : gset string) : gset string :=
  list_to_set (np_parent <$>
    filter (λ r, np_snapshot r ∈ level ∧ is_checkpoint c (np_snapshot r) = false
                 ∧ is_Some (nodes c !! np_parent r)) (node_parents c)).
Fixpoint lineage_levels (c : catalog) (fuel : nat) (level : gset string) : option (list (gset string)) :=
  if decide (level = ∅) then Some []
  else match fuel with
       | O => None
       | S fuel => (level ::.) <$> lineage_levels c fuel (next_level c level)
       end.
Definition tip_level (c : catalog) (tip_id : string) : gset string :=
  if has_snapshot c tip_id then {[tip_id]} else ∅.

(** [GROUP BY snapshot_id] with [MAX(depth)], deepest first: each snapshot is in the group of
    the last level it occurs in. *)
Fixpoint anchor_groups (levels : list (gset string)) : list (gset string) :=
  match levels with
  | [] => []
  | l :: levels => anchor_groups levels ++ [l ∖ ⋃ levels]
  end.
(** One more than the snapshots there are: a longer path repeats one. *)
Definition lineage_groups (c : catalog) (tip_id : string) : option (list (gset string)) :=
  anchor_groups <$> lineage_levels c (S (size (nodes c))) (tip_level c tip_id).

(** [get_active_parts] and [prune_parts_for_range]: [ORDER BY max_depth DESC, id ASC]. *)
Definition active_parts (c : catalog) (tip_id : string) (keep : part_row → bool) : option (list PartDescriptor) :=
  (λ groups, groups ≫= λ g, pt_part <$> filter (λ r, pt_snapshot r ∈ g ∧ keep r = true) (parts c))
  <$> lineage_groups c tip_id.
Definition get_active_parts (c : catalog) (tip_id : string) (relation_names : option (list string)) :
    option (list PartDescriptor) :=
  active_parts c tip_id (λ r,
    match relation_names with
    | None | Some [] => true
    | Some names => bool_decide (pt_relation r ∈ names)
    end).
Definition prune_parts_for_range (c : catalog) (tip_id relation_name min_key max_key : string) :
    option (list PartDescriptor) :=
  active_parts c tip_id (λ r,
    String.eqb (pt_relation r) relation_name
    && match key_min (pt_part r) with None => true | Some v => bool_decide (String.le v max_key) end
    && match key_max (pt_part r) with None => true | Some v => bool_decide (String.le min_key v) end).

Section walk.
Context (order_of : gset string → list string).

Definition walk_ids (c : catalog) (tip_id : string) : option (list string) :=
  (λ groups, groups ≫= order_of) <$> lineage_groups c tip_id.
Definition walk_lineage (c : catalog) (tip_id : string) : option (list DAGNodeManifest) :=
  match walk_ids c tip_id with
  | Some ids => Some (omap (M := list) (get_manifest c) ids)
  | None => None
  end.

(** ** [audit_graph] *)

(** The rows of [paths] for one root; IDs hold no '/'.  [seen] is the path so far. *)
Fixpoint parent_cycle (c : catalog) (fuel : nat) (seen : list string) (curr : string) : bool :=
  match fuel with
  | O => false
  | S fuel =>
      match nodes c !! curr ≫= nd_parent_id with
      | Some parent => if decide (curr ∈ seen) then true else parent_cycle c fuel (seen ++ [curr]) parent
      | None => false
      end
  end.
Definition audit_cycles (c : catalog) : list string :=
  (filter (λ n, match nd_parent_id n.2 with
                | Some parent => parent_cycle c (S (S (size (nodes c)))) [n.1] parent
                | None => false
                end = true) (map_to_list (nodes c))).*1.
Definition orphan_nodes (c : catalog) : list (string * option string) :=
  (λ n, (n.1, nd_parent_id n.2)) <$>
  filter (λ n, match nd_parent_id n.2 with Some p => negb (has_snapshot c p) | None => false end = true)
    (map_to_list (nodes c)).

(** ** [traversal.walk_lineage] *)

Record LineageChain := mkChain {
  tip_id : string;
  chain_anchor : string;
  chain_nodes : list DAGNodeManifest;
}.

Definition check_parent (c : catalog) (p : ParentRef) : result unit :=
  digest ← require (get_manifest_sha256 c (pr_snapshot_id p)) (BrokenLineageError "parent manifest missing");
  raise_if (negb (String.eqb (pr_manifest_sha256 p) "") && negb (String.eqb digest (pr_manifest_sha256 p)))
    DigestMismatchError.
Definition check_node (c : catalog) (m : DAGNodeManifest) : result unit :=
  if String.eqb (kind m) "checkpoint" then Ok ()
  else
    _ ← raise_if (bool_decide (parents m = [])) (BrokenLineageError "delta node has no parents");
    foldr_m (λ _ p, check_parent c p) () (parents m).

Definition checked_walk (c : catalog) (tip : string) : option (result LineageChain) :=
  if negb (bool_decide (audit_cycles c = [])) then Some (Err CycleDetectedError)
  else if negb (has_snapshot c tip) then Some (Err (BrokenLineageError "manifest missing"))
  else
    match walk_lineage c tip with
    | None => None
    | Some nodes => Some
      match nodes with
      | [] => Err (BrokenLineageError "lineage empty")
      | first :: _ =>
          _ ← foldr_m (λ _ m, check_node c m) () nodes;
          Ok (mkChain tip (snapshot_id first) nodes)
      end
    end.
End walk.

(** ** Lineages as paths *)

(** [y] is a parent of [x] that the query follows. *)
Definition follows (c : catalog) (x y : string) : Prop :=
  (∃ r, r ∈ node_parents c ∧ np_snapshot r = x ∧ np_parent r = y) ∧
  is_checkpoint c x = false ∧ is_Some (nodes c !! y).
Definition in_lineage (c : catalog) (tip x : string) : Prop :=
  is_Some (nodes c !! tip) ∧ rtc (follows c) tip x.

Lemma elem_of_next_level c level y : y ∈ next_level c level ↔ ∃ x, x ∈ level ∧ follows c x y.
Proof.
  unfold next_level, follows. rewrite elem_of_list_to_set, list_elem_of_fmap.
  setoid_rewrite list_elem_of_filter. split.
  - intros (r & -> & (Hl & Hc & Hp) & Hin). exists (np_snapshot r). eauto 10.
  - intros (x & Hx & (r & Hin & <- & <-) & Hc & Hp). exists r. done.
Qed.

Lemma lineage_levels_lookup c fuel level levels d x :
  lineage_levels c fuel level = Some levels →
  (∃ l, levels !! d = Some l ∧ x ∈ l) ↔ ∃ y, y ∈ level ∧ nsteps (follows c) d y x.
Proof.
  revert level levels d x. induction fuel as [|fuel IH]; intros level levels d x; simpl.
  { destruct (decide (level = ∅)) as [->|]; [|done]. intros [= <-]. split; [by intros (l & ? & _)|set_solver]. }
  destruct (decide (level = ∅)) as [->|Hne].
  { intros [= <-]. split; [by intros (l & ? & _)|set_solver]. }
  intros (rest & Hrest & ->)%fmap_Some. destruct d as [|d]; simpl.
  - split.
    + intros (l & [= <-] & Hx). exists x. split; [done|constructor].
    + intros (y & Hy & Hn). inversion Hn; subst. by exists level.
  - rewrite (IH _ _ d x Hrest). setoid_rewrite elem_of_next_level. split.
    + intros (y & (z & Hz & Hf) & Hn). exists z. split; [done|]. by eapply nsteps_l.
    + intros (z & Hz & Hn). inversion Hn as [|? ? y ? Hf Hn']; subst. exists y. eauto.
Qed.

Lemma elem_of_union_levels (levels : list (gset string)) x :
  x ∈ ⋃ levels ↔ ∃ d l, levels !! d = Some l ∧ x ∈ l.
Proof.
  rewrite elem_of_union_list. split.
  - intros (l & [d Hd]%list_elem_of_lookup & Hx). by exists d, l.
  - intros (d & l & Hd & Hx). exists l. split; [by eapply list_elem_of_lookup_2|done].
Qed.

Lemma in_lineage_levels c fuel tip levels x :
  lineage_levels c fuel (tip_level c tip) = Some levels → x ∈ ⋃ levels ↔ in_lineage c tip x.
Proof.
  intros Hl. rewrite elem_of_union_levels. unfold in_lineage, tip_level, has_snapshot in *. split.
  - intros (d & Hd). apply (lineage_levels_lookup _ _ _ _ _ _ Hl) in Hd as (y & Hy & Hn).
    case_bool_decide; [|set_solver]. apply elem_of_singleton in Hy as ->. split; [done|].
    apply rtc_nsteps. by exists d.
  - intros [Htip [d Hn]%rtc_nsteps]. exists d. apply (lineage_levels_lookup _ _ _ _ _ _ Hl).
    exists tip. split; [|done]. rewrite bool_decide_true by done. set_solver.
Qed.

(** ** Topological order *)

Lemma anchor_groups_union levels : ⋃ anchor_groups levels = ⋃ levels.
Proof.
  induction levels as [|l levels IH]; [done|]. simpl. rewrite union_list_app_L, IH. simpl.
  apply set_eq. intros x. destruct (decide (x ∈ ⋃ levels)); set_solver.
Qed.

Section order.
Context (order_of : gset string → list string).
Context (order_of_elements : ∀ X, order_of X ≡ₚ elements X).

Lemma elem_of_order_of x X : x ∈ order_of X ↔ x ∈ X.
Proof using order_of_elements. rewrite order_of_elements. apply elem_of_elements. Qed.

Lemma elem_of_ordered groups x : x ∈ groups ≫= order_of ↔ x ∈ ⋃ groups.
Proof using order_of_elements.
  rewrite list_elem_of_bind, elem_of_union_list. setoid_rewrite elem_of_order_of. naive_solver.
Qed.

Lemma anchor_groups_distinct levels : NoDup (anchor_groups levels ≫= order_of).
Proof using order_of_elements.
  induction levels as [|l levels IH]; simpl; [constructor|].
  rewrite bind_app. simpl. rewrite app_nil_r. apply NoDup_app. split_and!; [done| |].
  - intros x Hx%elem_of_ordered Hx'%elem_of_order_of. rewrite anchor_groups_union in Hx. set_solver.
  - rewrite order_of_elements. apply NoDup_elements.
Qed.

(** [x] comes before [y]. *)
Definition before (ids : list string) (x y : string) : Prop := ∃ l1 l2 l3, ids = l1 ++ x :: l2 ++ y :: l3.

Lemma before_app ids ids' x y : x ∈ ids → y ∈ ids' → before (ids ++ ids') x y.
Proof.
  intros (l1 & l2 & ->)%list_elem_of_split (l3 & l4 & ->)%list_elem_of_split.
  exists l1, (l2 ++ l3), l4. by rewrite <- !app_assoc.
Qed.
Lemma before_app_l ids ids' x y : before ids x y → before (ids ++ ids') x y.
Proof. intros (l1 & l2 & l3 & ->). exists l1, l2, (l3 ++ ids'). rewrite <- app_assoc. simpl. by rewrite <- app_assoc. Qed.

Lemma anchor_groups_before levels x y :
  (∀ d l, levels !! d = Some l → x ∈ l → ∃ l', levels !! S d = Some l' ∧ y ∈ l') →
  x ∈ ⋃ levels → before (anchor_groups levels ≫= order_of) y x.
Proof using order_of_elements.
  induction levels as [|l levels IH]; simpl; intros Hnext Hx; [set_solver|].
  rewrite bind_app. simpl. rewrite app_nil_r. destruct (decide (x ∈ ⋃ levels)) as [Hin|Hout].
  - apply before_app_l, IH; [|done]. intros d l' Hd Hx'. by apply (Hnext (S d) l').
  - destruct (Hnext 0 l eq_refl ltac:(set_solver)) as (l' & Hl' & Hy). simpl in Hl'.
    apply before_app; [|apply elem_of_order_of; set_solver].
    apply elem_of_ordered. rewrite anchor_groups_union, elem_of_union_levels. by exists 0, l'.
Qed.

(** What [walk_lineage] returns when the query ends. *)
Lemma walk_ids_spec c tip ids :
  walk_ids order_of c tip = Some ids →
  NoDup ids ∧ (∀ x, x ∈ ids ↔ in_lineage c tip x) ∧
  ∀ x y, x ∈ ids → follows c x y → before ids y x.
Proof using order_of_elements.
  unfold walk_ids, lineage_groups. intros (groups & Hg & ->)%fmap_Some.
  apply fmap_Some in Hg as (levels & Hl & ->).
  assert (Hin : ∀ x, x ∈ anchor_groups levels ≫= order_of ↔ in_lineage c tip x).
  { intros x. rewrite elem_of_ordered, anchor_groups_union. by eapply in_lineage_levels. }
  split_and!; [by apply anchor_groups_distinct|done|].
  intros x y Hx Hf. apply anchor_groups_before.
  - intros d l Hd Hxl. apply (lineage_levels_lookup _ _ _ _ _ _ Hl).
    destruct (proj1 (lineage_levels_lookup _ _ _ _ d x Hl)) as (z & Hz & Hn); [by exists l|].
    exists z. split; [done|]. by eapply nsteps_r.
  - apply elem_of_ordered in Hx. by rewrite anchor_groups_union in Hx.
Qed.
End order.
