(* ===== verification/SnapshotProperties.v ===== *)
(** * What the snapshot catalog guarantees

    Manifests read back as they were recorded; the lineage query ends exactly when the
    lineage has no cycle, which holds in every catalog whose snapshots are recorded after
    their parents; a lineage that [traversal.walk_lineage] accepts is complete; a publication
    is a compare-and-swap of its branch. *)
From S2P Require Import Prelude Serialization SnapshotCatalog SnapshotLineage.

(** ** Manifests *)

(** [m] as the tables hold it: a relation without parts has no row, and the keys of the
    JSON columns are sorted. *)
Definition stored (m : DAGNodeManifest) : DAGNodeManifest :=
  mkManifest (snapshot_id m) (kind m) (parents m) (checkpoint_anchor_id m) (lineage_depth m) (created_at m)
    (filter (λ r, r.2 ≠ []) (relations m)) (logical_fingerprint m)
    (obj_fields (sort_keys (JObj (schema_versions m)))) (obj_fields (sort_keys (JObj (metadata m)))).

Lemma get_manifest_with sha c m id :
  rows_owned c → nodes c !! snapshot_id m = None → NoDup (relations m).*1 →
  get_manifest (with_manifest sha c m) id =
  if decide (id = snapshot_id m) then Some (stored m) else get_manifest c id.
Proof.
  intros [Hp Ht] Hnew Hnd. unfold get_manifest, with_manifest. simpl. rewrite !filter_app. case_decide as Hid.
  - subst id. rewrite lookup_insert_eq. simpl.
    rewrite (list_filter_none _ (node_parents c)), (list_filter_none _ (parts c)).
    + rewrite !filter_all by eauto using parents_of_snapshot, parts_of_snapshot. simpl.
      rewrite parents_of_sorted, parents_of_refs.
      pose proof (add_relations (snapshot_id m) (relations m) [] Hnd) as Hrel.
      unfold add_row in Hrel. unfold parts_of. by rewrite Hrel.
    + intros r Hr E. apply Ht in Hr. rewrite E, Hnew in Hr. by destruct Hr.
    + intros r Hr E. apply Hp in Hr. rewrite E, Hnew in Hr. by destruct Hr.
  - rewrite lookup_insert_ne by done. rewrite (list_filter_none _ (parents_of m)), (list_filter_none _ (parts_of m)).
    + by rewrite !app_nil_r.
    + intros r Hr E. apply parts_of_snapshot in Hr. congruence.
    + intros r Hr E. apply parents_of_snapshot in Hr. congruence.
Qed.

(** A manifest recorded under a new snapshot ID reads back as it was, without its empty
    relations and with the keys of the JSON columns sorted, under the digest of its own
    canonical text, and every other manifest stays what it was. *)
Theorem recorded_manifest_reads_back sha c m c' :
  rows_owned c → nodes c !! snapshot_id m = None → NoDup (relations m).*1 →
  record_node sha c m = Ok c' →
  get_manifest c' (snapshot_id m) = Some (stored m) ∧
  get_manifest_sha256 c' (snapshot_id m) = Some (manifest_digest sha m) ∧
  ∀ id, id ≠ snapshot_id m → get_manifest c' id = get_manifest c id.
Proof.
  intros Hown Hnew Hnd Hrec. apply insert_manifest_Ok in Hrec as [[(row & Hrow & _) _]|[_ ->]]; [congruence|].
  split_and!.
  - rewrite get_manifest_with by done. by rewrite decide_True.
  - unfold get_manifest_sha256, with_manifest. simpl. by rewrite lookup_insert_eq.
  - intros id Hid. rewrite get_manifest_with by done. by rewrite decide_False.
Qed.

Definition demo_part (p : string) : PartDescriptor := mkPart p "h" 3 40 (Some "a") None.
Definition demo_manifest (id : string) (parents : list string) : DAGNodeManifest :=
  mkManifest id (if decide (parents = []) then "checkpoint" else "delta")
    ((λ p, mkParentRef p "") <$> parents) "base" (Z.of_nat (length parents)) "2026-01-01"
    [("rows", [demo_part (id +:+ "/0"); demo_part (id +:+ "/1")]); ("none", [])] ""
    [] [("b", JInt 1); ("a", JInt 2)].
Definition demo_record (c : result catalog) (m : DAGNodeManifest) : result catalog :=
  c ← c; record_node (λ s, s) c m.
Definition demo_catalog : result catalog := demo_record (Ok empty_catalog) (demo_manifest "base" []).

Lemma recorded_manifest_reads_back_witness : ∃ c,
  record_node (λ s, s) empty_catalog (demo_manifest "base" []) = Ok c ∧
  get_manifest c "base" = Some (stored (demo_manifest "base" [])).
Proof.
  eexists. split; [vm_compute; reflexivity|].
  eapply (recorded_manifest_reads_back (λ s, s) empty_catalog (demo_manifest "base" []));
    [exact rows_owned_empty|reflexivity|apply (bool_decide_unpack _); vm_compute; exact I|vm_compute; reflexivity].
Defined.

(** ** The lineage query ends *)

Section acyclic.
Context {A : Type} (R : relation A).

(** Without cycles a path visits as many elements as it has steps. *)
Lemma acyclic_path_length `{Countable A} n x y :
  nsteps R n x y → (∀ z, rtc R x z → ¬ tc R z z) →
  ∃ X : gset A, size X = S n ∧ ∀ z, z ∈ X → rtc R x z.
Proof.
  induction 1 as [x|n x z y Hxz Hn IH]; intros Hac.
  - exists {[x]}. split; [apply size_singleton|]. intros z ->%elem_of_singleton. done.
  - destruct IH as (X & Hsize & HX). { intros w Hw. apply Hac. by eapply rtc_l. }
    exists ({[x]} ∪ X). split.
    + rewrite size_union, size_singleton, Hsize; [done|]. apply disjoint_singleton_l. intros Hx.
      apply (Hac x); [done|]. eapply tc_rtc_r; [by apply tc_once|by apply HX].
    + intros w [->%elem_of_singleton|Hw]%elem_of_union; [done|]. eapply rtc_l; [done|by apply HX].
Qed.
End acyclic.

Lemma lineage_levels_None c fuel level :
  lineage_levels c fuel level = None → ∃ x y, x ∈ level ∧ nsteps (follows c) fuel x y.
Proof.
  revert level. induction fuel as [|fuel IH]; intros level; simpl; case_decide as Hl; try done.
  - apply set_choose_L in Hl as [x Hx]. intros _. exists x, x. split; [done|constructor].
  - intros H%fmap_None. apply IH in H as (y & z & (x & Hx & Hxy)%elem_of_next_level & Hn).
    exists x, z. split; [done|]. by eapply nsteps_l.
Qed.

Lemma follows_nodes c tip x :
  is_Some (nodes c !! tip) → rtc (follows c) tip x → is_Some (nodes c !! x).
Proof. intros Htip H. induction H as [|x y z (_ & _ & Hy) _ IH]; auto. Qed.
Lemma elem_of_tip_level c tip x : x ∈ tip_level c tip → x = tip ∧ is_Some (nodes c !! tip).
Proof. unfold tip_level, has_snapshot. case_bool_decide; set_solver. Qed.

Lemma lineage_groups_ends c tip :
  is_Some (lineage_groups c tip) ↔ ∀ x, in_lineage c tip x → ¬ tc (follows c) x x.
Proof.
  unfold lineage_groups. rewrite fmap_is_Some. split.
  - intros [levels Hl] x [Htip [d Hd]%rtc_nsteps] (k & Hk & Hx)%tc_nsteps.
    assert (Hlong : ∀ i, nsteps (follows c) (d + i * k) tip x).
    { intros i. eapply nsteps_trans; [done|]. induction i as [|i IH]; simpl; [constructor|by eapply nsteps_trans]. }
    destruct (proj2 (lineage_levels_lookup c _ _ levels (d + length levels * k) x Hl)) as (l & Hlen%lookup_lt_Some & _).
    { exists tip. split; [|apply Hlong]. unfold tip_level, has_snapshot. rewrite bool_decide_true by done. set_solver. }
    nia.
  - intros Hac. destruct (lineage_levels _ _ _) eqn:Hl; [by eexists|exfalso].
    apply lineage_levels_None in Hl as (x & y & [-> Htip]%elem_of_tip_level & Hn).
    apply (acyclic_path_length (follows c)) in Hn as (X & Hsize & HX); [|intros z Hz; by apply Hac].
    assert (X ⊆ dom (nodes c)) as Hsub.
    { intros z Hz. apply elem_of_dom. eapply follows_nodes; [done|by apply HX]. }
    apply subseteq_size in Hsub. rewrite size_dom in Hsub. lia.
Qed.

(** The lineage query of a tip ends exactly when no snapshot of the tip's lineage is its
    own ancestor; the number of snapshots bounds its depth. *)
Theorem lineage_query_ends_iff order_of c tip :
  is_Some (walk_ids order_of c tip) ↔ ∀ x, in_lineage c tip x → ¬ tc (follows c) x x.
Proof. unfold walk_ids. rewrite fmap_is_Some. apply lineage_groups_ends. Qed.

(** ** Catalogs whose snapshots are recorded after their parents *)

(** No row names [m] as a parent yet, and [m] is not its own. *)
Definition parents_first (c : catalog) (m : DAGNodeManifest) : Prop :=
  nodes c !! snapshot_id m = None →
  (∀ r, r ∈ node_parents c → np_parent r ≠ snapshot_id m) ∧
  (∀ p, p ∈ parents m → pr_snapshot_id p ≠ snapshot_id m).

Inductive catalog_step (sha : string → string) : catalog → catalog → Prop :=
  | step_record c m c' : parents_first c m → record_node sha c m = Ok c' → catalog_step sha c c'
  | step_publish c m branch_name now_iso c' :
      parents_first c m → publish_in_catalog sha c m branch_name now_iso = Ok c' → catalog_step sha c c'
  | step_delete_node c id : catalog_step sha c (delete_node c id)
  | step_branch c branch_name id now_iso : catalog_step sha c (write_pointer c branch_name id now_iso)
  | step_delete_branch c branch_name c' b : delete_branch c branch_name = Ok (c', b) → catalog_step sha c c'
  | step_create_tag c name id message now_iso c' :
      create_tag c name id message now_iso = Ok c' → catalog_step sha c c'
  | step_delete_tag c name : catalog_step sha c (delete_tag c name).1.

(** Parents rank below their children. *)
Definition ranked (c : catalog) : Prop :=
  ∃ rank : string → nat, ∀ r, r ∈ node_parents c → rank (np_parent r) < rank (np_snapshot r).
Definition well_formed (c : catalog) : Prop := rows_owned c ∧ ranked c.

Lemma list_bound {A} (f : A → nat) (l : list A) : ∃ n, ∀ x, x ∈ l → f x < n.
Proof.
  exists (S (max_list (f <$> l))). intros x Hx. apply Nat.lt_succ_r.
  by apply max_list_elem_of_le, list_elem_of_fmap_2.
Qed.

Lemma ranked_insert sha c m c' :
  well_formed c → parents_first c m → _insert_manifest sha c m = Ok c' → well_formed c'.
Proof.
  intros [Hown [rank Hrank]] Hfirst Hins. split; [by eapply rows_owned_insert|].
  apply insert_manifest_Ok in Hins as [[_ ->]|[Hnew ->]]; [by exists rank|].
  destruct (Hfirst Hnew) as [Hrows Hself].
  destruct (list_bound (λ p, rank (pr_snapshot_id p)) (parents m)) as [n Hn].
  exists (λ x, if decide (x = snapshot_id m) then n else rank x).
  intros r [Hr|Hr]%elem_of_app.
  - rewrite !decide_False; [by apply Hrank| |by apply Hrows].
    intros E. apply (proj1 Hown) in Hr. rewrite E, Hnew in Hr. by destruct Hr.
  - apply elem_of_parents_of in Hr as (i & p & Hp%list_elem_of_lookup_2 & ->). simpl.
    rewrite decide_False, decide_True by (done || by apply Hself). by apply Hn.
Qed.

Lemma well_formed_step sha c c' : well_formed c → catalog_step sha c c' → well_formed c'.
Proof.
  intros Hwf. destruct 1 as [c m c' Hf Hr|c m b t c' Hf Hr|c id|c b id t|c b c' r Hr|c n id msg t c' Hr|c n].
  - by eapply ranked_insert.
  - unfold publish_in_catalog in Hr. inv_ok. by eapply (ranked_insert _ _ _ x).
  - destruct Hwf as [Hown [rank Hrank]]. split; [by apply rows_owned_delete|]. exists rank.
    intros r [_ Hr]%list_elem_of_filter. by apply Hrank.
  - exact Hwf.
  - unfold delete_branch in Hr. inv_ok. exact Hwf.
  - unfold create_tag in Hr. inv_ok. exact Hwf.
  - exact Hwf.
Qed.

Lemma ranked_acyclic c x : ranked c → ¬ tc (follows c) x x.
Proof.
  intros [rank Hrank] Hx. assert (∀ a b, tc (follows c) a b → rank b < rank a) as Hlt.
  { induction 1 as [a b ((r & Hr & <- & <-) & _)|a b d ((r & Hr & <- & <-) & _) _ IH]; [by apply Hrank|].
    etrans; [exact IH|by apply Hrank]. }
  apply Hlt in Hx. lia.
Qed.

Lemma reachable_well_formed sha c : rtc (catalog_step sha) empty_catalog c → well_formed c.
Proof.
  intros H. assert (well_formed empty_catalog) as H0.
  { split; [apply rows_owned_empty|]. exists (λ _, 0). intros r Hr. inversion Hr. }
  revert H0. generalize empty_catalog as c0, H. induction 1; eauto using well_formed_step.
Qed.

(** C17: in every catalog built by recording and publishing snapshots after their parents,
    by deletions and by branch and tag operations, [walk_lineage] returns for every tip: the
    whole lineage, each snapshot once and after all its parents. *)
Theorem recorded_lineage_walks sha order_of c tip :
  (∀ X, order_of X ≡ₚ elements X) → rtc (catalog_step sha) empty_catalog c →
  ∃ ids, walk_ids order_of c tip = Some ids ∧ NoDup ids ∧ (∀ x, x ∈ ids ↔ in_lineage c tip x) ∧
    ∀ x y, x ∈ ids → follows c x y → before ids y x.
Proof.
  intros Horder [_ Hranked]%reachable_well_formed.
  assert (is_Some (walk_ids order_of c tip)) as [ids Hids].
  { unfold walk_ids. apply fmap_is_Some, lineage_groups_ends. intros x _. by apply ranked_acyclic. }
  exists ids. split; [done|]. by apply (walk_ids_spec order_of).
Qed.

Lemma demo_record_Ok c m c' : demo_record c m = Ok c' → ∃ c0, c = Ok c0 ∧ record_node (λ s, s) c0 m = Ok c'.
Proof. unfold demo_record. intros. inv_ok. eauto. Qed.
Lemma parents_first_dec c m :
  bool_decide (Forall (λ r, np_parent r ≠ snapshot_id m) (node_parents c) ∧
               Forall (λ p, pr_snapshot_id p ≠ snapshot_id m) (parents m)) = true → parents_first c m.
Proof. intros [H1 H2]%bool_decide_eq_true_1 _. by split; apply Forall_forall. Qed.

Definition demo_chain : result catalog :=
  demo_record (demo_record demo_catalog (demo_manifest "a" ["base"])) (demo_manifest "b" ["a"; "base"]).

Lemma demo_chain_reachable c : demo_chain = Ok c → rtc (catalog_step (λ s, s)) empty_catalog c.
Proof.
  unfold demo_chain, demo_catalog. intros Hc. apply demo_record_Ok in Hc as (c2 & Hc2 & H3). apply demo_record_Ok in Hc2 as (c1 & Hc1 & H2).
  apply demo_record_Ok in Hc1 as (c0 & Hc0 & H1). injection Hc0 as <-.
  vm_compute in H1. injection H1 as <-. vm_compute in H2. injection H2 as <-. vm_compute in H3. injection H3 as <-.
  eapply rtc_l; [apply (step_record _ _ (demo_manifest "base" [])); [apply parents_first_dec|]; vm_compute; reflexivity|].
  eapply rtc_l; [apply (step_record _ _ (demo_manifest "a" ["base"])); [apply parents_first_dec|]; vm_compute; reflexivity|].
  eapply rtc_l; [apply (step_record _ _ (demo_manifest "b" ["a"; "base"])); [apply parents_first_dec|]; vm_compute; reflexivity|].
  apply rtc_refl.
Qed.
Lemma recorded_lineage_walks_witness : ∃ c ids,
  demo_chain = Ok c ∧ walk_ids elements c "b" = Some ids ∧ NoDup ids.
Proof.
  destruct demo_chain as [c|] eqn:Hc; [|vm_compute in Hc; discriminate Hc].
  destruct (recorded_lineage_walks (λ s, s) elements c "b") as (ids & H1 & H2 & _);
    [intros X; reflexivity|exact (demo_chain_reachable c Hc)|].
  exists c, ids. split_and!; [reflexivity|exact H1|exact H2].
Defined.

(** ** A cycle that the audit does not see *)

Definition looping (sha : string → string) : result catalog :=
  foldr_m (record_node sha) empty_catalog
    [demo_manifest "base" []; demo_manifest "a" ["base"; "b"]; demo_manifest "b" ["base"; "a"]].

Lemma lineage_levels_alternate c a b :
  next_level c a = b → next_level c b = a → a ≠ ∅ → b ≠ ∅ →
  ∀ fuel, lineage_levels c fuel a = None ∧ lineage_levels c fuel b = None.
Proof.
  intros Hab Hba Ha Hb. induction fuel as [|fuel [IH1 IH2]]; simpl;
    rewrite !decide_False by done; [done|]. by rewrite Hab, Hba, IH1, IH2.
Qed.

Lemma set_of_ne (x y : string) : ({[x; y]} : gset string) ≠ ∅.
Proof. set_solver. Qed.

(** A cycle through second parents passes the audit, which follows [parent_id], the first
    parent: it reports no cycle and no orphan, and then the lineage query never ends. *)
Theorem audit_misses_second_parent sha : ∃ c,
  looping sha = Ok c ∧ audit_cycles c = [] ∧ orphan_nodes c = [] ∧
  (∀ fuel, lineage_levels c fuel (tip_level c "a") = None) ∧
  ∀ order_of, checked_walk order_of c "a" = None.
Proof.
  eexists. split; [vm_compute; reflexivity|]. match goal with |- context [audit_cycles ?k] => set (c := k) end.
  assert (audit_cycles c = []) as Haudit by (vm_compute; reflexivity).
  assert (orphan_nodes c = []) as Horphans by (vm_compute; reflexivity).
  assert (next_level c {["base"; "a"]} = {["base"; "b"]}) as Ha by (vm_compute; reflexivity).
  assert (next_level c {["base"; "b"]} = {["base"; "a"]}) as Hb by (vm_compute; reflexivity).
  assert (has_snapshot c "a" = true) as Htip by (vm_compute; reflexivity).
  assert (next_level c {["a"]} = {["base"; "b"]}) as Hc by (vm_compute; reflexivity).
  clearbody c. destruct_and?.
  assert (∀ fuel, lineage_levels c fuel (tip_level c "a") = None) as Hnone.
  { unfold tip_level. rewrite Htip. intros [|fuel]; simpl; rewrite decide_False by set_solver; [done|].
    rewrite Hc, (proj2 (lineage_levels_alternate c _ _ Ha Hb (set_of_ne _ _) (set_of_ne _ _) fuel)). done. }
  split_and!; [done..|]. intros order_of. unfold checked_walk. rewrite Haudit, Htip. simpl.
  unfold walk_lineage, walk_ids, lineage_groups. by rewrite Hnone.
Qed.

(** ** An accepted lineage is complete *)

Lemma get_manifest_Some c id m :
  get_manifest c id = Some m → snapshot_id m = id ∧ (∃ row, nodes c !! id = Some row ∧ kind m = nd_kind row) ∧
  ∀ p, p ∈ parents m ↔ ∃ r, r ∈ node_parents c ∧ np_snapshot r = id ∧ p = mkParentRef (np_parent r) (np_sha256 r).
Proof.
  unfold get_manifest. destruct (nodes c !! id) as [row|] eqn:Hrow; [|done]. simpl. intros [= <-]. simpl.
  split_and!; [done|eauto|]. intros p. rewrite list_elem_of_fmap. setoid_rewrite merge_sort_Permutation.
  setoid_rewrite list_elem_of_filter. naive_solver.
Qed.
Lemma get_manifest_is_Some c id : is_Some (nodes c !! id) → is_Some (get_manifest c id).
Proof. intros [row Hrow]. unfold get_manifest. rewrite Hrow. by eexists. Qed.

Lemma manifests_of_ids c ids :
  (∀ id, id ∈ ids → is_Some (nodes c !! id)) → snapshot_id <$> omap (M := list) (get_manifest c) ids = ids.
Proof.
  induction ids as [|id ids IH]; simpl; intros Hin; [done|].
  destruct (get_manifest_is_Some c id (Hin id ltac:(by left))) as [m Hm]. rewrite Hm. csimpl.
  rewrite IH by (intros ? ?; apply Hin; by right). f_equal. by apply get_manifest_Some in Hm as [-> _].
Qed.

Lemma check_node_Ok c m :
  check_node c m = Ok () → kind m ≠ "checkpoint" →
  parents m ≠ [] ∧ ∀ p, p ∈ parents m → ∃ digest, get_manifest_sha256 c (pr_snapshot_id p) = Some digest ∧
    (pr_manifest_sha256 p = "" ∨ pr_manifest_sha256 p = digest).
Proof.
  unfold check_node. intros H Hk. rewrite (proj2 (String.eqb_neq _ _) Hk) in H. inv_ok. split.
  { intros E. by rewrite bool_decide_true in H. }
  clear H Hk. revert H0. generalize (parents m) as ps. induction ps as [|q ps IH]; simpl; intros H p Hp.
  { inversion Hp. }
  apply bind_Ok in H as ([] & Hq & Hps). apply elem_of_cons in Hp as [->|Hp]; [|exact (IH Hps p Hp)].
  unfold check_parent in Hq. apply bind_Ok in Hq as (digest & Hd%require_Ok & Hq%raise_if_Ok).
  exists digest. split; [done|]. apply andb_false_iff in Hq as [Hq|Hq]; apply negb_false_iff, String.eqb_eq in Hq; auto.
Qed.

Lemma foldr_m_check {A} (f : A → result unit) l : foldr_m (λ _, f) () l = Ok () → ∀ x, x ∈ l → f x = Ok ().
Proof.
  induction l as [|y l IH]; simpl; intros H x Hx; [inversion Hx|].
  apply bind_Ok in H as ([] & Hy & Hl). apply elem_of_cons in Hx as [->|Hx]; auto.
Qed.
Lemma checkpoint_kind c id m : get_manifest c id = Some m → is_checkpoint c id = String.eqb (kind m) "checkpoint".
Proof. intros (_ & (row & Hrow & ->) & _)%get_manifest_Some. unfold is_checkpoint. by rewrite Hrow. Qed.
Lemma follows_parent c id m p :
  get_manifest c id = Some m → kind m ≠ "checkpoint" → p ∈ parents m →
  is_Some (get_manifest_sha256 c (pr_snapshot_id p)) → follows c id (pr_snapshot_id p).
Proof.
  intros Hm Hk Hp Hin. pose proof (checkpoint_kind _ _ _ Hm) as Hc.
  apply get_manifest_Some in Hm as (_ & _ & Hps). apply Hps in Hp as (r & Hr & Hid & ->). split_and!.
  - by exists r.
  - rewrite Hc. by apply String.eqb_neq.
  - by apply fmap_is_Some in Hin.
Qed.

Definition node_ids (chain : LineageChain) : list string := snapshot_id <$> chain_nodes chain.

Lemma checked_walk_Ok order_of c tip chain :
  checked_walk order_of c tip = Some (Ok chain) →
  ∃ ids first rest, walk_ids order_of c tip = Some ids ∧ has_snapshot c tip = true ∧
    chain_nodes chain = omap (M := list) (get_manifest c) ids ∧ chain_nodes chain = first :: rest ∧
    chain_anchor chain = snapshot_id first ∧ (∀ m, m ∈ chain_nodes chain → check_node c m = Ok ()).
Proof.
  unfold checked_walk, walk_lineage. destruct (negb (bool_decide _)); [done|].
  destruct (has_snapshot c tip) eqn:Htip; [simpl|done]. destruct (walk_ids _ _ _) as [ids|] eqn:Hids; [|done].
  destruct (omap _ ids) as [|first rest] eqn:Hms; [done|]. intros H. injection H as H.
  apply bind_Ok in H as ([] & Hcheck & H). injection H as <-. simpl.
  exists ids, first, rest. split_and!; [done..|]. by apply (foldr_m_check (check_node c)).
Qed.

(** C14: a lineage that [traversal.walk_lineage] accepts is complete: it holds the tip and each
    snapshot once; every delta in it has parents, and every parent is in it, earlier, with
    the digest the delta pins; it starts with a checkpoint. *)
Theorem accepted_lineage_complete order_of c tip chain :
  (∀ X, order_of X ≡ₚ elements X) → checked_walk order_of c tip = Some (Ok chain) →
  tip ∈ node_ids chain ∧ NoDup (node_ids chain) ∧ is_checkpoint c (chain_anchor chain) = true ∧
  ∀ m, m ∈ chain_nodes chain → kind m ≠ "checkpoint" → parents m ≠ [] ∧ ∀ p, p ∈ parents m →
    before (node_ids chain) (pr_snapshot_id p) (snapshot_id m) ∧
    (pr_manifest_sha256 p ≠ "" → get_manifest_sha256 c (pr_snapshot_id p) = Some (pr_manifest_sha256 p)).
Proof.
  intros Horder H. apply checked_walk_Ok in H as (ids & first & rest & Hids & Htip & Hms & Hcons & Hanchor & Hcheck).
  destruct (walk_ids_spec order_of Horder _ _ _ Hids) as (Hnd & Hin & Hbefore).
  assert (node_ids chain = ids) as Hnode.
  { unfold node_ids. rewrite Hms. apply manifests_of_ids. intros id [Hn Hr]%Hin. by eapply follows_nodes. }
  assert (∀ m, m ∈ chain_nodes chain → get_manifest c (snapshot_id m) = Some m ∧ snapshot_id m ∈ ids) as Hget.
  { intros m Hm. rewrite Hms in Hm. apply list_elem_of_omap in Hm as (id & Hid & Hm).
    pose proof (proj1 (get_manifest_Some _ _ _ Hm)) as ->. done. }
  assert (∀ m p, m ∈ chain_nodes chain → kind m ≠ "checkpoint" → p ∈ parents m →
    before ids (pr_snapshot_id p) (snapshot_id m)) as Hpar.
  { intros m p Hm Hk Hp. destruct (Hget m Hm) as [Hm' Hid].
    destruct (check_node_Ok _ _ (Hcheck m Hm) Hk) as [_ Hall]. destruct (Hall p Hp) as (d & Hd & _).
    apply Hbefore; [done|]. by eapply follows_parent. }
  rewrite Hnode. split_and!; [|done| |].
  - apply Hin. split; [|done]. by apply bool_decide_eq_true_1 in Htip.
  - assert (first ∈ chain_nodes chain) as Hfirst by (rewrite Hcons; left).
    rewrite Hanchor, (checkpoint_kind _ _ _ (proj1 (Hget _ Hfirst))).
    destruct (String.eqb_spec (kind first) "checkpoint") as [|Hk]; [done|exfalso].
    destruct (check_node_Ok _ _ (Hcheck _ Hfirst) Hk) as [Hne _].
    destruct (parents first) as [|p ps] eqn:Hps; [done|].
    destruct (Hpar first p Hfirst Hk) as (l1 & l2 & l3 & Hl); [rewrite Hps; left|].
    rewrite <- Hnode in Hl, Hnd. unfold node_ids in Hl, Hnd. rewrite Hcons in Hl, Hnd. simpl in Hl, Hnd.
    destruct l1 as [|x l1]; simpl in Hl; injection Hl as Hx Hl.
    + rewrite Hl, Hx in Hnd. apply NoDup_cons in Hnd as [Hnd _]. apply Hnd. set_solver.
    + apply NoDup_cons in Hnd as [Hnd _]. apply Hnd. rewrite Hl. set_solver.
  - intros m Hm Hk. destruct (check_node_Ok _ _ (Hcheck m Hm) Hk) as [Hne Hall]. split; [done|].
    intros p Hp. split; [by apply Hpar|]. destruct (Hall p Hp) as (d & -> & [E|E]); [done|by rewrite E].
Qed.

Lemma accepted_lineage_complete_witness : ∃ c chain,
  demo_chain = Ok c ∧ checked_walk elements c "b" = Some (Ok chain) ∧ node_ids chain = ["base"; "a"; "b"] ∧
  is_checkpoint c (chain_anchor chain) = true.
Proof.
  eexists _, _. split; [vm_compute; reflexivity|]. split; [vm_compute; reflexivity|]. split; [reflexivity|].
  eapply (accepted_lineage_complete elements _ "b"); [intros X; reflexivity|vm_compute; reflexivity].
Defined.

(** ** Publications of a branch are a line *)

Record publication := mkPublication {
  pb_manifest : DAGNodeManifest;
  pb_staged : bool;
  pb_expected : option string;
  pb_branch : string;
  pb_now : string;
}.

Section publications.
Context (sha : string → string).

Definition publish (s : gset string * catalog) (p : publication) : gset string * catalog * result unit :=
  publish_node sha s.1 s.2 (pb_manifest p) (pb_staged p) (pb_expected p) (pb_branch p) (pb_now p).
(** Publishers take turns under the lock, in any order: the final state, and the
    publications of [branch_name] that succeeded. *)
Fixpoint publish_all (branch_name : string) (s : gset string * catalog) (l : list publication) :
    gset string * catalog * list publication :=
  match l with
  | [] => (s, [])
  | p :: l =>
      let '(s', r) := publish s p in
      let '(s', log) := publish_all branch_name s' l in
      (s', if is_ok r && String.eqb (pb_branch p) branch_name then p :: log else log)
  end.

(** Each moves the branch from where the one before it left it. *)
Fixpoint linear (tip : option string) (log : list publication) : Prop :=
  match log with
  | [] => True
  | p :: log => pb_expected p = tip ∧ linear (Some (snapshot_id (pb_manifest p))) log
  end.
Definition tip_after (tip : option string) (log : list publication) : option string :=
  match last log with Some p => Some (snapshot_id (pb_manifest p)) | None => tip end.

Lemma publish_Ok s p s' :
  publish s p = (s', Ok ()) →
  read_pointer s.2 (pb_branch p) = pb_expected p ∧
  read_pointer s'.2 (pb_branch p) = Some (snapshot_id (pb_manifest p)) ∧
  (∀ b, b ≠ pb_branch p → read_pointer s'.2 b = read_pointer s.2 b) ∧
  has_snapshot s'.2 (snapshot_id (pb_manifest p)) = true ∧
  (∀ id row, nodes s.2 !! id = Some row → nodes s'.2 !! id = Some row).
Proof.
  unfold publish, publish_node. case_bool_decide as Htip; simpl; [|done].
  destruct (publish_in_catalog _ _ _ _ _) as [c'|] eqn:Hp; [|done]. intros [= <-]. simpl.
  unfold publish_in_catalog in Hp. apply bind_Ok in Hp as (c1 & H1 & [= <-]).
  unfold read_pointer, set_branch, has_snapshot. simpl. split_and!; [done|by rewrite lookup_insert_eq| | |].
  - intros b Hb. rewrite lookup_insert_ne by done. by apply insert_manifest_Ok in H1 as [[_ ->]|[_ ->]].
  - apply bool_decide_eq_true. apply insert_manifest_Ok in H1 as [[(row & Hrow & _) ->]|[_ ->]]; simpl.
    + by exists row.
    + rewrite lookup_insert_eq. by eexists.
  - intros id row Hrow. apply insert_manifest_Ok in H1 as [[_ ->]|[Hnew ->]]; simpl; [done|].
    rewrite lookup_insert_ne; [done|congruence].
Qed.
Lemma publish_Err s p s' e : publish s p = (s', Err e) → s'.2 = s.2.
Proof.
  unfold publish, publish_node. case_bool_decide; simpl; [|by intros [= <- _]].
  destruct (publish_in_catalog _ _ _ _ _); by intros [= <- _].
Qed.
End publications.

(** C15: whatever the order in which publishers reach the lock and whatever they expect, the
    publications of a branch that succeed form one line, each moving the branch from the
    snapshot the one before it published (a publisher that saw an older tip fails); the
    branch ends at the last of them, and no recorded snapshot changes. *)
Theorem publications_form_a_line sha branch_name s l s' log :
  publish_all sha branch_name s l = (s', log) →
  linear (read_pointer s.2 branch_name) log ∧
  read_pointer s'.2 branch_name = tip_after (read_pointer s.2 branch_name) log ∧
  ∀ id row, nodes s.2 !! id = Some row → nodes s'.2 !! id = Some row.
Proof.
  revert s s' log. induction l as [|p l IH]; simpl; intros s s' log H; [by injection H as <- <-|].
  destruct (publish sha s p) as [s1 r] eqn:Hp. destruct (publish_all sha branch_name s1 l) as [s2 log2] eqn:Hl.
  injection H as <- <-. destruct (IH _ _ _ Hl) as (Hlin & Hptr & Hnodes). destruct r as [[]|e].
  - apply publish_Ok in Hp as (He & Hnew & Hother & _ & Hkeep). simpl.
    destruct (String.eqb_spec (pb_branch p) branch_name) as [<-|Hne].
    + rewrite Hnew in Hlin, Hptr. split_and!; [done| |by auto]. rewrite Hptr. unfold tip_after.
      destruct log2 as [|q log2]; [done|]. rewrite (last_cons p).
      destruct (last (q :: log2)) eqn:Hq; [done|by apply last_None in Hq].
    + rewrite Hother in Hlin, Hptr by done. auto.
  - apply publish_Err in Hp. rewrite Hp in Hlin, Hptr, Hnodes. done.
Qed.

Definition demo_publications : list publication :=
  [mkPublication (demo_manifest "base" []) true None "main" "t0";
   mkPublication (demo_manifest "a" ["base"]) true (Some "base") "main" "t1";
   mkPublication (demo_manifest "b" ["base"]) true (Some "base") "main" "t2";
   mkPublication (demo_manifest "b" ["base"]) true (Some "a") "main" "t3"].
Lemma publications_form_a_line_witness : ∃ s log,
  publish_all (λ s, s) "main" (∅, empty_catalog) demo_publications = (s, log) ∧
  pb_now <$> log = ["t0"; "t1"; "t3"] ∧ linear None log.
Proof.
  eexists _, _. split; [vm_compute; reflexivity|]. split; [reflexivity|].
  eapply (publications_form_a_line (λ s, s) "main" (∅, empty_catalog) demo_publications). vm_compute. reflexivity.
Defined.
