(* ===== verification/Retention.v ===== *)
(** * Retention of snapshots: [infra/storage/dag/retention.py]

    Branch heads, tags and the caller's pins are the roots; what their lineages need is
    retained, and the rest is purged: the rows of the catalog and the directories under the
    snapshot root, except directories that hold parts of a snapshot that stays.

    A path is the list of its components from the file system's root.  Snapshot IDs are
    single components, and only a child of the snapshot root can be a symbolic link.  The
    report's count of bytes is left out. *)
From Stdlib Require Import Ascii.
From S2P Require Import Prelude Serialization PyJson Partitions SnapshotCatalog SnapshotLineage SnapshotProperties.

(** ** The disk *)

Inductive entry := Directory | LinkToDirectory | OtherEntry.
Record disk := mkDisk {
  children : gmap string entry;          (* of the snapshot root *)
  files : gset (list string);            (* regular files, by their resolved paths *)
}.

Definition slash : Ascii.ascii := Ascii.ascii_of_nat 47.
Definition components (s : string) : list string :=
  filter (λ x, x ≠ "" ∧ x ≠ ".") (split_on slash s).
(** [Path.resolve] *)
Definition resolve (l : list string) : list string :=
  foldl (λ acc x, if String.eqb x ".." then removelast acc else acc ++ [x]) [] l.
Definition is_absolute (s : string) : bool :=
  match s with String c _ => bool_decide (c = slash) | EmptyString => false end.

Section retention.
Context (order_of : gset string → list string) (root : list string).

Definition is_file (d : disk) (l : list string) : bool := bool_decide (resolve l ∈ files d).
Definition _resolve_part_path (d : disk) (id part_path : string) : list string :=
  let part := components part_path in
  if is_absolute part_path then resolve part
  else if is_file d (root ++ [id] ++ part) then resolve (root ++ [id] ++ part)
  else if is_file d (root ++ part) then resolve (root ++ part)
  else resolve (root ++ [id] ++ part).

Definition exists_child (d : disk) (id : string) : bool := bool_decide (is_Some (children d !! id)).
(** A directory of its own, not a link. *)
Definition _is_owned_snapshot_dir (d : disk) (id : string) : option (list string) :=
  match children d !! id with Some Directory => Some (root ++ [id]) | _ => None end.
(** [path.is_relative_to(target)] *)
Definition under (target path : list string) : bool := bool_decide (target `prefix_of` path).

(** ** Analysis *)

Definition discover_roots (c : catalog) (extra_pinned_ids : gset string) : gset string :=
  list_to_set ((λ b, b.2.1) <$> map_to_list (branches c))
  ∪ list_to_set ((λ t, tg_snapshot t.2) <$> map_to_list (tags c)) ∪ extra_pinned_ids.

Definition base_pin (m : DAGNodeManifest) : list string :=
  match assoc "base_snapshot_id" (metadata m) with
  | Some v => if json_truthy v then [str_of_json v] else []
  | None => []
  end.
(** What the loop body adds to [retained] for one manifest. *)
Definition retained_by (m : DAGNodeManifest) : list string :=
  snapshot_id m :: (if String.eqb (checkpoint_anchor_id m) "" then [] else [checkpoint_anchor_id m]) ++ base_pin m.

Record RetentionReport := mkReport {
  root_snapshots : gset string;
  retained_snapshots : gset string;
  prunable_snapshots : gset string;
}.

Definition is_dir (e : entry) : bool := match e with Directory | LinkToDirectory => true | OtherEntry => false end.
Definition starts_with_dot (name : string) : bool :=
  match name with String c _ => bool_decide (c = "."%char) | EmptyString => false end.
Definition collectable (retained : gset string) (child : string * entry) : bool :=
  is_dir child.2 && negb (starts_with_dot child.1)
  && negb (bool_decide (child.1 ∈ ["parts"; "branches"; "current"])) && negb (bool_decide (child.1 ∈ retained)).

(** [None] is a lineage query that does not end. *)
Definition analyze_retention (c : catalog) (d : disk) (extra_pinned_ids : gset string) (min_age_seconds : Z) :
    option (result RetentionReport) :=
  if (min_age_seconds <? 0)%Z then Some (Err (ValueError "min_age_seconds cannot be negative"))
  else if negb (min_age_seconds =? 0)%Z then Some (Err (ValueError "minimum-age retention is not defined"))
  else
    let roots := discover_roots c extra_pinned_ids in
    lineages ← mapM (walk_lineage order_of c) (elements roots);
    let retained := list_to_set (mjoin lineages ≫= retained_by) in
    let prunable := (dom (nodes c) ∖ retained)
      ∪ list_to_set ((filter (λ ch, collectable retained ch = true) (map_to_list (children d))).*1) in
    Some (Ok (mkReport roots retained prunable)).

(** ** Purging *)

Definition part_paths (c : catalog) (d : disk) (id : string) : list (list string) :=
  match get_manifest c id with
  | Some m => (λ p, _resolve_part_path d id (path p)) <$> (relations m ≫= snd)
  | None => []
  end.
(** The directory [id] would lose holds a part of a surviving snapshot. *)
Definition protects (c : catalog) (d : disk) (surviving : gset string) (id : string) : bool :=
  match _is_owned_snapshot_dir d id with
  | Some target =>
      existsb (λ other, existsb (under target) (part_paths c d other)) (elements (surviving ∩ dom (nodes c)))
  | None => false
  end.
(** [while removable:]; each round but the last removes a candidate. *)
Fixpoint settle (c : catalog) (d : disk) (fuel : nat) (removable surviving : gset string) : gset string :=
  match fuel with
  | O => removable
  | S fuel =>
      let protected := filter (λ id, protects c d surviving id = true) removable in
      if decide (protected = ∅) then removable
      else settle c d fuel (removable ∖ protected) (surviving ∪ protected)
  end.

Definition rmtree (d : disk) (id : string) : disk :=
  mkDisk (delete id (children d)) (filter (λ f, under (root ++ [id]) f = false) (files d)).
Definition remove_snapshot (s : catalog * disk) (id : string) : catalog * disk :=
  (delete_node s.1 id, match _is_owned_snapshot_dir s.2 id with Some _ => rmtree s.2 id | None => s.2 end).

Definition removable_of (c : catalog) (d : disk) (safe_to_purge : gset string) : gset string :=
  let removable := filter (λ id, exists_child d id && negb (bool_decide (is_Some (_is_owned_snapshot_dir d id))) = false)
                     safe_to_purge in
  settle c d (size removable) removable (dom (nodes c) ∖ removable).

Definition purge_unreferenced (c : catalog) (d : disk) (report : RetentionReport) (dry_run : bool)
    (extra_pinned_ids : gset string) : option (result (list string * (catalog * disk))) :=
  match analyze_retention c d extra_pinned_ids 0 with
  | None => None
  | Some rechecked => Some (
      rechecked ← rechecked;
      let removed := order_by id (elements (removable_of c d (prunable_snapshots report ∩ prunable_snapshots rechecked))) in
      Ok (removed, if dry_run then (c, d) else foldl remove_snapshot (c, d) removed))
  end.

(** ** Deleting a snapshot outside a lineage keeps the lineage *)

Lemma is_checkpoint_delete c id x : x ≠ id → is_checkpoint (delete_node c id) x = is_checkpoint c x.
Proof. intros Hx. unfold is_checkpoint, delete_node. simpl. by rewrite lookup_delete_ne. Qed.
Lemma follows_delete c id x y :
  follows (delete_node c id) x y ↔ follows c x y ∧ x ≠ id ∧ y ≠ id.
Proof.
  unfold follows, delete_node at 1. simpl. setoid_rewrite list_elem_of_filter. split.
  - intros ((r & [Hr Hin] & <- & <-) & Hc & Hy). rewrite is_checkpoint_delete in Hc by done.
    rewrite lookup_delete_is_Some in Hy. destruct Hy as [Hne Hy]. split_and!; eauto.
  - intros (((r & Hin & <- & <-) & Hc & Hy) & Hx & Hne). split_and!.
    + by exists r.
    + by rewrite is_checkpoint_delete.
    + rewrite lookup_delete_is_Some. auto.
Qed.
Lemma next_level_delete c id level :
  id ∉ level → id ∉ next_level c level → next_level (delete_node c id) level = next_level c level.
Proof.
  intros Hl Hn. apply set_eq. intros y. rewrite !elem_of_next_level. setoid_rewrite follows_delete.
  split; [naive_solver|]. intros (x & Hx & Hf). exists x. split_and!; [done..| |].
  - by intros ->.
  - intros ->. apply Hn. apply elem_of_next_level. eauto.
Qed.
Lemma lineage_levels_delete c id fuel level levels :
  lineage_levels c fuel level = Some levels → id ∉ ⋃ levels →
  lineage_levels (delete_node c id) fuel level = Some levels.
Proof.
  revert level levels. induction fuel as [|fuel IH]; simpl; intros level levels; case_decide as Hl; try done.
  intros (rest & Hrest & ->)%fmap_Some. simpl. rewrite not_elem_of_union. intros [H1 H2].
  rewrite next_level_delete; [|done|].
  - by rewrite (IH _ _ Hrest).
  - destruct fuel as [|fuel]; simpl in Hrest; case_decide as Hn; try done.
    + rewrite Hn. set_solver.
    + rewrite Hn. set_solver.
    + apply fmap_Some in Hrest as (rest' & _ & ->). set_solver.
Qed.
Lemma lineage_levels_mono c fuel fuel' level levels :
  lineage_levels c fuel level = Some levels → fuel ≤ fuel' → lineage_levels c fuel' level = Some levels.
Proof.
  revert fuel' level levels. induction fuel as [|fuel IH]; intros [|fuel'] level levels; simpl; case_decide; try done; try lia.
  intros (rest & Hrest & ->)%fmap_Some Hf. rewrite (IH fuel' _ rest); [done|done|lia].
Qed.

Lemma lineage_groups_delete c id tip groups :
  lineage_groups c tip = Some groups → id ∉ ⋃ groups → lineage_groups (delete_node c id) tip = Some groups.
Proof.
  intros Hg Hid. assert (is_Some (lineage_groups (delete_node c id) tip)) as [groups' Hg'].
  { apply lineage_groups_ends. intros x [Htip Hr] Hx.
    apply (proj1 (lineage_groups_ends c tip) ltac:(by eexists) x).
    - split; [simpl in Htip; apply lookup_delete_is_Some in Htip; naive_solver|].
      eapply rtc_congruence with (f := λ x, x); [|exact Hr]. by intros ? ? [? _]%follows_delete.
    - eapply tc_congruence with (f := λ x, x); [|exact Hx]. by intros ? ? [? _]%follows_delete. }
  rewrite Hg'. f_equal. unfold lineage_groups in *.
  apply fmap_Some in Hg as (levels & Hl & ->), Hg' as (levels' & Hl' & ->). f_equal.
  rewrite anchor_groups_union in Hid. pose proof (lineage_levels_delete _ _ _ _ _ Hl Hid) as Hd.
  assert (tip_level (delete_node c id) tip = tip_level c tip) as Htip.
  { apply set_eq. intros x. assert (tip_level c tip ⊆ ⋃ levels) as Hsub.
    { simpl in Hl. case_decide as Hempty; [set_solver|]. apply fmap_Some in Hl as (rest & _ & ->). set_solver. }
    assert (is_Some (nodes c !! tip) → tip ≠ id).
    { intros Hs ->. apply Hid, Hsub. unfold tip_level, has_snapshot. rewrite bool_decide_true by done. set_solver. }
    unfold tip_level, has_snapshot. simpl. destruct (decide (tip = id)) as [->|Hne].
    - rewrite lookup_delete_eq, !bool_decide_false; [done|intuition|apply is_Some_None].
    - by rewrite lookup_delete_ne. }
  rewrite Htip in Hl'.
  set (n := S (size (nodes c)) `max` S (size (nodes (delete_node c id)))).
  apply (lineage_levels_mono _ _ n) in Hd; [|lia]. apply (lineage_levels_mono _ _ n) in Hl'; [|lia]. congruence.
Qed.

Lemma get_manifest_delete c id x :
  get_manifest (delete_node c id) x = if decide (x = id) then None else get_manifest c x.
Proof.
  unfold get_manifest, delete_node. simpl. case_decide as Hx; [by rewrite Hx, lookup_delete_eq|].
  rewrite lookup_delete_ne by done. rewrite !list_filter_filter_l; [done| |]; intros r E; congruence.
Qed.

(** The lineage of [tip]: the query ends and every snapshot of it is in [ids]. *)
Definition lineage_within (c : catalog) (ids : gset string) (tip : string) : Prop :=
  ∃ groups, lineage_groups c tip = Some groups ∧ ⋃ groups ⊆ ids.

Context (order_of_elements : ∀ X, order_of X ≡ₚ elements X).

Lemma lineage_within_nodes c tip groups :
  lineage_groups c tip = Some groups → ∀ id, id ∈ groups ≫= order_of → is_Some (nodes c !! id).
Proof using order_of_elements.
  intros Hg id Hid. assert (walk_ids order_of c tip = Some (groups ≫= order_of)) as Hw by (unfold walk_ids; by rewrite Hg).
  apply (walk_ids_spec order_of order_of_elements) in Hw as (_ & Hin & _).
  apply Hin in Hid as [Htip Hr]. by eapply follows_nodes.
Qed.
Lemma walk_lineage_delete c id ids tip :
  lineage_within c ids tip → id ∉ ids →
  lineage_within (delete_node c id) ids tip ∧
  walk_lineage order_of (delete_node c id) tip = walk_lineage order_of c tip.
Proof using order_of_elements.
  intros (groups & Hg & Hids) Hid. assert (id ∉ ⋃ groups) as Hout by set_solver.
  pose proof (lineage_groups_delete _ _ _ _ Hg Hout) as Hd. split; [by exists groups|].
  unfold walk_lineage, walk_ids. rewrite Hg, Hd. simpl. f_equal.
  apply list_omap_ext, Forall2_same_length_lookup_2; [done|]. intros i x y Hx Hy.
  simplify_eq. rewrite get_manifest_delete, decide_False; [done|].
  intros ->. apply Hout. apply list_elem_of_lookup_2 in Hx. by apply (elem_of_ordered order_of) in Hx.
Qed.
Lemma lineage_within_walk c tip manifests ids :
  walk_lineage order_of c tip = Some manifests → (∀ m, m ∈ manifests → snapshot_id m ∈ ids) →
  lineage_within c ids tip.
Proof using order_of_elements.
  unfold walk_lineage, walk_ids. destruct (lineage_groups c tip) as [groups|] eqn:Hg; [simpl|done].
  intros [= <-] Hm. exists groups. split; [done|]. intros x Hx.
  apply (elem_of_ordered order_of order_of_elements) in Hx.
  destruct (get_manifest_is_Some c x) as [m Hget]; [by eapply lineage_within_nodes|].
  rewrite <- (proj1 (get_manifest_Some _ _ _ Hget)). apply Hm, list_elem_of_omap. eauto.
Qed.

(** ** What the removals leave *)

Definition owned (d : disk) (id : string) : Prop := children d !! id = Some Directory.

Lemma removals_catalog c d removed ids tip :
  lineage_within c ids tip → (∀ id, id ∈ removed → id ∉ ids) →
  walk_lineage order_of (foldl remove_snapshot (c, d) removed).1 tip = walk_lineage order_of c tip.
Proof using order_of_elements.
  revert c d. induction removed as [|id removed IH]; simpl; intros c d Hw Hout; [done|].
  destruct (walk_lineage_delete c id ids tip) as [Hw' <-]; [done|apply Hout; left|].
  unfold remove_snapshot at 2. simpl. apply IH; [done|]. intros x Hx. apply Hout. by right.
Qed.
Lemma removals_manifest c d removed x :
  get_manifest (foldl remove_snapshot (c, d) removed).1 x =
  if decide (x ∈ removed) then None else get_manifest c x.
Proof.
  revert c d. induction removed as [|id removed IH]; intros c d; [done|].
  cbn [foldl]. unfold remove_snapshot at 2. simpl. rewrite IH, get_manifest_delete.
  destruct (decide (x = id)) as [->|Hx]; repeat case_decide; try done; set_solver.
Qed.
Lemma removals_pointers c d removed :
  branches (foldl remove_snapshot (c, d) removed).1 = branches c ∧
  tags (foldl remove_snapshot (c, d) removed).1 = tags c.
Proof.
  revert c d. induction removed as [|id removed IH]; intros c d; [done|].
  cbn [foldl]. unfold remove_snapshot at 2 4. apply (IH (delete_node c id)).
Qed.
Lemma removals_files c d removed f :
  (f ∈ files (foldl remove_snapshot (c, d) removed).2 → f ∈ files d) ∧
  (f ∈ files d → (∀ id, id ∈ removed → owned d id → under (root ++ [id]) f = false) →
   f ∈ files (foldl remove_snapshot (c, d) removed).2).
Proof.
  revert c d. induction removed as [|id removed IH]; intros c d; [done|].
  cbn [foldl]. unfold remove_snapshot at 2 4. simpl.
  set (d1 := match _is_owned_snapshot_dir d id with Some _ => rmtree d id | None => d end).
  assert (∀ g, g ∈ files d1 ↔ g ∈ files d ∧ (owned d id → under (root ++ [id]) g = false)) as Hfiles.
  { intros g. unfold d1, _is_owned_snapshot_dir, owned. destruct (children d !! id) as [[]|]; simpl;
      rewrite ?elem_of_filter; naive_solver. }
  assert (∀ x, owned d1 x → owned d x) as Howned.
  { intros x. unfold d1, _is_owned_snapshot_dir, owned. destruct (children d !! id) as [[]|]; simpl; try done.
    rewrite lookup_delete_Some. naive_solver. }
  destruct (IH (delete_node c id) d1) as [H1 H2]. split.
  - intros Hf%H1. by apply Hfiles in Hf as [? _].
  - intros Hf Hout. apply H2.
    + apply Hfiles. split; [done|]. intros Ho. apply Hout; [by left|done].
    + intros x Hx Ho. apply Hout; [by right|by apply Howned].
Qed.

(** ** The loop leaves only directories nobody needs *)

Lemma settle_done c d fuel removable surviving :
  size removable ≤ fuel →
  settle c d fuel removable surviving ⊆ removable ∧
  ∀ id, id ∈ settle c d fuel removable surviving →
    protects c d (surviving ∪ (removable ∖ settle c d fuel removable surviving)) id = false.
Proof.
  revert removable surviving. induction fuel as [|fuel IH]; intros removable surviving Hsize; simpl.
  { assert (removable = ∅) as -> by (apply leibniz_equiv, size_empty_iff; lia). split; [done|]. intros id Hid. by apply not_elem_of_empty in Hid. }
  case_decide as Hp.
  { split; [done|]. intros id Hid. apply not_true_is_false. intros Ht.
    replace (surviving ∪ removable ∖ removable) with surviving in Ht by (apply set_eq; set_solver).
    assert (id ∈ (filter (λ id, protects c d surviving id = true) removable)) as Hin by (by apply elem_of_filter).
    rewrite Hp in Hin. set_solver. }
  set (protected := filter (λ id, protects c d surviving id = true) removable) in *.
  assert (protected ⊆ removable) as Hsub by (intros x [_ Hx]%elem_of_filter; done).
  destruct (IH (removable ∖ protected) (surviving ∪ protected)) as [H1 H2].
  { rewrite size_difference by done. apply subseteq_size in Hsub.
    assert (size protected ≠ 0) as Hn by (intros E%size_empty_iff; apply Hp; by apply leibniz_equiv).
    clearbody protected. clear -Hsize Hn Hsub. lia. }
  set (left := settle c d fuel (removable ∖ protected) (surviving ∪ protected)) in *.
  split; [set_solver|]. intros id Hid. rewrite <- (H2 id Hid). f_equal. apply set_eq. intros x.
  destruct (decide (x ∈ protected)), (decide (x ∈ left)); set_solver.
Qed.
(** A candidate whose directory no other snapshot uses stays a candidate. *)
Definition unshared (c : catalog) (d : disk) (id : string) : Prop :=
  ∀ other target path, other ≠ id → _is_owned_snapshot_dir d id = Some target →
    path ∈ part_paths c d other → under target path = false.

Lemma protects_true c d surviving id :
  protects c d surviving id = true ↔ ∃ target other path, _is_owned_snapshot_dir d id = Some target ∧
    other ∈ surviving ∧ is_Some (nodes c !! other) ∧ path ∈ part_paths c d other ∧ under target path = true.
Proof.
  unfold protects. destruct (_is_owned_snapshot_dir d id) as [target|]; [|naive_solver].
  rewrite existsb_exists. setoid_rewrite existsb_exists. setoid_rewrite <- list_elem_of_In.
  setoid_rewrite elem_of_elements. setoid_rewrite elem_of_intersection. setoid_rewrite elem_of_dom. naive_solver.
Qed.
Lemma settle_keeps c d fuel removable surviving id :
  id ∈ removable → id ∉ surviving → unshared c d id → id ∈ settle c d fuel removable surviving.
Proof.
  intros Hr Hs Hu. assert (∀ S, id ∉ S → protects c d S id = false) as Hfree.
  { intros S HS. apply not_true_is_false. intros (target & other & f & Ht & Ho & _ & Hf & Hb)%protects_true.
    rewrite (Hu other target f) in Hb; [done|by intros ->|done|done]. }
  revert removable surviving Hr Hs. induction fuel as [|fuel IH]; intros removable surviving Hr Hs; simpl; [done|].
  case_decide; [done|]. apply IH.
  - apply elem_of_difference. split; [done|]. rewrite elem_of_filter, Hfree by done. by intros [? _].
  - rewrite elem_of_union, elem_of_filter, Hfree by done. intros [?|[? _]]; done.
Qed.

(** ** Analysis, taken apart *)

Lemma analyze_Ok c d pins age report :
  analyze_retention c d pins age = Some (Ok report) →
  age = 0%Z ∧
  (∀ r, r ∈ discover_roots c pins → lineage_within c (retained_snapshots report) r) ∧
  (∀ id, id ∈ prunable_snapshots report ↔ (id ∉ retained_snapshots report) ∧
     (is_Some (nodes c !! id) ∨
      (∃ e, children d !! id = Some e ∧ collectable (retained_snapshots report) (id, e) = true))).
Proof using order_of_elements.
  unfold analyze_retention. destruct (age <? 0)%Z eqn:H0; [done|]. destruct (age =? 0)%Z eqn:Hage; [simpl|done].
  destruct (mapM _ _) as [lineages|] eqn:Hm; [simpl|done]. intros H. injection H as <-. simpl.
  apply mapM_Some_1 in Hm. split; [lia|]. split.
  - intros r Hr. apply elem_of_elements, list_elem_of_lookup in Hr as [i Hi].
    destruct (Forall2_lookup_l _ _ _ _ _ Hm Hi) as (ms & Hms & Hw).
    eapply lineage_within_walk; [exact Hw|]. intros m Hin. apply elem_of_list_to_set, list_elem_of_bind.
    exists m. split; [by left|]. apply list_elem_of_join. exists ms. split; [done|]. by eapply list_elem_of_lookup_2.
  - intros id. set (retained := list_to_set (mjoin _ ≫= _)). clearbody retained.
    rewrite elem_of_union, elem_of_difference, elem_of_dom, elem_of_list_to_set, list_elem_of_fmap.
    setoid_rewrite list_elem_of_filter. split.
    + intros [[H1 H2]|([x e] & -> & Hc & Hin%elem_of_map_to_list)]; [by auto|]. simpl in *. split; [|by eauto].
      unfold collectable in Hc. rewrite !andb_true_iff in Hc. destruct Hc as [_ Hc]. simpl in Hc.
      by apply negb_true_iff, bool_decide_eq_false in Hc.
    + intros [H1 [H2|(e & He & Hc)]]; [by left|right]. exists (id, e). split_and!; [done..|]. by apply elem_of_map_to_list.
Qed.

Lemma resolve_part_stable d d' id part :
  (∀ f, f ∈ files d' → f ∈ files d) →
  (_resolve_part_path d id part ∈ files d → _resolve_part_path d id part ∈ files d') →
  _resolve_part_path d' id part = _resolve_part_path d id part.
Proof.
  intros Hsub. unfold _resolve_part_path, is_file. destruct (is_absolute part); [done|].
  destruct (decide (resolve (root ++ [id] ++ components part) ∈ files d)) as [Hn|Hn].
  { rewrite (bool_decide_true (_ ∈ files d)) by done. intros Hin. by rewrite bool_decide_true by auto. }
  rewrite (bool_decide_false (_ ∈ files d)) by done.
  rewrite (bool_decide_false (resolve (root ++ [id] ++ components part) ∈ files d')) by naive_solver.
  destruct (decide (resolve (root ++ components part) ∈ files d)) as [Hr|Hr].
  { rewrite (bool_decide_true (_ ∈ files d)) by done. intros Hin. by rewrite bool_decide_true by auto. }
  rewrite (bool_decide_false (_ ∈ files d)) by done. intros _.
  by rewrite (bool_decide_false (resolve (root ++ components part) ∈ files d')) by naive_solver.
Qed.

Lemma purge_Ok c d report dry pins removed s :
  purge_unreferenced c d report dry pins = Some (Ok (removed, s)) →
  ∃ rechecked, analyze_retention c d pins 0 = Some (Ok rechecked) ∧
    (∀ id, id ∈ removed ↔ id ∈ removable_of c d (prunable_snapshots report ∩ prunable_snapshots rechecked)) ∧
    s = if dry then (c, d) else foldl remove_snapshot (c, d) removed.
Proof.
  unfold purge_unreferenced. destruct (analyze_retention _ _ _ _) as [[rechecked|]|] eqn:Ha; try done.
  intros [= <- <-]. exists rechecked. split_and!; [done| |by destruct dry].
  intros id. by rewrite elem_of_order_by, elem_of_elements.
Qed.
Lemma removable_of_spec c d safe :
  removable_of c d safe ⊆ safe ∧
  ∀ id, id ∈ removable_of c d safe → protects c d (dom (nodes c) ∖ removable_of c d safe) id = false.
Proof.
  unfold removable_of. set (start := filter _ safe).
  destruct (settle_done c d (size start) start (dom (nodes c) ∖ start) (le_n _)) as [H1 H2].
  assert (start ⊆ safe) by (intros x [_ Hx]%elem_of_filter; done). clearbody start.
  set (left := settle _ _ _ _ _) in *. split; [set_solver|]. intros id Hid.
  apply not_true_is_false. intros (target & other & f & Ht & Ho & Hn & Hrest)%protects_true.
  specialize (H2 id Hid). apply not_true_iff_false in H2. apply H2, protects_true.
  exists target, other, f. split_and!; try done; [|apply Hrest..].
  apply elem_of_difference in Ho as [Hdom Hout]. clearbody left.
  destruct (decide (other ∈ start)); set_solver.
Qed.

(** C16: a purge, whatever report it is given, keeps for every branch head, tag and pin the
    same lineage with the same manifests; every snapshot left in the catalog keeps its
    manifest, and its parts resolve to the same paths and keep their files; branches and
    tags do not change. *)
Theorem purge_keeps_what_roots_need c d report pins removed c' d' :
  purge_unreferenced c d report false pins = Some (Ok (removed, (c', d'))) →
  (∀ r, r ∈ discover_roots c pins → walk_lineage order_of c' r = walk_lineage order_of c r) ∧
  (∀ id m, get_manifest c' id = Some m → get_manifest c id = Some m ∧
    ∀ p, p ∈ relations m ≫= snd →
      _resolve_part_path d' id (path p) = _resolve_part_path d id (path p) ∧
      (_resolve_part_path d id (path p) ∈ files d → _resolve_part_path d id (path p) ∈ files d')) ∧
  branches c' = branches c ∧ tags c' = tags c.
Proof using order_of_elements.
  intros (rechecked & Ha & Hrem & Hs)%purge_Ok. simpl in Hs.
  apply analyze_Ok in Ha as (_ & Hroots & Hprune).
  set (safe := prunable_snapshots report ∩ prunable_snapshots rechecked) in *.
  destruct (removable_of_spec c d safe) as [Hsafe Hprot].
  assert (c' = (foldl remove_snapshot (c, d) removed).1) as -> by (by rewrite <- Hs).
  assert (d' = (foldl remove_snapshot (c, d) removed).2) as -> by (by rewrite <- Hs). split_and!.
  - intros r Hr. apply (removals_catalog c d removed (retained_snapshots rechecked)); [by apply Hroots|].
    intros id Hid. apply Hrem, Hsafe, elem_of_intersection in Hid as [_ Hid]. by apply Hprune in Hid as [? _].
  - intros id m Hm. rewrite removals_manifest in Hm. case_decide as Hid; [done|]. split; [done|]. intros p Hp.
    assert (∀ f, f = _resolve_part_path d id (path p) → f ∈ files d →
      f ∈ files (foldl remove_snapshot (c, d) removed).2) as Hkeep.
    { intros f Hf Hin. apply removals_files; [done|]. intros x Hx Ho. apply not_true_is_false. intros Hu.
      apply Hrem in Hx as Hx'. specialize (Hprot x Hx'). apply not_true_iff_false in Hprot. apply Hprot, protects_true.
      exists (root ++ [x]), id, f. split_and!.
      - unfold _is_owned_snapshot_dir. by rewrite Ho.
      - apply elem_of_difference. rewrite <- Hrem. split; [|done]. apply elem_of_dom.
        apply get_manifest_Some in Hm as (_ & (row & Hrow & _) & _). by eexists.
      - apply get_manifest_Some in Hm as (_ & (row & Hrow & _) & _). by eexists.
      - unfold part_paths. rewrite Hm. rewrite Hf. apply list_elem_of_fmap. eauto.
      - done. }
    split; [|by apply Hkeep]. apply resolve_part_stable; [|by apply Hkeep].
    intros f. apply removals_files.
  - apply removals_pointers.
  - apply removals_pointers.
Qed.

(** A purge removes only snapshots and directories that both reports call prunable, and
    none it retains; and it removes every snapshot both call prunable whose directory is not
    a link and holds no part of another snapshot.  A dry run names them and changes nothing. *)
Theorem purge_collects_unshared c d report dry pins removed s :
  purge_unreferenced c d report dry pins = Some (Ok (removed, s)) →
  ∃ rechecked, analyze_retention c d pins 0 = Some (Ok rechecked) ∧
  (∀ id, id ∈ removed → id ∈ prunable_snapshots report ∧ id ∉ retained_snapshots rechecked) ∧
  (∀ id, id ∈ prunable_snapshots report → is_Some (nodes c !! id) → id ∉ retained_snapshots rechecked →
     children d !! id = None ∨ owned d id → unshared c d id → id ∈ removed) ∧
  (∀ id, id ∈ removed → get_manifest s.1 id = if dry then get_manifest c id else None) ∧
  (dry = true → s = (c, d)).
Proof using order_of_elements.
  intros (rechecked & Ha & Hrem & Hs)%purge_Ok. exists rechecked. split; [done|].
  apply analyze_Ok in Ha as (_ & _ & Hprune).
  set (safe := prunable_snapshots report ∩ prunable_snapshots rechecked) in *. split_and!.
  - intros id Hid. apply Hrem, (proj1 (removable_of_spec c d safe)), elem_of_intersection in Hid as [H1 H2].
    split; [done|]. by apply Hprune in H2 as [? _].
  - intros id H1 H2 H3 H4 H5. assert (id ∈ safe) as Hin.
    { apply elem_of_intersection. split; [done|]. apply Hprune. split; [done|by left]. }
    assert (exists_child d id && negb (bool_decide (is_Some (_is_owned_snapshot_dir d id))) = false) as Hlink.
    { unfold exists_child, _is_owned_snapshot_dir, owned in *. destruct H4 as [->| ->]; [done|].
      by rewrite !bool_decide_true by (by eexists). }
    apply Hrem, settle_keeps; [by apply elem_of_filter| |done].
    intros [_ Hout]%elem_of_difference. apply Hout. by apply elem_of_filter.
  - intros id Hid. rewrite Hs. destruct dry; [done|]. rewrite removals_manifest. by rewrite decide_True.
  - intros ->. done.
Qed.
End retention.

(** ** Examples *)

Definition pinned_manifest (id : string) (parents : list string) (base : string) : DAGNodeManifest :=
  mkManifest id (if decide (parents = []) then "checkpoint" else "delta") ((λ p, mkParentRef p "") <$> parents)
    "c" 0 "2026-01-01" [("rows", [mkPart (if decide (id = "d") then "../x/0" else "0") "h" 1 1 None None])] "" []
    (if String.eqb base "" then [] else [("base_snapshot_id", JStr base)]).
Definition recorded (l : list DAGNodeManifest) : result catalog := foldr_m (record_node (λ s, s)) empty_catalog l.

(** Branch "main" is at "d", whose part lies in the directory of "x"; "y" has no use. *)
Definition demo_disk : disk :=
  mkDisk (list_to_map ((λ id, (id, Directory)) <$> ["c"; "d"; "x"; "y"]))
    (list_to_set ((λ id, ["data"; id; "0"]) <$> ["c"; "d"; "x"; "y"])).
Definition of_result {A} (default : A) (r : result A) : A := match r with Ok a => a | Err _ => default end.
Definition demo_main : catalog := Eval vm_compute in
  write_pointer (of_result empty_catalog (recorded [pinned_manifest "c" [] ""; pinned_manifest "d" ["c"] "";
    pinned_manifest "x" [] ""; pinned_manifest "y" [] ""])) "main" "d" "t".
Definition report_of (c : catalog) (d : disk) : RetentionReport :=
  of_result (mkReport ∅ ∅ ∅) (default (Ok (mkReport ∅ ∅ ∅)) (analyze_retention elements c d ∅ 0)).
Definition purge (c : catalog) (d : disk) : list string * (catalog * disk) :=
  of_result ([], (c, d)) (default (Ok ([], (c, d)))
    (purge_unreferenced elements ["data"] c d (report_of c d) false ∅)).
Definition demo_after : catalog := Eval vm_compute in (purge demo_main demo_disk).2.1.
Definition demo_disk_after : disk := Eval vm_compute in (purge demo_main demo_disk).2.2.

Lemma demo_purge :
  purge_unreferenced elements ["data"] demo_main demo_disk (report_of demo_main demo_disk) false ∅
  = Some (Ok (["y"], (demo_after, demo_disk_after))).
Proof. vm_compute. reflexivity. Qed.
Lemma demo_root : "d" ∈ discover_roots demo_main ∅.
Proof. apply (bool_decide_unpack _). vm_compute. exact I. Qed.
Lemma elements_order : ∀ X : gset string, elements X ≡ₚ elements X.
Proof. reflexivity. Qed.

Lemma purge_keeps_what_roots_need_witness :
  walk_lineage elements demo_after "d" = walk_lineage elements demo_main "d".
Proof. exact (proj1 (purge_keeps_what_roots_need elements _ elements_order _ _ _ _ _ _ _ demo_purge) "d" demo_root). Defined.
Lemma purge_collects_unshared_witness : get_manifest demo_after "y" = None.
Proof.
  destruct (purge_collects_unshared elements _ elements_order _ _ _ _ _ _ _ demo_purge) as (_ & _ & _ & _ & H & _).
  apply (H "y"). left.
Defined.

(** ** Two ways to lose a parent *)

(** "f" names "d" as its base; nothing else needs "d" and its checkpoint "k". *)
Definition based : catalog := Eval vm_compute in
  write_pointer (of_result empty_catalog (recorded [pinned_manifest "k" [] ""; pinned_manifest "d" ["k"] "";
    pinned_manifest "f" [] "d"])) "main" "f" "t".

(** The base a retained snapshot pins is retained, but not the base's own lineage: after a
    purge the base is there and its lineage is broken. *)
Theorem purge_breaks_base_lineage :
  "d" ∈ retained_snapshots (report_of based (mkDisk ∅ ∅)) ∧
  (is_ok <$> checked_walk elements based "d") = Some true ∧
  (purge based (mkDisk ∅ ∅)).1 = ["k"] ∧
  checked_walk elements (purge based (mkDisk ∅ ∅)).2.1 "d" = Some (Err (BrokenLineageError "parent manifest missing")).
Proof. split_and!; [apply (bool_decide_unpack _); vm_compute; exact I|vm_compute; reflexivity..]. Qed.

(** *** Publication and purge do not exclude each other *)

(** The files the two lock: [publish_node] the catalog itself, [purge_unreferenced] the lock
    file of [DAGPaths]. *)
Definition publish_lock (root : list string) : list string := root ++ ["catalog.sqlite"].
Definition purge_lock (root : list string) : list string := root ++ [".publication.lock"].

Record shared := mkShared {
  locks : gset (list string);
  sh_catalog : catalog;
  sh_disk : disk;
  planned : option (list string);      (* what the purge under way will remove *)
}.

(** A purge takes its lock and decides, then removes and releases; a publication of a node
    whose parts are in place is one step, which needs its lock to be free. *)
Inductive maintenance_step (root : list string) : shared → shared → Prop :=
  | purge_plan h c d report pins removed s :
      purge_lock root ∉ h → purge_unreferenced elements root c d report true pins = Some (Ok (removed, s)) →
      maintenance_step root (mkShared h c d None) (mkShared ({[purge_lock root]} ∪ h) c d (Some removed))
  | purge_apply h c d removed :
      maintenance_step root (mkShared h c d (Some removed))
        (mkShared (h ∖ {[purge_lock root]}) (foldl (remove_snapshot root) (c, d) removed).1
           (foldl (remove_snapshot root) (c, d) removed).2 None)
  | publish_step h c d p m expected branch_name now_iso dirs c' :
      publish_lock root ∉ h →
      publish_node (λ s, s) (dom (children d)) c m false expected branch_name now_iso = (dirs, c', Ok ()) →
      maintenance_step root (mkShared h c d p) (mkShared h c' d p).

(** "x" is recorded and waits for the publication of its child "y". *)
Definition waiting : catalog := Eval vm_compute in
  write_pointer (of_result empty_catalog (recorded [pinned_manifest "c" [] ""; pinned_manifest "x" ["c"] ""])) "main" "c" "t".
Definition published : catalog := Eval vm_compute in
  of_result empty_catalog (publish_in_catalog (λ s, s) waiting (pinned_manifest "y" ["x"] "") "main" "t").

(** A publication can run between the decision of a purge and its removals, since the two
    take different locks: the branch then ends at a snapshot whose parent is gone. *)
Theorem publish_races_purge : ∃ s,
  rtc (maintenance_step ["data"]) (mkShared ∅ waiting (mkDisk ∅ ∅) None) s ∧
  planned s = None ∧ locks s = ∅ ∧ read_pointer (sh_catalog s) "main" = Some "y" ∧
  checked_walk elements (sh_catalog s) "y" = Some (Err (BrokenLineageError "parent manifest missing")).
Proof.
  eexists. split; [|split; [|split; [|split]]].
  - eapply rtc_l.
    { apply (purge_plan _ ∅ _ _ (report_of waiting (mkDisk ∅ ∅)) ∅ ["x"] (waiting, mkDisk ∅ ∅)); [set_solver|].
      vm_compute. reflexivity. }
    eapply rtc_l.
    { apply (publish_step _ _ _ _ _ (pinned_manifest "y" ["x"] "") (Some "c") "main" "t" ∅ published).
      - apply (bool_decide_unpack _). vm_compute. exact I.
      - vm_compute. reflexivity. }
    eapply rtc_l; [apply purge_apply|apply rtc_refl].
  - reflexivity.
  - vm_compute. reflexivity.
  - vm_compute. reflexivity.
  - vm_compute. reflexivity.
Qed.
