(* ===== verification/Doctor.v ===== *)
(** * The auditor of a snapshot repository: [infra/storage/dag/doctor.py]

    [audit_graph] collects every problem it finds, of the lineages of the roots, of the graph
    and of the part files, and calls the repository healthy when there is none.  An error is
    a value with what its message names; sizes, digests and ages of files are arguments. *)
From S2P Require Import Prelude Serialization SnapshotCatalog SnapshotLineage SnapshotProperties Retention.

Inductive audit_error :=
  | CycleInLineage (tip : string)
  | BrokenLineage (tip : string) (reason : exn)
  | CycleInvolving (id : string)
  | OrphanNode (id : string) (parent : option string)
  | MissingPart (part_path id : string)
  | SizeMismatch (part_path id : string)
  | DigestMismatch (part_path id : string).

Record GraphAudit := mkAudit {
  is_healthy : bool;
  errors : list audit_error;
  active_tips : list string;
  stale_staging_dirs : list string;
}.

Section doctor.
Context (order_of : gset string → list string) (root : list string).
Context (size_of : list string → Z) (file_sha256 : list string → string).

(** [doctor._resolve_part_path], which does not normalize what it returns. *)
Definition resolve_part (d : disk) (id part_path : string) : list string :=
  let p := components part_path in
  if is_absolute part_path then p
  else if is_file d (root ++ [id] ++ p) then root ++ [id] ++ p
  else if is_file d (root ++ p) then root ++ p
  else root ++ [id] ++ p.

Definition lineage_errors (c : catalog) (tip : string) : option (list audit_error) :=
  r ← checked_walk order_of c tip;
  Some match r with
       | Ok _ => []
       | Err CycleDetectedError => [CycleInLineage tip]
       | Err e => [BrokenLineage tip e]
       end.
Definition graph_errors (c : catalog) : list audit_error :=
  (CycleInvolving <$> audit_cycles c) ++ ((λ o, OrphanNode o.1 o.2) <$> orphan_nodes c).
Definition part_error (d : disk) (verify_digests : bool) (id : string) (p : PartDescriptor) : list audit_error :=
  let part_path := resolve_part d id (path p) in
  if negb (is_file d part_path) then [MissingPart (path p) id]
  else if negb (size_of (resolve part_path) =? byte_size p)%Z then [SizeMismatch (path p) id]
  else if verify_digests && negb (String.eqb (file_sha256 (resolve part_path)) (sha256 p)) then [DigestMismatch (path p) id]
  else [].
Definition manifest_errors (c : catalog) (d : disk) (verify_digests : bool) (id : string) : list audit_error :=
  match get_manifest c id with
  | Some m => (relations m ≫= snd) ≫= part_error d verify_digests (snapshot_id m)
  | None => []
  end.
Definition is_stale_stage (age_of : string → Z) (child : string * entry) : bool :=
  is_dir child.2 && String.prefix ".stage-" child.1 && (86400 <? age_of child.1)%Z.

(** [list_snapshots] gives the IDs by creation time, [listed]. *)
Definition audit_graph (c : catalog) (d : disk) (listed : list string) (age_of : string → Z) (verify_digests : bool) :
    option GraphAudit :=
  let roots := order_by (λ x, x) (elements (discover_roots c ∅)) in
  lineages ← mapM (lineage_errors c) roots;
  let errors := mjoin lineages ++ graph_errors c ++ (listed ≫= manifest_errors c d verify_digests) in
  Some (mkAudit (bool_decide (length errors = 0)) errors roots
    (order_by (λ x, x) (filter (λ ch, is_stale_stage age_of ch = true) (map_to_list (children d))).*1)).

(** ** What a clean bill of health means *)

(** The file the descriptor names is there with the size, and digest, it states. *)
Definition part_intact (d : disk) (verify_digests : bool) (id : string) (p : PartDescriptor) : Prop :=
  resolve (resolve_part d id (path p)) ∈ files d ∧ size_of (resolve (resolve_part d id (path p))) = byte_size p ∧
  (verify_digests = true → file_sha256 (resolve (resolve_part d id (path p))) = sha256 p).

Lemma part_error_nil d v id p : part_error d v id p = [] ↔ part_intact d v id p.
Proof.
  unfold part_error, part_intact, is_file. case_bool_decide as H1; simpl; [|naive_solver].
  destruct (Z.eqb_spec (size_of (resolve (resolve_part d id (path p)))) (byte_size p)) as [H2|H2]; simpl; [|naive_solver].
  destruct v; simpl; [|naive_solver].
  destruct (String.eqb_spec (file_sha256 (resolve (resolve_part d id (path p)))) (sha256 p)); simpl; naive_solver.
Qed.
Lemma bind_nil {A B} (f : A → list B) l : l ≫= f = [] ↔ ∀ x, x ∈ l → f x = [].
Proof.
  induction l as [|x l IH]; simpl; [split; [intros _ y Hy; inversion Hy|done]|].
  rewrite app_nil, IH. setoid_rewrite elem_of_cons. naive_solver.
Qed.
Lemma join_nil {A} (l : list (list A)) : mjoin l = [] ↔ ∀ x, x ∈ l → x = [].
Proof.
  induction l as [|x l IH]; simpl; [split; [intros _ y Hy; inversion Hy|done]|].
  rewrite app_nil, IH. setoid_rewrite elem_of_cons. naive_solver.
Qed.
Lemma lineage_errors_nil c tip : lineage_errors c tip = Some [] ↔ ∃ chain, checked_walk order_of c tip = Some (Ok chain).
Proof. unfold lineage_errors. destruct (checked_walk _ _ _) as [[chain|[]]|]; simpl; naive_solver. Qed.
Lemma graph_errors_nil c : graph_errors c = [] ↔ audit_cycles c = [] ∧ orphan_nodes c = [].
Proof. unfold graph_errors. destruct (audit_cycles c), (orphan_nodes c); simpl; naive_solver. Qed.
Lemma manifest_errors_nil c d v id :
  manifest_errors c d v id = [] ↔
  ∀ m p, get_manifest c id = Some m → p ∈ relations m ≫= snd → part_intact d v id p.
Proof.
  unfold manifest_errors. destruct (get_manifest c id) as [m|] eqn:Hm; [|naive_solver].
  apply get_manifest_Some in Hm as [-> _]. rewrite bind_nil. setoid_rewrite part_error_nil. naive_solver.
Qed.

(** The audit calls a repository healthy exactly when the lineage of every branch head and
    tag is accepted, no node is an orphan or in a first-parent cycle, and every part of every
    listed manifest is on disk with its size, and its digest when digests are verified. *)
Theorem audit_healthy_iff c d listed age_of v a :
  audit_graph c d listed age_of v = Some a →
  is_healthy a = true ↔
    (∀ tip, tip ∈ discover_roots c ∅ → ∃ chain, checked_walk order_of c tip = Some (Ok chain)) ∧
    audit_cycles c = [] ∧ orphan_nodes c = [] ∧
    (∀ id m p, id ∈ listed → get_manifest c id = Some m → p ∈ relations m ≫= snd → part_intact d v id p).
Proof.
  unfold audit_graph. set (roots := order_by _ _). destruct (mapM _ roots) as [lineages|] eqn:Hl; [simpl|done].
  intros [= <-]. simpl. rewrite bool_decide_eq_true, length_zero_iff_nil, !app_nil, graph_errors_nil, join_nil, bind_nil.
  setoid_rewrite manifest_errors_nil. apply mapM_Some_1 in Hl.
  assert ((∀ l, l ∈ lineages → l = []) ↔ ∀ tip, tip ∈ roots → ∃ chain, checked_walk order_of c tip = Some (Ok chain)) as ->.
  { setoid_rewrite <- lineage_errors_nil. split.
    - intros H tip [i Hi]%list_elem_of_lookup. destruct (Forall2_lookup_l _ _ _ _ _ Hl Hi) as (l & Hli & ->).
      f_equal. apply H. by eapply list_elem_of_lookup_2.
    - intros H l [i Hi]%list_elem_of_lookup. destruct (Forall2_lookup_r _ _ _ _ _ Hl Hi) as (tip & Hti & Hle).
      rewrite (H tip) in Hle by (by eapply list_elem_of_lookup_2). by injection Hle. }
  unfold roots. setoid_rewrite elem_of_order_by. setoid_rewrite elem_of_elements. naive_solver.
Qed.
End doctor.

Lemma audit_healthy_iff_witness : ∃ a,
  audit_graph elements ["data"] (λ _, 1%Z) (λ _, "") demo_main demo_disk ["c"; "d"; "x"; "y"] (λ _, 0%Z) false = Some a ∧
  is_healthy a = true ∧ orphan_nodes demo_main = [].
Proof.
  destruct (audit_graph elements ["data"] (λ _, 1%Z) (λ _, "") demo_main demo_disk ["c"; "d"; "x"; "y"] (λ _, 0%Z) false)
    as [a|] eqn:Ha; [|vm_compute in Ha; discriminate Ha].
  exists a. assert (is_healthy a = true) as Hh by (vm_compute in Ha; injection Ha as <-; reflexivity).
  pose proof (proj1 (audit_healthy_iff _ _ _ _ _ _ _ _ _ _ Ha) Hh) as (_ & _ & Ho & _).
  split_and!; [reflexivity|exact Hh|exact Ho].
Defined.
