(* ===== verification/Relations.v ===== *)
(** * Relations along a lineage: [spec.py], [resolution.py] and [query.py] of [infra/storage/dag]

    A relation is a table spread over the parts of a lineage's snapshots.  Its raw view is the
    union of the parts with the rank of their snapshot; its active view keeps, for each
    primary key, the row that the spec's merge strategy prefers.  A view is the list of its
    rows; [read_parquet] gives the rows of a part file and [arrange] the order in which the
    engine scans them, which decides between rows the ORDER BY does not tell apart. *)
From Stdlib Require Import Ascii.
From S2P Require Import Prelude Serialization PyJson Hashing SnapshotCatalog SnapshotLineage Retention Doctor.

(** ** Cells and rows *)

Inductive cell := CNull | CBool (b : bool) | CInt (z : Z) | CText (s : string).
#[global] Instance cell_eq_dec : EqDecision cell.
Proof. solve_decision. Defined.
Definition row : Type := gmap string cell.
Definition col (r : row) (k : string) : cell := default CNull (r !! k).
Definition key (cols : list string) (r : row) : list cell := col r <$> cols.
Definition is_null_cell (c : cell) : bool := match c with CNull => true | _ => false end.

(** [ORDER BY]: NULL after every value; a column has values of one type. *)
Definition cell_compare (x y : cell) : comparison :=
  match x, y with
  | CNull, CNull => Eq
  | CNull, _ => Gt
  | _, CNull => Lt
  | CBool a, CBool b => (Z.b2z a ?= Z.b2z b)%Z
  | CInt a, CInt b => (a ?= b)%Z
  | CText a, CText b => String.compare a b
  | CBool _, _ => Lt
  | _, CBool _ => Gt
  | CInt _, _ => Lt
  | _, CInt _ => Gt
  end.
Definition cell_lt (x y : cell) : bool := match cell_compare x y with Lt => true | _ => false end.
(** [DESC] still puts NULL last. *)
Definition cell_desc (x y : cell) : bool :=
  if is_null_cell x then false else if is_null_cell y then true else cell_lt y x.

(** ** Specs *)

Inductive merge_strategy := Upsert | Append | ScopedMask.
Inductive tie_op := TieMin | TieMax.
#[global] Instance merge_strategy_eq_dec : EqDecision merge_strategy.
Proof. solve_decision. Defined.
#[global] Instance tie_op_eq_dec : EqDecision tie_op.
Proof. solve_decision. Defined.

Record RelationSpec := mkSpec {
  sp_name : string;
  schema : list string;
  primary_key : list string;
  strategy : merge_strategy;
  sort_order : list string;
  parent_relation : option string;
  parent_join_key : option (list string);
  tie_breaker_column : option string;
  tie_breaker_op : tie_op;
  max_rows_per_part : option Z;
  entity_key : option string;
}.
#[global] Instance spec_eq_dec : EqDecision RelationSpec.
Proof. solve_decision. Defined.

(** [str.isidentifier] on code points up to U+00FF. *)
Definition id_start (c : ascii) : bool :=
  let n := nat_of_ascii c in
  ((65 <=? n) && (n <=? 90) || (97 <=? n) && (n <=? 122) || (n =? 95) || (n =? 170) || (n =? 181) || (n =? 186)
   || (192 <=? n) && (n <=? 214) || (216 <=? n) && (n <=? 246) || (248 <=? n))%nat.
Definition id_continue (c : ascii) : bool :=
  let n := nat_of_ascii c in id_start c || ((48 <=? n) && (n <=? 57) || (n =? 183))%nat.
Definition isidentifier (s : string) : bool :=
  match s with String c s => id_start c && string_forallb id_continue s | EmptyString => false end.

Definition filled (s : option string) : bool := match s with None | Some "" => false | Some _ => true end.
Definition filled_list {A} (l : option (list A)) : bool := match l with None | Some [] => false | Some _ => true end.
Definition check_column (names : list string) (msg : string) (c : string) : result unit :=
  raise_if (negb (bool_decide (c ∈ names))) (ValueError msg).

(** [RelationSpec.__post_init__] *)
Definition check_spec (sp : RelationSpec) : result unit :=
  _ ← raise_if (negb (isidentifier (sp_name sp))) (ValueError "invalid relation name");
  _ ← raise_if (bool_decide (primary_key sp = [])) (ValueError "must define a primary key");
  _ ← raise_if (filled (entity_key sp) && negb (bool_decide (default "" (entity_key sp) ∈ schema sp)))
        (ValueError "entity_key not in schema");
  _ ← raise_if (match max_rows_per_part sp with Some n => (n <=? 0)%Z | None => false end)
        (ValueError "max_rows_per_part must be positive");
  _ ← foldr_m (λ _, check_column (schema sp) "primary key column not in schema") () (primary_key sp);
  _ ← foldr_m (λ _, check_column (schema sp) "sort column not in schema") () (sort_order sp);
  _ ← (if decide (strategy sp = ScopedMask) then
         _ ← raise_if (negb (filled (parent_relation sp))) (ValueError "requires parent_relation");
         raise_if (negb (filled_list (parent_join_key sp))) (ValueError "requires parent_join_key")
       else Ok ());
  if decide (strategy sp = Append) then
    match tie_breaker_column sp with
    | None | Some "" => Ok ()
    | Some c => check_column (schema sp) "tie breaker not in schema" c
    end
  else Ok ().

(** [spec.merge_strategy != "scoped_mask" or spec.parent_relation in names] *)
Definition is_ready (names : list string) (sp : RelationSpec) : bool :=
  match strategy sp with
  | ScopedMask => match parent_relation sp with Some p => bool_decide (p ∈ names) | None => false end
  | _ => true
  end.
Fixpoint ordered_from (fuel : nat) (names : list string) (remaining : list RelationSpec) :
    result (list RelationSpec) :=
  match remaining, fuel with
  | [], _ => Ok []
  | _, O => Err (RuntimeError "unreachable")
  | _, S fuel =>
      let ready := filter (λ sp, is_ready names sp = true) remaining in
      if bool_decide (ready = []) then Err (ValueError "scoped-mask relations require an ordered parent spec")
      else rest ← ordered_from fuel (names ++ (sp_name <$> ready)) (filter (λ sp, is_ready names sp = false) remaining);
           Ok (ready ++ rest)
  end.
Definition _ordered_specs (specs : list RelationSpec) : result (list RelationSpec) :=
  ordered_from (length specs) [] specs.

(** ** Ordering the specs *)

Lemma ordered_from_step fuel names l :
  l ≠ [] →
  ordered_from (S fuel) names l =
    (if bool_decide (filter (λ sp, is_ready names sp = true) l = [])
     then Err (ValueError "scoped-mask relations require an ordered parent spec")
     else rest ← ordered_from fuel (names ++ (sp_name <$> filter (λ sp, is_ready names sp = true) l))
                   (filter (λ sp, is_ready names sp = false) l);
          Ok (filter (λ sp, is_ready names sp = true) l ++ rest)).
Proof. by destruct l. Qed.
Lemma ready_split names l :
  filter (λ sp, is_ready names sp = true) l ++ filter (λ sp, is_ready names sp = false) l ≡ₚ l.
Proof.
  induction l as [|sp l IH]; [done|]. rewrite !filter_cons. destruct (is_ready names sp); simpl.
  - by rewrite IH.
  - by rewrite <- Permutation_middle, IH.
Qed.
Lemma is_ready_mono names names' sp : names ⊆ names' → is_ready names sp = true → is_ready names' sp = true.
Proof.
  intros Hsub. unfold is_ready. destruct (strategy sp); try done. destruct (parent_relation sp); [|done].
  rewrite !bool_decide_eq_true. apply Hsub.
Qed.
Lemma not_ready names sp :
  is_ready names sp = false → strategy sp = ScopedMask ∧ ∀ p, parent_relation sp = Some p → p ∉ names.
Proof.
  unfold is_ready. destruct (strategy sp); try done. intros H. split; [done|]. intros p Hp. rewrite Hp in H.
  by apply bool_decide_eq_false in H.
Qed.

(** Specs that wait for each other, or for nothing there is. *)
Definition stuck_in (names : list string) (l stuck : list RelationSpec) : Prop :=
  stuck ≠ [] ∧ stuck ⊆ l ∧ ∀ sp, sp ∈ stuck → strategy sp = ScopedMask ∧
    ∀ p, parent_relation sp = Some p → (p ∉ names) ∧ ∀ other, other ∈ l → sp_name other = p → other ∈ stuck.

Lemma ordered_from_spec fuel names l :
  length l ≤ fuel →
  match ordered_from fuel names l with
  | Ok ordered => ordered ≡ₚ l ∧
      ∀ l1 sp l2, ordered = l1 ++ sp :: l2 → is_ready (names ++ (sp_name <$> l1)) sp = true
  | Err e => e = ValueError "scoped-mask relations require an ordered parent spec" ∧ ∃ stuck, stuck_in names l stuck
  end.
Proof.
  revert names l. induction fuel as [|fuel IH]; intros names l Hlen.
  { destruct l; [|simpl in Hlen; lia]. split; [done|]. by intros [] ? ?. }
  destruct (decide (l = [])) as [->|Hl]. { split; [done|]. by intros [] ? ?. }
  rewrite ordered_from_step by done. pose proof (ready_split names l) as Hsplit.
  set (ready := filter (λ sp, is_ready names sp = true) l) in *.
  set (rest := filter (λ sp, is_ready names sp = false) l) in *.
  case_bool_decide as Hready.
  { split; [done|]. rewrite Hready in Hsplit. simpl in Hsplit. exists l. split_and!; [done..|].
    intros sp Hsp. rewrite <- Hsplit in Hsp. apply list_elem_of_filter in Hsp as [Hn _].
    apply not_ready in Hn as [? Hp]. split; [done|]. eauto. }
  assert (length rest ≤ fuel) as Hrest.
  { apply Permutation_length in Hsplit. rewrite length_app in Hsplit. destruct ready; [done|]. simpl in Hsplit. lia. }
  specialize (IH (names ++ (sp_name <$> ready)) rest Hrest). destruct (ordered_from _ _ rest) as [ordered|e]; simpl.
  - destruct IH as [Hperm Hpos]. split; [by rewrite Hperm|]. intros l1 sp l2 Heq.
    apply app_eq_inv in Heq as [(k & Hk & Heq)|(k & -> & Heq)].
    + destruct k as [|sp' k]; simpl in Heq.
      * rewrite app_nil_r in Hk. rewrite <- Hk. specialize (Hpos [] sp l2 (eq_sym Heq)).
        by rewrite fmap_nil, app_nil_r in Hpos.
      * injection Heq as <- _. assert (sp ∈ ready) as Hsp by (rewrite Hk; set_solver).
        apply list_elem_of_filter in Hsp as [Hsp _]. eapply is_ready_mono; [|exact Hsp]. set_solver.
    + rewrite fmap_app, app_assoc. by apply (Hpos _ _ l2).
  - destruct IH as [-> (stuck & Hne & Hsub & Hall)]. split; [done|]. exists stuck.
    assert (rest ⊆ l) as Hrl by (intros x Hx; rewrite <- Hsplit; set_solver). split_and!; [done|set_solver|].
    intros sp Hsp. destruct (Hall sp Hsp) as [Hm Hp]. split; [done|]. intros p Hpar. destruct (Hp p Hpar) as [Hn Ho].
    split; [set_solver|]. intros other Hother Hname. rewrite <- Hsplit in Hother.
    apply elem_of_app in Hother as [Hr|Hr]; [|by apply Ho]. exfalso. apply Hn, elem_of_app. right.
    rewrite <- Hname. by apply list_elem_of_fmap_2.
Qed.

(** The specs are put in an order in which every scoped relation comes after its parent,
    and the loop always ends; it fails exactly with the message that says so, and then there
    are scoped specs whose parents are missing or wait for each other. *)
Theorem ordered_specs_parents_first specs :
  match _ordered_specs specs with
  | Ok ordered => ordered ≡ₚ specs ∧ ∀ l1 sp l2, ordered = l1 ++ sp :: l2 → strategy sp = ScopedMask →
      ∃ parent, parent ∈ l1 ∧ parent_relation sp = Some (sp_name parent)
  | Err e => e = ValueError "scoped-mask relations require an ordered parent spec" ∧ ∃ stuck, stuck_in [] specs stuck
  end.
Proof.
  pose proof (ordered_from_spec (length specs) [] specs (le_n _)) as H. unfold _ordered_specs.
  destruct (ordered_from _ _ _); [|done]. destruct H as [Hperm Hpos]. split; [done|]. intros l1 sp l2 Hl Hm.
  specialize (Hpos l1 sp l2 Hl). unfold is_ready in Hpos. rewrite Hm in Hpos. destruct (parent_relation sp); [|done].
  apply bool_decide_eq_true, list_elem_of_fmap in Hpos as (parent & -> & Hin). eauto.
Qed.

(** ** Views *)

(** A row of a raw view: the rank of its snapshot in the lineage, and the row. *)
Abbreviation ranked_row := (nat * row)%type.

Section views.
Context (arrange : list ranked_row → list ranked_row).

(** [ROW_NUMBER() ... = 1]: the first row that no row beats. *)
Fixpoint best {A} (better : A → A → bool) (l : list A) : option A :=
  match l with
  | [] => None
  | x :: l => match best better l with
              | None => Some x
              | Some y => if better y x then Some y else Some x
              end
  end.
Definition winners (better : ranked_row → ranked_row → bool) (cols : list string) (rows : list ranked_row) :
    list ranked_row :=
  omap (M := list) (λ k, best better (filter (λ x, key cols x.2 = k) (arrange rows)))
    (remove_dups ((λ x, key cols x.2) <$> arrange rows)).

(** The ORDER BY of each strategy. *)
Definition later (x y : ranked_row) : bool := (y.1 <? x.1)%nat.
Definition tie_better (op : tie_op) (c : string) (x y : ranked_row) : bool :=
  match op with
  | TieMin => cell_lt (col x.2 c) (col y.2 c)
              || bool_decide (cell_compare (col x.2 c) (col y.2 c) = Eq) && (x.1 <? y.1)%nat
  | TieMax => cell_desc (col x.2 c) (col y.2 c)
              || bool_decide (cell_compare (col x.2 c) (col y.2 c) = Eq) && (y.1 <? x.1)%nat
  end.
Definition append_better (sp : RelationSpec) : ranked_row → ranked_row → bool :=
  match tie_breaker_column sp with
  | None | Some "" => λ x y, (x.1 <? y.1)%nat
  | Some c => tie_better (tie_breaker_op sp) c
  end.
Definition upsert_view (sp : RelationSpec) (rows : list ranked_row) : list row := snd <$> winners later (primary_key sp) rows.
Definition append_view (sp : RelationSpec) (rows : list ranked_row) : list row :=
  snd <$> winners (append_better sp) (primary_key sp) rows.

(** [c.k = p.k AND ...]: no NULL equals anything. *)
Definition join_eq (cols : list string) (c p : row) : bool :=
  forallb (λ k, negb (is_null_cell (col c k)) && bool_decide (col c k = col p k)) cols.
Definition join_key (sp : RelationSpec) : list string :=
  match parent_join_key sp with None | Some [] => primary_key sp | Some l => l end.
Definition mask_view (sp : RelationSpec) (parents rows : list ranked_row) : list row :=
  let winning_parent := winners later (join_key sp) parents in
  rows ≫= λ c, (λ _, c.2) <$> filter (λ p, join_eq (join_key sp) c.2 p.2 && (c.1 =? p.1)%nat = true) winning_parent.

(** The views of a connection; [None] is a raw view without the rank column, made for a
    relation that has no part. *)
Record views := mkViews {
  raw : gmap string (option (list ranked_row));
  active : gmap string (list row);
}.
Definition no_views : views := mkViews ∅ ∅.

(** One round of the loop; [or_replace] is CREATE OR REPLACE. *)
Definition define_views (or_replace : bool) (raw_of : RelationSpec → option (list ranked_row))
    (v : views) (sp : RelationSpec) : result views :=
  _ ← raise_if (negb or_replace && bool_decide (is_Some (raw v !! sp_name sp))) CatalogException;
  let raw' := <[sp_name sp := raw_of sp]> (raw v) in
  let define rows := Ok (mkViews raw' (<[sp_name sp := rows]> (active v))) in
  match raw_of sp with
  | None => define []
  | Some rows =>
      match strategy sp with
      | Upsert => define (upsert_view sp rows)
      | Append => define (append_view sp rows)
      | ScopedMask =>
          match raw' !! default "" (parent_relation sp) with
          | None => Err CatalogException
          | Some None => Err BinderException
          | Some (Some parents) => define (mask_view sp parents rows)
          end
      end
  end.

Definition views_of (specs : list RelationSpec) (raw_of : RelationSpec → option (list ranked_row)) : result views :=
  ordered ← _ordered_specs specs; foldr_m (define_views false raw_of) no_views ordered.

(** ** The parts of a lineage *)

Context (root : list string) (read_parquet : list string → list row).

(** The part files, of one relation and chosen by [keep], that exist, with their rank. *)
Definition part_files (d : disk) (keep : PartDescriptor → bool) (name : string) (ranked_node : nat * DAGNodeManifest) :
    list (nat * list string) :=
  let '(rank, node) := ranked_node in
  (λ p, (rank, resolve (resolve_part root d (snapshot_id node) (path p))))
    <$> filter (λ p, keep p && is_file d (resolve_part root d (snapshot_id node) (path p)) = true)
          (default [] (assoc name (relations node))).
Definition lineage_files (d : disk) (keep : PartDescriptor → bool) (name : string) (nodes : list DAGNodeManifest) :
    list (nat * list string) :=
  imap (λ i m, (i, m)) nodes ≫= part_files d keep name.
Definition raw_rows (files : list (nat * list string)) : option (list ranked_row) :=
  match files with
  | [] => None
  | _ => Some (files ≫= λ f, (λ r, (f.1, r)) <$> read_parquet f.2)
  end.

Definition compile_virtual_views (specs : list RelationSpec) (lineage : LineageChain) (d : disk) : result views :=
  views_of specs (λ sp, raw_rows (lineage_files d (λ _, true) (sp_name sp) (chain_nodes lineage))).

(** ** Point queries *)

(** The guards of [query.prune_parts_for_range], negated. *)
Definition overlaps (range_min range_max : option string) (p : PartDescriptor) : bool :=
  negb (match range_min, key_max p with Some lo, Some m => bool_decide (¬ String.le lo m) | _, _ => false end)
  && negb (match range_max, key_min p with Some hi, Some m => bool_decide (¬ String.le m hi) | _, _ => false end).
Definition prune_parts (d : disk) (lineage : LineageChain) (name : string) (range_min range_max : option string) :
    list (nat * list string) :=
  lineage_files d (overlaps range_min range_max) name (chain_nodes lineage).

Definition masks_last (specs : list RelationSpec) : list RelationSpec :=
  filter (λ sp, strategy sp ≠ ScopedMask) specs ++ filter (λ sp, strategy sp = ScopedMask) specs.
Definition compile_pruned_views (specs : list RelationSpec) (lineage : LineageChain) (d : disk)
    (relation_ranges : gmap string (option string * option string)) : result views :=
  foldr_m (define_views true (λ sp,
    let '(lo, hi) := default (None, None) (relation_ranges !! sp_name sp) in
    raw_rows (prune_parts d lineage (sp_name sp) lo hi))) no_views (masks_last specs).

(** [str.zfill] on a string without a sign. *)
Fixpoint zeros (n : nat) : string := match n with O => "" | S n => String "0" (zeros n) end.
Definition zfill (width : nat) (s : string) : string := zeros (width - String.length s) +:+ s.
Definition derive_accession_range (cik : string) : string * string :=
  let padded := zfill 10 cik in (padded +:+ "-00-000000", padded +:+ "-99-999999").

Definition query_point (sp : RelationSpec) (lineage : LineageChain) (d : disk) (key_value : string)
    (key_column : option string) (all_specs : option (list RelationSpec)) : result (list row) :=
  let c := if filled key_column then default "" key_column
           else if filled (entity_key sp) then default "" (entity_key sp)
           else default "" (head (primary_key sp)) in
  let '(lo, hi) :=
    if String.eqb c "filing_cik" && bool_decide ("accession" ∈ schema sp) then derive_accession_range key_value
    else (key_value, key_value) in
  let target_specs := default [sp] all_specs in
  v ← compile_pruned_views target_specs lineage d (list_to_map ((λ s, (sp_name s, (Some lo, Some hi))) <$> target_specs));
  rows ← require (active v !! sp_name sp) CatalogException;
  Ok (filter (λ r, col r c = CText key_value) rows).

(** ** Winners of a partition *)

Context (arrange_Permutation : ∀ l, arrange l ≡ₚ l).

Lemma best_Some {A} (better : A → A → bool) l x : best better l = Some x → x ∈ l.
Proof.
  revert x. induction l as [|y l IH]; intros x; simpl; [done|].
  destruct (best better l) as [z|]; [|intros [= <-]; left].
  destruct (better z y); intros [= <-]; [right; by apply IH|left].
Qed.
Lemma best_None {A} (better : A → A → bool) l : best better l = None → l = [].
Proof. destruct l as [|y l]; [done|]. simpl. destruct (best better l) as [z|]; [by destruct (better z y)|done]. Qed.

(** A strict order in which what is not beaten by one that is not beaten is not beaten. *)
Class WeakOrder {A} (better : A → A → bool) : Prop := {
  better_asym x y : better x y = true → better y x = false;
  better_neg_trans x y z : better x y = false → better y z = false → better x z = false;
}.
#[export] Instance later_order : WeakOrder later.
Proof. unfold later. split; intros *; rewrite ?Nat.ltb_lt, ?Nat.ltb_ge; lia. Qed.
#[export] Instance earlier_order : WeakOrder (λ x y : ranked_row, (x.1 <? y.1)%nat).
Proof. split; intros *; rewrite ?Nat.ltb_lt, ?Nat.ltb_ge; lia. Qed.

Lemma best_unbeaten {A} (better : A → A → bool) `{!WeakOrder better} l x y :
  best better l = Some x → y ∈ l → better y x = false.
Proof.
  assert (∀ z, better z z = false) as Hirr.
  { intros z. destruct (better z z) eqn:E; [|done]. by rewrite (better_asym z z) in E. }
  revert x. induction l as [|z l IH]; intros x; simpl; [intros _ H; inversion H|].
  destruct (best better l) as [w|] eqn:Hw.
  - destruct (better w z) eqn:E; intros [= <-] [->|Hy]%elem_of_cons; auto using better_asym.
    by apply (better_neg_trans y w z); auto.
  - apply best_None in Hw as ->. intros [= <-] [->|Hy]%elem_of_cons; [done|inversion Hy].
Qed.
(** The best is the same in any order of the rows when no two tie. *)
Lemma best_Permutation {A} (better : A → A → bool) `{!WeakOrder better} l k :
  l ≡ₚ k → (∀ x y, x ∈ l → y ∈ l → better x y = false → better y x = false → x = y) →
  best better l = best better k.
Proof.
  intros Hlk Hties. destruct (best better l) as [x|] eqn:Hx, (best better k) as [y|] eqn:Hy.
  - f_equal. pose proof (best_Some _ _ _ Hx) as Hxl. pose proof (best_Some _ _ _ Hy) as Hyk. apply Hties; [done|by rewrite Hlk| |].
    + apply (best_unbeaten better k); [done|by rewrite <- Hlk].
    + apply (best_unbeaten better l); [done|by rewrite Hlk].
  - apply best_None in Hy as ->. symmetry in Hlk. by apply Permutation_nil in Hlk as ->.
  - apply best_None in Hx as ->. by apply Permutation_nil in Hlk as ->.
  - done.
Qed.

Lemma winners_keys better cols rows :
  (λ x, key cols x.2) <$> winners better cols rows = remove_dups ((λ x, key cols x.2) <$> arrange rows).
Proof.
  unfold winners. rewrite list_fmap_omap.
  assert (∀ ks : list (list cell), omap (M := list) (λ k, Some (id k)) ks = ks) as Hid.
  { intros ks. by rewrite <- list_fmap_alt, list_fmap_id. }
  rewrite <- Hid. apply list_omap_ext, Forall2_same_length_lookup_2; [done|].
  intros i k k' Hk Hk'. simplify_eq. apply list_elem_of_lookup_2 in Hk.
  rewrite elem_of_remove_dups, list_elem_of_fmap in Hk. destruct Hk as (x & -> & Hx).
  destruct (best better _) as [w|] eqn:Hw; simpl.
  - apply best_Some, list_elem_of_filter in Hw as [-> _]. done.
  - apply best_None in Hw. assert (x ∈ filter (λ y, key cols y.2 = key cols x.2) (arrange rows)) as Hin
      by (by apply list_elem_of_filter). rewrite Hw in Hin. inversion Hin.
Qed.
Lemma winners_NoDup better cols rows : NoDup ((λ x, key cols x.2) <$> winners better cols rows).
Proof. rewrite winners_keys. apply NoDup_remove_dups. Qed.
Lemma elem_of_winners better cols rows x :
  x ∈ winners better cols rows ↔ best better (filter (λ y, key cols y.2 = key cols x.2) (arrange rows)) = Some x.
Proof.
  unfold winners. rewrite list_elem_of_omap. split.
  - intros (k & _ & Hb). pose proof (best_Some _ _ _ Hb) as [<- _]%list_elem_of_filter. done.
  - intros Hb. exists (key cols x.2). split; [|done]. apply elem_of_remove_dups, list_elem_of_fmap.
    exists x. split; [done|]. by apply best_Some, list_elem_of_filter in Hb as [_ ?].
Qed.
Lemma winners_subset better cols rows x : x ∈ winners better cols rows → x ∈ rows.
Proof using arrange_Permutation.
  intros Hx%elem_of_winners. apply best_Some, list_elem_of_filter in Hx as [_ Hx]. by rewrite arrange_Permutation in Hx.
Qed.
Lemma winners_cover better cols rows x :
  x ∈ rows → ∃ w, w ∈ winners better cols rows ∧ key cols w.2 = key cols x.2.
Proof using arrange_Permutation.
  intros Hx. assert (key cols x.2 ∈ (λ x, key cols x.2) <$> winners better cols rows) as Hk.
  { rewrite winners_keys, elem_of_remove_dups, arrange_Permutation. by apply (list_elem_of_fmap_2 (λ x, key cols x.2)). }
  apply list_elem_of_fmap in Hk as (w & Hw & Hin). eauto.
Qed.
Lemma winners_unbeaten better `{!WeakOrder better} cols rows x y :
  x ∈ winners better cols rows → y ∈ rows → key cols y.2 = key cols x.2 → better y x = false.
Proof using arrange_Permutation.
  intros Hx%elem_of_winners Hy Hk. apply (best_unbeaten better _ _ _ Hx), list_elem_of_filter. by rewrite arrange_Permutation.
Qed.

(** Where the keys are distinct already, everything wins. *)
Lemma winners_all better cols rows :
  NoDup ((λ x, key cols x.2) <$> rows) → winners better cols rows ≡ₚ rows.
Proof using arrange_Permutation.
  intros Hnd. apply NoDup_Permutation.
  - eapply NoDup_fmap_1, winners_NoDup.
  - by eapply NoDup_fmap_1.
  - intros x. split; [apply winners_subset|]. intros Hx.
    destruct (winners_cover better cols rows x Hx) as (w & Hw & Hk). pose proof (winners_subset _ _ _ _ Hw) as Hin.
    apply list_elem_of_lookup in Hx as [i Hi], Hin as [j Hj].
    assert (i = j) as <-; [|by simplify_eq]. eapply NoDup_lookup; [exact Hnd|by rewrite list_lookup_fmap, Hi|].
    rewrite list_lookup_fmap, Hj. simpl. by rewrite Hk.
Qed.

(** A selection by a key column commutes with choosing the winners. *)
Definition no_ties (better : ranked_row → ranked_row → bool) (cols : list string) (rows : list ranked_row) : Prop :=
  ∀ x y, x ∈ rows → y ∈ rows → key cols x.2 = key cols y.2 → better x y = false → better y x = false → x = y.
Lemma winners_select better `{!WeakOrder better} cols c v rows rows' :
  c ∈ cols → no_ties better cols rows → no_ties better cols rows' →
  filter (λ x, col x.2 c = v) rows ≡ₚ filter (λ x, col x.2 c = v) rows' →
  filter (λ x, col x.2 c = v) (winners better cols rows) ≡ₚ filter (λ x, col x.2 c = v) (winners better cols rows').
Proof using arrange_Permutation.
  intros Hc Ht Ht' Hsame. assert (∀ r, NoDup (filter (λ x, col x.2 c = v) (winners better cols r))) as Hnd.
  { intros r. apply NoDup_filter. eapply NoDup_fmap_1, winners_NoDup. }
  assert (∀ r r' x, no_ties better cols r →
    filter (λ x, col x.2 c = v) r ≡ₚ filter (λ x, col x.2 c = v) r' → col x.2 c = v →
    x ∈ winners better cols r → x ∈ winners better cols r') as Hdir.
  { intros r r' x Hr Hrr Hx Hw. apply elem_of_winners in Hw. apply elem_of_winners. rewrite <- Hw. symmetry.
    apply best_Permutation; [done| |].
    - rewrite !arrange_Permutation.
      assert (∀ s : list ranked_row, filter (λ y, key cols y.2 = key cols x.2) s
        = filter (λ y, key cols y.2 = key cols x.2) (filter (λ y, col y.2 c = v) s)) as Hsub.
      { intros s. rewrite list_filter_filter_l; [done|]. intros y Hy. rewrite <- Hx.
        apply list_elem_of_lookup in Hc as [i Hi]. assert ((key cols y.2) !! i = (key cols x.2) !! i) as E by (by rewrite Hy).
        unfold key in E. rewrite !list_lookup_fmap, Hi in E. by injection E. }
      rewrite (Hsub r), (Hsub r'). by rewrite Hrr.
    - intros y z [Hy Hy']%list_elem_of_filter [Hz Hz']%list_elem_of_filter.
      rewrite arrange_Permutation in Hy', Hz'. apply Hr; [done..|congruence]. }
  apply NoDup_Permutation; [done..|]. intros x. rewrite !list_elem_of_filter. split; intros [Hx Hw]; split; eauto.
  by eapply (Hdir rows').
Qed.

(** ** What the loops define *)

(** The active rows that [sp]'s raw view stands for, next to the other raw views. *)
Definition stands_for (raws : gmap string (option (list ranked_row))) (sp : RelationSpec)
    (own : option (list ranked_row)) (rows : list row) : Prop :=
  match own with
  | None => rows = []
  | Some own =>
      match strategy sp with
      | Upsert => rows = upsert_view sp own
      | Append => rows = append_view sp own
      | ScopedMask => ∃ parents, raws !! default "" (parent_relation sp) = Some (Some parents) ∧ rows = mask_view sp parents own
      end
  end.
Definition defined_as (v : views) (raw_of : RelationSpec → option (list ranked_row)) (sp : RelationSpec) : Prop :=
  raw v !! sp_name sp = Some (raw_of sp) ∧
  ∃ rows, active v !! sp_name sp = Some rows ∧ stands_for (raw v) sp (raw_of sp) rows.

Lemma define_views_Ok b raw_of v sp v' :
  define_views b raw_of v sp = Ok v' →
  (b = false → raw v !! sp_name sp = None) ∧
  raw v' = <[sp_name sp := raw_of sp]> (raw v) ∧
  ∃ rows, active v' = <[sp_name sp := rows]> (active v) ∧ stands_for (raw v') sp (raw_of sp) rows.
Proof.
  unfold define_views. intros H. apply bind_Ok in H as ([] & Hf%raise_if_Ok & H).
  split. { intros ->. simpl in Hf. apply bool_decide_eq_false in Hf. by apply eq_None_not_Some. }
  unfold stands_for. destruct (raw_of sp) as [own|]; [|injection H as <-; simpl; eauto].
  destruct (strategy sp); [injection H as <-; simpl; eauto..|].
  destruct (_ !! default "" (parent_relation sp)) as [[parents|]|] eqn:Hp; try done. injection H as <-. simpl. eauto 10.
Qed.

Lemma define_loop b raw_of l v v' :
  foldr_m (define_views b raw_of) v l = Ok v' → NoDup (sp_name <$> l) →
  (∀ sp, sp ∈ l → raw v !! sp_name sp = None) →
  (∀ name r, raw v !! name = Some r → raw v' !! name = Some r) ∧
  (∀ name, name ∉ sp_name <$> l → active v' !! name = active v !! name) ∧
  (∀ name r, raw v' !! name = Some r → raw v !! name = Some r ∨ ∃ sp, sp ∈ l ∧ sp_name sp = name ∧ r = raw_of sp) ∧
  ∀ sp, sp ∈ l → defined_as v' raw_of sp.
Proof.
  revert v. induction l as [|sp l IH]; simpl; intros v H Hnd Hfresh.
  { injection H as <-. split_and!; [done..|auto|]. intros sp Hsp. inversion Hsp. }
  apply bind_Ok in H as (v1 & Hdef & Hloop). apply define_views_Ok in Hdef as (_ & Hraw & rows & Hact & Hst).
  apply NoDup_cons in Hnd as [Hnew Hnd].
  assert (raw v !! sp_name sp = None) as Hsp by (apply Hfresh; left).
  destruct (IH v1 Hloop Hnd) as (Hkeep & Hother & Hback & Hdefs).
  { intros s Hs. rewrite Hraw, lookup_insert_ne; [apply Hfresh; by right|].
    intros E. apply Hnew. rewrite E. by apply list_elem_of_fmap_2. }
  split_and!.
  - intros name r Hr. apply Hkeep. rewrite Hraw, lookup_insert_ne; [done|congruence].
  - intros name [Hn Hl]%not_elem_of_cons. rewrite Hother by done. by rewrite Hact, lookup_insert_ne.
  - intros name r Hr. apply Hback in Hr as [Hr|(s & Hs & Hn & ->)].
    + rewrite Hraw in Hr. apply lookup_insert_Some in Hr as [[<- <-]|[_ Hr]]; [right|by left].
      exists sp. split_and!; [left|done..].
    + right. exists s. split_and!; [by right|done..].
  - intros s [->|Hs]%elem_of_cons; [|by apply Hdefs]. split.
    + apply Hkeep. by rewrite Hraw, lookup_insert_eq.
    + exists rows. split; [by rewrite Hother, Hact, lookup_insert_eq|].
      unfold stands_for in *. destruct (raw_of sp); [|done]. destruct (strategy sp); [done..|].
      destruct Hst as (parents & Hp & ->). exists parents. split; [by apply Hkeep|done].
Qed.

Lemma define_names raw_of l v v' :
  foldr_m (define_views false raw_of) v l = Ok v' →
  NoDup (sp_name <$> l) ∧ ∀ sp, sp ∈ l → raw v !! sp_name sp = None.
Proof.
  revert v. induction l as [|sp l IH]; simpl; intros v H; [split; [constructor|intros s Hs; inversion Hs]|].
  apply bind_Ok in H as (v1 & Hdef & Hloop). apply define_views_Ok in Hdef as (Hf & Hraw & _).
  destruct (IH v1 Hloop) as [Hnd Hfresh]. rewrite Hraw in Hfresh. split.
  - apply NoDup_cons. split; [|done]. intros (s & Hs & Hin)%list_elem_of_fmap.
    specialize (Hfresh s Hin). by rewrite <- Hs, lookup_insert_eq in Hfresh.
  - intros s [->|Hs]%elem_of_cons; [by apply Hf|]. specialize (Hfresh s Hs).
    by apply lookup_insert_None in Hfresh as [? _].
Qed.

(** ** Rows of a lineage *)

(** Snapshot [rank] of the lineage has row [r] in a part of the relation that is on disk. *)
Definition row_at (lineage : LineageChain) (d : disk) (keep : PartDescriptor → bool) (name : string)
    (rank : nat) (r : row) : Prop :=
  ∃ file, (rank, file) ∈ lineage_files d keep name (chain_nodes lineage) ∧ r ∈ read_parquet file.

Lemma raw_rows_Some files rows rank r :
  raw_rows files = Some rows → (rank, r) ∈ rows ↔ ∃ file, (rank, file) ∈ files ∧ r ∈ read_parquet file.
Proof.
  intros H. assert (rows = files ≫= λ f, (λ r, (f.1, r)) <$> read_parquet f.2) as ->
    by (destruct files; [done|by injection H]). rewrite list_elem_of_bind. split.
  - intros ([k file] & (x & [= -> ->] & Hr)%list_elem_of_fmap & Hf). eauto.
  - intros (file & Hf & Hr). exists (rank, file). split; [|done]. apply list_elem_of_fmap. eauto.
Qed.
Lemma raw_rows_None files : raw_rows files = None → files = [].
Proof. by destruct files. Qed.

Lemma compile_virtual_Ok specs lineage d v :
  compile_virtual_views specs lineage d = Ok v →
  NoDup (sp_name <$> specs) ∧
  (∀ sp, sp ∈ specs → defined_as v (λ sp, raw_rows (lineage_files d (λ _, true) (sp_name sp) (chain_nodes lineage))) sp) ∧
  (∀ name r, raw v !! name = Some r → ∃ sp, sp ∈ specs ∧ sp_name sp = name ∧
     r = raw_rows (lineage_files d (λ _, true) name (chain_nodes lineage))).
Proof.
  unfold compile_virtual_views, views_of. intros (ordered & Ho & Hloop)%bind_Ok.
  pose proof (ordered_from_spec (length specs) [] specs (le_n _)) as Hspec.
  unfold _ordered_specs in Ho. rewrite Ho in Hspec. destruct Hspec as [Hperm _].
  destruct (define_names _ _ _ _ Hloop) as [Hnd Hfresh].
  destruct (define_loop _ _ _ _ _ Hloop Hnd Hfresh) as (_ & _ & Hback & Hdef).
  split; [by rewrite <- Hperm|]. split.
  - intros sp Hsp. apply Hdef. by rewrite Hperm.
  - intros name r [Hr|(sp & Hsp & <- & ->)]%Hback; [unfold no_views in Hr; simpl in Hr; by rewrite lookup_empty in Hr|].
    exists sp. by rewrite <- Hperm.
Qed.

Lemma elem_of_snd_winners better cols rows r :
  r ∈ snd <$> winners better cols rows → ∃ rank, (rank, r) ∈ winners better cols rows.
Proof. intros ([rank r'] & -> & Hx)%list_elem_of_fmap. eauto. Qed.

Abbreviation all_parts := (λ _ : PartDescriptor, true).

(** The active view of an upsert relation is what the last writers left: one row per
    primary key of the lineage, and it is a row of the last snapshot that has the key. *)
Theorem upsert_keeps_last specs lineage d v sp :
  compile_virtual_views specs lineage d = Ok v → sp ∈ specs → strategy sp = Upsert →
  ∃ rows, active v !! sp_name sp = Some rows ∧ NoDup (key (primary_key sp) <$> rows) ∧
    (∀ r, r ∈ rows → ∃ rank, row_at lineage d all_parts (sp_name sp) rank r ∧
       ∀ rank' r', row_at lineage d all_parts (sp_name sp) rank' r' →
         key (primary_key sp) r' = key (primary_key sp) r → rank' ≤ rank) ∧
    (∀ rank r, row_at lineage d all_parts (sp_name sp) rank r →
       ∃ r', r' ∈ rows ∧ key (primary_key sp) r' = key (primary_key sp) r).
Proof using arrange_Permutation.
  intros (_ & Hdef & _)%compile_virtual_Ok Hsp Hst. destruct (Hdef sp Hsp) as (_ & rows & Hact & Hrows).
  exists rows. split; [done|]. unfold stands_for in Hrows. destruct (raw_rows _) as [own|] eqn:Hraw.
  - rewrite Hst in Hrows. subst rows. unfold upsert_view. split; [|split].
    + rewrite <- list_fmap_compose. apply winners_NoDup.
    + intros r (rank & Hr)%elem_of_snd_winners. exists rank. split.
      * apply (raw_rows_Some _ _ _ _ Hraw). by eapply winners_subset.
      * intros rank' r' Hr' Hk. apply (raw_rows_Some _ _ _ _ Hraw) in Hr'.
        pose proof (winners_unbeaten later _ _ (rank, r) (rank', r') Hr Hr' Hk) as Hb.
        apply Nat.ltb_ge in Hb. done.
    + intros rank r Hr. apply (raw_rows_Some _ _ _ _ Hraw) in Hr.
      destruct (winners_cover later (primary_key sp) own (rank, r) Hr) as ([k r'] & Hw & Hk).
      exists r'. split; [|done]. apply list_elem_of_fmap. by exists (k, r').
  - subst rows. apply raw_rows_None in Hraw. split; [constructor|]. split; [intros r Hr; inversion Hr|].
    intros rank r (file & Hf & _). rewrite Hraw in Hf. inversion Hf.
Qed.

Lemma join_eq_true cols c p :
  join_eq cols c p = true ↔ key cols c = key cols p ∧ ∀ k, k ∈ cols → col c k ≠ CNull.
Proof.
  unfold join_eq, key. rewrite forallb_forall. setoid_rewrite <- list_elem_of_In. setoid_rewrite andb_true_iff.
  setoid_rewrite negb_true_iff. setoid_rewrite bool_decide_eq_true. split.
  - intros H. split; [|intros k Hk E; destruct (H k Hk) as [Hn _]; by rewrite E in Hn].
    apply list_fmap_ext. intros i k Hk. apply H. by eapply list_elem_of_lookup_2.
  - intros [He Hn] k Hk. split; [by specialize (Hn k Hk); destruct (col c k)|].
    apply list_elem_of_lookup in Hk as [i Hi]. assert ((col c <$> cols) !! i = (col p <$> cols) !! i) as E by (by rewrite He).
    rewrite !list_lookup_fmap, Hi in E. by injection E.
Qed.

(** A row of a scoped relation is active exactly when its join key is not NULL and its own
    snapshot is the last in the lineage to hold a parent row with that key: a rewritten
    parent takes all its earlier rows with it. *)
Theorem masked_rows_follow_parent specs lineage d v sp parent :
  compile_virtual_views specs lineage d = Ok v → sp ∈ specs → strategy sp = ScopedMask →
  parent_relation sp = Some parent →
  ∃ rows, active v !! sp_name sp = Some rows ∧ ∀ r, r ∈ rows ↔ ∃ rank,
    row_at lineage d all_parts (sp_name sp) rank r ∧ (∀ k, k ∈ join_key sp → col r k ≠ CNull) ∧
    (∃ p, row_at lineage d all_parts parent rank p ∧ key (join_key sp) p = key (join_key sp) r) ∧
    ∀ rank' p, row_at lineage d all_parts parent rank' p → key (join_key sp) p = key (join_key sp) r → rank' ≤ rank.
Proof using arrange_Permutation.
  intros (_ & Hdef & Hback)%compile_virtual_Ok Hsp Hst Hpar. destruct (Hdef sp Hsp) as (_ & rows & Hact & Hrows).
  exists rows. split; [done|]. unfold stands_for in Hrows. destruct (raw_rows _) as [own|] eqn:Hraw.
  - rewrite Hst, Hpar in Hrows. destruct Hrows as (parents & Hp & ->). simpl in Hp.
    apply Hback in Hp as (_ & _ & _ & Hp). symmetry in Hp. intros r. unfold mask_view. rewrite list_elem_of_bind. split.
    + intros ([rank c] & ([k p] & -> & [Hj Hw]%list_elem_of_filter)%list_elem_of_fmap & Hin). simpl in *.
      apply andb_true_iff in Hj as [[Hk Hn]%join_eq_true ->%Nat.eqb_eq]. exists k. split_and!; [|done| |].
      * by apply (raw_rows_Some _ _ _ _ Hraw).
      * exists p. split; [|done]. apply (raw_rows_Some _ _ _ _ Hp). by eapply winners_subset.
      * intros rank' p' Hp' Hk'. apply (raw_rows_Some _ _ _ _ Hp) in Hp'.
        pose proof (winners_unbeaten later _ _ (k, p) (rank', p') Hw Hp') as Hb.
        apply Nat.ltb_ge, Hb. simpl. congruence.
    + intros (rank & Hr & Hn & (p & Hpr & Hk) & Hlast). apply (raw_rows_Some _ _ _ _ Hraw) in Hr.
      exists (rank, r). split; [|done]. apply (raw_rows_Some _ _ _ _ Hp) in Hpr as Hin.
      destruct (winners_cover later (join_key sp) parents (rank, p) Hin) as ([k p'] & Hw & Hk'). simpl in Hk'.
      assert (k = rank) as ->.
      { apply Nat.le_antisymm.
        - apply (Hlast k p'); [|congruence]. apply (raw_rows_Some _ _ _ _ Hp). by eapply winners_subset.
        - pose proof (winners_unbeaten later _ _ (k, p') (rank, p) Hw Hin (eq_sym Hk')) as Hb. by apply Nat.ltb_ge in Hb. }
      apply list_elem_of_fmap. exists (rank, p'). split; [done|]. apply list_elem_of_filter. split; [|done]. simpl.
      rewrite Nat.eqb_refl, andb_true_r. apply join_eq_true. split; [congruence|done].
  - subst rows. apply raw_rows_None in Hraw. intros r. split; [intros Hr; inversion Hr|].
    intros (rank & (file & Hf & _) & _). rewrite Hraw in Hf. inversion Hf.
Qed.
End views.

(** ** Examples *)

Definition accessions_spec : RelationSpec :=
  mkSpec "accessions" ["accession"; "form"] ["accession"] Upsert ["form"; "accession"] None None None TieMin None (Some "accession").
Definition entries_spec : RelationSpec :=
  mkSpec "entries" ["entry_id"; "accession"] ["entry_id"] ScopedMask ["accession"] (Some "accessions") (Some ["accession"])
    None TieMin None (Some "accession").
Definition demo_row (l : list (string * string)) : row := list_to_map ((λ kv, (kv.1, CText kv.2)) <$> l).
Definition accession_row (a form : string) : row := demo_row [("accession", a); ("form", form)].
Definition entry_row (id a : string) : row := demo_row [("entry_id", id); ("accession", a)].

(** Two snapshots; the second rewrites accession A2 and its entries. *)
Definition demo_nodes : list DAGNodeManifest :=
  [mkManifest "s1" "checkpoint" [] "s1" 0 "" [("accessions", [mkPart "acc" "" 2 1 (Some "A1") (Some "A2")]);
     ("entries", [mkPart "ent" "" 2 1 (Some "A1") (Some "A9")])] "" [] [];
   mkManifest "s2" "delta" [mkParentRef "s1" ""] "s1" 1 "" [("accessions", [mkPart "acc" "" 1 1 (Some "A2") (Some "A2")]);
     ("entries", [mkPart "ent" "" 1 1 (Some "A2") (Some "A2")])] "" [] []].
Definition demo_lineage : LineageChain := mkChain "s2" "s1" demo_nodes.
Definition demo_parquet (file : list string) : list row :=
  match file with
  | ["data"; "s1"; "acc"] => [accession_row "A1" "10-K"; accession_row "A2" "10-K"]
  | ["data"; "s1"; "ent"] => [entry_row "e1" "A1"; entry_row "e2" "A2"]
  | ["data"; "s2"; "acc"] => [accession_row "A2" "10-K/A"]
  | ["data"; "s2"; "ent"] => [entry_row "e3" "A2"]
  | _ => []
  end.
Definition parts_disk : disk :=
  mkDisk ∅ (list_to_set [["data"; "s1"; "acc"]; ["data"; "s1"; "ent"]; ["data"; "s2"; "acc"]; ["data"; "s2"; "ent"]]).
Definition demo_views : result views :=
  compile_virtual_views (λ l, l) ["data"] demo_parquet [entries_spec; accessions_spec] demo_lineage parts_disk.
Definition demo_view (name : string) : list row :=
  match demo_views with Ok v => default [] (active v !! name) | Err _ => [] end.

Example demo_active : bool_decide (demo_view "accessions" = [accession_row "A1" "10-K"; accession_row "A2" "10-K/A"]
  ∧ demo_view "entries" = [entry_row "e1" "A1"; entry_row "e3" "A2"]) = true.
Proof. vm_compute. reflexivity. Qed.

Lemma id_Permutation : ∀ l : list ranked_row, l ≡ₚ l.
Proof. reflexivity. Qed.
Definition demo_v : views := Eval vm_compute in match demo_views with Ok v => v | Err _ => no_views end.
Lemma demo_views_Ok : demo_views = Ok demo_v.
Proof. vm_compute. reflexivity. Qed.

Lemma upsert_keeps_last_witness : ∃ rows, active demo_v !! "accessions" = Some rows ∧ NoDup (key ["accession"] <$> rows).
Proof.
  destruct (upsert_keeps_last (λ l, l) ["data"] demo_parquet id_Permutation _ _ _ _ accessions_spec demo_views_Ok)
    as (rows & H1 & H2 & _); [right; left|reflexivity|]. exists rows. split; [exact H1|exact H2].
Defined.
Lemma masked_rows_follow_parent_witness : ∃ rows,
  active demo_v !! "entries" = Some rows ∧ ∀ r, r ∈ rows → col r "accession" ≠ CNull.
Proof.
  destruct (masked_rows_follow_parent (λ l, l) ["data"] demo_parquet id_Permutation _ _ _ _ entries_spec "accessions" demo_views_Ok)
    as (rows & H1 & H2); [left|reflexivity|reflexivity|].
  exists rows. split; [exact H1|]. intros r Hr. apply H2 in Hr as (rank & _ & Hn & _). apply Hn. left.
Defined.
Lemma ordered_specs_parents_first_witness :
  _ordered_specs [entries_spec; accessions_spec] = Ok [accessions_spec; entries_spec] ∧
  [accessions_spec; entries_spec] ≡ₚ [entries_spec; accessions_spec].
Proof.
  assert (_ordered_specs [entries_spec; accessions_spec] = Ok [accessions_spec; entries_spec]) as E by reflexivity.
  pose proof (ordered_specs_parents_first [entries_spec; accessions_spec]) as H. rewrite E in H.
  split; [exact E|exact (proj1 H)].
Defined.
