(* ===== verification/PointQuery.v ===== *)
(** * Point queries over pruned parts: [infra/storage/dag/query.py]

    A query by key reads only the parts whose recorded bounds overlap the key.  When the key
    is part of the primary key and the bounds are true of the rows, the answer is that of the
    full view.  When pruning leaves a scoped relation some part and its parent none, the view
    of the scoped relation does not compile and the query raises. *)
From Stdlib Require Import Ascii.
From S2P Require Import Prelude PyJson SnapshotCatalog SnapshotLineage Retention Doctor Relations.

Section pruning.
Context (arrange : list ranked_row → list ranked_row) (arrange_Permutation : ∀ l, arrange l ≡ₚ l).
Context (root : list string) (read_parquet : list string → list row).

Abbreviation file_of d m p := (resolve (resolve_part root d (snapshot_id m) (path p))).

(** What [read_parquet_key_bounds] recorded for column [c]: no text below or above. *)
Definition bounds_hold (d : disk) (nodes : list DAGNodeManifest) (name c : string) : Prop :=
  ∀ m p r t, m ∈ nodes → p ∈ default [] (assoc name (relations m)) → r ∈ read_parquet (file_of d m p) →
    col r c = CText t →
    (∀ b, key_max p = Some b → String.le t b) ∧ (∀ b, key_min p = Some b → String.le b t).
(** A snapshot has one row per primary key. *)
Definition keys_unique (lineage : LineageChain) (d : disk) (sp : RelationSpec) : Prop :=
  ∀ rank r r', row_at root read_parquet lineage d (λ _, true) (sp_name sp) rank r →
    row_at root read_parquet lineage d (λ _, true) (sp_name sp) rank r' →
    key (primary_key sp) r = key (primary_key sp) r' → r = r'.

Lemma overlaps_text lo hi t p :
  String.le lo t → String.le t hi →
  (∀ b, key_max p = Some b → String.le t b) → (∀ b, key_min p = Some b → String.le b t) →
  overlaps (Some lo) (Some hi) p = true.
Proof.
  intros H1 H2 Hmax Hmin. unfold overlaps. apply andb_true_iff. split; apply negb_true_iff.
  - destruct (key_max p) as [b|]; [|done]. apply bool_decide_eq_false. intros H. apply H.
    etrans; [exact H1|by apply Hmax].
  - destruct (key_min p) as [b|]; [|done]. apply bool_decide_eq_false. intros H. apply H.
    etrans; [by apply Hmin|exact H2].
Qed.

Definition file_rows (files : list (nat * list string)) : list ranked_row :=
  files ≫= λ f, (λ r, (f.1, r)) <$> read_parquet f.2.
Lemma raw_rows_file_rows files : default [] (raw_rows read_parquet files) = file_rows files.
Proof. by destruct files. Qed.

(** Pruning drops only parts without a matching row. *)
Lemma part_files_select d name c v keep i m :
  (∀ p, p ∈ default [] (assoc name (relations m)) → keep p = false →
     ∀ r, r ∈ read_parquet (file_of d m p) → col r c ≠ v) →
  filter (λ x, col x.2 c = v) (file_rows (part_files root d keep name (i, m))) =
  filter (λ x, col x.2 c = v) (file_rows (part_files root d (λ _, true) name (i, m))).
Proof.
  unfold part_files, file_rows. generalize (default [] (assoc name (relations m))) as ps.
  induction ps as [|p ps IH]; intros Hp; [done|].
  rewrite !(filter_cons _ p). destruct (is_file d (resolve_part root d (snapshot_id m) (path p))) eqn:Hf.
  - rewrite (decide_True _ _ (eq_refl : (true && true = true))).
    destruct (keep p) eqn:Hk.
    + rewrite decide_True by done. rewrite !fmap_cons. csimpl. rewrite !filter_app. f_equal.
      apply IH. intros q Hq. apply Hp. by right.
    + rewrite decide_False by done. rewrite fmap_cons. csimpl. rewrite filter_app.
      rewrite (list_filter_none _ ((λ r, (i, r)) <$> _)).
      * apply IH. intros q Hq. apply Hp. by right.
      * intros x (r & -> & Hr)%list_elem_of_fmap. simpl. apply (Hp p); [by left|done|done].
  - rewrite !andb_false_r, !decide_False by done. apply IH. intros q Hq. apply Hp. by right.
Qed.

Lemma file_rows_app l k : file_rows (l ++ k) = file_rows l ++ file_rows k.
Proof. apply bind_app. Qed.
Lemma lineage_files_select d name c v keep nodes :
  (∀ m p, m ∈ nodes → p ∈ default [] (assoc name (relations m)) → keep p = false →
     ∀ r, r ∈ read_parquet (file_of d m p) → col r c ≠ v) →
  filter (λ x, col x.2 c = v) (file_rows (lineage_files root d keep name nodes)) =
  filter (λ x, col x.2 c = v) (file_rows (lineage_files root d (λ _, true) name nodes)).
Proof.
  unfold lineage_files. intros Hp. assert (∀ m, m ∈ (imap (λ i m, (i, m)) nodes).*2 → m ∈ nodes) as Hin.
  { intros m ([i m'] & -> & (j & x & [= -> ->] & Hx)%elem_of_lookup_imap)%list_elem_of_fmap.
    by eapply list_elem_of_lookup_2. }
  revert Hin. generalize (imap (λ i m, (i, m)) nodes) as l. induction l as [|[i m] l IH]; intros Hin; [done|].
  rewrite !bind_cons, !file_rows_app, !filter_app. f_equal.
  - apply part_files_select. intros p. apply Hp, Hin. left.
  - apply IH. intros m' Hm'. apply Hin. by right.
Qed.

(** The pruned views of distinctly named relations. *)
Lemma compile_pruned_Ok specs lineage d ranges v sp :
  compile_pruned_views arrange root read_parquet specs lineage d ranges = Ok v →
  NoDup (sp_name <$> specs) → sp ∈ specs →
  defined_as arrange v (λ sp, let '(lo, hi) := default (None, None) (ranges !! sp_name sp) in
    raw_rows read_parquet (prune_parts root d lineage (sp_name sp) lo hi)) sp.
Proof.
  intros Hv Hnd Hsp. assert (masks_last specs ≡ₚ specs) as Hperm.
  { unfold masks_last. clear. induction specs as [|s l IH]; [done|]. rewrite !filter_cons.
    destruct (decide (strategy s = ScopedMask)) as [E|E].
    - rewrite decide_False by (intros H; by apply H). by rewrite <- Permutation_middle, IH.
    - rewrite decide_True by done. simpl. by rewrite IH. }
  apply define_loop in Hv as (_ & _ & _ & Hdef); [apply Hdef; by rewrite Hperm|by rewrite Hperm|].
  intros s _. apply lookup_empty.
Qed.

Lemma upsert_ties sp rows :
  (∀ k r r', (k, r) ∈ rows → (k, r') ∈ rows → key (primary_key sp) r = key (primary_key sp) r' → r = r') →
  no_ties later (primary_key sp) rows.
Proof.
  intros H [i r] [j r'] Hx Hy Hk H1 H2. apply Nat.ltb_ge in H1, H2. simpl in *. assert (i = j) as <- by lia.
  f_equal. by apply (H i).
Qed.

Lemma upsert_view_nil sp : upsert_view arrange sp [] = [].
Proof using arrange_Permutation.
  unfold upsert_view, winners. pose proof (arrange_Permutation []) as H. symmetry in H.
  apply Permutation_nil in H. by rewrite H.
Qed.
Lemma elem_of_file_rows files k r :
  (k, r) ∈ file_rows files ↔ ∃ file, (k, file) ∈ files ∧ r ∈ read_parquet file.
Proof.
  unfold file_rows. rewrite list_elem_of_bind. setoid_rewrite list_elem_of_fmap. split.
  - intros ([k' file] & (r' & [= -> ->] & Hr) & Hf). eauto.
  - intros (file & Hf & Hr). exists (k, file). eauto.
Qed.
Lemma file_rows_pruned d lineage name keep x :
  x ∈ file_rows (lineage_files root d keep name (chain_nodes lineage)) →
  x ∈ file_rows (lineage_files root d (λ _, true) name (chain_nodes lineage)).
Proof.
  destruct x as [k r]. rewrite !elem_of_file_rows. intros (file & Hf & Hr). exists file. split; [|done].
  unfold lineage_files in *. apply list_elem_of_bind in Hf as ([i m] & Hf & Him). apply list_elem_of_bind.
  exists (i, m). split; [|done]. unfold part_files in *. apply list_elem_of_fmap in Hf as (p & -> & [Hk Hp]%list_elem_of_filter).
  apply list_elem_of_fmap. exists p. split; [done|]. apply list_elem_of_filter. split; [|done].
  by apply andb_true_iff in Hk as [_ ->].
Qed.

(** A view compiled from the parts that overlap a range answers every query for a text in
    the range like the full view, when the column is part of the primary key, the recorded
    bounds hold and no snapshot has two rows for one key. *)
Lemma pruning_keeps_matches specs lineage d ranges v w sp c lo hi t :
  compile_pruned_views arrange root read_parquet specs lineage d ranges = Ok v →
  compile_virtual_views arrange root read_parquet specs lineage d = Ok w →
  sp ∈ specs → strategy sp = Upsert → c ∈ primary_key sp → ranges !! sp_name sp = Some (Some lo, Some hi) →
  bounds_hold d (chain_nodes lineage) (sp_name sp) c → keys_unique lineage d sp →
  String.le lo t → String.le t hi →
  ∃ pruned full, active v !! sp_name sp = Some pruned ∧ active w !! sp_name sp = Some full ∧
    filter (λ r, col r c = CText t) pruned ≡ₚ filter (λ r, col r c = CText t) full.
Proof using arrange_Permutation.
  intros Hv Hw Hsp Hst Hc Hrange Hbounds Huniq Hlo Hhi.
  apply compile_virtual_Ok in Hw as (Hnd & Hfull & _). destruct (Hfull sp Hsp) as (_ & full & Hwa & Hf).
  destruct (compile_pruned_Ok _ _ _ _ _ _ Hv Hnd Hsp) as (_ & pruned & Hva & Hp).
  exists pruned, full. split; [done|]. split; [done|]. rewrite Hrange in Hp. simpl in Hp.
  assert (∀ own rows, stands_for arrange (raw v) sp own rows ∨ stands_for arrange (raw w) sp own rows →
    rows = upsert_view arrange sp (default [] own)) as Hview.
  { intros [own|] rows; unfold stands_for; [rewrite Hst; naive_solver|]. rewrite upsert_view_nil. naive_solver. }
  rewrite (Hview _ full (or_intror Hf)), (Hview _ pruned (or_introl Hp)). rewrite !raw_rows_file_rows.
  assert (filter (λ x, col x.2 c = CText t) (file_rows (prune_parts root d lineage (sp_name sp) (Some lo) (Some hi)))
    = filter (λ x, col x.2 c = CText t) (file_rows (lineage_files root d (λ _, true) (sp_name sp) (chain_nodes lineage)))) as Hsel.
  { apply lineage_files_select. intros m p Hm Hpin Hk r Hr Ht. destruct (Hbounds m p r t Hm Hpin Hr Ht) as [Hmax Hmin].
    by rewrite (overlaps_text lo hi t p) in Hk. }
  assert (no_ties later (primary_key sp)
    (file_rows (lineage_files root d (λ _, true) (sp_name sp) (chain_nodes lineage)))) as Hties.
  { apply upsert_ties. intros k r r' Hr Hr'. apply (Huniq k); by apply elem_of_file_rows. }
  unfold upsert_view. rewrite !filter_fmap. apply fmap_Permutation.
  apply (winners_select arrange arrange_Permutation later); [done| |done|by rewrite Hsel].
  intros x y Hx Hy. apply Hties; eapply file_rows_pruned; eassumption.
Qed.

(** ** Whole queries *)

Lemma query_point_Ok sp lineage d t c specs rows :
  query_point arrange root read_parquet sp lineage d t (Some c) (Some specs) = Ok rows → c ≠ "" →
  ∃ lo hi v pruned,
    (lo, hi) = (if String.eqb c "filing_cik" && bool_decide ("accession" ∈ schema sp) then derive_accession_range t else (t, t)) ∧
    compile_pruned_views arrange root read_parquet specs lineage d
      (list_to_map ((λ s, (sp_name s, (Some lo, Some hi))) <$> specs)) = Ok v ∧
    active v !! sp_name sp = Some pruned ∧ rows = filter (λ r, col r c = CText t) pruned.
Proof.
  unfold query_point. intros H Hc. assert (filled (Some c) = true) as Hf by (by destruct c). rewrite Hf in H.
  cbn [default from_option id] in H. destruct (if String.eqb c "filing_cik" && bool_decide ("accession" ∈ schema sp)
    then derive_accession_range t else (t, t)) as [lo hi] eqn:Hr.
  apply bind_Ok in H as (v & Hv & H). apply bind_Ok in H as (pruned & Hp%require_Ok & [= <-]).
  exists lo, hi, v, pruned. done.
Qed.
Lemma same_range (specs : list RelationSpec) (range : option string * option string) sp :
  sp ∈ specs → (list_to_map ((λ s, (sp_name s, range)) <$> specs) : gmap string (option string * option string)) !! sp_name sp = Some range.
Proof.
  induction specs as [|s specs IH]; [intros H; inversion H|]. intros Hs. simpl.
  destruct (decide (sp_name s = sp_name sp)) as [->|E]; [by rewrite lookup_insert_eq|]. rewrite lookup_insert_ne by done.
  apply IH. by apply elem_of_cons in Hs as [->|Hs].
Qed.

(** The checks of a published accession row: its filing CIK is the front of its number. *)
Definition digits (n : nat) (s : string) : Prop :=
  String.length s = n ∧ string_forallb (λ c, (48 <=? nat_of_ascii c) && (nat_of_ascii c <=? 57))%nat s = true.
Definition accession_of (cik a : string) : Prop :=
  ∃ year seq, a = cik +:+ "-" +:+ year +:+ "-" +:+ seq ∧ digits 2 year ∧ digits 6 seq.
Definition cik_rows (lineage : LineageChain) (d : disk) (sp : RelationSpec) : Prop :=
  ∀ rank r cik, row_at root read_parquet lineage d (λ _, true) (sp_name sp) rank r → col r "filing_cik" = CText cik →
    ∃ a, col r "accession" = CText a ∧ accession_of cik a.
End pruning.

Lemma le_app s t u : String.le t u → String.le (s +:+ t) (s +:+ u).
Proof.
  intros H. induction s as [|c s IH]; rewrite ?append_nil, ?append_cons; [done|].
  unfold String.le, String.leb in *. simpl. unfold Ascii.compare. by rewrite N.compare_refl.
Qed.
(** Texts of one length compare as their characters do, where those agree. *)
Fixpoint below (s t : string) : bool :=
  match s, t with
  | EmptyString, EmptyString => true
  | String c s, String e t => (nat_of_ascii c <=? nat_of_ascii e)%nat && below s t
  | _, _ => false
  end.
Lemma below_le s t : below s t = true → String.le s t.
Proof.
  revert t. induction s as [|c s IH]; intros [|e t] H; simpl in H; try done.
  apply andb_true_iff in H as [Hc%Nat.leb_le H]. apply IH in H. unfold String.le, String.leb in *. simpl.
  destruct (Ascii.compare c e) eqn:E; [done|done|]. exfalso. unfold Ascii.compare in E.
  apply N.compare_gt_iff in E. unfold nat_of_ascii in Hc. lia.
Qed.
Lemma below_app s s' t t' : below s t = true → below s' t' = true → below (s +:+ s') (t +:+ t') = true.
Proof.
  revert t. induction s as [|c s IH]; intros [|e t] H H'; try done. rewrite !append_cons. simpl in *.
  apply andb_true_iff in H as [-> H]. by apply IH.
Qed.
Fixpoint nines (n : nat) : string := match n with O => "" | S n => String "9" (nines n) end.
Lemma digits_below n s : digits n s → below (zeros n) s = true ∧ below s (nines n) = true.
Proof.
  intros [Hn Hd]. revert n Hn. induction s as [|c s IH]; intros [|n] Hn; try done.
  cbn [string_forallb] in Hd. apply andb_true_iff in Hd as [[Hlo Hhi]%andb_true_iff Hd]. injection Hn as Hn.
  destruct (IH Hd n Hn) as [H1 H2]. simpl. rewrite H1, H2, !andb_true_r. done.
Qed.

(** The range derived from a CIK holds every accession number filed under it. *)
Lemma derive_accession_range_covers cik a :
  accession_of (zfill 10 cik) a →
  String.le (derive_accession_range cik).1 a ∧ String.le a (derive_accession_range cik).2.
Proof.
  intros (year & seq & -> & [Hy1 Hy2]%digits_below & [Hs1 Hs2]%digits_below). unfold derive_accession_range. cbn [fst snd].
  split; apply le_app, below_le.
  - change "-00-000000" with ("-" +:+ zeros 2 +:+ "-" +:+ zeros 6). by repeat apply below_app.
  - change "-99-999999" with ("-" +:+ nines 2 +:+ "-" +:+ nines 6). by repeat apply below_app.
Qed.

Section queries.
Context (arrange : list ranked_row → list ranked_row) (arrange_Permutation : ∀ l, arrange l ≡ₚ l).
Context (root : list string) (read_parquet : list string → list row).

(** An upsert view has its rows once, and they are rows of the lineage. *)
Lemma upsert_active raws d lineage keep sp rows :
  stands_for arrange raws sp (raw_rows read_parquet (lineage_files root d keep (sp_name sp) (chain_nodes lineage))) rows →
  strategy sp = Upsert →
  NoDup rows ∧ ∀ r, r ∈ rows → ∃ rank, row_at root read_parquet lineage d (λ _, true) (sp_name sp) rank r.
Proof using arrange_Permutation.
  intros Hrows Hst. unfold stands_for in Hrows. destruct (raw_rows _ _) as [own|] eqn:Hraw.
  - rewrite Hst in Hrows. subst rows. split.
    + apply (NoDup_fmap_1 (key (primary_key sp))). unfold upsert_view. rewrite <- list_fmap_compose. apply winners_NoDup.
    + intros r (rank & Hr%winners_subset)%elem_of_snd_winners; [|done]. exists rank.
      apply (elem_of_file_rows read_parquet), file_rows_pruned with (keep := keep), elem_of_file_rows.
      by apply (raw_rows_Some _ _ _ _ _ Hraw).
  - subst rows. split; [constructor|]. intros r Hr. inversion Hr.
Qed.

(** The query by filing CIK prunes by the accession numbers that start with it and still
    returns the rows of the full active view with that CIK, as published rows carry the
    front of their accession number as CIK. *)
Theorem cik_query_answers specs lineage d w sp cik rows :
  query_point arrange root read_parquet sp lineage d cik (Some "filing_cik") (Some specs) = Ok rows →
  compile_virtual_views arrange root read_parquet specs lineage d = Ok w →
  sp ∈ specs → strategy sp = Upsert → "accession" ∈ primary_key sp → "accession" ∈ schema sp → String.length cik = 10 →
  bounds_hold root read_parquet d (chain_nodes lineage) (sp_name sp) "accession" →
  keys_unique root read_parquet lineage d sp → cik_rows root read_parquet lineage d sp →
  ∃ full, active w !! sp_name sp = Some full ∧ rows ≡ₚ filter (λ r, col r "filing_cik" = CText cik) full.
Proof using arrange_Permutation.
  intros Hq Hw Hsp Hst Hc Hschema Hlen Hbounds Huniq Hrows.
  apply query_point_Ok in Hq as (lo & hi & v & pruned & Hr & Hv & Hp & ->); [|done].
  rewrite bool_decide_true, String.eqb_refl in Hr by done. cbn [andb] in Hr.
  pose proof (compile_virtual_Ok _ _ _ _ _ _ _ Hw) as (Hnd & Hfull & _). destruct (Hfull sp Hsp) as (_ & full & Hwa & Hf).
  destruct (compile_pruned_Ok _ _ _ _ _ _ _ _ _ Hv Hnd Hsp) as (_ & pruned' & Hva & Hp'). simplify_eq.
  rewrite (same_range specs _ sp Hsp) in Hp'. simpl in Hp'.
  destruct (upsert_active _ _ _ _ _ _ Hf Hst) as [Hnf Hinf]. destruct (upsert_active _ _ _ _ _ _ Hp' Hst) as [Hnp Hinp].
  exists full. split; [done|]. apply NoDup_Permutation; [by apply NoDup_filter..|]. intros r. rewrite !list_elem_of_filter.
  assert (col r "filing_cik" = CText cik → (∃ rank, row_at root read_parquet lineage d (λ _, true) (sp_name sp) rank r) →
    r ∈ pruned ↔ r ∈ full) as Hiff.
  { intros Hcik (rank & Hat). destruct (Hrows rank r cik Hat Hcik) as (a & Ha & Hacc).
    assert (zfill 10 cik = cik) as Hz by (unfold zfill; by rewrite Hlen).
    rewrite <- Hz in Hacc. apply derive_accession_range_covers in Hacc as [H1 H2]. rewrite <- Hr in H1, H2.
    destruct (pruning_keeps_matches arrange arrange_Permutation root read_parquet specs lineage d _ v w sp "accession" lo hi a Hv Hw)
      as (pruned' & full' & E1 & E2 & Hperm); [first [by apply same_range|done]..|]. simplify_eq.
    assert (r ∈ filter (λ r, col r "accession" = CText a) pruned ↔ r ∈ filter (λ r, col r "accession" = CText a) full) as Hr'
      by (by rewrite Hperm). rewrite !list_elem_of_filter in Hr'. naive_solver. }
  split; intros [Hcik Hin]; split; try done; apply Hiff; auto.
Qed.

(** When pruning leaves a scoped relation a part and its parent none, the parent's raw view
    lacks the rank column, the scoped view does not compile and the query returns nothing
    at all, even when it asks about another relation. *)
Theorem mask_without_parent_parts_raises specs lineage d ranges sp parent :
  NoDup (sp_name <$> specs) → sp ∈ specs → parent ∈ specs → strategy sp = ScopedMask →
  parent_relation sp = Some (sp_name parent) →
  (let '(lo, hi) := default (None, None) (ranges !! sp_name sp) in prune_parts root d lineage (sp_name sp) lo hi ≠ []) →
  (let '(lo, hi) := default (None, None) (ranges !! sp_name parent) in prune_parts root d lineage (sp_name parent) lo hi = []) →
  is_ok (compile_pruned_views arrange root read_parquet specs lineage d ranges) = false.
Proof.
  intros Hnd Hsp Hparent Hst Hpar Hown Hnone. destruct (compile_pruned_views _ _ _ _ _ _ _) as [v|] eqn:Hv; [exfalso|done].
  destruct (compile_pruned_Ok _ _ _ _ _ _ _ _ _ Hv Hnd Hsp) as (_ & rows & _ & Hrows).
  destruct (compile_pruned_Ok _ _ _ _ _ _ _ _ _ Hv Hnd Hparent) as (Hraw & _).
  destruct (default _ (ranges !! sp_name sp)) as [lo hi], (default _ (ranges !! sp_name parent)) as [lo' hi'].
  rewrite Hnone in Hraw. unfold stands_for in Hrows. destruct (raw_rows _ _) eqn:E; [|by apply raw_rows_None in E].
  rewrite Hst, Hpar in Hrows. destruct Hrows as (parents & Hp & _). simpl in Hp, Hraw. congruence.
Qed.
(** ** Which queries raise *)

(** Some scoped relation has a part whose bounds overlap the range, and its parent none. *)
Definition orphaned (specs : list RelationSpec) (lineage : LineageChain) (d : disk) (lo hi : string) : Prop :=
  ∃ sp, sp ∈ specs ∧ ∃ parent, parent ∈ specs ∧ strategy sp = ScopedMask ∧
    parent_relation sp = Some (sp_name parent) ∧
    prune_parts root d lineage (sp_name sp) (Some lo) (Some hi) ≠ [] ∧
    prune_parts root d lineage (sp_name parent) (Some lo) (Some hi) = [].
#[local] Instance orphaned_dec specs lineage d lo hi : Decision (orphaned specs lineage d lo hi).
Proof.
  refine (cast_if (decide (Exists (λ sp, Exists (λ parent, strategy sp = ScopedMask ∧
    parent_relation sp = Some (sp_name parent) ∧ prune_parts root d lineage (sp_name sp) (Some lo) (Some hi) ≠ [] ∧
    prune_parts root d lineage (sp_name parent) (Some lo) (Some hi) = []) specs) specs)));
    unfold orphaned; [|intros Ho; destruct n; revert Ho].
  - apply Exists_exists in e as (sp & Hsp & He). apply Exists_exists in He. eauto.
  - intros (sp & Hsp & He). apply Exists_exists. exists sp. split; [done|]. by apply Exists_exists.
Defined.



End queries.

(** ** Examples *)

Lemma mask_without_parent_parts_raises_witness :
  is_ok (compile_pruned_views (λ l, l) ["data"] demo_parquet [accessions_spec; entries_spec] demo_lineage parts_disk
    {["accessions" := (Some "A5", Some "A5")]}) = false.
Proof.
  apply (mask_without_parent_parts_raises (λ l, l) ["data"] demo_parquet _ _ _ _ entries_spec accessions_spec).
  - apply (bool_decide_unpack _). vm_compute. exact I.
  - right. left.
  - left.
  - reflexivity.
  - reflexivity.
  - vm_compute. discriminate.
  - vm_compute. reflexivity.
Defined.

(** The hypotheses on a concrete lineage, by evaluation. *)
Definition within (p : PartDescriptor) (v : cell) : Prop :=
  match v with
  | CText t => match key_max p with Some b => String.le t b | None => True end
               ∧ match key_min p with Some b => String.le b t | None => True end
  | _ => True
  end.
#[global] Instance within_dec p v : Decision (within p v).
Proof. unfold within. destruct v, (key_max p), (key_min p); apply _. Defined.
Lemma bounds_hold_eval root read_parquet d nodes name c :
  Forall (λ m, Forall (λ p, Forall (λ r, within p (col r c))
    (read_parquet (resolve (resolve_part root d (snapshot_id m) (path p))))) (default [] (assoc name (relations m)))) nodes →
  bounds_hold root read_parquet d nodes name c.
Proof.
  intros H m p r t Hm Hp Hr Ht. rewrite Forall_forall in H. specialize (H m Hm). rewrite Forall_forall in H.
  specialize (H p Hp). rewrite Forall_forall in H. specialize (H r Hr). unfold within in H. rewrite Ht in H.
  destruct (key_max p), (key_min p); naive_solver.
Qed.
Lemma keys_unique_eval root read_parquet lineage d sp :
  (let rows := file_rows read_parquet (lineage_files root d (λ _, true) (sp_name sp) (chain_nodes lineage)) in
   Forall (λ x, Forall (λ y, x.1 = y.1 → key (primary_key sp) x.2 = key (primary_key sp) y.2 → x.2 = y.2) rows) rows) →
  keys_unique root read_parquet lineage d sp.
Proof.
  intros H rank r r' Hr%(elem_of_file_rows read_parquet) Hr'%(elem_of_file_rows read_parquet) Hk.
  rewrite Forall_forall in H. specialize (H _ Hr). rewrite Forall_forall in H. by apply (H _ Hr').
Qed.

Definition filings_spec : RelationSpec :=
  mkSpec "accessions" ["accession"; "filing_cik"] ["accession"] Upsert ["accession"] None None None TieMin None (Some "accession").
Definition filing_row (cik rest : string) : row := demo_row [("accession", cik +:+ rest); ("filing_cik", cik)].
Definition filings : LineageChain := mkChain "s1" "s1"
  [mkManifest "s1" "checkpoint" [] "s1" 0 "" [("accessions",
     [mkPart "p0" "" 1 1 (Some "0000320193-24-000001") (Some "0000320193-24-000001");
      mkPart "p1" "" 1 1 (Some "0000789019-24-000007") (Some "0000789019-24-000007")])] "" [] []].
Definition filings_parquet (file : list string) : list row :=
  match file with
  | ["data"; "s1"; "p0"] => [filing_row "0000320193" "-24-000001"]
  | ["data"; "s1"; "p1"] => [filing_row "0000789019" "-24-000007"]
  | _ => []
  end.
Definition filings_disk : disk := mkDisk ∅ (list_to_set [["data"; "s1"; "p0"]; ["data"; "s1"; "p1"]]).
Definition filings_view : result views :=
  compile_virtual_views (λ l, l) ["data"] filings_parquet [filings_spec] filings filings_disk.
Definition filings_v : views := Eval vm_compute in match filings_view with Ok v => v | Err _ => no_views end.
Lemma filings_view_Ok : filings_view = Ok filings_v.
Proof. vm_compute. reflexivity. Qed.
Definition filings_query (c v : string) : result (list row) :=
  query_point (λ l, l) ["data"] filings_parquet filings_spec filings filings_disk v (Some c) (Some [filings_spec]).
Definition apple : list row := Eval vm_compute in [filing_row "0000320193" "-24-000001"].
Lemma query_by_cik : filings_query "filing_cik" "0000320193" = Ok apple.
Proof. vm_compute. reflexivity. Qed.

Lemma filings_bounds : bounds_hold ["data"] filings_parquet filings_disk (chain_nodes filings) "accessions" "accession".
Proof. apply bounds_hold_eval, (bool_decide_unpack _). vm_compute. exact I. Qed.
Lemma filings_unique : keys_unique ["data"] filings_parquet filings filings_disk filings_spec.
Proof. apply keys_unique_eval. cbv zeta. apply (bool_decide_unpack _). vm_compute. exact I. Qed.
Lemma filings_cik : cik_rows ["data"] filings_parquet filings filings_disk filings_spec.
Proof.
  intros rank r cik Hr%(elem_of_file_rows filings_parquet) Hc.
  change (file_rows _ _) with [(0, filing_row "0000320193" "-24-000001"); (0, filing_row "0000789019" "-24-000007")] in Hr.
  apply elem_of_cons in Hr as [Hr|Hr]; [|apply list_elem_of_singleton in Hr]; injection Hr as _ ->;
    cbn in Hc; injection Hc as <-; (eexists; split; [reflexivity|]).
  - by exists "24", "000001".
  - by exists "24", "000007".
Qed.

Lemma cik_query_answers_witness : ∃ full, active filings_v !! "accessions" = Some full ∧
  apple ≡ₚ filter (λ r, col r "filing_cik" = CText "0000320193") full.
Proof.
  apply (cik_query_answers (λ l, l) id_Permutation ["data"] filings_parquet [filings_spec] filings filings_disk _ filings_spec);
    [exact query_by_cik|exact filings_view_Ok|left|reflexivity|left|left|reflexivity
    |exact filings_bounds|exact filings_unique|exact filings_cik].
Defined.
