(* ===== verification/Compaction.v ===== *)
(** * Compaction of a lineage: [infra/storage/dag/compaction.py]

    The active rows of every relation are written to new parts, split by ranges of a key
    column so that no part is too long, as a checkpoint that stands alone; the views of the
    checkpoint must have the logical fingerprint of the lineage's views.  What a written part
    reads back as is what was written.  The ends of a range are texts, the [str] of keys; the
    engine compares a column with a text as the value of the column's type that the text
    stands for ([Casts]). *)
From S2P Require Import Prelude Numerals Serialization Hashing SnapshotCatalog SnapshotLineage Retention Relations.

(** ** The order of rows *)

Definition cell_le (x y : cell) : Prop := cell_compare x y ≠ Gt.
#[global] Instance cell_le_dec : RelDecision cell_le.
Proof. intros x y. unfold cell_le. destruct (cell_compare x y); [left|left|right]; try done. intros H. by apply H. Defined.

Lemma string_compare_le s t : String.compare s t ≠ Gt ↔ String.le s t.
Proof. unfold String.le, String.leb. destruct (String.compare s t); simpl; naive_solver. Qed.
#[global] Instance cell_le_trans : Transitive cell_le.
Proof.
  intros [|b|z|s] [|b'|z'|s'] [|b''|z''|s'']; unfold cell_le; simpl; try done.
  - by destruct b, b', b''.
  - rewrite !Z.compare_le_iff. lia.
  - rewrite !string_compare_le. apply transitivity.
Qed.
#[global] Instance cell_le_total : Total cell_le.
Proof.
  intros [|b|z|s] [|b'|z'|s']; unfold cell_le; simpl; try (by left); try (by right).
  - destruct b, b'; naive_solver.
  - rewrite !Z.compare_le_iff. lia.
  - rewrite !string_compare_le. apply (total String.le).
Qed.
#[global] Instance cell_le_antisymm : AntiSymm (=) cell_le.
Proof.
  intros [|b|z|s] [|b'|z'|s']; unfold cell_le; simpl; try done.
  - by destruct b, b'.
  - rewrite !Z.compare_le_iff. intros H1 H2. f_equal. lia.
  - rewrite !string_compare_le. intros H1 H2. f_equal. by apply (anti_symm String.le).
Qed.

(** [ORDER BY] several columns. *)
Fixpoint lex_le (k k' : list cell) : Prop :=
  match k, k' with
  | [], _ => True
  | x :: k, y :: k' => if decide (x = y) then lex_le k k' else cell_le x y
  | _ :: _, [] => False
  end.
#[global] Instance lex_le_dec : RelDecision lex_le.
Proof.
  intros k. induction k as [|x k IH]; intros [|y k']; simpl; try apply _.
  destruct (decide (x = y)); [apply IH|apply _].
Defined.
#[global] Instance lex_le_total : Total lex_le.
Proof.
  intros k. induction k as [|x k IH]; intros [|y k']; simpl; auto.
  destruct (decide (x = y)) as [->|Hxy]; [rewrite decide_True by done; apply IH|].
  rewrite decide_False by done. apply (total cell_le).
Qed.
#[global] Instance lex_le_trans : Transitive lex_le.
Proof.
  intros k1 k2 k3. revert k1 k3. induction k2 as [|y k2 IH]; intros [|x k1] [|z k3]; simpl; try done.
  destruct (decide (x = y)) as [->|Hxy], (decide (y = z)) as [->|Hyz].
  - rewrite ?decide_True by done. apply IH.
  - rewrite ?decide_False by done. done.
  - rewrite ?decide_False by done. done.
  - intros H1 H2. destruct (decide (x = z)) as [->|Hxz]; [|by etrans].
    exfalso. apply Hxy. by apply (anti_symm cell_le).
Qed.
Lemma lex_le_antisymm k k' : length k = length k' → lex_le k k' → lex_le k' k → k = k'.
Proof.
  revert k'. induction k as [|x k IH]; intros [|y k']; simpl; try done. intros Hl.
  destruct (decide (x = y)) as [->|Hxy].
  - rewrite decide_True by done. intros H1 H2. f_equal. apply IH; [lia|done..].
  - rewrite decide_False by done. intros H1 H2. destruct Hxy. by apply (anti_symm cell_le).
Qed.

Definition row_le (cols : list string) (r s : row) : Prop := lex_le (key cols r) (key cols s).
#[global] Instance row_le_dec cols : RelDecision (row_le cols).
Proof. intros r s. unfold row_le. apply _. Defined.
#[global] Instance row_le_total cols : Total (row_le cols).
Proof. intros r s. apply (total lex_le). Qed.
#[global] Instance row_le_trans cols : Transitive (row_le cols).
Proof. intros r s t. unfold row_le. apply transitivity. Qed.
Definition order_rows (cols : list string) (rows : list row) : list row := merge_sort (row_le cols) rows.
Lemma order_rows_Permutation cols rows : order_rows cols rows ≡ₚ rows.
Proof. apply merge_sort_Permutation. Qed.
(** Rows with distinct keys have one order. *)
Lemma order_rows_unique cols rows rows' :
  rows ≡ₚ rows' → NoDup (key cols <$> rows) → order_rows cols rows = order_rows cols rows'.
Proof.
  intros Hp Hnd. apply (StronglySorted_unique_strong (row_le cols)).
  - intros x y Hx Hy H1 H2. rewrite order_rows_Permutation in Hx. rewrite order_rows_Permutation, <- Hp in Hy.
    assert (key cols x = key cols y) as Hk by (apply lex_le_antisymm; [unfold key; by rewrite !length_fmap|done..]).
    apply list_elem_of_lookup in Hx as [i Hi], Hy as [j Hj].
    assert (i = j) as <-; [|congruence]. eapply NoDup_lookup; [exact Hnd|by rewrite list_lookup_fmap, Hi|].
    rewrite list_lookup_fmap, Hj. simpl. by rewrite Hk.
  - apply (StronglySorted_merge_sort (row_le cols)).
  - apply (StronglySorted_merge_sort (row_le cols)).
  - by rewrite !order_rows_Permutation.
Qed.

(** ** Fingerprints *)

Definition cell_json (c : cell) : json :=
  match c with CNull => JNull | CBool b => JBool b | CInt z => JInt z | CText s => JStr s end.
Definition row_text (sp : RelationSpec) (r : row) : string := canonical_json (JArr (cell_json <$> key (schema sp) r)).
Definition relation_text (v : views) (sp : RelationSpec) : result string :=
  rows ← require (active v !! sp_name sp) CatalogException;
  Ok (foldr (λ r s, row_text sp r +:+ s) "" (order_rows (primary_key sp) rows)).
(** Feeding a hash piece by piece hashes the pieces together. *)
Definition compute_logical_fingerprint (sha256_hexdigest : string → string) (v : views) (specs : list RelationSpec) :
    result string :=
  texts ← mapr (relation_text v) specs; Ok (sha256_text sha256_hexdigest (foldr String.append "" texts)).

(** ** Splitting a relation *)

(** [SELECT key, count] [GROUP BY key ORDER BY key], without NULL. *)
Definition key_counts (c : string) (rows : list row) : list (cell * Z) :=
  (λ k, (k, Z.of_nat (length (filter (λ r, col r c = k) rows))))
    <$> merge_sort cell_le (remove_dups (filter (λ k, k ≠ CNull) ((λ r, col r c) <$> rows))).

(** [str(k)] of a key, which is not NULL. *)
Definition str_cell (k : cell) : string :=
  match k with
  | CNull => "None"
  | CBool b => if b then "True" else "False"
  | CInt z => str_of_int z
  | CText s => s
  end.
Definition same_type (x y : cell) : Prop :=
  match x, y with
  | CNull, CNull | CBool _, CBool _ | CInt _, CInt _ | CText _, CText _ => True
  | _, _ => False
  end.
(** What the engine takes a text parameter for next to the value [x] of a column: the value
    of the column's type, which for the text of a value of that type is this value. *)
Class Casts := {
  cast_as : cell → string → cell;
  cast_as_str x k : same_type x k → cast_as x (str_cell k) = k;
}.

(** The loop over the counts: the ranges found, the keys of the open range and their rows.
    [None] is the range of everything. *)
Definition close_range (keys : list string) : list (option (string * string)) :=
  match keys with
  | [] => []
  | k :: _ => [Some (k, default k (last keys))]
  end.
Fixpoint split_keys (max_rows : Z) (cur_keys : list string) (cur_cnt : Z) (counts : list (cell * Z)) :
    list (option (string * string)) :=
  match counts with
  | [] => close_range cur_keys
  | (k, cnt) :: counts =>
      let str_k := str_cell k in
      if (0 <? cur_cnt)%Z && (max_rows <? cur_cnt + cnt)%Z
      then close_range cur_keys ++ split_keys max_rows [str_k] cnt counts
      else split_keys max_rows (cur_keys ++ [str_k]) (cur_cnt + cnt) counts
  end.
Definition key_column (sp : RelationSpec) : string :=
  if filled (entity_key sp) then default "" (entity_key sp) else default "" (head (primary_key sp)).
Definition part_ranges (sp : RelationSpec) (rows : list row) : list (option (string * string)) :=
  let total := Z.of_nat (length rows) in
  match max_rows_per_part sp with
  | None => [None]
  | Some max_rows =>
      if (total =? 0)%Z || (total <=? max_rows)%Z then [None]
      else match split_keys max_rows [] 0 (key_counts (key_column sp) rows) with
           | [] => [None]
           | ranges => ranges
           end
  end.

Section splitting.
Context {casts : Casts}.

(** The WHERE clause of a part. *)
Definition in_range (c : string) (range : option (string * string)) (r : row) : bool :=
  match range with
  | None => true
  | Some (min_k, max_k) =>
      let x := col r c in
      negb (is_null_cell x)
      && if String.eqb min_k max_k then bool_decide (x = cast_as x min_k)
         else bool_decide (cell_le (cast_as x min_k) x) && bool_decide (cell_le x (cast_as x max_k))
  end.
(** The rows of each part, in the order they are written. *)
Definition _compact_relation (sp : RelationSpec) (rows : list row) : list (list row) :=
  (λ range, order_rows (sort_order sp) (filter (λ r, in_range (key_column sp) range r = true) rows)) <$> part_ranges sp rows.
End splitting.

(** ** Compaction *)

Section compact.
Context {casts : Casts}.
Context (sha256_hexdigest : string → string) (arrange : list ranked_row → list ranked_row).
Context (root : list string) (read_parquet : list string → list row).

Definition compact_relations (v : views) (specs : list RelationSpec) : result (list (RelationSpec * list (list row))) :=
  mapr (λ sp, rows ← require (active v !! sp_name sp) CatalogException; Ok (sp, _compact_relation sp rows)) specs.
(** The staged parts of a relation, as the verification reads them. *)
Definition staged_rows (parts : list (RelationSpec * list (list row))) (sp : RelationSpec) : option (list ranked_row) :=
  match filter (λ p, p.1 = sp) parts with
  | (_, written) :: _ => Some ((λ r, (0, r)) <$> mjoin written)
  | [] => None
  end.
Definition compact_lineage (specs : list RelationSpec) (lineage : LineageChain) (d : disk) :
    result (list (RelationSpec * list (list row)) * string) :=
  v ← compile_virtual_views arrange root read_parquet specs lineage d;
  pre_fingerprint ← compute_logical_fingerprint sha256_hexdigest v specs;
  parts ← compact_relations v specs;
  w ← views_of arrange specs (staged_rows parts);
  post_fingerprint ← compute_logical_fingerprint sha256_hexdigest w specs;
  _ ← raise_if (negb (String.eqb post_fingerprint pre_fingerprint)) CompactionParityError;
  Ok (parts, pre_fingerprint).
End compact.

(** ** The ranges split the keys *)

Section ranges.
Context {casts : Casts}.

Definition segment_range (seg : list cell) : option (string * string) :=
  Some (str_cell (default CNull (head seg)), str_cell (default CNull (last seg))).
Definition zsum (l : list Z) : Z := foldr Z.add 0%Z l.
(** A segment of at most [max_rows] rows, or of a single key. *)
Definition fits (max_rows : Z) (count : cell → Z) (seg : list cell) : Prop :=
  seg ≠ [] ∧ (length seg = 1 ∨ (zsum (count <$> seg) <= max_rows)%Z).

Lemma zsum_cons x l : zsum (x :: l) = (x + zsum l)%Z.
Proof. done. Qed.
Lemma zsum_positive (count : cell → Z) l : (∀ k, k ∈ l → 0 < count k)%Z → (0 <= zsum (count <$> l))%Z.
Proof.
  induction l as [|x l IH]; intros Hl; [done|]. rewrite fmap_cons, zsum_cons.
  assert (0 < count x)%Z by (apply Hl; left). assert (0 <= zsum (count <$> l))%Z by (apply IH; intros; apply Hl; by right). lia.
Qed.
Lemma zsum_app l k : zsum (l ++ k) = (zsum l + zsum k)%Z.
Proof. induction l as [|x l IH]; simpl; [done|]. rewrite IH. lia. Qed.
Lemma close_range_segment seg : seg ≠ [] → close_range (str_cell <$> seg) = [segment_range seg].
Proof.
  destruct seg as [|k seg]; [done|]. intros _. unfold close_range, segment_range. rewrite fmap_cons. simpl head.
  rewrite <- fmap_cons, fmap_last. destruct (last (k :: seg)) eqn:E; [done|]. by apply last_None in E.
Qed.

Lemma split_keys_segments max_rows (count : cell → Z) keys cur :
  (∀ k, k ∈ cur ++ keys → 0 < count k)%Z → cur = [] ∨ fits max_rows count cur →
  ∃ segs, mjoin segs = cur ++ keys ∧ Forall (fits max_rows count) segs ∧
    split_keys max_rows (str_cell <$> cur) (zsum (count <$> cur)) ((λ k, (k, count k)) <$> keys) = segment_range <$> segs.
Proof.
  revert cur. induction keys as [|k keys IH]; intros cur Hpos Hcur; simpl.
  { rewrite app_nil_r. destruct Hcur as [->|Hfit]; [by exists []|]. exists [cur]. simpl. rewrite app_nil_r.
    split; [done|]. split; [by constructor|]. apply close_range_segment, Hfit. }
  assert (0 < count k)%Z as Hk by (apply Hpos; set_solver).
  assert (fits max_rows count [k]) as Hone by (split; [done|by left]).
  destruct ((0 <? zsum (count <$> cur))%Z && (max_rows <? zsum (count <$> cur) + count k)%Z) eqn:Hcut.
  - apply andb_true_iff in Hcut as [H0%Z.ltb_lt _]. destruct Hcur as [->|Hfit]; [simpl in H0; lia|].
    destruct (IH [k]) as (segs & Hj & Hall & Hs); [intros k' Hk'; apply Hpos; set_solver|by right|].
    exists (cur :: segs). split; [|split].
    + simpl. rewrite Hj. done.
    + by constructor.
    + rewrite close_range_segment by apply Hfit. rewrite fmap_cons, <- Hs.
      replace (zsum (count <$> [k])) with (count k) by (simpl; lia). done.
  - destruct (IH (cur ++ [k])) as (segs & Hj & Hall & Hs).
    + intros k' Hk'. apply Hpos. rewrite <- app_assoc in Hk'. exact Hk'.
    + right. destruct Hcur as [->|Hfit]; [exact Hone|]. split; [by destruct cur|]. right.
      assert (0 < zsum (count <$> cur))%Z as Hcpos.
      { destruct Hfit as [Hne _]. destruct cur as [|c cur]; [done|]. rewrite fmap_cons, zsum_cons.
        assert (0 < count c)%Z by (apply Hpos; set_solver).
        assert (0 <= zsum (count <$> cur))%Z by (apply zsum_positive; intros x Hx; apply Hpos; set_solver). lia. }
      apply andb_false_iff in Hcut as [H0%Z.ltb_ge|H0%Z.ltb_ge]; [lia|].
      rewrite fmap_app, zsum_app. simpl. lia.
    + exists segs. rewrite Hj, <- app_assoc. split; [done|]. split; [done|].
      rewrite <- Hs, fmap_app. f_equal. rewrite fmap_app, zsum_app. simpl. lia.
Qed.

(** ** The parts hold the rows *)

Lemma key_list_spec c rows :
  let keys := merge_sort cell_le (remove_dups (filter (λ k, k ≠ CNull) ((λ r, col r c) <$> rows))) in
  StronglySorted cell_le keys ∧ NoDup keys ∧ ∀ k, k ∈ keys ↔ k ≠ CNull ∧ ∃ r, r ∈ rows ∧ col r c = k.
Proof.
  intros keys. unfold keys. split_and!.
  - apply (StronglySorted_merge_sort cell_le).
  - rewrite merge_sort_Permutation. apply NoDup_remove_dups.
  - intros k. rewrite merge_sort_Permutation, elem_of_remove_dups, list_elem_of_filter, list_elem_of_fmap. naive_solver.
Qed.

#[global] Instance cell_le_refl : Reflexive cell_le.
Proof. intros x. by destruct (total cell_le x x). Qed.
Lemma sorted_head_last (seg : list cell) a b x :
  StronglySorted cell_le seg → head seg = Some a → last seg = Some b → x ∈ seg → cell_le a x ∧ cell_le x b.
Proof.
  intros Hs Ha Hb Hx. split.
  - destruct seg as [|k seg]; [done|]. injection Ha as ->. apply StronglySorted_inv in Hs as [_ Hall].
    apply elem_of_cons in Hx as [->|Hx]; [done|]. rewrite Forall_forall in Hall. by apply Hall.
  - apply last_Some in Hb as (l & ->). apply StronglySorted_app in Hs as (Hle & _).
    apply elem_of_app in Hx as [Hx|Hx]; [by apply Hle; [|left]|]. by apply list_elem_of_singleton in Hx as ->.
Qed.

(** The values of a column that are not NULL have one type. *)
Definition typed (c : string) (rows : list row) : Prop :=
  ∀ r r', r ∈ rows → r' ∈ rows → col r c ≠ CNull → col r' c ≠ CNull → same_type (col r c) (col r' c).

(** Among the keys, the range of a segment holds exactly the segment. *)
Lemma segment_in_range l1 seg l2 c r :
  (∀ x, x ∈ seg → same_type (col r c) x) →
  StronglySorted cell_le (l1 ++ seg ++ l2) → seg ≠ [] → col r c ∈ l1 ++ seg ++ l2 → col r c ≠ CNull →
  in_range c (segment_range seg) r = true ↔ col r c ∈ seg.
Proof.
  intros Htype Hs Hne Hin Hnull. pose proof Hs as (Hl1 & _ & Hs')%StronglySorted_app.
  pose proof Hs' as (Hl2 & Hseg & _)%StronglySorted_app.
  destruct (head seg) as [a|] eqn:Ha; [|by destruct seg]. destruct (last seg) as [b|] eqn:Hb; [|by apply last_None in Hb].
  assert (a ∈ seg) as Hain by (destruct seg; [done|injection Ha as ->; left]).
  assert (b ∈ seg) as Hbin by (apply last_Some in Hb as (l & ->); set_solver).
  unfold in_range, segment_range. rewrite Ha, Hb. simpl. rewrite !cast_as_str by auto.
  assert (is_null_cell (col r c) = false) as -> by (by destruct (col r c)). simpl.
  assert (∀ x, x ∈ seg → cell_le a x ∧ cell_le x b) as Hends by (intros x; by apply sorted_head_last).
  destruct (String.eqb_spec (str_cell a) (str_cell b)) as [Hab|Hab].
  - apply (f_equal (cast_as (col r c))) in Hab. rewrite !cast_as_str in Hab by auto. subst b.
    rewrite bool_decide_eq_true. split; [by intros ->|]. intros Hx. destruct (Hends _ Hx).
    by apply (anti_symm cell_le).
  - rewrite andb_true_iff, !bool_decide_eq_true. split; [|by apply Hends]. intros [H1 H2].
    apply elem_of_app in Hin as [Hin|[Hin|Hin]%elem_of_app]; [|done|].
    + rewrite (anti_symm cell_le (col r c) a); [done| |done]. apply Hl1; [done|]. apply elem_of_app. by left.
    + rewrite (anti_symm cell_le (col r c) b); [done|done|]. by apply Hl2.
Qed.

(** The segments deal out the rows that have a key. *)
Lemma segments_rows c rows segs pre :
  (∀ r x, r ∈ rows → x ∈ mjoin segs → col r c ≠ CNull → same_type (col r c) x) →
  StronglySorted cell_le (pre ++ mjoin segs) → NoDup (pre ++ mjoin segs) → Forall (λ seg, seg ≠ []) segs →
  (∀ r, r ∈ rows → col r c ≠ CNull → col r c ∈ pre ++ mjoin segs) →
  mjoin ((λ seg, filter (λ r, in_range c (segment_range seg) r = true) rows) <$> segs)
  ≡ₚ filter (λ r, col r c ≠ CNull ∧ col r c ∈ mjoin segs) rows.
Proof.
  revert pre. induction segs as [|seg segs IH]; intros pre Htype Hs Hnd Hne Hcov.
  { simpl. rewrite list_filter_none; [done|]. intros r _ [_ Hr]. inversion Hr. }
  apply Forall_cons in Hne as [Hseg Hne]. rewrite fmap_cons.
  change (mjoin (?x :: ?l)) with (x ++ mjoin l) in *. rewrite (IH (pre ++ seg)); try rewrite <- app_assoc; try done;
    [|intros r x Hr Hx; apply Htype; [done|]; apply elem_of_app; by right].
  assert (∀ x, x ∈ seg → x ∈ mjoin segs → False) as Hdisj.
  { intros x H1 H2. apply NoDup_app in Hnd as (_ & _ & Hnd). apply NoDup_app in Hnd as (_ & Hd & _). by apply (Hd x). }
  rewrite (filter_ext_in _ (λ r, col r c ≠ CNull ∧ col r c ∈ seg)).
  - rewrite <- filter_split by (intros r _ [_ H1] [_ H2]; by eapply Hdisj).
    erewrite filter_ext_in; [reflexivity|]. intros r _. cbv beta.
    change (mjoin (seg :: segs)) with (seg ++ mjoin segs). rewrite elem_of_app. tauto.
  - intros r Hr. destruct (decide (col r c = CNull)) as [E|E].
    + unfold in_range, segment_range. rewrite E. simpl. naive_solver.
    + rewrite (segment_in_range pre seg (mjoin segs)); [tauto| |done..|by apply Hcov|done].
      intros x Hx. apply Htype; [done| |done]. apply elem_of_app. by left.
Qed.

Lemma segment_rows c rows seg :
  NoDup seg →
  Z.of_nat (length (filter (λ r, col r c ∈ seg) rows)) =
    zsum ((λ k, Z.of_nat (length (filter (λ r, col r c = k) rows))) <$> seg).
Proof.
  induction seg as [|k seg IH]; intros Hnd.
  - rewrite list_filter_none; [done|]. intros r _ Hr. inversion Hr.
  - apply NoDup_cons in Hnd as [Hk Hnd]. rewrite fmap_cons, zsum_cons, <- IH by done.
    rewrite (filter_ext_in _ (λ r, col r c = k ∨ col r c ∈ seg)) by (intros r _; apply elem_of_cons).
    rewrite filter_split by (by intros r _ ->). rewrite length_app. lia.
Qed.

(** Either one part, or parts by segments of the keys. *)
Lemma part_ranges_spec sp rows :
  part_ranges sp rows = [None] ∧
    ((∀ n, max_rows_per_part sp = Some n → Z.of_nat (length rows) <= n)%Z ∨ ∀ r, r ∈ rows → col r (key_column sp) = CNull) ∨
  ∃ n segs, max_rows_per_part sp = Some n ∧ part_ranges sp rows = segment_range <$> segs ∧
    StronglySorted cell_le (mjoin segs) ∧ NoDup (mjoin segs) ∧
    (∀ k, k ∈ mjoin segs ↔ k ≠ CNull ∧ ∃ r, r ∈ rows ∧ col r (key_column sp) = k) ∧
    Forall (fits n (λ k, Z.of_nat (length (filter (λ r, col r (key_column sp) = k) rows)))) segs.
Proof.
  unfold part_ranges. destruct (max_rows_per_part sp) as [n|]; [|left; split; [done|by left]].
  destruct (_ || _) eqn:Hfew.
  { left. split; [done|]. apply orb_true_iff in Hfew as [H%Z.eqb_eq|H%Z.leb_le].
    - right. destruct rows as [|r rows]; [|simpl in H; lia]. intros r Hr. inversion Hr.
    - left. by intros m [= <-]. }
  pose proof (key_list_spec (key_column sp) rows) as (Hs & Hnd & Hin). unfold key_counts.
  set (keys := merge_sort cell_le _) in *. clearbody keys.
  set (count := λ k, Z.of_nat (length (filter (λ r, col r (key_column sp) = k) rows))).
  destruct (split_keys_segments n count keys []) as (segs & Hj & Hall & Hsplit); [|by left|].
  { intros k Hk. simpl in Hk. apply Hin in Hk as (_ & r & Hr & Hc). unfold count.
    assert (r ∈ filter (λ r, col r (key_column sp) = k) rows) as Hf by (by apply list_elem_of_filter).
    destruct (filter _ rows); [inversion Hf|simpl; lia]. }
  simpl in Hj, Hsplit. unfold count in Hsplit. rewrite Hsplit. destruct segs as [|seg segs]; simpl.
  - left. split; [done|right]. intros r Hr. destruct (decide (col r (key_column sp) = CNull)) as [|Hne]; [done|].
    assert (col r (key_column sp) ∈ keys) as Hk by (apply Hin; eauto). rewrite <- Hj in Hk. inversion Hk.
  - right. exists n, (seg :: segs). rewrite Hj. done.
Qed.

(** All the rows are in the parts, unless some have no key and there are ranges. *)
Lemma compact_relation_rows sp rows :
  typed (key_column sp) rows →
  mjoin (_compact_relation sp rows) ≡ₚ
    filter (λ r, part_ranges sp rows = [None] ∨ col r (key_column sp) ≠ CNull) rows.
Proof.
  intros Htyped. unfold _compact_relation.
  destruct (part_ranges_spec sp rows) as [[E _]|(n & segs & Hn & E & Hs & Hnd & Hin & Hall)]; rewrite E.
  { simpl. by rewrite app_nil_r, order_rows_Permutation, !filter_all by auto. }
  rewrite <- list_fmap_compose.
  transitivity (mjoin ((λ seg, filter (λ r, in_range (key_column sp) (segment_range seg) r = true) rows) <$> segs)).
  { clear. induction segs as [|seg segs IH]; [done|]. rewrite !fmap_cons. csimpl. by rewrite IH, order_rows_Permutation. }
  rewrite (segments_rows _ _ _ []); [| |done|done| |].
  - erewrite filter_ext_in; [reflexivity|]. intros r Hr. rewrite Hin. split; [tauto|].
    intros [Hone|Hk]; [|eauto]. destruct segs; done.
  - intros r x Hr (Hx & r' & Hr' & <-)%Hin Hk. by apply Htyped.
  - eapply Forall_impl; [exact Hall|]. by intros seg [? _].
  - intros r Hr Hk. apply Hin. eauto.
Qed.

(** The parts of a compacted relation deal out its rows: all of them, except rows without
    a key once there is more than one range; and a part is no longer than the limit unless
    all its rows have the same key. *)
Theorem compacted_parts_hold_the_rows sp rows :
  typed (key_column sp) rows →
  mjoin (_compact_relation sp rows) ≡ₚ
    filter (λ r, part_ranges sp rows = [None] ∨ col r (key_column sp) ≠ CNull) rows ∧
  ∀ part n, part ∈ _compact_relation sp rows → max_rows_per_part sp = Some n →
    (Z.of_nat (length part) <= n)%Z ∨ ∃ k, ∀ r, r ∈ part → col r (key_column sp) = k.
Proof.
  intros Htyped. split; [by apply compact_relation_rows|]. unfold _compact_relation.
  destruct (part_ranges_spec sp rows) as [[E Hfew]|(n & segs & Hn & E & Hs & Hnd & Hin & Hall)]; rewrite E.
  - intros part n Hpart%list_elem_of_singleton Hn. subst part. destruct Hfew as [Hfew|Hnull].
    + left. rewrite (Permutation_length (order_rows_Permutation _ _)), filter_all by done. by apply Hfew.
    + right. exists CNull. intros r Hr. apply Hnull. rewrite order_rows_Permutation in Hr.
      by apply list_elem_of_filter in Hr as [_ Hr].
  - assert (∀ seg, seg ∈ segs → seg ≠ []) as Hne by (intros seg Hseg; rewrite Forall_forall in Hall; by apply Hall).
    rewrite <- list_fmap_compose.
    intros part m (seg & -> & Hseg)%list_elem_of_fmap Hm. assert (m = n) as -> by congruence. simpl.
      apply list_elem_of_split in Hseg as (pre & post & ->). rewrite join_app in Hs, Hnd, Hin. simpl in Hs, Hnd, Hin.
      assert (∀ r, r ∈ rows → in_range (key_column sp) (segment_range seg) r = true ↔ col r (key_column sp) ∈ seg) as Hrange.
      { intros r Hr. destruct (decide (col r (key_column sp) = CNull)) as [Hnull|Hk].
        - unfold in_range, segment_range. rewrite Hnull. simpl. split; [done|]. intros Hb.
          assert (CNull ∈ mjoin pre ++ seg ++ mjoin post) as H by set_solver. apply Hin in H as [? _]. done.
        - apply (segment_in_range (mjoin pre) seg (mjoin post)); [|done|apply Hne; set_solver|apply Hin; eauto|done].
          intros x Hx. assert (x ∈ mjoin pre ++ seg ++ mjoin post) as (Hxn & r' & Hr' & <-)%Hin by set_solver. by apply Htyped. }
      rewrite (Permutation_length (order_rows_Permutation _ _)), (filter_ext_in _ _ _ Hrange).
      rewrite segment_rows by (apply NoDup_app in Hnd as (_ & _ & Hnd); by apply NoDup_app in Hnd as (? & _)).
      rewrite Forall_forall in Hall. destruct (Hall seg ltac:(set_solver)) as [_ [Hlen|Hsum]]; [right|by left].
      destruct seg as [|k [|]]; try done. exists k. intros r Hr. rewrite order_rows_Permutation in Hr.
      apply list_elem_of_filter in Hr as [Hr Hin']. by apply list_elem_of_singleton in Hr.
Qed.

End ranges.

(** ** The checkpoint has the views of the lineage *)

Section parity.
Context {casts : Casts}.
Context (sha256_hexdigest : string → string) (arrange : list ranked_row → list ranked_row).
Context (arrange_Permutation : ∀ l, arrange l ≡ₚ l).
Context (root : list string) (read_parquet : list string → list row).

Definition rows_in (v : views) (sp : RelationSpec) : list row := default [] (active v !! sp_name sp).
(** The keys have one type and no row loses its place for want of one; a scoped relation hangs on the primary key of
    an upsert relation and has its own primary key. *)
Definition compactable (v : views) (specs : list RelationSpec) (sp : RelationSpec) : Prop :=
  typed (key_column sp) (rows_in v sp) ∧
  (part_ranges sp (rows_in v sp) = [None] ∨ ∀ r, r ∈ rows_in v sp → col r (key_column sp) ≠ CNull) ∧
  (strategy sp = ScopedMask → NoDup (key (primary_key sp) <$> rows_in v sp) ∧
     ∃ parent, parent ∈ specs ∧ parent_relation sp = Some (sp_name parent) ∧ strategy parent = Upsert ∧
       primary_key parent = join_key sp).

Lemma define_loop_succeeds raw_of l v :
  NoDup (sp_name <$> l) → (∀ sp, sp ∈ l → raw v !! sp_name sp = None ∧ is_Some (raw_of sp)) →
  (∀ name, raw v !! name ≠ Some None) →
  (∀ l1 sp l2, l = l1 ++ sp :: l2 → strategy sp = ScopedMask →
     ∃ p, parent_relation sp = Some p ∧ (is_Some (raw v !! p) ∨ p ∈ sp_name <$> l1)) →
  ∃ v', foldr_m (define_views arrange false raw_of) v l = Ok v'.
Proof.
  revert v. induction l as [|sp l IH]; intros v Hnd Hfresh Hsome Hpar; [by eexists|].
  apply NoDup_cons in Hnd as [Hnew Hnd]. destruct (Hfresh sp ltac:(left)) as [Hsp [own Hown]].
  assert (∃ v1, define_views arrange false raw_of v sp = Ok v1) as [v1 Hv1].
  { unfold define_views. rewrite Hown, bool_decide_false by (by rewrite Hsp; apply is_Some_None). simpl.
    destruct (strategy sp) eqn:Hst; [by eexists..|].
    destruct (Hpar [] sp l eq_refl Hst) as (p & -> & [[r Hr]|Hin]); [|inversion Hin]. simpl.
    destruct (decide (p = sp_name sp)) as [->|Hne]; [rewrite lookup_insert_eq|rewrite lookup_insert_ne, Hr by done].
    - by eexists.
    - destruct r as [parents|]; [by eexists|by destruct (Hsome p)]. }
  simpl. rewrite Hv1. simpl. apply define_views_Ok in Hv1 as (_ & Hraw & _). apply IH; [done| | |].
  - intros s Hs. destruct (Hfresh s ltac:(by right)) as [Hn Ho]. split; [|done]. rewrite Hraw, lookup_insert_ne; [done|].
    intros E. apply Hnew. rewrite E. by apply list_elem_of_fmap_2.
  - intros name H. rewrite Hraw, Hown in H. apply lookup_insert_Some in H as [[_ H]|[_ H]]; [done|by apply (Hsome name)].
  - intros l1 s l2 -> Hst. destruct (Hpar (sp :: l1) s l2 eq_refl Hst) as (p & Hp & Hor). exists p. split; [done|].
    rewrite Hraw. rewrite fmap_cons in Hor. rewrite lookup_insert_is_Some'. destruct Hor as [?|[->|?]%elem_of_cons]; auto.
Qed.

Lemma compact_relations_Ok v specs :
  (∀ sp, sp ∈ specs → is_Some (active v !! sp_name sp)) →
  compact_relations v specs = Ok ((λ sp, (sp, _compact_relation sp (rows_in v sp))) <$> specs).
Proof.
  unfold compact_relations, rows_in. induction specs as [|sp specs IH]; simpl; intros H; [done|].
  destruct (H sp ltac:(left)) as [rows Hrows]. rewrite Hrows. simpl. rewrite IH; [done|]. intros s Hs. apply H. by right.
Qed.
Lemma staged_rows_compact v specs sp :
  sp ∈ specs →
  staged_rows ((λ sp, (sp, _compact_relation sp (rows_in v sp))) <$> specs) sp
  = Some ((λ r, (0, r)) <$> mjoin (_compact_relation sp (rows_in v sp))).
Proof.
  unfold staged_rows. rewrite filter_fmap. intros Hsp. destruct (filter _ specs) as [|s l] eqn:Hf.
  - assert (sp ∈ filter (λ s, s = sp) specs) as Hin by (by apply list_elem_of_filter).
    change (filter (λ s, s = sp) specs = []) in Hf. rewrite Hf in Hin. inversion Hin.
  - assert (s ∈ filter (λ s, s = sp) specs) as Hin by (change (filter (λ s, s = sp) specs = s :: l) in Hf; rewrite Hf; left).
    by apply list_elem_of_filter in Hin as [-> _].
Qed.

(** The rows of a scoped relation that all match exactly one parent stay as they are. *)
Lemma mask_view_all sp parents rows :
  NoDup (key (join_key sp) <$> parents) →
  (∀ c, c ∈ rows → ∃ p, p ∈ parents ∧ join_eq (join_key sp) c p = true) →
  mask_view arrange sp ((λ r, (0, r)) <$> parents) ((λ r, (0, r)) <$> rows) = rows.
Proof using arrange_Permutation.
  intros Hnd Hall. unfold mask_view. set (w := winners arrange later (join_key sp) ((λ r, (0, r)) <$> parents)).
  assert (w ≡ₚ (λ r, (0, r)) <$> parents) as Hw.
  { apply (winners_all arrange arrange_Permutation). by rewrite <- list_fmap_compose. }
  clearbody w. induction rows as [|c rows IH]; [done|]. rewrite fmap_cons, bind_cons.
  rewrite IH by (intros x Hx; apply Hall; by right). destruct (Hall c ltac:(left)) as (p & Hp & Hj).
  apply join_eq_true in Hj as [Hk Hn].
  assert (filter (λ q : ranked_row, join_eq (join_key sp) (0, c).2 q.2 && ((0, c).1 =? q.1) = true) w ≡ₚ [(0, p)]) as Hone.
  { rewrite Hw, filter_fmap. simpl. apply list_elem_of_split in Hp as (l1 & l2 & ->).
    rewrite filter_app, filter_cons_True by (rewrite andb_true_r; by apply join_eq_true).
    rewrite fmap_app in Hnd. simpl in Hnd. apply NoDup_app in Hnd as (_ & Hd & [Hp2 _]%NoDup_cons).
    rewrite !list_filter_none; [done| |]; intros q Hq; rewrite andb_true_r; intros [Hkq _]%join_eq_true.
    - apply Hp2. rewrite <- Hk, Hkq. by apply list_elem_of_fmap_2.
    - apply (Hd (key (join_key sp) q)); [by apply list_elem_of_fmap_2|]. rewrite <- Hkq, Hk. left. }
  apply Permutation_singleton_r in Hone. simpl in Hone. simpl. by rewrite Hone.
Qed.

(** An active row of a scoped relation has a parent among the active rows. *)
Lemma masked_has_parent v raws (specs : list RelationSpec) sp parent c :
  (∀ sp, sp ∈ specs → defined_as arrange v raws sp) → sp ∈ specs → parent ∈ specs →
  strategy sp = ScopedMask → parent_relation sp = Some (sp_name parent) → strategy parent = Upsert →
  primary_key parent = join_key sp → c ∈ rows_in v sp →
  ∃ p, p ∈ rows_in v parent ∧ join_eq (join_key sp) c p = true.
Proof using arrange_Permutation.
  intros Hv Hsp Hpin Hstr Hpname Hpst Hpk Hc. destruct (Hv sp Hsp) as (_ & rows & Hrows & Hst).
  destruct (Hv parent Hpin) as (Hraw & prows & Hprows & Hpst'). unfold rows_in in *. rewrite Hrows in Hc. simpl in Hc.
  rewrite Hprows. simpl. unfold stands_for in Hst, Hpst'. destruct (raws sp) as [own|]; [|subst rows; inversion Hc].
  rewrite Hstr, Hpname in Hst. destruct Hst as (parents & Hp & ->). simpl in Hp. rewrite Hraw in Hp. injection Hp as Hp.
  rewrite Hp, Hpst in Hpst'. subst prows. unfold mask_view in Hc. apply list_elem_of_bind in Hc as ([k c'] & Hc & _).
  apply list_elem_of_fmap in Hc as ([k' p] & -> & [Hj Hw]%list_elem_of_filter). simpl in Hj. apply andb_true_iff in Hj as [Hj _].
  apply join_eq_true in Hj as [Hk Hn]. apply (winners_subset arrange arrange_Permutation) in Hw.
  destruct (winners_cover arrange arrange_Permutation later (primary_key parent) parents (k', p) Hw) as ([k'' p'] & Hw' & Hk').
  exists p'. split; [unfold upsert_view; apply list_elem_of_fmap; by exists (k'', p')|]. simpl in *.
  apply join_eq_true. split; [|done]. rewrite Hk. rewrite <- Hpk. by rewrite Hk'.
Qed.

(** The checkpoint's view of a relation is the lineage's. *)
Lemma compacted_view (specs : list RelationSpec) v w sp raws :
  (∀ sp, sp ∈ specs → compactable v specs sp) → (∀ sp, sp ∈ specs → defined_as arrange v raws sp) →
  NoDup (sp_name <$> specs) →
  (∀ sp, sp ∈ specs → defined_as arrange w (λ sp, Some ((λ r, (0, r)) <$> mjoin (_compact_relation sp (rows_in v sp)))) sp) →
  sp ∈ specs → rows_in w sp ≡ₚ rows_in v sp ∧ NoDup (key (primary_key sp) <$> rows_in v sp).
Proof using arrange_Permutation.
  intros Hc Hv Hnd Hw Hsp.
  assert (∀ s, s ∈ specs → mjoin (_compact_relation s (rows_in v s)) ≡ₚ rows_in v s) as Hparts.
  { intros s Hs. destruct (Hc s Hs) as (Htyped & [E|E] & _); rewrite compact_relation_rows by done;
      rewrite filter_all; auto. }
  assert (∀ s, s ∈ specs → strategy s ≠ ScopedMask → NoDup (key (primary_key s) <$> rows_in v s)) as Hkeys.
  { intros s Hs Hm. destruct (Hv s Hs) as (_ & rows & Hrows & Hst). unfold rows_in. rewrite Hrows. simpl.
    unfold stands_for in Hst. destruct (raws s) as [own|]; [|subst rows; constructor].
    destruct (strategy s); [subst rows..|done]; unfold upsert_view, append_view;
      rewrite <- list_fmap_compose; apply winners_NoDup. }
  destruct (Hw sp Hsp) as (_ & rows & Hrows & Hst). unfold rows_in at 1. rewrite Hrows. simpl.
  unfold stands_for in Hst. set (written := mjoin (_compact_relation sp (rows_in v sp))) in *.
  assert (∀ better, NoDup (key (primary_key sp) <$> rows_in v sp) →
    snd <$> winners arrange better (primary_key sp) ((λ r, (0, r)) <$> written) ≡ₚ rows_in v sp) as Hwin.
  { intros better Hn. rewrite (winners_all arrange arrange_Permutation).
    - rewrite <- list_fmap_compose. change (snd ∘ (λ r : row, (0, r))) with (@id row). rewrite list_fmap_id. by apply Hparts.
    - rewrite <- list_fmap_compose. change ((λ x : ranked_row, key (primary_key sp) x.2) ∘ (λ r, (0, r))) with (key (primary_key sp)).
      unfold written. by rewrite (Hparts sp Hsp). }
  destruct (strategy sp) eqn:Hstr.
  - subst rows. specialize (Hkeys sp Hsp). rewrite Hstr in Hkeys. specialize (Hkeys ltac:(done)). split; [by apply Hwin|done].
  - subst rows. specialize (Hkeys sp Hsp). rewrite Hstr in Hkeys. specialize (Hkeys ltac:(done)). split; [by apply Hwin|done].
  - destruct (Hc sp Hsp) as (_ & _ & Hm). destruct (Hm Hstr) as (Hn & parent & Hpin & Hpname & Hpst & Hpk). split; [|done].
    destruct Hst as (parents & Hpar & ->). rewrite Hpname in Hpar. simpl in Hpar.
    destruct (Hw parent Hpin) as (Hraw & _). rewrite Hraw in Hpar. injection Hpar as <-.
    rewrite mask_view_all; [by apply Hparts| |].
    + rewrite (Hparts parent Hpin), <- Hpk. apply Hkeys; [done|]. by rewrite Hpst.
    + intros c Hcin. unfold written in Hcin. rewrite (Hparts sp Hsp) in Hcin. setoid_rewrite (Hparts parent Hpin).
      by apply (masked_has_parent v raws specs sp parent).
Qed.

Lemma staged_views specs lineage d v :
  compile_virtual_views arrange root read_parquet specs lineage d = Ok v →
  let staged := staged_rows ((λ sp, (sp, _compact_relation sp (rows_in v sp))) <$> specs) in
  ∃ w, views_of arrange specs staged = Ok w ∧ ∀ sp, sp ∈ specs →
    defined_as arrange w (λ sp, Some ((λ r, (0, r)) <$> mjoin (_compact_relation sp (rows_in v sp)))) sp.
Proof.
  intros Hv staged. pose proof (compile_virtual_Ok _ _ _ _ _ _ _ Hv) as (Hnd & _).
  unfold compile_virtual_views, views_of in Hv. apply bind_Ok in Hv as (ordered & Ho & _).
  pose proof (ordered_from_spec (length specs) [] specs (le_n _)) as Hspec. unfold _ordered_specs in Ho.
  rewrite Ho in Hspec. destruct Hspec as [Hperm Hpos].
  assert (NoDup (sp_name <$> ordered)) as Hnd' by (by rewrite Hperm).
  assert (∀ sp, sp ∈ ordered → staged sp = Some ((λ r, (0, r)) <$> mjoin (_compact_relation sp (rows_in v sp)))) as Hstaged.
  { intros sp Hsp. apply staged_rows_compact. by rewrite <- Hperm. }
  destruct (define_loop_succeeds staged ordered no_views Hnd') as [w Hw].
  - intros sp Hsp. split; [apply lookup_empty|]. rewrite Hstaged by done. by eexists.
  - intros name. unfold no_views. simpl. by rewrite lookup_empty.
  - intros l1 sp l2 Hl Hst. specialize (Hpos l1 sp l2 Hl). unfold is_ready in Hpos. rewrite Hst in Hpos.
    destruct (parent_relation sp) as [p|]; [|done]. exists p. split; [done|right]. by apply bool_decide_eq_true in Hpos.
  - exists w. unfold views_of, _ordered_specs. rewrite Ho. split; [done|]. intros sp Hsp. rewrite <- Hperm in Hsp.
    apply define_loop in Hw as (_ & _ & _ & Hdef); [|done|intros s _; apply lookup_empty].
    destruct (Hdef sp Hsp) as (Hraw & rows & Hact & Hst). rewrite Hstaged in Hraw, Hst by done.
    split; [done|]. by exists rows.
Qed.

Lemma fingerprint_same v w specs :
  (∀ sp, sp ∈ specs → is_Some (active v !! sp_name sp) ∧ is_Some (active w !! sp_name sp) ∧
     rows_in w sp ≡ₚ rows_in v sp ∧ NoDup (key (primary_key sp) <$> rows_in v sp)) →
  compute_logical_fingerprint sha256_hexdigest w specs = compute_logical_fingerprint sha256_hexdigest v specs ∧
  is_ok (compute_logical_fingerprint sha256_hexdigest v specs) = true.
Proof.
  intros H. unfold compute_logical_fingerprint.
  assert (mapr (relation_text w) specs = mapr (relation_text v) specs ∧ is_ok (mapr (relation_text v) specs) = true) as [-> Hok].
  { induction specs as [|sp specs IH]; [done|]. destruct IH as [IH1 IH2]; [intros s Hs; apply H; by right|].
    destruct (H sp ltac:(left)) as ([rv Hrv] & [rw Hrw] & Hp & Hnd). unfold rows_in in Hp, Hnd. rewrite Hrv in Hp, Hnd.
    rewrite Hrw in Hp. simpl in Hp, Hnd.
    assert (∃ t, relation_text w sp = Ok t ∧ relation_text v sp = Ok t) as (t & Hw & Hv).
    { unfold relation_text. rewrite Hrv, Hrw. simpl.
      rewrite (order_rows_unique _ rw rv Hp) by (by rewrite Hp). by eexists. }
    simpl. rewrite Hw, Hv, IH1. split; [done|]. simpl. by destruct (mapr (relation_text v) specs). }
  split; [done|]. by destruct (mapr (relation_text v) specs).
Qed.

(** C19: compaction of a lineage whose relations are compactable never fails its parity check:
    it returns parts whose views, as a checkpoint alone, are the views of the lineage. *)
Theorem compaction_keeps_the_views specs lineage d v :
  compile_virtual_views arrange root read_parquet specs lineage d = Ok v →
  (∀ sp, sp ∈ specs → compactable v specs sp) →
  ∃ parts fingerprint w,
    compact_lineage sha256_hexdigest arrange root read_parquet specs lineage d = Ok (parts, fingerprint) ∧
    views_of arrange specs (staged_rows parts) = Ok w ∧
    ∀ sp, sp ∈ specs → ∃ rows rows', active v !! sp_name sp = Some rows ∧ active w !! sp_name sp = Some rows' ∧ rows' ≡ₚ rows.
Proof using arrange_Permutation.
  intros Hv Hc. pose proof (compile_virtual_Ok _ _ _ _ _ _ _ Hv) as (Hnd & Hdef & _).
  destruct (staged_views specs lineage d v Hv) as (w & Hw & Hwdef).
  set (parts := (λ sp, (sp, _compact_relation sp (rows_in v sp))) <$> specs) in *.
  assert (∀ sp, sp ∈ specs → is_Some (active v !! sp_name sp)) as Hact.
  { intros sp Hsp. destruct (Hdef sp Hsp) as (_ & rows & -> & _). by eexists. }
  destruct (fingerprint_same v w specs) as [Hsame Hok].
  { intros sp Hsp. split; [by apply Hact|]. split; [|by eapply compacted_view].
    destruct (Hwdef sp Hsp) as (_ & rows & -> & _). by eexists. }
  destruct (compute_logical_fingerprint sha256_hexdigest v specs) as [fingerprint|] eqn:Hfp; [|done].
  exists parts, fingerprint, w. split; [|split; [done|]].
  - unfold compact_lineage. rewrite Hv. simpl. rewrite Hfp. simpl. rewrite compact_relations_Ok by done. simpl.
    fold parts. rewrite Hw. simpl. rewrite Hsame. simpl. by rewrite String.eqb_refl.
  - intros sp Hsp. destruct (Hdef sp Hsp) as (_ & rows & Hrows & _), (Hwdef sp Hsp) as (_ & rows' & Hrows' & _).
    exists rows, rows'. split_and!; [done..|].
    destruct (compacted_view specs v w sp _ Hc Hdef Hnd Hwdef Hsp) as [Hperm _].
    unfold rows_in in Hperm. by rewrite Hrows, Hrows' in Hperm.
Qed.
End parity.

(** ** Examples *)

(** An engine that reads truth values and numerals. *)
Definition demo_cast (x : cell) (text : string) : cell :=
  match x with
  | CNull => CNull
  | CBool _ => CBool (String.eqb text "True")
  | CInt _ => match int_of_string text with Ok n => CInt n | Err _ => CNull end
  | CText _ => CText text
  end.
#[local] Instance demo_casts : Casts.
Proof.
  refine {| cast_as := demo_cast |}.
  intros [|b|z|s] [|b'|z'|s'] Ht; try done; simpl; [by destruct b'|]. by rewrite int_of_str_of_int.
Defined.

Definition one_row_parts (sp : RelationSpec) : RelationSpec :=
  mkSpec (sp_name sp) (schema sp) (primary_key sp) (strategy sp) (sort_order sp) (parent_relation sp) (parent_join_key sp)
    (tie_breaker_column sp) (tie_breaker_op sp) (Some 1%Z) (entity_key sp).
Definition small_specs : list RelationSpec := [one_row_parts entries_spec; one_row_parts accessions_spec].
Definition small_v : views := Eval vm_compute in
  match compile_virtual_views (λ l, l) ["data"] demo_parquet small_specs demo_lineage parts_disk with Ok v => v | Err _ => no_views end.
Lemma small_v_Ok : compile_virtual_views (λ l, l) ["data"] demo_parquet small_specs demo_lineage parts_disk = Ok small_v.
Proof. vm_compute. reflexivity. Qed.

Lemma typed_eval c rows :
  forallb (λ r, match col r c with CText _ => true | _ => false end) rows = true → typed c rows.
Proof.
  rewrite forallb_forall. intros H r r' Hr%list_elem_of_In%H Hr'%list_elem_of_In%H _ _.
  by destruct (col r c), (col r' c).
Qed.
Lemma small_compactable sp : sp ∈ small_specs → compactable small_v small_specs sp.
Proof.
  intros [->|[->|Hs]%elem_of_cons]%elem_of_cons; [| |inversion Hs]; (split; [by apply typed_eval; vm_compute|split]).
  - right. apply Forall_forall, (bool_decide_unpack _). vm_compute. exact I.
  - intros _. split; [apply (bool_decide_unpack _); vm_compute; exact I|].
    exists (one_row_parts accessions_spec). split; [right; left|]. split; [reflexivity|]. split; reflexivity.
  - right. apply Forall_forall, (bool_decide_unpack _). vm_compute. exact I.
  - discriminate.
Qed.

Lemma compaction_keeps_the_views_witness : ∃ parts fingerprint,
  compact_lineage (λ s, s) (λ l, l) ["data"] demo_parquet small_specs demo_lineage parts_disk = Ok (parts, fingerprint).
Proof.
  destruct (compaction_keeps_the_views (λ s, s) (λ l, l) id_Permutation ["data"] demo_parquet _ _ _ _ small_v_Ok small_compactable)
    as (parts & fingerprint & _ & H & _). exists parts, fingerprint. exact H.
Defined.

Lemma compacted_parts_hold_the_rows_witness :
  length (_compact_relation (one_row_parts accessions_spec) (rows_in small_v accessions_spec)) = 2 ∧
  ∀ part, part ∈ _compact_relation (one_row_parts accessions_spec) (rows_in small_v accessions_spec) →
    (Z.of_nat (length part) <= 1)%Z ∨ ∃ k, ∀ r, r ∈ part → col r "accession" = k.
Proof.
  split; [vm_compute; reflexivity|]. intros part Hpart.
  refine (proj2 (compacted_parts_hold_the_rows (one_row_parts accessions_spec) (rows_in small_v accessions_spec) _) part 1%Z Hpart eq_refl).
  apply typed_eval. vm_compute. reflexivity.
Defined.

(** The part of "s1" with accession A1 is lost. *)
Definition lossy_disk : disk := mkDisk ∅ (files parts_disk ∖ {[["data"; "s1"; "acc"]]}).
Definition compacted (parts : list (RelationSpec * list (list row))) (name : string) : list row :=
  mjoin (mjoin ((λ p, p.2) <$> filter (λ p, sp_name p.1 = name) parts)).

(** A part file that is missing is left out without an error, and the parity check
    compares the incomplete views with themselves: compaction succeeds and its checkpoint has
    lost the rows. *)
Theorem missing_part_goes_unnoticed : ∃ parts fingerprint,
  compact_lineage (λ s, s) (λ l, l) ["data"] demo_parquet small_specs demo_lineage lossy_disk = Ok (parts, fingerprint) ∧
  (λ r, col r "accession") <$> compacted parts "accessions" = [CText "A2"] ∧
  (λ r, col r "accession") <$> demo_view "accessions" = [CText "A1"; CText "A2"].
Proof.
  destruct (compact_lineage (λ s, s) (λ l, l) ["data"] demo_parquet small_specs demo_lineage lossy_disk) as [[parts fp]|] eqn:E;
    [|vm_compute in E; discriminate E].
  exists parts, fp. split; [reflexivity|]. split; [|vm_compute; reflexivity].
  assert (match compact_lineage (λ s, s) (λ l, l) ["data"] demo_parquet small_specs demo_lineage lossy_disk with
    | Ok (parts, _) => (λ r, col r "accession") <$> compacted parts "accessions" | Err _ => [] end = [CText "A2"]) as H
    by (vm_compute; reflexivity).
  by rewrite E in H.
Qed.
