(* ===== verification/CellAllocation.v ===== *)
(** * Equal-level budget allocation: [engine/selection/cell_allocation.py]

    [equalized_cell_targets] distributes a budget of new documents over (form, era)
    cells: every cell is raised to a common level, bounded by what it has available, and
    the rest goes one by one to the first cells at that level.  Levels and counts are
    Python integers; the level is found by binary search. *)
From S2P Require Import Prelude.

Record cell := mkCell {
  form : string;
  era : string;
  selected : Z;
  available : Z;
}.
Definition key (c : cell) : string * string := (form c, era c).

Definition Zsum (l : list Z) : Z := foldr Z.add 0%Z l.

Section allocation.
Context (cells : list cell).

(** Dictionary comprehensions: the last cell with a key wins. *)
Definition initial_targets : gmap (string * string) Z :=
  foldl (λ m c, <[key c := selected c]> m) ∅ cells.
Definition capacities : gmap (string * string) Z :=
  foldl (λ m c, <[key c := (selected c + available c)%Z]> m) ∅ cells.
Definition capacity (c : cell) : Z := default 0%Z (capacities !! key c).

(** [min(...)], [max(...)] of a non-empty sequence. *)
Definition minimum (l : list Z) : Z :=
  match l with [] => 0%Z | z :: l => foldl Z.min z l end.
Definition maximum (l : list Z) : Z :=
  match l with [] => 0%Z | z :: l => foldl Z.max z l end.

Definition cost (level : Z) : Z :=
  Zsum ((λ c, Z.min (capacity c) level - Z.min (selected c) level)%Z <$> cells).

(** The [while low < high] loop; [fuel] bounds its iterations. *)
Fixpoint search (budget : Z) (fuel : nat) (low high : Z) : Z :=
  match fuel with
  | O => low
  | S fuel =>
      if (low <? high)%Z then
        let middle := ((low + high + 1) / 2)%Z in
        if (cost middle <=? budget)%Z then search budget fuel middle high
        else search budget fuel low (middle - 1)
      else low
  end.

Definition level (budget : Z) : Z :=
  let low := minimum (selected <$> cells) in
  let high := maximum ((map_to_list capacities).*2) in
  search budget (Z.to_nat (high - low)) low high.

Definition raise_to (low : Z) : gmap (string * string) Z :=
  foldl (λ m c, <[key c := Z.min (capacity c) (Z.max (selected c) low)]> m)
    initial_targets cells.

(** The last loop, with its [break]. *)
Fixpoint hand_out (low : Z) (l : list cell) (targets : gmap (string * string) Z)
    (remaining : Z) : gmap (string * string) Z :=
  match l with
  | [] => targets
  | c :: l =>
      if (remaining <=? 0)%Z then targets
      else
        let target := default 0%Z (targets !! key c) in
        if (target =? low)%Z && (target <? capacity c)%Z
        then hand_out low l (<[key c := (target + 1)%Z]> targets) (remaining - 1)
        else hand_out low l targets remaining
  end.

Definition equalized_cell_targets (budget : Z) : gmap (string * string) Z :=
  if (budget <=? 0)%Z || match cells with [] => true | _ => false end then initial_targets
  else
    let low := level budget in
    let targets := raise_to low in
    let remaining := (budget - Zsum ((λ c, default 0 (targets !! key c) - selected c)
                                       <$> cells))%Z in
    hand_out low cells targets remaining.
End allocation.

Example allocation_levels :
  let cells := [mkCell "10-K" "2001" 5 10; mkCell "10-K" "2010" 0 2; mkCell "8-K" "2001" 1 9] in
  (λ c, equalized_cell_targets cells 8 !! key c) <$> cells = [Some 6; Some 2; Some 6]%Z.
Proof. vm_compute. reflexivity. Qed.

(** ** Sums and dictionaries *)

Lemma Zsum_cons z l : Zsum (z :: l) = (z + Zsum l)%Z.
Proof. done. Qed.

Section sums.
Context {A : Type}.
Implicit Types (f g : A → Z) (l : list A).

Lemma Zsum_ext f g l : (∀ x, x ∈ l → f x = g x) → Zsum (f <$> l) = Zsum (g <$> l).
Proof.
  intros H. f_equal. apply list_fmap_ext. intros i x Hx.
  by eapply H, list_elem_of_lookup_2.
Qed.
Lemma Zsum_le f g l : (∀ x, x ∈ l → (f x ≤ g x)%Z) → (Zsum (f <$> l) ≤ Zsum (g <$> l))%Z.
Proof.
  induction l as [|x l IH]; intros H; [done|]. rewrite !fmap_cons, !Zsum_cons.
  apply Z.add_le_mono; [apply H; by left|]. apply IH. intros y Hy. apply H. by right.
Qed.
Lemma Zsum_add f g l : Zsum ((λ x, f x + g x)%Z <$> l) = (Zsum (f <$> l) + Zsum (g <$> l))%Z.
Proof. induction l as [|x l IH]; [done|]. rewrite !fmap_cons, !Zsum_cons, IH. lia. Qed.
Lemma Zsum_zero l : Zsum ((λ _ : A, 0%Z) <$> l) = 0%Z.
Proof. induction l as [|x l IH]; [done|]. by rewrite fmap_cons, Zsum_cons, IH. Qed.
End sums.

Section dictionary.
Context (f : cell → Z).
Let write (m : gmap (string * string) Z) (c : cell) := <[key c := f c]> m.

Lemma foldl_other m l k : k ∉ key <$> l → foldl write m l !! k = m !! k.
Proof.
  revert m; induction l as [|c l IH]; intros m; simpl; [done|].
  rewrite not_elem_of_cons. intros [Hk Hl]. rewrite IH by done. apply lookup_insert_ne. done.
Qed.

Lemma foldl_lookup m l c :
  NoDup (key <$> l) → c ∈ l → foldl write m l !! key c = Some (f c).
Proof.
  revert m; induction l as [|d l IH]; intros m; simpl; [by intros _ ?%not_elem_of_nil|].
  intros [Hd Hl]%NoDup_cons [->|Hc]%elem_of_cons; [|by apply IH].
  rewrite foldl_other by done. apply lookup_insert_eq.
Qed.
End dictionary.

(** ** The search *)

Section proofs.
Context (cells : list cell).
Context (Hkeys : NoDup (key <$> cells)) (Havail : ∀ c, c ∈ cells → (0 ≤ available c)%Z).

Lemma capacity_eq c : c ∈ cells → capacity cells c = (selected c + available c)%Z.
Proof.
  intros Hc. unfold capacity, capacities.
  by rewrite (foldl_lookup (λ c, selected c + available c)%Z).
Qed.

Lemma cost_mono i j : (i ≤ j)%Z → (cost cells i ≤ cost cells j)%Z.
Proof.
  intros Hij. apply Zsum_le. intros c Hc. rewrite capacity_eq by done.
  specialize (Havail c Hc). lia.
Qed.

Lemma search_ok budget fuel low high :
  (low ≤ high)%Z → (high - low ≤ Z.of_nat fuel)%Z → (cost cells low ≤ budget)%Z →
  let l := search cells budget fuel low high in
  (low ≤ l ≤ high)%Z ∧ (cost cells l ≤ budget)%Z ∧
  ((l < high)%Z → (budget < cost cells (l + 1))%Z).
Proof.
  revert low high; induction fuel as [|fuel IH]; intros low high Hle Hfuel Hcost; simpl.
  { split_and!; [lia..|done|lia]. }
  destruct (Z.ltb_spec low high); [|split_and!; [lia..|done|lia]].
  assert (Hm : (low < (low + high + 1) / 2 ≤ high)%Z).
  { split; [apply Z.lt_le_trans with (low + 1)%Z; [lia|]; apply Z.div_le_lower_bound; lia|].
    apply Z.div_le_upper_bound; lia. }
  destruct (Z.leb_spec (cost cells ((low + high + 1) / 2)) budget) as [Hc|Hc].
  - destruct (IH ((low + high + 1) / 2)%Z high) as (H1 & H2 & H3); [lia..|done|].
    split_and!; [lia..|done|done].
  - destruct (IH low ((low + high + 1) / 2 - 1)%Z) as (H1 & H2 & H3); [lia..|done|].
    split_and!; [lia..|done|]. intros _.
    destruct (Z.lt_ge_cases (search cells budget fuel low ((low + high + 1) / 2 - 1))
      ((low + high + 1) / 2 - 1)) as [Hlt|Hge]; [by apply H3|].
    eapply Z.lt_le_trans; [exact Hc|]. apply cost_mono. lia.
Qed.

Lemma minimum_le l z : z ∈ l → (minimum l ≤ z)%Z.
Proof.
  destruct l as [|x l]; [by intros ?%not_elem_of_nil|]. simpl.
  assert (Hg : ∀ l x, (foldl Z.min x l ≤ x)%Z ∧ ∀ z, z ∈ l → (foldl Z.min x l ≤ z)%Z).
  { clear. induction l as [|y l IH]; intros x; simpl; [split; [lia|by intros ? ?%not_elem_of_nil]|].
    destruct (IH (Z.min x y)) as [H1 H2]. split; [lia|].
    intros z [->|Hz]%elem_of_cons; [lia|by apply H2]. }
  destruct (Hg l x) as [H1 H2]. intros [->|Hz]%elem_of_cons; auto.
Qed.
Lemma maximum_ge l z : z ∈ l → (z ≤ maximum l)%Z.
Proof.
  destruct l as [|x l]; [by intros ?%not_elem_of_nil|]. simpl.
  assert (Hg : ∀ l x, (x ≤ foldl Z.max x l)%Z ∧ ∀ z, z ∈ l → (z ≤ foldl Z.max x l)%Z).
  { clear. induction l as [|y l IH]; intros x; simpl; [split; [lia|by intros ? ?%not_elem_of_nil]|].
    destruct (IH (Z.max x y)) as [H1 H2]. split; [lia|].
    intros z [->|Hz]%elem_of_cons; [lia|by apply H2]. }
  destruct (Hg l x) as [H1 H2]. intros [->|Hz]%elem_of_cons; auto.
Qed.

Lemma cost_minimum : cost cells (minimum (selected <$> cells)) = 0%Z.
Proof.
  unfold cost. rewrite (Zsum_ext _ (λ _, 0%Z)).
  - apply Zsum_zero.
  - intros c Hc. rewrite capacity_eq by done. specialize (Havail c Hc).
    assert (minimum (selected <$> cells) ≤ selected c)%Z
      by (apply minimum_le, list_elem_of_fmap_2; done). lia.
Qed.

Definition top : Z := maximum ((map_to_list (capacities cells)).*2).

Lemma capacity_top c : c ∈ cells → (selected c + available c ≤ top)%Z.
Proof.
  intros Hc. apply maximum_ge, list_elem_of_fmap.
  exists (key c, (selected c + available c)%Z). split; [done|]. apply elem_of_map_to_list.
  by apply (foldl_lookup (λ c, selected c + available c)%Z).
Qed.

(** The level found: affordable, and the next one is not unless it is the top. *)
Lemma level_ok budget :
  cells ≠ [] → (0 ≤ budget)%Z →
  (cost cells (level cells budget) ≤ budget)%Z ∧
  ((∀ c, c ∈ cells → (selected c + available c ≤ level cells budget)%Z) ∨
   (budget < cost cells (level cells budget + 1))%Z).
Proof.
  intros Hne Hb. unfold level. fold top.
  assert (Hlow : (minimum (selected <$> cells) ≤ top)%Z).
  { assert (∃ c, c ∈ cells) as [c Hc] by (destruct cells as [|c l]; [done|exists c; left]).
    transitivity (selected c); [by apply minimum_le, list_elem_of_fmap_2|].
    pose proof (capacity_top c Hc). specialize (Havail c Hc). lia. }
  destruct (search_ok budget (Z.to_nat (top - minimum (selected <$> cells)))
    (minimum (selected <$> cells)) top) as (H1 & H2 & H3); [done|lia|by rewrite cost_minimum|].
  split; [done|]. destruct (Z.lt_ge_cases (search cells budget
    (Z.to_nat (top - minimum (selected <$> cells))) (minimum (selected <$> cells)) top) top);
    [right; auto|left]. intros c Hc. pose proof (capacity_top c Hc). lia.
Qed.

(** ** The level, then the rest *)

Definition at_level (low : Z) (t : cell → Z) (c : cell) : bool :=
  (t c =? low)%Z && (t c <? selected c + available c)%Z.

Lemma raise_to_lookup low c :
  c ∈ cells →
  raise_to cells low !! key c =
    Some (Z.min (selected c + available c) (Z.max (selected c) low)).
Proof.
  intros Hc. unfold raise_to.
  rewrite (foldl_lookup (λ c, Z.min (capacity cells c) (Z.max (selected c) low))) by done.
  by rewrite capacity_eq.
Qed.

Lemma hand_out_other low l targets remaining k :
  k ∉ key <$> l → hand_out cells low l targets remaining !! k = targets !! k.
Proof.
  revert targets remaining; induction l as [|c l IH]; intros targets remaining; simpl; [done|].
  rewrite not_elem_of_cons. intros [Hk Hl]. destruct (_ <=? _)%Z; [done|].
  destruct (_ && _); rewrite IH by done; [|done]. apply lookup_insert_ne. done.
Qed.

(** The rest goes to the first cells at the level: [given] is what a cell gets. *)
Fixpoint given (p : cell → bool) (l : list cell) (remaining : Z) (c : cell) : Z :=
  match l with
  | [] => 0
  | d :: l =>
      if (remaining <=? 0)%Z then 0
      else if bool_decide (key c = key d) then (if p d then 1 else 0)
      else given p l (if p d then remaining - 1 else remaining) c
  end.

Lemma given_bounds p l remaining c : (0 ≤ given p l remaining c ≤ 1)%Z.
Proof.
  revert remaining; induction l as [|d l IH]; intros remaining; simpl; [lia|].
  destruct (_ <=? _)%Z; [lia|]. case_bool_decide; [destruct (p d); lia|apply IH].
Qed.
Lemma given_only p l remaining c :
  NoDup (key <$> l) → c ∈ l → given p l remaining c = 1%Z → p c = true.
Proof.
  revert remaining; induction l as [|d l IH]; intros remaining; simpl; [done|].
  intros [Hd Hl]%NoDup_cons [->|Hc]%elem_of_cons.
  - destruct (_ <=? _)%Z; [done|]. rewrite bool_decide_true by done. by destruct (p d).
  - destruct (_ <=? _)%Z; [done|]. rewrite bool_decide_false; [by apply IH|].
    intros He. apply Hd. rewrite <- He. by apply list_elem_of_fmap_2.
Qed.

Lemma given_sum p l remaining :
  NoDup (key <$> l) → (0 ≤ remaining)%Z →
  Zsum (given p l remaining <$> l) = Z.min remaining (Zsum ((λ c, Z.b2z (p c)) <$> l)).
Proof.
  revert remaining; induction l as [|d l IH]; intros remaining.
  { intros _ Hr. simpl. lia. }
  intros [Hd Hl]%NoDup_cons Hr. rewrite !fmap_cons, !Zsum_cons.
  assert (Hpos : (0 ≤ Zsum ((λ c, Z.b2z (p c)) <$> l))%Z).
  { rewrite <- (Zsum_zero l). apply Zsum_le. intros c _. destruct (p c); simpl; lia. }
  destruct (Z.leb_spec remaining 0) as [Hz|Hz].
  - assert (Hg : ∀ c, given p (d :: l) remaining c = 0%Z)
      by (intros c; simpl; by rewrite (proj2 (Z.leb_le remaining 0))).
    rewrite Hg, (Zsum_ext _ (λ _, 0%Z) l), Zsum_zero by (intros; apply Hg).
    destruct (p d); simpl; lia.
  - assert (Hg : ∀ c, c ∈ l → given p (d :: l) remaining c =
      given p l (if p d then remaining - 1 else remaining)%Z c).
    { intros c Hc. simpl. rewrite (proj2 (Z.leb_gt remaining 0)) by done.
      rewrite bool_decide_false; [done|].
      intros He. apply Hd. rewrite <- He. by apply list_elem_of_fmap_2. }
    rewrite (Zsum_ext _ _ l Hg), IH by (destruct (p d); done || lia).
    simpl. rewrite (proj2 (Z.leb_gt remaining 0)), bool_decide_true by done.
    destruct (p d); simpl; lia.
Qed.

Lemma hand_out_given low l targets remaining t :
  NoDup (key <$> l) → (∀ c, c ∈ l → c ∈ cells) →
  (∀ c, c ∈ l → targets !! key c = Some (t c)) →
  ∀ c, c ∈ l →
    hand_out cells low l targets remaining !! key c =
    Some (t c + given (at_level low t) l remaining c)%Z.
Proof.
  revert targets remaining; induction l as [|d l IH]; intros targets remaining; simpl;
    [by intros _ _ _ c ?%not_elem_of_nil|].
  intros [Hd Hl]%NoDup_cons Hin Ht c Hc.
  destruct (Z.leb_spec remaining 0); [rewrite Ht by done; f_equal; lia|].
  rewrite Ht by left. cbn [from_option id]. rewrite capacity_eq by (apply Hin; left).
  fold (at_level low t d).
  assert (Hin' : ∀ c, c ∈ l → c ∈ cells) by (intros; apply Hin; by right).
  assert (Hne : ∀ c, c ∈ l → key c ≠ key d).
  { intros c' Hc' He. apply Hd. rewrite <- He. by apply list_elem_of_fmap_2. }
  apply elem_of_cons in Hc as [->|Hc].
  - rewrite bool_decide_true by done.
    destruct (at_level low t d); rewrite hand_out_other by done.
    + by rewrite lookup_insert_eq.
    + rewrite Ht by left. f_equal. lia.
  - rewrite bool_decide_false by auto.
    destruct (at_level low t d); apply IH; auto; intros c' Hc'.
    + rewrite lookup_insert_ne by (intros He; by apply (Hne c')). apply Ht. by right.
    + apply Ht. by right.
Qed.

(** ** What the allocation guarantees *)

Definition target_of (budget : Z) (c : cell) : Z :=
  default 0%Z (equalized_cell_targets cells budget !! key c).

(** The target of a cell: raised to the level within its capacity, plus its share of
    the rest. *)
Definition raised (low : Z) (c : cell) : Z :=
  Z.min (selected c + available c) (Z.max (selected c) low).

Lemma raised_cost low :
  Zsum ((λ c, raised low c - selected c)%Z <$> cells) = cost cells low.
Proof.
  apply Zsum_ext. intros c Hc. rewrite capacity_eq by done. unfold raised.
  specialize (Havail c Hc). lia.
Qed.

Lemma target_of_eq budget c :
  (0 < budget)%Z → c ∈ cells →
  let low := level cells budget in
  target_of budget c =
    (raised low c + given (at_level low (raised low)) cells (budget - cost cells low) c)%Z.
Proof.
  intros Hb Hc low. unfold target_of, equalized_cell_targets.
  rewrite (proj2 (Z.leb_gt budget 0)) by done.
  assert (cells ≠ []) as Hne by (intros He; rewrite He in Hc; by apply not_elem_of_nil in Hc).
  assert (match cells with [] => true | _ => false end = false) as -> by (by destruct cells).
  cbn [orb]. fold low.
  assert (Hraise : ∀ c, c ∈ cells → raise_to cells low !! key c = Some (raised low c))
    by (intros; by apply raise_to_lookup).
  rewrite (Zsum_ext _ (λ c, raised low c - selected c)%Z), raised_cost.
  - by rewrite (hand_out_given _ _ _ _ (raised low)).
  - intros d Hd. by rewrite Hraise.
Qed.

(** One more level costs one document for every cell at the level. *)
Lemma cost_step low :
  cost cells (low + 1) =
  (cost cells low + Zsum ((λ c, Z.b2z (at_level low (raised low) c)) <$> cells))%Z.
Proof.
  unfold cost. rewrite <- Zsum_add. apply Zsum_ext. intros c Hc.
  rewrite capacity_eq by done. unfold at_level, raised. specialize (Havail c Hc).
  destruct (Z.eqb_spec (Z.min (selected c + available c) (Z.max (selected c) low)) low);
  destruct (Z.ltb_spec (Z.min (selected c + available c) (Z.max (selected c) low))
              (selected c + available c)); simpl; lia.
Qed.

Lemma within_capacity budget c :
  c ∈ cells → (selected c ≤ target_of budget c ≤ selected c + available c)%Z.
Proof.
  intros Hc. specialize (Havail c Hc) as Ha.
  destruct (Z.le_gt_cases budget 0) as [Hb|Hb].
  - unfold target_of, equalized_cell_targets. rewrite (proj2 (Z.leb_le _ _)) by done.
    cbn [orb]. unfold initial_targets. rewrite (foldl_lookup selected) by done.
    simpl. lia.
  - rewrite target_of_eq by done. set (low := level cells budget).
    set (rest := (budget - cost cells low)%Z).
    pose proof (given_bounds (at_level low (raised low)) cells rest c) as Hg.
    destruct (Z.eq_dec (given (at_level low (raised low)) cells rest c) 1) as [H1|H1].
    + apply given_only in H1 as Hat; [|done..]. rewrite H1.
      unfold at_level, raised in *. boolprop. lia.
    + assert (given (at_level low (raised low)) cells rest c = 0%Z) as -> by lia.
      unfold raised. lia.
Qed.

(** The whole budget is spent, as far as there is anything to buy. *)
Lemma budget_spent budget :
  (0 ≤ budget)%Z →
  Zsum ((λ c, target_of budget c - selected c)%Z <$> cells) =
  Z.min budget (Zsum (available <$> cells)).
Proof.
  intros Hb.
  assert (Hav : (0 ≤ Zsum (available <$> cells))%Z)
    by (rewrite <- (Zsum_zero cells); by apply Zsum_le).
  destruct (decide (budget = 0%Z)) as [->|Hb0].
  { rewrite (Zsum_ext _ (λ _, 0%Z)), Zsum_zero; [lia|]. intros c Hc.
    unfold target_of, equalized_cell_targets, initial_targets. simpl.
    rewrite (foldl_lookup selected) by done. simpl. lia. }
  destruct (decide (cells = [])) as [->|Hne]; [simpl; lia|].
  destruct (level_ok budget Hne Hb) as [Hcost Hmax].
  pose proof (cost_step (level cells budget)) as Hstep.
  set (low := level cells budget) in *.
  set (rest := (budget - cost cells low)%Z).
  assert (Hsum : Zsum ((λ c, target_of budget c - selected c)%Z <$> cells) =
    (cost cells low + Z.min rest (Zsum ((λ c, Z.b2z (at_level low (raised low) c)) <$> cells)))%Z).
  { rewrite <- given_sum by (done || lia). rewrite <- raised_cost, <- Zsum_add.
    apply Zsum_ext. intros c Hc. rewrite target_of_eq by (done || lia).
    fold low rest. lia. }
  assert (Hle : (Zsum ((λ c, target_of budget c - selected c)%Z <$> cells)
                 ≤ Zsum (available <$> cells))%Z).
  { apply Zsum_le. intros c Hc. pose proof (within_capacity budget c Hc). lia. }
  rewrite Hsum in *. destruct Hmax as [Hall|Hlt]; [|lia].
  assert (Hc : cost cells low = Zsum (available <$> cells)).
  { apply Zsum_ext. intros c Hc. rewrite capacity_eq by done.
    pose proof (Hall c Hc). specialize (Havail c Hc). lia. }
  assert (0 ≤ Zsum ((λ c, Z.b2z (at_level low (raised low) c)) <$> cells))%Z.
  { rewrite <- (Zsum_zero cells). apply Zsum_le. intros c _. destruct (at_level _ _ c); simpl; lia. }
  lia.
Qed.

Lemma equal_level budget c d :
  c ∈ cells → d ∈ cells →
  (selected c < target_of budget c)%Z →
  (target_of budget d < selected d + available d)%Z →
  (target_of budget c ≤ target_of budget d + 1)%Z.
Proof.
  intros Hc Hd. destruct (Z.le_gt_cases budget 0) as [Hb|Hb].
  { unfold target_of, equalized_cell_targets. rewrite (proj2 (Z.leb_le _ _)) by done.
    cbn [orb]. unfold initial_targets. rewrite !(foldl_lookup selected) by done. simpl. lia. }
  rewrite !target_of_eq by done. set (low := level cells budget).
  set (rest := (budget - cost cells low)%Z).
  pose proof (given_bounds (at_level low (raised low)) cells rest c) as Hgc.
  pose proof (given_bounds (at_level low (raised low)) cells rest d) as Hgd.
  specialize (Havail d Hd).
  destruct (Z.eq_dec (given (at_level low (raised low)) cells rest c) 1) as [H1|H1].
  - apply given_only in H1 as Hat; [|done..]. rewrite H1.
    set (g := given _ _ _ d) in *. unfold at_level, raised in *. boolprop. lia.
  - assert (given (at_level low (raised low)) cells rest c = 0%Z) as -> by lia.
    set (g := given _ _ _ d) in *. unfold raised. lia.
Qed.
End proofs.

(** C38: given distinct cells, the allocation stays within every cell's capacity, spends
    exactly the budget or all there is, and is level: no cell that received documents
    ends more than one above a cell that could still take some. *)
Theorem equalized_cell_targets_spec cells budget :
  NoDup (key <$> cells) → (∀ c, c ∈ cells → (0 ≤ available c)%Z) → (0 ≤ budget)%Z →
  (∀ c, c ∈ cells → (selected c ≤ target_of cells budget c ≤ selected c + available c)%Z) ∧
  Zsum ((λ c, target_of cells budget c - selected c)%Z <$> cells) =
    Z.min budget (Zsum (available <$> cells)) ∧
  ∀ c d, c ∈ cells → d ∈ cells → (selected c < target_of cells budget c)%Z →
    (target_of cells budget d < selected d + available d)%Z →
    (target_of cells budget c ≤ target_of cells budget d + 1)%Z.
Proof.
  intros Hk Ha Hb. split_and!.
  - intros c Hc. by apply within_capacity.
  - by apply budget_spent.
  - intros c d Hc Hd. by apply equal_level.
Qed.

Definition demo_cells : list cell :=
  [mkCell "10-K" "2001" 5 10; mkCell "10-K" "2010" 0 2; mkCell "8-K" "2001" 1 9].
Lemma equalized_cell_targets_spec_witness :
  Zsum ((λ c, target_of demo_cells 8 c - selected c)%Z <$> demo_cells) = 8%Z.
Proof.
  assert (NoDup (key <$> demo_cells)) as Hk by (apply (bool_decide_unpack _); vm_compute; exact I).
  refine (proj1 (proj2 (equalized_cell_targets_spec demo_cells 8 Hk _ _))); [|lia].
  intros c Hc. repeat (apply elem_of_cons in Hc as [->|Hc]; [simpl; lia|]).
  by apply not_elem_of_nil in Hc.
Defined.
